(* ===== verification/_CoqProject ===== *)
-Q . S2P
Prelude.v
PyDict.v
PyFloat.v
PyMonad.v
Teaching.v
Config.v
Hashing.v
Locks.v
Json.v
Logging.v
ConfigFile.v
Tables.v
Entry.v
Files.v
FileLock.v
Policies.v
PolicyLaws.v
PolicySpec.v
Storage.v
Backends.v
Jobs.v
Shard.v
ShardInv.v
ShardSpec.v
Cache.v
CliBasic.v
Workloads.v
Argparse.v
ArgparseSpec.v
CacheInv.v
CacheSafety.v
Reach.v
CacheSpec.v
CacheOnly.v
CliSpec.v
CliReload.v
Demo.v
CacheTheorems.v
CliTheorems.v
WorkloadTheorems.v
Lifecycle.v
WriteBackInv.v
WriteBack.v
Race.v
Pool.v
Calls.v
OneWorker.v
Closing.v
ClosingTheorems.v
Flights.v
SingleFlight.v
LoadOnce.v
Demos.v
Examples.v
CliMain.v
CliRoundtrip.v
