(* ===== verification/Prelude.v ===== *)
(** * CacheLab: a verification library

    CacheLab (the Python package [cachelab] of this repository, under src/cachelab) is a
    sharded in-process cache with lifetimes, pluggable eviction policies, single-flight
    loading, a worker pool, and write-through and write-back modes over a source backend,
    with a command line that keeps a cache in a state file and runs simulated workloads.
    This library models the package and proves what makes it correct.

    ** The program

    A [Cache] (core/cache.py) is a facade over a tuple of shards.  A key is routed to a shard
    by a hash that is stable across processes (concurrency/hashing.py); a [CacheShard]
    (concurrency/shards.py) holds a storage backend (storage/memory.py), an eviction policy
    (policies/), counters (core/stats.py), the registrations of loads under way
    (concurrency/singleflight.py), and for write-back mode version marks, tombstones and
    pending-flush counters, all guarded by the shard's lock.  In write-through mode the source
    backend (storage/slow_dict.py) is written under the lock; in write-back mode the entry is
    marked dirty and a [FlushWriteBack] job goes to the bounded queue (workers/queue.py), from
    which the threads of the pool (workers/worker_pool.py) take jobs; a scheduler
    (workers/scheduler.py) queues expiration jobs.  [close] flushes what is dirty, first
    through the workers and then itself, and stops the threads.

    The command line (cli/) builds a cache for every basic command, fills it from a JSON file
    under a lock file (storage/serialization.py), performs one call, saves, and prints tables
    (observability/tables.py, cli/commands/render.py); its workload commands run streams of
    keys (workloads/) against a fresh cache.  cli/parser.py describes the arguments to [argparse], and
    cli/main.py dispatches what it returns and turns exceptions into an exit code.  The examples of teaching/ leave out the locks,
    the single flight, the monotonic clock or the versions, and show what goes wrong.

    ** The model

    Stateful code is a function from a state to a state and a [result] (a value or a Python
    exception), written in the monad of [PyMonad]; loops over data are structural, other
    loops have a fuel that is proved to be enough.  A block [with shard.lock: ...] is one
    function on the shard (and the source, where the block writes it), composed into the
    methods of the cache by [with_lock] and [with_lock_src].  Integers are unbounded, as in
    Python; floats are IEEE 754 binary64 ([SpecFloat]); a [dict] is an association list in
    insertion order.  The clock is [FakeClock], which the code accepts wherever it accepts a
    clock; time moves by separate steps, so every theorem holds for every passage of time
    between calls.  Key hashing is a parameter of the cache ([KeyHash]) and is modelled in
    [Hashing].  A loader is given by its outcome.  A command-line process works on a [World]:
    files, clocks, output, and what the environment does to each of its system calls and
    prints (it works, it fails, or the process is killed in it, before or after it takes effect).  A JSON file is the value it denotes.

    - [Prelude], [PyDict], [PyFloat], [PyMonad]: tactics, Python's sums and ranges, ordered
      dicts, floats, exceptions, the state monad and the rules [keeps], [returns], [succeeds].
    - [Config]: core/config.py and [shard_capacities]; [ConfigFile]: configuration files, with
      values of any type; [Hashing]: concurrency/hashing.py;
      [Entry]: core/entry.py and core/clock.py.
    - [Policies]: policies/, one Module per policy and the class [EvictionPolicy];
      [PolicyLaws]: the class of laws the shard relies on, with an instance per policy;
      [PolicySpec]: which key each policy evicts, over any history of calls.
    - [Storage]: storage/memory.py and storage/slow_dict.py; [Backends]: storage/base.py, a class
      with laws, and the memory backend as its instance and as an ordered map; [Jobs]: workers/messages.py,
      workers/queue.py, workers/write_back_worker.py, workers/expiration_worker.py and the
      tick of workers/scheduler.py.
    - [Shard]: concurrency/shards.py and the critical sections of core/cache.py;
      [ShardInv]: the invariant of one shard, for any policy with the laws; [ShardSpec]: what
      the critical sections do to the visible values.
    - [Cache]: core/cache.py, method by method, with workers/worker_pool.py and the state of
      workers/scheduler.py.  [CacheInv], [CacheSafety]: the invariant of the cache and that
      every method keeps it; [Reach]: [cache_step], one call or one action of the environment
      (a worker, the scheduler, the clock, a failure of the source), and [reachable] caches;
      [CacheSpec]: what each method returns and changes; [Demo]: small concrete caches.
    - [CacheTheorems], [Lifecycle]: what callers rely on.  [WriteBackInv], [WriteBack]: the
      protocol of version marks, tombstones and pending counters.
    - [Race]: several workers interleaved at the critical sections of a flush job.  [Pool]: the
      loops of workers/worker_pool.py and workers/scheduler.py action by action, under any
      schedule, with their stop events and joins (workers/shutdown.py).
      [Calls]: the calls of the clients as other threads see them; [OneWorker]: the worker of a
      write-back cache, interrupted by them; [Closing]: [close] action by action, with the worker
      and the clients; [ClosingTheorems]: what the interleavings guarantee.
      [Flights], [SingleFlight]: calls of [get_or_compute] interleaved at theirs; [LoadOnce]:
      how often they load, and that they end.
    - [Locks]: concurrency/locks.py, threads interleaved at the operations on the lock.
    - [Json]: Python's values, the order [json.dump] writes objects in, and [repr] and [float];
      [Logging]: observability/logging.py; [Tables]: observability/tables.py and the formats of cli/commands/render.py; [Files]:
      storage/serialization.py; [FileLock]: its lock among several processes.
    - [CliBasic]: cli/commands/basic.py; [CacheOnly]: the cache in cache-only mode; [CliSpec],
      [CliReload]: what a command does to the world, and what a reload restores; [CliTheorems]:
      what the commands promise.
    - [Argparse]: the part of Python's [argparse] that the parser uses, as CPython 3.11 has it;
      [ArgparseSpec]: its loop ends, its namespaces are typed, its exit codes.  [CliMain]:
      cli/parser.py as data for it, and cli/main.py; [CliRoundtrip]: writing command lines.
    - [Workloads]: workloads/, cli/commands/simulate.py and cli/commands/benchmark.py, over any
      generator of random numbers (class [Random]); [WorkloadTheorems]: what they measure.
    - [Teaching]: teaching/, threads under a schedule; [Demos]: the scripts of
      cli/commands/demo.py, with the share of the threads they start as arguments;
      [Examples]: the cache as a context manager, and the programs of examples/.

    ** What is proved

    - The abstract specification of the cache is a finite map with deletions, evictions and
      expirations made explicit; [cache_refines_map] shows that every call on every reachable
      cache refines a step of it.  [put_outcomes] says which outcome a put has
      and what it leaves; [put_get_roundtrip], [expire_all_exact],
      [dump_lists_live_entries], [inspect_removes_expired] and [get_or_compute_outcomes] give
      the behaviour of other calls outcome by outcome, errors included; a new cache is as
      configured ([cache_init_accepts_exactly_valid]).
    - In every reachable cache the size is bounded by the capacity, keys live in their shard,
      the policy tracks exactly the stored keys, the bookkeeping is bounded, and the counters
      balance ([reachable_size_bounded] and its neighbours), also with several workers
      ([concurrent_workers_keep_invariants]).
    - Agreement with the source: exact in write-through mode
      ([write_through_agrees_with_source]); in write-back mode with at most one worker and a
      policy other than LFU, clean entries agree, the pending counters are exact, and a
      [close] that returns has persisted everything, for every
      interleaving of the worker's phases, the clients' critical sections and enqueueings, and the
      actions of [close] ([interleaved_clean_entries_agree], [interleaved_pending_counts],
      [interleaved_close_persists]; [close_runs_its_phases] relates these actions to
      [Cache.close]).  [WriteBack] has the same for flush jobs that nothing interrupts, which is what [worker_step] and
      [cache_close] run; with two workers that interrupt each other it fails.
    - Lifecycle: [close] always ends closed, a closed cache rejects calls, a worker survives
      every job ([Lifecycle]), a [with] block always closes ([with_block_closes]).
    - Threads: once the stop events are set, every thread of a closed cache ends however the
      threads are interleaved, after a number of rounds that is computed from the queue and the
      phases of the threads ([stopped_threads_end]); [WorkerPool.stop] settles the queue and
      loses no thread but a worker that itself waits for [close] ([pool_stop_joins]).
    - The memory backend answers every sequence of calls as a finite map does and enumerates in the order
      of insertion ([memory_backend_is_ordered_map]); backends that obey the laws of the interface cannot be told
      apart but by the order of their enumerations ([lawful_backends_agree]).
    - Configuration files mean their settings, with aliases, defaults and validation, and fail
      in the expected ways ([ConfigFile]).
    - Single flight: waiters get exactly their leader's outcome and are never lost, and a key
      has one leader at a time while nothing deletes it ([SingleFlight]); threads that miss a
      key at once load it once, and every call ends when its thread goes on moving
      ([LoadOnce]; [single_flight_demo_loads_once] is the demo of it).
    - The policies evict the first inserted, the least recently used, and the least
      frequently used key ([PolicySpec]); configurations are accepted exactly when valid.
    - The metered lock excludes and counts exactly ([metered_lock_excludes]).
    - State files: a write leaves the old or the new content under every failure and crash, the new one when it returns and the
      old one when it fails ([write_json_atomic]), the
      lock file excludes as long as an attempt is not interrupted between its system calls and
      the holder is quick, a stale one is taken over, and waiting ends ([FileLock]).
    - The command line: what the parser accepts the handlers can handle
      ([parsed_command_lines_are_handled]), every basic command can be written and is read back
      ([command_line_roundtrip]), and the exit codes are the documented ones
      ([main_exit_codes]); whatever happens to a command, its state file is as it was or complete, and it is as it was
      when anything failed up to the save ([cli_state_old_or_complete]), what is saved is what is loaded, and what is put is what a later
      command gets ([CliTheorems]).
    - Workloads: a simulation ends with a result exactly when its arguments are valid, its
      counters account for every request, a scan never hits and a loop that fits misses once
      per key, under every policy, clock and generator ([WorkloadTheorems]).
    - The unsafe examples are unsafe, and safe where they should be ([Teaching]).
    - Some theorems are about behaviour the documentation does not lead one to expect, each on
      a concrete run: a write-back put lost under LFU ([lfu_write_back_loses_put]), a put lost
      to a shutdown that began after its guard ([put_during_close_is_lost]), a deleted
      key brought back by two workers ([two_workers_resurrect_deleted_key]), overlapping loads
      after a deletion ([delete_lets_leaders_overlap]), equal tuple keys in different shards
      ([equal_tuple_keys_may_be_split]), two processes in the block of a lock file
      ([interrupted_attempts_share_the_lock]), a recency that commands forget
      ([cli_forgets_recency]), a value lost to a lifetime of NaN ([cli_nan_ttl_is_lost]), a worker
      that outlives [stop] ([preload_outlives_stop]), settings of the wrong types
      ([config_file_types_unchecked]) and options without effect
      ([workload_ignores_global_options]).

    ** Bounds and fuel

    [enforce_capacity_locked] runs its loop with one more than the number of keys the policy
    tracks: every iteration drops one, and the invariant shows the loop ends with the size
    within the capacity.  [queue_drain] runs with one more than the queue's length
    ([drain_loop_spec]).  What worker threads do while [close] waits for them is the
    environment's choice ([CloseEnv]: how many jobs they finish, how many threads survive);
    the theorems hold for every choice.  Likewise the waiting process of a lock file is given
    the changes other processes make during each of its pauses, any number of them
    ([lock_enter_ends] shows when they are enough); [unsafe_put] runs its four steps.  Threads
    under a schedule move once per element of it; six rounds of every thread end every call of
    [get_or_compute] ([every_call_ends]).  The second loop of [argparse] consumes an argument per
    iteration, so the number of arguments is enough fuel ([parse_loop_fuel]).  The weight
    [threads_weight] counts six actions per flush job and retry, three for any other job, and
    what is left of the phase of each thread.

    ** What is not modelled

    The calls that write log lines within the methods; [MonotonicClock] and the timing of waits
    (a wait that times out is the environment's choice, and the timeout of a critical put is taken not to be
    negative); the texts of JSON and TOML (a file is the value it denotes, and [CliBasic] has
    [CacheConfig.from_file] as a parameter, which [ConfigFile] models on the parsed value); the
    texts of help and usage errors; failures of the error stream.  The theorems on command lines leave out arguments that end
    in [--], which [argparse] of this version can turn into an empty list.  The critical sections of the shards are
    one step each: [Locks] shows that the lock makes them so.  [put] is one step in the
    interleavings of [SingleFlight], and clients' calls are one step each in those of [Race].  In [Closing] a call
    passes its guard in the same step as its critical section ([clear] takes its shards while the cache is open), which
    [put_during_close_is_lost] shows to be needed, [get_or_compute] is one step, the pool runs one worker
    (with two, [two_workers_resurrect_deleted_key]), and [join_until] does not time out: after a timeout [close]
    raises, and the worker may still be in the middle of a job. *)

From stdpp Require Import base tactics numbers option sets list.

Declare Scope cache_scope.
Delimit Scope cache_scope with cache.

(** ** Truth of Python conditions *)

(** [o is not None] for an optional value. *)
Definition is_not_none {A : Type} (o : option A) : bool :=
  match o with Some _ => true | None => false end.

(** Python's [sum] over a sequence of integers. *)
Definition py_sum (l : list Z) : Z := foldr Z.add 0%Z l.

(** Python's [range(n)] for a non-negative [n], as integers. *)
Definition py_range (n : Z) : list Z := Z.of_nat <$> seq 0 (Z.to_nat n).

(** ** Hint databases and tactics *)

Create HintDb cachedb.

(** Split every conjunction and dispose of the trivial parts. *)
Ltac split_conj := repeat match goal with |- _ ∧ _ => split end.

(** Case analysis on every [decide] and [bool] test of the goal. *)
Ltac case_tests :=
  repeat (case_decide || case_bool_decide || case_match); simplify_eq/=.

(** Close a goal with the development's own hints, linear arithmetic or set reasoning. *)
Ltac cache_auto := first [ done | lia | by eauto with cachedb | naive_solver ].

(** ** Lists *)

Lemma py_sum_app (l1 l2 : list Z) : py_sum (l1 ++ l2) = (py_sum l1 + py_sum l2)%Z.
Proof. induction l1 as [|x l1 IH]; simpl; lia. Qed.

Lemma py_sum_nonneg (l : list Z) : Forall (λ x, (0 ≤ x)%Z) l → (0 ≤ py_sum l)%Z.
Proof. induction 1; simpl; lia. Qed.

Lemma py_sum_le_pointwise (l1 l2 : list Z) :
  Forall2 Z.le l1 l2 → (py_sum l1 ≤ py_sum l2)%Z.
Proof. induction 1; simpl; lia. Qed.

Lemma py_sum_fmap_add {A} (f g : A → Z) (l : list A) :
  py_sum ((λ x, f x + g x)%Z <$> l) = (py_sum (f <$> l) + py_sum (g <$> l))%Z.
Proof. induction l as [|x l IH]; csimpl; lia. Qed.

Lemma py_sum_insert {A} (f : A → Z) (l : list A) (i : nat) (x y : A) :
  l !! i = Some x →
  py_sum (f <$> <[i:=y]> l) = (py_sum (f <$> l) - f x + f y)%Z.
Proof.
  revert i. induction l as [|z l IH]; intros [|i] Hi; simplify_eq/=; [lia|].
  rewrite (IH i Hi). lia.
Qed.

Lemma length_py_range (n : Z) : length (py_range n) = Z.to_nat n.
Proof. unfold py_range. by rewrite length_fmap, length_seq. Qed.

Lemma elem_of_py_range (n i : Z) : i ∈ py_range n ↔ (0 ≤ i < n)%Z.
Proof.
  unfold py_range. rewrite list_elem_of_fmap. setoid_rewrite elem_of_seq. split.
  - intros (j & -> & Hj). lia.
  - intros Hi. exists (Z.to_nat i). lia.
Qed.

Lemma filter_all_false {A} (P : A → Prop) `{∀ x, Decision (P x)} (l : list A) :
  (∀ x, x ∈ l → ¬ P x) → filter P l = [].
Proof.
  induction l as [|x l IH]; intros Hl; [done|].
  rewrite filter_cons_False by set_solver. apply IH. set_solver.
Qed.

Lemma NoDup_fmap_filter {A B} (f : A → B) (P : A → Prop) `{∀ x, Decision (P x)} (l : list A) :
  NoDup (f <$> l) → NoDup (f <$> filter P l).
Proof.
  induction l as [|x l IH]; csimpl; [done|]. rewrite NoDup_cons. intros [Hx Hl].
  rewrite filter_cons. case_decide; [|by apply IH]. csimpl. rewrite NoDup_cons. split; [|by apply IH].
  intros Hin. apply Hx. apply list_elem_of_fmap in Hin as (y & -> & Hy).
  apply list_elem_of_filter in Hy as [_ Hy]. by apply list_elem_of_fmap_2.
Qed.

(** A list without duplicates is no longer than any list that has its elements. *)
Lemma NoDup_length_le {A} (l k : list A) :
  NoDup l → (∀ x, x ∈ l → x ∈ k) → (length l ≤ length k)%nat.
Proof. intros Hl Hk. by apply submseteq_length, NoDup_submseteq. Qed.

#[export] Hint Resolve Forall_insert : cachedb.
