(* ===== verification/PyDict.v ===== *)
(** Python dictionaries and [collections.OrderedDict].

    A dictionary is an association list kept in insertion order: assigning to a
    present key keeps its position, assigning to a new key appends it, iteration
    runs from the oldest key to the newest.  Keys are compared by the decidable
    equality of their type, which stands for Python's [==] on keys.  Two
    dictionaries with the same lookups but another order are related by [≡d]. *)

From stdpp Require Import base tactics numbers option sets list.
From S2P Require Import Prelude.

Definition dict (K A : Type) : Type := list (K * A).

Section dict.
Context {K A : Type} `{EqDecision K}.

(** [d.get(k)] *)
Fixpoint dict_get (d : dict K A) (k : K) : option A :=
  match d with
  | [] => None
  | (k', v) :: d' => if decide (k' = k) then Some v else dict_get d' k
  end.

(** [d[k] = v] *)
Fixpoint dict_set (d : dict K A) (k : K) (v : A) : dict K A :=
  match d with
  | [] => [(k, v)]
  | (k', v') :: d' =>
      if decide (k' = k) then (k', v) :: d' else (k', v') :: dict_set d' k v
  end.

(** [d.pop(k, None)], the dictionary that is left. *)
Fixpoint dict_pop (d : dict K A) (k : K) : dict K A :=
  match d with
  | [] => []
  | (k', v) :: d' => if decide (k' = k) then dict_pop d' k else (k', v) :: dict_pop d' k
  end.

(** [k in d] *)
Definition dict_mem (d : dict K A) (k : K) : bool := is_not_none (dict_get d k).

(** [d.get(k, default)] *)
Definition dict_get_default (d : dict K A) (k : K) (default : A) : A :=
  match dict_get d k with Some v => v | None => default end.

(** [d.keys()], [d.values()] and [len(d)] *)
Definition dict_keys (d : dict K A) : list K := map fst d.
Definition dict_values (d : dict K A) : list A := map snd d.
Definition dict_len (d : dict K A) : Z := Z.of_nat (length d).

(** [d.move_to_end(k)] for a present key (a missing one raises [KeyError] in
    Python; every call in the sources is guarded by a membership test). *)
Definition dict_move_to_end (d : dict K A) (k : K) : dict K A :=
  match dict_get d k with
  | Some v => dict_pop d k ++ [(k, v)]
  | None => d
  end.

(** [next(iter(d), None)] *)
Definition dict_first (d : dict K A) : option K := fst <$> head d.

(** No key occurs twice: the representation invariant of a dictionary. *)
Definition dict_wf (d : dict K A) : Prop := NoDup (dict_keys d).

(** Same lookups, order forgotten. *)
Definition dict_equiv (d1 d2 : dict K A) : Prop := ∀ k, dict_get d1 k = dict_get d2 k.
End dict.

Notation "d1 ≡d d2" := (dict_equiv d1 d2) (at level 70, no associativity) : cache_scope.
Open Scope cache_scope.

Section lemmas.
Context {K A : Type} `{EqDecision K}.
Implicit Types (d : dict K A) (k : K) (v : A).

Lemma dict_get_set d k v k' :
  dict_get (dict_set d k v) k' = if decide (k = k') then Some v else dict_get d k'.
Proof.
  induction d as [|[k0 v0] d IH]; simpl; repeat case_decide; simplify_eq/=;
    repeat case_decide; simplify_eq/=; done.
Qed.

Lemma dict_get_set_eq d k v : dict_get (dict_set d k v) k = Some v.
Proof. rewrite dict_get_set. by case_decide. Qed.

Lemma dict_get_set_ne d k v k' : k ≠ k' → dict_get (dict_set d k v) k' = dict_get d k'.
Proof. intros. rewrite dict_get_set. by case_decide. Qed.

Lemma dict_get_pop d k k' :
  dict_get (dict_pop d k) k' = if decide (k = k') then None else dict_get d k'.
Proof.
  induction d as [|[k0 v0] d IH]; simpl; repeat case_decide; simplify_eq/=;
    repeat case_decide; simplify_eq/=; done.
Qed.

Lemma dict_get_pop_eq d k : dict_get (dict_pop d k) k = None.
Proof. rewrite dict_get_pop. by case_decide. Qed.

Lemma dict_get_pop_ne d k k' : k ≠ k' → dict_get (dict_pop d k) k' = dict_get d k'.
Proof. intros. rewrite dict_get_pop. by case_decide. Qed.

Lemma dict_get_app d1 d2 k :
  dict_get (d1 ++ d2) k = match dict_get d1 k with Some v => Some v | None => dict_get d2 k end.
Proof. induction d1 as [|[k0 v0] d1 IH]; simpl; case_tests; done. Qed.

Lemma dict_mem_keys d k : k ∈ dict_keys d ↔ dict_mem d k = true.
Proof.
  unfold dict_mem. induction d as [|[k0 v0] d IH]; simpl; [set_solver|].
  rewrite elem_of_cons, IH. case_tests; naive_solver.
Qed.

Lemma dict_keys_get d k : k ∈ dict_keys d ↔ is_Some (dict_get d k).
Proof. rewrite dict_mem_keys. unfold dict_mem. destruct (dict_get d k); naive_solver. Qed.

Lemma dict_not_keys_get d k : k ∉ dict_keys d ↔ dict_get d k = None.
Proof. rewrite dict_keys_get, eq_None_not_Some. done. Qed.

Lemma dict_keys_set_in d k v : k ∈ dict_keys d → dict_keys (dict_set d k v) = dict_keys d.
Proof.
  induction d as [|[k0 v0] d IH]; simpl; [set_solver|]. intros Hin.
  case_decide; simpl; [done|]. f_equal. apply IH. set_solver.
Qed.

Lemma dict_keys_set_notin d k v :
  k ∉ dict_keys d → dict_keys (dict_set d k v) = dict_keys d ++ [k].
Proof.
  induction d as [|[k0 v0] d IH]; simpl; [done|]. intros Hin.
  case_decide; simpl; [set_solver|]. f_equal. apply IH. set_solver.
Qed.

Lemma dict_set_notin d k v : k ∉ dict_keys d → dict_set d k v = d ++ [(k, v)].
Proof.
  induction d as [|[k0 v0] d IH]; simpl; [done|]. intros Hin.
  case_decide; simpl; [set_solver|]. f_equal. apply IH. set_solver.
Qed.

Lemma dict_keys_set_elem d k v k' : k' ∈ dict_keys (dict_set d k v) ↔ k' = k ∨ k' ∈ dict_keys d.
Proof. rewrite !dict_keys_get, dict_get_set. case_decide; naive_solver. Qed.

Lemma dict_keys_pop d k : dict_keys (dict_pop d k) = filter (λ k', k' ≠ k) (dict_keys d).
Proof.
  induction d as [|[k0 v0] d IH]; simpl; [done|].
  rewrite filter_cons. repeat case_decide; simpl; try congruence; by rewrite IH.
Qed.

Lemma dict_keys_pop_elem d k k' : k' ∈ dict_keys (dict_pop d k) ↔ k' ≠ k ∧ k' ∈ dict_keys d.
Proof. rewrite dict_keys_pop, list_elem_of_filter. done. Qed.

Lemma dict_pop_notin d k : k ∉ dict_keys d → dict_pop d k = d.
Proof.
  induction d as [|[k0 v0] d IH]; simpl; [done|]. intros Hin.
  case_decide; [set_solver|]. f_equal. apply IH. set_solver.
Qed.

Lemma dict_keys_app (d1 d2 : dict K A) : dict_keys (d1 ++ d2) = dict_keys d1 ++ dict_keys d2.
Proof. apply map_app. Qed.

Lemma dict_wf_set d k v : dict_wf d → dict_wf (dict_set d k v).
Proof.
  unfold dict_wf. intros Hd. destruct (decide (k ∈ dict_keys d)).
  - by rewrite dict_keys_set_in.
  - rewrite dict_keys_set_notin by done. apply NoDup_app. split_conj; [done|set_solver|].
    apply NoDup_singleton.
Qed.

Lemma dict_wf_pop d k : dict_wf d → dict_wf (dict_pop d k).
Proof. unfold dict_wf. rewrite dict_keys_pop. apply NoDup_filter. Qed.

Lemma dict_wf_move_to_end d k : dict_wf d → dict_wf (dict_move_to_end d k).
Proof.
  unfold dict_move_to_end. intros Hd. destruct (dict_get d k); [|done].
  unfold dict_wf. rewrite dict_keys_app. apply NoDup_app.
  split_conj; [by apply dict_wf_pop| |apply NoDup_singleton].
  intros k' Hk'%dict_keys_pop_elem. set_solver.
Qed.

Lemma dict_wf_empty : dict_wf ([] : dict K A).
Proof. apply NoDup_nil_2. Qed.

Lemma dict_keys_move_to_end_elem d k k' :
  k' ∈ dict_keys (dict_move_to_end d k) ↔ k' ∈ dict_keys d.
Proof.
  unfold dict_move_to_end. destruct (dict_get d k) eqn:E; [|done].
  rewrite dict_keys_app, elem_of_app, dict_keys_pop_elem. simpl.
  rewrite list_elem_of_singleton.
  assert (k ∈ dict_keys d) by (apply dict_keys_get; eauto).
  destruct (decide (k' = k)); naive_solver.
Qed.

Lemma dict_get_move_to_end d k k' : dict_get (dict_move_to_end d k) k' = dict_get d k'.
Proof.
  unfold dict_move_to_end. destruct (dict_get d k) as [v|] eqn:E; [|done].
  rewrite dict_get_app, dict_get_pop. simpl. repeat case_decide; simplify_eq; [done|].
  by destruct (dict_get d k').
Qed.

Lemma dict_len_keys d : dict_len d = Z.of_nat (length (dict_keys d)).
Proof. unfold dict_len, dict_keys. by rewrite length_map. Qed.

Lemma dict_len_nonneg d : (0 ≤ dict_len d)%Z.
Proof. unfold dict_len. lia. Qed.

Lemma dict_len_zero d : dict_len d = 0%Z → d = [].
Proof. unfold dict_len. destruct d; simpl; [done|lia]. Qed.

Lemma dict_len_set d k v :
  dict_len (dict_set d k v) = if dict_mem d k then dict_len d else (dict_len d + 1)%Z.
Proof.
  destruct (dict_mem d k) eqn:E; rewrite !dict_len_keys.
  - by rewrite dict_keys_set_in by by apply dict_mem_keys.
  - rewrite dict_keys_set_notin by (rewrite dict_mem_keys; congruence).
    rewrite length_app. simpl. lia.
Qed.

Lemma dict_len_pop d k :
  dict_wf d → dict_len (dict_pop d k) = if dict_mem d k then (dict_len d - 1)%Z else dict_len d.
Proof.
  unfold dict_wf, dict_len, dict_mem. induction d as [|[k0 v0] d IH]; simpl; [done|].
  rewrite NoDup_cons. intros [Hk0 Hd]. case_decide; subst; simpl.
  - rewrite dict_pop_notin by done. lia.
  - specialize (IH Hd). destruct (is_not_none _); lia.
Qed.

Lemma dict_wf_get_elem d k v : dict_wf d → (k, v) ∈ d ↔ dict_get d k = Some v.
Proof.
  unfold dict_wf. induction d as [|[k0 v0] d IH]; simpl.
  - intros _. split; [by intros ?%not_elem_of_nil|done].
  - rewrite NoDup_cons. intros [Hk0 Hd]. rewrite elem_of_cons, IH by done. case_decide; subst.
    + assert (dict_get d k = None) as -> by by apply dict_not_keys_get. naive_solver.
    + naive_solver.
Qed.

Lemma dict_get_elem d k v : dict_get d k = Some v → (k, v) ∈ d.
Proof. induction d as [|[k0 v0] d IH]; simpl; [done|]. case_decide; set_solver. Qed.

Lemma dict_values_elem d v : dict_wf d → v ∈ dict_values d ↔ ∃ k, dict_get d k = Some v.
Proof.
  intros Hd. unfold dict_values. rewrite list_elem_of_fmap. split.
  - intros ([k v'] & -> & H). exists k. by apply dict_wf_get_elem.
  - intros [k H]. exists (k, v). split; [done|]. by apply dict_get_elem.
Qed.

#[export] Instance dict_equiv_equivalence : Equivalence (@dict_equiv K A _).
Proof.
  split.
  - by intros d k.
  - intros d1 d2 H k. symmetry. apply H.
  - intros d1 d2 d3 H1 H2 k. by etransitivity; [apply H1|apply H2].
Qed.

#[export] Instance dict_get_proper : Proper (dict_equiv ==> (=) ==> (=)) (@dict_get K A _).
Proof. intros d1 d2 H k ? <-. apply H. Qed.

#[export] Instance dict_set_proper :
  Proper (dict_equiv ==> (=) ==> (=) ==> dict_equiv) (@dict_set K A _).
Proof. intros d1 d2 H k ? <- v ? <- k'. by rewrite !dict_get_set, H. Qed.

#[export] Instance dict_pop_proper : Proper (dict_equiv ==> (=) ==> dict_equiv) (@dict_pop K A _).
Proof. intros d1 d2 H k ? <- k'. by rewrite !dict_get_pop, H. Qed.

Lemma dict_move_to_end_equiv d k : dict_move_to_end d k ≡d d.
Proof. intros k'. apply dict_get_move_to_end. Qed.
End lemmas.

#[export] Hint Resolve dict_wf_set dict_wf_pop dict_wf_move_to_end dict_wf_empty : cachedb.
#[export] Hint Rewrite @dict_get_set_eq @dict_get_pop_eq : cachedb.

(** Rewrite lookups of updated dictionaries, splitting on key equality where needed. *)
Ltac dict_simpl :=
  repeat (rewrite dict_get_set_eq || rewrite dict_get_pop_eq
          || rewrite dict_get_set_ne by (auto; congruence)
          || rewrite dict_get_pop_ne by (auto; congruence)).
