(* ===== verification/PyFloat.v ===== *)
(** Python's [float]: IEEE 754 binary64.

    Times and TTLs of the cache are Python floats.  They are modelled by the
    Standard Library's executable specification of binary64 ([spec_float] with 53
    bits of precision and maximal exponent 1024), so rounding, infinities and NaN
    behave as in the program.  The lemmas are the facts about the comparison that
    the expiration theorems need: it is a total preorder on the non-NaN values,
    and every comparison with NaN is false. *)

From Stdlib Require Import ZArith SpecFloat.
From stdpp Require Import base tactics numbers.
From S2P Require Import Prelude.

Definition float : Type := spec_float.

Definition fadd (x y : float) : float := SFadd 53 1024 x y.
Definition fsub (x y : float) : float := SFsub 53 1024 x y.
(** [x <= y] and [x < y]; [x >= y] is [fle y x]. *)
Definition fle (x y : float) : bool := SFleb x y.
Definition flt (x y : float) : bool := SFltb x y.

(** The literals [0.0] and [float(z)] for an integer [z]. *)
Definition fzero : float := S754_zero false.
Definition float_of_Z (z : Z) : float := binary_normalize 53 1024 z 0 false.

(** Python's [max(x, y)] on floats: the first argument unless the second is greater. *)
Definition fmax (x y : float) : float := if flt x y then y else x.

(** Python's true division [a / b] of two non-negative integers with [b > 0]: the
    quotient rounded once to the nearest float. *)
Definition int_div (a b : Z) : float :=
  match a, b with
  | Zpos m1, Zpos m2 => SFdiv 53 1024 (S754_finite false m1 0) (S754_finite false m2 0)
  | _, _ => fzero
  end.

Definition is_nan (x : float) : bool := match x with S754_nan => true | _ => false end.

#[export] Instance float_eq_dec : EqDecision float.
Proof. intros x y. unfold Decision. repeat decide equality. Defined.

(** The position of a float in the order: a triple compared lexicographically. *)
Definition float_rank (x : float) : Z * Z * Z :=
  match x with
  | S754_nan => (3, 0, 0)
  | S754_infinity true => (-2, 0, 0)
  | S754_finite true m e => (-1, - e, - Zpos m)
  | S754_zero _ => (0, 0, 0)
  | S754_finite false m e => (1, e, Zpos m)
  | S754_infinity false => (2, 0, 0)
  end%Z.

Definition rank_le (a b : Z * Z * Z) : Prop :=
  (a.1.1 < b.1.1 ∨ a.1.1 = b.1.1 ∧ (a.1.2 < b.1.2 ∨ a.1.2 = b.1.2 ∧ a.2 ≤ b.2))%Z.

Lemma SFcompare_rank (x y : float) :
  is_nan x = false → is_nan y = false →
  SFleb x y = true ↔ rank_le (float_rank x) (float_rank y).
Proof.
  unfold SFleb, SFcompare, rank_le.
  destruct x as [[]|[]| |[] mx ex], y as [[]|[]| |[] my ey]; simpl; intros ??; try done;
    try (split; intros; (done || lia)).
  - destruct (Z.compare_spec ex ey); simpl; try (split; intros; (done || lia)).
    change (Pos.compare_cont Eq mx my) with (Pos.compare mx my).
    destruct (Pos.compare_spec mx my); simpl; split; intros; (done || lia).
  - destruct (Z.compare_spec ex ey); simpl; try (split; intros; (done || lia)).
    change (Pos.compare_cont Eq mx my) with (Pos.compare mx my).
    destruct (Pos.compare_spec mx my); simpl; split; intros; (done || lia).
Qed.

Lemma fle_not_nan (x y : float) : fle x y = true → is_nan x = false ∧ is_nan y = false.
Proof. unfold fle, SFleb. destruct x as [| | |[]], y as [| | |[]]; done. Qed.

Lemma fle_rank (x y : float) :
  fle x y = true ↔ is_nan x = false ∧ is_nan y = false ∧ rank_le (float_rank x) (float_rank y).
Proof.
  split.
  - intros H. pose proof (fle_not_nan _ _ H) as [Hx Hy]. split_conj; [done..|].
    by apply SFcompare_rank.
  - intros (Hx & Hy & H). by apply SFcompare_rank.
Qed.

Lemma fle_trans (x y z : float) : fle x y = true → fle y z = true → fle x z = true.
Proof. rewrite !fle_rank. unfold rank_le. naive_solver lia. Qed.

Lemma fle_refl (x : float) : is_nan x = false → fle x x = true.
Proof. intros. apply fle_rank. unfold rank_le. split_conj; [done..|]. lia. Qed.

Lemma fle_total (x y : float) :
  is_nan x = false → is_nan y = false → fle x y = true ∨ fle y x = true.
Proof. intros Hx Hy. rewrite !fle_rank. unfold rank_le. rewrite Hx, Hy.
  destruct (decide ((float_rank x).1.1 < (float_rank y).1.1)%Z),
           (decide ((float_rank y).1.1 < (float_rank x).1.1)%Z),
           (decide ((float_rank x).1.2 < (float_rank y).1.2)%Z),
           (decide ((float_rank y).1.2 < (float_rank x).1.2)%Z),
           (decide ((float_rank x).2 ≤ (float_rank y).2)%Z); naive_solver lia. Qed.

Lemma flt_fle (x y : float) : flt x y = true → fle x y = true ∧ fle y x = false.
Proof.
  unfold flt, fle, SFltb, SFleb, SFcompare.
  destruct x as [[]|[]| |[] mx ex], y as [[]|[]| |[] my ey]; simpl; try done;
    rewrite (Z.compare_antisym ex ey); destruct (ex ?= ey)%Z; simpl; try done;
    change (Pos.compare_cont Eq mx my) with (Pos.compare mx my);
    change (Pos.compare_cont Eq my mx) with (Pos.compare my mx);
    rewrite (Pos.compare_antisym mx my); destruct (mx ?= my)%positive; done.
Qed.

(** [max(0.0, x)] is never negative: not below zero, whatever [x] is. *)
Lemma fmax_fzero_nonneg (x : float) : fle fzero (fmax fzero x) = true.
Proof.
  unfold fmax. destruct (flt fzero x) eqn:E; [|done]. by apply flt_fle in E as [? _].
Qed.

#[export] Hint Resolve fle_trans fle_refl fmax_fzero_nonneg : cachedb.
