(* ===== verification/PyMonad.v ===== *)
(** Exceptions and the state-and-exception monad.

    [exn] lists the exceptions of src/cachelab/core/exceptions.py and the built-in
    ones the code raises.  A message keeps its constant text; values interpolated
    into it are left out.  [M S A] is a computation that reads and writes a state
    [S] and returns or raises: as in Python, what was written before an exception
    stays written. *)

From stdpp Require Import base tactics strings sets list.
From S2P Require Import Prelude.

Inductive exn : Type :=
  | ConfigurationError (msg : string)
  | QueueBackpressureError
  | ShutdownFlushError (dirty_remaining : Z)
  | UnsupportedWriteModeError (mode : string)
  | ValidationError (msg : string)
  | RuntimeError (msg : string)
  | ValueError (msg : string)
  | OSError (msg : string)
  | IndexError
  | TypeError (msg : string)
  | AttributeError (msg : string)
  | OverflowError
  | TimeoutError
  | UserError (code : Z).   (* an exception of the caller's own code, such as a loader *)

#[export] Instance exn_eq_dec : EqDecision exn.
Proof. solve_decision. Defined.

Inductive result (A : Type) : Type :=
  | Ok (a : A)
  | Raise (e : exn).
Arguments Ok {_} _.
Arguments Raise {_} _.

Definition M (S A : Type) : Type := S → S * result A.

#[export] Instance M_ret S : MRet (M S) := λ A a s, (s, Ok a).
#[export] Instance M_bind S : MBind (M S) := λ A B f m s,
  match m s with
  | (s', Ok a) => f a s'
  | (s', Raise e) => (s', Raise e)
  end.

(** What a sequence does, as an equation to rewrite with. *)
Lemma run_bind {S A B} (m : M S A) (f : A → M S B) s :
  (m ≫= f) s = match m s with (s', Ok a) => f a s' | (s', Raise e) => (s', Raise e) end.
Proof. done. Qed.

Section ops.
Context {S : Type}.

Definition raise {A} (e : exn) : M S A := λ s, (s, Raise e).
Definition get_state : M S S := λ s, (s, Ok s).
Definition put_state (s' : S) : M S unit := λ _, (s', Ok tt).
Definition modify (f : S → S) : M S unit := λ s, (f s, Ok tt).
(** Lift a result computed without effects. *)
Definition lift {A} (r : result A) : M S A := λ s, (s, r).
(** [try: m / except e: h e], the handler seeing the state the body left. *)
Definition try_except {A} (m : M S A) (h : exn → M S A) : M S A := λ s,
  match m s with
  | (s', Ok a) => (s', Ok a)
  | (s', Raise e) => h e s'
  end.

(** Run [m] and look at how it ended: the [try] statements whose handler goes on. *)
Definition attempt {A} (m : M S A) : M S (result A) := λ s, let '(s', r) := m s in (s', Ok r).

(** [for x in xs: f x] *)
Fixpoint for_each {A} (xs : list A) (f : A → M S unit) : M S unit :=
  match xs with
  | [] => mret tt
  | x :: xs' => f x ;; for_each xs' f
  end.
End ops.

(** Partial correctness along every outcome: whatever [m] returns or raises, the
    state it leaves satisfies [Q]. *)
Definition keeps {S A} (P : S → Prop) (m : M S A) : Prop := ∀ s, P s → P (m s).1.

Section keeps.
Context {S : Type} (P : S → Prop).

Lemma keeps_ret {A} (a : A) : keeps P (mret a : M S A).
Proof. by intros s. Qed.

Lemma keeps_raise {A} e : keeps P (raise e : M S A).
Proof. by intros s. Qed.

Lemma keeps_lift {A} (r : result A) : keeps P (lift r : M S A).
Proof. by intros s. Qed.

Lemma keeps_get : keeps P get_state.
Proof. by intros s. Qed.

Lemma keeps_bind {A B} (m : M S A) (f : A → M S B) :
  keeps P m → (∀ a, keeps P (f a)) → keeps P (m ≫= f).
Proof.
  intros Hm Hf s Hs. unfold mbind, M_bind. specialize (Hm s Hs).
  destruct (m s) as [s' [a|e]]; [by apply Hf|done].
Qed.

Lemma keeps_modify f : (∀ s, P s → P (f s)) → keeps P (modify f).
Proof. by intros H s Hs; apply H. Qed.

Lemma keeps_try {A} (m : M S A) h :
  keeps P m → (∀ e, keeps P (h e)) → keeps P (try_except m h).
Proof.
  intros Hm Hh s Hs. unfold try_except. specialize (Hm s Hs).
  destruct (m s) as [s' [a|e]]; [done|by apply Hh].
Qed.

Lemma keeps_attempt {A} (m : M S A) : keeps P m → keeps P (attempt m).
Proof. intros Hm s Hs. unfold attempt. specialize (Hm s Hs). by destruct (m s). Qed.

Lemma keeps_for_each {A} (xs : list A) (f : A → M S unit) :
  (∀ x, x ∈ xs → keeps P (f x)) → keeps P (for_each xs f).
Proof.
  induction xs as [|x xs IH]; intros Hf; simpl; [apply keeps_ret|].
  apply keeps_bind; [apply Hf; set_solver|]. intros _. apply IH. set_solver.
Qed.

Lemma keeps_if (b : bool) {A} (m1 m2 : M S A) :
  keeps P m1 → keeps P m2 → keeps P (if b then m1 else m2).
Proof. by destruct b. Qed.
End keeps.

(** The same with a fact about the value returned: [m] keeps [P] along every outcome and
    a value it returns satisfies [Q]. *)
Definition returns {S A} (P : S → Prop) (m : M S A) (Q : A → Prop) : Prop :=
  ∀ s, P s → P (m s).1 ∧ match (m s).2 with Ok a => Q a | Raise _ => True end.

Section returns.
Context {S : Type} (P : S → Prop).

Lemma returns_keeps {A} (m : M S A) Q : returns P m Q → keeps P m.
Proof. intros Hm s Hs. by apply Hm. Qed.

Lemma keeps_returns {A} (m : M S A) : keeps P m → returns P m (λ _, True).
Proof. intros Hm s Hs. split; [by apply Hm|]. by destruct (m s).2. Qed.

Lemma returns_bind {A B} (m : M S A) (f : A → M S B) Q Q' :
  returns P m Q → (∀ a, Q a → returns P (f a) Q') → returns P (m ≫= f) Q'.
Proof.
  intros Hm Hf s Hs. unfold mbind, M_bind. destruct (Hm s Hs) as [Hs' Ha].
  destruct (m s) as [s' [a|e]]; [by apply (Hf a Ha)|done].
Qed.

Lemma returns_ret {A} (a : A) (Q : A → Prop) : Q a → returns P (mret a : M S A) Q.
Proof. by intros Ha s Hs. Qed.

Lemma returns_get : returns P get_state P.
Proof. by intros s Hs. Qed.

Lemma keeps_bind_returns {A B} (m : M S A) (f : A → M S B) Q :
  returns P m Q → (∀ a, Q a → keeps P (f a)) → keeps P (m ≫= f).
Proof.
  intros Hm Hf. eapply returns_keeps, returns_bind; [done|].
  intros a Ha. by apply keeps_returns, Hf.
Qed.

Lemma returns_attempt {A} (m : M S A) : keeps P m → returns P (attempt m) (λ _, True).
Proof. intros Hm. by apply keeps_returns, keeps_attempt. Qed.
End returns.

(** Total correctness: from a state in [P], [m] returns, in [P], a value in [Q]. *)
Definition succeeds {S A} (P : S → Prop) (m : M S A) (Q : A → Prop) : Prop :=
  ∀ s, P s → ∃ s' a, m s = (s', Ok a) ∧ P s' ∧ Q a.

Section succeeds.
Context {S : Type} (P : S → Prop).

Lemma succeeds_ret {A} (a : A) (Q : A → Prop) : Q a → succeeds P (mret a : M S A) Q.
Proof. intros Ha s Hs. by exists s, a. Qed.

Lemma succeeds_get : succeeds P get_state P.
Proof. intros s Hs. by exists s, s. Qed.

Lemma succeeds_bind {A B} (m : M S A) (f : A → M S B) Q Q' :
  succeeds P m Q → (∀ a, Q a → succeeds P (f a) Q') → succeeds P (m ≫= f) Q'.
Proof.
  intros Hm Hf s Hs. destruct (Hm s Hs) as (s' & a & E & Hs' & Ha).
  unfold mbind, M_bind. rewrite E. by apply Hf.
Qed.

Lemma succeeds_modify f : keeps P (modify f) → succeeds P (modify f) (λ _, True).
Proof. intros Hf s Hs. exists (f s), tt. split; [done|]. split; [by apply Hf|done]. Qed.

Lemma succeeds_attempt {A} (m : M S A) : keeps P m → succeeds P (attempt m) (λ _, True).
Proof.
  intros Hm s Hs. unfold attempt. specialize (Hm s Hs). destruct (m s) as [s' r]. by exists s', r.
Qed.

Lemma succeeds_if (b : bool) {A} (m1 m2 : M S A) Q :
  succeeds P m1 Q → succeeds P m2 Q → succeeds P (if b then m1 else m2) Q.
Proof. by destruct b. Qed.

Lemma succeeds_for_each {A} (xs : list A) (f : A → M S unit) :
  (∀ x, x ∈ xs → succeeds P (f x) (λ _, True)) → succeeds P (for_each xs f) (λ _, True).
Proof.
  induction xs as [|x xs IH]; intros Hf; simpl; [by apply succeeds_ret|].
  eapply succeeds_bind; [apply Hf; set_solver|]. intros _ _. apply IH. set_solver.
Qed.

Lemma succeeds_weaken {A} (m : M S A) Q : succeeds P m Q → succeeds P m (λ _, True).
Proof. intros Hm s Hs. destruct (Hm s Hs) as (s' & a & E & Hs' & _). by exists s', a. Qed.
End succeeds.

#[export] Hint Resolve keeps_ret keeps_raise keeps_lift keeps_get keeps_bind keeps_modify
  keeps_try keeps_attempt keeps_if : cachedb.
