(* ===== verification/Teaching.v ===== *)
(** The deliberately unsafe variants of src/cachelab/teaching/: a cache without a lock, a
    [get_or_compute] without single flight, lifetimes on a clock that can go back, and a
    write-back queue without versions.

    A thread is a phase; one step of a thread is one operation on the shared state, and a
    schedule lists which thread moves next.  A dict operation is one step, as the interpreter
    makes it. *)

From Stdlib Require Import ZArith SpecFloat.
From stdpp Require Import base tactics numbers option strings pretty sets list.
From S2P Require Import Prelude PyDict PyFloat PyMonad.
Local Open Scope string_scope.
Local Open Scope list_scope.
Local Open Scope Z_scope.

(** ** Schedules *)

Section schedule.
Context {S Ph : Type} (next : Ph → S → S * Ph).

Definition advance_thread (s : S * list Ph) (i : nat) : S * list Ph :=
  match s.2 !! i with
  | Some ph => let '(x, ph') := next ph s.1 in (x, <[i:=ph']> s.2)
  | None => s
  end.
Definition run_schedule (schedule : list nat) (s : S * list Ph) : S * list Ph := foldl advance_thread s schedule.

Lemma run_schedule_app l1 l2 s : run_schedule (l1 ++ l2) s = run_schedule l2 (run_schedule l1 s).
Proof. apply foldl_app. Qed.

(** Every thread after the first ones moves once, in order, as long as the state has [P]. *)
Lemma run_round (P : S → Prop) (f : Ph → Ph) (g : Ph → S → S) (before after : list Ph) (x : S) :
  P x → (∀ ph x, ph ∈ after → P x → next ph x = (g ph x, f ph) ∧ P (g ph x)) →
  run_schedule (seq (length before) (length after)) (x, before ++ after)
  = (foldl (λ x ph, g ph x) x after, before ++ (f <$> after)).
Proof.
  revert before x. induction after as [|ph after IH]; intros before x Hx Hn; [done|].
  destruct (Hn ph x) as [Hph Hg]; [set_solver|done|].
  change (run_schedule (seq (length before) (length (ph :: after))) (x, before ++ ph :: after))
    with (run_schedule (seq (Datatypes.S (length before)) (length after))
            (advance_thread (x, before ++ ph :: after) (length before))).
  unfold advance_thread. cbn [snd fst]. rewrite list_lookup_middle by done. rewrite Hph.
  rewrite insert_app_r_alt, Nat.sub_diag by lia. cbn [list_insert insert].
  specialize (IH (before ++ [f ph]) (g ph x) Hg). rewrite length_app, Nat.add_1_r in IH.
  rewrite <- app_assoc in IH. cbn [app] in IH. rewrite IH; [by rewrite <- app_assoc|].
  intros ph' y Hin. apply Hn. set_solver.
Qed.
End schedule.

(** ** A cache without a lock: unsafe_cache.py *)

Section unsafe_cache.
Context {K V : Type} `{EqDecision K}.

Inductive put_phase : Type :=
  | PutStart (key : K) (value : V)
  | PutFirst (key : K) (value : V)
  | PutPop (first key : K) (value : V)
  | PutStore (key : K) (value : V)
  | PutDone
  | PutFailed.   (* [next(iter(self.data))] raised [StopIteration] *)

(** One step of [UnsafeNoLockCache.put]. *)
Definition unsafe_put_step (capacity : Z) (ph : put_phase) (data : dict K V) : dict K V * put_phase :=
  match ph with
  | PutStart key value =>
      (data, if (capacity <=? dict_len data) && negb (dict_len data =? 0)
             then PutFirst key value else PutStore key value)
  | PutFirst key value =>
      (data, match data with [] => PutFailed | (first, _) :: _ => PutPop first key value end)
  | PutPop first key value => (dict_pop data first, PutStore key value)
  | PutStore key value => (dict_set data key value, PutDone)
  | PutDone | PutFailed => (data, ph)
  end.

(** A thread on its own: four steps are enough. *)
Definition unsafe_put (capacity : Z) (key : K) (value : V) (data : dict K V) : dict K V * put_phase :=
  let s := Nat.iter 4 (λ s, let '(d, ph) := unsafe_put_step capacity s.2 s.1 in (d, ph))
             (data, PutStart key value) in s.
End unsafe_cache.

(** [unsafe_race_demo]: the final size under a schedule. *)
Definition race_threads (threads : nat) : list (put_phase (K:=string) (V:=Z)) :=
  (λ i, PutStart ("k" +:+ pretty i) (Z.of_nat i)) <$> seq 0 threads.
Definition unsafe_race_demo (threads : nat) (capacity : Z) (schedule : list nat)
    : dict string Z * list put_phase :=
  run_schedule (unsafe_put_step capacity) schedule ([], race_threads threads).
Definition final_size (o : dict string Z * list (put_phase (K:=string) (V:=Z))) : Z := dict_len o.1.
Definition put_finished (ph : put_phase (K:=string) (V:=Z)) : Prop := ph = PutDone ∨ ph = PutFailed.

(** ** [get_or_compute] without single flight: unsafe_singleflight.py *)

Inductive compute_phase : Type :=
  | CheckKey
  | CallLoader
  | StoreLoaded (value : string)
  | ReadBack
  | Returned (value : option string).

(** The data and the number of calls of the loader. *)
Definition compute_state : Type := dict string string * Z.

(** One step of [UnsafeGetOrCompute.get_or_compute("same-key", loader)], with the loader of
    the demo. *)
Definition unsafe_compute_step (ph : compute_phase) (s : compute_state) : compute_state * compute_phase :=
  let '(data, calls) := s in
  match ph with
  | CheckKey => (s, if dict_mem data "same-key" then ReadBack else CallLoader)
  | CallLoader => ((data, calls + 1), StoreLoaded "loaded")
  | StoreLoaded value => ((dict_set data "same-key" value, calls), ReadBack)
  | ReadBack => (s, Returned (dict_get data "same-key"))
  | Returned _ => (s, ph)
  end.
Definition unsafe_singleflight_demo (threads : nat) (schedule : list nat)
    : compute_state * list compute_phase :=
  run_schedule unsafe_compute_step schedule (([], 0), replicate threads CheckKey).
Definition loader_calls (o : compute_state * list compute_phase) : Z := o.1.2.

(** ** Lifetimes on the wall clock: unsafe_wall_clock_ttl.py *)

(** [UnsafeWallClockTTLCache.put] and [contains]; the clock is [AdjustableWallClock.now]. *)
Definition wall_put {V} (now : float) (key : string) (value : V) (ttl : float)
    (data : dict string (V * float)) : dict string (V * float) :=
  dict_set data key (value, fadd now ttl).
Definition wall_contains {V} (now : float) (key : string) (data : dict string (V * float)) : bool :=
  match dict_get data key with
  | None => false
  | Some (_, expires_at) => flt now expires_at
  end.
(** [unsafe_wall_clock_ttl_demo] *)
Definition unsafe_wall_clock_ttl_demo : bool * bool * float :=
  let now := float_of_Z 100 in
  let data := wall_put now "session" "value" (float_of_Z 10) [] in
  let now := fadd now (float_of_Z 11) in
  let expired_after_forward := negb (wall_contains now "session" data) in
  let now := fsub now (float_of_Z 20) in
  (expired_after_forward, wall_contains now "session" data, now).

(** ** A write-back queue without versions: unsafe_write_back.py *)

Record UnsafeWrite : Type := mkUnsafeWrite {
  uw_key : string;
  uw_value : option string;
  uw_operation : string;
}.
Definition pending_writes : list UnsafeWrite :=
  [mkUnsafeWrite "user:1" (Some "old-value") "put"; mkUnsafeWrite "user:1" None "delete"].
(** What the demo does with each of the two jobs it takes. *)
Definition apply_delete (w : UnsafeWrite) (source : dict string (option string))
    : dict string (option string) :=
  if String.eqb (uw_operation w) "delete" then dict_pop source (uw_key w) else source.
Definition apply_put (w : UnsafeWrite) (source : dict string (option string))
    : dict string (option string) :=
  if String.eqb (uw_operation w) "put" then dict_set source (uw_key w) (uw_value w) else source.
(** [unsafe_write_back_resurrection_demo]: the jobs are taken from the end of the queue. *)
Definition unsafe_write_back_resurrection_demo : dict string (option string) * bool :=
  let source :=
    match reverse pending_writes with
    | delete :: stale_put :: _ => apply_put stale_put (apply_delete delete [])
    | _ => []
    end in
  (source, bool_decide (dict_get source "user:1" = Some (Some "old-value"))).

(** ** Theorems *)

Lemma unsafe_put_alone {K V} `{EqDecision K} (capacity : Z) (key : K) (value : V) (data : dict K V) :
  0 < capacity → dict_wf data → dict_len data ≤ capacity →
  let '(data', ph) := unsafe_put capacity key value data in
  ph = PutDone ∧ dict_len data' ≤ capacity ∧ dict_get data' key = Some value.
Proof.
  intros Hc Hw Hl. unfold unsafe_put. simpl.
  assert (∀ d : dict K V, dict_len d < capacity → dict_len (dict_set d key value) ≤ capacity ∧
    dict_get (dict_set d key value) key = Some value) as Hset.
  { intros d Hd. rewrite dict_len_set, dict_get_set_eq. split; [|done]. case_match; lia. }
  destruct (Z.leb_spec capacity (dict_len data)) as [Hf|Hf]; simpl; [|by split; [|apply Hset; lia]].
  destruct (Z.eqb_spec (dict_len data) 0) as [He|He]; simpl; [lia|].
  destruct data as [|[first v] data]; [done|]. cbn [unsafe_put_step fst snd]. split; [done|].
  apply Hset. rewrite dict_len_pop by done. unfold dict_mem. simpl. rewrite decide_True by done. simpl. lia.
Qed.

Lemma stores_length (l : list nat) (d : dict string Z) :
  NoDup l → (∀ i, i ∈ l → ("k" +:+ pretty i) ∉ dict_keys d) →
  dict_len (foldl (λ d i, dict_set d ("k" +:+ pretty i) (Z.of_nat i)) d l)
  = dict_len d + Z.of_nat (length l).
Proof.
  revert d. induction l as [|i l IH]; intros d Hn Hd; [simpl; lia|].
  apply NoDup_cons in Hn as [Hi Hn]. cbn [foldl]. rewrite IH; [|done|].
  - rewrite dict_len_set. destruct (dict_mem d _) eqn:E; [|cbn [length]; lia].
    apply dict_mem_keys in E. destruct (Hd i); [set_solver|done].
  - intros j Hj. rewrite dict_keys_set_elem. intros [[= Heq]|Hin]; [|apply (Hd j); [set_solver|done]].
    assert (j = i) as -> by by apply (inj pretty). done.
Qed.

Lemma race_overflows (threads : nat) (capacity : Z) :
  0 < capacity →
  let o := unsafe_race_demo threads capacity (seq 0 threads ++ seq 0 threads) in
  Forall put_finished o.2 ∧ final_size o = Z.of_nat threads.
Proof.
  intros Hc. unfold unsafe_race_demo. rewrite run_schedule_app.
  set (stored := (λ i, PutStore ("k" +:+ pretty i) (Z.of_nat i)) : nat → put_phase).
  assert (run_schedule (unsafe_put_step capacity) (seq 0 threads) ([], race_threads threads)
          = ([], stored <$> seq 0 threads)) as ->.
  { pose proof (run_round (unsafe_put_step capacity) (λ d, d = [])
      (λ ph, match ph with PutStart k v => PutStore k v | ph => ph end) (λ _ d, d) []
      (race_threads threads) []) as Hr.
    unfold race_threads in *. rewrite length_fmap, length_seq in Hr. cbn [app length] in Hr.
    etransitivity; [apply Hr; [done|]|].
    - intros ph x (i & -> & _)%list_elem_of_fmap ->. unfold unsafe_put_step. by rewrite andb_false_r.
    - rewrite <- list_fmap_compose. f_equal. clear. generalize (seq 0 threads) as l. by induction l. }
  set (store := (λ d ph, match ph with PutStore k v => dict_set d k v | _ => d end)
    : dict string Z → put_phase → dict string Z).
  assert (run_schedule (unsafe_put_step capacity) (seq 0 threads) ([], stored <$> seq 0 threads)
          = (foldl store [] (stored <$> seq 0 threads), (λ _, PutDone) <$> (stored <$> seq 0 threads))) as ->.
  { pose proof (run_round (unsafe_put_step capacity) (λ _, True) (λ _, PutDone) (λ ph d, store d ph) []
      (stored <$> seq 0 threads) []) as Hr.
    rewrite length_fmap, length_seq in Hr. apply Hr; [done|].
    by intros ph x (i & -> & _)%list_elem_of_fmap _. }
  split; cbn [fst snd].
  - apply Forall_fmap, Forall_true. intros ph. by left.
  - rewrite foldl_fmap. unfold final_size. cbn [fst].
    etransitivity; [apply (stores_length (seq 0 threads) [])|by rewrite length_seq];
      [apply NoDup_seq|]. intros i _ Hin. by apply not_elem_of_nil in Hin.
Qed.

(** What the lock is for.  Used by one thread at a time the cache without a lock keeps its
    capacity and stores what is put; with [threads] threads there is a schedule, in which all
    of them finish, that leaves one entry per thread, whatever the capacity. *)
Theorem unsafe_cache_needs_a_lock (capacity : Z) :
  0 < capacity →
  (∀ (key : string) (value : Z) (data : dict string Z), dict_wf data → dict_len data ≤ capacity →
     let '(data', ph) := unsafe_put capacity key value data in
     ph = PutDone ∧ dict_len data' ≤ capacity ∧ dict_get data' key = Some value) ∧
  (∀ threads : nat, ∃ schedule, let o := unsafe_race_demo threads capacity schedule in
     Forall put_finished o.2 ∧ final_size o = Z.of_nat threads).
Proof.
  intros Hc. split; [intros; by apply unsafe_put_alone|].
  intros threads. eexists. by apply race_overflows.
Qed.

Lemma unsafe_cache_needs_a_lock_witness :
  ∃ schedule, let o := unsafe_race_demo 25 1 schedule in
    Forall put_finished o.2 ∧ final_size o = 25.
Proof. apply (proj2 (unsafe_cache_needs_a_lock 1 ltac:(lia)) 25%nat). Defined.

(** Threads that have not called the loader. *)
Definition may_load (ph : compute_phase) : Z :=
  match ph with CheckKey | CallLoader => 1 | _ => 0 end.

Lemma loader_calls_bounded threads schedule :
  let o := unsafe_singleflight_demo threads schedule in
  0 ≤ loader_calls o ∧ loader_calls o + py_sum (may_load <$> o.2) ≤ Z.of_nat threads.
Proof.
  unfold unsafe_singleflight_demo, loader_calls, run_schedule.
  assert (∀ s : compute_state * list compute_phase,
    0 ≤ s.1.2 ∧ s.1.2 + py_sum (may_load <$> s.2) ≤ Z.of_nat threads →
    let o := foldl (advance_thread unsafe_compute_step) s schedule in
    0 ≤ o.1.2 ∧ o.1.2 + py_sum (may_load <$> o.2) ≤ Z.of_nat threads) as Hind.
  { induction schedule as [|i schedule IH]; intros s Hs; [done|]. cbn [foldl]. apply IH.
    unfold advance_thread. destruct (s.2 !! i) as [ph|] eqn:Hi; [|done]. destruct s as [[data calls] phs]. simpl in *.
    destruct ph; simpl; rewrite (py_sum_insert _ _ _ _ _ Hi); simpl; try lia.
    destruct (dict_mem _ _); simpl; lia. }
  apply Hind. cbn [fst snd]. split; [done|]. rewrite fmap_replicate. clear. simpl (may_load _).
  induction threads as [|n IH]; [done|].
  change (py_sum (replicate (S n) 1)) with (1 + py_sum (replicate n 1)). lia.
Qed.

(** One round of threads that are all in the same phase. *)
Lemma compute_round (P : compute_state → Prop) (ph ph' : compute_phase) g n x :
  P x → (∀ x, (0 < n)%nat → P x → unsafe_compute_step ph x = (g x, ph') ∧ P (g x)) →
  run_schedule unsafe_compute_step (seq 0 n) (x, replicate n ph) = (Nat.iter n g x, replicate n ph').
Proof.
  intros Hx Hn. pose proof (run_round unsafe_compute_step P (λ _, ph') (λ _, g) [] (replicate n ph) x Hx) as Hr.
  rewrite length_replicate in Hr. cbn [app length] in Hr. rewrite Hr, fmap_replicate.
  - f_equal. clear -x. revert x. induction n as [|n IH]; intros x; [done|]. cbn [replicate foldl].
    by rewrite IH, Nat.iter_succ_r.
  - intros ph0 y Hin Hy. apply elem_of_replicate in Hin as [-> Hlt]. apply Hn; [lia|done].
Qed.

Lemma all_load threads :
  let rounds := seq 0 threads ++ seq 0 threads ++ seq 0 threads ++ seq 0 threads in
  let o := unsafe_singleflight_demo threads rounds in
  loader_calls o = Z.of_nat threads ∧ o.2 = replicate threads (Returned (Some "loaded")).
Proof.
  cbv zeta. unfold unsafe_singleflight_demo. rewrite !run_schedule_app.
  rewrite (compute_round (λ x, x = ([], 0)) CheckKey CallLoader id); [|done|by intros ? _ ->].
  rewrite (compute_round (λ x, x.1 = []) CallLoader (StoreLoaded "loaded") (λ x, (x.1, x.2 + 1)));
    [| |by intros [d z] _ Hd].
  2: { clear. by induction threads as [|n IH]. }
  rewrite (compute_round (λ _, True) (StoreLoaded "loaded") ReadBack
    (λ x, (dict_set x.1 "same-key" "loaded", x.2))); [|done|by intros [d z] _ _].
  rewrite (compute_round (λ x, threads = 0%nat ∨ dict_get x.1 "same-key" = Some "loaded") ReadBack
    (Returned (Some "loaded")) id).
  - split; [|done]. unfold loader_calls. cbn [fst].
    assert (∀ n x, (Nat.iter n id x : compute_state) = x) as Hid by (intros n x; by induction n).
    rewrite !Hid.
    assert (∀ n (x : compute_state), (Nat.iter n (λ x, (dict_set x.1 "same-key" "loaded", x.2)) x).2 = x.2) as ->
      by (intros n x; by induction n).
    assert (∀ n (x : compute_state), (Nat.iter n (λ x, (x.1, x.2 + 1)) x).2 = x.2 + Z.of_nat n) as ->.
    { intros n x. induction n as [|n IH]; [simpl; lia|].
      change (Nat.iter (S n) ?f x) with (f (Nat.iter n f x)). cbn [snd]. rewrite IH. lia. }
    simpl. lia.
  - destruct threads as [|n]; [by left|right]. simpl. apply dict_get_set_eq.
  - intros [d z] Hlt [?|Hg]; [lia|]. simpl in *. split; [by rewrite Hg|by right].
Qed.

(** What single flight is for.  Under every schedule the loader runs at most once per
    thread, and there is a schedule, in which every thread returns the loaded value, where it
    runs once for each of them. *)
Theorem unsafe_compute_duplicates_loads (threads : nat) :
  (∀ schedule, 0 ≤ loader_calls (unsafe_singleflight_demo threads schedule) ≤ Z.of_nat threads) ∧
  (∃ schedule, let o := unsafe_singleflight_demo threads schedule in
     loader_calls o = Z.of_nat threads ∧ o.2 = replicate threads (Returned (Some "loaded"))).
Proof.
  split.
  - intros schedule. pose proof (loader_calls_bounded threads schedule) as [H1 H2].
    assert (∀ l, 0 ≤ py_sum (may_load <$> l)) as Hp.
    { induction l as [|ph l IH]; csimpl; [done|]. destruct ph; simpl in *; lia. }
    specialize (Hp (unsafe_singleflight_demo threads schedule).2). lia.
  - eexists. apply all_load.
Qed.

(** The two deterministic examples show what they say.  On a clock that jumps back by 20
    an entry that had expired is alive again, and a queue without versions that applies a
    delete before an older put leaves the deleted value in the source; applied in the order
    they were queued the same jobs leave nothing. *)
Theorem unsafe_examples_fail :
  unsafe_wall_clock_ttl_demo = (true, true, float_of_Z 91) ∧
  unsafe_write_back_resurrection_demo = ([("user:1", Some "old-value")], true) ∧
  foldl (λ s w, apply_delete w (apply_put w s)) [] pending_writes = [].
Proof. split_conj; vm_compute; reflexivity. Qed.
