(* ===== verification/Config.v ===== *)
(** Configuration: src/cachelab/core/config.py, src/cachelab/storage/write_modes.py,
    the key aliases of a TOML file, and the split of the capacity over the shards
    (src/cachelab/concurrency/shards.py). *)

From Stdlib Require Import Ascii String.
From stdpp Require Import base tactics numbers option strings sets list.
From S2P Require Import Prelude PyDict PyFloat PyMonad.
Local Open Scope string_scope.
Local Open Scope list_scope.
Local Open Scope Z_scope.

(** ** Write modes *)

Inductive WriteMode : Type := CACHE_ONLY | WRITE_THROUGH | WRITE_BACK.

#[export] Instance WriteMode_eq_dec : EqDecision WriteMode.
Proof. solve_decision. Defined.

Definition write_mode_value (m : WriteMode) : string :=
  match m with
  | CACHE_ONLY => "cache-only"
  | WRITE_THROUGH => "write-through"
  | WRITE_BACK => "write-back"
  end.

(** [Cache._parse_write_mode] *)
Definition parse_write_mode (mode : string) : result WriteMode :=
  if String.eqb mode (write_mode_value CACHE_ONLY) then Ok CACHE_ONLY
  else if String.eqb mode (write_mode_value WRITE_THROUGH) then Ok WRITE_THROUGH
  else if String.eqb mode (write_mode_value WRITE_BACK) then Ok WRITE_BACK
  else Raise (UnsupportedWriteModeError mode).

(** ** The configuration record *)

Definition SUPPORTED_BACKENDS : list string := ["memory"].
Definition SUPPORTED_POLICIES : list string := ["lru"; "lfu"; "fifo"].
Definition SUPPORTED_WRITE_MODES : list string :=
  write_mode_value <$> [CACHE_ONLY; WRITE_THROUGH; WRITE_BACK].

Record CacheConfig : Type := mkCacheConfig {
  cfg_capacity : Z;
  cfg_default_ttl : option float;
  cfg_policy : string;
  cfg_shard_count : Z;
  cfg_worker_count : Z;
  cfg_backend : string;
  cfg_write_mode : string;
  cfg_scheduler_interval : float;
  cfg_queue_size : Z;
  cfg_write_back_retry_count : Z;
  cfg_write_back_retry_delay : float;
  cfg_shutdown_flush : bool;
  cfg_shutdown_timeout : float;
  cfg_active_expiration : bool;
  cfg_queue_put_timeout : float;
}.

(** [str.lower] on ASCII text (no other character lowers into a supported name). *)
Definition ascii_lower (c : ascii) : ascii :=
  let n := nat_of_ascii c in
  if (Nat.leb 65 n && Nat.leb n 90)%bool then ascii_of_nat (n + 32) else c.
Fixpoint str_lower (s : string) : string :=
  match s with
  | EmptyString => EmptyString
  | String c s' => String (ascii_lower c) (str_lower s')
  end.

Definition str_in (s : string) (l : list string) : bool := existsb (String.eqb s) l.
Arguments str_in : simpl never.

(** [CacheConfig.__post_init__]: the checks in the order of the source. *)
Definition post_init (c : CacheConfig) : result CacheConfig :=
  if cfg_capacity c <? 1 then Raise (ConfigurationError "capacity must be >= 1")
  else if cfg_shard_count c <=? 0 then Raise (ConfigurationError "shard_count must be > 0")
  else if cfg_capacity c <? cfg_shard_count c then
    Raise (ConfigurationError
             "capacity must be >= shard_count so every shard can hold at least one entry")
  else if match cfg_default_ttl c with Some t => flt t fzero | None => false end then
    Raise (ConfigurationError "default_ttl must be >= 0 (0 or None disables expiry)")
  else if cfg_worker_count c <? 0 then Raise (ConfigurationError "worker_count must be >= 0")
  else if cfg_queue_size c <? 0 then Raise (ConfigurationError "queue_size must be >= 0")
  else if flt (cfg_scheduler_interval c) fzero then
    Raise (ConfigurationError "scheduler_interval must be >= 0")
  else if (cfg_active_expiration c && fle (cfg_scheduler_interval c) fzero)%bool then
    Raise (ConfigurationError
             "scheduler_interval must be > 0 when active_expiration is enabled")
  else if cfg_write_back_retry_count c <? 0 then
    Raise (ConfigurationError "write_back_retry_count must be >= 0")
  else if negb (str_in (str_lower (cfg_policy c)) SUPPORTED_POLICIES) then
    Raise (ConfigurationError "unsupported policy")
  else if negb (str_in (cfg_write_mode c) SUPPORTED_WRITE_MODES) then
    Raise (ConfigurationError "unsupported write_mode")
  else if negb (str_in (cfg_backend c) SUPPORTED_BACKENDS) then
    Raise (ConfigurationError "unsupported backend")
  else Ok c.

(** The field defaults of the dataclass. *)
Definition default_config : CacheConfig := {|
  cfg_capacity := 128;
  cfg_default_ttl := None;
  cfg_policy := "lru";
  cfg_shard_count := 1;
  cfg_worker_count := 0;
  cfg_backend := "memory";
  cfg_write_mode := write_mode_value CACHE_ONLY;
  cfg_scheduler_interval := float_of_Z 1;
  cfg_queue_size := 0;
  cfg_write_back_retry_count := 2;
  cfg_write_back_retry_delay := int_div 1 100;
  cfg_shutdown_flush := true;
  cfg_shutdown_timeout := float_of_Z 5;
  cfg_active_expiration := true;
  cfg_queue_put_timeout := float_of_Z 1;
|}.

(** ** Keys of a configuration file *)

Definition config_aliases : dict string string := [
  ("default TTL", "default_ttl");
  ("default_ttl_seconds", "default_ttl");
  ("shards", "shard_count");
  ("workers", "worker_count");
  ("queue_maxsize", "queue_size");
  ("retry_count", "write_back_retry_count");
  ("retry_delay", "write_back_retry_delay")].

(** [CacheConfig.__dataclass_fields__] *)
Definition config_fields : list string := [
  "capacity"; "default_ttl"; "policy"; "shard_count"; "worker_count"; "backend";
  "write_mode"; "scheduler_interval"; "queue_size"; "write_back_retry_count";
  "write_back_retry_delay"; "shutdown_flush"; "shutdown_timeout"; "active_expiration";
  "queue_put_timeout"].

(** [aliases.get(key, key)] *)
Definition config_field (key : string) : string := dict_get_default config_aliases key key.

Section normalize.
Context {A : Type}.

(** The loop of [_normalize_config]: the accepted settings and the unknown keys. *)
Fixpoint normalize_loop (data : list (string * A)) (normalized : dict string A)
    (unknown : list string) : dict string A * list string :=
  match data with
  | [] => (normalized, unknown)
  | (key, value) :: data' =>
      let field := config_field key in
      if str_in field config_fields
      then normalize_loop data' (dict_set normalized field value) unknown
      else normalize_loop data' normalized (unknown ++ [key])
  end.

Definition normalize_config (data : dict string A) : result (dict string A) :=
  let '(normalized, unknown) := normalize_loop data [] [] in
  match unknown with
  | [] => Ok normalized
  | _ => Raise (ConfigurationError "unknown config key(s)")
  end.
End normalize.

(** ** Capacity split *)

Definition shard_capacities (total_capacity shard_count : Z) : list Z :=
  let base := total_capacity / shard_count in
  let remainder := total_capacity mod shard_count in
  (λ index, base + (if index <? remainder then 1 else 0)) <$> py_range shard_count.

(** ** Lemmas *)

Lemma str_in_spec s l : str_in s l = true ↔ s ∈ l.
Proof.
  unfold str_in. rewrite existsb_exists, list_elem_of_In. setoid_rewrite String.eqb_eq. naive_solver.
Qed.

(** What a configuration must satisfy, as one predicate. *)
Record config_valid (c : CacheConfig) : Prop := {
  cv_shards : 0 < cfg_shard_count c;
  cv_capacity : cfg_shard_count c ≤ cfg_capacity c;
  cv_ttl : ∀ t, cfg_default_ttl c = Some t → flt t fzero = false;
  cv_workers : 0 ≤ cfg_worker_count c;
  cv_queue : 0 ≤ cfg_queue_size c;
  cv_interval : flt (cfg_scheduler_interval c) fzero = false;
  cv_active : cfg_active_expiration c = true → fle (cfg_scheduler_interval c) fzero = false;
  cv_retries : 0 ≤ cfg_write_back_retry_count c;
  cv_policy : str_lower (cfg_policy c) ∈ SUPPORTED_POLICIES;
  cv_mode : cfg_write_mode c ∈ SUPPORTED_WRITE_MODES;
  cv_backend : cfg_backend c ∈ SUPPORTED_BACKENDS;
}.

Ltac cfg_case :=
  match goal with
  | |- context [if ?b then _ else _] => destruct b eqn:?
  end.

Lemma post_init_valid c : post_init c = Ok c ↔ config_valid c.
Proof.
  unfold post_init. split.
  - repeat (cfg_case; [done|]). intros _.
    rewrite ?negb_false_iff, ?andb_false_iff, ?str_in_spec in *.
    constructor; try (done || lia).
    + intros t Ht. by rewrite Ht in *.
    + intros Ha. naive_solver congruence.
  - intros [? ? Ht ? ? Hi Ha ? Hp Hm Hb].
    rewrite <- str_in_spec in Hp, Hm, Hb. rewrite Hp, Hm, Hb, Hi. simpl.
    repeat cfg_case; try (done || lia); exfalso.
    + destruct (cfg_default_ttl c); naive_solver congruence.
    + destruct (cfg_active_expiration c); naive_solver congruence.
Qed.

Lemma post_init_id c c' : post_init c = Ok c' → c' = c.
Proof. unfold post_init. repeat cfg_case; congruence. Qed.

Lemma post_init_error_kind c e : post_init c = Raise e → ∃ msg, e = ConfigurationError msg.
Proof. unfold post_init. repeat cfg_case; try done; intros [= <-]; eauto. Qed.

Lemma parse_write_mode_supported mode :
  mode ∈ SUPPORTED_WRITE_MODES → ∃ m, parse_write_mode mode = Ok m ∧ write_mode_value m = mode.
Proof.
  unfold SUPPORTED_WRITE_MODES. rewrite list_elem_of_fmap. intros (m & -> & _).
  exists m. by destruct m.
Qed.

Lemma shard_capacities_length total n : length (shard_capacities total n) = Z.to_nat n.
Proof. unfold shard_capacities. by rewrite length_fmap, length_py_range. Qed.

Lemma shard_capacities_elem total n x :
  x ∈ shard_capacities total n → 0 < n →
  total / n ≤ x ≤ total / n + 1.
Proof.
  unfold shard_capacities. rewrite list_elem_of_fmap. intros (i & -> & _) Hn.
  destruct (_ <? _); lia.
Qed.

(** Summing [base + (1 if i < r else 0)] over [range(m)]. *)
Lemma py_sum_split (base r : Z) (m : nat) :
  0 ≤ r →
  py_sum ((λ index, base + (if index <? r then 1 else 0)) <$> (Z.of_nat <$> seq 0 m))
  = base * Z.of_nat m + Z.min r (Z.of_nat m).
Proof.
  intros Hr. induction m as [|m IH]; [simpl; lia|].
  rewrite seq_S, !fmap_app, py_sum_app, IH. simpl. destruct (Z.of_nat m <? r) eqn:E; lia.
Qed.

Lemma shard_capacities_sum total n :
  0 < n → py_sum (shard_capacities total n) = total.
Proof.
  intros Hn. unfold shard_capacities, py_range.
  rewrite py_sum_split by (apply Z.mod_pos_bound; lia).
  pose proof (Z.mod_pos_bound total n Hn). pose proof (Z.div_mod total n ltac:(lia)).
  rewrite Z2Nat.id by lia. lia.
Qed.

Lemma shard_capacities_positive total n :
  0 < n → n ≤ total → Forall (λ c, 1 ≤ c) (shard_capacities total n).
Proof.
  intros Hn Ht. apply Forall_forall. intros x Hx.
  apply shard_capacities_elem in Hx as [Hx _]; [|done].
  pose proof (Z.div_le_lower_bound total n 1 Hn). lia.
Qed.

(** The settings [normalize_loop] adds are the last ones of their field. *)
Definition last_setting {A} (data : list (string * A)) (field : string) : option A :=
  foldl (λ acc kv, if String.eqb (config_field kv.1) field then Some kv.2 else acc) None data.

Lemma foldl_last_setting {A} (data : list (string * A)) field acc :
  foldl (λ acc kv, if String.eqb (config_field kv.1) field then Some kv.2 else acc) acc data
  = match last_setting data field with Some v => Some v | None => acc end.
Proof.
  unfold last_setting. revert acc.
  induction data as [|[k v] data IH]; intros acc; simpl; [done|].
  rewrite IH. rewrite (IH (if String.eqb _ _ then _ else _)).
  destruct (foldl _ None data); [done|]. by destruct (String.eqb _ _).
Qed.

Lemma normalize_loop_spec {A} (data : list (string * A)) n u n' u' :
  normalize_loop data n u = (n', u') →
  (u' = u ++ (fst <$> filter (λ kv, config_field kv.1 ∉ config_fields) data)) ∧
  (∀ f, f ∈ config_fields →
     dict_get n' f = match last_setting data f with Some v => Some v | None => dict_get n f end).
Proof.
  revert n u. induction data as [|[k v] data IH]; intros n u; simpl.
  - intros [= -> ->]. split; [by rewrite app_nil_r|done].
  - intros Heq. destruct (str_in _ _) eqn:Ein.
    + apply IH in Heq as [-> Hget]. apply str_in_spec in Ein.
      rewrite filter_cons_False by (simpl; tauto). split; [done|]. intros f Hf.
      rewrite (Hget f Hf). unfold last_setting at 2. simpl. rewrite foldl_last_setting.
      destruct (last_setting data f); [done|]. rewrite dict_get_set.
      destruct (String.eqb_spec (config_field k) f); case_decide; congruence.
    + apply IH in Heq as [-> Hget].
      assert (config_field k ∉ config_fields) as Hk by (rewrite <- str_in_spec; congruence).
      rewrite filter_cons_True by done. split; [by rewrite <- app_assoc|]. intros f Hf.
      rewrite (Hget f Hf). unfold last_setting at 2. simpl. rewrite foldl_last_setting.
      destruct (last_setting data f); [done|].
      destruct (String.eqb_spec (config_field k) f); [congruence|done].
Qed.

(** ** Properties *)

(** [CacheConfig.__post_init__] accepts exactly the valid configurations, returns
    them unchanged, and rejects every other one with a [ConfigurationError]. *)
Theorem post_init_accepts_exactly_valid (c : CacheConfig) :
  (config_valid c ∧ post_init c = Ok c) ∨
  (¬ config_valid c ∧ ∃ msg, post_init c = Raise (ConfigurationError msg)).
Proof.
  destruct (post_init c) as [c'|e] eqn:E.
  - left. pose proof (post_init_id _ _ E) as ->. split; [by apply post_init_valid|done].
  - right. split; [|by destruct (post_init_error_kind c e E) as [msg ->]; eauto].
    rewrite <- post_init_valid. congruence.
Qed.

(** The capacity is split over the shards without loss: [shard_capacities] returns
    one capacity per shard, they add up to the total, every shard can hold an entry
    when the configuration check [capacity >= shard_count > 0] passed, and no two
    shards differ by more than one. *)
Theorem shard_capacities_split (total n : Z) :
  0 < n ≤ total →
  length (shard_capacities total n) = Z.to_nat n ∧
  py_sum (shard_capacities total n) = total ∧
  Forall (λ c, 1 ≤ c) (shard_capacities total n) ∧
  (∀ x y, x ∈ shard_capacities total n → y ∈ shard_capacities total n → x - y ≤ 1).
Proof.
  intros [Hn Ht]. split_conj.
  - apply shard_capacities_length.
  - by apply shard_capacities_sum.
  - by apply shard_capacities_positive.
  - intros x y Hx Hy. apply shard_capacities_elem in Hx, Hy; lia.
Qed.

Lemma shard_capacities_split_witness :
  0 < 4 ≤ 10 ∧ shard_capacities 10 4 = [3; 3; 2; 2] ∧
  py_sum (shard_capacities 10 4) = 10.
Proof.
  split; [lia|]. split; [vm_compute; reflexivity|].
  apply (shard_capacities_split 10 4). lia.
Defined.

(** [_normalize_config] succeeds exactly when every key of the table is a field or
    an alias of one; the value of a field is then the last one given under its name or
    an alias, and any unknown key makes it raise [ConfigurationError]. *)
Theorem normalize_config_resolves_aliases {A} (data : dict string A) :
  ((∀ key, key ∈ dict_keys data → config_field key ∈ config_fields) ∧
   ∃ n, normalize_config data = Ok n ∧
        ∀ f, f ∈ config_fields → dict_get n f = last_setting data f) ∨
  ((∃ key, key ∈ dict_keys data ∧ config_field key ∉ config_fields) ∧
   normalize_config data = Raise (ConfigurationError "unknown config key(s)")).
Proof.
  unfold normalize_config. destruct (normalize_loop data [] []) as [n u] eqn:E.
  apply normalize_loop_spec in E as [Hu Hget]. simpl in Hu.
  destruct u as [|k u].
  - left. split.
    + intros key (kv & -> & Hin)%list_elem_of_fmap.
      destruct (decide (config_field kv.1 ∈ config_fields)) as [|Hn]; [done|].
      exfalso. eapply not_elem_of_nil. rewrite Hu. apply list_elem_of_fmap.
      exists kv. split; [done|]. by apply list_elem_of_filter.
    + exists n. split; [done|]. intros f Hf. rewrite (Hget f Hf). by destruct (last_setting data f).
  - right. split; [|done]. exists k.
    assert (k ∈ k :: u) as Hk by set_solver. rewrite Hu in Hk.
    apply list_elem_of_fmap in Hk as (kv & -> & [Hf Hin]%list_elem_of_filter).
    split; [|done]. by apply list_elem_of_fmap_2.
Qed.
