(* ===== verification/Hashing.v ===== *)
(** Key routing: src/cachelab/concurrency/hashing.py.

    [pykey] is the part of Python's hashable values that the documentation speaks
    about: booleans, integers, floats, strings, [None] and tuples of them; [py_eq]
    is Python's [==] on it.  The text of [repr] for a key, [repr] of a string and
    the 8-byte blake2b digest read as a big-endian integer are parameters: they are
    built into the interpreter and [hashlib].  The theorems hold for every choice
    of them. *)

From Stdlib Require Import ZArith SpecFloat.
From stdpp Require Import base tactics numbers option strings pretty sets list.
From S2P Require Import Prelude PyFloat.
Local Open Scope Z_scope.

Inductive pykey : Type :=
  | KBool (b : bool)
  | KInt (z : Z)
  | KFloat (f : float)
  | KStr (s : string)
  | KNone
  | KTuple (l : list pykey).

(** [float.is_integer] and [int(x)] together: the integer a float is equal to. *)
Definition float_as_int (f : float) : option Z :=
  match f with
  | S754_zero _ => Some 0
  | S754_finite s m e =>
      let v :=
        if 0 <=? e then Some (Zpos m * 2 ^ e)
        else if Zpos m mod 2 ^ (- e) =? 0 then Some (Zpos m / 2 ^ (- e))
        else None in
      (λ z, if s then - z else z) <$> v
  | _ => None
  end.

(** The integer a numeric key is equal to, if there is one. *)
Definition key_as_int (k : pykey) : option Z :=
  match k with
  | KBool b => Some (if b then 1 else 0)
  | KInt z => Some z
  | KFloat f => float_as_int f
  | _ => None
  end.

(** Python's [==] on keys. *)
Fixpoint py_eq (k1 k2 : pykey) : bool :=
  match k1, k2 with
  | KStr s1, KStr s2 => String.eqb s1 s2
  | KNone, KNone => true
  | KTuple l1, KTuple l2 =>
      (fix go l1 l2 :=
         match l1, l2 with
         | [], [] => true
         | x :: l1', y :: l2' => (py_eq x y && go l1' l2')%bool
         | _, _ => false
         end) l1 l2
  | KFloat f1, KFloat f2 => SFeqb f1 f2
  | _, _ =>
      match key_as_int k1, key_as_int k2 with
      | Some z1, Some z2 => z1 =? z2
      | _, _ => false
      end
  end.

Definition is_tuple (k : pykey) : bool := match k with KTuple _ => true | _ => false end.

(** The two shapes of the pair [_canonical] returns. *)
Inductive canonical_key : Type :=
  | CInt (z : Z)            (* ("int", z) *)
  | CRepr (text : string).  (* ("repr", text) *)

Lemma append_char_inj (c : Ascii.ascii) (s1 s2 : string) :
  s1 +:+ String c "" = s2 +:+ String c "" → s1 = s2.
Proof.
  revert s2. induction s1 as [|c1 s1 IH]; intros [|c2 s2]; simpl; intros H; simplify_eq; try done.
  - destruct s2; discriminate.
  - destruct s1; discriminate.
  - by rewrite (IH s2).
Qed.

Section hashing.
Context (py_repr : pykey → string) (str_repr : string → string) (blake2b_u64 : string → Z).

Definition canonical (key : pykey) : canonical_key :=
  match key with
  | KBool b => CInt (if b then 1 else 0)
  | KInt z => CInt z
  | KFloat f =>
      match float_as_int f with
      | Some z => CInt z
      | None => CRepr (py_repr key)
      end
  | _ => CRepr (py_repr key)
  end.

(** [repr(_canonical(key))], the text that is hashed. *)
Definition canonical_repr (c : canonical_key) : string :=
  match c with
  | CInt z => "('int', " +:+ pretty z +:+ ")"
  | CRepr text => "('repr', " +:+ str_repr text +:+ ")"
  end.

Definition stable_hash (key : pykey) : Z := blake2b_u64 (canonical_repr (canonical key)).

(** [stable_hash(key) % len(shards)], the index [Cache._shard_for] computes. *)
Definition shard_index_of (shard_count : Z) (key : pykey) : Z := stable_hash key mod shard_count.

Lemma SFeqb_cases (f1 f2 : float) :
  SFeqb f1 f2 = true → f1 = f2 ∨ (float_as_int f1 = Some 0 ∧ float_as_int f2 = Some 0).
Proof.
  unfold SFeqb, SFcompare.
  destruct f1 as [[]|[]| |[] m1 e1], f2 as [[]|[]| |[] m2 e2]; try done; try (by left);
    try (by right);
    destruct (Z.compare_spec e1 e2) as [->| |]; simpl; try done;
    change (Pos.compare_cont Eq m1 m2) with (Pos.compare m1 m2);
    destruct (Pos.compare_spec m1 m2) as [->| |]; simpl; try done; by left.
Qed.

Lemma canonical_of_int k z : key_as_int k = Some z → canonical k = CInt z.
Proof. destruct k; simpl; try done; [by intros [= ->]..|]. by intros ->. Qed.

Lemma canonical_int_eq k1 k2 :
  match key_as_int k1, key_as_int k2 with Some z1, Some z2 => z1 =? z2 | _, _ => false end = true →
  canonical k1 = canonical k2.
Proof.
  destruct (key_as_int k1) as [z1|] eqn:E1, (key_as_int k2) as [z2|] eqn:E2; try done.
  intros ->%Z.eqb_eq. by rewrite (canonical_of_int _ _ E1), (canonical_of_int _ _ E2).
Qed.

Lemma canonical_respects_eq k1 k2 :
  is_tuple k1 = false → py_eq k1 k2 = true → canonical k1 = canonical k2.
Proof.
  intros Ht Heq. pose proof (canonical_int_eq k1 k2) as Hint.
  destruct k1, k2; try done; try (exact (Hint Heq)).
  - apply SFeqb_cases in Heq as [->|[H1 H2]]; [done|]. simpl. by rewrite H1, H2.
  - by apply String.eqb_eq in Heq as ->.
Qed.

Lemma separated_by_some_modulus (k1 k2 : pykey) :
  stable_hash k1 ≠ stable_hash k2 → ∃ n, 0 < n ∧ shard_index_of n k1 ≠ shard_index_of n k2.
Proof.
  intros Hne. exists (1 + Z.abs (stable_hash k1 - stable_hash k2)). split; [lia|].
  unfold shard_index_of. set (n := 1 + _). intros Heq.
  assert (n ≠ 0) as Hn by (subst n; lia).
  pose proof (Z.div_mod (stable_hash k1) n Hn). pose proof (Z.div_mod (stable_hash k2) n Hn).
  set (q1 := _ / n) in *. set (q2 := stable_hash k2 / n) in *.
  assert (stable_hash k1 - stable_hash k2 = n * (q1 - q2)) by lia.
  destruct (decide (q1 = q2)); [nia|]. assert (n ≤ Z.abs (n * (q1 - q2))) by nia. lia.
Qed.

(** Keys that are equal under Python's [==] are routed to the same shard, for every
    shard count, when they are numbers ([True], [1] and [1.0] included), strings or
    [None]: the canonical form hides how the key is written. *)
Theorem equal_scalar_keys_share_a_shard (n : Z) (k1 k2 : pykey) :
  is_tuple k1 = false → py_eq k1 k2 = true →
  shard_index_of n k1 = shard_index_of n k2.
Proof.
  intros Ht Heq. unfold shard_index_of, stable_hash. by rewrite (canonical_respects_eq k1 k2).
Qed.

(** The routing index is a valid shard index, so [_shard_for] never fails. *)
Theorem shard_index_in_range (n : Z) (k : pykey) :
  0 < n → 0 ≤ shard_index_of n k < n.
Proof. intros Hn. by apply Z.mod_pos_bound. Qed.

(** Equality is not respected inside tuples: [(1,) == (1.0,)] holds in Python, but
    [repr] writes the two keys differently, so different texts are hashed, and unless
    the digests happen to collide some shard count sends the equal keys to different
    shards. *)
Theorem equal_tuple_keys_may_be_split :
  let k1 := KTuple [KInt 1] in
  let k2 := KTuple [KFloat (float_of_Z 1)] in
  py_repr k1 ≠ py_repr k2 →
  (∀ s1 s2, str_repr s1 = str_repr s2 → s1 = s2) →
  py_eq k1 k2 = true ∧
  canonical_repr (canonical k1) ≠ canonical_repr (canonical k2) ∧
  (stable_hash k1 ≠ stable_hash k2 →
   ∃ n, 0 < n ∧ shard_index_of n k1 ≠ shard_index_of n k2).
Proof.
  intros k1 k2 Hrepr Hstr. split_conj; [by vm_compute| |].
  - simpl. intros Heq. apply Hrepr, Hstr. simplify_eq. by eapply append_char_inj.
  - apply separated_by_some_modulus.
Qed.
End hashing.

(** ** Witnesses: a concrete [repr] on small keys and a toy digest. *)

Definition demo_repr (k : pykey) : string :=
  match k with
  | KTuple [KInt z] => "(" +:+ pretty z +:+ ",)"
  | KTuple [KFloat f] => "(1.0,)"
  | _ => "?"
  end.
Definition demo_digest (s : string) : Z := Z.of_nat (String.length s).

Lemma equal_scalar_keys_share_a_shard_witness :
  is_tuple (KBool true) = false ∧ py_eq (KBool true) (KFloat (float_of_Z 1)) = true ∧
  shard_index_of demo_repr id demo_digest 8 (KBool true)
  = shard_index_of demo_repr id demo_digest 8 (KFloat (float_of_Z 1)).
Proof.
  split; [reflexivity|]. split; [vm_compute; reflexivity|].
  apply equal_scalar_keys_share_a_shard; vm_compute; reflexivity.
Defined.

Lemma shard_index_in_range_witness :
  0 < 8 ∧ 0 ≤ shard_index_of demo_repr id demo_digest 8 (KStr "user:1") < 8.
Proof. split; [lia|]. apply shard_index_in_range. lia. Defined.

Lemma equal_tuple_keys_may_be_split_witness :
  demo_repr (KTuple [KInt 1]) ≠ demo_repr (KTuple [KFloat (float_of_Z 1)]) ∧
  ∃ n, 0 < n ∧
    shard_index_of demo_repr id demo_digest n (KTuple [KInt 1])
    ≠ shard_index_of demo_repr id demo_digest n (KTuple [KFloat (float_of_Z 1)]).
Proof.
  split; [vm_compute; discriminate|].
  apply (equal_tuple_keys_may_be_split demo_repr id demo_digest);
    [vm_compute; discriminate|intros s1 s2 H; exact H|vm_compute; discriminate].
Defined.
