(* ===== verification/Locks.v ===== *)
(** The metered lock of a shard: src/cachelab/concurrency/locks.py.

    Threads call [acquire] and [release] in any order and any interleaving.  A step is one
    operation on the reentrant lock or on the counter of contentions; a call to [acquire]
    that does not get the lock at once goes through two more steps. *)

From stdpp Require Import base tactics numbers option strings list relations.
From S2P Require Import Prelude PyMonad.
Local Open Scope string_scope.
Local Open Scope list_scope.
Local Open Scope Z_scope.

(** ** [threading.RLock] *)

(** The owner and how often it holds the lock, a positive number. *)
Definition RLock : Type := option (nat * nat).

(** [lock.acquire(blocking=False)] by thread [i]: the lock when it is granted. *)
Definition rlock_try (i : nat) (l : RLock) : option RLock :=
  match l with
  | None => Some (Some (i, 1%nat))
  | Some (owner, depth) => if decide (owner = i) then Some (Some (i, S depth)) else None
  end.
(** [lock.release()] *)
Definition rlock_release (i : nat) (l : RLock) : result RLock :=
  match l with
  | Some (owner, depth) =>
      if decide (owner = i)
      then Ok (match depth with S (S d) => Some (i, S d) | _ => None end)
      else Raise (RuntimeError "cannot release un-acquired lock")
  | None => Raise (RuntimeError "cannot release un-acquired lock")
  end.

(** ** [MeteredRLock] *)

Record MeteredRLock : Type := mkMetered { ml_lock : RLock; ml_contentions : Z }.
Definition metered_init : MeteredRLock := mkMetered None 0.

(** Where a thread is: outside of [acquire], before the counter is incremented, or waiting in
    the blocking acquisition. *)
Inductive lock_phase : Type := Running | Counting | Blocked.
#[export] Instance lock_phase_eq_dec : EqDecision lock_phase.
Proof. solve_decision. Defined.

(** The first step of [acquire]. *)
Definition acquire_try (i : nat) (m : MeteredRLock) : MeteredRLock * lock_phase :=
  match rlock_try i (ml_lock m) with
  | Some l => (mkMetered l (ml_contentions m), Running)
  | None => (m, Counting)
  end.
(** [with self._counter_lock: self._contentions += 1] *)
Definition count_contention (m : MeteredRLock) : MeteredRLock :=
  mkMetered (ml_lock m) (ml_contentions m + 1).
(** The end of the blocking [self._lock.acquire()], which waits for the lock. *)
Definition acquire_blocked (i : nat) (m : MeteredRLock) : option MeteredRLock :=
  (λ l, mkMetered l (ml_contentions m)) <$> rlock_try i (ml_lock m).
(** [release] *)
Definition metered_release (i : nat) (m : MeteredRLock) : result MeteredRLock :=
  match rlock_release i (ml_lock m) with
  | Ok l => Ok (mkMetered l (ml_contentions m))
  | Raise e => Raise e
  end.
(** [contentions] *)
Definition contentions (m : MeteredRLock) : Z := ml_contentions m.

(** ** Threads *)

(** A thread with what it did: the acquisitions it has not released, and how many of its
    calls to [acquire] found the lock held by another thread. *)
Record lock_thread : Type := mkLockThread {
  lt_phase : lock_phase;
  lt_holds : nat;
  lt_denied : Z;
}.
Definition new_thread : lock_thread := mkLockThread Running 0 0.

Inductive metered_step : MeteredRLock * list lock_thread → MeteredRLock * list lock_thread → Prop :=
  | ls_spawn m ts : metered_step (m, ts) (m, ts ++ [new_thread])
  | ls_granted m m' ts i t :
      ts !! i = Some t → lt_phase t = Running → acquire_try i m = (m', Running) →
      metered_step (m, ts) (m', <[i:=mkLockThread Running (S (lt_holds t)) (lt_denied t)]> ts)
  | ls_denied m m' ts i t :
      ts !! i = Some t → lt_phase t = Running → acquire_try i m = (m', Counting) →
      metered_step (m, ts) (m', <[i:=mkLockThread Counting (lt_holds t) (lt_denied t + 1)]> ts)
  | ls_count m ts i t :
      ts !! i = Some t → lt_phase t = Counting →
      metered_step (m, ts) (count_contention m, <[i:=mkLockThread Blocked (lt_holds t) (lt_denied t)]> ts)
  | ls_wake m m' ts i t :
      ts !! i = Some t → lt_phase t = Blocked → acquire_blocked i m = Some m' →
      metered_step (m, ts) (m', <[i:=mkLockThread Running (S (lt_holds t)) (lt_denied t)]> ts)
  | ls_release m m' ts i t :
      ts !! i = Some t → lt_phase t = Running → metered_release i m = Ok m' →
      metered_step (m, ts) (m', <[i:=mkLockThread Running (pred (lt_holds t)) (lt_denied t)]> ts).

(** ** Invariant *)

Definition counting (t : lock_thread) : Z := if decide (lt_phase t = Counting) then 1 else 0.

(** How often the lock says a thread holds it. *)
Definition depth_of (l : RLock) (i : nat) : nat :=
  match l with Some (owner, depth) => if decide (owner = i) then depth else 0 | None => 0 end.

Record lock_ok (s : MeteredRLock * list lock_thread) : Prop := {
  lo_depth i t : s.2 !! i = Some t → lt_holds t = depth_of (ml_lock s.1) i;
  lo_positive owner depth : ml_lock s.1 = Some (owner, depth) → (0 < depth)%nat ∧ is_Some (s.2 !! owner);
  lo_phase i t : s.2 !! i = Some t → lt_phase t ≠ Running → lt_holds t = 0%nat;
  lo_count : ml_contentions s.1 + py_sum (counting <$> s.2) = py_sum (lt_denied <$> s.2);
}.

(** The lock after a change by thread [i], against the thread's new count. *)
Lemma lock_ok_insert m m' ts i t t' :
  lock_ok (m, ts) → ts !! i = Some t →
  lt_holds t' = depth_of (ml_lock m') i →
  (∀ j, j ≠ i → depth_of (ml_lock m') j = depth_of (ml_lock m) j) →
  (∀ owner depth, ml_lock m' = Some (owner, depth) → (0 < depth)%nat ∧ is_Some (ts !! owner)) →
  (lt_phase t' ≠ Running → lt_holds t' = 0%nat) →
  ml_contentions m' - ml_contentions m = lt_denied t' - lt_denied t - counting t' + counting t →
  lock_ok (m', <[i:=t']> ts).
Proof.
  intros [Hd Hp Hph Hc] Hi Ht Hother Hpos Hphase Hcount. simpl in *. split; simpl.
  - intros j u Hj. apply list_lookup_insert_Some in Hj as [(<- & <- & _)|[Hne Hj]]; [done|].
    rewrite Hother by done. by apply Hd.
  - intros owner depth Ho. destruct (Hpos owner depth Ho) as [? Hin]. split; [done|].
    rewrite lookup_lt_is_Some in *. by rewrite length_insert.
  - intros j u Hj. apply list_lookup_insert_Some in Hj as [(_ & <- & _)|[_ Hj]]; [done|]. by apply (Hph j).
  - rewrite !(py_sum_insert _ _ _ t) by done. lia.
Qed.

(** What a granted attempt does to the depths. *)
Lemma rlock_try_granted i l l' :
  rlock_try i l = Some l' →
  l' = Some (i, S (depth_of l i)) ∧ ∀ j, j ≠ i → depth_of l' j = depth_of l j.
Proof.
  unfold rlock_try, depth_of. destruct l as [[owner depth]|]; repeat case_decide; intros [= <-]; try done.
  - subst. split; [done|]. intros j Hj. by rewrite !decide_False by done.
  - split; [done|]. intros j Hj. by rewrite decide_False by done.
Qed.

Lemma rlock_release_ok i l l' :
  rlock_release i l = Ok l' → (∀ depth, l = Some (i, depth) → (0 < depth)%nat) →
  depth_of l' i = pred (depth_of l i) ∧ (∀ j, j ≠ i → depth_of l' j = depth_of l j) ∧
  (∀ owner depth, l' = Some (owner, depth) → (0 < depth)%nat ∧ owner = i) ∧ (0 < depth_of l i)%nat.
Proof.
  unfold rlock_release. destruct l as [[owner depth]|]; [|done]. case_decide as Ho; [|done]. subst owner.
  intros [= <-] Hpos. specialize (Hpos depth eq_refl). unfold depth_of. rewrite (decide_True (P := i = i)) by done.
  destruct depth as [|[|d]]; [lia|split_conj; try done; try lia..].
  - intros j Hj. by rewrite decide_False.
  - by rewrite decide_True.
  - intros j Hj. by rewrite !decide_False by done.
  - intros ? ? [= <- <-]. split; [lia|done].
Qed.

Lemma lock_ok_grant m ts i t l :
  lock_ok (m, ts) → ts !! i = Some t → lt_phase t ≠ Counting → rlock_try i (ml_lock m) = Some l →
  lock_ok (mkMetered l (ml_contentions m), <[i:=mkLockThread Running (S (lt_holds t)) (lt_denied t)]> ts).
Proof.
  intros Hok Hi Hp Hl. destruct (rlock_try_granted _ _ _ Hl) as [-> Hother].
  apply (lock_ok_insert m _ ts i t); [done|done| |done| |done|].
  - simpl. rewrite decide_True by done. f_equal. exact (lo_depth _ Hok i t Hi).
  - intros ? ? [= <- <-]. split; [lia|by eexists].
  - unfold counting. cbn [lt_phase lt_denied ml_contentions]. rewrite !decide_False by done. lia.
Qed.

Lemma metered_ok_step s s' : lock_ok s → metered_step s s' → lock_ok s'.
Proof.
  intros Hok Hs. destruct Hs as [m ts|m m' ts i t Hi Hp Ha|m m' ts i t Hi Hp Ha|m ts i t Hi Hp|m m' ts i t Hi Hp Ha|m m' ts i t Hi Hp Ha].
  - destruct Hok as [Hd Hpos Hph Hc]. simpl in *. split; simpl.
    + intros i t Hi. apply lookup_snoc_Some in Hi as [[_ Hi]|[-> <-]]; [by apply Hd|]. simpl.
      unfold depth_of. destruct (ml_lock m) as [[owner depth]|] eqn:El; [|done].
      destruct (Hpos _ _ eq_refl) as [_ Hin%lookup_lt_is_Some]. by rewrite decide_False by lia.
    + intros owner depth Ho. destruct (Hpos owner depth Ho) as [? Hin]. split; [done|].
      rewrite lookup_lt_is_Some in *. rewrite length_app. simpl. lia.
    + intros i t Hi. apply lookup_snoc_Some in Hi as [[_ Hi]|[-> <-]]; [by apply (Hph i)|done].
    + rewrite !fmap_app, !py_sum_app. change (py_sum (counting <$> [new_thread])) with 0.
      change (py_sum (lt_denied <$> [new_thread])) with 0. lia.
  - unfold acquire_try in Ha. destruct (rlock_try i (ml_lock m)) as [l|] eqn:El; [|done].
    injection Ha as <-. apply (lock_ok_grant _ _ _ t); [done..|congruence|done].
  - unfold acquire_try in Ha. destruct (rlock_try i (ml_lock m)) as [l|] eqn:El; [done|].
    injection Ha as <-. apply (lock_ok_insert m _ ts i t); [done|done|exact (lo_depth _ Hok i t Hi)|done|exact (lo_positive _ Hok)| |].
    + intros _. simpl. rewrite (lo_depth _ Hok i t Hi). unfold rlock_try in El. unfold depth_of. simpl.
      destruct (ml_lock m) as [[owner depth]|]; [|done]. by case_decide.
    + unfold counting. cbn [lt_phase lt_denied ml_contentions count_contention]. rewrite Hp. repeat case_decide; try done; lia.
  - apply (lock_ok_insert m _ ts i t); [done|done|exact (lo_depth _ Hok i t Hi)|done|exact (lo_positive _ Hok)| |].
    + intros _. simpl. apply (lo_phase _ Hok i t Hi). congruence.
    + unfold counting. cbn [lt_phase lt_denied ml_contentions count_contention]. rewrite Hp. repeat case_decide; try done; lia.
  - unfold acquire_blocked in Ha. apply fmap_Some in Ha as (l & El & ->).
    apply (lock_ok_grant _ _ _ t); [done..|congruence|done].
  - unfold metered_release in Ha. destruct (rlock_release i (ml_lock m)) as [l|] eqn:El; [|done].
    injection Ha as <-. destruct (rlock_release_ok _ _ _ El) as (H1 & H2 & H3 & H4).
    { intros depth Hl. by destruct (lo_positive _ Hok _ _ Hl). }
    apply (lock_ok_insert m _ ts i t); [done|done| |done| |done|].
    + simpl. rewrite H1. f_equal. exact (lo_depth _ Hok i t Hi).
    + intros owner depth Ho. simpl in Ho. destruct (H3 _ _ Ho) as [? ->]. split; [done|by eexists].
    + unfold counting. cbn [lt_phase lt_denied ml_contentions]. rewrite Hp. lia.
Qed.

Lemma lock_ok_reachable s : rtc metered_step (metered_init, []) s → lock_ok s.
Proof.
  intros Hs. remember (metered_init, []) as s0 eqn:E.
  assert (lock_ok s0) as H0 by (subst; split; done).
  clear E. induction Hs as [|s1 s2 s3 H12 _ IH]; [done|]. by apply IH, (metered_ok_step s1).
Qed.

(** C26: the metered lock is a lock, whatever the number of threads and the interleaving.  No
    two threads hold it; a thread that holds it gets it again at once, and one that holds it
    may release it; when no thread holds it every thread that waits can get it; and the
    counter is exactly the number of calls to [acquire] that found the lock held by another
    thread, less those that have not come to the increment yet. *)
Theorem metered_lock_excludes (m : MeteredRLock) (ts : list lock_thread) :
  rtc metered_step (metered_init, []) (m, ts) →
  (∀ i j ti tj, ts !! i = Some ti → ts !! j = Some tj →
     (0 < lt_holds ti)%nat → (0 < lt_holds tj)%nat → i = j) ∧
  (∀ i t, ts !! i = Some t → (0 < lt_holds t)%nat →
     (acquire_try i m).2 = Running ∧ ∃ m', metered_release i m = Ok m') ∧
  ((∀ i t, ts !! i = Some t → lt_holds t = 0%nat) → ∀ i, is_Some (acquire_blocked i m)) ∧
  contentions m = py_sum (lt_denied <$> ts) - py_sum (counting <$> ts).
Proof.
  intros Hr. pose proof (lock_ok_reachable _ Hr) as Hok. pose proof Hok as [Hd Hpos _ Hc]. simpl in *.
  assert (∀ i t, ts !! i = Some t → (0 < lt_holds t)%nat → ∃ d, ml_lock m = Some (i, d)) as Hown.
  { intros i t Hi. rewrite (Hd i t Hi). unfold depth_of. destruct (ml_lock m) as [[owner depth]|]; [|lia].
    case_decide; [subst; by eauto|lia]. }
  split_conj; [| | |unfold contentions; lia].
  - intros i j ti tj Hi Hj Hti Htj. destruct (Hown i ti Hi Hti) as [d Ed].
    destruct (Hown j tj Hj Htj) as [d' Ed']. congruence.
  - intros i t Hi Ht. destruct (Hown i t Hi Ht) as [d Ed]. unfold acquire_try, metered_release, rlock_try, rlock_release.
    rewrite Ed, !decide_True by done. split; [done|by eexists].
  - intros Hfree i. unfold acquire_blocked, rlock_try. destruct (ml_lock m) as [[owner depth]|] eqn:El; [|by eexists].
    destruct (Hpos owner depth eq_refl) as [Hdep [t Ht]]. specialize (Hd owner t Ht).
    rewrite (Hfree owner t Ht) in Hd. simpl in Hd. rewrite decide_True in Hd by done. lia.
Qed.

(** Two threads, of which the second finds the lock held. *)
Lemma metered_lock_excludes_witness :
  let m := mkMetered (Some (0%nat, 1%nat)) 1 in
  let ts := [mkLockThread Running 1 0; mkLockThread Blocked 0 1] in
  rtc metered_step (metered_init, []) (m, ts) ∧ contentions m = 1 ∧
  (acquire_try 0 m).2 = Running ∧
  ∀ j tj, ts !! j = Some tj → (0 < lt_holds tj)%nat → 0%nat = j.
Proof.
  intros m ts.
  assert (rtc metered_step (metered_init, []) (m, ts)) as Hr.
  { eapply rtc_l; [apply ls_spawn|]. eapply rtc_l; [apply ls_spawn|].
    eapply rtc_l; [by eapply (ls_granted _ _ _ 0)|].
    eapply rtc_l; [by eapply (ls_denied _ _ _ 1)|].
    eapply rtc_l; [by eapply (ls_count _ _ 1)|]. apply rtc_refl. }
  destruct (metered_lock_excludes m ts Hr) as (He & Hh & _ & Hc). split; [exact Hr|]. split; [exact Hc|].
  split; [exact (proj1 (Hh 0%nat (mkLockThread Running 1 0) eq_refl ltac:(simpl; lia)))|].
  intros j tj Hj Ht. exact (He 0%nat j (mkLockThread Running 1 0) tj eq_refl Hj ltac:(simpl; lia) Ht).
Defined.
