(* ===== verification/Json.v ===== *)
(** The values the command line stores: what [json.load] returns and [json.dump] accepts.

    A [pyval] is a Python value of the JSON types; an object is a [dict] with string keys.
    The text of a JSON file is not modelled, only the value it denotes: [json_dump] is that
    value after [json.dump(..., sort_keys=True)], which puts the keys of every object in
    order, and reading it back gives exactly this value.  Keys of the cache are the hashable
    JSON values ([typed_key]).  [float(...)], [str(...)] and [repr(...)] are those of the interpreter; the text
    of a float and of a quoted string are parameters of [py_str]. *)

From Stdlib Require Import ZArith SpecFloat Ascii.
From stdpp Require Import base tactics numbers option strings pretty sets list.
From S2P Require Import Prelude PyDict PyFloat PyMonad Hashing.
Local Open Scope string_scope.
Local Open Scope list_scope.
Local Open Scope Z_scope.

Inductive pyval : Type :=
  | VNone
  | VBool (b : bool)
  | VInt (z : Z)
  | VFloat (f : float)
  | VStr (s : string)
  | VList (l : list pyval)
  | VDict (d : list (string * pyval)).

(** ** Induction and decidable equality *)

Section induction.
Context (P : pyval → Prop).
Context (HN : P VNone) (HB : ∀ b, P (VBool b)) (HZ : ∀ z, P (VInt z)) (HF : ∀ f, P (VFloat f)).
Context (HS : ∀ s, P (VStr s)) (HL : ∀ l, Forall P l → P (VList l)).
Context (HD : ∀ d, Forall (λ kv, P kv.2) d → P (VDict d)).

Fixpoint pyval_ind' (v : pyval) : P v :=
  match v with
  | VNone => HN
  | VBool b => HB b
  | VInt z => HZ z
  | VFloat f => HF f
  | VStr s => HS s
  | VList l =>
      HL l ((fix go l : Forall P l :=
               match l with
               | [] => Forall_nil_2 P
               | x :: l' => Forall_cons_2 P x l' (pyval_ind' x) (go l')
               end) l)
  | VDict d =>
      HD d ((fix go d : Forall (λ kv, P kv.2) d :=
               match d with
               | [] => Forall_nil_2 _
               | x :: d' => Forall_cons_2 (λ kv : string * pyval, P kv.2) x d' (pyval_ind' x.2) (go d')
               end) d)
  end.
End induction.

(** ** Objects in key order *)

(** [s < t] for strings: the order of the characters, a prefix first. *)
Fixpoint str_lt (s t : string) : bool :=
  match s, t with
  | _, EmptyString => false
  | EmptyString, String _ _ => true
  | String a s', String b t' =>
      if Ascii.eqb a b then str_lt s' t' else (N_of_ascii a <? N_of_ascii b)%N
  end.

(** Insertion into an object that is in key order, and [sorted(d.items())]. *)
Fixpoint insert_item {A} (k : string) (v : A) (d : list (string * A)) : list (string * A) :=
  match d with
  | [] => [(k, v)]
  | (k', v') :: d' => if str_lt k' k then (k', v') :: insert_item k v d' else (k, v) :: d
  end.
Definition sort_items {A} (d : list (string * A)) : list (string * A) :=
  foldr (λ kv acc, insert_item kv.1 kv.2 acc) [] d.

(** The value [json.dump] writes. *)
Fixpoint json_dump (v : pyval) : pyval :=
  match v with
  | VList l => VList (map json_dump l)
  | VDict d => VDict (sort_items (map (λ kv, (kv.1, json_dump kv.2)) d))
  | _ => v
  end.

(** ** Reading the text of a value *)

Section text.
Context (float_repr : float → string) (str_repr : string → string).

(** [sep.join(parts)] *)
Fixpoint str_join (sep : string) (parts : list string) : string :=
  match parts with
  | [] => ""
  | [s] => s
  | s :: parts' => s +:+ sep +:+ str_join sep parts'
  end.

(** [repr(v)] and [str(v)] *)
Fixpoint py_repr (v : pyval) : string :=
  match v with
  | VNone => "None"
  | VBool b => if b then "True" else "False"
  | VInt z => pretty z
  | VFloat f => float_repr f
  | VStr s => str_repr s
  | VList l => "[" +:+ str_join ", " (map py_repr l) +:+ "]"
  | VDict d => "{" +:+ str_join ", " (map (λ kv, str_repr kv.1 +:+ ": " +:+ py_repr kv.2) d) +:+ "}"
  end.
Definition py_str (v : pyval) : string := match v with VStr s => s | _ => py_repr v end.
End text.

(** [float(v)]: the integers too large for a float raise [OverflowError], what is not a
    number [TypeError], and a string is read by [float_of_str], which rejects it with
    [ValueError]. *)
Definition is_infinite (f : float) : bool :=
  match f with S754_infinity _ => true | _ => false end.
Definition py_float (float_of_str : string → option float) (v : pyval) : result float :=
  match v with
  | VBool b => Ok (float_of_Z (if b then 1 else 0))
  | VInt z => if is_infinite (float_of_Z z) then Raise OverflowError else Ok (float_of_Z z)
  | VFloat f => Ok f
  | VStr s =>
      match float_of_str s with
      | Some f => Ok f
      | None => Raise (ValueError "could not convert string to float")
      end
  | VNone | VList _ | VDict _ =>
      Raise (TypeError "float() argument must be a string or a real number")
  end.

(** ** Keys *)

(** Any hashable JSON value is a key; without [--key-json] the keys are strings.  Python's [dict] identifies the
    numbers that are equal, [True], [1] and [1.0], so a number equal to an integer is that
    integer here; the form in which it was first written only shows when it is printed. *)
Inductive typed_key : Type :=
  | TNone
  | TStr (s : string)
  | TInt (z : Z)
  | TFloat (f : float) (Hf : bool_decide (float_as_int f = None) = true).

#[export] Instance typed_key_eq_dec : EqDecision typed_key.
Proof.
  intros [|s1|z1|f1 H1] [|s2|z2|f2 H2]; try (right; discriminate); try (by left).
  - destruct (decide (s1 = s2)); [left|right]; congruence.
  - destruct (decide (z1 = z2)); [left|right]; congruence.
  - destruct (decide (f1 = f2)) as [<-|]; [|right; congruence].
    left. f_equal. apply proof_irrel.
Defined.

Definition float_key (f : float) : typed_key :=
  match float_as_int f as o return float_as_int f = o → typed_key with
  | Some z => λ _, TInt z
  | None => λ E, TFloat f (bool_decide_eq_true_2 _ E)
  end eq_refl.

Lemma float_key_real f (H : bool_decide (float_as_int f = None) = true) : float_key f = TFloat f H.
Proof.
  unfold float_key. generalize (eq_refl (float_as_int f)) as E.
  pose proof (bool_decide_eq_true_1 _ H) as HN. generalize (float_as_int f) at 2 3 as o.
  intros [z|] E; [congruence|]. f_equal. apply proof_irrel.
Qed.

(** The value written for a key, and the key a JSON value is when used as one: [None] for a
    list or an object, which Python cannot hash. *)
Definition key_json (k : typed_key) : pyval :=
  match k with
  | TNone => VNone
  | TStr s => VStr s
  | TInt z => VInt z
  | TFloat f _ => VFloat f
  end.
Definition json_key (v : pyval) : option typed_key :=
  match v with
  | VNone => Some TNone
  | VBool b => Some (TInt (if b then 1 else 0))
  | VInt z => Some (TInt z)
  | VFloat f => Some (float_key f)
  | VStr s => Some (TStr s)
  | VList _ | VDict _ => None
  end.

Lemma json_key_roundtrip k : json_key (json_dump (key_json k)) = Some k.
Proof. destruct k as [|s|z|f H]; simpl; [done..|]. by rewrite (float_key_real f H). Qed.

(** ** Lemmas *)

Lemma str_length_app (s t : string) :
  String.length (s +:+ t) = (String.length s + String.length t)%nat.
Proof. induction s as [|a s IH]; [done|]. exact (f_equal S IH). Qed.

Lemma str_app_assoc (s t u : string) : (s +:+ t) +:+ u = s +:+ t +:+ u.
Proof. induction s as [|a s IH]; [done|]. exact (f_equal (String a) IH). Qed.

Lemma str_app_nil_r (s : string) : s +:+ "" = s.
Proof. induction s as [|a s IH]; [done|]. exact (f_equal (String a) IH). Qed.

Fixpoint str_last (s : string) : option ascii :=
  match s with
  | EmptyString => None
  | String a s' => match s' with EmptyString => Some a | _ => str_last s' end
  end.

Lemma str_last_app s a t : str_last (s +:+ String a t) = str_last (String a t).
Proof.
  induction s as [|b s IH]; [done|]. destruct s as [|c s]; [done|].
  etransitivity; [|exact IH]. done.
Qed.

Lemma str_lt_irrefl s : str_lt s s = false.
Proof. induction s as [|a s IH]; simpl; [done|]. by rewrite Ascii.eqb_refl. Qed.

Lemma str_lt_asym s t : str_lt s t = true → str_lt t s = false.
Proof.
  revert t. induction s as [|a s IH]; intros [|b t]; simpl; try done.
  rewrite (Ascii.eqb_sym b a). destruct (Ascii.eqb_spec a b); [apply IH|].
  rewrite N.ltb_lt, N.ltb_ge. lia.
Qed.

Section sorting.
Context {A : Type}.
Implicit Types d : list (string * A).

(** An object in key order: no key is smaller than the one before it. *)
Fixpoint in_key_order d : Prop :=
  match d with
  | [] => True
  | (k, _) :: d' =>
      match d' with [] => True | (k', _) :: _ => str_lt k' k = false end ∧ in_key_order d'
  end.

Lemma insert_item_order k v d : in_key_order d → in_key_order (insert_item k v d).
Proof.
  induction d as [|[k' v'] d IH]; simpl; [done|]. intros [Hh Hd].
  destruct (str_lt k' k) eqn:E; simpl; [|done]. split; [|by apply IH].
  destruct d as [|[k2 v2] d]; simpl; [by apply str_lt_asym|].
  destruct (str_lt k2 k); [done|by apply str_lt_asym].
Qed.

Lemma sort_items_order d : in_key_order (sort_items d).
Proof. induction d as [|[k v] d IH]; simpl; [done|]. by apply insert_item_order. Qed.

Lemma sort_items_sorted d : in_key_order d → sort_items d = d.
Proof.
  induction d as [|[k v] d IH]; simpl; [done|]. intros [Hh Hd]. rewrite IH by done.
  destruct d as [|[k' v'] d]; simpl; [done|]. by rewrite Hh.
Qed.

Lemma insert_item_get k v d k' :
  dict_get (insert_item k v d) k' = if decide (k = k') then Some v else dict_get d k'.
Proof.
  induction d as [|[k0 v0] d IH]; simpl; [by case_decide|].
  destruct (str_lt k0 k) eqn:E; simpl; [|done]. rewrite IH.
  destruct (decide (k = k')) as [->|]; [|done]. case_decide; [|done].
  subst. by rewrite str_lt_irrefl in E.
Qed.

(** Sorting an object keeps its lookups. *)
Lemma sort_items_get d k : dict_get (sort_items d) k = dict_get d k.
Proof.
  induction d as [|[k0 v0] d IH]; simpl; [done|]. by rewrite insert_item_get, IH.
Qed.

Lemma sort_items_map {B} (f : A → B) d :
  sort_items (map (λ kv, (kv.1, f kv.2)) d) = map (λ kv, (kv.1, f kv.2)) (sort_items d).
Proof.
  induction d as [|[k v] d IH]; simpl; [done|]. rewrite IH. generalize (sort_items d).
  intros l. induction l as [|[k' v'] l IHl]; simpl; [done|].
  destruct (str_lt k' k); simpl; [by rewrite IHl|done].
Qed.
End sorting.

(** Writing a value a second time changes nothing more. *)
Lemma json_dump_idem v : json_dump (json_dump v) = json_dump v.
Proof.
  induction v as [| | | | |l IH|d IH] using pyval_ind'; simpl; try done.
  - f_equal. rewrite map_map. induction IH as [|x l Hx _ IHl]; simpl; congruence.
  - f_equal. rewrite (sort_items_map json_dump (sort_items _)).
    rewrite (sort_items_sorted (sort_items _)) by apply sort_items_order.
    rewrite <- (sort_items_map json_dump), map_map.
    f_equal. induction IH as [|[k x] d Hx _ IHd]; simpl in *; congruence.
Qed.
