(* ===== verification/Logging.v ===== *)
(** Log lines: src/cachelab/observability/logging.py.

    The logger is its level test; a line is the text [logger.info] formats. *)

From Stdlib Require Import ZArith Ascii.
From stdpp Require Import base tactics numbers option strings pretty sets list.
From S2P Require Import Prelude PyDict PyFloat PyMonad Json.
Local Open Scope string_scope.
Local Open Scope list_scope.

(** [get_logger]: the name of the logger. *)
Definition get_logger : string := "cachelab".

(** [log_event]; [enabled] is [logger.isEnabledFor(logging.INFO)]. *)
Definition log_parts (float_repr : float → string) (str_repr : string → string) (fields : list (string * pyval))
    : string :=
  str_join " " (map (λ kv, kv.1 +:+ "=" +:+ py_repr float_repr str_repr kv.2) (sort_items fields)).
Definition log_event (float_repr : float → string) (str_repr : string → string) (enabled : bool) (event : string)
    (fields : list (string * pyval)) : option string :=
  if negb enabled then None
  else Some ("cachelab_event " +:+ event +:+ " " +:+ log_parts float_repr str_repr fields).

(** ** The order of strings is total *)

Lemma str_lt_total s t : str_lt s t = false → str_lt t s = false → s = t.
Proof.
  revert t. induction s as [|a s IH]; intros [|b t]; simpl; try done.
  rewrite (Ascii.eqb_sym b a). destruct (Ascii.eqb_spec a b) as [->|Hne].
  - intros H1 H2. by rewrite (IH t H1 H2).
  - rewrite !N.ltb_ge. intros H1 H2. destruct Hne. rewrite <- (ascii_N_embedding a), <- (ascii_N_embedding b). f_equal. lia.
Qed.
Lemma str_lt_trans s t u : str_lt s t = true → str_lt t u = true → str_lt s u = true.
Proof.
  revert t u. induction s as [|a s IH]; intros [|b t] [|c u]; simpl; try done.
  destruct (Ascii.eqb_spec a b) as [->|Hab], (Ascii.eqb_spec b c) as [->|Hbc]; try done.
  - by apply IH.
  - destruct (Ascii.eqb_spec a c); [done|]. done.
  - rewrite !N.ltb_lt. intros H1 H2. destruct (Ascii.eqb_spec a c) as [->|]; [lia|]. apply N.ltb_lt. lia.
Qed.

Section order.
Context {A : Type}.
Implicit Types d : list (string * A).

(** Items with different keys can be inserted in any order. *)
Lemma insert_item_comm k1 (v1 : A) k2 v2 d :
  k1 ≠ k2 → insert_item k1 v1 (insert_item k2 v2 d) = insert_item k2 v2 (insert_item k1 v1 d).
Proof.
  intros Hne.
  assert (str_lt k1 k2 = negb (str_lt k2 k1)) as Hlt.
  { destruct (str_lt k1 k2) eqn:E1, (str_lt k2 k1) eqn:E2; try done.
    - by rewrite (str_lt_asym _ _ E1) in E2.
    - destruct Hne. by apply str_lt_total. }
  induction d as [|[k v] d IH]; cbn [insert_item].
  { rewrite Hlt. by destruct (str_lt k2 k1). }
  destruct (str_lt k k1) eqn:E1, (str_lt k k2) eqn:E2; cbn [insert_item]; rewrite ?E1, ?E2; [by rewrite IH| | |].
  - destruct (str_lt k2 k1) eqn:E; [done|]. exfalso.
    destruct (decide (k = k2)) as [->|Hk]; [by rewrite E in E1|].
    destruct (str_lt k2 k) eqn:E3; [by rewrite (str_lt_trans _ _ _ E3 E1) in E|]. destruct Hk. by apply str_lt_total.
  - destruct (str_lt k1 k2) eqn:E; [done|]. exfalso.
    destruct (decide (k = k1)) as [->|Hk]; [by rewrite E in E2|].
    destruct (str_lt k1 k) eqn:E3; [by rewrite (str_lt_trans _ _ _ E3 E2) in E|]. destruct Hk. by apply str_lt_total.
  - rewrite Hlt. by destruct (str_lt k2 k1); cbn [negb]; rewrite ?E1, ?E2.
Qed.

Lemma sort_items_perm d1 d2 : d1 ≡ₚ d2 → NoDup d1.*1 → sort_items d1 = sort_items d2.
Proof.
  induction 1 as [|[k v] d1 d2 Hp IH|[k1 v1] [k2 v2] d|d1 d2 d3 H1 IH1 H2 IH2]; rewrite ?fmap_cons; cbn [fst].
  - done.
  - intros [_ Hn]%NoDup_cons. cbn [sort_items foldr fst snd]. f_equal. by apply IH.
  - intros [Hn _]%NoDup_cons. cbn [sort_items foldr fst snd]. apply insert_item_comm. set_solver.
  - intros Hn. rewrite IH1 by done. apply IH2. by rewrite <- H1.
Qed.
End order.

(** A log line does not depend on the order its fields are given in. *)
Lemma log_event_order float_repr str_repr enabled event fields1 fields2 :
  fields1 ≡ₚ fields2 → NoDup fields1.*1 →
  log_event float_repr str_repr enabled event fields1 = log_event float_repr str_repr enabled event fields2.
Proof. intros Hp Hn. unfold log_event, log_parts. by rewrite (sort_items_perm fields1 fields2). Qed.

(** The line of a hit. *)
Lemma log_event_hit :
  log_event (λ _, "") (λ s, "'" +:+ s +:+ "'") true "hit" [("shard", VInt 0); ("key", VStr "a")]
  = Some "cachelab_event hit key='a' shard=0".
Proof. reflexivity. Qed.
