(* ===== verification/ConfigFile.v ===== *)
(** Configuration files: [CacheConfig.from_file], [_load_toml] and what [__post_init__] does
    with the values a file can hold (src/cachelab/core/config.py).

    [Config] models [__post_init__] on a configuration whose settings have the types the class
    announces.  A TOML file can give a setting a value of any type, and nothing converts it:
    here a configuration is the dict of its attributes ([RawConfig]) and every test of
    [__post_init__] does what Python does with the value it meets.  The file is given by the
    outcome of opening and parsing it; dates, which no test accepts where a number or a string
    is expected, are left out. *)

From Stdlib Require Import ZArith SpecFloat.
From stdpp Require Import base tactics numbers option strings sets list.
From S2P Require Import Prelude PyDict PyFloat PyMonad Config Hashing Json.
Local Open Scope string_scope.
Local Open Scope list_scope.
Local Open Scope Z_scope.

(** ** Comparing values with numbers *)

Inductive number : Type := NInt (z : Z) | NFloat (f : float).

Definition as_number (v : pyval) : option number :=
  match v with
  | VBool b => Some (NInt (if b then 1 else 0))
  | VInt z => Some (NInt z)
  | VFloat f => Some (NFloat f)
  | _ => None
  end.

(** Python compares an integer and a float exactly; nothing compares with NaN. *)
Definition float_compare_Z (f : float) (z : Z) : option comparison :=
  match f with
  | S754_nan => None
  | S754_infinity s => Some (if s then Lt else Gt)
  | S754_zero _ => Some (0 ?= z)
  | S754_finite s m e =>
      let m := if s then Zneg m else Zpos m in
      Some (if 0 <=? e then m * 2 ^ e ?= z else m ?= z * 2 ^ (- e))
  end.
Definition num_compare (a b : number) : option comparison :=
  match a, b with
  | NInt x, NInt y => Some (x ?= y)
  | NFloat f, NInt z => float_compare_Z f z
  | NInt z, NFloat f => CompOpp <$> float_compare_Z f z
  | NFloat f, NFloat g => SFcompare f g
  end.

(** [v < n] and [v <= n]: what is not a number raises [TypeError]. *)
Definition lt_num (v : pyval) (n : number) : result bool :=
  match as_number v with
  | Some a => Ok (match num_compare a n with Some Lt => true | _ => false end)
  | None => Raise (TypeError "'<' not supported")
  end.
Definition le_num (v : pyval) (n : number) : result bool :=
  match as_number v with
  | Some a => Ok (match num_compare a n with Some Lt | Some Eq => true | _ => false end)
  | None => Raise (TypeError "'<=' not supported")
  end.

(** [v is None] and [bool(v)] *)
Definition is_none (v : pyval) : bool := match v with VNone => true | _ => false end.
Definition truthy (v : pyval) : bool :=
  match v with
  | VNone => false
  | VBool b => b
  | VInt z => negb (z =? 0)
  | VFloat (S754_zero _) => false
  | VFloat _ => true
  | VStr s => negb (String.eqb s "")
  | VList l => negb (bool_decide (l = []))
  | VDict d => negb (bool_decide (d = []))
  end.

(** [v not in s] for a frozen set of strings: a value that has no hash raises. *)
Definition not_in_set (v : pyval) (s : list string) : result bool :=
  match v with
  | VStr x => Ok (negb (str_in x s))
  | VList _ | VDict _ => Raise (TypeError "unhashable type")
  | _ => Ok true
  end.

(** [v.lower()] *)
Definition py_lower (v : pyval) : result string :=
  match v with
  | VStr s => Ok (str_lower s)
  | _ => Raise (AttributeError "object has no attribute 'lower'")
  end.

(** ** A configuration as Python holds it *)

Definition RawConfig : Type := dict string pyval.
Definition attr (raw : RawConfig) (field : string) : pyval := dict_get_default raw field VNone.

(** The attributes of a configuration. *)
Definition config_attrs (c : CacheConfig) : RawConfig := [
  ("capacity", VInt (cfg_capacity c));
  ("default_ttl", match cfg_default_ttl c with Some t => VFloat t | None => VNone end);
  ("policy", VStr (cfg_policy c));
  ("shard_count", VInt (cfg_shard_count c));
  ("worker_count", VInt (cfg_worker_count c));
  ("backend", VStr (cfg_backend c));
  ("write_mode", VStr (cfg_write_mode c));
  ("scheduler_interval", VFloat (cfg_scheduler_interval c));
  ("queue_size", VInt (cfg_queue_size c));
  ("write_back_retry_count", VInt (cfg_write_back_retry_count c));
  ("write_back_retry_delay", VFloat (cfg_write_back_retry_delay c));
  ("shutdown_flush", VBool (cfg_shutdown_flush c));
  ("shutdown_timeout", VFloat (cfg_shutdown_timeout c));
  ("active_expiration", VBool (cfg_active_expiration c));
  ("queue_put_timeout", VFloat (cfg_queue_put_timeout c))].

(** The generated [__init__]: the defaults of the class and the keyword arguments. *)
Definition raw_init (kwargs : dict string pyval) : RawConfig :=
  foldl (λ d kv, dict_set d kv.1 kv.2) (config_attrs default_config) kwargs.

(** [if test: raise e] *)
Definition refuse_if {A} (test : result bool) (e : exn) (k : result A) : result A :=
  match test with
  | Ok true => Raise e
  | Ok false => k
  | Raise e' => Raise e'
  end.

(** [CacheConfig.__post_init__], the tests in the order of the source. *)
Definition raw_post_init (raw : RawConfig) : result RawConfig :=
  let a := attr raw in
  refuse_if (lt_num (a "capacity") (NInt 1)) (ConfigurationError "capacity must be >= 1") (
  refuse_if (le_num (a "shard_count") (NInt 0)) (ConfigurationError "shard_count must be > 0") (
  refuse_if (match as_number (a "shard_count") with
             | Some n => lt_num (a "capacity") n
             | None => Raise (TypeError "'<' not supported")
             end)
    (ConfigurationError "capacity must be >= shard_count so every shard can hold at least one entry") (
  refuse_if (if is_none (a "default_ttl") then Ok false else lt_num (a "default_ttl") (NInt 0))
    (ConfigurationError "default_ttl must be >= 0 (0 or None disables expiry)") (
  refuse_if (lt_num (a "worker_count") (NInt 0)) (ConfigurationError "worker_count must be >= 0") (
  refuse_if (lt_num (a "queue_size") (NInt 0)) (ConfigurationError "queue_size must be >= 0") (
  refuse_if (lt_num (a "scheduler_interval") (NInt 0))
    (ConfigurationError "scheduler_interval must be >= 0") (
  refuse_if (if truthy (a "active_expiration") then le_num (a "scheduler_interval") (NInt 0) else Ok false)
    (ConfigurationError "scheduler_interval must be > 0 when active_expiration is enabled") (
  refuse_if (lt_num (a "write_back_retry_count") (NInt 0))
    (ConfigurationError "write_back_retry_count must be >= 0") (
  refuse_if (match py_lower (a "policy") with
             | Ok s => Ok (negb (str_in s SUPPORTED_POLICIES))
             | Raise e => Raise e
             end) (ConfigurationError "unsupported policy") (
  refuse_if (not_in_set (a "write_mode") SUPPORTED_WRITE_MODES)
    (ConfigurationError "unsupported write_mode") (
  refuse_if (not_in_set (a "backend") SUPPORTED_BACKENDS)
    (ConfigurationError "unsupported backend") (
  Ok raw)))))))))))).

(** [_load_toml]; [file] is what opening the file and [tomllib.load] return or raise. *)
Definition load_toml (file : result pyval) : result (dict string pyval) :=
  match file with
  | Ok (VDict d) => Ok d
  | Ok _ => Raise (ConfigurationError "did not contain a TOML table")
  | Raise e => Raise e
  end.

(** [CacheConfig.from_file] *)
Definition from_file (file : result pyval) : result RawConfig :=
  match load_toml file with
  | Raise e => Raise e
  | Ok data =>
      match dict_get_default data "cache" (VDict data) with
      | VDict cache_data =>
          match normalize_config cache_data with
          | Ok settings => raw_post_init (raw_init settings)
          | Raise e => Raise e
          end
      | _ => Raise (AttributeError "object has no attribute 'items'")
      end
  end.

(** ** Settings of the announced types *)

Definition as_int (v : pyval) : option Z := match v with VInt z => Some z | _ => None end.
Definition as_bool (v : pyval) : option bool := match v with VBool b => Some b | _ => None end.
Definition as_str (v : pyval) : option string := match v with VStr s => Some s | _ => None end.
(** A number of seconds may be written as an integer that a float holds exactly. *)
Definition as_float (v : pyval) : option float :=
  match v with
  | VFloat f => Some f
  | VInt z => if decide (float_as_int (float_of_Z z) = Some z) then Some (float_of_Z z) else None
  | _ => None
  end.
Definition as_ttl (v : pyval) : option (option float) :=
  match v with VNone => Some None | _ => Some <$> as_float v end.

(** The configuration of [Config] that a configuration with settings of these types is. *)
Definition typed_config (raw : RawConfig) : option CacheConfig :=
  let a := attr raw in
  capacity ← as_int (a "capacity");
  ttl ← as_ttl (a "default_ttl");
  policy ← as_str (a "policy");
  shard_count ← as_int (a "shard_count");
  worker_count ← as_int (a "worker_count");
  backend ← as_str (a "backend");
  write_mode ← as_str (a "write_mode");
  interval ← as_float (a "scheduler_interval");
  queue_size ← as_int (a "queue_size");
  retries ← as_int (a "write_back_retry_count");
  delay ← as_float (a "write_back_retry_delay");
  flush ← as_bool (a "shutdown_flush");
  timeout ← as_float (a "shutdown_timeout");
  active ← as_bool (a "active_expiration");
  put_timeout ← as_float (a "queue_put_timeout");
  Some (mkCacheConfig capacity ttl policy shard_count worker_count backend write_mode interval
          queue_size retries delay flush timeout active put_timeout).

Lemma typed_attrs c : typed_config (config_attrs c) = Some c.
Proof. destruct c as [? [] ]; reflexivity. Qed.

(** ** Lemmas *)

(** A finite float compares with zero by its sign. *)
Lemma float_compare_zero f : float_compare_Z f 0 = SFcompare f fzero.
Proof.
  destruct f as [[]|[]| |[] m e]; try done; unfold float_compare_Z; destruct (Z.leb_spec 0 e) as [He|He];
    rewrite ?Z.mul_0_l; try done.
  - apply (f_equal Some (y:=Lt)), Z.compare_lt_iff. pose proof (Z.pow_pos_nonneg 2 e ltac:(lia) He). nia.
  - apply (f_equal Some (y:=Gt)), Z.compare_gt_iff. pose proof (Z.pow_pos_nonneg 2 e ltac:(lia) He). nia.
Qed.

Lemma float_as_int_sign f z : float_as_int f = Some z → SFcompare f fzero = Some (z ?= 0).
Proof.
  destruct f as [[]|[]| |s m e]; simpl; try (intros; congruence || by simplify_eq).
  intros (v & Hv & ->)%fmap_Some. assert (0 < v) as Hpos.
  { destruct (Z.leb_spec 0 e) as [He|He]; simplify_eq.
    - pose proof (Z.pow_pos_nonneg 2 e ltac:(lia) He). nia.
    - destruct (Z.eqb_spec (Z.pos m mod 2 ^ - e) 0) as [Hm|]; simplify_eq.
      pose proof (Z.pow_pos_nonneg 2 (- e) ltac:(lia) ltac:(lia)).
      pose proof (Z.div_mod (Z.pos m) (2 ^ - e) ltac:(lia)). nia. }
  destruct s; f_equal; symmetry; [by apply Z.compare_lt_iff; lia|by apply Z.compare_gt_iff].
Qed.

(** Seconds written as an integer are compared as the float they are. *)
Lemma as_float_number v f :
  as_float v = Some f → ∃ n, as_number v = Some n ∧ num_compare n (NInt 0) = SFcompare f fzero.
Proof.
  destruct v as [| |z|g| | |]; simpl; try done.
  - case_decide as Hz; [|done]. intros [= <-]. exists (NInt z). split; [done|].
    by rewrite (float_as_int_sign _ _ Hz).
  - intros [= ->]. exists (NFloat f). split; [done|]. apply float_compare_zero.
Qed.
Lemma as_float_lt v f : as_float v = Some f → lt_num v (NInt 0) = Ok (flt f fzero).
Proof. intros (n & Hn & Hc)%as_float_number. unfold lt_num. by rewrite Hn, Hc. Qed.
Lemma as_float_le v f : as_float v = Some f → le_num v (NInt 0) = Ok (fle f fzero).
Proof. intros (n & Hn & Hc)%as_float_number. unfold le_num. by rewrite Hn, Hc. Qed.

Lemma as_int_lt v z n : as_int v = Some z → lt_num v (NInt n) = Ok (z <? n).
Proof. destruct v; simpl; try done. by intros [= ->]. Qed.
Lemma as_int_le v z n : as_int v = Some z → le_num v (NInt n) = Ok (z <=? n).
Proof. destruct v; simpl; try done. by intros [= ->]. Qed.
Lemma as_int_number v z : as_int v = Some z → as_number v = Some (NInt z).
Proof. destruct v; simpl; try done. by intros [= ->]. Qed.

Lemma as_ttl_test v ttl :
  as_ttl v = Some ttl →
  (if is_none v then Ok false else lt_num v (NInt 0))
  = Ok (match ttl with Some t => flt t fzero | None => false end).
Proof.
  unfold as_ttl. destruct v as [| | | | | |]; try done.
  - by intros [= <-].
  - intros (t & Ht & ->)%fmap_Some. by apply as_float_lt.
  - intros (t & Ht & ->)%fmap_Some. by apply as_float_lt.
Qed.
Lemma as_bool_truthy v b : as_bool v = Some b → truthy v = b.
Proof. destruct v; simpl; try done. by intros [= ->]. Qed.
Lemma as_str_lower v s : as_str v = Some s → py_lower v = Ok (str_lower s).
Proof. destruct v; simpl; try done. by intros [= ->]. Qed.
Lemma as_str_set v s l : as_str v = Some s → not_in_set v l = Ok (negb (str_in s l)).
Proof. destruct v; simpl; try done. by intros [= ->]. Qed.

(** Rewrite the tests on settings whose types are known. *)
Ltac typed_tests :=
  repeat match goal with
  | H : as_int ?v = Some _ |- context [lt_num ?v (NInt ?n)] => rewrite (as_int_lt v _ n H)
  | H : as_int ?v = Some _ |- context [le_num ?v (NInt ?n)] => rewrite (as_int_le v _ n H)
  | H : as_int ?v = Some _ |- context [as_number ?v] => rewrite (as_int_number v _ H)
  | H : as_float ?v = Some _ |- context [lt_num ?v (NInt 0)] => rewrite (as_float_lt v _ H)
  | H : as_float ?v = Some _ |- context [le_num ?v (NInt 0)] => rewrite (as_float_le v _ H)
  | H : as_ttl ?v = Some _ |- context [is_none ?v] => rewrite (as_ttl_test v _ H)
  | H : as_bool ?v = Some _ |- context [truthy ?v] => rewrite (as_bool_truthy v _ H)
  | H : as_str ?v = Some _ |- context [py_lower ?v] => rewrite (as_str_lower v _ H)
  | H : as_str ?v = Some _ |- context [not_in_set ?v ?l] => rewrite (as_str_set v _ l H)
  end.

(** On settings of the announced types the tests are those of [Config]. *)
Lemma raw_post_init_typed raw c :
  typed_config raw = Some c →
  raw_post_init raw = match post_init c with Ok _ => Ok raw | Raise e => Raise e end.
Proof.
  unfold typed_config. intros Ht. repeat (apply bind_Some in Ht as (? & ? & Ht)). simplify_eq.
  unfold raw_post_init, post_init. cbn zeta. cbn [cfg_capacity cfg_shard_count cfg_default_ttl cfg_worker_count
    cfg_queue_size cfg_scheduler_interval cfg_active_expiration cfg_write_back_retry_count cfg_policy
    cfg_write_mode cfg_backend].
  typed_tests. match goal with |- context [if ?b then Ok (fle _ _) else _] => destruct b end;
    cbn [refuse_if andb]; repeat (cfg_case; [done|]); try done.
Qed.

(** The attributes of a configuration made from settings with distinct names. *)
Lemma dict_get_update (d settings : dict string pyval) f :
  NoDup (dict_keys settings) →
  dict_get (foldl (λ d kv, dict_set d kv.1 kv.2) d settings) f
  = match dict_get settings f with Some v => Some v | None => dict_get d f end.
Proof.
  revert d. induction settings as [|[k v] settings IH]; intros d Hn; simpl; [done|].
  apply NoDup_cons in Hn as [Hk Hn]. rewrite (IH _ Hn). simpl. rewrite dict_get_set.
  destruct (decide (k = f)) as [->|]; [|done].
  destruct (dict_get settings f) eqn:E; [|done]. destruct Hk. apply dict_get_elem in E.
  by apply (list_elem_of_fmap_2 fst) in E.
Qed.

Lemma normalize_loop_wf {A} (data : list (string * A)) n u :
  dict_wf n → dict_wf (normalize_loop data n u).1.
Proof.
  revert n u. induction data as [|[k v] data IH]; intros n u Hn; simpl; [done|].
  destruct (str_in _ _); apply IH; [by apply dict_wf_set|done].
Qed.

(** What the settings of a table come to: the last one given for a field, or its default. *)
Definition setting (table : dict string pyval) (field : string) : pyval :=
  default (attr (config_attrs default_config) field) (last_setting table field).
Definition known_keys (table : dict string pyval) : Prop :=
  ∀ key, key ∈ dict_keys table → config_field key ∈ config_fields.

Lemma normalized_attrs table :
  known_keys table →
  ∃ settings, normalize_config table = Ok settings ∧
    ∀ f, f ∈ config_fields → attr (raw_init settings) f = setting table f.
Proof.
  intros Hk. destruct (normalize_config_resolves_aliases table) as [(_ & n & Hn & Hget)|[(key & Hin & Hno) _]];
    [|by destruct (Hno (Hk key Hin))].
  exists n. split; [done|]. intros f Hf.
  assert (dict_wf n) as Hwf.
  { unfold normalize_config in Hn. pose proof (normalize_loop_wf table [] [] (NoDup_nil_2)) as Hw.
    destruct (normalize_loop table [] []) as [m []]; [|done]. by injection Hn as <-. }
  unfold attr, raw_init, dict_get_default. rewrite (dict_get_update _ n f Hwf), (Hget f Hf).
  unfold setting. by destruct (last_setting table f).
Qed.

(** A configuration is typed by its fields alone. *)
Lemma typed_config_ext raw raw' :
  (∀ f, f ∈ config_fields → attr raw f = attr raw' f) → typed_config raw = typed_config raw'.
Proof.
  intros He. unfold typed_config. cbn zeta.
  do 15 (erewrite He by (by apply (bool_decide_unpack _))). done.
Qed.
Definition effective (table : dict string pyval) : RawConfig :=
  (λ f, (f, setting table f)) <$> config_fields.
Lemma effective_attr table f : f ∈ config_fields → attr (effective table) f = setting table f.
Proof.
  intros Hf. unfold effective, attr, dict_get_default. induction config_fields as [|g l IH]; [by apply not_elem_of_nil in Hf|].
  simpl. case_decide as E; [by rewrite E|]. apply IH. set_solver.
Qed.
(** The two places of the settings in a file. *)
Definition settings_file (section : bool) (table : dict string pyval) : result pyval :=
  Ok (if section then VDict [("cache", VDict table)] else VDict table).

Lemma from_file_settings section table :
  known_keys table →
  ∃ raw, from_file (settings_file section table) = raw_post_init raw ∧
    ∀ f, f ∈ config_fields → attr raw f = setting table f.
Proof.
  intros Hk. destruct (normalized_attrs table Hk) as (settings & Hn & Ha).
  exists (raw_init settings). split; [|done]. unfold from_file, settings_file.
  destruct section; simpl; [by rewrite Hn|]. unfold dict_get_default.
  assert (dict_get table "cache" = None) as ->; [|by rewrite Hn].
  destruct (dict_get table "cache") as [v|] eqn:E; [|done].
  apply dict_get_elem, (list_elem_of_fmap_2 fst) in E.
  assert ("cache" ∉ config_fields) as Hc by (by apply (bool_decide_unpack _)).
  by destruct (Hc (Hk "cache" E)).
Qed.

Definition config_exn (e : exn) : bool :=
  match e with ConfigurationError _ | TypeError _ | AttributeError _ => true | _ => false end.

Lemma refuse_if_ok {A} test e (k : result A) a : refuse_if test e k = Ok a → test = Ok false ∧ k = Ok a.
Proof. by destruct test as [[]|]. Qed.
Lemma refuse_if_raise {A} test e (k : result A) e' :
  refuse_if test e k = Raise e' → test = Raise e' ∨ e' = e ∨ k = Raise e'.
Proof. destruct test as [[]|]; simpl; intros; simplify_eq; auto. Qed.

Lemma lt_num_raise v n e : lt_num v n = Raise e → config_exn e = true.
Proof. unfold lt_num. destruct (as_number v); [done|]. by intros [= <-]. Qed.
Lemma le_num_raise v n e : le_num v n = Raise e → config_exn e = true.
Proof. unfold le_num. destruct (as_number v); [done|]. by intros [= <-]. Qed.
Lemma not_in_set_raise v s e : not_in_set v s = Raise e → config_exn e = true.
Proof. destruct v; simpl; try done; by intros [= <-]. Qed.
#[local] Hint Resolve lt_num_raise le_num_raise not_in_set_raise : core.

Lemma raw_post_init_raise raw e : raw_post_init raw = Raise e → config_exn e = true.
Proof.
  unfold raw_post_init. cbn zeta. intros Hp.
  repeat (apply refuse_if_raise in Hp as [Hp|[->|Hp]]; [|done|]); try by eauto.
  - destruct (as_number _); [by eauto|by injection Hp as <-].
  - destruct (is_none _); [done|by eauto].
  - destruct (truthy _); [by eauto|done].
  - destruct (attr raw "policy"); simpl in Hp; try done; by injection Hp as <-.
Qed.

Lemma lt_num_ok v n : lt_num v n = Ok false → ∃ a, as_number v = Some a ∧ num_compare a n ≠ Some Lt.
Proof. unfold lt_num. destruct (as_number v) as [a|]; [|done]. exists a. by destruct (num_compare a n) as [[]|]. Qed.
Lemma le_num_ok v n :
  le_num v n = Ok false → ∃ a, as_number v = Some a ∧ num_compare a n ≠ Some Lt ∧ num_compare a n ≠ Some Eq.
Proof. unfold le_num. destruct (as_number v) as [a|]; [|done]. exists a. by destruct (num_compare a n) as [[]|]. Qed.
Lemma not_in_set_ok v l : not_in_set v l = Ok false → ∃ s, v = VStr s ∧ s ∈ l.
Proof. destruct v; simpl; try done. intros [= Hs%negb_false_iff%str_in_spec]. eauto. Qed.
Lemma lower_ok v l :
  match py_lower v with Ok s => Ok (negb (str_in s l)) | Raise e => Raise e end = Ok false →
  ∃ s, v = VStr s ∧ str_lower s ∈ l.
Proof. destruct v; simpl; try done. intros [= Hs%negb_false_iff%str_in_spec]. eauto. Qed.

(** ** Properties *)

(** C22: a configuration file means its settings.  For a table whose keys are fields or aliases of
    fields, in a section [cache] or at the top of the file, let the last setting of each field, or
    else its default, have the announced types and make up the configuration [c].  Then
    [from_file] returns that configuration when it is valid and raises [ConfigurationError]
    when it is not. *)
Theorem config_file_means_its_settings (section : bool) (table : dict string pyval) (c : CacheConfig) :
  known_keys table → typed_config (effective table) = Some c →
  (config_valid c ∧ ∃ raw, from_file (settings_file section table) = Ok raw ∧ typed_config raw = Some c) ∨
  (¬ config_valid c ∧ ∃ msg, from_file (settings_file section table) = Raise (ConfigurationError msg)).
Proof.
  intros Hk Ht. destruct (from_file_settings section table Hk) as (raw & -> & Ha).
  assert (typed_config raw = Some c) as Hraw.
  { rewrite <- Ht. apply typed_config_ext. intros f Hf. by rewrite Ha, effective_attr. }
  rewrite (raw_post_init_typed raw c Hraw).
  destruct (post_init_accepts_exactly_valid c) as [[Hv ->]|[Hv [msg ->]]]; [left|right]; eauto.
Qed.

(** configs/default.toml *)
Definition default_toml : dict string pyval := [
  ("capacity", VInt 128); ("default_ttl", VFloat (float_of_Z 60)); ("policy", VStr "lru");
  ("shard_count", VInt 4); ("worker_count", VInt 2); ("backend", VStr "memory");
  ("write_mode", VStr "cache-only"); ("scheduler_interval", VFloat (float_of_Z 1));
  ("queue_size", VInt 1024); ("write_back_retry_count", VInt 2);
  ("write_back_retry_delay", VFloat (int_div 1 100)); ("shutdown_flush", VBool true);
  ("active_expiration", VBool true)].

Lemma known_keys_dec table :
  forallb (λ key, str_in (config_field key) config_fields) (dict_keys table) = true → known_keys table.
Proof.
  intros Hf key Hin. rewrite forallb_forall in Hf. apply str_in_spec, Hf. by apply list_elem_of_In.
Qed.

Lemma config_file_means_its_settings_witness :
  ∃ c, typed_config (effective (("shards", VInt 2) :: default_toml)) = Some c ∧ cfg_shard_count c = 4 ∧
  ((config_valid c ∧ ∃ raw, from_file (settings_file true (("shards", VInt 2) :: default_toml)) = Ok raw ∧
                            typed_config raw = Some c) ∨
   (¬ config_valid c ∧ ∃ msg, from_file (settings_file true (("shards", VInt 2) :: default_toml))
                              = Raise (ConfigurationError msg))).
Proof.
  eexists. split; [vm_compute; reflexivity|]. split; [reflexivity|].
  apply config_file_means_its_settings; [|vm_compute; reflexivity].
  apply known_keys_dec. vm_compute. reflexivity.
Defined.

(** C23: what a configuration file can fail with, and what is enforced when it does not.  Whatever
    values a parsed file holds, [from_file] raises nothing but [ConfigurationError],
    [TypeError] and [AttributeError]; an unknown key raises [ConfigurationError] before any value is
    looked at; and an accepted configuration has numbers for its capacity and its number of
    shards, where the latter does not compare as zero or less nor as more than the former (NaN does
    not), and a supported policy, write mode and backend, whatever else it holds. *)
Theorem config_file_errors (section : bool) (table : dict string pyval) :
  (∀ file e, from_file (Ok file) = Raise e → config_exn e = true) ∧
  ((∃ key, key ∈ dict_keys table ∧ config_field key ∉ config_fields) →
   from_file (settings_file true table) = Raise (ConfigurationError "unknown config key(s)")) ∧
  (∀ raw, known_keys table → from_file (settings_file section table) = Ok raw →
     ∃ capacity shards policy mode backend,
       as_number (setting table "capacity") = Some capacity ∧
       as_number (setting table "shard_count") = Some shards ∧
       num_compare shards (NInt 0) ≠ Some Lt ∧ num_compare shards (NInt 0) ≠ Some Eq ∧
       num_compare capacity shards ≠ Some Lt ∧
       setting table "policy" = VStr policy ∧ str_lower policy ∈ SUPPORTED_POLICIES ∧
       setting table "write_mode" = VStr mode ∧ mode ∈ SUPPORTED_WRITE_MODES ∧
       setting table "backend" = VStr backend ∧ backend ∈ SUPPORTED_BACKENDS).
Proof.
  split_conj.
  - intros file e. unfold from_file. destruct file as [| | | | | |d]; simpl; try (by intros [= <-]).
    destruct (dict_get_default d "cache" (VDict d)) as [| | | | | |t]; try (by intros [= <-]).
    destruct (normalize_config t) as [settings|e'] eqn:En; [apply raw_post_init_raise|].
    destruct (normalize_config_resolves_aliases t) as [(_ & n & Hn & _)|[_ Hn]]; [congruence|].
    intros He. rewrite Hn in En. by simplify_eq.
  - intros (key & Hin & Hno). unfold from_file, settings_file. simpl.
    destruct (normalize_config_resolves_aliases table) as [[Hk _]|[_ Hn]]; [by destruct (Hno (Hk key Hin))|].
    by rewrite Hn.
  - intros raw Hk Hf. destruct (from_file_settings section table Hk) as (raw' & E & Ha).
    rewrite E in Hf. unfold raw_post_init in Hf. cbn zeta in Hf.
    repeat (apply refuse_if_ok in Hf as [? Hf]).
    rewrite !Ha in * by (by apply (bool_decide_unpack _)).
    repeat match goal with
    | H : le_num (setting table "shard_count") _ = _ |- _ => apply le_num_ok in H as (shards & Hs & Hs1 & Hs2)
    | H : not_in_set (setting table "write_mode") _ = _ |- _ => apply not_in_set_ok in H as (mode & Hmode & Hmode')
    | H : not_in_set (setting table "backend") _ = _ |- _ => apply not_in_set_ok in H as (backend & Hb & Hb')
    | H : context [py_lower (setting table "policy")] |- _ => apply lower_ok in H as (policy & Hp & Hp')
    | H : match as_number (setting table "shard_count") with _ => _ end = _ |- _ => rename H into Hc
    end.
    rewrite Hs in Hc. apply lt_num_ok in Hc as (capacity & Hc & Hc').
    by exists capacity, shards, policy, mode, backend.
Qed.

Lemma config_file_errors_witness :
  known_keys default_toml ∧ ∃ raw, from_file (settings_file true default_toml) = Ok raw ∧
  ∃ capacity shards, as_number (setting default_toml "capacity") = Some capacity ∧
    as_number (setting default_toml "shard_count") = Some shards ∧ num_compare capacity shards ≠ Some Lt.
Proof.
  assert (known_keys default_toml) as Hk by (apply known_keys_dec; vm_compute; reflexivity).
  split; [exact Hk|]. eexists. split; [vm_compute; reflexivity|].
  destruct (proj2 (proj2 (config_file_errors true default_toml)) _ Hk eq_refl)
    as (capacity & shards & policy & mode & backend & H1 & H2 & _ & _ & H3 & _).
  exists capacity, shards. exact (conj H1 (conj H2 H3)).
Defined.

(** The configurations of configs/ are accepted. *)
Lemma shipped_configs_accepted :
  Forall (λ table, ∃ raw, from_file (settings_file true table) = Ok raw ∧ is_Some (typed_config raw)) [
    default_toml;
    [("capacity", VInt 20); ("policy", VStr "lfu"); ("shard_count", VInt 2); ("worker_count", VInt 1);
     ("scheduler_interval", VFloat (int_div 1 2)); ("queue_size", VInt 128); ("write_mode", VStr "cache-only")];
    [("capacity", VInt 20); ("policy", VStr "lru"); ("shard_count", VInt 2); ("worker_count", VInt 1);
     ("scheduler_interval", VFloat (int_div 1 2)); ("queue_size", VInt 128); ("write_mode", VStr "cache-only")];
    [("capacity", VInt 100); ("policy", VStr "lru"); ("shard_count", VInt 4); ("worker_count", VInt 2);
     ("queue_size", VInt 256); ("write_mode", VStr "write-back"); ("write_back_retry_count", VInt 3);
     ("write_back_retry_delay", VFloat (int_div 1 100)); ("shutdown_flush", VBool true)]].
Proof. repeat (constructor; [eexists; split; [vm_compute; reflexivity|vm_compute; by eexists]|]). constructor. Qed.

(** No test looks at the types: a capacity that is not a whole number, a timeout that is a string and
    a negative timeout are accepted. *)
Lemma config_file_types_unchecked :
  ∃ raw, from_file (settings_file true [("capacity", VFloat (int_div 5 2)); ("shutdown_timeout", VStr "soon");
                                        ("shutdown_flush", VStr "no"); ("queue_put_timeout", VInt (-1))]) = Ok raw.
Proof. eexists. vm_compute. reflexivity. Qed.
