(* ===== verification/Tables.v ===== *)
(** Text tables: src/cachelab/observability/tables.py and the number formats of
    src/cachelab/cli/commands/render.py.

    A cell is given as its text, [str(cell)].  A string is a sequence of characters, and
    its length is their number. *)

From Stdlib Require Import ZArith SpecFloat Ascii.
From stdpp Require Import base tactics numbers option strings pretty sets list.
From S2P Require Import Prelude PyFloat PyMonad Json.
Local Open Scope string_scope.
Local Open Scope list_scope.
Local Open Scope nat_scope.

(** ** Strings *)

(** [c * n] and [s.ljust(width)] *)
Fixpoint str_repeat (c : ascii) (n : nat) : string :=
  match n with O => "" | S n' => String c (str_repeat c n') end.
Definition ljust (s : string) (width : nat) : string :=
  s +:+ str_repeat " " (width - String.length s).

(** ** [format_table] *)

(** [max(len(row[index]) for row in matrix)]; [None] when a row has no such cell. *)
Definition column_width (matrix : list (list string)) (index : nat) : option nat :=
  lens ← mapM (λ row : list string, String.length <$> row !! index) matrix;
  Some (max_list lens).

Definition column_widths (headers : list string) (matrix : list (list string))
    : option (list nat) :=
  mapM (column_width matrix) (seq 0 (length headers)).

(** [cell.ljust(widths[index]) for index, cell in enumerate(row)], joined by two spaces. *)
Fixpoint pad_cells (widths : list nat) (index : nat) (row : list string) : option (list string) :=
  match row with
  | [] => Some []
  | cell :: row' =>
      width ← widths !! index;
      cells ← pad_cells widths (S index) row';
      Some (ljust cell width :: cells)
  end.
Definition table_line (widths : list nat) (row : list string) : option string :=
  str_join "  " <$> pad_cells widths 0 row.

Definition table_lines (headers : list string) (rows : list (list string))
    : option (list string) :=
  let matrix := headers :: rows in
  widths ← column_widths headers matrix;
  header ← table_line widths headers;
  let rule := str_join "  " (map (str_repeat "-") widths) in
  body ← mapM (table_line widths) rows;
  Some (header :: rule :: body).

Definition newline : ascii := Ascii.ascii_of_nat 10.

Definition format_table (headers : list string) (rows : list (list string)) : result string :=
  match table_lines headers rows with
  | Some lines => Ok (str_join (String newline "") lines)
  | None => Raise IndexError
  end.

(** ** Numbers *)

(** [num / den] rounded to the nearest integer, ties to the even one, for [den > 0]. *)
Definition round_half_even (num den : Z) : Z :=
  let q := (num / den)%Z in
  let r := (num mod den)%Z in
  if (2 * r <? den)%Z then q
  else if (den <? 2 * r)%Z then (q + 1)%Z
  else if Z.even q then q else (q + 1)%Z.

(** The absolute value of a finite float times [10 ** digits], rounded to an integer. *)
Definition scaled_round (digits : nat) (m : positive) (e : Z) : Z :=
  let scaled := (Zpos m * 10 ^ Z.of_nat digits)%Z in
  if (0 <=? e)%Z then (scaled * 2 ^ e)%Z else round_half_even scaled (2 ^ (- e)).

(** [f"{x:.3f}"] *)
Definition fixed_digits (n : Z) : string :=
  let frac := pretty (n mod 1000)%Z in
  pretty (n / 1000)%Z +:+ "." +:+ str_repeat "0" (3 - String.length frac) +:+ frac.
Definition format_3f (x : float) : string :=
  match x with
  | S754_nan => "nan"
  | S754_infinity s => if s then "-inf" else "inf"
  | S754_zero s => if s then "-0.000" else "0.000"
  | S754_finite s m e => (if s then "-" else "") +:+ fixed_digits (scaled_round 3 m e)
  end.

(** [fmt_float] *)
Definition fmt_float (value : option float) : string :=
  match value with None => "-" | Some x => format_3f x end.

(** [round(x, digits)] *)
Definition py_round (digits : nat) (x : float) : float :=
  match x with
  | S754_finite s m e =>
      let y := int_div (scaled_round digits m e) (10 ^ Z.of_nat digits) in
      if s then SFopp y else y
  | _ => x
  end.

(** ** Lemmas *)

Lemma str_length_repeat c n : String.length (str_repeat c n) = n.
Proof. induction n as [|n IH]; simpl; [done|]. by rewrite IH. Qed.

Lemma ljust_length s width :
  String.length s ≤ width → String.length (ljust s width) = width.
Proof. intros. unfold ljust. rewrite str_length_app, str_length_repeat. lia. Qed.

(** The text of a line from its cells: their widths, two spaces apart. *)
Definition line_width (widths : list nat) : nat := sum_list widths + 2 * pred (length widths).
Definition column_start (widths : list nat) (j : nat) : nat := sum_list (take j widths) + 2 * j.

Lemma str_join_length (cells : list string) :
  String.length (str_join "  " cells) = line_width (String.length <$> cells).
Proof.
  unfold line_width. induction cells as [|s cells IH]; [done|].
  destruct cells as [|s' cells]; [simpl; lia|].
  change (str_join "  " (s :: s' :: cells)) with (s +:+ "  " +:+ str_join "  " (s' :: cells)).
  rewrite !str_length_app, IH. simpl. lia.
Qed.

Lemma str_join_cell (cells : list string) j c :
  cells !! j = Some c →
  ∃ pre post, str_join "  " cells = pre +:+ c +:+ post ∧
              String.length pre = column_start (String.length <$> cells) j.
Proof.
  unfold column_start. revert j. induction cells as [|s cells IH]; intros [|j] Hj; simplify_eq/=.
  - destruct cells as [|s' cells]; [exists "", ""; by rewrite str_app_nil_r|].
    by exists "", ("  " +:+ str_join "  " (s' :: cells)).
  - destruct cells as [|s' cells]; [done|]. destruct (IH j Hj) as (pre & post & Hl & Hp).
    exists (s +:+ "  " +:+ pre), post. split.
    + rewrite Hl. by rewrite !str_app_assoc.
    + rewrite !str_length_app, Hp. simpl. lia.
Qed.

Lemma pad_cells_some widths i row cells :
  pad_cells widths i row = Some cells →
  length cells = length row ∧
  ∀ j c, row !! j = Some c →
    ∃ w, widths !! (i + j) = Some w ∧ cells !! j = Some (ljust c w).
Proof.
  revert i cells. induction row as [|c row IH]; intros i cells; simpl.
  - intros [= <-]. split; [done|]. intros j c. by rewrite lookup_nil.
  - destruct (widths !! i) as [w|] eqn:Ew; simpl; [|done].
    destruct (pad_cells widths (S i) row) as [cells'|] eqn:E; simpl; [|done]. intros [= <-].
    destruct (IH _ _ E) as [Hl Hc]. split; [simpl; by rewrite Hl|]. intros [|j] c' Hj; simplify_eq/=.
    + exists w. by rewrite Nat.add_0_r.
    + replace (i + S j) with (S i + j) by lia. by apply Hc.
Qed.

Lemma pad_cells_is_some widths i row :
  is_Some (pad_cells widths i row) ↔ row = [] ∨ i + length row ≤ length widths.
Proof.
  revert i. induction row as [|c row IH]; intros i; simpl; [naive_solver|].
  destruct (widths !! i) as [w|] eqn:Ew; simpl.
  - apply lookup_lt_Some in Ew. specialize (IH (S i)).
    destruct (pad_cells widths (S i) row) as [cells|]; simpl.
    + split; [intros _|by eauto]. right. destruct (proj1 IH) as [->|]; simpl; [eauto|lia..].
    + split; [by intros []|]. intros [?|?]; [done|]. apply IH. right. lia.
  - apply lookup_ge_None in Ew. split; [by intros []|]. intros [?|?]; [done|lia].
Qed.

Section columns.
Context (headers : list string) (rows : list (list string)).
Local Abbreviation matrix := (headers :: rows).

Lemma column_width_some index w :
  column_width matrix index = Some w →
  ∀ row c, row ∈ matrix → row !! index = Some c → String.length c ≤ w.
Proof.
  unfold column_width. destruct (mapM _ matrix) as [lens|] eqn:E; [|done].
  intros [= <-] row c [i Hi]%list_elem_of_lookup_1 Hc. apply max_list_elem_of_le.
  apply mapM_Some_1 in E. destruct (Forall2_lookup_l _ _ _ _ _ E Hi) as (n & Hn & Hf).
  rewrite Hc in Hf. simplify_eq/=. by eapply list_elem_of_lookup_2.
Qed.

Lemma column_width_is_some index :
  is_Some (column_width matrix index) ↔ Forall (λ row, index < length row) matrix.
Proof.
  unfold column_width. transitivity (is_Some (mapM (λ row, String.length <$> row !! index) matrix)).
  - destruct (mapM _ matrix); simpl; [by split; eauto|done].
  - rewrite mapM_is_Some. apply Forall_iff. intros row. simpl.
    by rewrite fmap_is_Some, lookup_lt_is_Some.
Qed.

Lemma column_widths_some widths :
  column_widths headers matrix = Some widths →
  length widths = length headers ∧
  (∀ row, row ∈ rows → length headers ≤ length row) ∧
  ∀ j w row c, widths !! j = Some w → row ∈ matrix → row !! j = Some c → String.length c ≤ w.
Proof.
  intros E. pose proof (length_mapM _ _ _ E) as Hl. rewrite length_seq in Hl.
  apply mapM_Some_1 in E. split_conj; [done| |].
  - intros row Hrow. destruct (length headers) as [|n] eqn:En; [lia|].
    destruct (Forall2_lookup_l _ _ _ n n E) as (w & _ & Hw); [apply lookup_seq; lia|].
    assert (is_Some (column_width matrix n)) as Hf by eauto.
    apply column_width_is_some in Hf. rewrite Forall_forall in Hf.
    apply Hf. by apply elem_of_cons; right.
  - intros j w row c Hj Hrow Hc. destruct (Forall2_lookup_r _ _ _ _ _ E Hj) as (i & Hi & Hw).
    apply lookup_seq in Hi as [-> _]. by eapply column_width_some.
Qed.

Lemma column_widths_is_some :
  Forall (λ row, length row = length headers) rows → is_Some (column_widths headers matrix).
Proof.
  intros Hr. apply mapM_is_Some, Forall_forall. intros i Hi%elem_of_seq. simpl.
  apply column_width_is_some. constructor; [lia|]. eapply Forall_impl; [done|]. simpl. lia.
Qed.
End columns.

(** A line made of the cells of a row: its width, and where its cells are. *)
Lemma table_line_spec widths row line :
  length row = length widths →
  (∀ j w c, widths !! j = Some w → row !! j = Some c → String.length c ≤ w) →
  table_line widths row = Some line →
  String.length line = line_width widths ∧
  ∀ j c, row !! j = Some c →
    ∃ pre post, line = pre +:+ c +:+ post ∧ String.length pre = column_start widths j.
Proof.
  intros Hl Hw. unfold table_line. destruct (pad_cells widths 0 row) as [cells|] eqn:E; [|done].
  intros [= <-]. apply pad_cells_some in E as [Hlen Hc].
  assert (String.length <$> cells = widths) as Hcells.
  { apply list_eq. intros j. rewrite list_lookup_fmap.
    destruct (row !! j) as [c|] eqn:Ej.
    - destruct (Hc j c Ej) as (w & Ew & ->). simpl in *. rewrite Ew. simpl. f_equal.
      apply ljust_length. by eapply Hw.
    - apply lookup_ge_None in Ej. rewrite !(proj2 (lookup_ge_None _ _)); [done|lia..]. }
  split; [by rewrite str_join_length, Hcells|]. intros j c Hj.
  destruct (Hc j c Hj) as (w & _ & Hcell).
  destruct (str_join_cell cells j _ Hcell) as (pre & post & -> & Hpre).
  exists pre, (str_repeat " " (w - String.length c) +:+ post). split; [|by rewrite Hpre, Hcells].
  unfold ljust. by rewrite str_app_assoc.
Qed.

Lemma rule_length widths :
  String.length (str_join "  " (map (str_repeat "-") widths)) = line_width widths.
Proof.
  rewrite str_join_length. f_equal. induction widths as [|w widths IH]; [done|].
  csimpl. by rewrite str_length_repeat, IH.
Qed.

Lemma table_line_rectangular widths row :
  is_Some (table_line widths row) → length widths ≤ length row → length row = length widths.
Proof.
  unfold table_line. rewrite fmap_is_Some, pad_cells_is_some. intros [->|?] ?; simpl in *; lia.
Qed.

(** The position of a row of the matrix among the lines: the rule comes after the header. *)
Definition line_of_row (i : nat) : nat := match i with O => O | S i' => S (S i') end.

Lemma table_lines_is_some headers rows :
  Forall (λ row, length row = length headers) rows → is_Some (table_lines headers rows).
Proof.
  intros Hr. unfold table_lines. destruct (column_widths_is_some headers rows Hr) as [widths E].
  rewrite E. simpl. apply column_widths_some in E as (Hl & _ & _).
  assert (∀ row, length row = length headers → is_Some (table_line widths row)) as Hline.
  { intros row Hrow. unfold table_line. apply fmap_is_Some, pad_cells_is_some. right. lia. }
  destruct (Hline headers) as [h ->]; [done|]. simpl.
  destruct (mapM_is_Some_2 (table_line widths) rows) as [body ->]; [|by eexists].
  eapply Forall_impl; [exact Hr|]. intros row. apply Hline.
Qed.

Lemma table_lines_some headers rows lines :
  table_lines headers rows = Some lines →
  Forall (λ row, length row = length headers) rows ∧
  ∃ widths, length lines = 2 + length rows ∧
    (∀ line, line ∈ lines → String.length line = line_width widths) ∧
    (∀ i row j cell, (headers :: rows) !! i = Some row → row !! j = Some cell →
       ∃ line pre post, lines !! line_of_row i = Some line ∧ line = pre +:+ cell +:+ post ∧
         String.length pre = column_start widths j).
Proof.
  unfold table_lines. destruct (column_widths headers _) as [widths|] eqn:Ew; simpl; [|done].
  destruct (table_line widths headers) as [h|] eqn:Eh; simpl; [|done].
  destruct (mapM (table_line widths) rows) as [body|] eqn:Eb; simpl; [|done]. intros [= <-].
  apply column_widths_some in Ew as (Hl & Hge & Hle). pose proof (length_mapM _ _ _ Eb) as Hlen.
  apply mapM_Some_1 in Eb.
  assert (Forall (λ row, length row = length headers) rows) as Hrect.
  { apply Forall_forall. intros row Hrow. rewrite <- Hl. apply table_line_rectangular.
    - apply list_elem_of_lookup_1 in Hrow as [i Hi].
      destruct (Forall2_lookup_l _ _ _ _ _ Eb Hi) as (? & _ & ?). eauto.
    - rewrite Hl. by apply Hge. }
  assert (∀ i row line, (headers :: rows) !! i = Some row → table_line widths row = Some line →
    String.length line = line_width widths ∧
    ∀ j c, row !! j = Some c →
      ∃ pre post, line = pre +:+ c +:+ post ∧ String.length pre = column_start widths j) as Hspec.
  { intros i row line Hrow%list_elem_of_lookup_2 Hline. apply table_line_spec; [| |done].
    - apply elem_of_cons in Hrow as [->|Hrow]; [done|]. rewrite Forall_forall in Hrect.
      by rewrite (Hrect _ Hrow).
    - intros j w c Hw Hc. by eapply Hle. }
  split; [done|]. exists widths. split_conj.
  - simpl. by rewrite Hlen.
  - intros line. rewrite !elem_of_cons. intros [->|[->|Hin]].
    + by apply (Hspec 0 headers).
    + apply rule_length.
    + apply list_elem_of_lookup_1 in Hin as [i Hi].
      destruct (Forall2_lookup_r _ _ _ _ _ Eb Hi) as (row & Hrow & Hline).
      by apply (Hspec (S i) row).
  - intros [|i] row j cell Hrow Hcell; simpl in *.
    + simplify_eq. destruct (proj2 (Hspec 0 _ h eq_refl Eh) j cell Hcell) as (pre & post & ? & ?).
      by exists h, pre, post.
    + destruct (Forall2_lookup_l _ _ _ _ _ Eb Hrow) as (line & Hline & Hl').
      destruct (proj2 (Hspec (S i) _ line Hrow Hl') j cell Hcell) as (pre & post & ? & ?).
      by exists line, pre, post.
Qed.

(** [format_table] lays out exactly the rectangular tables: when every row has as many
    cells as there are headers, all lines are equally wide and the cell of column [j] starts
    at the same place in every line, whatever the texts; any other table raises
    [IndexError]. *)
Theorem format_table_aligns (headers : list string) (rows : list (list string)) :
  (Forall (λ row, length row = length headers) rows ∧
   ∃ widths lines, format_table headers rows = Ok (str_join (String newline "") lines) ∧
     length lines = 2 + length rows ∧
     (∀ line, line ∈ lines → String.length line = line_width widths) ∧
     (∀ i row j cell, (headers :: rows) !! i = Some row → row !! j = Some cell →
        ∃ line pre post, lines !! line_of_row i = Some line ∧ line = pre +:+ cell +:+ post ∧
          String.length pre = column_start widths j)) ∨
  (¬ Forall (λ row, length row = length headers) rows ∧
   format_table headers rows = Raise IndexError).
Proof.
  unfold format_table. destruct (table_lines headers rows) as [lines|] eqn:E.
  - left. destruct (table_lines_some _ _ _ E) as (Hr & widths & Hlen & Hw & Hc).
    split; [done|]. by exists widths, lines.
  - right. split; [|done]. intros Hr. by destruct (table_lines_is_some _ _ Hr); simplify_eq.
Qed.
