(* ===== verification/Entry.v ===== *)
(** Cache entries and clocks: src/cachelab/core/entry.py and src/cachelab/core/clock.py.

    The clock is [FakeClock], the deterministic implementation of the [Clock]
    protocol; [MonotonicClock] reads the operating system's time, which the model
    covers by letting time move forward between two operations. *)

From stdpp Require Import base tactics numbers option strings.
From S2P Require Import Prelude PyFloat PyMonad.
Local Open Scope string_scope.
Local Open Scope Z_scope.

Record CacheEntry (K V : Type) : Type := mkCacheEntry {
  e_key : K;
  e_value : V;
  e_created_at : float;
  e_last_accessed_at : float;
  e_hit_count : Z;
  e_expires_at : option float;
  e_ttl : option float;
  e_version : Z;
  e_dirty : bool;
}.
Arguments mkCacheEntry {_ _} _ _ _ _ _ _ _ _ _.
Arguments e_key {_ _} _.
Arguments e_value {_ _} _.
Arguments e_created_at {_ _} _.
Arguments e_last_accessed_at {_ _} _.
Arguments e_hit_count {_ _} _.
Arguments e_expires_at {_ _} _.
Arguments e_ttl {_ _} _.
Arguments e_version {_ _} _.
Arguments e_dirty {_ _} _.

Record EntrySnapshot (K V : Type) : Type := mkEntrySnapshot {
  s_key : K;
  s_value : V;
  s_created_at : float;
  s_last_accessed_at : float;
  s_hit_count : Z;
  s_expires_at : option float;
  s_ttl : option float;
  s_ttl_remaining : option float;
  s_version : Z;
  s_dirty : bool;
}.
Arguments mkEntrySnapshot {_ _} _ _ _ _ _ _ _ _ _ _.
Arguments s_key {_ _} _.
Arguments s_value {_ _} _.
Arguments s_created_at {_ _} _.
Arguments s_last_accessed_at {_ _} _.
Arguments s_hit_count {_ _} _.
Arguments s_expires_at {_ _} _.
Arguments s_ttl {_ _} _.
Arguments s_ttl_remaining {_ _} _.
Arguments s_version {_ _} _.
Arguments s_dirty {_ _} _.

Section entry.
Context {K V : Type}.
Implicit Types e : CacheEntry K V.

(** [CacheEntry.is_expired] *)
Definition is_expired (e : CacheEntry K V) (now : float) : bool :=
  match e_expires_at e with Some t => fle t now | None => false end.

(** [CacheEntry.touch] *)
Definition touch (e : CacheEntry K V) (now : float) : CacheEntry K V := {|
  e_key := e_key e;
  e_value := e_value e;
  e_created_at := e_created_at e;
  e_last_accessed_at := now;
  e_hit_count := e_hit_count e + 1;
  e_expires_at := e_expires_at e;
  e_ttl := e_ttl e;
  e_version := e_version e;
  e_dirty := e_dirty e;
|}.

(** The assignments [entry.dirty = False] and [entry.hit_count = n]. *)
Definition set_clean (e : CacheEntry K V) : CacheEntry K V := {|
  e_key := e_key e;
  e_value := e_value e;
  e_created_at := e_created_at e;
  e_last_accessed_at := e_last_accessed_at e;
  e_hit_count := e_hit_count e;
  e_expires_at := e_expires_at e;
  e_ttl := e_ttl e;
  e_version := e_version e;
  e_dirty := false;
|}.
Definition set_hit_count (n : Z) (e : CacheEntry K V) : CacheEntry K V := {|
  e_key := e_key e;
  e_value := e_value e;
  e_created_at := e_created_at e;
  e_last_accessed_at := e_last_accessed_at e;
  e_hit_count := n;
  e_expires_at := e_expires_at e;
  e_ttl := e_ttl e;
  e_version := e_version e;
  e_dirty := e_dirty e;
|}.

(** [CacheEntry.snapshot] *)
Definition snapshot (e : CacheEntry K V) (now : float) : EntrySnapshot K V := {|
  s_key := e_key e;
  s_value := e_value e;
  s_created_at := e_created_at e;
  s_last_accessed_at := e_last_accessed_at e;
  s_hit_count := e_hit_count e;
  s_expires_at := e_expires_at e;
  s_ttl := e_ttl e;
  s_ttl_remaining :=
    match e_expires_at e with
    | None => None
    | Some t => Some (fmax fzero (fsub t now))
    end;
  s_version := e_version e;
  s_dirty := e_dirty e;
|}.
End entry.

(** ** Clock *)

Record FakeClock : Type := mkFakeClock { clk_now : float }.

(** [FakeClock.now] *)
Definition clock_now (c : FakeClock) : float := clk_now c.

(** [FakeClock.advance] *)
Definition clock_advance (c : FakeClock) (seconds : float) : result FakeClock :=
  if flt seconds fzero then Raise (ValueError "fake clock cannot move backwards")
  else Ok (mkFakeClock (fadd (clk_now c) seconds)).

(** [FakeClock.sleep]: the argument is clamped, so advancing cannot raise. *)
Definition clock_sleep (c : FakeClock) (seconds : float) : FakeClock :=
  match clock_advance c (fmax fzero seconds) with
  | Ok c' => c'
  | Raise _ => c
  end.

(** ** Lemmas *)

Section entry_lemmas.
Context {K V : Type}.
Implicit Types e : CacheEntry K V.

Lemma is_expired_monotone e t1 t2 :
  is_expired e t1 = true → fle t1 t2 = true → is_expired e t2 = true.
Proof. unfold is_expired. destruct (e_expires_at e); [|done]. apply fle_trans. Qed.

Lemma is_expired_touch e t now : is_expired (touch e now) t = is_expired e t.
Proof. done. Qed.

Lemma is_expired_set_clean e t : is_expired (set_clean e) t = is_expired e t.
Proof. done. Qed.

Lemma flt_fmax_fzero x : flt (fmax fzero x) fzero = false.
Proof.
  destruct (flt (fmax fzero x) fzero) eqn:E; [|done].
  apply flt_fle in E as [_ E]. by rewrite fmax_fzero_nonneg in E.
Qed.

(** Sleeping adds the clamped delay. *)
Lemma clock_sleep_eq c d : clock_sleep c d = mkFakeClock (fadd (clk_now c) (fmax fzero d)).
Proof. unfold clock_sleep, clock_advance. by rewrite flt_fmax_fzero. Qed.
End entry_lemmas.

#[export] Hint Resolve is_expired_monotone : cachedb.

(** An entry that has expired stays expired at every later time of the clock, and
    the lifetime a snapshot reports for it then is present and not negative. *)
Theorem expiry_is_permanent {K V} (e : CacheEntry K V) (t1 t2 : float) :
  is_expired e t1 = true → fle t1 t2 = true →
  is_expired e t2 = true ∧
  ∃ r, s_ttl_remaining (snapshot e t2) = Some r ∧ fle fzero r = true.
Proof.
  intros He Ht. split; [by eapply is_expired_monotone|].
  unfold is_expired in He. simpl. destruct (e_expires_at e); [|done].
  eexists. split; [done|]. apply fmax_fzero_nonneg.
Qed.

Lemma expiry_is_permanent_witness :
  let e := mkCacheEntry 1 2 fzero fzero 0 (Some (float_of_Z 5)) (Some (float_of_Z 5)) 1 false in
  is_expired e (float_of_Z 6) = true ∧ is_expired e (float_of_Z 7) = true.
Proof.
  split; [vm_compute; reflexivity|].
  apply (expiry_is_permanent _ (float_of_Z 6) (float_of_Z 7)); vm_compute; reflexivity.
Defined.
