(* ===== verification/Files.v ===== *)
(** State files: src/cachelab/storage/serialization.py.

    [World] is what a command-line process sees: the files, the clocks, its output, and what
    the environment has in store for it.  An operating-system call may be made to fail, or the
    process to be killed in it, before or after the call takes effect, by the list of faults, one per call;
    a dead process changes nothing any more.  [w_delays] is how long the process takes between the steps that read a
    clock.  A file holds a JSON value or some other text, and the time it was written.  The
    time other processes have while this one sleeps is a list of arbitrary changes of the
    world. *)

From Stdlib Require Import ZArith.
From stdpp Require Import base tactics numbers option strings sets list.
From S2P Require Import Prelude PyDict PyFloat PyMonad Entry Json.
Local Open Scope string_scope.
Local Open Scope list_scope.
Local Open Scope Z_scope.

(** ** The world of a process *)

(** A path: its parent directory and its name. *)
Definition path : Type := string * string.

Inductive content : Type :=
  | JsonText (v : pyval)   (* text that [json.load] reads as [v] *)
  | OtherText.             (* text that it rejects *)
Record file : Type := mkFile { fl_content : content; fl_mtime : float }.

Inductive fault : Type :=
  | NoFault
  | Fails          (* the call raises *)
  | Killed         (* the process is killed before the call is done *)
  | KilledAfter.   (* the process is killed when the call has taken effect *)
#[export] Instance fault_eq_dec : EqDecision fault.
Proof. solve_decision. Defined.

Record World : Type := mkWorld {
  w_files : dict path file;
  w_wall : float;             (* time.time() *)
  w_mono : float;             (* time.monotonic() *)
  w_delays : list float;
  w_faults : list fault;
  w_alive : bool;
  w_rand : string;            (* what tempfile draws for the next name *)
  w_stdout : list string;
  w_stderr : list string;
  w_legacy_warned : bool;     (* _LEGACY_WALL_CLOCK_WARNED *)
}.

Definition set_files (x : dict path file) (w : World) : World :=
  mkWorld x (w_wall w) (w_mono w) (w_delays w) (w_faults w) (w_alive w) (w_rand w) (w_stdout w)
    (w_stderr w) (w_legacy_warned w).
Definition set_times (wall mono : float) (delays : list float) (w : World) : World :=
  mkWorld (w_files w) wall mono delays (w_faults w) (w_alive w) (w_rand w) (w_stdout w)
    (w_stderr w) (w_legacy_warned w).
Definition set_faults (x : list fault) (alive : bool) (w : World) : World :=
  mkWorld (w_files w) (w_wall w) (w_mono w) (w_delays w) x alive (w_rand w) (w_stdout w)
    (w_stderr w) (w_legacy_warned w).
Definition set_output (out err : list string) (w : World) : World :=
  mkWorld (w_files w) (w_wall w) (w_mono w) (w_delays w) (w_faults w) (w_alive w) (w_rand w) out
    err (w_legacy_warned w).
Definition set_legacy_warned (x : bool) (w : World) : World :=
  mkWorld (w_files w) (w_wall w) (w_mono w) (w_delays w) (w_faults w) (w_alive w) (w_rand w)
    (w_stdout w) (w_stderr w) x.

Local Abbreviation MW := (M World).

(** What the environment does to the next call. *)
Definition next_fault (w : World) : fault := default NoFault (head (w_faults w)).
Definition use_fault (w : World) : World := set_faults (tail (w_faults w)) true w.
Definition die (w : World) : World := set_faults (tail (w_faults w)) false w.
Definition stop (w : World) : World := set_faults (w_faults w) false w.

(** One call of the operating system: its effect [f], and what it leaves behind when it does
    not run to its end. *)
Definition os_call {A} (what : string) (partial : World → World) (f : MW A) : MW A := λ w,
  if w_alive w then
    match next_fault w with
    | NoFault => f (use_fault w)
    | Fails => (partial (use_fault w), Raise (OSError what))
    | Killed => (partial (die w), Raise (OSError "killed"))
    | KilledAfter => (stop (f (use_fault w)).1, Raise (OSError "killed"))
    end
  else (w, Raise (OSError "killed")).

(** Time passes; a negative delay is none. *)
Definition pass_time : MW unit := modify (λ w,
  match w_delays w with
  | [] => w
  | d :: delays =>
      set_times (fadd (w_wall w) (fmax fzero d)) (fadd (w_mono w) (fmax fzero d)) delays w
  end).

(** [print(line)], which raises when the line cannot be encoded or written; and [print(line, file=sys.stderr)], where Python
    escapes what it cannot encode. *)
Definition print_out (line : string) : MW unit :=
  os_call "print" id (modify (λ w, set_output (w_stdout w ++ [line]) (w_stderr w) w)).
Definition print_err (line : string) : MW unit :=
  modify (λ w, if w_alive w then set_output (w_stdout w) (w_stderr w ++ [line]) w else w).

(** Creation, replacement and removal of files. *)
Definition file_at (w : World) (p : path) : option file := dict_get (w_files w) p.
Definition store_file (p : path) (c : content) (w : World) : World :=
  set_files (dict_set (w_files w) p (mkFile c (w_wall w))) w.
Definition remove_file (p : path) (w : World) : World := set_files (dict_pop (w_files w) p) w.
(** [os.replace(a, b)] *)
Definition rename_file (a b : path) (w : World) : World :=
  match file_at w a with
  | Some f => set_files (dict_set (dict_pop (w_files w) a) b f) w
  | None => w
  end.

(** ** JSON files *)

(** [read_json]: a missing file and a file without an object give the empty dict. *)
Definition read_json (p : path) : MW (dict string pyval) :=
  w ← get_state;
  match file_at w p with
  | None => mret []
  | Some _ =>
      os_call "open" id (
        w ← get_state;
        match file_at w p with
        | Some (mkFile (JsonText (VDict d)) _) => mret d
        | Some (mkFile (JsonText _) _) => mret []
        | Some (mkFile OtherText _) => raise (ValueError "JSONDecodeError")
        | None => raise (OSError "open")
        end)
  end.

(** [tempfile.mkstemp(dir=path.parent, prefix=f".{path.name}.", suffix=".tmp")]: an empty
    file under a name that was free. *)
Definition tmp_path (p : path) (rand : string) : path :=
  (p.1, "." +:+ p.2 +:+ "." +:+ rand +:+ ".tmp").
Definition mkstemp (p : path) : MW path :=
  w ← get_state;
  let tmp := tmp_path p (w_rand w) in
  os_call "mkstemp" id (
    w ← get_state;
    match file_at w tmp with
    | Some _ => raise (OSError "mkstemp")
    | None => modify (store_file tmp OtherText) ;; mret tmp
    end).

(** [write_json] *)
Definition write_json (p : path) (data : pyval) : MW unit :=
  os_call "mkdir" id (mret tt) ;;
  tmp ← mkstemp p;
  try_except
    (os_call "write" (store_file tmp OtherText) (modify (store_file tmp (JsonText (json_dump data)))) ;;
     os_call "fsync" id (mret tt) ;;
     os_call "replace" id (modify (rename_file tmp p)))
    (λ e, attempt (os_call "unlink" id (modify (remove_file tmp))) ;; raise e).

(** ** StateFileLock *)

Definition STALE_LOCK_SECONDS : float := float_of_Z 30.

(** [path.with_suffix(path.suffix + ".lock")] *)
Definition lock_path (p : path) : path := (p.1, p.2 +:+ ".lock").

(** [StateFileLock._lock_is_stale]; a lock file that is gone counts as stale. *)
Definition lock_is_stale (lock : path) : MW bool :=
  r ← attempt (os_call "stat" id (
    w ← get_state;
    match file_at w lock with
    | Some f => mret (fsub (w_wall w) (fl_mtime f))
    | None => raise (OSError "stat")
    end));
  match r with
  | Ok age => mret (fle STALE_LOCK_SECONDS age)
  | Raise _ => mret true
  end.

(** [self._lock_path.unlink(missing_ok=True)], an [OSError] being ignored. *)
Definition unlink_lock (lock : path) : MW unit :=
  attempt (os_call "unlink" id (modify (remove_file lock))) ;; mret tt.

(** [os.open(self._lock_path, os.O_CREAT | os.O_EXCL | os.O_WRONLY)]: [false] when the file
    exists. *)
Definition open_excl (lock : path) : MW bool :=
  os_call "open" id (
    w ← get_state;
    match file_at w lock with
    | Some _ => mret false
    | None => modify (store_file lock OtherText) ;; mret true
    end).

(** [StateFileLock._try_acquire] *)
Definition try_acquire (lock : path) : MW bool :=
  created ← open_excl lock;
  if created : bool then os_call "write" id (mret tt) ;; mret true
  else
    stale ← lock_is_stale lock;
    (if stale : bool then unlink_lock lock else mret tt) ;;
    mret false.

(** The loop of [StateFileLock.__enter__].  What happens during each [time.sleep(0.05)] is
    the next of [pauses]; [None] stands for a process that is still waiting after them. *)
Fixpoint enter_loop (lock : path) (deadline : float) (pauses : list (World → World))
    : MW (option unit) :=
  acquired ← try_acquire lock;
  if acquired : bool then mret (Some tt)
  else
    w ← get_state;
    if fle deadline (w_mono w) then raise TimeoutError
    else
      match pauses with
      | [] => mret None
      | pause :: pauses' => modify pause ;; enter_loop lock deadline pauses'
      end.

(** [StateFileLock.__enter__], with the default [timeout] of 5 seconds. *)
Definition lock_enter (p : path) (pauses : list (World → World)) : MW (option unit) :=
  w ← get_state;
  enter_loop (lock_path p) (fadd (w_mono w) (float_of_Z 5)) pauses.

(** [StateFileLock.__exit__] *)
Definition lock_exit (p : path) : MW unit := unlink_lock (lock_path p).

(** [with StateFileLock(path): body] *)
Definition with_state_lock {A} (p : path) (pauses : list (World → World)) (body : MW A)
    : MW (option A) :=
  entered ← lock_enter p pauses;
  match entered with
  | None => mret None
  | Some _ => r ← attempt body; lock_exit p ;; a ← lift r; mret (Some a)
  end.

(** ** Lemmas *)

Lemma tmp_path_ne p rand : tmp_path p rand ≠ p.
Proof.
  destruct p as [dir name]. unfold tmp_path. simpl. intros [= H].
  apply (f_equal String.length) in H. rewrite !str_length_app in H. simpl in H. lia.
Qed.

Lemma lock_path_ne p : lock_path p ≠ p.
Proof.
  destruct p as [dir name]. unfold lock_path. simpl. intros [= H].
  apply (f_equal String.length) in H. rewrite !str_length_app in H. simpl in H. lia.
Qed.

Lemma tmp_lock_ne p rand q : tmp_path p rand ≠ lock_path q.
Proof.
  unfold tmp_path, lock_path. intros [= _ H]. apply (f_equal str_last) in H.
  rewrite <- !str_app_assoc, !str_last_app in H. done.
Qed.

Lemma file_at_store q p c w :
  file_at (store_file p c w) q = if decide (p = q) then Some (mkFile c (w_wall w)) else file_at w q.
Proof. apply dict_get_set. Qed.

Lemma file_at_remove q p w :
  file_at (remove_file p w) q = if decide (p = q) then None else file_at w q.
Proof. apply dict_get_pop. Qed.

Lemma file_at_rename q a b f w :
  a ≠ b → file_at w a = Some f →
  file_at (rename_file a b w) q =
  if decide (b = q) then Some f else if decide (a = q) then None else file_at w q.
Proof.
  unfold rename_file. intros Hne ->. unfold file_at. simpl. rewrite dict_get_set.
  case_decide; [done|]. by rewrite dict_get_pop.
Qed.

Lemma file_at_use q w : file_at (use_fault w) q = file_at w q.
Proof. done. Qed.

Lemma file_at_die q w : file_at (die w) q = file_at w q.
Proof. done. Qed.

Lemma file_at_stop q w : file_at (stop w) q = file_at w q.
Proof. done. Qed.

(** The system calls work. *)
Definition undisturbed (w : World) : Prop := w_alive w = true ∧ w_faults w = [].

Lemma os_call_undisturbed {A} what partial (f : M World A) w :
  undisturbed w → os_call what partial f w = f w.
Proof.
  intros [Ha Hf]. unfold os_call, next_fault. rewrite Ha, Hf. simpl. f_equal.
  destruct w. simpl in *. subst. done.
Qed.

(** Number of calls the environment will disturb. *)
Definition disturbed (w : World) : nat := length (filter (.≠ NoFault) (w_faults w)).

Lemma disturbed_next w :
  disturbed w = ((if decide (next_fault w = NoFault) then 0 else 1) + disturbed (use_fault w))%nat.
Proof.
  unfold disturbed, next_fault. simpl. destruct (w_faults w) as [|[] faults]; done.
Qed.

(** Nothing kills the process. *)
Definition survives (w : World) : Prop := Forall (λ f, f = NoFault ∨ f = Fails) (w_faults w).

Lemma survives_next w : survives w → next_fault w = NoFault ∨ next_fault w = Fails.
Proof. unfold survives, next_fault. intros Hs. destruct Hs; simpl; auto. Qed.

Lemma survives_later w : survives w → survives (use_fault w).
Proof. unfold survives. simpl. intros Hs. by destruct Hs; simpl. Qed.

Lemma use_store p c w : use_fault (store_file p c w) = store_file p c (use_fault w).
Proof. done. Qed.

Lemma die_store p c w : die (store_file p c w) = store_file p c (die w).
Proof. done. Qed.

Lemma next_store p c w : next_fault (store_file p c w) = next_fault w.
Proof. done. Qed.

(** Run a computation on a world, splitting on what the environment does to each call. *)
Ltac run_world :=
  unfold try_except, attempt, modify, get_state, raise, lift, mret, M_ret, mbind, M_bind; simpl;
  repeat (try (unfold os_call at 1; simpl);
    match goal with
    | H : w_alive ?w = true |- context [w_alive ?w] => rewrite H
    | |- context [match next_fault ?w with _ => _ end] =>
        let E := fresh "Hfault" in destruct (next_fault w) eqn:E; simpl
    end);
  rewrite ?use_store, ?die_store, ?next_store in *.

(** Look up a path in the files left by a few updates. *)
Ltac solve_files :=
  repeat (rewrite file_at_use || rewrite file_at_die || rewrite file_at_store || rewrite file_at_remove);
  repeat case_decide; simplify_eq/=; try done.

(** Contradict that at most one call was disturbed, and none fatally. *)
Ltac too_many_faults :=
  exfalso;
  match goal with
  | Hk : survives ?w |- _ =>
      solve [destruct (survives_next w Hk); congruence
            |destruct (survives_next (use_fault w) (survives_later w Hk)); congruence
            |destruct (survives_next (use_fault (use_fault w)) (survives_later _ (survives_later w Hk))); congruence
            |destruct (survives_next (use_fault (use_fault (use_fault w)))
               (survives_later _ (survives_later _ (survives_later w Hk)))); congruence]
  | Hd : (disturbed ?w ≤ 1)%nat |- _ =>
      rewrite (disturbed_next w), (disturbed_next (use_fault w)),
        (disturbed_next (use_fault (use_fault w))),
        (disturbed_next (use_fault (use_fault (use_fault w)))) in Hd;
      repeat case_decide; simplify_eq/=; (congruence || lia)
  end.

(** What a write to [p] through the temporary file [tmp] may leave: the other files as they were, and the target
    new if the call returned; if it raised, the target as it was, unless the process was killed, when it may be new too; and
    no temporary file after a single failure. *)
Definition replaces (p tmp : path) (data : pyval) (w : World) (out : World * result unit) : Prop :=
  let '(w', r) := out in
  let new := Some (mkFile (JsonText (json_dump data)) (w_wall w)) in
  (∀ q, q ≠ p → q ≠ tmp → file_at w' q = file_at w q) ∧
  match r with
  | Ok _ => file_at w' p = new ∧ file_at w' tmp = None ∧ w_alive w' = true
  | Raise _ => (file_at w' p = file_at w p ∨ w_alive w' = false ∧ file_at w' p = new) ∧
               ((disturbed w ≤ 1)%nat → survives w → file_at w' tmp = None)
  end.

Lemma write_and_replace_spec p tmp data w :
  tmp ≠ p → w_alive w = true → is_Some (file_at w tmp) →
  replaces p tmp data w
    (try_except
      (os_call "write" (store_file tmp OtherText)
         (modify (store_file tmp (JsonText (json_dump data)))) ;;
       os_call "fsync" id (mret tt) ;;
       os_call "replace" id (modify (rename_file tmp p)))
      (λ e, attempt (os_call "unlink" id (modify (remove_file tmp))) ;; raise e) w).
Proof.
  intros Hne Ha Ht. unfold replaces.
  assert (∀ w' q, file_at (rename_file tmp p (store_file tmp (JsonText (json_dump data)) w')) q =
    if decide (p = q) then Some (mkFile (JsonText (json_dump data)) (w_wall w'))
    else if decide (tmp = q) then None else file_at w' q) as Hren.
  { intros w' q. rewrite (file_at_rename q tmp p (mkFile (JsonText (json_dump data)) (w_wall w'))) by (done || by solve_files).
    by repeat case_decide; solve_files. }
  assert (∀ w' : World, w_alive (rename_file tmp p w') = w_alive w') as Hal
    by (intros w'; unfold rename_file; by destruct (file_at w' tmp)).
  run_world.
  all: rewrite ?file_at_stop.
  1: split_conj; [intros q ??| | |by rewrite Hal]; rewrite Hren; by solve_files.
  all: split_conj; [intros q ??; rewrite ?file_at_stop, ?Hren; by solve_files| |intros Hd Hk].
  all: try first [left; by solve_files|right; split; [done|]; rewrite Hren; by solve_files].
  all: clear Hren Hal; try (by solve_files); by too_many_faults.
Qed.

(** A call of the operating system runs undisturbed, leaves the files to [partial], or takes effect in a process that
    is killed. *)
Lemma os_call_cases {A} what partial (f : MW A) w :
  (next_fault w = NoFault ∧ w_alive w = true ∧ os_call what partial f w = f (use_fault w)) ∨
  (∃ w' e, w_files w' = w_files w ∧
     (os_call what partial f w = (w', Raise e) ∨ os_call what partial f w = (partial w', Raise e))) ∨
  (next_fault w = KilledAfter ∧ ∃ e, os_call what partial f w = (stop (f (use_fault w)).1, Raise e)).
Proof.
  unfold os_call. destruct (w_alive w); [|right; left; by eauto 6].
  destruct (next_fault w); [by left| | |by eauto 6]; right; left; eexists _, _; (split; [|by right]; done).
Qed.

Ltac os_case Hn Ha w' e Hw' :=
  match goal with
  | |- context [os_call ?what ?partial ?f ?w] =>
      destruct (os_call_cases what partial f w)
        as [(Hn & Ha & ->)|[(w' & e & Hw' & [->| ->])|(Hn & e & ->)]]
  end.

Lemma mkstemp_cases p w :
  let tmp := tmp_path p (w_rand w) in
  (file_at w tmp = None ∧ next_fault w = NoFault ∧
   mkstemp p w = (store_file tmp OtherText (use_fault w), Ok tmp)) ∨
  (∃ w' e, mkstemp p w = (w', Raise e) ∧ (∀ q, q ≠ tmp → file_at w' q = file_at w q) ∧
           (file_at w' tmp = file_at w tmp ∨ next_fault w = KilledAfter)).
Proof.
  intros tmp. unfold mkstemp. rewrite run_bind. simpl.
  os_case Hn Ha w' e Hw'; [|unfold file_at; right; eexists _, _; (split; [done|]); unfold id; rewrite Hw'; by auto..|].
  - rewrite run_bind. simpl. rewrite file_at_use. fold tmp. destruct (file_at w tmp) eqn:E; [|by left].
    right. eexists _, _. by auto.
  - right. eexists _, _. split; [done|]. split; [|by right]. intros q Hq. rewrite file_at_stop, run_bind. simpl.
    rewrite file_at_use. fold tmp. destruct (file_at w tmp); [done|]. simpl. by solve_files.
Qed.

(** All of [write_json]; the temporary file comes to be in it. *)
Lemma write_json_spec p data w :
  let tmp := tmp_path p (w_rand w) in
  let new := Some (mkFile (JsonText (json_dump data)) (w_wall w)) in
  let '(w', r) := write_json p data w in
  (∀ q, q ≠ p → q ≠ tmp → file_at w' q = file_at w q) ∧
  match r with
  | Ok _ => file_at w' p = new ∧ file_at w' tmp = None ∧ w_alive w' = true
  | Raise _ => (file_at w' p = file_at w p ∨ w_alive w' = false ∧ file_at w' p = new) ∧
               ((disturbed w ≤ 1)%nat → survives w → file_at w' tmp = file_at w tmp)
  end.
Proof.
  intros tmp new. unfold write_json. rewrite run_bind.
  os_case Hn Ha w' e Hw'; [|cbn; unfold file_at; rewrite Hw'; by auto..|cbn; by auto].
  unfold mret at 1, M_ret at 1. cbv iota. rewrite run_bind.
  destruct (mkstemp_cases p (use_fault w)) as [(Ht & Hn' & ->)|(w' & e & -> & Hw' & Ht)];
    change (tmp_path p (w_rand (use_fault w))) with tmp in *.
  2: { cbn. split; [intros q _ Hq; by apply Hw'|]. split; [left; apply Hw'; intros E; by apply (tmp_path_ne p (w_rand w))|].
       intros _ Hs. destruct Ht as [->|Hk]; [done|]. by destruct (survives_next _ (survives_later _ Hs)) as [E|E]; rewrite E in Hk. }
  rewrite file_at_use in Ht. set (w1 := store_file tmp OtherText (use_fault (use_fault w))).
  assert (∀ q, q ≠ tmp → file_at w1 q = file_at w q) as Hw1 by (intros q ?; subst w1; by solve_files).
  assert (p ≠ tmp) as Hp by (intros E; by apply (tmp_path_ne p (w_rand w))).
  pose proof (write_and_replace_spec p tmp data w1 (tmp_path_ne _ _) eq_refl) as Hspec.
  destruct (try_except _ _ w1) as [w' r]. destruct Hspec as [Hq Hr]; [subst w1; by solve_files|].
  split; [intros q Hqp Hqt; rewrite Hq by done; by apply Hw1|].
  destruct r; [done|]. destruct Hr as [Hpr Hc]. split; [by rewrite <- (Hw1 p Hp)|].
  rewrite Ht. intros Hd Hk. apply Hc; [|by apply survives_later, survives_later].
  rewrite (disturbed_next w), (disturbed_next (use_fault w)) in Hd.
  change (disturbed w1) with (disturbed (use_fault (use_fault w))). lia.
Qed.

(** C14: [write_json] is atomic.  Whichever of its system calls fail, and wherever the process is killed, before or after a call takes effect, every other file
    is as before, and the target holds either exactly what it held before or exactly the new value: the new value if the call returned,
    the old one if it raised in a process that lives, and one of the two if the process was killed; a failure that is not itself followed by another one
    leaves no temporary file behind. *)
Theorem write_json_atomic (p : path) (data : pyval) (w : World) :
  let tmp := tmp_path p (w_rand w) in
  let new := Some (mkFile (JsonText (json_dump data)) (w_wall w)) in
  let '(w', r) := write_json p data w in
  (∀ q, q ≠ p → q ≠ tmp → file_at w' q = file_at w q) ∧
  match r with
  | Ok _ => file_at w' p = new ∧ file_at w' tmp = None
  | Raise _ =>
      (w_alive w' = true → file_at w' p = file_at w p) ∧
      (w_alive w' = false → file_at w' p = file_at w p ∨ file_at w' p = new) ∧
      ((disturbed w ≤ 1)%nat → survives w → file_at w' tmp = file_at w tmp)
  end.
Proof.
  intros tmp new. pose proof (write_json_spec p data w) as Hs. cbv zeta in Hs. fold tmp new in Hs.
  destruct (write_json p data w) as [w' [u|e]]; destruct Hs as [Hq Hr]; [naive_solver|]. destruct Hr as [Hp Ht].
  split_conj; [done|intros Ha|intros Ha|done]; destruct Hp as [Hp|[Hd Hp]]; auto; congruence.
Qed.

(** Reading a file written before. *)
Lemma read_json_back p d m w :
  file_at w p = Some (mkFile (JsonText (VDict d)) m) → w_alive w = true → next_fault w = NoFault →
  read_json p w = (use_fault w, Ok d).
Proof.
  intros Hp Ha Hn. unfold read_json. rewrite run_bind. simpl. rewrite Hp.
  unfold os_call. rewrite Ha, Hn, run_bind. simpl. by rewrite file_at_use, Hp.
Qed.

(** [read_json] never writes. *)
Lemma read_json_files p w : w_files (read_json p w).1 = w_files w.
Proof.
  unfold read_json. rewrite run_bind. simpl. destruct (file_at w p); [|done].
  os_case Hn Ha w' e Hw'; [|done|done|]; rewrite run_bind; simpl; rewrite file_at_use;
    by destruct (file_at w p) as [[[[]|] ?]|].
Qed.
