(* ===== verification/FileLock.v ===== *)
(** [StateFileLock] among several processes: src/cachelab/storage/serialization.py.

    Processes that use the same state file share the files and the wall clock.  Two step
    relations: in [lock_step] an attempt to take the lock ([_try_acquire]) is one step, in
    [call_step] it is interrupted between its system calls.  Any number of processes may
    arrive; a process may time out, leave, or die at any time, leaving its lock file behind,
    and time passes. *)

From Stdlib Require Import ZArith.
From stdpp Require Import base tactics numbers option strings sets list relations.
From S2P Require Import Prelude PyDict PyFloat PyMonad Entry Json Files.
Local Open Scope string_scope.
Local Open Scope list_scope.
Local Open Scope Z_scope.

(** Where a process is: before a call of [_try_acquire], after its [os.open] was refused,
    after it found the lock stale, in the [with] block, or no longer there. *)
Inductive process_phase : Type := Waiting | Denied | FoundStale | Inside | Gone.
#[export] Instance phase_eq_dec : EqDecision process_phase.
Proof. solve_decision. Defined.

(** The next system calls of a process. *)
Definition next_phase (lock : path) (ph : process_phase) : M World process_phase :=
  match ph with
  | Waiting =>
      created ← open_excl lock;
      if created : bool then os_call "write" id (mret tt) ;; mret Inside else mret Denied
  | Denied => stale ← lock_is_stale lock; mret (if stale : bool then FoundStale else Waiting)
  | FoundStale => unlink_lock lock ;; mret Waiting
  | Inside => unlink_lock lock ;; mret Gone
  | Gone => mret Gone
  end.

(** A whole attempt. *)
Definition attempt_phase (lock : path) : M World process_phase :=
  acquired ← try_acquire lock; mret (if acquired : bool then Inside else Waiting).

(** The files and clocks, and the processes. *)
Definition system : Type := World * list process_phase.

(** What happens in both relations: processes arrive, time out, leave the block or die. *)
Inductive common_step (lock : path) : system → system → Prop :=
  | cs_arrive w ps : common_step lock (w, ps) (w, ps ++ [Waiting])
  | cs_timeout w ps i : ps !! i = Some Waiting → common_step lock (w, ps) (w, <[i:=Gone]> ps)
  | cs_exit w w' ps i :
      ps !! i = Some Inside → unlink_lock lock w = (w', Ok tt) →
      common_step lock (w, ps) (w', <[i:=Gone]> ps)
  | cs_die w ps i ph : ps !! i = Some ph → common_step lock (w, ps) (w, <[i:=Gone]> ps)
  | cs_time w ps wall mono :
      common_step lock (w, ps) (set_times wall mono (w_delays w) w, ps).

Inductive lock_step (lock : path) : system → system → Prop :=
  | ls_common s s' : common_step lock s s' → lock_step lock s s'
  | ls_attempt w w' ps i ph :
      ps !! i = Some Waiting → attempt_phase lock w = (w', Ok ph) →
      lock_step lock (w, ps) (w', <[i:=ph]> ps).

Inductive call_step (lock : path) : system → system → Prop :=
  | ps_common s s' : common_step lock s s' → call_step lock s s'
  | ps_phase w w' ps i ph ph' :
      ps !! i = Some ph → next_phase lock ph w = (w', Ok ph') →
      call_step lock (w, ps) (w', <[i:=ph']> ps).

(** No process stays so long in the block that its lock looks stale. *)
Definition held_young (lock : path) (s : system) : Prop :=
  Inside ∈ s.2 → ∀ f, file_at s.1 lock = Some f →
  fle STALE_LOCK_SECONDS (fsub (w_wall s.1) (fl_mtime f)) = false.

(** ** Lemmas *)

Lemma unlink_lock_eq lock w : undisturbed w → unlink_lock lock w = (remove_file lock w, Ok tt).
Proof.
  intros Hu. unfold unlink_lock. rewrite run_bind. unfold attempt.
  by rewrite os_call_undisturbed.
Qed.

(** The age of a lock file, and that a missing one counts as stale. *)
Definition stale_at (lock : path) (w : World) : bool :=
  match file_at w lock with
  | Some f => fle STALE_LOCK_SECONDS (fsub (w_wall w) (fl_mtime f))
  | None => true
  end.

Lemma lock_is_stale_eq lock w : undisturbed w → lock_is_stale lock w = (w, Ok (stale_at lock w)).
Proof.
  intros Hu. unfold lock_is_stale. rewrite run_bind. unfold attempt.
  rewrite os_call_undisturbed by done. rewrite run_bind. simpl. unfold stale_at.
  by destruct (file_at w lock).
Qed.

Lemma open_excl_eq lock w :
  undisturbed w →
  open_excl lock w =
    match file_at w lock with
    | Some _ => (w, Ok false)
    | None => (store_file lock OtherText w, Ok true)
    end.
Proof.
  intros Hu. unfold open_excl. rewrite os_call_undisturbed by done. rewrite run_bind. simpl.
  by destruct (file_at w lock).
Qed.

(** What an attempt does: it takes a free lock, removes a stale one, and otherwise does
    nothing. *)
Lemma try_acquire_eq lock w :
  undisturbed w →
  try_acquire lock w =
    match file_at w lock with
    | None => (store_file lock OtherText w, Ok true)
    | Some _ => ((if stale_at lock w then remove_file lock w else w), Ok false)
    end.
Proof.
  intros Hu. unfold try_acquire. rewrite run_bind, open_excl_eq by done.
  destruct (file_at w lock) eqn:E; [|by rewrite run_bind, os_call_undisturbed].
  rewrite run_bind, lock_is_stale_eq by done. rewrite run_bind.
  destruct (stale_at lock w); [by rewrite unlink_lock_eq|done].
Qed.

(** One round of the loop of [__enter__]. *)
Lemma enter_loop_eq lock deadline pauses w :
  undisturbed w →
  enter_loop lock deadline pauses w =
    match file_at w lock with
    | None => (store_file lock OtherText w, Ok (Some tt))
    | Some _ =>
        let w1 := if stale_at lock w then remove_file lock w else w in
        if fle deadline (w_mono w) then (w1, Raise TimeoutError)
        else match pauses with
             | [] => (w1, Ok None)
             | pause :: pauses' => enter_loop lock deadline pauses' (pause w1)
             end
    end.
Proof.
  intros Hu. destruct pauses as [|pause pauses]; cbn [enter_loop];
    rewrite run_bind, try_acquire_eq by done; destruct (file_at w lock); try done;
    rewrite run_bind; unfold get_state;
    replace (w_mono (if stale_at lock w then remove_file lock w else w)) with (w_mono w)
      by (by destruct (stale_at lock w)); by destruct (fle deadline (w_mono w)).
Qed.

(** The attempts leave the clocks alone. *)
Lemma keeps_mono_os {A} t what (f : M World A) :
  keeps (λ w, w_mono w = t) f → keeps (λ w, w_mono w = t) (os_call what id f).
Proof.
  intros Hf w Hw. unfold os_call. destruct (w_alive w); [|done].
  destruct (next_fault w); [by apply Hf|done|done|exact (Hf (use_fault w) Hw)].
Qed.

Lemma keeps_mono_try t lock : keeps (λ w, w_mono w = t) (try_acquire lock).
Proof.
  assert (∀ b, keeps (λ w, w_mono w = t) (if b : bool then unlink_lock lock else mret tt)) as Hunlink.
  { intros []; [|apply keeps_ret]. apply keeps_bind; [|intros; apply keeps_ret].
    by apply keeps_attempt, keeps_mono_os, keeps_modify. }
  assert (keeps (λ w, w_mono w = t) (lock_is_stale lock)) as Hstale.
  { apply keeps_bind.
    - apply keeps_attempt, keeps_mono_os, keeps_bind; [apply keeps_get|].
      intros w. destruct (file_at w lock); [apply keeps_ret|apply keeps_raise].
    - intros []; apply keeps_ret. }
  apply keeps_bind.
  - apply keeps_mono_os, keeps_bind; [apply keeps_get|]. intros w.
    destruct (file_at w lock); [apply keeps_ret|]. apply keeps_bind; [by apply keeps_modify|].
    intros; apply keeps_ret.
  - intros [].
    + apply keeps_bind; [|intros; apply keeps_ret]. apply keeps_mono_os, keeps_ret.
    + apply keeps_bind; [done|]. intros stale. apply keeps_bind; [done|]. intros; apply keeps_ret.
Qed.

(** A loop that has a pause left ends when what follows the pause does. *)
Definition loop_ends (o : World * result (option unit)) : Prop :=
  ∃ w' r, o = (w', r) ∧ (r = Ok (Some tt) ∨ ∃ e, r = Raise e).

Lemma enter_loop_last lock deadline pause pauses w :
  (∀ w1, loop_ends (enter_loop lock deadline pauses (pause w1))) →
  loop_ends (enter_loop lock deadline (pause :: pauses) w).
Proof.
  intros Hends. cbn [enter_loop]. rewrite run_bind.
  destruct (try_acquire lock w) as [w1 [[]|e]]; [by eexists _, _; eauto| |by eexists _, _; eauto].
  rewrite run_bind. unfold get_state. destruct (fle deadline (w_mono w1)); [by eexists _, _; eauto|].
  apply Hends.
Qed.

Lemma enter_loop_late lock deadline pauses w :
  fle deadline (w_mono w) = true → loop_ends (enter_loop lock deadline pauses w).
Proof.
  intros Hd. destruct pauses as [|pause pauses]; cbn [enter_loop]; rewrite run_bind;
    pose proof (keeps_mono_try (w_mono w) lock w eq_refl) as Hm;
    destruct (try_acquire lock w) as [w1 [[]|e]]; try (by eexists _, _; eauto);
    rewrite run_bind; unfold get_state; simpl in Hm; rewrite Hm, Hd; by eexists _, _; eauto.
Qed.

Lemma undisturbed_files x w : undisturbed w → undisturbed (set_files x w).
Proof. done. Qed.

(** At most one process is in the block, and while one is, its lock file exists. *)
Record exclusive (lock : path) (s : system) : Prop := {
  ex_world : undisturbed s.1;
  ex_one : ∀ i j, s.2 !! i = Some Inside → s.2 !! j = Some Inside → i = j;
  ex_file : Inside ∈ s.2 → is_Some (file_at s.1 lock);
}.

Lemma inside_insert (ps : list process_phase) i ph :
  ph ≠ Inside → Inside ∈ <[i:=ph]> ps → Inside ∈ ps.
Proof.
  intros Hph [j Hj]%list_elem_of_lookup_1. apply list_lookup_insert_Some in Hj as [(_ & ? & _)|[_ Hj]];
    [congruence|by eapply list_elem_of_lookup_2].
Qed.

(** A process that is not (any more) in the block does not endanger exclusion. *)
Lemma exclusive_insert lock w ps i ph :
  ph ≠ Inside → exclusive lock (w, ps) → exclusive lock (w, <[i:=ph]> ps).
Proof.
  intros Hph [Hw Hone Hf]. split; simpl in *; [done| |].
  - intros j k Hj Hk. apply list_lookup_insert_Some in Hj as [(_ & ? & _)|[_ Hj]]; [congruence|].
    apply list_lookup_insert_Some in Hk as [(_ & ? & _)|[_ Hk]]; [congruence|]. by apply Hone.
  - intros Hin. by eapply Hf, inside_insert.
Qed.

(** Removing the lock file when nobody is in the block. *)
Lemma exclusive_remove lock w ps :
  Inside ∉ ps → exclusive lock (w, ps) → exclusive lock (remove_file lock w, ps).
Proof. intros Hno [Hw Hone Hf]. by split. Qed.

Lemma exclusive_common lock s s' :
  common_step lock s s' → exclusive lock s → exclusive lock s'.
Proof.
  intros Hs He. destruct Hs as [w ps|w ps i Hi|w w' ps i Hi Hu|w ps i ph Hi|w ps wall mono].
  - destruct He as [Hw Hone Hf]. split; simpl in *; [done| |].
    + intros i j. rewrite !lookup_snoc_Some. intros [[_ Hi]|[_ ?]] [[_ Hj]|[_ ?]]; try done.
      by apply Hone.
    + rewrite elem_of_app, list_elem_of_singleton. intros [?|?]; [by apply Hf|done].
  - by apply exclusive_insert.
  - rewrite unlink_lock_eq in Hu by apply He. simplify_eq.
    apply exclusive_remove; [|by apply exclusive_insert].
    intros [j Hj]%list_elem_of_lookup_1.
    apply list_lookup_insert_Some in Hj as [(_ & ? & _)|[Hne Hj]]; [done|].
    apply Hne. by apply (ex_one _ _ He).
  - by apply exclusive_insert.
  - destruct He as [Hw Hone Hf]. by split.
Qed.

Lemma exclusive_attempt lock w w' ps i ph :
  held_young lock (w, ps) → ps !! i = Some Waiting → attempt_phase lock w = (w', Ok ph) →
  exclusive lock (w, ps) → exclusive lock (w', <[i:=ph]> ps).
Proof.
  intros Hy Hi Ha He. pose proof He as [Hw Hone Hf]. simpl in *. unfold attempt_phase in Ha.
  rewrite run_bind, try_acquire_eq in Ha by done. destruct (file_at w lock) as [f|] eqn:E.
  - unfold mret, M_ret in Ha. destruct (stale_at lock w) eqn:Hst; simplify_eq; [|by apply exclusive_insert].
    apply exclusive_insert; [done|]. apply exclusive_remove; [|done]. intros Hin.
    unfold stale_at in Hst. rewrite E in Hst. specialize (Hy Hin f E). simpl in Hy. congruence.
  - unfold mret, M_ret in Ha. simplify_eq.
    assert (∀ j, ps !! j ≠ Some Inside) as Hno.
    { intros j Hj. apply list_elem_of_lookup_2, Hf in Hj as [? ?]. congruence. }
    split; simpl; [done| |].
    + intros j k Hj Hk.
      apply list_lookup_insert_Some in Hj as [(-> & _)|[_ Hj]]; [|by destruct (Hno j)].
      by apply list_lookup_insert_Some in Hk as [(-> & _)|[_ Hk]]; [|destruct (Hno k)].
    + intros _. rewrite file_at_store. by case_decide.
Qed.

Lemma exclusive_step lock s s' :
  held_young lock s → lock_step lock s s' → exclusive lock s → exclusive lock s'.
Proof.
  intros Hy Hs He. destruct Hs; [by eapply exclusive_common|by eapply exclusive_attempt].
Qed.

(** A step between states in which no process has been too long in the block. *)
Definition young_step (step : system → system → Prop) (lock : path) (s s' : system) : Prop :=
  step s s' ∧ held_young lock s ∧ held_young lock s'.

(** ** Running the processes *)

Definition young_b (lock : path) (s : system) : bool :=
  match file_at s.1 lock with
  | Some f => negb (fle STALE_LOCK_SECONDS (fsub (w_wall s.1) (fl_mtime f)))
  | None => true
  end.

Lemma young_b_held lock s : young_b lock s = true → held_young lock s.
Proof. unfold young_b. intros Hy _ f Hf. rewrite Hf in Hy. by apply negb_true_iff. Qed.

Inductive move : Type := Arrive | Advance (i : nat).

(** One move by the given way of advancing a process; [None] when the process is not there,
    a system call fails, or a lock has become old. *)
Definition run_move (advance : process_phase → M World process_phase) (lock : path) (m : move) (s : system)
    : option system :=
  let '(w, ps) := s in
  let s' :=
    match m with
    | Arrive => Some (w, ps ++ [Waiting])
    | Advance i =>
        ph ← ps !! i;
        match advance ph w with
        | (w', Ok ph') => Some (w', <[i:=ph']> ps)
        | (_, Raise _) => None
        end
    end in
  s' ≫= λ s', if young_b lock s' then Some s' else None.
Definition run_moves (advance : process_phase → M World process_phase) (lock : path) (ms : list move) (s : system)
    : option system :=
  foldl (λ o m, o ≫= run_move advance lock m) (Some s) ms.

Lemma run_move_step advance (step : system → system → Prop) lock m s s' :
  (∀ w ps, step (w, ps) (w, ps ++ [Waiting])) →
  (∀ w w' ps i ph ph', ps !! i = Some ph → advance ph w = (w', Ok ph') →
     step (w, ps) (w', <[i:=ph']> ps)) →
  young_b lock s = true → run_move advance lock m s = Some s' →
  young_step step lock s s' ∧ young_b lock s' = true.
Proof.
  intros Harr Hadv Hy. destruct s as [w ps]. unfold run_move.
  intros (s1 & Hs1 & Hy1)%bind_Some. destruct (young_b lock s1) eqn:E; simplify_eq.
  split; [|done]. split; [|split; by apply young_b_held]. destruct m as [|i]; simplify_eq; [done|].
  apply bind_Some in Hs1 as (ph & Hph & Hw). destruct (advance ph w) as [w' [ph'|e]] eqn:Ea;
    simplify_eq. by eapply Hadv.
Qed.

Lemma run_moves_steps advance (step : system → system → Prop) lock ms s s' :
  (∀ w ps, step (w, ps) (w, ps ++ [Waiting])) →
  (∀ w w' ps i ph ph', ps !! i = Some ph → advance ph w = (w', Ok ph') →
     step (w, ps) (w', <[i:=ph']> ps)) →
  young_b lock s = true → run_moves advance lock ms s = Some s' →
  rtc (young_step step lock) s s'.
Proof.
  intros Harr Hadv. unfold run_moves. revert s. induction ms as [|m ms IH]; intros s Hy; simpl.
  - intros [= <-]. apply rtc_refl.
  - destruct (run_move advance lock m s) as [s1|] eqn:E.
    + destruct (run_move_step _ step _ _ _ _ Harr Hadv Hy E) as [Hs Hy1]. intros Hr.
      eapply rtc_l; [exact Hs|by apply IH].
    + intros Hr. exfalso. clear -Hr. induction ms; simpl in *; [done|by apply IHms].
Qed.

(** A world without files, at time zero. *)
Definition empty_world : World := mkWorld [] fzero fzero [] [] true "x" [] [] false.
Definition demo_lock : path := lock_path ("", ".cachelab_state.json").

(** The way a waiting process advances in [lock_step]: a whole attempt. *)
Definition whole_attempt (lock : path) (ph : process_phase) : M World process_phase :=
  match ph with Waiting => attempt_phase lock | _ => raise TimeoutError end.

Lemma whole_attempt_step lock w w' ps i ph ph' :
  ps !! i = Some ph → whole_attempt lock ph w = (w', Ok ph') →
  lock_step lock (w, ps) (w', <[i:=ph']> ps).
Proof. intros Hi Ha. destruct ph; try done. by apply ls_attempt. Qed.

(** ** Properties *)

(** C17: the lock excludes: when an attempt to take it is not interrupted and no process stays
    in the block for 30 seconds, at most one process is in the block at a time, in every
    interleaving of any number of processes, also when some die in the block and the lock
    files they leave are broken by others. *)
Theorem state_lock_excludes (lock : path) (w0 : World) (s : system) :
  undisturbed w0 → rtc (young_step (lock_step lock) lock) (w0, []) s →
  (∀ i j, s.2 !! i = Some Inside → s.2 !! j = Some Inside → i = j) ∧
  (Inside ∈ s.2 → is_Some (file_at s.1 lock)).
Proof.
  intros Hw Hs. assert (exclusive lock (w0, [])) as H0.
  { split; simpl; [done|done|]. by intros ?%not_elem_of_nil. }
  assert (exclusive lock s) as He; [|by split; apply He].
  revert H0. induction Hs as [|s1 s2 s3 [Hstep [Hy _]] _ IH]; [done|].
  intros H1. by eapply IH, exclusive_step.
Qed.

Lemma state_lock_excludes_witness :
  ∃ s, rtc (young_step (lock_step demo_lock) demo_lock) (empty_world, []) s ∧
    s.2 = [Inside; Waiting] ∧ is_Some (file_at s.1 demo_lock).
Proof.
  assert (∃ s, run_moves (whole_attempt demo_lock) demo_lock
                 [Arrive; Advance 0; Arrive; Advance 1] (empty_world, []) = Some s ∧
               s.2 = [Inside; Waiting]) as (s & Hrun & Hs).
  { eexists. split; vm_compute; reflexivity. }
  assert (rtc (young_step (lock_step demo_lock) demo_lock) (empty_world, []) s) as Hrtc.
  { eapply (run_moves_steps (whole_attempt demo_lock)); [| |reflexivity|exact Hrun].
    - intros w ps. apply ls_common, cs_arrive.
    - apply whole_attempt_step. }
  exists s. split; [exact Hrtc|]. split; [exact Hs|].
  apply (state_lock_excludes demo_lock empty_world s); [done|exact Hrtc|]. rewrite Hs. left.
Defined.

(** C40: an attempt that is interrupted can break a lock that is not stale: between the refused
    [os.open] and the [stat] of one process the holder leaves, which counts as a stale lock,
    and before the [unlink] another process takes the lock.  Two processes are then in the
    block, although no lock is ever older than an instant and no process died. *)
Theorem interrupted_attempts_share_the_lock :
  ∃ s i j, rtc (young_step (call_step demo_lock) demo_lock) (empty_world, []) s ∧
    i ≠ j ∧ s.2 !! i = Some Inside ∧ s.2 !! j = Some Inside.
Proof.
  destruct (run_moves (next_phase demo_lock) demo_lock
    [Arrive; Arrive; Arrive; Advance 0; Advance 1; Advance 0; Advance 1; Advance 2; Advance 1;
     Advance 1] (empty_world, [])) as [s|] eqn:E; [|by vm_compute in E].
  exists s, 1%nat, 2%nat. split.
  - eapply (run_moves_steps (next_phase demo_lock)); [| |reflexivity|exact E].
    + intros w ps. apply ps_common, cs_arrive.
    + intros w w' ps i ph ph' Hi Hn. by eapply ps_phase.
  - vm_compute in E. by simplify_eq.
Qed.

(** A lock file left by a process that died is recovered: the first attempt of the next
    process removes it once it is 30 seconds old, and if no one else comes in between, the
    attempt after the first pause takes the lock. *)
Theorem stale_lock_is_recovered (p : path) (w : World) (f : file) (pause : World → World)
    (pauses : list (World → World)) :
  undisturbed w → file_at w (lock_path p) = Some f →
  fle STALE_LOCK_SECONDS (fsub (w_wall w) (fl_mtime f)) = true →
  fle (fadd (w_mono w) (float_of_Z 5)) (w_mono w) = false →
  (∀ w', undisturbed w' → undisturbed (pause w') ∧
     file_at (pause w') (lock_path p) = file_at w' (lock_path p)) →
  ∃ w', lock_enter p (pause :: pauses) w = (w', Ok (Some tt)) ∧
    file_at w' (lock_path p) = Some (mkFile OtherText (w_wall (pause (remove_file (lock_path p) w)))).
Proof.
  intros Hu Hf Hst Hd Hp. unfold lock_enter. rewrite run_bind. unfold get_state.
  rewrite enter_loop_eq, Hf, Hd by done. cbv zeta. unfold stale_at at 1. rewrite Hf, Hst.
  destruct (Hp (remove_file (lock_path p) w)) as [Hu' Hf']; [done|].
  rewrite file_at_remove, decide_True in Hf' by done.
  rewrite enter_loop_eq, Hf' by done. eexists. split; [done|].
  by rewrite file_at_store, decide_True.
Qed.

Lemma stale_lock_is_recovered_witness :
  let w := store_file (lock_path ("", "s")) OtherText empty_world in
  let late := set_times (float_of_Z 40) (float_of_Z 40) [] in
  undisturbed (late w) ∧
  ∃ w', lock_enter ("", "s") [id] (late w) = (w', Ok (Some tt)) ∧
        file_at w' (lock_path ("", "s")) = Some (mkFile OtherText (float_of_Z 40)).
Proof.
  intros w late. split; [done|].
  apply (stale_lock_is_recovered ("", "s") (late w) (mkFile OtherText fzero) id []);
    [done|vm_compute; reflexivity..|intros w' Hw'; exact (conj Hw' eq_refl)].
Defined.

(** C27: a process does not wait for the lock for ever: as soon as a pause ends at or after the
    deadline of five seconds, [__enter__] has taken the lock or raised, whatever the other
    processes and the file system did. *)
Theorem lock_enter_ends (p : path) (w : World) (pauses1 pauses2 : list (World → World))
    (pause : World → World) :
  (∀ w', fle (fadd (w_mono w) (float_of_Z 5)) (w_mono (pause w')) = true) →
  ∃ w' r, lock_enter p (pauses1 ++ pause :: pauses2) w = (w', r) ∧
    (r = Ok (Some tt) ∨ ∃ e, r = Raise e).
Proof.
  intros Hlate. unfold lock_enter. rewrite run_bind. unfold get_state. cbv beta iota.
  generalize (fadd (w_mono w) (float_of_Z 5)) Hlate. clear Hlate. intros deadline Hlate.
  revert w. induction pauses1 as [|pause1 pauses1 IH]; intros w; simpl app.
  - apply enter_loop_last. intros w1. by apply enter_loop_late.
  - apply enter_loop_last. intros w1. apply IH.
Qed.

Lemma lock_enter_ends_witness :
  let w := store_file (lock_path ("", "s")) OtherText empty_world in
  let pause w := set_times (float_of_Z 6) (float_of_Z 6) [] w in
  ∃ w' r, lock_enter ("", "s") ([] ++ pause :: []) w = (w', r) ∧
    (r = Ok (Some tt) ∨ ∃ e, r = Raise e).
Proof. intros w pause. apply (lock_enter_ends ("", "s") w [] [] pause). intros w'. reflexivity. Defined.
