(* ===== verification/Policies.v ===== *)
(** Eviction policies: src/cachelab/policies/ (base.py, fifo.py, lru.py, lfu.py).

    The Python protocol [EvictionPolicy] is the class of the same name; what the cache
    relies on is the class [PolicyLaws], which every policy discharges.  [AnyPolicy] is
    the value [make_policy] returns. *)

From stdpp Require Import base tactics numbers option strings sets list.
From S2P Require Import Prelude PyDict PyMonad Config.
Local Open Scope string_scope.
Local Open Scope list_scope.
Local Open Scope Z_scope.

(** ** The protocol *)

Class EvictionPolicy (K P : Type) : Type := {
  policy_name : P → string;
  on_get : K → P → P;
  on_put : K → P → P;
  on_delete : K → P → P;
  evict_candidate : P → option K;
  policy_clear : P → P;
  metadata_size : P → Z;
  policy_len : P → Z;
}.
#[global] Hint Mode EvictionPolicy - ! : typeclass_instances.

(** ** FIFO *)

Module FIFO.
Section fifo.
Context {K : Type} `{EqDecision K}.

Record FIFOPolicy : Type := mkFIFO { order : dict K unit }.

Definition init : FIFOPolicy := mkFIFO [].
Definition fifo_on_get (key : K) (p : FIFOPolicy) : FIFOPolicy := p.
Definition fifo_on_put (key : K) (p : FIFOPolicy) : FIFOPolicy :=
  if dict_mem (order p) key then p else mkFIFO (dict_set (order p) key tt).
Definition fifo_on_delete (key : K) (p : FIFOPolicy) : FIFOPolicy :=
  mkFIFO (dict_pop (order p) key).
Definition fifo_evict_candidate (p : FIFOPolicy) : option K := dict_first (order p).
Definition fifo_clear (p : FIFOPolicy) : FIFOPolicy := mkFIFO [].
Definition fifo_metadata_size (p : FIFOPolicy) : Z := dict_len (order p).
Definition fifo_len (p : FIFOPolicy) : Z := dict_len (order p).

#[export] Instance fifo_policy : EvictionPolicy K FIFOPolicy := {|
  policy_name _ := "fifo";
  on_get := fifo_on_get;
  on_put := fifo_on_put;
  on_delete := fifo_on_delete;
  evict_candidate := fifo_evict_candidate;
  policy_clear := fifo_clear;
  metadata_size := fifo_metadata_size;
  policy_len := fifo_len;
|}.
End fifo.
Arguments FIFOPolicy : clear implicits.
End FIFO.

(** ** LRU *)

Module LRU.
Section lru.
Context {K : Type} `{EqDecision K}.

Record LRUPolicy : Type := mkLRU { order : dict K unit }.

Definition init : LRUPolicy := mkLRU [].
Definition lru_on_get (key : K) (p : LRUPolicy) : LRUPolicy :=
  if dict_mem (order p) key then mkLRU (dict_move_to_end (order p) key) else p.
Definition lru_on_put (key : K) (p : LRUPolicy) : LRUPolicy :=
  mkLRU (dict_move_to_end (dict_set (order p) key tt) key).
Definition lru_on_delete (key : K) (p : LRUPolicy) : LRUPolicy :=
  mkLRU (dict_pop (order p) key).
Definition lru_evict_candidate (p : LRUPolicy) : option K := dict_first (order p).
Definition lru_clear (p : LRUPolicy) : LRUPolicy := mkLRU [].
Definition lru_metadata_size (p : LRUPolicy) : Z := dict_len (order p).
Definition lru_len (p : LRUPolicy) : Z := dict_len (order p).

#[export] Instance lru_policy : EvictionPolicy K LRUPolicy := {|
  policy_name _ := "lru";
  on_get := lru_on_get;
  on_put := lru_on_put;
  on_delete := lru_on_delete;
  evict_candidate := lru_evict_candidate;
  policy_clear := lru_clear;
  metadata_size := lru_metadata_size;
  policy_len := lru_len;
|}.
End lru.
Arguments LRUPolicy : clear implicits.
End LRU.

(** ** LFU *)

Module LFU.
Section lfu.
Context {K : Type} `{EqDecision K}.

Record LFUPolicy : Type := mkLFU {
  key_to_freq : dict K Z;
  freq_to_keys : dict Z (dict K unit);
  min_freq : Z;
}.

Definition init : LFUPolicy := mkLFU [] [] 0.

(** [self._freq_to_keys[freq]] on a [defaultdict(OrderedDict)]: an absent bucket reads
    as empty (and every caller stores or deletes the bucket right after). *)
Definition bucket (b : dict Z (dict K unit)) (freq : Z) : dict K unit :=
  dict_get_default b freq [].

(** [min(self._freq_to_keys, default=0)] *)
Definition min_key (b : dict Z (dict K unit)) : Z :=
  match dict_keys b with
  | [] => 0
  | f :: fs => foldr Z.min f fs
  end.

(** [LFUPolicy._bump] for a key that is tracked. *)
Definition bump (key : K) (p : LFUPolicy) : LFUPolicy :=
  let old_freq := dict_get_default (key_to_freq p) key 0 in
  let old_bucket := dict_pop (bucket (freq_to_keys p) old_freq) key in
  let '(buckets, min_freq') :=
    match old_bucket with
    | [] => (dict_pop (freq_to_keys p) old_freq,
             if min_freq p =? old_freq then old_freq + 1 else min_freq p)
    | _ => (dict_set (freq_to_keys p) old_freq old_bucket, min_freq p)
    end in
  let new_freq := old_freq + 1 in
  mkLFU (dict_set (key_to_freq p) key new_freq)
        (dict_set buckets new_freq (dict_set (bucket buckets new_freq) key tt))
        min_freq'.

Definition lfu_on_get (key : K) (p : LFUPolicy) : LFUPolicy :=
  if dict_mem (key_to_freq p) key then bump key p else p.

Definition lfu_on_put (key : K) (p : LFUPolicy) : LFUPolicy :=
  if dict_mem (key_to_freq p) key then bump key p
  else mkLFU (dict_set (key_to_freq p) key 1)
             (dict_set (freq_to_keys p) 1 (dict_set (bucket (freq_to_keys p) 1) key tt))
             1.

Definition lfu_on_delete (key : K) (p : LFUPolicy) : LFUPolicy :=
  match dict_get (key_to_freq p) key with
  | None => p
  | Some freq =>
      let key_to_freq' := dict_pop (key_to_freq p) key in
      let bucket' := dict_pop (bucket (freq_to_keys p) freq) key in
      match bucket' with
      | [] =>
          let buckets := dict_pop (freq_to_keys p) freq in
          mkLFU key_to_freq' buckets
                (if min_freq p =? freq then min_key buckets else min_freq p)
      | _ => mkLFU key_to_freq' (dict_set (freq_to_keys p) freq bucket') (min_freq p)
      end
  end.

Definition lfu_evict_candidate (p : LFUPolicy) : option K :=
  if min_freq p =? 0 then None
  else match dict_get (freq_to_keys p) (min_freq p) with
       | None => None
       | Some b => dict_first b
       end.

Definition lfu_clear (p : LFUPolicy) : LFUPolicy := mkLFU [] [] 0.
Definition lfu_metadata_size (p : LFUPolicy) : Z :=
  dict_len (key_to_freq p) + py_sum (dict_len <$> dict_values (freq_to_keys p)).
Definition lfu_len (p : LFUPolicy) : Z := dict_len (key_to_freq p).

#[export] Instance lfu_policy : EvictionPolicy K LFUPolicy := {|
  policy_name _ := "lfu";
  on_get := lfu_on_get;
  on_put := lfu_on_put;
  on_delete := lfu_on_delete;
  evict_candidate := lfu_evict_candidate;
  policy_clear := lfu_clear;
  metadata_size := lfu_metadata_size;
  policy_len := lfu_len;
|}.
End lfu.
Arguments LFUPolicy : clear implicits.
End LFU.

Import FIFO LRU LFU.

(** ** [make_policy] *)

Inductive AnyPolicy (K : Type) : Type :=
  | AFifo (p : FIFOPolicy K)
  | ALru (p : LRUPolicy K)
  | ALfu (p : LFUPolicy K).
Arguments AFifo {_} _.
Arguments ALru {_} _.
Arguments ALfu {_} _.

Section any.
Context {K : Type} `{EqDecision K}.

Definition make_policy (name : string) : result (AnyPolicy K) :=
  let normalized := str_lower name in
  if String.eqb normalized "fifo" then Ok (AFifo FIFO.init)
  else if String.eqb normalized "lru" then Ok (ALru LRU.init)
  else if String.eqb normalized "lfu" then Ok (ALfu LFU.init)
  else Raise (ConfigurationError "unknown eviction policy").

(** Method calls dispatch on the policy object. *)
#[export] Instance any_policy : EvictionPolicy K (AnyPolicy K) := {|
  policy_name a :=
    match a with AFifo p => policy_name p | ALru p => policy_name p | ALfu p => policy_name p end;
  on_get k a :=
    match a with
    | AFifo p => AFifo (on_get k p) | ALru p => ALru (on_get k p) | ALfu p => ALfu (on_get k p)
    end;
  on_put k a :=
    match a with
    | AFifo p => AFifo (on_put k p) | ALru p => ALru (on_put k p) | ALfu p => ALfu (on_put k p)
    end;
  on_delete k a :=
    match a with
    | AFifo p => AFifo (on_delete k p) | ALru p => ALru (on_delete k p)
    | ALfu p => ALfu (on_delete k p)
    end;
  evict_candidate a :=
    match a with
    | AFifo p => evict_candidate p | ALru p => evict_candidate p | ALfu p => evict_candidate p
    end;
  policy_clear a :=
    match a with
    | AFifo p => AFifo (policy_clear p) | ALru p => ALru (policy_clear p)
    | ALfu p => ALfu (policy_clear p)
    end;
  metadata_size a :=
    match a with
    | AFifo p => metadata_size p | ALru p => metadata_size p | ALfu p => metadata_size p
    end;
  policy_len a :=
    match a with AFifo p => policy_len p | ALru p => policy_len p | ALfu p => policy_len p end;
|}.
End any.
