(* ===== verification/PolicyLaws.v ===== *)
(** What the cache relies on in an eviction policy, and that every policy provides it.

    [PolicyLaws] is the contract: a representation invariant, the list of tracked keys,
    and the effect of each method on them.  [keeps_new] marks the policies that further
    promise that a freshly inserted key is not the next victim while another key is
    tracked; FIFO and LRU give that promise, LFU does not ([lfu_may_evict_new_key]). *)

From stdpp Require Import base tactics numbers option strings sets list.
From S2P Require Import Prelude PyDict PyMonad Config Policies.
Import FIFO LRU LFU.
Local Open Scope Z_scope.

Class PolicyLaws (K P : Type) `{EvictionPolicy K P} : Type := {
  policy_wf : P → Prop;
  tracked : P → list K;
  tracked_nodup p : policy_wf p → NoDup (tracked p);
  on_get_wf k p : policy_wf p → policy_wf (on_get k p);
  on_get_tracked k p x : policy_wf p → x ∈ tracked (on_get k p) ↔ x ∈ tracked p;
  on_put_wf k p : policy_wf p → policy_wf (on_put k p);
  on_put_tracked k p x : policy_wf p → x ∈ tracked (on_put k p) ↔ x = k ∨ x ∈ tracked p;
  on_delete_wf k p : policy_wf p → policy_wf (on_delete k p);
  on_delete_tracked k p x : policy_wf p → x ∈ tracked (on_delete k p) ↔ x ≠ k ∧ x ∈ tracked p;
  candidate_some p k : policy_wf p → evict_candidate p = Some k → k ∈ tracked p;
  candidate_none p : policy_wf p → evict_candidate p = None → tracked p = [];
  clear_wf p : policy_wf (policy_clear p);
  clear_tracked p : tracked (policy_clear p) = [];
  policy_len_tracked p : policy_len p = Z.of_nat (length (tracked p));
  keeps_new : P → Prop;
  keeps_new_get k p : keeps_new p → keeps_new (on_get k p);
  keeps_new_put k p : keeps_new p → keeps_new (on_put k p);
  keeps_new_delete k p : keeps_new p → keeps_new (on_delete k p);
  keeps_new_clear p : keeps_new p → keeps_new (policy_clear p);
  keeps_new_candidate p k :
    keeps_new p → policy_wf p → k ∉ tracked p →
    evict_candidate (on_put k p) = Some k → tracked p = [];
}.

(** ** FIFO and LRU *)

Section order_policies.
Context {K : Type} `{EqDecision K}.

Lemma dict_first_some {A} (d : dict K A) k : dict_first d = Some k → ∃ ks, dict_keys d = k :: ks.
Proof. destruct d as [|[k' v] d]; simpl; [done|]. intros [= ->]. by eexists. Qed.

Lemma dict_first_none {A} (d : dict K A) : dict_first d = None → dict_keys d = [].
Proof. by destruct d as [|[k' v] d]. Qed.

(** In an order that appends [k] last, [k] comes first only when it is alone. *)
Lemma first_of_snoc (l : list K) k ks : l ++ [k] = k :: ks → k ∉ l → l = [].
Proof. destruct l as [|x l]; [done|]. intros [= -> _] Hk. set_solver. Qed.

#[export] Program Instance fifo_laws : PolicyLaws K (FIFOPolicy K) := {|
  policy_wf p := dict_wf (FIFO.order p);
  tracked p := dict_keys (FIFO.order p);
  keeps_new _ := True;
|}.
Next Obligation. done. Qed.
Next Obligation. done. Qed.
Next Obligation. done. Qed.
Next Obligation. intros k p Hp. simpl. unfold fifo_on_put. case_match; cache_auto. Qed.
Next Obligation.
  intros k p x Hp. simpl. unfold fifo_on_put. case_match eqn:E; simpl.
  - apply dict_mem_keys in E. naive_solver.
  - apply dict_keys_set_elem.
Qed.
Next Obligation. intros k p Hp. simpl. cache_auto. Qed.
Next Obligation. intros k p x Hp. apply dict_keys_pop_elem. Qed.
Next Obligation.
  intros p k Hp Hc. apply dict_first_some in Hc as [ks Hks]. simpl. rewrite Hks. set_solver.
Qed.
Next Obligation. intros p Hp Hc. by apply dict_first_none in Hc. Qed.
Next Obligation. intros p. apply dict_wf_empty. Qed.
Next Obligation. done. Qed.
Next Obligation. intros p. apply dict_len_keys. Qed.
Next Obligation. done. Qed.
Next Obligation. done. Qed.
Next Obligation. done. Qed.
Next Obligation. done. Qed.
Next Obligation.
  intros p k _ Hp Hk Hc. simpl in *. unfold fifo_on_put in Hc.
  assert (dict_mem (FIFO.order p) k = false) as E.
  { apply not_true_iff_false. by rewrite <- dict_mem_keys. }
  rewrite E in Hc. apply dict_first_some in Hc as [ks Hks]. simpl in Hks.
  rewrite dict_keys_set_notin in Hks by done. by apply first_of_snoc in Hks.
Qed.

(** After [on_put] the key is the most recent one. *)
Lemma lru_put_order (p : LRUPolicy K) k :
  dict_keys (LRU.order (lru_on_put k p)) = filter (λ x, x ≠ k) (dict_keys (LRU.order p)) ++ [k].
Proof.
  unfold lru_on_put. simpl. unfold dict_move_to_end. rewrite dict_get_set_eq.
  rewrite dict_keys_app, dict_keys_pop. f_equal.
  destruct (decide (k ∈ dict_keys (LRU.order p))).
  - by rewrite dict_keys_set_in.
  - rewrite dict_keys_set_notin by done. rewrite filter_app.
    rewrite (filter_cons_False _ k []) by naive_solver. apply app_nil_r.
Qed.

Lemma filter_ne_notin (l : list K) k : k ∉ l → filter (λ x, x ≠ k) l = l.
Proof.
  induction l as [|x l IH]; intros Hk; [done|].
  rewrite filter_cons_True by set_solver. f_equal. apply IH. set_solver.
Qed.

#[export] Program Instance lru_laws : PolicyLaws K (LRUPolicy K) := {|
  policy_wf p := dict_wf (LRU.order p);
  tracked p := dict_keys (LRU.order p);
  keeps_new _ := True;
|}.
Next Obligation. done. Qed.
Next Obligation. intros k p Hp. simpl. unfold lru_on_get. case_match; cache_auto. Qed.
Next Obligation.
  intros k p x Hp. simpl. unfold lru_on_get. case_match; [|done]. apply dict_keys_move_to_end_elem.
Qed.
Next Obligation. intros k p Hp. simpl. cache_auto. Qed.
Next Obligation.
  intros k p x Hp. simpl. rewrite dict_keys_move_to_end_elem. apply dict_keys_set_elem.
Qed.
Next Obligation. intros k p Hp. simpl. cache_auto. Qed.
Next Obligation. intros k p x Hp. apply dict_keys_pop_elem. Qed.
Next Obligation.
  intros p k Hp Hc. apply dict_first_some in Hc as [ks Hks]. simpl. rewrite Hks. set_solver.
Qed.
Next Obligation. intros p Hp Hc. by apply dict_first_none in Hc. Qed.
Next Obligation. intros p. apply dict_wf_empty. Qed.
Next Obligation. done. Qed.
Next Obligation. intros p. apply dict_len_keys. Qed.
Next Obligation. done. Qed.
Next Obligation. done. Qed.
Next Obligation. done. Qed.
Next Obligation. done. Qed.
Next Obligation.
  intros p k _ Hp Hk Hc. apply dict_first_some in Hc as [ks Hks]. simpl in *.
  pose proof (lru_put_order p k) as Ho. simpl in Ho. rewrite Ho, filter_ne_notin in Hks by done.
  by apply first_of_snoc in Hks.
Qed.
End order_policies.

(** ** LFU *)

Section lfu_laws.
Context {K : Type} `{EqDecision K}.
Implicit Types (p : LFUPolicy K) (b : dict Z (dict K unit)).

(** The buckets are dictionaries without duplicates and without empty buckets. *)
Definition buckets_ok b : Prop :=
  dict_wf b ∧ ∀ f d, dict_get b f = Some d → dict_wf d ∧ d ≠ [].

(** [m] is the least bucket, or zero when there is none. *)
Definition min_ok b (m : Z) : Prop :=
  (b = [] ∧ m = 0) ∨
  (is_Some (dict_get b m) ∧ ∀ f, is_Some (dict_get b f) → m ≤ f).

(** The two maps agree, and [min_freq] is the least bucket. *)
Record lfu_wf p : Prop := {
  lfu_wf_keys : dict_wf (key_to_freq p);
  lfu_wf_buckets : buckets_ok (freq_to_keys p);
  lfu_wf_agree k f :
    dict_get (key_to_freq p) k = Some f ↔ k ∈ dict_keys (bucket (freq_to_keys p) f);
  lfu_wf_pos k f : dict_get (key_to_freq p) k = Some f → 1 ≤ f;
  lfu_wf_min : min_ok (freq_to_keys p) (min_freq p);
}.

(** Removing a key from its bucket (and the bucket once empty), and adding one. *)
Definition drop_key b (f : Z) (k : K) : dict Z (dict K unit) :=
  match dict_pop (bucket b f) k with
  | [] => dict_pop b f
  | d => dict_set b f d
  end.
Definition add_key b (f : Z) (k : K) : dict Z (dict K unit) :=
  dict_set b f (dict_set (bucket b f) k tt).

Lemma dict_keys_nonempty {A} (d : dict K A) : d ≠ [] → ∃ k, k ∈ dict_keys d.
Proof. destruct d as [|[k v] d]; [done|]. intros _. exists k. set_solver. Qed.

Lemma dict_set_nonempty {A} (d : dict K A) k v : dict_set d k v ≠ [].
Proof. destruct d as [|[k' v'] d]; simpl; [done|]. by case_decide. Qed.

Lemma bucket_wf b f : buckets_ok b → dict_wf (bucket b f).
Proof.
  intros [_ Hb]. unfold bucket, dict_get_default. destruct (dict_get b f) eqn:E; [by eapply Hb|].
  apply dict_wf_empty.
Qed.

(** A bucket exists exactly when it holds a key. *)
Lemma bucket_exists b f :
  buckets_ok b → is_Some (dict_get b f) ↔ ∃ k, k ∈ dict_keys (bucket b f).
Proof.
  intros [_ Hb]. unfold bucket, dict_get_default. destruct (dict_get b f) as [d|] eqn:E.
  - split; [|eauto]. intros _. apply dict_keys_nonempty. by eapply Hb.
  - split; [by intros []|]. intros [k Hk]. by apply not_elem_of_nil in Hk.
Qed.

Lemma bucket_set b f d g :
  bucket (dict_set b f d) g = if decide (f = g) then d else bucket b g.
Proof. unfold bucket, dict_get_default. rewrite dict_get_set. by case_decide. Qed.

Lemma bucket_pop b f g : bucket (dict_pop b f) g = if decide (f = g) then [] else bucket b g.
Proof. unfold bucket, dict_get_default. rewrite dict_get_pop. by case_decide. Qed.

Lemma add_key_ok b f k : buckets_ok b → buckets_ok (add_key b f k).
Proof.
  intros Hb. pose proof (bucket_wf b f Hb). destruct Hb as [Hw Hd]. split; [by apply dict_wf_set|].
  intros g d. unfold add_key. rewrite dict_get_set. case_decide; [|by apply Hd].
  intros [= <-]. split; [by apply dict_wf_set|apply dict_set_nonempty].
Qed.

Lemma drop_key_ok b f k : buckets_ok b → buckets_ok (drop_key b f k).
Proof.
  intros Hb. pose proof (bucket_wf b f Hb) as Hbw. destruct Hb as [Hw Hd].
  pose proof (dict_wf_pop _ k Hbw) as Hp. unfold drop_key. destruct (dict_pop _ k) eqn:E.
  - split; [by apply dict_wf_pop|]. intros g d. rewrite dict_get_pop. case_decide; [done|by apply Hd].
  - split; [by apply dict_wf_set|]. intros g d'. rewrite dict_get_set.
    case_decide; [|by apply Hd]. by intros [= <-].
Qed.

Lemma drop_key_keys b f k g :
  dict_keys (bucket (drop_key b f k) g)
  = if decide (f = g) then filter (λ x, x ≠ k) (dict_keys (bucket b g)) else dict_keys (bucket b g).
Proof.
  unfold drop_key. destruct (dict_pop (bucket b f) k) eqn:E.
  - rewrite bucket_pop. case_decide; [|done]. subst. by rewrite <- dict_keys_pop, E.
  - rewrite bucket_set. case_decide; [|done]. subst. by rewrite <- dict_keys_pop, E.
Qed.

Lemma add_key_keys b f k g :
  k ∉ dict_keys (bucket b f) →
  dict_keys (bucket (add_key b f k) g)
  = if decide (f = g) then dict_keys (bucket b g) ++ [k] else dict_keys (bucket b g).
Proof.
  intros Hk. unfold add_key. rewrite bucket_set. case_decide; [|done]. subst.
  by apply dict_keys_set_notin.
Qed.

Lemma drop_key_elem b f k g x :
  x ∈ dict_keys (bucket (drop_key b f k) g) ↔ x ∈ dict_keys (bucket b g) ∧ ¬ (g = f ∧ x = k).
Proof.
  rewrite drop_key_keys. case_decide; [rewrite list_elem_of_filter|]; naive_solver.
Qed.

Lemma add_key_elem b f k g x :
  x ∈ dict_keys (bucket (add_key b f k) g) ↔ x ∈ dict_keys (bucket b g) ∨ (g = f ∧ x = k).
Proof.
  unfold add_key. rewrite bucket_set. case_decide; [rewrite dict_keys_set_elem|]; naive_solver.
Qed.

(** A bucket's frequency is at least one. *)
Lemma lfu_bucket_pos p f : lfu_wf p → is_Some (dict_get (freq_to_keys p) f) → 1 ≤ f.
Proof.
  intros [_ Hb Ha Hpos _] Hf. apply bucket_exists in Hf as [k Hk]; [|done]. by eapply Hpos, Ha.
Qed.

Lemma lfu_init_wf : lfu_wf (LFU.init (K:=K)).
Proof.
  split; simpl; try done; [apply dict_wf_empty| | |by left].
  - split; [apply dict_wf_empty|done].
  - intros k f. split; [done|]. by intros ?%not_elem_of_nil.
Qed.

Lemma foldr_min_le (f : Z) fs g : g ∈ f :: fs → foldr Z.min f fs ≤ g.
Proof.
  revert g. induction fs as [|x fs IH]; intros g Hg; simpl in *.
  - apply list_elem_of_singleton in Hg. lia.
  - assert (g = x ∨ g ∈ f :: fs) as [->|Hg'] by set_solver; [lia|]. specialize (IH _ Hg'). lia.
Qed.

Lemma foldr_min_elem (f : Z) fs : foldr Z.min f fs ∈ f :: fs.
Proof.
  induction fs as [|x fs IH]; simpl; [set_solver|].
  destruct (Z.min_spec x (foldr Z.min f fs)) as [[_ ->]|[_ ->]]; set_solver.
Qed.

(** [min(buckets, default=0)] satisfies the invariant of [min_freq]. *)
Lemma min_key_ok b : min_ok b (min_key b).
Proof.
  unfold min_ok. setoid_rewrite <- dict_keys_get. unfold min_key.
  destruct b as [|[f d] b]; [by left|right]. simpl. split.
  - apply foldr_min_elem.
  - apply foldr_min_le.
Qed.

(** ** The operations as bucket moves *)

Lemma drop_key_exists b f k g :
  buckets_ok b →
  is_Some (dict_get (drop_key b f k) g) ↔
  is_Some (dict_get b g) ∧ ¬ (g = f ∧ dict_pop (bucket b f) k = []).
Proof.
  intros Hb. unfold drop_key. destruct (dict_pop (bucket b f) k) as [|x d] eqn:E.
  - rewrite dict_get_pop. case_decide; naive_solver.
  - rewrite dict_get_set. case_decide; [|naive_solver]. subst.
    assert (is_Some (dict_get b g)) by
      (apply bucket_exists; [done|]; exists x.1; eapply dict_keys_pop_elem; rewrite E; set_solver).
    naive_solver.
Qed.

Lemma add_key_exists b f k g :
  is_Some (dict_get (add_key b f k) g) ↔ is_Some (dict_get b g) ∨ g = f.
Proof. unfold add_key. rewrite dict_get_set. case_decide; naive_solver. Qed.

(** The new [min_freq] of [_bump] and of [on_delete]. *)
Definition bump_min p (f : Z) (k : K) : Z :=
  match dict_pop (bucket (freq_to_keys p) f) k with
  | [] => if min_freq p =? f then f + 1 else min_freq p
  | _ => min_freq p
  end.
Definition delete_min p (f : Z) (k : K) : Z :=
  match dict_pop (bucket (freq_to_keys p) f) k with
  | [] => if min_freq p =? f then min_key (dict_pop (freq_to_keys p) f) else min_freq p
  | _ => min_freq p
  end.

Lemma bump_eq p k f :
  dict_get (key_to_freq p) k = Some f →
  bump k p = mkLFU (dict_set (key_to_freq p) k (f + 1))
                   (add_key (drop_key (freq_to_keys p) f k) (f + 1) k) (bump_min p f k).
Proof.
  intros Hk. unfold bump, bump_min, add_key, drop_key, dict_get_default. rewrite Hk.
  by destruct (dict_pop _ k).
Qed.

Lemma lfu_on_delete_eq p k f :
  dict_get (key_to_freq p) k = Some f →
  lfu_on_delete k p = mkLFU (dict_pop (key_to_freq p) k)
                            (drop_key (freq_to_keys p) f k) (delete_min p f k).
Proof.
  intros Hk. unfold lfu_on_delete, delete_min, drop_key. rewrite Hk. by destruct (dict_pop _ k).
Qed.

Lemma lfu_on_put_new_eq p k :
  dict_get (key_to_freq p) k = None →
  lfu_on_put k p = mkLFU (dict_set (key_to_freq p) k 1) (add_key (freq_to_keys p) 1 k) 1.
Proof. intros Hk. unfold lfu_on_put, dict_mem. by rewrite Hk. Qed.

Lemma bump_min_ok p k f :
  lfu_wf p → dict_get (key_to_freq p) k = Some f →
  min_ok (add_key (drop_key (freq_to_keys p) f k) (f + 1) k) (bump_min p f k).
Proof.
  intros Hwf Hk. pose proof (lfu_wf_buckets _ Hwf) as Hb.
  assert (is_Some (dict_get (freq_to_keys p) f)) as Hf.
  { apply bucket_exists; [done|]. exists k. by apply (lfu_wf_agree _ Hwf). }
  destruct (lfu_wf_min _ Hwf) as [[Hnil _]|[Hm Hle]]; [rewrite Hnil in Hf; by destruct Hf|].
  right. unfold bump_min. setoid_rewrite add_key_exists. setoid_rewrite drop_key_exists; [|done..].
  destruct (dict_pop _ k) eqn:E.
  - destruct (Z.eqb_spec (min_freq p) f) as [Heq|Hne].
    + split; [by right|]. intros g [[Hg Hgf]| ->]; [|lia].
      specialize (Hle g Hg). assert (g ≠ f) by naive_solver. lia.
    + split; [left; naive_solver|]. intros g [[Hg _]| ->]; [by apply Hle|].
      specialize (Hle f Hf). lia.
  - split; [left; naive_solver|]. intros g [[Hg _]| ->]; [by apply Hle|]. specialize (Hle f Hf). lia.
Qed.

Lemma delete_min_ok p k f :
  lfu_wf p → dict_get (key_to_freq p) k = Some f →
  min_ok (drop_key (freq_to_keys p) f k) (delete_min p f k).
Proof.
  intros Hwf Hk. pose proof (lfu_wf_buckets _ Hwf) as Hb.
  assert (is_Some (dict_get (freq_to_keys p) f)) as Hf.
  { apply bucket_exists; [done|]. exists k. by apply (lfu_wf_agree _ Hwf). }
  destruct (lfu_wf_min _ Hwf) as [[Hnil _]|[Hm Hle]]; [rewrite Hnil in Hf; by destruct Hf|].
  unfold delete_min. destruct (dict_pop _ k) eqn:E.
  - destruct (Z.eqb_spec (min_freq p) f) as [Heq|Hne].
    + unfold drop_key. rewrite E. apply min_key_ok.
    + right. setoid_rewrite drop_key_exists; [|done..]. rewrite E. naive_solver.
  - right. setoid_rewrite drop_key_exists; [|done..]. rewrite E. naive_solver.
Qed.

Lemma bump_wf p k : lfu_wf p → dict_mem (key_to_freq p) k = true → lfu_wf (bump k p).
Proof.
  unfold dict_mem. intros Hwf Hk. destruct (dict_get _ k) as [f|] eqn:E; [clear Hk|done].
  pose proof (lfu_wf_agree _ Hwf) as Ha. rewrite (bump_eq p k f E). split; simpl.
  - by apply dict_wf_set, lfu_wf_keys.
  - by apply add_key_ok, drop_key_ok, lfu_wf_buckets.
  - intros x g. rewrite dict_get_set, add_key_elem, drop_key_elem, <- Ha. case_decide; naive_solver.
  - intros x g. rewrite dict_get_set. pose proof (lfu_wf_pos _ Hwf) as Hpos.
    case_decide; [|apply Hpos]. intros [= <-]. specialize (Hpos _ _ E). lia.
  - by apply bump_min_ok.
Qed.

Lemma lfu_on_delete_wf p k : lfu_wf p → lfu_wf (lfu_on_delete k p).
Proof.
  intros Hwf. destruct (dict_get (key_to_freq p) k) as [f|] eqn:E.
  - pose proof (lfu_wf_agree _ Hwf) as Ha. rewrite (lfu_on_delete_eq p k f E). split; simpl.
    + by apply dict_wf_pop, lfu_wf_keys.
    + by apply drop_key_ok, lfu_wf_buckets.
    + intros x g. rewrite dict_get_pop, drop_key_elem, <- Ha. case_decide; naive_solver.
    + intros x g. rewrite dict_get_pop. case_decide; [done|apply (lfu_wf_pos _ Hwf)].
    + by apply delete_min_ok.
  - unfold lfu_on_delete. by rewrite E.
Qed.

Lemma lfu_on_put_wf p k : lfu_wf p → lfu_wf (lfu_on_put k p).
Proof.
  intros Hwf. destruct (dict_get (key_to_freq p) k) as [f|] eqn:E.
  - unfold lfu_on_put, dict_mem. rewrite E. apply bump_wf; [done|]. unfold dict_mem. by rewrite E.
  - pose proof (lfu_wf_agree _ Hwf) as Ha. rewrite lfu_on_put_new_eq by done. split; simpl.
    + by apply dict_wf_set, lfu_wf_keys.
    + by apply add_key_ok, lfu_wf_buckets.
    + intros x g. rewrite dict_get_set, add_key_elem, <- Ha. case_decide; naive_solver.
    + intros x g. rewrite dict_get_set. case_decide; [|apply (lfu_wf_pos _ Hwf)].
      intros [= <-]. lia.
    + right. setoid_rewrite add_key_exists. split; [by right|].
      intros g [Hg| ->]; [by eapply lfu_bucket_pos|lia].
Qed.

Lemma lfu_tracked_bump p k f x :
  dict_get (key_to_freq p) k = Some f →
  x ∈ dict_keys (key_to_freq (bump k p)) ↔ x ∈ dict_keys (key_to_freq p).
Proof.
  intros Hk. rewrite (bump_eq p k f Hk). simpl. rewrite dict_keys_set_elem.
  assert (k ∈ dict_keys (key_to_freq p)) by (apply dict_keys_get; eauto). naive_solver.
Qed.

#[export] Program Instance lfu_laws : PolicyLaws K (LFUPolicy K) := {|
  policy_wf p := lfu_wf p;
  tracked p := dict_keys (key_to_freq p);
  keeps_new _ := False;
|}.
Next Obligation. intros p Hp. apply (lfu_wf_keys _ Hp). Qed.
Next Obligation.
  intros k p Hp. simpl. unfold lfu_on_get. destruct (dict_mem _ _) eqn:E; [by apply bump_wf|done].
Qed.
Next Obligation.
  intros k p x Hp. simpl. unfold lfu_on_get, dict_mem. destruct (dict_get _ k) eqn:E; simpl; [|done].
  by eapply lfu_tracked_bump.
Qed.
Next Obligation. intros k p Hp. by apply lfu_on_put_wf. Qed.
Next Obligation.
  intros k p x Hp. simpl. unfold lfu_on_put, dict_mem. destruct (dict_get _ k) eqn:E; simpl.
  - rewrite lfu_tracked_bump by done.
    assert (k ∈ dict_keys (key_to_freq p)) by (apply dict_keys_get; eauto). naive_solver.
  - apply dict_keys_set_elem.
Qed.
Next Obligation. intros k p Hp. by apply lfu_on_delete_wf. Qed.
Next Obligation.
  intros k p x Hp. simpl. destruct (dict_get (key_to_freq p) k) as [f|] eqn:E.
  - rewrite (lfu_on_delete_eq p k f E). apply dict_keys_pop_elem.
  - unfold lfu_on_delete. rewrite E. apply dict_not_keys_get in E. naive_solver.
Qed.
Next Obligation.
  intros p k Hp Hc. simpl in *. unfold lfu_evict_candidate in Hc.
  destruct (_ =? 0); [done|]. destruct (dict_get _ _) as [b|] eqn:E; [|done].
  apply dict_first_some in Hc as [ks Hks]. apply dict_keys_get. exists (min_freq p).
  apply (lfu_wf_agree _ Hp). unfold bucket, dict_get_default. rewrite E, Hks. set_solver.
Qed.
Next Obligation.
  intros p Hp Hc. simpl in *. unfold lfu_evict_candidate in Hc.
  destruct (dict_keys (key_to_freq p)) as [|k ks] eqn:Hks; [done|]. exfalso.
  assert (k ∈ dict_keys (key_to_freq p)) as Hk by (rewrite Hks; set_solver).
  apply dict_keys_get in Hk as [f Hf].
  assert (is_Some (dict_get (freq_to_keys p) f)) as Hex.
  { apply bucket_exists; [apply (lfu_wf_buckets _ Hp)|]. exists k. by apply (lfu_wf_agree _ Hp). }
  destruct (lfu_wf_min _ Hp) as [[Hnil _]|[Hm _]]; [rewrite Hnil in Hex; by destruct Hex|].
  pose proof (lfu_bucket_pos _ _ Hp Hm). destruct (Z.eqb_spec (min_freq p) 0); [lia|].
  destruct Hm as [b Hb]. rewrite Hb in Hc. apply dict_first_none in Hc.
  destruct (lfu_wf_buckets _ Hp) as [_ Hbs]. destruct (Hbs _ _ Hb) as [_ Hne].
  by apply dict_keys_nonempty in Hne as [y Hy]; rewrite Hc in Hy; apply not_elem_of_nil in Hy.
Qed.
Next Obligation. intros p. apply lfu_init_wf. Qed.
Next Obligation. done. Qed.
Next Obligation. intros p. apply dict_len_keys. Qed.
Next Obligation. done. Qed.
Next Obligation. done. Qed.
Next Obligation. done. Qed.
Next Obligation. done. Qed.
Next Obligation. done. Qed.

(** ** Size of the bookkeeping *)

Lemma dict_len_fmap_keys {A} (l : list (dict K A)) :
  py_sum (dict_len <$> l) = Z.of_nat (length (mjoin (dict_keys <$> l))).
Proof.
  induction l as [|d l IH]; csimpl; [done|]. rewrite IH, length_app, dict_len_keys. lia.
Qed.

Lemma buckets_join_nodup (b : list (Z * dict K unit)) :
  NoDup (fst <$> b) →
  (∀ f d, (f, d) ∈ b → dict_wf d) →
  (∀ f g d d' k, (f, d) ∈ b → (g, d') ∈ b → k ∈ dict_keys d → k ∈ dict_keys d' → f = g) →
  NoDup (mjoin (dict_keys <$> (snd <$> b))).
Proof.
  induction b as [|[f d] b IH]; csimpl; intros Hnd Hwf Hdis; [by apply NoDup_nil_2|].
  apply NoDup_cons in Hnd as [Hf Hnd]. apply NoDup_app. split_conj.
  - apply (Hwf f d). set_solver.
  - intros k Hk Hin. apply list_elem_of_join in Hin as (ks & Hk' & Hin).
    apply list_elem_of_fmap in Hin as (d' & -> & ([g d''] & -> & Hin)%list_elem_of_fmap).
    assert (f = g) as -> by (eapply (Hdis f g d d'' k); set_solver).
    apply Hf, list_elem_of_fmap. by exists (g, d'').
  - apply IH; [done|intros f' d' Hin; apply (Hwf f'); set_solver|].
    intros f' g' d1 d2 k ????. eapply (Hdis f' g' d1 d2 k); set_solver.
Qed.

(** The buckets hold every tracked key exactly once. *)
Lemma lfu_metadata_tight p : lfu_wf p → lfu_metadata_size p = 2 * lfu_len p.
Proof.
  intros Hp. unfold lfu_metadata_size, lfu_len. rewrite dict_len_fmap_keys, dict_len_keys.
  destruct (lfu_wf_buckets _ Hp) as [Hw Hb]. pose proof (lfu_wf_agree _ Hp) as Ha.
  assert (∀ f d k, (f, d) ∈ freq_to_keys p → k ∈ dict_keys d → dict_get (key_to_freq p) k = Some f)
    as Hmem.
  { intros f d k Hin Hk. apply dict_wf_get_elem in Hin; [|done]. apply Ha.
    unfold bucket, dict_get_default. by rewrite Hin. }
  enough (mjoin (dict_keys <$> dict_values (freq_to_keys p)) ≡ₚ dict_keys (key_to_freq p)) as ->
    by lia.
  apply NoDup_Permutation; [|apply (lfu_wf_keys _ Hp)|].
  - apply buckets_join_nodup; [done| |].
    + intros f d Hin. eapply Hb. by apply dict_wf_get_elem.
    + intros f g d d' k H1 H2 Hk Hk'. pose proof (Hmem _ _ _ H1 Hk). pose proof (Hmem _ _ _ H2 Hk').
      congruence.
  - intros k. rewrite list_elem_of_join. split.
    + intros (ks & Hk & (d & -> & ([f d'] & -> & Hin)%list_elem_of_fmap)%list_elem_of_fmap).
      apply dict_keys_get. exists f. by eapply Hmem.
    + intros [f Hf]%dict_keys_get. apply Ha in Hf. unfold bucket, dict_get_default in Hf.
      destruct (dict_get (freq_to_keys p) f) as [d|] eqn:E; [|by apply not_elem_of_nil in Hf].
      exists (dict_keys d). split; [done|]. apply list_elem_of_fmap. exists d. split; [done|].
      apply list_elem_of_fmap. exists (f, d). split; [done|]. by apply dict_get_elem.
Qed.
End lfu_laws.

(** ** Any policy *)

Section any_laws.
Context {K : Type} `{EqDecision K}.

#[export] Program Instance any_laws : PolicyLaws K (AnyPolicy K) := {|
  policy_wf a :=
    match a with AFifo p => policy_wf p | ALru p => policy_wf p | ALfu p => policy_wf p end;
  tracked a :=
    match a with AFifo p => tracked p | ALru p => tracked p | ALfu p => tracked p end;
  keeps_new a :=
    match a with AFifo p => keeps_new p | ALru p => keeps_new p | ALfu p => keeps_new p end;
|}.
Next Obligation. intros [p|p|p]; exact (tracked_nodup p). Qed.
Next Obligation. intros k [p|p|p]; exact (on_get_wf k p). Qed.
Next Obligation. intros k [p|p|p]; exact (on_get_tracked k p). Qed.
Next Obligation. intros k [p|p|p]; exact (on_put_wf k p). Qed.
Next Obligation. intros k [p|p|p]; exact (on_put_tracked k p). Qed.
Next Obligation. intros k [p|p|p]; exact (on_delete_wf k p). Qed.
Next Obligation. intros k [p|p|p]; exact (on_delete_tracked k p). Qed.
Next Obligation. intros [p|p|p]; exact (candidate_some p). Qed.
Next Obligation. intros [p|p|p]; exact (candidate_none p). Qed.
Next Obligation. intros [p|p|p]; exact (clear_wf p). Qed.
Next Obligation. intros [p|p|p]; exact (clear_tracked p). Qed.
Next Obligation. intros [p|p|p]; exact (policy_len_tracked p). Qed.
Next Obligation. intros k [p|p|p]; exact (keeps_new_get k p). Qed.
Next Obligation. intros k [p|p|p]; exact (keeps_new_put k p). Qed.
Next Obligation. intros k [p|p|p]; exact (keeps_new_delete k p). Qed.
Next Obligation. intros [p|p|p]; exact (keeps_new_clear p). Qed.
Next Obligation. intros [p|p|p]; exact (keeps_new_candidate p). Qed.

Lemma make_policy_init name (a : AnyPolicy K) :
  make_policy name = Ok a → policy_wf a ∧ tracked a = [] ∧ (str_lower name ≠ "lfu"%string → keeps_new a).
Proof.
  unfold make_policy. destruct (String.eqb_spec (str_lower name) "fifo");
    [|destruct (String.eqb_spec (str_lower name) "lru");
      [|destruct (String.eqb_spec (str_lower name) "lfu")]]; intros [= <-]; simpl.
  - split_conj; [apply dict_wf_empty|done|done].
  - split_conj; [apply dict_wf_empty|done|done].
  - split_conj; [apply lfu_init_wf|done|done].
Qed.

Lemma make_policy_supported name :
  str_lower name ∈ SUPPORTED_POLICIES → ∃ a : AnyPolicy K, make_policy name = Ok a.
Proof.
  unfold make_policy, SUPPORTED_POLICIES. rewrite !elem_of_cons. intros Hn.
  destruct Hn as [->|[->|[->|Hn]]]; simpl; eauto. by apply not_elem_of_nil in Hn.
Qed.
End any_laws.
