(* ===== verification/PolicySpec.v ===== *)
(** The policies against one reference.

    The reference remembers, for every tracked key, when it was inserted, when it was
    used last and how often it was used, by counting every event.  Each policy is a
    cheap implementation of one selection rule over that history: FIFO evicts the key
    inserted first, LRU the key used longest ago, LFU the key used least often, ties
    going to the one used longest ago. *)

From stdpp Require Import base tactics numbers option strings sets list sorting.
From S2P Require Import Prelude PyDict PyMonad Config Policies PolicyLaws.
Import FIFO LRU LFU.
Local Open Scope Z_scope.

(** ** Events and the reference *)

Inductive policy_event (K : Type) : Type :=
  | EvGet (k : K)
  | EvPut (k : K)
  | EvDelete (k : K)
  | EvClear.
Arguments EvGet {_} _.
Arguments EvPut {_} _.
Arguments EvDelete {_} _.
Arguments EvClear {_}.

Definition policy_step {K P} `{EvictionPolicy K P} (p : P) (ev : policy_event K) : P :=
  match ev with
  | EvGet k => on_get k p
  | EvPut k => on_put k p
  | EvDelete k => on_delete k p
  | EvClear => policy_clear p
  end.
Definition policy_run {K P} `{EvictionPolicy K P} (p : P) (evs : list (policy_event K)) : P :=
  foldl policy_step p evs.

Record use_info : Type := mkUse { u_inserted : Z; u_last : Z; u_count : Z }.

Section reference.
Context {K : Type} `{EqDecision K}.

Record ref_policy : Type := mkRef { ref_time : Z; ref_info : dict K use_info }.

Definition ref_init : ref_policy := mkRef 0 [].

Definition ref_step (r : ref_policy) (ev : policy_event K) : ref_policy :=
  let t := ref_time r in
  let d := ref_info r in
  mkRef (t + 1)
    match ev with
    | EvGet k =>
        match dict_get d k with
        | Some i => dict_set d k (mkUse (u_inserted i) t (u_count i + 1))
        | None => d
        end
    | EvPut k =>
        match dict_get d k with
        | Some i => dict_set d k (mkUse (u_inserted i) t (u_count i + 1))
        | None => dict_set d k (mkUse t t 1)
        end
    | EvDelete k => dict_pop d k
    | EvClear => []
    end.
Definition ref_run (evs : list (policy_event K)) : ref_policy := foldl ref_step ref_init evs.

(** [c] is tracked and comes strictly before every other tracked key. *)
Definition victim (lt : use_info → use_info → Prop) (d : dict K use_info) (c : K) : Prop :=
  ∃ i, dict_get d c = Some i ∧ ∀ k j, dict_get d k = Some j → k ≠ c → lt i j.

Definition selects (lt : use_info → use_info → Prop) (o : option K) (d : dict K use_info) : Prop :=
  match o with
  | Some c => victim lt d c
  | None => d = []
  end.
End reference.

Definition fifo_lt (i j : use_info) : Prop := u_inserted i < u_inserted j.
Definition lru_lt (i j : use_info) : Prop := u_last i < u_last j.
Definition lfu_lt (i j : use_info) : Prop :=
  u_count i < u_count j ∨ (u_count i = u_count j ∧ u_last i < u_last j).

(** ** Sorted orders *)

Section sorted.
Context {A : Type} (R : relation A).

Lemma StronglySorted_filter (Q : A → Prop) `{∀ x, Decision (Q x)} l :
  StronglySorted R l → StronglySorted R (filter Q l).
Proof.
  induction 1 as [|x l Hl IH Hx]; [constructor|]. rewrite filter_cons. case_decide; [|done].
  constructor; [done|]. apply Forall_forall. intros y [_ Hy]%list_elem_of_filter.
  by eapply Forall_forall in Hx.
Qed.

Lemma StronglySorted_snoc l y :
  StronglySorted R l → (∀ x, x ∈ l → R x y) → StronglySorted R (l ++ [y]).
Proof.
  induction 1 as [|x l Hl IH Hx]; simpl; intros Hy.
  - constructor; [constructor|done].
  - constructor; [apply IH; set_solver|]. apply Forall_app. split; [done|].
    constructor; [apply Hy; set_solver|done].
Qed.

Lemma StronglySorted_impl (R' : relation A) l :
  StronglySorted R l → (∀ x y, x ∈ l → y ∈ l → R x y → R' x y) → StronglySorted R' l.
Proof.
  induction 1 as [|x l Hl IH Hx]; intros HR; constructor.
  - apply IH. intros; apply HR; set_solver.
  - apply Forall_forall. intros y Hy. apply HR; [set_solver..|]. by eapply Forall_forall in Hx.
Qed.
End sorted.

(** ** The invariant linking a policy to the reference *)

Section link.
Context {K : Type} `{EqDecision K}.
Implicit Types (r : ref_policy (K:=K)) (d : dict K use_info) (k x : K).

(** [k1] comes before [k2] in the order of the stamps [f]. *)
Definition before d (f : use_info → Z) : relation K := λ k1 k2,
  ∃ i1 i2, dict_get d k1 = Some i1 ∧ dict_get d k2 = Some i2 ∧ f i1 < f i2.

(** Every stamp lies in the past. *)
Definition past r : Prop :=
  ∀ k i, dict_get (ref_info r) k = Some i → u_inserted i < ref_time r ∧ u_last i < ref_time r.

Lemma past_init : past ref_init.
Proof. done. Qed.

Lemma past_step r ev : past r → past (ref_step r ev).
Proof.
  intros Hp k i. unfold ref_step. simpl. destruct ev as [k'|k'|k'|].
  - destruct (dict_get (ref_info r) k') as [j|] eqn:E.
    + rewrite dict_get_set. case_decide.
      * intros [= <-]. simpl. specialize (Hp _ _ E). lia.
      * intros Hi. specialize (Hp _ _ Hi). lia.
    + intros Hi. specialize (Hp _ _ Hi). lia.
  - destruct (dict_get (ref_info r) k') as [j|] eqn:E; rewrite dict_get_set; case_decide.
    + intros [= <-]. simpl. specialize (Hp _ _ E). lia.
    + intros Hi. specialize (Hp _ _ Hi). lia.
    + intros [= <-]. simpl. lia.
    + intros Hi. specialize (Hp _ _ Hi). lia.
  - rewrite dict_get_pop. case_decide; [done|]. intros Hi. specialize (Hp _ _ Hi). lia.
  - done.
Qed.

(** An order of exactly the tracked keys, sorted by [f]: its head is the victim. *)
Lemma sorted_selects d (f : use_info → Z) (l : list K) (o : dict K unit) :
  dict_keys o = l → (∀ k, k ∈ l ↔ is_Some (dict_get d k)) → StronglySorted (before d f) l →
  selects (λ i j, f i < f j) (dict_first o) d.
Proof.
  intros <- Hl Hs. destruct (dict_first o) as [c|] eqn:E; simpl.
  - apply dict_first_some in E as [ks Hks]. rewrite Hks in *.
    destruct (proj1 (Hl c) ltac:(set_solver)) as [i Hi]. exists i. split; [done|].
    intros k j Hk Hne. assert (k ∈ ks) as Hin.
    { assert (k ∈ c :: ks) by (apply Hl; eauto). set_solver. }
    apply StronglySorted_inv in Hs as [_ Hs]. rewrite Forall_forall in Hs.
    destruct (Hs k Hin) as (i1 & i2 & ? & ? & ?). congruence.
  - apply dict_first_none in E. rewrite E in Hl. destruct d as [|[k v] d]; [done|].
    exfalso. eapply not_elem_of_nil, Hl. simpl. rewrite decide_True by done. eauto.
Qed.

(** [before] survives updates that keep the stamps [f] of the keys in the list. *)
Lemma before_mono d d' f (l : list K) :
  (∀ k, k ∈ l → f <$> dict_get d' k = f <$> dict_get d k) →
  StronglySorted (before d f) l → StronglySorted (before d' f) l.
Proof.
  intros Heq Hs. eapply StronglySorted_impl; [done|].
  intros x y Hx Hy (i & j & Hi & Hj & Hlt). pose proof (Heq x Hx) as Ex. pose proof (Heq y Hy) as Ey.
  rewrite Hi in Ex. rewrite Hj in Ey. simpl in Ex, Ey.
  apply fmap_Some in Ex as (i' & ? & ?). apply fmap_Some in Ey as (j' & ? & ?).
  exists i', j'. split_conj; [done..|]. lia.
Qed.

(** Appending a key whose stamp is newer than all others. *)
Lemma before_snoc d f (l : list K) k i :
  dict_get d k = Some i → StronglySorted (before d f) l →
  (∀ x, x ∈ l → ∃ j, dict_get d x = Some j ∧ f j < f i) →
  StronglySorted (before d f) (l ++ [k]).
Proof.
  intros Hk Hs Hl. apply StronglySorted_snoc; [done|]. intros x Hx.
  destruct (Hl x Hx) as (j & ? & ?). exists j, i. done.
Qed.
End link.

(** ** FIFO and LRU *)

Section order_link.
Context {K : Type} `{EqDecision K}.
Implicit Types (r : ref_policy (K:=K)) (d : dict K use_info) (k x : K) (l : list K).

(** The list holds the tracked keys, sorted by the stamps [f]. *)
Record order_link (f : use_info → Z) d l : Prop := {
  ol_keys k : k ∈ l ↔ is_Some (dict_get d k);
  ol_sorted : StronglySorted (before d f) l;
}.

Lemma order_link_keep f d d' l :
  order_link f d l → (∀ k, f <$> dict_get d' k = f <$> dict_get d k) → order_link f d' l.
Proof.
  intros [Hk Hs] Heq. split.
  - intros k. rewrite Hk, <- (fmap_is_Some f (dict_get d k)), <- Heq. apply fmap_is_Some.
  - eapply before_mono; [|done]. auto.
Qed.

Lemma order_link_move f d l k i :
  order_link f d l → (∀ x j, dict_get d x = Some j → f j < f i) →
  order_link f (dict_set d k i) (filter (λ x, x ≠ k) l ++ [k]).
Proof.
  intros [Hk Hs] Hlt. split.
  - intros x. rewrite elem_of_app, list_elem_of_filter, list_elem_of_singleton, Hk, dict_get_set.
    case_decide; naive_solver.
  - eapply before_snoc; [apply dict_get_set_eq| |].
    + eapply before_mono; [|by apply StronglySorted_filter].
      intros x [Hx _]%list_elem_of_filter. by rewrite dict_get_set_ne.
    + intros x [Hx Hin]%list_elem_of_filter. apply Hk in Hin as [j Hj].
      exists j. rewrite dict_get_set_ne by done. split; [done|]. by eapply Hlt.
Qed.

Lemma order_link_delete f d l k :
  order_link f d l → order_link f (dict_pop d k) (filter (λ x, x ≠ k) l).
Proof.
  intros [Hk Hs]. split.
  - intros x. rewrite list_elem_of_filter, Hk, dict_get_pop. case_decide; naive_solver.
  - eapply before_mono; [|by apply StronglySorted_filter].
    intros x [Hx _]%list_elem_of_filter. by rewrite dict_get_pop_ne.
Qed.

Lemma order_link_nil f : order_link f ([] : dict K use_info) [].
Proof. split; [|constructor]. intros k. split; [by intros ?%not_elem_of_nil|by intros []]. Qed.

Lemma order_link_mem f d (o : dict K unit) k :
  order_link f d (dict_keys o) → dict_mem o k = is_not_none (dict_get d k).
Proof.
  intros [Hk _]. specialize (Hk k). rewrite dict_mem_keys in Hk. unfold dict_mem in *.
  destruct (dict_get d k); simpl; [by apply Hk|]. apply not_true_iff_false. rewrite Hk. by intros [].
Qed.

Lemma fifo_link_step r (p : FIFOPolicy K) ev :
  past r → order_link u_inserted (ref_info r) (dict_keys (FIFO.order p)) →
  order_link u_inserted (ref_info (ref_step r ev)) (dict_keys (FIFO.order (policy_step p ev))).
Proof.
  intros Hp Hl. destruct ev as [k|k|k|]; simpl.
  - destruct (dict_get _ k) as [i|] eqn:E; [|done]. eapply order_link_keep; [done|].
    intros x. rewrite dict_get_set. case_decide; [|done]. subst. by rewrite E.
  - unfold fifo_on_put. rewrite (order_link_mem _ _ _ k Hl).
    destruct (dict_get _ k) as [i|] eqn:E; simpl.
    + eapply order_link_keep; [done|]. intros x. rewrite dict_get_set. case_decide; [|done].
      subst. by rewrite E.
    + assert (k ∉ dict_keys (FIFO.order p)) as Hk.
      { rewrite (ol_keys _ _ _ Hl), E. by intros []. }
      rewrite dict_keys_set_notin by done. rewrite <- (filter_ne_notin _ k Hk) at 1.
      apply order_link_move; [done|]. intros x j Hx. simpl. by eapply Hp.
  - rewrite dict_keys_pop. by apply order_link_delete.
  - apply order_link_nil.
Qed.

(** Touching a key moves it to the recent end. *)
Lemma move_to_end_keys (o : dict K unit) k :
  dict_mem o k = true → dict_keys (dict_move_to_end o k) = filter (λ x, x ≠ k) (dict_keys o) ++ [k].
Proof.
  unfold dict_mem, dict_move_to_end. destruct (dict_get o k); [|done]. intros _.
  by rewrite dict_keys_app, dict_keys_pop.
Qed.

Lemma lru_link_step r (p : LRUPolicy K) ev :
  past r → order_link u_last (ref_info r) (dict_keys (LRU.order p)) →
  order_link u_last (ref_info (ref_step r ev)) (dict_keys (LRU.order (policy_step p ev))).
Proof.
  intros Hp Hl.
  assert (∀ (n c t : Z) x j, dict_get (ref_info r) x = Some j → t = ref_time r →
            u_last j < u_last (mkUse n t c)) as Hlt.
  { intros n c t x j Hj ->. by apply (Hp x j). }
  destruct ev as [k|k|k|]; simpl.
  - unfold lru_on_get. pose proof (order_link_mem _ _ _ k Hl) as Hm.
    destruct (dict_get _ k) as [i|] eqn:E; simpl in Hm; rewrite Hm; [|done]. simpl.
    rewrite move_to_end_keys by done. apply order_link_move; [done|eauto].
  - pose proof (lru_put_order p k) as Ho. simpl in Ho. rewrite Ho.
    destruct (dict_get _ k); apply order_link_move; eauto.
  - rewrite dict_keys_pop. by apply order_link_delete.
  - apply order_link_nil.
Qed.
End order_link.

(** ** LFU *)

Section lfu_link.
Context {K : Type} `{EqDecision K}.
Implicit Types (r : ref_policy (K:=K)) (d : dict K use_info) (k x : K) (p : LFUPolicy K).

(** A bucket lists the keys of its frequency by last use. *)
Record lfu_link d p : Prop := {
  ll_wf : lfu_wf p;
  ll_freq k : dict_get (key_to_freq p) k = u_count <$> dict_get d k;
  ll_sorted f : StronglySorted (before d u_last) (dict_keys (bucket (freq_to_keys p) f));
}.

Lemma bump_link d p k i (t : Z) :
  lfu_link d p → dict_get d k = Some i → (∀ x j, dict_get d x = Some j → u_last j < t) →
  lfu_link (dict_set d k (mkUse (u_inserted i) t (u_count i + 1))) (bump k p).
Proof.
  intros [Hwf Hf Hs] Hi Hlt. pose proof (Hf k) as Hfk. rewrite Hi in Hfk. simpl in Hfk.
  assert (∀ g x, x ∈ dict_keys (bucket (freq_to_keys p) g) → x = k → g = u_count i) as Huniq.
  { intros g x Hx ->. apply (lfu_wf_agree _ Hwf) in Hx. congruence. }
  split.
  - apply bump_wf; [done|]. unfold dict_mem. by rewrite Hfk.
  - intros x. rewrite (bump_eq p k _ Hfk). simpl. rewrite !dict_get_set. by case_decide.
  - intros g. rewrite (bump_eq p k _ Hfk). simpl.
    rewrite add_key_keys, drop_key_keys by (rewrite drop_key_elem; naive_solver lia).
    set (d' := dict_set d k _).
    assert (∀ l, StronglySorted (before d u_last) l → k ∉ l → StronglySorted (before d' u_last) l)
      as Hmono.
    { intros l Hl Hk. eapply before_mono; [|done]. intros x Hx. subst d'.
      rewrite dict_get_set_ne; [done|]. by intros ->. }
    destruct (decide (u_count i + 1 = g)) as [<-|Hne].
    + rewrite decide_False by lia.
      assert (k ∉ dict_keys (bucket (freq_to_keys p) (u_count i + 1))) as Hk.
      { intros Hx. specialize (Huniq _ _ Hx eq_refl). lia. }
      eapply before_snoc; [apply dict_get_set_eq|by apply Hmono|].
      intros x Hx. apply (lfu_wf_agree _ Hwf) in Hx as Hx'. rewrite Hf in Hx'.
      apply fmap_Some in Hx' as (j & Hj & _). exists j. split; [|by eapply Hlt].
      subst d'. rewrite dict_get_set_ne; [done|]. by intros ->.
    + case_decide as Hg.
      * apply Hmono; [by apply StronglySorted_filter|]. rewrite list_elem_of_filter. naive_solver.
      * apply Hmono; [done|]. intros Hx. by eapply Hg, eq_sym, Huniq.
Qed.

Lemma lfu_insert_link d p k (t : Z) :
  lfu_link d p → dict_get d k = None → (∀ x j, dict_get d x = Some j → u_last j < t) →
  lfu_link (dict_set d k (mkUse t t 1)) (lfu_on_put k p).
Proof.
  intros [Hwf Hf Hs] Hi Hlt. pose proof (Hf k) as Hfk. rewrite Hi in Hfk. simpl in Hfk.
  assert (∀ g, k ∉ dict_keys (bucket (freq_to_keys p) g)) as Hnew.
  { intros g Hx. apply (lfu_wf_agree _ Hwf) in Hx. congruence. }
  assert (∀ g, StronglySorted (before (dict_set d k (mkUse t t 1)) u_last)
                 (dict_keys (bucket (freq_to_keys p) g))) as Hmono.
  { intros g. eapply before_mono; [|done]. intros x Hx. rewrite dict_get_set_ne; [done|].
    intros ->. by eapply Hnew. }
  split.
  - by apply lfu_on_put_wf.
  - intros x. rewrite lfu_on_put_new_eq by done. simpl. rewrite !dict_get_set. by case_decide.
  - intros g. rewrite lfu_on_put_new_eq by done. simpl. rewrite add_key_keys by done.
    case_decide; [|done]. eapply before_snoc; [apply dict_get_set_eq|done|].
    intros x Hx. apply (lfu_wf_agree _ Hwf) in Hx as Hx'. rewrite Hf in Hx'.
    apply fmap_Some in Hx' as (j & Hj & _). exists j. split; [|by eapply Hlt].
    rewrite dict_get_set_ne; [done|]. intros ->. by eapply Hnew.
Qed.

Lemma lfu_delete_link d p k :
  lfu_link d p → lfu_link (dict_pop d k) (lfu_on_delete k p).
Proof.
  intros [Hwf Hf Hs]. pose proof (Hf k) as Hfk. split.
  - by apply lfu_on_delete_wf.
  - intros x. destruct (dict_get (key_to_freq p) k) as [f|] eqn:E.
    + rewrite (lfu_on_delete_eq p k f E). simpl. rewrite !dict_get_pop. by case_decide.
    + unfold lfu_on_delete. rewrite E, dict_get_pop. case_decide; [|done]. subst. done.
  - intros g.
    assert (∀ l, StronglySorted (before d u_last) l → k ∉ l →
              StronglySorted (before (dict_pop d k) u_last) l) as Hmono.
    { intros l Hl Hk. eapply before_mono; [|done]. intros x Hx.
      rewrite dict_get_pop_ne; [done|]. by intros ->. }
    destruct (dict_get (key_to_freq p) k) as [f|] eqn:E.
    + rewrite (lfu_on_delete_eq p k f E). simpl. rewrite drop_key_keys. case_decide.
      * apply Hmono; [by apply StronglySorted_filter|]. rewrite list_elem_of_filter. naive_solver.
      * apply Hmono; [done|]. intros Hx. apply (lfu_wf_agree _ Hwf) in Hx. congruence.
    + unfold lfu_on_delete. rewrite E. apply Hmono; [done|].
      intros Hx. apply (lfu_wf_agree _ Hwf) in Hx. congruence.
Qed.

Lemma lfu_link_step r p ev :
  past r → lfu_link (ref_info r) p → lfu_link (ref_info (ref_step r ev)) (policy_step p ev).
Proof.
  intros Hp Hl. assert (∀ x j, dict_get (ref_info r) x = Some j → u_last j < ref_time r) as Hlt.
  { intros x j Hj. by apply (Hp x j). }
  pose proof (ll_freq _ _ Hl) as Hf.
  destruct ev as [k|k|k|]; simpl.
  - unfold lfu_on_get, dict_mem. rewrite Hf.
    destruct (dict_get _ k) as [i|] eqn:E; simpl; [by apply bump_link|done].
  - destruct (dict_get (ref_info r) k) as [i|] eqn:E; [|by apply lfu_insert_link].
    unfold lfu_on_put, dict_mem. rewrite Hf, E. simpl. by apply bump_link.
  - by apply lfu_delete_link.
  - split; [apply lfu_init_wf|done|intros; constructor].
Qed.

Lemma lfu_link_selects d p : lfu_link d p → selects lfu_lt (lfu_evict_candidate p) d.
Proof.
  intros [Hwf Hf Hs]. destruct (lfu_evict_candidate p) as [c|] eqn:E.
  - unfold lfu_evict_candidate in E. destruct (_ =? 0); [done|].
    destruct (dict_get (freq_to_keys p) (min_freq p)) as [b|] eqn:Eb; [|done].
    apply dict_first_some in E as [ks Hks].
    assert (dict_keys (bucket (freq_to_keys p) (min_freq p)) = c :: ks) as Hmin.
    { unfold bucket, dict_get_default. by rewrite Eb. }
    assert (dict_get (key_to_freq p) c = Some (min_freq p)) as Hc.
    { apply (lfu_wf_agree _ Hwf). rewrite Hmin. set_solver. }
    rewrite Hf in Hc. apply fmap_Some in Hc as (i & Hi & Hci). exists i. split; [done|].
    intros k j Hk Hne. assert (dict_get (key_to_freq p) k = Some (u_count j)) as Hkf
      by by rewrite Hf, Hk.
    apply (lfu_wf_agree _ Hwf) in Hkf as Hkb.
    destruct (lfu_wf_min _ Hwf) as [[Hnil _]|[_ Hle]]; [by rewrite Hnil in Eb|].
    assert (min_freq p ≤ u_count j) as Hmj.
    { apply Hle, bucket_exists; [apply (lfu_wf_buckets _ Hwf)|eauto]. }
    unfold lfu_lt. destruct (decide (u_count i = u_count j)) as [Heq|]; [right|left; lia].
    split; [done|]. rewrite <- Heq, <- Hci, Hmin in Hkb.
    specialize (Hs (min_freq p)). rewrite Hmin in Hs. apply StronglySorted_inv in Hs as [_ Hs].
    rewrite Forall_forall in Hs. destruct (Hs k ltac:(set_solver)) as (i1 & i2 & ? & ? & ?). congruence.
  - pose proof (candidate_none p) as Hnone. specialize (Hnone Hwf E) as E'.
    simpl in *. destruct d as [|[k i] d]; [done|].
    exfalso. assert (k ∈ dict_keys (key_to_freq p)) as Hk.
    { apply dict_keys_get. rewrite Hf. simpl. rewrite decide_True by done. eauto. }
    rewrite E' in Hk. by apply not_elem_of_nil in Hk.
Qed.
End lfu_link.

(** ** Properties *)

Section theorems.
Context {K : Type} `{EqDecision K}.

(** A link preserved by every event holds after every run. *)
Lemma run_link {P} `{EvictionPolicy K P} (L : dict K use_info → P → Prop) (p0 : P) evs :
  L [] p0 → (∀ r p ev, past r → L (ref_info r) p → L (ref_info (ref_step r ev)) (policy_step p ev)) →
  L (ref_info (ref_run evs)) (policy_run p0 evs).
Proof.
  intros H0 Hstep.
  enough (past (ref_run evs) ∧ L (ref_info (ref_run evs)) (policy_run p0 evs)) by tauto.
  unfold ref_run, policy_run. induction evs as [|ev evs IH] using rev_ind; [by split|].
  destruct IH as [IHp IHl]. rewrite !foldl_app. simpl. split; [by apply past_step|by apply Hstep].
Qed.

(** FIFO refines the reference: after any sequence of policy events, the candidate
    [FIFOPolicy.evict_candidate] returns is the tracked key that was inserted first,
    and there is none exactly when nothing is tracked. *)
Theorem fifo_evicts_first_inserted (evs : list (policy_event K)) :
  selects fifo_lt (evict_candidate (policy_run FIFO.init evs)) (ref_info (ref_run evs)).
Proof.
  pose proof (run_link (λ d (p : FIFOPolicy K), order_link u_inserted d (dict_keys (FIFO.order p)))
                FIFO.init evs (order_link_nil _) fifo_link_step) as [Hk Hs].
  by eapply sorted_selects.
Qed.

(** LRU refines the reference: after any sequence of policy events, the candidate
    [LRUPolicy.evict_candidate] returns is the tracked key whose last read or write is
    the oldest, and there is none exactly when nothing is tracked. *)
Theorem lru_evicts_least_recently_used (evs : list (policy_event K)) :
  selects lru_lt (evict_candidate (policy_run LRU.init evs)) (ref_info (ref_run evs)).
Proof.
  pose proof (run_link (λ d (p : LRUPolicy K), order_link u_last d (dict_keys (LRU.order p)))
                LRU.init evs (order_link_nil _) lru_link_step) as [Hk Hs].
  by eapply sorted_selects.
Qed.

(** C33: the O(1) LFU with frequency buckets and a maintained minimum refines the
    reference: after any sequence of policy events, the candidate
    [LFUPolicy.evict_candidate] returns is the tracked key with the fewest uses since
    its insertion, and among those the one used longest ago; there is none exactly
    when nothing is tracked. *)
Theorem lfu_evicts_least_frequently_used (evs : list (policy_event K)) :
  selects lfu_lt (evict_candidate (policy_run LFU.init evs)) (ref_info (ref_run evs)).
Proof.
  apply lfu_link_selects. apply run_link; [|apply lfu_link_step].
  split; [apply lfu_init_wf|done|intros; constructor].
Qed.

(** After any sequence of policy events the LFU structure is tight: its two maps
    agree, no bucket is empty, [min_freq] is the least bucket, and the reported
    [metadata_size] is exactly twice the number of tracked keys. *)
Theorem lfu_structure_is_tight (evs : list (policy_event K)) :
  let p := policy_run (LFU.init (K:=K)) evs in
  lfu_wf p ∧ metadata_size p = 2 * policy_len p.
Proof.
  assert (lfu_wf (policy_run (LFU.init (K:=K)) evs)) as Hwf.
  { apply (ll_wf (ref_info (ref_run evs))). apply run_link; [|apply lfu_link_step].
    split; [apply lfu_init_wf|done|intros; constructor]. }
  split; [done|]. by apply lfu_metadata_tight.
Qed.
End theorems.

(** LFU does not protect a new key: with one key that was read once after its
    insertion, inserting a second key makes the second key itself the next victim. *)
Theorem lfu_may_evict_new_key :
  let p := policy_run LFU.init [EvPut 1; EvGet 1] in
  2 ∉ tracked p ∧ evict_candidate (on_put 2 p) = Some 2 ∧ tracked p = [1].
Proof. split_conj; [|vm_compute; reflexivity..]. vm_compute. set_solver. Qed.
