(* ===== verification/Storage.v ===== *)
(** Storage: src/cachelab/storage/memory.py (the entries of a shard) and
    src/cachelab/storage/slow_dict.py (the source of truth behind the cache). *)

From stdpp Require Import base tactics numbers option strings sets list.
From S2P Require Import Prelude PyDict PyFloat PyMonad Entry.
Local Open Scope string_scope.
Local Open Scope list_scope.
Local Open Scope Z_scope.

(** Python's [None] among the values a cache may hold. *)
Class PyNone (V : Type) : Type := py_none : V.

(** ** InMemoryBackend *)

Section memory.
Context {K V : Type} `{EqDecision K}.

Definition InMemoryBackend : Type := dict K (CacheEntry K V).

Definition get_entry (b : InMemoryBackend) (key : K) : option (CacheEntry K V) := dict_get b key.
Definition put_entry (b : InMemoryBackend) (entry : CacheEntry K V) : InMemoryBackend :=
  dict_set b (e_key entry) entry.
Definition delete_entry (b : InMemoryBackend) (key : K) : InMemoryBackend * bool :=
  (dict_pop b key, is_not_none (dict_get b key)).
Definition backend_clear (b : InMemoryBackend) : InMemoryBackend := [].
Definition backend_contains (b : InMemoryBackend) (key : K) : bool := dict_mem b key.
Definition backend_size (b : InMemoryBackend) : Z := dict_len b.
Definition backend_keys (b : InMemoryBackend) : list K := dict_keys b.
Definition backend_entries (b : InMemoryBackend) : list (CacheEntry K V) := dict_values b.

(** An in-place mutation of the entry stored under [key]. *)
Definition update_entry (b : InMemoryBackend) (key : K)
    (f : CacheEntry K V → CacheEntry K V) : InMemoryBackend :=
  match dict_get b key with
  | Some e => dict_set b key (f e)
  | None => b
  end.

(** Every entry is stored under its own key. *)
Definition backend_wf (b : InMemoryBackend) : Prop :=
  dict_wf b ∧ ∀ k e, dict_get b k = Some e → e_key e = k.

Lemma update_entry_get b key f k :
  dict_get (update_entry b key f) k
  = if decide (key = k) then f <$> dict_get b k else dict_get b k.
Proof.
  unfold update_entry. destruct (dict_get b key) as [e|] eqn:E.
  - rewrite dict_get_set. case_decide; [|done]. subst. by rewrite E.
  - case_decide; [|done]. subst. by rewrite E.
Qed.

Lemma update_entry_keys b key f : dict_keys (update_entry b key f) = dict_keys b.
Proof.
  unfold update_entry. destruct (dict_get b key) as [e|] eqn:E; [|done].
  apply dict_keys_set_in, dict_keys_get. eauto.
Qed.

Lemma update_entry_len b key f : dict_len (update_entry b key f) = dict_len b.
Proof. by rewrite !dict_len_keys, update_entry_keys. Qed.

Lemma put_entry_wf b e : backend_wf b → backend_wf (put_entry b e).
Proof.
  intros [Hw Hk]. split; [by apply dict_wf_set|]. intros k e'. unfold put_entry.
  rewrite dict_get_set. case_decide; [|apply Hk]. by intros [= <-].
Qed.

Lemma dict_pop_backend_wf (b : InMemoryBackend) k : backend_wf b → backend_wf (dict_pop b k).
Proof.
  intros [Hw Hk]. split; [by apply dict_wf_pop|]. intros k' e. rewrite dict_get_pop.
  case_decide; [done|apply Hk].
Qed.

Lemma update_entry_wf b key f :
  (∀ e, e_key (f e) = e_key e) → backend_wf b → backend_wf (update_entry b key f).
Proof.
  intros Hf [Hw Hk]. split; [unfold dict_wf; by rewrite update_entry_keys|].
  intros k e. rewrite update_entry_get. case_decide; [|apply Hk].
  intros (e' & He' & ->)%fmap_Some. rewrite Hf. by apply Hk.
Qed.
End memory.
Arguments InMemoryBackend : clear implicits.
#[export] Hint Resolve put_entry_wf dict_pop_backend_wf update_entry_wf : cachedb.

(** ** SlowDictBackend *)

Record SlowDictBackend (K V : Type) : Type := mkSlowDict {
  sd_delay : float;
  sd_clock : FakeClock;
  sd_data : dict K V;
  sd_failures_remaining : Z;
}.
Arguments mkSlowDict {_ _} _ _ _ _.
Arguments sd_delay {_ _} _.
Arguments sd_clock {_ _} _.
Arguments sd_data {_ _} _.
Arguments sd_failures_remaining {_ _} _.

Section slow_dict.
Context {K V : Type} `{EqDecision K} `{PyNone V}.

Definition slow_dict_init (delay : float) (clock : FakeClock) : SlowDictBackend K V :=
  mkSlowDict delay clock [] 0.

Definition sd_set_data (f : dict K V → dict K V) (s : SlowDictBackend K V) : SlowDictBackend K V :=
  mkSlowDict (sd_delay s) (sd_clock s) (f (sd_data s)) (sd_failures_remaining s).
Definition sd_set_clock (c : FakeClock) (s : SlowDictBackend K V) : SlowDictBackend K V :=
  mkSlowDict (sd_delay s) c (sd_data s) (sd_failures_remaining s).
Definition sd_set_failures (n : Z) (s : SlowDictBackend K V) : SlowDictBackend K V :=
  mkSlowDict (sd_delay s) (sd_clock s) (sd_data s) n.

(** [SlowDictBackend.fail_next] *)
Definition fail_next (count : Z) : M (SlowDictBackend K V) unit :=
  modify (λ s, sd_set_failures (sd_failures_remaining s + count) s).

(** [SlowDictBackend._maybe_delay_and_fail] *)
Definition maybe_delay_and_fail (delay_only : bool) : M (SlowDictBackend K V) unit :=
  s ← get_state;
  (if flt fzero (sd_delay s)
   then modify (sd_set_clock (clock_sleep (sd_clock s) (sd_delay s)))
   else mret tt) ;;
  if delay_only then mret tt
  else
    s' ← get_state;
    if 0 <? sd_failures_remaining s'
    then modify (sd_set_failures (sd_failures_remaining s' - 1)) ;;
         raise (OSError "injected SlowDictBackend failure")
    else mret tt.

Definition put_value (key : K) (value : V) : M (SlowDictBackend K V) unit :=
  maybe_delay_and_fail false ;; modify (sd_set_data (λ d, dict_set d key value)).

Definition delete_value (key : K) : M (SlowDictBackend K V) unit :=
  maybe_delay_and_fail false ;; modify (sd_set_data (λ d, dict_pop d key)).

Definition get_value (key : K) : M (SlowDictBackend K V) V :=
  maybe_delay_and_fail true ;;
  s ← get_state;
  mret (dict_get_default (sd_data s) key py_none).

Definition source_snapshot (s : SlowDictBackend K V) : dict K V := sd_data s.

(** What a write does: it fails and leaves the data alone while failures are injected,
    and otherwise applies the update to the data. *)
Lemma source_write_spec (f : dict K V → dict K V) (s : SlowDictBackend K V) :
  let '(s', r) := (maybe_delay_and_fail false ;; modify (sd_set_data f)) s in
  (0 < sd_failures_remaining s ∧ r = Raise (OSError "injected SlowDictBackend failure") ∧
   sd_data s' = sd_data s ∧ sd_failures_remaining s' = sd_failures_remaining s - 1) ∨
  (sd_failures_remaining s ≤ 0 ∧ r = Ok tt ∧
   sd_data s' = f (sd_data s) ∧ sd_failures_remaining s' = sd_failures_remaining s).
Proof.
  unfold maybe_delay_and_fail, mbind, M_bind, get_state, modify, raise, mret, M_ret. simpl.
  destruct (flt fzero (sd_delay s)); simpl;
    destruct (Z.ltb_spec 0 (sd_failures_remaining s)); simpl; [left|right|left|right]; done.
Qed.
End slow_dict.
