(* ===== verification/Backends.v ===== *)
(** The interface of storage backends, src/cachelab/storage/base.py.

    [StorageBackend] has the methods of the abstract class; [StorageLaws] says what the cache relies on.  The client
    side is any sequence of calls: a lawful backend answers it as a partial function from keys to entries does,
    and [InMemoryBackend] is lawful. *)

From stdpp Require Import base tactics numbers option strings sets list.
From S2P Require Import Prelude PyDict PyFloat PyMonad Entry Storage.
Local Open Scope list_scope.
Local Open Scope Z_scope.

(** [StorageBackend] *)
Class StorageBackend (K V B : Type) : Type := {
  sb_get_entry : B → K → option (CacheEntry K V);
  sb_put_entry : B → CacheEntry K V → B;
  sb_delete_entry : B → K → B * bool;
  sb_clear : B → B;
  sb_contains : B → K → bool;
  sb_size : B → Z;
  sb_keys : B → list K;
  sb_entries : B → list (CacheEntry K V);
}.

Class StorageLaws (K V B : Type) `{EqDecision K} `{!StorageBackend K V B} : Type := {
  sb_ok : B → Prop;
  sb_put_ok b e : sb_ok b → sb_ok (sb_put_entry b e);
  sb_delete_ok b k : sb_ok b → sb_ok (sb_delete_entry b k).1;
  sb_clear_ok b : sb_ok b → sb_ok (sb_clear b);
  sb_get_put b e k : sb_get_entry (sb_put_entry b e) k = if decide (e_key e = k) then Some e else sb_get_entry b k;
  sb_get_delete b k k' :
    sb_get_entry (sb_delete_entry b k).1 k' = if decide (k = k') then None else sb_get_entry b k';
  sb_delete_found b k : (sb_delete_entry b k).2 = is_not_none (sb_get_entry b k);
  sb_get_clear b k : sb_get_entry (sb_clear b) k = None;
  sb_contains_get b k : sb_contains b k = is_not_none (sb_get_entry b k);
  sb_size_keys b : sb_size b = Z.of_nat (length (sb_keys b));
  sb_keys_nodup b : sb_ok b → NoDup (sb_keys b);
  sb_keys_get b k : k ∈ sb_keys b ↔ is_Some (sb_get_entry b k);
  sb_entries_keys b : sb_ok b → e_key <$> sb_entries b = sb_keys b;
  sb_entries_get b e : sb_ok b → e ∈ sb_entries b → sb_get_entry b (e_key e) = Some e;
}.

(** [InMemoryBackend(StorageBackend)] *)
#[export] Instance memory_backend {K V} `{EqDecision K} : StorageBackend K V (InMemoryBackend K V) := {|
  sb_get_entry := get_entry;
  sb_put_entry := put_entry;
  sb_delete_entry := delete_entry;
  sb_clear := backend_clear;
  sb_contains := backend_contains;
  sb_size := backend_size;
  sb_keys := backend_keys;
  sb_entries := backend_entries;
|}.

Lemma backend_entries_keys {K V} `{EqDecision K} (b : InMemoryBackend K V) :
  backend_wf b → e_key <$> backend_entries b = backend_keys b.
Proof.
  intros [Hw Hk]. unfold backend_entries, backend_keys, dict_values, dict_keys.
  assert (∀ k e, (k, e) ∈ b → e_key e = k) as He by (intros k e Hin; by apply Hk, (dict_wf_get_elem _ _ _ Hw)).
  clear Hw Hk. induction b as [|[k e] b IH]; [done|]. cbn [map fmap list_fmap fst snd].
  f_equal; [apply He, list_elem_of_here|]. apply IH. intros k' e' Hin. by apply He, list_elem_of_further.
Qed.

#[export] Instance memory_laws {K V} `{EqDecision K} : StorageLaws K V (InMemoryBackend K V).
Proof.
  refine {| sb_ok := backend_wf |}; cbn.
  - intros b e. apply put_entry_wf.
  - intros b k. apply dict_pop_backend_wf.
  - intros b _. split; [apply dict_wf_empty|done].
  - intros b e k. apply dict_get_set.
  - intros b k k'. apply dict_get_pop.
  - done.
  - done.
  - done.
  - intros b. apply dict_len_keys.
  - intros b [Hw _]. exact Hw.
  - intros b k. apply dict_keys_get.
  - apply backend_entries_keys.
  - intros b e [Hw Hk] (k & Hg)%(dict_values_elem b e Hw). unfold get_entry. by rewrite (Hk k e Hg).
Defined.

(** ** Clients *)

Inductive backend_call (K V : Type) : Type :=
  | CallGet (key : K)
  | CallPut (entry : CacheEntry K V)
  | CallDelete (key : K)
  | CallClear
  | CallContains (key : K).
Arguments CallGet {_ _} _.
Arguments CallPut {_ _} _.
Arguments CallDelete {_ _} _.
Arguments CallClear {_ _}.
Arguments CallContains {_ _} _.

(** What a call answers: an entry, or whether the key was there. *)
Definition answer (K V : Type) : Type := option (CacheEntry K V) + bool.

Section clients.
Context {K V B : Type} `{EqDecision K} `{!StorageBackend K V B}.
Implicit Types (b : B) (m : K → option (CacheEntry K V)).

Definition backend_run (call : backend_call K V) b : B * answer K V :=
  match call with
  | CallGet key => (b, inl (sb_get_entry b key))
  | CallPut entry => (sb_put_entry b entry, inl None)
  | CallDelete key => let '(b', found) := sb_delete_entry b key in (b', inr found)
  | CallClear => (sb_clear b, inl None)
  | CallContains key => (b, inr (sb_contains b key))
  end.
Fixpoint backend_runs (calls : list (backend_call K V)) b : B * list (answer K V) :=
  match calls with
  | [] => (b, [])
  | call :: calls' =>
      let '(b1, a) := backend_run call b in
      let '(b2, answers) := backend_runs calls' b1 in (b2, a :: answers)
  end.

(** The same on a partial function. *)
Definition map_run (call : backend_call K V) m : (K → option (CacheEntry K V)) * answer K V :=
  match call with
  | CallGet key => (m, inl (m key))
  | CallPut entry => (λ k, if decide (e_key entry = k) then Some entry else m k, inl None)
  | CallDelete key => (λ k, if decide (key = k) then None else m k, inr (is_not_none (m key)))
  | CallClear => (λ _, None, inl None)
  | CallContains key => (m, inr (is_not_none (m key)))
  end.
Fixpoint map_runs (calls : list (backend_call K V)) m : (K → option (CacheEntry K V)) * list (answer K V) :=
  match calls with
  | [] => (m, [])
  | call :: calls' =>
      let '(m1, a) := map_run call m in
      let '(m2, answers) := map_runs calls' m1 in (m2, a :: answers)
  end.

Context `{!StorageLaws K V B}.

Definition represents b m : Prop := sb_ok b ∧ ∀ k, sb_get_entry b k = m k.

Lemma backend_run_represents call b m :
  represents b m → represents (backend_run call b).1 (map_run call m).1 ∧ (backend_run call b).2 = (map_run call m).2.
Proof.
  intros [Hok Hg]. destruct call as [key|e|key| |key]; cbn [backend_run map_run fst snd].
  - split; [done|]. by rewrite Hg.
  - split; [split; [by apply sb_put_ok|]|done]. intros k. by rewrite sb_get_put, Hg.
  - pose proof (sb_delete_ok b key Hok) as Hd. pose proof (sb_get_delete b key) as Hgd.
    pose proof (sb_delete_found b key) as Hf. destruct (sb_delete_entry b key) as [b' found]. cbn [fst snd] in *.
    split; [split; [done|]; intros k; by rewrite Hgd, Hg|]. by rewrite Hf, Hg.
  - split; [split; [by apply sb_clear_ok|]|done]. intros k. apply sb_get_clear.
  - split; [done|]. by rewrite sb_contains_get, Hg.
Qed.
Lemma backend_runs_represents calls b m :
  represents b m →
  represents (backend_runs calls b).1 (map_runs calls m).1 ∧ (backend_runs calls b).2 = (map_runs calls m).2.
Proof.
  revert b m. induction calls as [|call calls IH]; intros b m Hr; [done|]. cbn [backend_runs map_runs].
  destruct (backend_run_represents call b m Hr) as [Hr1 Ha].
  destruct (backend_run call b) as [b1 a1], (map_run call m) as [m1 a2]. cbn [fst snd] in *. subst a2.
  destruct (IH b1 m1 Hr1) as [Hr2 Ha2]. destruct (backend_runs calls b1), (map_runs calls m1). cbn [fst snd] in *.
  split; [done|by f_equal].
Qed.

Lemma lawful_entries b e : sb_ok b → e ∈ sb_entries b ↔ sb_get_entry b (e_key e) = Some e.
Proof.
  intros Hok. split; [by apply sb_entries_get|]. intros Hg.
  assert (e_key e ∈ sb_keys b) as Hin by (apply sb_keys_get; by eexists).
  rewrite <- (sb_entries_keys b Hok) in Hin. apply list_elem_of_fmap in Hin as (e' & Hk & Hin).
  pose proof (sb_entries_get b e' Hok Hin) as Hg'. rewrite <- Hk, Hg in Hg'. by injection Hg' as ->.
Qed.
End clients.

(** ** The memory backend *)

(** The keys that are stored after a sequence of calls, in the order in which they came to be stored. *)
Definition stored_order {K V} `{EqDecision K} (order : list K) (call : backend_call K V) : list K :=
  match call with
  | CallPut entry => if decide (e_key entry ∈ order) then order else order ++ [e_key entry]
  | CallDelete key => filter (λ k, k ≠ key) order
  | CallClear => []
  | CallGet _ | CallContains _ => order
  end.

Section memory.
Context {K V : Type} `{EqDecision K}.
Implicit Types (b : InMemoryBackend K V) (calls : list (backend_call K V)).

Lemma memory_order call b : backend_keys (backend_run call b).1 = stored_order (backend_keys b) call.
Proof.
  unfold backend_keys. destruct call as [key|e|key| |key]; try done; cbn.
  - unfold put_entry. case_decide; [by apply dict_keys_set_in|by apply dict_keys_set_notin].
  - apply dict_keys_pop.
Qed.
Lemma memory_orders calls b : backend_keys (backend_runs calls b).1 = foldl stored_order (backend_keys b) calls.
Proof.
  revert b. induction calls as [|call calls IH]; intros b; [done|]. cbn [backend_runs foldl].
  rewrite <- memory_order. destruct (backend_run call b) as [b1 a]. specialize (IH b1).
  by destruct (backend_runs calls b1).
Qed.
Lemma memory_entries b : backend_wf b → backend_entries b = omap (get_entry b) (backend_keys b).
Proof.
  intros [Hw _]. unfold backend_entries, backend_keys, get_entry.
  assert (∀ d : InMemoryBackend K V, (∀ k e, (k, e) ∈ d → dict_get b k = Some e) →
    dict_values d = omap (dict_get b) (dict_keys d)) as Hd.
  { induction d as [|[k e] d IH]; intros Hin; [done|]. cbn. rewrite (Hin k e) by apply list_elem_of_here. f_equal.
    apply IH. intros k' e' ?. by apply Hin, list_elem_of_further. }
  apply Hd. intros k e. by apply dict_wf_get_elem.
Qed.
End memory.

(** ** Properties *)

(** A storage backend is a finite map.  Any two backends that obey the laws of the interface, in any two states that
    hold the same entries, answer every sequence of calls alike, and afterwards they again hold the same entries, of the
    same number, and enumerate the same keys and the same entries up to the order; each entry once and under its own key. *)
Theorem lawful_backends_agree {K V B1 B2} `{EqDecision K} `{!StorageBackend K V B1, !StorageBackend K V B2}
    `{!StorageLaws K V B1, !StorageLaws K V B2} (calls : list (backend_call K V)) (b1 : B1) (b2 : B2) :
  sb_ok b1 → sb_ok b2 → (∀ k, sb_get_entry b1 k = sb_get_entry b2 k) →
  let '(b1', answers1) := backend_runs calls b1 in
  let '(b2', answers2) := backend_runs calls b2 in
  answers1 = answers2 ∧ (∀ k, sb_get_entry b1' k = sb_get_entry b2' k) ∧ sb_size b1' = sb_size b2' ∧
  sb_keys b1' ≡ₚ sb_keys b2' ∧ sb_entries b1' ≡ₚ sb_entries b2' ∧
  NoDup (sb_keys b1') ∧ e_key <$> sb_entries b1' = sb_keys b1'.
Proof.
  intros H1 H2 Hg.
  destruct (backend_runs_represents calls b1 (sb_get_entry b2) (conj H1 Hg)) as [[Hok1 Hg1] Ha1].
  destruct (backend_runs_represents calls b2 (sb_get_entry b2) (conj H2 (λ _, eq_refl))) as [[Hok2 Hg2] Ha2].
  destruct (backend_runs calls b1) as [b1' a1], (backend_runs calls b2) as [b2' a2]. cbn [fst snd] in *.
  assert (∀ k, sb_get_entry b1' k = sb_get_entry b2' k) as Hsame by (intros k; by rewrite Hg1, Hg2).
  assert (sb_keys b1' ≡ₚ sb_keys b2') as Hkeys.
  { apply NoDup_Permutation; [by apply sb_keys_nodup..|]. intros k. by rewrite !sb_keys_get, Hsame. }
  split_conj; [congruence|done|by rewrite !sb_size_keys, Hkeys|done| |by apply sb_keys_nodup|by apply sb_entries_keys].
  apply NoDup_Permutation.
  - apply (NoDup_fmap_1 e_key). rewrite sb_entries_keys by done. by apply sb_keys_nodup.
  - apply (NoDup_fmap_1 e_key). rewrite sb_entries_keys by done. by apply sb_keys_nodup.
  - intros e. by rewrite !lawful_entries, Hsame.
Qed.

(** Two memory backends that were filled in different orders. *)
Lemma lawful_backends_agree_witness :
  let e k : CacheEntry Z Z := mkCacheEntry k (10 * k) fzero fzero 0 None None 1 false in
  let b1 := put_entry (put_entry [] (e 1)) (e 2) in
  let b2 := put_entry (put_entry [] (e 2)) (e 1) in
  let calls := [CallDelete 1; CallGet 1; CallPut (e 3); CallContains 2; CallDelete 7] in
  (backend_runs calls b1).2 = (backend_runs calls b2).2 ∧
  (backend_runs calls b1).2 = [inr true; inl None; inl None; inr true; inr false].
Proof.
  intros e b1 b2 calls. split; [|vm_compute; reflexivity].
  pose proof (lawful_backends_agree (B1:=InMemoryBackend Z Z) (B2:=InMemoryBackend Z Z) calls b1 b2) as Ha.
  destruct (backend_runs calls b1) as [b1' a1], (backend_runs calls b2) as [b2' a2]. apply Ha.
  - repeat apply put_entry_wf. split; [apply dict_wf_empty|done].
  - repeat apply put_entry_wf. split; [apply dict_wf_empty|done].
  - intros k. unfold b1, b2, put_entry. cbn [sb_get_entry memory_backend]. unfold get_entry. rewrite !dict_get_set. cbn [e e_key]. by repeat case_decide; subst.
Defined.

(** C24: [InMemoryBackend] is a finite map that remembers the order of insertion.  After any sequence of calls on a new backend, every call has answered as it
    does on a partial function from keys to entries (a put stores the entry under its own key, a delete tells whether the key was stored), the backend holds exactly what the
    function does, and it enumerates each stored key once, in the order in which the keys came to be stored (a put of a stored key keeps its place), and their entries
    in the same order; its size is their number. *)
Theorem memory_backend_is_ordered_map {K V} `{EqDecision K} (calls : list (backend_call K V)) :
  let '(b, answers) := backend_runs calls ([] : InMemoryBackend K V) in
  let '(m, expected) := map_runs calls (λ _, None) in
  let order := foldl stored_order [] calls in
  answers = expected ∧ (∀ k, get_entry b k = m k) ∧
  backend_keys b = order ∧ NoDup order ∧ (∀ k, k ∈ order ↔ is_Some (m k)) ∧
  backend_entries b = omap m order ∧ backend_size b = Z.of_nat (length order).
Proof.
  destruct (backend_runs_represents calls ([] : InMemoryBackend K V) (λ _, None)) as [[Hok Hg] Ha];
    [by split; [split; [apply dict_wf_empty|]|]|].
  pose proof (memory_orders calls []) as Ho. change (backend_keys []) with (@nil K) in Ho.
  destruct (backend_runs calls ([] : InMemoryBackend K V)) as [b answers], (map_runs calls _) as [m expected]. cbn [fst snd] in *.
  cbv zeta. rewrite <- Ho. split_conj; [done|done|done|apply Hok| | |apply dict_len_keys].
  - intros k. rewrite <- Hg. apply dict_keys_get.
  - rewrite (memory_entries b Hok). clear -Hg. change (∀ k, get_entry b k = m k) in Hg.
    induction (backend_keys b) as [|k l IH]; [done|]. cbn. by rewrite Hg, IH.
Qed.
