(* ===== verification/Jobs.v ===== *)
(** Worker jobs and the queue between the cache and its workers:
    src/cachelab/workers/messages.py, queue.py, write_back_worker.py,
    expiration_worker.py and the tick of scheduler.py.

    A loader, which is the caller's own function, is modelled by its outcome: the value
    it returns or the exception it raises. *)

From stdpp Require Import base tactics numbers option strings sets list.
From S2P Require Import Prelude PyDict PyFloat PyMonad Entry Storage.
Local Open Scope string_scope.
Local Open Scope list_scope.
Local Open Scope Z_scope.

(** ** Messages *)

Record FlushWriteBack (K V : Type) : Type := mkFlush {
  f_shard_index : Z;
  f_key : K;
  f_value : V;
  f_version : Z;
  f_operation : string;
  f_retries_left : Z;
  f_attempt : Z;
}.
Arguments mkFlush {_ _} _ _ _ _ _ _ _.
Arguments f_shard_index {_ _} _.
Arguments f_key {_ _} _.
Arguments f_value {_ _} _.
Arguments f_version {_ _} _.
Arguments f_operation {_ _} _.
Arguments f_retries_left {_ _} _.
Arguments f_attempt {_ _} _.

Inductive Job (K V : Type) : Type :=
  | ExpireShard (shard_index : Z)
  | FlushJob (job : FlushWriteBack K V)
  | PreloadKey (shard_index : Z) (key : K) (loader : result V) (ttl : option float)
      (ttl_supplied : bool)
  | SnapshotStats (request_id : string)
  | StopWorker (reason : string).
Arguments ExpireShard {_ _} _.
Arguments FlushJob {_ _} _.
Arguments PreloadKey {_ _} _ _ _ _ _.
Arguments SnapshotStats {_ _} _.
Arguments StopWorker {_ _} _.

(** ** The queue *)

Record CacheJobQueue (K V : Type) : Type := mkQueue {
  q_items : list (Job K V);
  q_maxsize : Z;
  q_unfinished : Z;
  q_dropped : Z;
}.
Arguments mkQueue {_ _} _ _ _ _.
Arguments q_items {_ _} _.
Arguments q_maxsize {_ _} _.
Arguments q_unfinished {_ _} _.
Arguments q_dropped {_ _} _.

Section queue.
Context {K V : Type}.
Implicit Types (q : CacheJobQueue K V) (job : Job K V).

Definition queue_init (maxsize : Z) : CacheJobQueue K V := mkQueue [] maxsize 0 0.

(** [queue.Queue.qsize] and the test behind [queue.Full]: a [maxsize] of zero or less
    means no bound. *)
Definition queue_depth q : Z := Z.of_nat (length (q_items q)).
Definition queue_full q : bool := (0 <? q_maxsize q) && (q_maxsize q <=? queue_depth q).

Definition queue_push q job : CacheJobQueue K V :=
  mkQueue (q_items q ++ [job]) (q_maxsize q) (q_unfinished q + 1) (q_dropped q).

(** [CacheJobQueue.put].  A critical put waits for room until its timeout; [q] is the
    queue when the wait ends, so both kinds of put fail exactly on a full queue.  The timeout
    is taken not to be negative ([queue.Queue.put] raises [ValueError] otherwise). *)
Definition queue_put job (critical : bool) q : CacheJobQueue K V * bool :=
  if queue_full q
  then (mkQueue (q_items q) (q_maxsize q) (q_unfinished q) (q_dropped q + 1), false)
  else (queue_push q job, true).

(** [CacheJobQueue.offer] *)
Definition queue_offer job q : CacheJobQueue K V * bool :=
  if queue_full q then (q, false) else (queue_push q job, true).

(** [CacheJobQueue.get]; [None] is [queue.Empty]. *)
Definition queue_get q : option (Job K V * CacheJobQueue K V) :=
  match q_items q with
  | [] => None
  | job :: items => Some (job, mkQueue items (q_maxsize q) (q_unfinished q) (q_dropped q))
  end.

(** [queue.Queue.task_done], which raises when called once too often. *)
Definition queue_task_done : M (CacheJobQueue K V) unit :=
  q ← get_state;
  if q_unfinished q <=? 0 then raise (ValueError "task_done() called too many times")
  else put_state (mkQueue (q_items q) (q_maxsize q) (q_unfinished q - 1) (q_dropped q)).

(** The loop of [CacheJobQueue.drain]; [fuel] bounds the iterations and the number of
    items is enough. *)
Fixpoint drain_loop (fuel : nat) (removed : Z) : M (CacheJobQueue K V) Z :=
  match fuel with
  | O => mret removed
  | S fuel' =>
      q ← get_state;
      match queue_get q with
      | None => mret removed
      | Some (_, q') => put_state q' ;; queue_task_done ;; drain_loop fuel' (removed + 1)
      end
  end.
Definition queue_drain : M (CacheJobQueue K V) Z :=
  q ← get_state; drain_loop (S (length (q_items q))) 0.

(** [CacheJobQueue.join_until]: the test at the end of the wait. *)
Definition queue_join_until q : bool := negb (0 <? q_unfinished q).

(** Every queued job is unfinished, and a bounded queue respects its bound. *)
Record queue_wf q : Prop := {
  qw_unfinished : queue_depth q ≤ q_unfinished q;
  qw_bound : 0 < q_maxsize q → queue_depth q ≤ q_maxsize q;
}.

Lemma queue_init_wf n : queue_wf (queue_init n).
Proof. split; unfold queue_depth; simpl; lia. Qed.

Lemma queue_push_wf q job : queue_wf q → queue_full q = false → queue_wf (queue_push q job).
Proof.
  intros [Hu Hb] Hf. unfold queue_full, queue_depth in *. split; unfold queue_depth; simpl;
    rewrite length_app; simpl; lia.
Qed.

Lemma queue_put_wf q job c : queue_wf q → queue_wf (queue_put job c q).1.
Proof.
  intros Hq. unfold queue_put. destruct (queue_full q) eqn:E; simpl; [|by apply queue_push_wf].
  by destruct Hq.
Qed.

Lemma queue_offer_wf q job : queue_wf q → queue_wf (queue_offer job q).1.
Proof.
  intros Hq. unfold queue_offer. destruct (queue_full q) eqn:E; simpl; [done|by apply queue_push_wf].
Qed.

Lemma drain_loop_spec fuel q removed :
  (length (q_items q) < fuel)%nat → queue_depth q ≤ q_unfinished q →
  drain_loop fuel removed q =
    (mkQueue [] (q_maxsize q) (q_unfinished q - queue_depth q) (q_dropped q),
     Ok (removed + queue_depth q)).
Proof.
  revert q removed. induction fuel as [|fuel IH]; intros [items m u d] removed; [lia|].
  unfold queue_depth. simpl. intros Hf Hu.
  unfold mbind, M_bind, get_state, put_state. simpl.
  destruct items as [|job items]; simpl in *.
  - unfold mret, M_ret. apply pair_eq. split; f_equal; lia.
  - unfold queue_task_done, mbind, M_bind, get_state, put_state. simpl.
    destruct (Z.leb_spec u 0); [lia|]. rewrite IH; unfold queue_depth; simpl; [|lia..].
    apply pair_eq. split; f_equal; lia.
Qed.
End queue.
#[export] Hint Resolve queue_init_wf queue_put_wf queue_offer_wf : cachedb.

(** ** Write-back worker *)

Section write_back_worker.
Context {K V : Type} `{EqDecision K}.

(** [is_stale_write_back] *)
Definition is_stale_write_back (version_marks tombstones : dict K Z)
    (job : FlushWriteBack K V) : bool :=
  let current_version := dict_get_default version_marks (f_key job) 0 in
  let tombstone_version := dict_get tombstones (f_key job) in
  if String.eqb (f_operation job) "put" then
    negb (current_version =? f_version job)
    || match tombstone_version with Some t => f_version job <=? t | None => false end
  else if String.eqb (f_operation job) "delete" then
    negb (current_version =? f_version job)
    || negb match tombstone_version with Some t => t =? f_version job | None => false end
  else true.

(** [apply_write_back] *)
Definition apply_write_back (job : FlushWriteBack K V) : M (SlowDictBackend K V) unit :=
  if String.eqb (f_operation job) "put" then put_value (f_key job) (f_value job)
  else if String.eqb (f_operation job) "delete" then delete_value (f_key job)
  else raise (ValidationError "unknown write-back operation").

(** Staleness looks at the maps only through their lookups. *)
#[export] Instance is_stale_proper :
  Proper (dict_equiv ==> dict_equiv ==> (=) ==> (=)) is_stale_write_back.
Proof.
  intros m1 m2 Hm t1 t2 Ht j ? <-. unfold is_stale_write_back, dict_get_default. by rewrite (Hm (f_key j)), (Ht (f_key j)).
Qed.
End write_back_worker.

(** ** Expiration *)

(** [expired_keys] *)
Definition expired_keys {K V} (entries : list (CacheEntry K V)) (now : float) : list K :=
  e_key <$> filter (λ e, is_expired e now = true) entries.

(** [ExpirationScheduler.tick_once] *)
Definition tick_once {K V} (shard_count : Z) (q : CacheJobQueue K V) : CacheJobQueue K V :=
  foldl (λ q index, (queue_put (ExpireShard index) false q).1) q (py_range shard_count).

(** ** Properties *)

(** A put on the queue is all or nothing. *)
Lemma queue_put_cases {K V} (job : Job K V) c q :
  (queue_full q = true ∧ queue_put job c q
     = (mkQueue (q_items q) (q_maxsize q) (q_unfinished q) (q_dropped q + 1), false)) ∨
  (queue_full q = false ∧ queue_put job c q = (queue_push q job, true)).
Proof. unfold queue_put. destruct (queue_full q); [left|right]; done. Qed.

(** [CacheJobQueue.put] never exceeds the bound and never loses a job silently: on a
    well-formed queue it either appends the job at the back and returns [True], or
    leaves the jobs alone, counts the drop and returns [False], the latter exactly when
    a bounded queue is full; the result is well formed again. *)
Theorem queue_put_bounded {K V} (job : Job K V) (critical : bool) (q : CacheJobQueue K V) :
  queue_wf q →
  let '(q', ok) := queue_put job critical q in
  queue_wf q' ∧
  (ok = true ↔ ¬ (0 < q_maxsize q ∧ q_maxsize q ≤ queue_depth q)) ∧
  (ok = true → q_items q' = q_items q ++ [job] ∧ q_dropped q' = q_dropped q) ∧
  (ok = false → q_items q' = q_items q ∧ q_dropped q' = q_dropped q + 1).
Proof.
  intros Hq. pose proof (queue_put_wf q job critical Hq) as Hw.
  destruct (queue_put_cases job critical q) as [[Hf Heq]|[Hf Heq]]; rewrite Heq in *;
    unfold queue_full in Hf; split_conj; try done; lia.
Qed.

Lemma queue_put_bounded_witness :
  queue_wf (queue_init (K:=Z) (V:=Z) 1) ∧
  (queue_put (ExpireShard 0) false (queue_init (K:=Z) (V:=Z) 1)).2 = true.
Proof.
  split; [apply queue_init_wf|].
  apply (queue_put_bounded (ExpireShard 0) false (queue_init (K:=Z) (V:=Z) 1) (queue_init_wf 1)).
  vm_compute. intros [_ H]. by apply H.
Defined.

(** Draining terminates and settles the queue: on a well-formed queue
    [CacheJobQueue.drain] returns, without raising, the number of jobs that were queued,
    and leaves no job behind and only the tasks still being worked on unfinished. *)
Theorem queue_drain_settles {K V} (q : CacheJobQueue K V) :
  queue_wf q →
  queue_drain q = (mkQueue [] (q_maxsize q) (q_unfinished q - queue_depth q) (q_dropped q),
                   Ok (queue_depth q)).
Proof.
  intros [Hu _]. unfold queue_drain, mbind, M_bind, get_state.
  rewrite drain_loop_spec by (done || lia). done.
Qed.

Lemma queue_drain_settles_witness :
  let q := mkQueue [ExpireShard 0; ExpireShard 1] 0 3 5 : CacheJobQueue Z Z in
  queue_wf q ∧ queue_drain q = (mkQueue [] 0 1 5, Ok 2).
Proof.
  assert (queue_wf (mkQueue [ExpireShard 0; ExpireShard 1] 0 3 5 : CacheJobQueue Z Z)) as Hq
    by (split; vm_compute; congruence).
  split; [exact Hq|]. apply (queue_drain_settles _ Hq).
Defined.
