(* ===== verification/Shard.v ===== *)
(** One shard: its state (src/cachelab/concurrency/shards.py, src/cachelab/core/stats.py,
    src/cachelab/concurrency/singleflight.py) and the critical sections that
    src/cachelab/core/cache.py runs under the shard lock.

    Every function here is one [with shard.lock:] block or a helper called inside one
    (the methods named [..._locked]), so it runs atomically.  A block that also writes to
    the source backend works on the pair of both. *)

From stdpp Require Import base tactics numbers option strings sets list.
From S2P Require Import Prelude PyDict PyFloat PyMonad Config Entry Policies Storage Jobs.
Local Open Scope string_scope.
Local Open Scope list_scope.
Local Open Scope Z_scope.

(** ** State *)

Record MutableStats : Type := mkStats {
  hits : Z;
  misses : Z;
  puts : Z;
  deletes : Z;
  evictions : Z;
  expirations : Z;
}.
Definition stats_init : MutableStats := mkStats 0 0 0 0 0 0.

Definition inc_hits (s : MutableStats) : MutableStats :=
  mkStats (hits s + 1) (misses s) (puts s) (deletes s) (evictions s) (expirations s).
Definition inc_misses (s : MutableStats) : MutableStats :=
  mkStats (hits s) (misses s + 1) (puts s) (deletes s) (evictions s) (expirations s).
Definition inc_puts (s : MutableStats) : MutableStats :=
  mkStats (hits s) (misses s) (puts s + 1) (deletes s) (evictions s) (expirations s).
Definition inc_deletes (s : MutableStats) : MutableStats :=
  mkStats (hits s) (misses s) (puts s) (deletes s + 1) (evictions s) (expirations s).
Definition inc_evictions (s : MutableStats) : MutableStats :=
  mkStats (hits s) (misses s) (puts s) (deletes s) (evictions s + 1) (expirations s).
Definition inc_expirations (s : MutableStats) : MutableStats :=
  mkStats (hits s) (misses s) (puts s) (deletes s) (evictions s) (expirations s + 1).

(** The argument [ttl] of [put]: not given, [None], or a number of seconds. *)
Inductive ttl_arg : Type := TTL_UNSET | TTL_NONE | TTL_SECONDS (seconds : float).

(** The string argument [reason] of [_remove_entry_locked]. *)
Inductive removal_reason : Type := REvict | RExpire | RDelete.

(** A shard.  A single-flight registration holds the identity of a shared [Flight]. *)
Record CacheShard (K V P : Type) : Type := mkShard {
  sh_index : Z;
  sh_capacity : Z;
  sh_backend : InMemoryBackend K V;
  sh_policy : P;
  sh_contentions : Z;
  sh_stats : MutableStats;
  sh_singleflight : dict K nat;
  sh_version_marks : dict K Z;
  sh_tombstones : dict K Z;
  sh_pending_flushes : dict K Z;
}.
Arguments mkShard {_ _ _} _ _ _ _ _ _ _ _ _ _.
Arguments sh_index {_ _ _} _.
Arguments sh_capacity {_ _ _} _.
Arguments sh_backend {_ _ _} _.
Arguments sh_policy {_ _ _} _.
Arguments sh_contentions {_ _ _} _.
Arguments sh_stats {_ _ _} _.
Arguments sh_singleflight {_ _ _} _.
Arguments sh_version_marks {_ _ _} _.
Arguments sh_tombstones {_ _ _} _.
Arguments sh_pending_flushes {_ _ _} _.

Section shard.
Context {K V P : Type} `{EqDecision K} `{PyNone V} `{EvictionPolicy K P}.
Implicit Types (sh : CacheShard K V P) (key : K).

Definition shard_init (index capacity : Z) (policy : P) : CacheShard K V P :=
  mkShard index capacity [] policy 0 stats_init [] [] [] [].

(** Assignments to the fields of a shard. *)
Definition set_backend (b : InMemoryBackend K V) sh : CacheShard K V P :=
  mkShard (sh_index sh) (sh_capacity sh) b (sh_policy sh) (sh_contentions sh) (sh_stats sh)
    (sh_singleflight sh) (sh_version_marks sh) (sh_tombstones sh) (sh_pending_flushes sh).
Definition set_policy (p : P) sh : CacheShard K V P :=
  mkShard (sh_index sh) (sh_capacity sh) (sh_backend sh) p (sh_contentions sh) (sh_stats sh)
    (sh_singleflight sh) (sh_version_marks sh) (sh_tombstones sh) (sh_pending_flushes sh).
Definition set_stats (f : MutableStats → MutableStats) sh : CacheShard K V P :=
  mkShard (sh_index sh) (sh_capacity sh) (sh_backend sh) (sh_policy sh) (sh_contentions sh)
    (f (sh_stats sh)) (sh_singleflight sh) (sh_version_marks sh) (sh_tombstones sh)
    (sh_pending_flushes sh).
Definition set_singleflight (d : dict K nat) sh : CacheShard K V P :=
  mkShard (sh_index sh) (sh_capacity sh) (sh_backend sh) (sh_policy sh) (sh_contentions sh)
    (sh_stats sh) d (sh_version_marks sh) (sh_tombstones sh) (sh_pending_flushes sh).
Definition set_version_marks (d : dict K Z) sh : CacheShard K V P :=
  mkShard (sh_index sh) (sh_capacity sh) (sh_backend sh) (sh_policy sh) (sh_contentions sh)
    (sh_stats sh) (sh_singleflight sh) d (sh_tombstones sh) (sh_pending_flushes sh).
Definition set_tombstones (d : dict K Z) sh : CacheShard K V P :=
  mkShard (sh_index sh) (sh_capacity sh) (sh_backend sh) (sh_policy sh) (sh_contentions sh)
    (sh_stats sh) (sh_singleflight sh) (sh_version_marks sh) d (sh_pending_flushes sh).
Definition set_pending (d : dict K Z) sh : CacheShard K V P :=
  mkShard (sh_index sh) (sh_capacity sh) (sh_backend sh) (sh_policy sh) (sh_contentions sh)
    (sh_stats sh) (sh_singleflight sh) (sh_version_marks sh) (sh_tombstones sh) d.

(** ** Versions, tombstones and pending flushes *)

(** [CacheShard.next_version] *)
Definition next_version key sh : CacheShard K V P * Z :=
  let version := dict_get_default (sh_version_marks sh) key 0 + 1 in
  (set_version_marks (dict_set (sh_version_marks sh) key version) sh, version).

(** [Cache._maybe_prune_marks_locked] *)
Definition maybe_prune_marks_locked key sh : CacheShard K V P :=
  if 0 <? dict_get_default (sh_pending_flushes sh) key 0 then sh
  else match get_entry (sh_backend sh) key with
       | Some _ => sh
       | None =>
           set_tombstones (dict_pop (sh_tombstones sh) key)
             (set_version_marks (dict_pop (sh_version_marks sh) key) sh)
       end.

(** [Cache._register_pending_locked] *)
Definition register_pending_locked key sh : CacheShard K V P :=
  set_pending (dict_set (sh_pending_flushes sh) key
                 (dict_get_default (sh_pending_flushes sh) key 0 + 1)) sh.

(** [Cache._resolve_pending_locked] *)
Definition resolve_pending_locked key sh : CacheShard K V P :=
  let remaining := dict_get_default (sh_pending_flushes sh) key 0 - 1 in
  maybe_prune_marks_locked key
    (if 0 <? remaining
     then set_pending (dict_set (sh_pending_flushes sh) key remaining) sh
     else set_pending (dict_pop (sh_pending_flushes sh) key) sh).

(** [Cache._clear_pending_flushes_locked] *)
Definition clear_pending_flushes_locked key sh : CacheShard K V P :=
  maybe_prune_marks_locked key (set_pending (dict_pop (sh_pending_flushes sh) key) sh).

(** ** Entries *)

(** [Cache._remove_entry_locked] *)
Definition remove_entry_locked key (reason : removal_reason) sh : CacheShard K V P * bool :=
  let '(backend, removed) := delete_entry (sh_backend sh) key in
  let sh := set_backend backend sh in
  let sh := set_policy (on_delete key (sh_policy sh)) sh in
  let sh :=
    match removed, reason with
    | true, REvict => set_stats inc_evictions sh
    | true, RExpire => set_stats inc_expirations sh
    | _, _ => sh
    end in
  (maybe_prune_marks_locked key sh, removed).

(** The loop of [Cache._enforce_capacity_locked].  Every iteration stops tracking one
    key, so one more than the number of tracked keys is enough fuel. *)
Fixpoint enforce_capacity_loop (fuel : nat) sh : CacheShard K V P :=
  match fuel with
  | O => sh
  | S fuel' =>
      if sh_capacity sh <? backend_size (sh_backend sh) then
        match evict_candidate (sh_policy sh) with
        | None => sh
        | Some candidate =>
            enforce_capacity_loop fuel' (remove_entry_locked candidate REvict sh).1
        end
      else sh
  end.
Definition enforce_capacity_locked sh : CacheShard K V P :=
  enforce_capacity_loop (S (Z.to_nat (policy_len (sh_policy sh)))) sh.

(** [Cache._read_value_locked] *)
Definition read_value_locked (now : float) key (touch_entry count_stats : bool) sh
    : CacheShard K V P * (bool * V) :=
  match get_entry (sh_backend sh) key with
  | None => ((if count_stats then set_stats inc_misses sh else sh), (false, py_none))
  | Some entry =>
      if is_expired entry now then
        let sh := (remove_entry_locked key RExpire sh).1 in
        ((if count_stats then set_stats inc_misses sh else sh), (false, py_none))
      else
        let sh :=
          if touch_entry
          then set_policy (on_get key (sh_policy sh))
                 (set_backend (update_entry (sh_backend sh) key (λ e, touch e now)) sh)
          else sh in
        ((if count_stats then set_stats inc_hits sh else sh), (true, e_value entry))
  end.

(** [Cache._resolve_ttl] *)
Definition resolve_ttl (default_ttl : option float) (existing : option (CacheEntry K V))
    (ttl : ttl_arg) (now : float) : option float * option float :=
  let from_value (ttl_value : option float) :=
    match ttl_value with
    | None => (None, None)
    | Some t => if fle t fzero then (None, None) else (Some t, Some (fadd now t))
    end in
  match ttl with
  | TTL_UNSET =>
      match existing with
      | Some e => (e_ttl e, e_expires_at e)
      | None => from_value default_ttl
      end
  | TTL_NONE => from_value None
  | TTL_SECONDS t => from_value (Some t)
  end.

(** ** The critical sections of [put] *)

(** Lazy expiration of the previous entry; what is left of it. *)
Definition put_expire (now : float) key sh : CacheShard K V P * option (CacheEntry K V) :=
  match get_entry (sh_backend sh) key with
  | Some e =>
      if is_expired e now then ((remove_entry_locked key RExpire sh).1, None) else (sh, Some e)
  | None => (sh, None)
  end.

(** The new entry, from the version it gets and the one it replaces. *)
Definition new_entry (mode : WriteMode) (default_ttl : option float) (now : float) key (value : V)
    (ttl : ttl_arg) (existing : option (CacheEntry K V)) (version : Z) : CacheEntry K V :=
  let '(effective_ttl, expires_at) := resolve_ttl default_ttl existing ttl now in
  {| e_key := key;
     e_value := value;
     e_created_at := match existing with None => now | Some e => e_created_at e end;
     e_last_accessed_at := now;
     e_hit_count := match existing with None => 0 | Some e => e_hit_count e end;
     e_expires_at := expires_at;
     e_ttl := effective_ttl;
     e_version := version;
     e_dirty := bool_decide (mode = WRITE_BACK) |}.

(** From the new version to the eviction: the in-memory write. *)
Definition put_store (mode : WriteMode) (default_ttl : option float) (now : float) key (value : V)
    (ttl : ttl_arg) (existing : option (CacheEntry K V)) sh : CacheShard K V P * Z :=
  let '(sh, version) := next_version key sh in
  let sh := set_tombstones (dict_pop (sh_tombstones sh) key) sh in
  let entry := new_entry mode default_ttl now key value ttl existing version in
  let sh := set_backend (put_entry (sh_backend sh) entry) sh in
  let sh := set_policy (on_put key (sh_policy sh)) sh in
  let sh := set_stats inc_puts sh in
  (enforce_capacity_locked sh, version).

Definition put_job (retry_count : Z) key (value : V) (version : Z) sh : FlushWriteBack K V :=
  mkFlush (sh_index sh) key value version "put" retry_count 0.
Definition delete_job (retry_count : Z) key (version : Z) sh : FlushWriteBack K V :=
  mkFlush (sh_index sh) key py_none version "delete" retry_count 0.

(** The [with shard.lock:] block of [Cache.put]. *)
Definition put_locked (mode : WriteMode) (default_ttl : option float) (retry_count : Z)
    (now : float) key (value : V) (ttl : ttl_arg)
    : M (CacheShard K V P * SlowDictBackend K V) (option (FlushWriteBack K V)) :=
  λ '(sh, src),
    let '(sh, existing) := put_expire now key sh in
    let '(src, written) :=
      match mode with WRITE_THROUGH => put_value key value src | _ => (src, Ok tt) end in
    match written with
    | Raise e => ((sh, src), Raise e)
    | Ok _ =>
        let '(sh, version) := put_store mode default_ttl now key value ttl existing sh in
        match mode with
        | WRITE_BACK =>
            ((register_pending_locked key sh, src),
             Ok (Some (put_job retry_count key value version sh)))
        | _ => ((sh, src), Ok None)
        end
    end.

(** ** The critical sections of [delete] and [clear] *)

(** The write-back bookkeeping of a deletion: a new version, a tombstone, a job. *)
Definition mark_deleted (retry_count : Z) key sh : CacheShard K V P * FlushWriteBack K V :=
  let '(sh, version) := next_version key sh in
  let sh := set_tombstones (dict_set (sh_tombstones sh) key version) sh in
  (register_pending_locked key sh, delete_job retry_count key version sh).

(** The removal both share: source, bookkeeping, entry, count. *)
Definition delete_key_locked (mode : WriteMode) (retry_count : Z) key
    : M (CacheShard K V P * SlowDictBackend K V) (bool * option (FlushWriteBack K V)) :=
  λ '(sh, src),
    let '(src, written) :=
      match mode with WRITE_THROUGH => delete_value key src | _ => (src, Ok tt) end in
    match written with
    | Raise e => ((sh, src), Raise e)
    | Ok _ =>
        let '(sh, job) :=
          match mode with
          | WRITE_BACK => let '(sh, job) := mark_deleted retry_count key sh in (sh, Some job)
          | _ => (sh, None)
          end in
        let '(sh, existed) := remove_entry_locked key RDelete sh in
        let sh := if existed then set_stats inc_deletes sh else sh in
        ((sh, src), Ok (existed, job))
    end.

(** The [with shard.lock:] block of [Cache.delete]. *)
Definition delete_locked (mode : WriteMode) (retry_count : Z) key
    : M (CacheShard K V P * SlowDictBackend K V) (bool * option (FlushWriteBack K V)) :=
  r ← delete_key_locked mode retry_count key;
  modify (λ '(sh, src), (set_singleflight (dict_pop (sh_singleflight sh) key) sh, src)) ;;
  mret r.

(** The [with shard.lock:] block of [Cache.clear], over the keys listed at its start. *)
Fixpoint clear_keys_locked (mode : WriteMode) (retry_count : Z) (keys : list K)
    : M (CacheShard K V P * SlowDictBackend K V) (list (FlushWriteBack K V)) :=
  match keys with
  | [] => mret []
  | key :: keys' =>
      '(_, job) ← delete_key_locked mode retry_count key;
      jobs ← clear_keys_locked mode retry_count keys';
      mret (option_list job ++ jobs)
  end.
Definition clear_locked (mode : WriteMode) (retry_count : Z)
    : M (CacheShard K V P * SlowDictBackend K V) (list (FlushWriteBack K V)) :=
  '(sh, _) ← get_state;
  jobs ← clear_keys_locked mode retry_count (backend_keys (sh_backend sh));
  modify (λ '(sh, src),
    (set_singleflight [] (set_policy (policy_clear (sh_policy sh)) sh), src)) ;;
  mret jobs.

(** ** Diagnostics and expiration *)

(** The [with shard.lock:] block of [Cache.inspect]. *)
Definition inspect_locked (now : float) key sh : CacheShard K V P * option (EntrySnapshot K V) :=
  match get_entry (sh_backend sh) key with
  | None => (sh, None)
  | Some entry =>
      if is_expired entry now then ((remove_entry_locked key RExpire sh).1, None)
      else (sh, Some (snapshot entry now))
  end.

(** The loop of [Cache.dump] over the entries of one shard. *)
Fixpoint dump_entries (now : float) (entries : list (CacheEntry K V)) sh
    : CacheShard K V P * list (EntrySnapshot K V) :=
  match entries with
  | [] => (sh, [])
  | entry :: entries' =>
      if is_expired entry now then
        dump_entries now entries' (remove_entry_locked (e_key entry) RExpire sh).1
      else
        let '(sh, snaps) := dump_entries now entries' sh in (sh, snapshot entry now :: snaps)
  end.
Definition dump_locked (now : float) sh : CacheShard K V P * list (EntrySnapshot K V) :=
  dump_entries now (backend_entries (sh_backend sh)) sh.

(** The loop of [Cache._expire_shard]. *)
Fixpoint expire_keys (keys : list K) (expired : Z) sh : CacheShard K V P * Z :=
  match keys with
  | [] => (sh, expired)
  | key :: keys' =>
      let '(sh, removed) := remove_entry_locked key RExpire sh in
      expire_keys keys' (if removed then expired + 1 else expired) sh
  end.
Definition expire_shard_locked (now : float) sh : CacheShard K V P * Z :=
  expire_keys (expired_keys (backend_entries (sh_backend sh)) now) 0 sh.

(** The [with shard.lock:] block of [Cache.restore_entry_metadata]. *)
Definition restore_locked key (hit_count : Z) sh : CacheShard K V P :=
  set_backend (update_entry (sh_backend sh) key (set_hit_count hit_count)) sh.

(** ** Flushing *)

(** First block of [Cache._flush_write_back_job]: [true] when the job is stale, its
    pending mark then being resolved. *)
Definition flush_check_locked (job : FlushWriteBack K V) sh : CacheShard K V P * bool :=
  if is_stale_write_back (sh_version_marks sh) (sh_tombstones sh) job
  then (resolve_pending_locked (f_key job) sh, true)
  else (sh, false).

(** [entry.dirty = False] when the entry still has the version that was written. *)
Definition mark_clean (job : FlushWriteBack K V) sh : CacheShard K V P :=
  match get_entry (sh_backend sh) (f_key job) with
  | Some entry =>
      if e_version entry =? f_version job
      then set_backend (update_entry (sh_backend sh) (f_key job) set_clean) sh
      else sh
  | None => sh
  end.

(** Last block of [Cache._flush_write_back_job]. *)
Definition flush_finish_locked (job : FlushWriteBack K V) sh : CacheShard K V P :=
  resolve_pending_locked (f_key job)
    (if String.eqb (f_operation job) "put" then mark_clean job sh else sh).

(** The dirty entries and the tombstones of a shard as flush jobs, in the order of the
    source. *)
Definition dirty_put_jobs (retry_count : Z) sh : list (FlushWriteBack K V) :=
  (λ e, put_job retry_count (e_key e) (e_value e) (e_version e) sh)
    <$> filter (λ e, e_dirty e = true) (backend_entries (sh_backend sh)).
Definition tombstone_jobs (retry_count : Z) sh : list (FlushWriteBack K V) :=
  (λ kv, delete_job retry_count kv.1 kv.2 sh) <$> sh_tombstones sh.

(** Number of dirty entries ([Cache._count_dirty_entries] sums it). *)
Definition count_dirty sh : Z :=
  Z.of_nat (length (filter (λ e, e_dirty e = true) (backend_entries (sh_backend sh)))).
End shard.

Arguments remove_entry_locked : simpl never.
Arguments maybe_prune_marks_locked : simpl never.
Arguments resolve_pending_locked : simpl never.
Arguments clear_pending_flushes_locked : simpl never.
Arguments enforce_capacity_locked : simpl never.
Arguments put_store : simpl never.
Arguments put_expire : simpl never.
Arguments mark_deleted : simpl never.
Arguments put_value : simpl never.
Arguments delete_value : simpl never.
