(* ===== verification/ShardInv.v ===== *)
(** The invariant of a shard and that every critical section preserves it.

    [shard_core] ties the parts of a shard together: the policy tracks exactly the stored
    keys, a live entry carries the key's version mark, a tombstone belongs to a dead key
    with an outstanding flush and carries its version mark, and a version mark belongs to
    a live key or to one with an outstanding flush.  [shard_wf] adds the capacity bound. *)

From stdpp Require Import base tactics numbers option strings sets list.
From S2P Require Import Prelude PyDict PyFloat PyMonad Config Entry Policies PolicyLaws.
From S2P Require Import Storage Jobs Shard.
Local Open Scope string_scope.
Local Open Scope list_scope.
Local Open Scope Z_scope.

Section inv.
Context {K V P : Type} `{EqDecision K} `{PyNone V} `{HP : EvictionPolicy K P} `{!PolicyLaws K P}.
Implicit Types (sh : CacheShard K V P) (key k : K) (value : V).
Implicit Types (st : CacheShard K V P * SlowDictBackend K V).

(** What the four maps of a shard may say about one key. *)
Record key_ok (e : option (CacheEntry K V)) (mark tomb pend : option Z) : Prop := {
  ko_pending n : pend = Some n → 1 ≤ n;
  ko_mark_pos v : mark = Some v → 1 ≤ v;
  ko_entry x : e = Some x → mark = Some (e_version x);
  ko_tomb v : tomb = Some v → mark = Some v ∧ e = None ∧ is_Some pend;
  ko_mark : is_Some mark → is_Some e ∨ is_Some pend;
}.

Definition keys_ok sh : Prop :=
  ∀ k, key_ok (dict_get (sh_backend sh) k) (dict_get (sh_version_marks sh) k)
              (dict_get (sh_tombstones sh) k) (dict_get (sh_pending_flushes sh) k).

Record shard_core sh : Prop := {
  sc_backend : backend_wf (sh_backend sh);
  sc_policy : policy_wf (sh_policy sh);
  sc_tracked k : k ∈ tracked (sh_policy sh) ↔ k ∈ dict_keys (sh_backend sh);
  sc_capacity : 1 ≤ sh_capacity sh;
  sc_keys : keys_ok sh;
}.

Record shard_wf sh : Prop := {
  sw_core : shard_core sh;
  sw_size : backend_size (sh_backend sh) ≤ sh_capacity sh;
}.

Lemma shard_init_wf index capacity (policy : P) :
  1 ≤ capacity → policy_wf policy → tracked policy = [] →
  shard_wf (shard_init index capacity policy).
Proof.
  intros Hc Hp Ht. split; [split|]; simpl; try done.
  - split; [apply dict_wf_empty|done].
  - intros k. by rewrite Ht.
  - intros k. split; naive_solver.
  - unfold backend_size, dict_len. simpl. lia.
Qed.

Lemma key_ok_none : key_ok None None None None.
Proof. split; naive_solver. Qed.

(** The size is the number of tracked keys. *)
Lemma core_len sh : shard_core sh → backend_size (sh_backend sh) = policy_len (sh_policy sh).
Proof.
  intros [[Hb _] Hp Ht _ _]. unfold backend_size. rewrite dict_len_keys, policy_len_tracked. f_equal.
  apply Permutation_length, NoDup_Permutation; [done|by apply tracked_nodup|].
  intros k. by rewrite Ht.
Qed.

(** ** Pruning and removal *)

(** Whether a key without an entry loses its marks. *)
Definition prunable sh key : bool := negb (0 <? dict_get_default (sh_pending_flushes sh) key 0).

(** What [_remove_entry_locked] does to every part of the shard. *)
Lemma remove_entry_fields key reason sh :
  let '(sh', removed) := remove_entry_locked key reason sh in
  removed = dict_mem (sh_backend sh) key ∧
  sh_backend sh' = dict_pop (sh_backend sh) key ∧
  sh_policy sh' = on_delete key (sh_policy sh) ∧
  sh_version_marks sh'
    = (if prunable sh key then dict_pop (sh_version_marks sh) key else sh_version_marks sh) ∧
  sh_tombstones sh'
    = (if prunable sh key then dict_pop (sh_tombstones sh) key else sh_tombstones sh) ∧
  sh_pending_flushes sh' = sh_pending_flushes sh ∧
  sh_singleflight sh' = sh_singleflight sh ∧
  sh_index sh' = sh_index sh ∧
  sh_capacity sh' = sh_capacity sh ∧
  sh_contentions sh' = sh_contentions sh.
Proof.
  unfold remove_entry_locked, delete_entry, maybe_prune_marks_locked, prunable, get_entry, dict_mem.
  simpl. destruct (is_not_none _), reason; simpl; rewrite dict_get_pop_eq;
    destruct (0 <? _); simpl; done.
Qed.

Lemma remove_entry_stats key reason sh :
  sh_stats (remove_entry_locked key reason sh).1
  = match dict_mem (sh_backend sh) key, reason with
    | true, REvict => inc_evictions (sh_stats sh)
    | true, RExpire => inc_expirations (sh_stats sh)
    | _, _ => sh_stats sh
    end.
Proof.
  unfold remove_entry_locked, delete_entry, maybe_prune_marks_locked, get_entry, dict_mem. simpl.
  destruct (is_not_none _), reason; simpl; rewrite dict_get_pop_eq; destruct (0 <? _); done.
Qed.

Ltac remove_fields key reason sh :=
  let H := fresh in
  pose proof (remove_entry_fields key reason sh) as H;
  destruct (remove_entry_locked key reason sh) as [? ?]; cbn [fst snd] in H |- *;
  destruct H as (Erem & Eback & Epol & Emarks & Etombs & Epend & Esf & Eidx & Ecap & Econt).

Lemma remove_entry_core key reason sh :
  shard_core sh → shard_core (remove_entry_locked key reason sh).1.
Proof.
  intros [Hb Hp Ht Hc Hk]. remove_fields key reason sh. split.
  - rewrite Eback. by apply dict_pop_backend_wf.
  - rewrite Epol. by apply on_delete_wf.
  - intros x. rewrite Eback, Epol, on_delete_tracked, Ht, dict_keys_pop_elem by done. done.
  - by rewrite Ecap.
  - intros x. rewrite Eback, Emarks, Etombs, Epend, dict_get_pop. specialize (Hk x) as Hx. unfold prunable.
    case_decide as Heq; [subst x|].
    + unfold dict_get_default. destruct (Z.ltb_spec 0
        (match dict_get (sh_pending_flushes sh) key with Some v => v | None => 0 end)) as [Hlt|Hge];
        simpl; rewrite ?dict_get_pop_eq.
      * destruct (dict_get (sh_pending_flushes sh) key) eqn:E; [|lia].
        destruct Hx as [? ? ? Htomb ?]. split; naive_solver.
      * destruct (dict_get (sh_pending_flushes sh) key) eqn:E;
          [by pose proof (ko_pending _ _ _ _ Hx _ eq_refl); lia|]. apply key_ok_none.
    + destruct (negb _); rewrite ?dict_get_pop_ne by done; done.
Qed.

Lemma remove_entry_size key reason sh :
  shard_core sh →
  backend_size (sh_backend (remove_entry_locked key reason sh).1)
  = if dict_mem (sh_backend sh) key
    then backend_size (sh_backend sh) - 1 else backend_size (sh_backend sh).
Proof.
  intros [[Hb _] _ _ _ _]. remove_fields key reason sh. rewrite Eback. by apply dict_len_pop.
Qed.

Lemma remove_entry_wf key reason sh :
  shard_wf sh → shard_wf (remove_entry_locked key reason sh).1.
Proof.
  intros [Hc Hs]. split; [by apply remove_entry_core|].
  rewrite remove_entry_size by done. remove_fields key reason sh. rewrite Ecap.
  destruct (dict_mem _ _); lia.
Qed.

(** ** Capacity enforcement *)

Lemma enforce_loop_S fuel sh :
  enforce_capacity_loop (S fuel) sh
  = if sh_capacity sh <? backend_size (sh_backend sh) then
      match evict_candidate (sh_policy sh) with
      | None => sh
      | Some c => enforce_capacity_loop fuel (remove_entry_locked c REvict sh).1
      end
    else sh.
Proof. reflexivity. Qed.

Lemma enforce_noop fuel sh :
  backend_size (sh_backend sh) ≤ sh_capacity sh → enforce_capacity_loop fuel sh = sh.
Proof. destruct fuel; simpl; [done|]. intros Hs. destruct (Z.ltb_spec (sh_capacity sh)
  (backend_size (sh_backend sh))); [lia|done]. Qed.

(** A shard over its capacity has a victim, and evicting it makes room for one. *)
Lemma enforce_step sh :
  shard_core sh → sh_capacity sh < backend_size (sh_backend sh) →
  ∃ c, evict_candidate (sh_policy sh) = Some c ∧ dict_mem (sh_backend sh) c = true ∧
       backend_size (sh_backend (remove_entry_locked c REvict sh).1)
       = backend_size (sh_backend sh) - 1.
Proof.
  intros Hc Hs. destruct (evict_candidate (sh_policy sh)) as [c|] eqn:E.
  - exists c. assert (dict_mem (sh_backend sh) c = true) as Hm.
    { apply dict_mem_keys, (sc_tracked _ Hc). eapply candidate_some; [apply (sc_policy _ Hc)|done]. }
    split_conj; [done..|]. by rewrite remove_entry_size, Hm.
  - apply candidate_none in E; [|apply (sc_policy _ Hc)].
    pose proof (core_len _ Hc) as Hl. rewrite policy_len_tracked, E in Hl. simpl in Hl.
    pose proof (sc_capacity _ Hc). lia.
Qed.

Lemma remove_entry_capacity key reason sh :
  sh_capacity (remove_entry_locked key reason sh).1 = sh_capacity sh.
Proof. by remove_fields key reason sh. Qed.

Lemma remove_entry_pending key reason sh :
  sh_pending_flushes (remove_entry_locked key reason sh).1 = sh_pending_flushes sh.
Proof. by remove_fields key reason sh. Qed.

Lemma enforce_loop_wf fuel sh :
  shard_core sh → backend_size (sh_backend sh) < Z.of_nat fuel →
  shard_wf (enforce_capacity_loop fuel sh).
Proof.
  revert sh. induction fuel as [|fuel IH]; intros sh Hc Hf.
  - pose proof (dict_len_nonneg (sh_backend sh)). unfold backend_size in Hf. lia.
  - destruct (decide (backend_size (sh_backend sh) ≤ sh_capacity sh)) as [Hs|Hs].
    + rewrite enforce_noop by done. by split.
    + destruct (enforce_step sh) as (c & Hcand & Hm & Hsz); [done|lia|].
      rewrite enforce_loop_S. destruct (Z.ltb_spec (sh_capacity sh) (backend_size (sh_backend sh))); [|lia].
      rewrite Hcand. apply IH; [by apply remove_entry_core|lia].
Qed.

(** [_enforce_capacity_locked] terminates within its fuel, restores the bound and keeps
    the invariant. *)
Lemma enforce_capacity_wf sh : shard_core sh → shard_wf (enforce_capacity_locked sh).
Proof.
  intros Hc. unfold enforce_capacity_locked. apply enforce_loop_wf; [done|].
  rewrite <- core_len by done. pose proof (dict_len_nonneg (sh_backend sh)).
  unfold backend_size in *. lia.
Qed.

(** At most one entry over the capacity: at most one eviction, of the candidate. *)
Lemma enforce_capacity_one sh :
  shard_core sh → backend_size (sh_backend sh) ≤ sh_capacity sh + 1 →
  (backend_size (sh_backend sh) ≤ sh_capacity sh ∧ enforce_capacity_locked sh = sh) ∨
  (backend_size (sh_backend sh) = sh_capacity sh + 1 ∧
   ∃ c, evict_candidate (sh_policy sh) = Some c ∧ dict_mem (sh_backend sh) c = true ∧
        enforce_capacity_locked sh = (remove_entry_locked c REvict sh).1).
Proof.
  intros Hc Hs. unfold enforce_capacity_locked.
  destruct (decide (backend_size (sh_backend sh) ≤ sh_capacity sh)) as [Hle|Hgt].
  - left. split; [done|]. by apply enforce_noop.
  - right. split; [lia|]. destruct (enforce_step sh) as (c & Hcand & Hm & Hsz); [done|lia|].
    exists c. split_conj; [done..|]. rewrite enforce_loop_S.
    destruct (Z.ltb_spec (sh_capacity sh) (backend_size (sh_backend sh))); [|lia].
    rewrite Hcand. apply enforce_noop. rewrite Hsz, remove_entry_capacity. lia.
Qed.

(** ** Reads *)

(** Changing an entry without touching its key or version. *)
Lemma update_entry_core key f sh :
  (∀ e, e_key (f e) = e_key e) → (∀ e, e_version (f e) = e_version e) →
  shard_core sh → shard_core (set_backend (update_entry (sh_backend sh) key f) sh).
Proof.
  intros Hf Hv [Hb Hp Ht Hc Hk]. split; simpl; try done.
  - by apply update_entry_wf.
  - intros k. by rewrite update_entry_keys.
  - intros k. simpl. rewrite update_entry_get. specialize (Hk k). case_decide; [|done]. subst k.
    destruct Hk as [? ? He Htb Hm]. split; try done.
    + intros x (y & Hy & ->)%fmap_Some. rewrite Hv. by apply He.
    + intros v Hv'. destruct (Htb v Hv') as (? & -> & ?). done.
    + intros Hmk. rewrite fmap_is_Some. by apply Hm.
Qed.

Lemma update_entry_shard_wf key f sh :
  (∀ e, e_key (f e) = e_key e) → (∀ e, e_version (f e) = e_version e) →
  shard_wf sh → shard_wf (set_backend (update_entry (sh_backend sh) key f) sh).
Proof.
  intros Hf Hv [Hc Hs]. split; [by apply update_entry_core|]. simpl.
  unfold backend_size. by rewrite update_entry_len.
Qed.

Lemma on_get_shard_wf key sh :
  shard_wf sh → shard_wf (set_policy (on_get key (sh_policy sh)) sh).
Proof.
  intros [[Hb Hp Ht Hc Hk] Hs]. split; [split|]; simpl; try done.
  - by apply on_get_wf.
  - intros k. by rewrite on_get_tracked.
Qed.

Lemma set_stats_wf f sh : shard_wf sh → shard_wf (set_stats f sh).
Proof. by intros [[Hb Hp Ht Hc Hk] Hs]. Qed.

Lemma set_singleflight_wf d sh : shard_wf sh → shard_wf (set_singleflight d sh).
Proof. by intros [[Hb Hp Ht Hc Hk] Hs]. Qed.

Lemma read_value_wf now key t c sh : shard_wf sh → shard_wf (read_value_locked now key t c sh).1.
Proof.
  intros Hw. unfold read_value_locked. destruct (get_entry _ key) as [e|]; cbn.
  - destruct (is_expired e now); cbn.
    + destruct c; [apply set_stats_wf|]; by apply remove_entry_wf.
    + destruct c; [apply set_stats_wf|]; destruct t; try done;
        by apply (on_get_shard_wf key (set_backend _ sh)), update_entry_shard_wf.
  - destruct c; [by apply set_stats_wf|done].
Qed.

(** ** Pending flushes *)

Lemma prune_fields key sh :
  let sh' := maybe_prune_marks_locked key sh in
  let gone := prunable sh key && negb (dict_mem (sh_backend sh) key) in
  sh_backend sh' = sh_backend sh ∧ sh_policy sh' = sh_policy sh ∧
  sh_pending_flushes sh' = sh_pending_flushes sh ∧
  sh_capacity sh' = sh_capacity sh ∧ sh_stats sh' = sh_stats sh ∧
  sh_version_marks sh'
    = (if gone then dict_pop (sh_version_marks sh) key else sh_version_marks sh) ∧
  sh_tombstones sh' = (if gone then dict_pop (sh_tombstones sh) key else sh_tombstones sh).
Proof.
  unfold maybe_prune_marks_locked, prunable, get_entry, dict_mem.
  destruct (0 <? _); simpl; [done|]. destruct (dict_get _ key); simpl; done.
Qed.

(** Replacing the pending count of [key] by [n] and pruning afterwards. *)
Lemma prune_pending_wf key n sh :
  (∀ v, n = Some v → 1 ≤ v) →
  shard_wf sh →
  let pend := match n with
              | Some v => dict_set (sh_pending_flushes sh) key v
              | None => dict_pop (sh_pending_flushes sh) key
              end in
  shard_wf (maybe_prune_marks_locked key (set_pending pend sh)).
Proof.
  intros Hn [[Hb Hp Ht Hc Hk] Hs] pend.
  pose proof (prune_fields key (set_pending pend sh)) as (Eb & Ep & Epend & Ecap & _ & Em & Et).
  simpl in *. split; [split|]; rewrite ?Eb, ?Ep, ?Ecap; try done.
  assert (dict_get pend key = n) as Hpk by (subst pend; destruct n; by dict_simpl).
  assert (∀ x, x ≠ key → dict_get pend x = dict_get (sh_pending_flushes sh) x) as Hpx
    by (intros x Hx; subst pend; destruct n; by rewrite ?dict_get_set_ne, ?dict_get_pop_ne by auto).
  intros x. specialize (Hk x) as Hx. rewrite Em, Et, Epend, Eb. unfold prunable. simpl.
  destruct (decide (x = key)) as [->|Hne].
  - rewrite Hpk. unfold dict_get_default, dict_mem. rewrite Hpk. destruct n as [v|].
    + specialize (Hn v eq_refl). destruct (Z.ltb_spec 0 v); [|lia]. simpl.
      destruct Hx as [? ? ? Htb ?]. split; naive_solver.
    + simpl. destruct (dict_get (sh_backend sh) key) as [e|] eqn:E; simpl.
      * destruct Hx as [? ? He Htb ?]. split; naive_solver.
      * rewrite !dict_get_pop_eq. apply key_ok_none.
  - rewrite Hpx by done. destruct (_ && _); by rewrite ?dict_get_pop_ne by congruence.
Qed.

Lemma resolve_pending_wf key sh : shard_wf sh → shard_wf (resolve_pending_locked key sh).
Proof.
  intros Hw. unfold resolve_pending_locked.
  destruct (Z.ltb_spec 0 (dict_get_default (sh_pending_flushes sh) key 0 - 1)) as [Hlt|Hge].
  - apply (prune_pending_wf key (Some _)); [|done]. intros v [= <-]. lia.
  - by apply (prune_pending_wf key None).
Qed.

Lemma clear_pending_wf key sh : shard_wf sh → shard_wf (clear_pending_flushes_locked key sh).
Proof. intros Hw. by apply (prune_pending_wf key None). Qed.

Lemma key_ok_register e m t p n :
  key_ok e m t p → 1 ≤ n → key_ok e m t (Some n).
Proof. intros [? ? ? Htb ?] Hn. split; naive_solver. Qed.

Lemma pending_nonneg sh key : keys_ok sh → 0 ≤ dict_get_default (sh_pending_flushes sh) key 0.
Proof.
  intros Hk. unfold dict_get_default. destruct (dict_get _ key) eqn:E; [|done].
  pose proof (ko_pending _ _ _ _ (Hk key) _ E). lia.
Qed.

Lemma register_pending_wf key sh : shard_wf sh → shard_wf (register_pending_locked key sh).
Proof.
  intros [[Hb Hp Ht Hc Hk] Hs]. pose proof (pending_nonneg sh key Hk).
  split; [split|]; simpl; try done. intros x. simpl. rewrite dict_get_set. specialize (Hk x) as Hx.
  case_decide; [|done]. subst x. eapply key_ok_register; [done|lia].
Qed.

(** ** Writes *)

Lemma put_expire_wf now key sh : shard_wf sh → shard_wf (put_expire now key sh).1.
Proof.
  intros Hw. unfold put_expire. destruct (get_entry _ key) as [e|]; [|done].
  destruct (is_expired e now); [by apply remove_entry_wf|done].
Qed.

Lemma mark_nonneg sh key : keys_ok sh → 0 ≤ dict_get_default (sh_version_marks sh) key 0.
Proof.
  intros Hk. unfold dict_get_default. destruct (dict_get _ key) eqn:E; [|done].
  pose proof (ko_mark_pos _ _ _ _ (Hk key) _ E). lia.
Qed.

(** The shard just before the eviction loop of [put]. *)
Definition put_insert (mode : WriteMode) (default_ttl : option float) (now : float) key (value : V)
    (ttl : ttl_arg) (existing : option (CacheEntry K V)) sh : CacheShard K V P :=
  let '(sh, version) := next_version key sh in
  let sh := set_tombstones (dict_pop (sh_tombstones sh) key) sh in
  let entry := new_entry mode default_ttl now key value ttl existing version in
  let sh := set_backend (put_entry (sh_backend sh) entry) sh in
  set_stats inc_puts (set_policy (on_put key (sh_policy sh)) sh).

Lemma put_store_eq mode dttl now key value ttl ex sh :
  put_store mode dttl now key value ttl ex sh
  = (enforce_capacity_locked (put_insert mode dttl now key value ttl ex sh),
     dict_get_default (sh_version_marks sh) key 0 + 1).
Proof. done. Qed.

Lemma new_entry_key mode dttl now key value ttl ex v :
  e_key (new_entry mode dttl now key value ttl ex v) = key.
Proof. unfold new_entry. by destruct (resolve_ttl _ _ _ _). Qed.

Lemma new_entry_version mode dttl now key value ttl ex v :
  e_version (new_entry mode dttl now key value ttl ex v) = v.
Proof. unfold new_entry. by destruct (resolve_ttl _ _ _ _). Qed.

Lemma new_entry_value mode dttl now key value ttl ex v :
  e_value (new_entry mode dttl now key value ttl ex v) = value.
Proof. unfold new_entry. by destruct (resolve_ttl _ _ _ _). Qed.

Lemma new_entry_dirty mode dttl now key value ttl ex v :
  e_dirty (new_entry mode dttl now key value ttl ex v) = bool_decide (mode = WRITE_BACK).
Proof. unfold new_entry. by destruct (resolve_ttl _ _ _ _). Qed.

Lemma put_insert_core mode dttl now key value ttl ex sh :
  shard_core sh → shard_core (put_insert mode dttl now key value ttl ex sh).
Proof.
  intros [Hb Hp Ht Hc Hk]. pose proof (mark_nonneg sh key Hk). split; simpl; try done.
  - by apply put_entry_wf.
  - by apply on_put_wf.
  - intros x. rewrite on_put_tracked, Ht by done. unfold put_entry.
    rewrite dict_keys_set_elem, new_entry_key. done.
  - intros x. simpl. unfold put_entry. rewrite new_entry_key, !dict_get_set, dict_get_pop.
    specialize (Hk x) as Hx. case_decide; [subst x|done]. split.
    + apply Hx.
    + intros v [= <-]. lia.
    + intros e [= <-]. by rewrite new_entry_version.
    + done.
    + by left.
Qed.

Lemma put_insert_size mode dttl now key value ttl ex sh :
  backend_size (sh_backend (put_insert mode dttl now key value ttl ex sh))
  = if dict_mem (sh_backend sh) key
    then backend_size (sh_backend sh) else backend_size (sh_backend sh) + 1.
Proof. simpl. unfold put_entry, backend_size. by rewrite new_entry_key, dict_len_set. Qed.

Lemma put_store_wf mode dttl now key value ttl ex sh :
  shard_wf sh → shard_wf (put_store mode dttl now key value ttl ex sh).1.
Proof.
  intros [Hc Hs]. rewrite put_store_eq. by apply enforce_capacity_wf, put_insert_core.
Qed.

Lemma put_locked_wf mode dttl n now key value ttl st :
  shard_wf st.1 → shard_wf (put_locked mode dttl n now key value ttl st).1.1.
Proof.
  destruct st as [sh src]. cbn. intros Hw. pose proof (put_expire_wf now key sh Hw) as He.
  destruct (put_expire now key sh) as [sh1 ex]. simpl in He.
  destruct (match mode with WRITE_THROUGH => _ | _ => _ end) as [src' [[]|e]]; [|done].
  pose proof (put_store_wf mode dttl now key value ttl ex sh1 He) as Hst.
  destruct (put_store _ _ _ _ _ _ _ sh1) as [sh2 v]. simpl in Hst.
  destruct mode; simpl; try done. by apply register_pending_wf.
Qed.

Lemma mark_deleted_fields n key sh :
  let sh' := (mark_deleted n key sh).1 in
  let version := dict_get_default (sh_version_marks sh) key 0 + 1 in
  sh_backend sh' = sh_backend sh ∧ sh_policy sh' = sh_policy sh ∧
  sh_version_marks sh' = dict_set (sh_version_marks sh) key version ∧
  sh_tombstones sh' = dict_set (sh_tombstones sh) key version ∧
  sh_pending_flushes sh'
    = dict_set (sh_pending_flushes sh) key (dict_get_default (sh_pending_flushes sh) key 0 + 1) ∧
  sh_capacity sh' = sh_capacity sh.
Proof. done. Qed.

(** The bookkeeping of a deletion is only consistent once the entry is gone. *)
Lemma mark_deleted_remove_wf n key reason sh :
  shard_wf sh → shard_wf (remove_entry_locked key reason (mark_deleted n key sh).1).1.
Proof.
  intros [[Hb Hp Ht Hc Hk] Hs]. pose proof (mark_nonneg sh key Hk) as Hm.
  pose proof (pending_nonneg sh key Hk) as Hpn.
  pose proof (mark_deleted_fields n key sh) as (Fb & Fp & Fm & Ft & Fn & Fc).
  destruct (mark_deleted n key sh) as [sh1 job]. cbn [fst] in *.
  assert (prunable sh1 key = false) as Hpr.
  { unfold prunable, dict_get_default. rewrite Fn, dict_get_set_eq.
    apply negb_false_iff, Z.ltb_lt. lia. }
  remove_fields key reason sh1. rewrite Hpr in *.
  split; [split|]; rewrite ?Eback, ?Epol, ?Ecap, ?Fb, ?Fp, ?Fc; try done.
  - by apply dict_pop_backend_wf.
  - by apply on_delete_wf.
  - intros x. rewrite on_delete_tracked, Ht, dict_keys_pop_elem by done. done.
  - intros x. rewrite Eback, Emarks, Etombs, Epend, Fb, Fm, Ft, Fn, dict_get_pop, !dict_get_set.
    specialize (Hk x) as Hx. case_decide; [subst x|done]. split.
    + intros v [= <-]. lia.
    + intros v [= <-]. lia.
    + done.
    + intros v [= <-]. eauto.
    + eauto.
  - unfold backend_size. rewrite dict_len_pop by apply Hb. unfold backend_size in Hs.
    destruct (dict_mem (sh_backend sh) key); [|done]. by etransitivity; [|exact Hs]; apply Z.lt_le_incl, Z.lt_sub_pos.
Qed.

Lemma delete_key_locked_wf mode n key st :
  shard_wf st.1 → shard_wf (delete_key_locked mode n key st).1.1.
Proof.
  destruct st as [sh src]. cbn. intros Hw.
  destruct (match mode with WRITE_THROUGH => _ | _ => _ end) as [src' [[]|e]]; [|done].
  destruct mode.
  - pose proof (remove_entry_wf key RDelete sh Hw).
    destruct (remove_entry_locked _ _ _) as [sh1 []]; [by apply set_stats_wf|done].
  - pose proof (remove_entry_wf key RDelete sh Hw).
    destruct (remove_entry_locked _ _ _) as [sh1 []]; [by apply set_stats_wf|done].
  - pose proof (mark_deleted_remove_wf n key RDelete sh Hw) as Hr.
    destruct (mark_deleted n key sh) as [sh1 job]. cbn in Hr.
    destruct (remove_entry_locked _ _ _) as [sh2 []]; [by apply set_stats_wf|done].
Qed.

(** What a successful [delete_key_locked] leaves in the backend. *)
Lemma delete_key_locked_backend mode n key st st' r :
  delete_key_locked mode n key st = (st', Ok r) →
  sh_backend st'.1 = dict_pop (sh_backend st.1) key.
Proof.
  destruct st as [sh src]. unfold delete_key_locked.
  destruct (match mode with WRITE_THROUGH => _ | _ => _ end) as [src' [[]|e]]; [|done].
  set (q := match mode with WRITE_BACK => _ | _ => _ end).
  assert (sh_backend q.1 = sh_backend sh) as Hq by (subst q; by destruct mode).
  destruct q as [sh1 job]. cbn [fst] in *.
  pose proof (remove_entry_fields key RDelete sh1) as Hf.
  destruct (remove_entry_locked key RDelete sh1) as [sh2 existed]. destruct Hf as (_ & Hb & _).
  intros [= <- _]. rewrite <- Hq, <- Hb. by destruct existed.
Qed.

Lemma delete_locked_wf mode n key st :
  shard_wf st.1 → shard_wf (delete_locked mode n key st).1.1.
Proof.
  intros Hw. pose proof (delete_key_locked_wf mode n key st Hw) as Hd.
  unfold delete_locked, mbind, M_bind. destruct (delete_key_locked mode n key st) as [[sh src] [r|e]];
    [|done]. by apply set_singleflight_wf.
Qed.

Lemma clear_keys_wf mode n keys st :
  shard_wf st.1 → shard_wf (clear_keys_locked mode n keys st).1.1.
Proof.
  revert st. induction keys as [|key keys IH]; intros st Hw; [done|].
  pose proof (delete_key_locked_wf mode n key st Hw) as Hd.
  cbn [clear_keys_locked]. unfold mbind, M_bind.
  destruct (delete_key_locked mode n key st) as [st1 [[b job]|e]]; [|done].
  specialize (IH st1 Hd). by destruct (clear_keys_locked mode n keys st1) as [st2 [jobs|e]].
Qed.

Lemma clear_keys_backend mode n keys st st' jobs k :
  clear_keys_locked mode n keys st = (st', Ok jobs) →
  k ∈ dict_keys (sh_backend st'.1) ↔ k ∈ dict_keys (sh_backend st.1) ∧ k ∉ keys.
Proof.
  revert st jobs. induction keys as [|key keys IH]; intros st jobs.
  - cbn. intros [= -> _]. set_solver.
  - cbn [clear_keys_locked]. unfold mbind, M_bind.
    destruct (delete_key_locked mode n key st) as [st1 [[b job]|e]] eqn:E; [|done].
    destruct (clear_keys_locked mode n keys st1) as [st2 [jobs'|e]] eqn:E2; [|done].
    intros [= <- _]. rewrite (IH _ _ E2), (delete_key_locked_backend _ _ _ _ _ _ E).
    rewrite dict_keys_pop_elem. set_solver.
Qed.

Lemma clear_keys_empty mode n st st' jobs :
  clear_keys_locked mode n (backend_keys (sh_backend st.1)) st = (st', Ok jobs) →
  sh_backend st'.1 = [].
Proof.
  intros Hc. pose proof (λ k, clear_keys_backend _ _ _ _ _ _ k Hc) as Hk.
  destruct (sh_backend st'.1) as [|[k e] b] eqn:E; [done|]. exfalso.
  destruct (proj1 (Hk k)) as [H1 H2]; [simpl; set_solver|]. by apply H2.
Qed.

Lemma policy_clear_wf sh :
  shard_wf sh → sh_backend sh = [] → shard_wf (set_policy (policy_clear (sh_policy sh)) sh).
Proof.
  intros [[Hb Hp Ht Hc Hk] Hs] Hempty. split; [split|]; simpl; try done.
  - apply clear_wf.
  - intros k. by rewrite clear_tracked, Hempty.
Qed.

Lemma clear_locked_wf mode n st : shard_wf st.1 → shard_wf (clear_locked mode n st).1.1.
Proof.
  intros Hw. unfold clear_locked, mbind, M_bind, get_state. destruct st as [sh src]. cbn [fst] in *.
  pose proof (clear_keys_wf mode n (backend_keys (sh_backend sh)) (sh, src) Hw) as Hk.
  destruct (clear_keys_locked _ _ _ _) as [[sh1 src1] [jobs|e]] eqn:E; [|done].
  apply (clear_keys_empty mode n (sh, src)) in E. by apply set_singleflight_wf, policy_clear_wf.
Qed.

Lemma inspect_wf now key sh : shard_wf sh → shard_wf (inspect_locked now key sh).1.
Proof.
  intros Hw. unfold inspect_locked. destruct (get_entry _ key) as [e|]; [|done].
  destruct (is_expired e now); [by apply remove_entry_wf|done].
Qed.

Lemma dump_entries_wf now entries sh : shard_wf sh → shard_wf (dump_entries now entries sh).1.
Proof.
  revert sh. induction entries as [|e entries IH]; intros sh Hw; [done|]. cbn [dump_entries].
  destruct (is_expired e now); [by apply IH, remove_entry_wf|].
  specialize (IH sh Hw). by destruct (dump_entries now entries sh).
Qed.

Lemma expire_keys_wf keys n sh : shard_wf sh → shard_wf (expire_keys keys n sh).1.
Proof.
  revert sh n. induction keys as [|key keys IH]; intros sh n Hw; [done|]. cbn [expire_keys].
  pose proof (remove_entry_wf key RExpire sh Hw).
  destruct (remove_entry_locked key RExpire sh) as [sh1 removed]. by apply IH.
Qed.

Lemma expire_shard_wf now sh : shard_wf sh → shard_wf (expire_shard_locked now sh).1.
Proof. apply expire_keys_wf. Qed.

Lemma restore_wf key n sh : shard_wf sh → shard_wf (restore_locked key n sh).
Proof. by apply update_entry_shard_wf. Qed.

Lemma mark_clean_wf job sh : shard_wf sh → shard_wf (mark_clean job sh).
Proof.
  intros Hw. unfold mark_clean. destruct (get_entry _ _) as [e|]; [|done].
  destruct (_ =? _); [by apply update_entry_shard_wf|done].
Qed.

Lemma flush_check_wf job sh : shard_wf sh → shard_wf (flush_check_locked job sh).1.
Proof.
  intros Hw. unfold flush_check_locked. destruct (is_stale_write_back _ _ _); [|done].
  by apply resolve_pending_wf.
Qed.

Lemma flush_finish_wf job sh : shard_wf sh → shard_wf (flush_finish_locked job sh).
Proof.
  intros Hw. apply resolve_pending_wf. destruct (String.eqb _ _); [by apply mark_clean_wf|done].
Qed.
End inv.

#[export] Hint Resolve remove_entry_wf set_stats_wf set_singleflight_wf read_value_wf
  resolve_pending_wf clear_pending_wf register_pending_wf put_locked_wf delete_locked_wf
  clear_locked_wf inspect_wf dump_entries_wf expire_shard_wf restore_wf mark_clean_wf
  flush_check_wf flush_finish_wf : cachedb.
