(* ===== verification/ShardSpec.v ===== *)
(** A shard as a map: the values its callers can see.

    [visible now sh] is the abstract state of a shard: the value of every key whose entry
    is stored and not expired.  The lemmas say what each critical section does to it:
    reads and maintenance leave it alone, a write changes its own key and lets at most one
    other key be evicted, a deletion removes its key. *)

From stdpp Require Import base tactics numbers option strings sets list.
From S2P Require Import Prelude PyDict PyFloat PyMonad Config Entry Policies PolicyLaws.
From S2P Require Import Storage Jobs Shard ShardInv.
Local Open Scope string_scope.
Local Open Scope list_scope.
Local Open Scope Z_scope.

Section spec.
Context {K V P : Type} `{EqDecision K} `{PyNone V} `{HP : EvictionPolicy K P} `{!PolicyLaws K P}.
Implicit Types (sh : CacheShard K V P) (key k : K) (value : V).
Implicit Types (st : CacheShard K V P * SlowDictBackend K V).

Definition live_value (now : float) (o : option (CacheEntry K V)) : option V :=
  match o with
  | Some e => if is_expired e now then None else Some (e_value e)
  | None => None
  end.
Definition visible (now : float) sh k : option V := live_value now (dict_get (sh_backend sh) k).

Lemma visible_remove now key reason sh k :
  visible now (remove_entry_locked key reason sh).1 k
  = if decide (key = k) then None else visible now sh k.
Proof.
  unfold visible. pose proof (remove_entry_fields key reason sh) as Hf.
  destruct (remove_entry_locked key reason sh) as [sh1 b]. destruct Hf as (_ & Hb & _).
  cbn [fst]. rewrite Hb, dict_get_pop. by case_decide.
Qed.

(** Removing what is not visible anyway changes nothing a caller can see. *)
Lemma visible_remove_dead now key reason sh k :
  visible now sh key = None →
  visible now (remove_entry_locked key reason sh).1 k = visible now sh k.
Proof. intros Hd. rewrite visible_remove. case_decide; [by subst|done]. Qed.

Lemma visible_expired now sh key e :
  dict_get (sh_backend sh) key = Some e → is_expired e now = true → visible now sh key = None.
Proof. unfold visible. intros -> He. simpl. by rewrite He. Qed.

Lemma visible_update now key f sh k :
  (∀ e, e_value (f e) = e_value e) → (∀ e, e_expires_at (f e) = e_expires_at e) →
  visible now (set_backend (update_entry (sh_backend sh) key f) sh) k = visible now sh k.
Proof.
  intros Hv He. unfold visible. simpl. rewrite update_entry_get. case_decide; [|done].
  subst k. destruct (dict_get _ key) as [e|]; simpl; [|done]. unfold is_expired. by rewrite He, Hv.
Qed.

(** ** Reads *)

(** [_read_value_locked] returns exactly the visible value and leaves every visible value
    in place; it counts one hit or one miss when asked to. *)
Lemma read_value_visible now key t c sh :
  let '(sh', (found, v)) := read_value_locked now key t c sh in
  match visible now sh key with
  | Some x => found = true ∧ v = x
  | None => found = false ∧ v = py_none
  end ∧ ∀ k, visible now sh' k = visible now sh k.
Proof.
  unfold read_value_locked, get_entry. unfold visible at 1.
  destruct (dict_get (sh_backend sh) key) as [e|] eqn:E; simpl.
  - destruct (is_expired e now) eqn:Ee; cbn.
    + split; [done|]. intros k.
      transitivity (visible now (remove_entry_locked key RExpire sh).1 k); [by destruct c|].
      apply visible_remove_dead. by eapply visible_expired.
    + split; [done|]. intros k. pose proof (visible_update now key (λ e, touch e now) sh k) as Hu.
      destruct c, t; try done; by apply Hu.
  - split; [done|]. intros k. by destruct c.
Qed.

(** How a counted read moves the counters. *)
Lemma read_value_counts now key t sh :
  let '(sh', (found, _)) := read_value_locked now key t true sh in
  hits (sh_stats sh') = (hits (sh_stats sh) + if found then 1 else 0) ∧
  misses (sh_stats sh') = (misses (sh_stats sh) + if found then 0 else 1).
Proof.
  unfold read_value_locked. destruct (get_entry _ key) as [e|] eqn:E; [|simpl; lia].
  destruct (is_expired e now); cbn [set_stats sh_stats inc_misses hits misses].
  - rewrite remove_entry_stats. destruct (dict_mem _ _); simpl; lia.
  - destruct t; simpl; lia.
Qed.

(** ** Writes *)

Lemma put_expire_visible now key sh k :
  visible now (put_expire now key sh).1 k = visible now sh k.
Proof.
  unfold put_expire, get_entry. destruct (dict_get _ key) as [e|] eqn:E; [|done].
  destruct (is_expired e now) eqn:Ee; [|done].
  apply visible_remove_dead. by eapply visible_expired.
Qed.

(** The entry left by [put_expire] is the stored one. *)
Lemma put_expire_existing now key sh :
  (put_expire now key sh).2 = dict_get (sh_backend (put_expire now key sh).1) key.
Proof.
  unfold put_expire, get_entry. destruct (dict_get _ key) as [e|] eqn:E; [|done].
  destruct (is_expired e now); [|done].
  pose proof (remove_entry_fields key RExpire sh) as Hf.
  destruct (remove_entry_locked key RExpire sh) as [sh1 b]. destruct Hf as (_ & Hb & _).
  cbn [fst snd]. by rewrite Hb, dict_get_pop_eq.
Qed.

Lemma put_insert_get mode dttl now key value ttl ex sh k :
  dict_get (sh_backend (put_insert mode dttl now key value ttl ex sh)) k
  = if decide (key = k)
    then Some (new_entry mode dttl now key value ttl ex
                 (dict_get_default (sh_version_marks sh) key 0 + 1))
    else dict_get (sh_backend sh) k.
Proof. simpl. unfold put_entry. by rewrite new_entry_key, dict_get_set. Qed.

(** What [put] does to the stored entries: the new entry is stored, every other entry
    stays, except that one entry [c] may be evicted, and only when the key is new and the
    shard was full; [c] is then what the policy chose with the new key included. *)
Lemma put_store_get mode dttl now key value ttl ex sh :
  shard_wf sh →
  let sh' := (put_store mode dttl now key value ttl ex sh).1 in
  let entry := new_entry mode dttl now key value ttl ex
                 (dict_get_default (sh_version_marks sh) key 0 + 1) in
  ∃ evicted : option K,
    (∀ k, dict_get (sh_backend sh') k
          = if decide (evicted = Some k) then None
            else if decide (key = k) then Some entry else dict_get (sh_backend sh) k) ∧
    (∀ c, evicted = Some c →
       dict_mem (sh_backend sh) key = false ∧
       backend_size (sh_backend sh) = sh_capacity sh ∧
       evict_candidate (on_put key (sh_policy sh)) = Some c ∧
       (c = key ∨ dict_mem (sh_backend sh) c = true)) ∧
    sh_stats sh' = (if is_not_none evicted then inc_evictions else id) (inc_puts (sh_stats sh)).
Proof.
  intros [Hc Hs]. cbn zeta. rewrite put_store_eq. cbn [fst].
  pose proof (put_insert_core mode dttl now key value ttl ex sh Hc) as Hic.
  pose proof (put_insert_size mode dttl now key value ttl ex sh) as Hsz.
  pose proof (put_insert_get mode dttl now key value ttl ex sh) as Hget.
  assert (sh_capacity (put_insert mode dttl now key value ttl ex sh) = sh_capacity sh) as Hcap by done.
  assert (sh_policy (put_insert mode dttl now key value ttl ex sh) = on_put key (sh_policy sh))
    as Hpol by done.
  assert (sh_stats (put_insert mode dttl now key value ttl ex sh) = inc_puts (sh_stats sh))
    as Hstats by done.
  set (sh1 := put_insert _ _ _ _ _ _ _ sh) in *. clearbody sh1.
  destruct (enforce_capacity_one sh1 Hic) as [[Hle Heq]|(Hgt & c & Hcand & Hm & Heq)].
  - destruct (dict_mem (sh_backend sh) key); lia.
  - exists None. rewrite Heq. split_conj; [|done..]. intros k. rewrite Hget. by case_decide.
  - exists (Some c). rewrite Heq. split_conj; [| |by rewrite remove_entry_stats, Hm, Hstats].
    + intros k. pose proof (remove_entry_fields c REvict sh1) as Hf.
      destruct (remove_entry_locked c REvict sh1) as [sh2 b]. destruct Hf as (_ & Hb & _).
      cbn [fst]. rewrite Hb, dict_get_pop, Hget. repeat case_decide; congruence.
    + intros c' [= <-]. rewrite Hpol in Hcand. destruct (dict_mem (sh_backend sh) key) eqn:Ek; [lia|].
      split_conj; [done|lia|done|]. unfold dict_mem in Hm. rewrite Hget in Hm.
      case_decide; [by left|by right].
Qed.

(** A policy that keeps new keys never evicts the key just written. *)
Lemma put_store_keeps_key mode dttl now key value ttl ex sh :
  shard_wf sh → keeps_new (sh_policy sh) →
  dict_get (sh_backend (put_store mode dttl now key value ttl ex sh).1) key
  = Some (new_entry mode dttl now key value ttl ex
            (dict_get_default (sh_version_marks sh) key 0 + 1)).
Proof.
  intros Hw Hk. destruct (put_store_get mode dttl now key value ttl ex sh Hw) as (ev & Hget & Hev & _).
  rewrite Hget. rewrite (decide_True (P := key = key)) by done. case_decide as He; [|done].
  exfalso. destruct (Hev key He) as (Hm & Hsz & Hcand & _).
  assert (key ∉ tracked (sh_policy sh)) as Hnt.
  { rewrite (sc_tracked _ (sw_core _ Hw)), dict_mem_keys. by rewrite Hm. }
  pose proof (keeps_new_candidate _ _ Hk (sc_policy _ (sw_core _ Hw)) Hnt Hcand) as Ht.
  pose proof (core_len _ (sw_core _ Hw)) as Hl. rewrite policy_len_tracked, Ht in Hl. simpl in Hl.
  pose proof (sc_capacity _ (sw_core _ Hw)). lia.
Qed.

(** ** Deletion and maintenance *)

Lemma delete_key_visible mode n key st st' r now k :
  delete_key_locked mode n key st = (st', Ok r) →
  visible now st'.1 k = if decide (key = k) then None else visible now st.1 k.
Proof.
  intros Hd. unfold visible. rewrite (delete_key_locked_backend _ _ _ _ _ _ Hd), dict_get_pop.
  by case_decide.
Qed.

Lemma inspect_visible now key sh k :
  visible now (inspect_locked now key sh).1 k = visible now sh k ∧
  (s_value <$> (inspect_locked now key sh).2) = visible now sh key.
Proof.
  unfold inspect_locked, get_entry. unfold visible at 3.
  destruct (dict_get _ key) as [e|] eqn:E; [|done]. cbn [live_value].
  destruct (is_expired e now) eqn:Ee; [|done]. cbn [fst snd]. split; [|done].
  apply visible_remove_dead. by eapply visible_expired.
Qed.

Lemma expire_keys_visible now keys n sh :
  (∀ key, key ∈ keys → visible now sh key = None) →
  ∀ k, visible now (expire_keys keys n sh).1 k = visible now sh k.
Proof.
  revert sh n. induction keys as [|key keys IH]; intros sh n Hd k; [done|]. cbn [expire_keys].
  pose proof (visible_remove_dead now key RExpire sh) as Hv.
  destruct (remove_entry_locked key RExpire sh) as [sh1 removed]. cbn [fst] in Hv.
  rewrite IH; [apply Hv, Hd; set_solver|]. intros x Hx. rewrite Hv; apply Hd; set_solver.
Qed.

Lemma expired_keys_elem now sh key :
  backend_wf (sh_backend sh) →
  key ∈ expired_keys (backend_entries (sh_backend sh)) now ↔
  ∃ e, dict_get (sh_backend sh) key = Some e ∧ is_expired e now = true.
Proof.
  intros [Hw Hk]. unfold expired_keys, backend_entries. rewrite list_elem_of_fmap. split.
  - intros (e & -> & [He Hin]%list_elem_of_filter). apply dict_values_elem in Hin as [k Hin]; [|done].
    rewrite (Hk _ _ Hin). eauto.
  - intros (e & He & Hx). exists e. split; [by rewrite (Hk _ _ He)|].
    apply list_elem_of_filter. split; [done|]. apply dict_values_elem; eauto.
Qed.

Lemma expire_keys_backend keys n sh k :
  dict_get (sh_backend (expire_keys keys n sh).1) k
  = if decide (k ∈ keys) then None else dict_get (sh_backend sh) k.
Proof.
  revert sh n. induction keys as [|key keys IH]; intros sh n; [by rewrite decide_False by set_solver|].
  cbn [expire_keys]. pose proof (remove_entry_fields key RExpire sh) as Hf.
  destruct (remove_entry_locked key RExpire sh) as [sh1 b]. destruct Hf as (_ & Hb & _).
  rewrite IH, Hb, dict_get_pop. repeat case_decide; set_solver.
Qed.

(** After [_expire_shard] no stored entry is expired and every other one is unchanged. *)
Lemma expire_shard_backend now sh k :
  shard_wf sh →
  dict_get (sh_backend (expire_shard_locked now sh).1) k
  = match dict_get (sh_backend sh) k with
    | Some e => if is_expired e now then None else Some e
    | None => None
    end.
Proof.
  intros Hw. unfold expire_shard_locked. rewrite expire_keys_backend.
  pose proof (expired_keys_elem now sh k (sc_backend _ (sw_core _ Hw))) as He.
  case_decide as Hd.
  - apply He in Hd as (e & -> & Hx). by rewrite Hx.
  - destruct (dict_get _ k) as [e|] eqn:E; [|done]. destruct (is_expired e now) eqn:Ex; [|done].
    exfalso. apply Hd, He. eauto.
Qed.

Lemma expire_keys_count keys n sh :
  backend_wf (sh_backend sh) → NoDup keys → (∀ k, k ∈ keys → dict_mem (sh_backend sh) k = true) →
  (expire_keys keys n sh).2 = n + Z.of_nat (length keys).
Proof.
  revert sh n. induction keys as [|key keys IH]; intros sh n Hw Hnd Hin; cbn [expire_keys].
  - simpl. lia.
  - apply NoDup_cons in Hnd as [Hk Hnd]. pose proof (remove_entry_fields key RExpire sh) as Hf.
    destruct (remove_entry_locked key RExpire sh) as [sh1 b]. destruct Hf as (-> & Hb & _).
    rewrite (Hin key) by set_solver. rewrite IH; [simpl; lia|rewrite Hb; by apply dict_pop_backend_wf|done|].
    intros k Hk'. rewrite Hb. unfold dict_mem. rewrite dict_get_pop_ne by set_solver.
    apply Hin. set_solver.
Qed.

(** ** [put] as a whole *)

(** The lifetime [put] gives a key that has none: the seconds, if any, move the expiry
    beyond [now].  Seconds that vanish in the rounding of [now + ttl] do not. *)
Definition ttl_live (default_ttl : option float) (ttl : ttl_arg) (now : float) : bool :=
  match (match ttl with TTL_UNSET => default_ttl | TTL_NONE => None | TTL_SECONDS t => Some t end) with
  | Some t => fle t fzero || negb (fle (fadd now t) now)
  | None => true
  end.

Lemma new_entry_live mode dttl now key value ttl ex v :
  ttl_live dttl ttl now = true →
  (∀ e, ex = Some e → is_expired e now = false) →
  live_value now (Some (new_entry mode dttl now key value ttl ex v)) = Some value.
Proof.
  intros Ht Hex. simpl. rewrite new_entry_value. unfold is_expired, new_entry, resolve_ttl, ttl_live in *.
  destruct ttl as [| |t].
  - destruct ex as [e|]; simpl.
    + specialize (Hex e eq_refl). destruct (e_expires_at e); [by rewrite Hex|done].
    + destruct dttl as [t|]; simpl; [|done]. destruct (fle t fzero); [done|].
      simpl in *. by apply negb_true_iff in Ht as ->.
  - by destruct ex.
  - destruct (fle t fzero); destruct ex; simpl in *; try done; by apply negb_true_iff in Ht as ->.
Qed.

(** What [put] leaves visible: the new value, unless it has expired already, and the
    other values except that of an evicted key. *)
Definition put_visible (now : float) key (entry : CacheEntry K V) (evicted : option K)
    (before : K → option V) (k : K) : option V :=
  if decide (evicted = Some k) then None
  else if decide (key = k) then live_value now (Some entry) else before k.

(** When an eviction happens: the key is new, the shard is full, and the victim is what
    the policy chooses with the new key included. *)
Record put_evicts key sh (evicted : option K) : Prop := {
  pe_new x : evicted = Some x → dict_mem (sh_backend sh) key = false;
  pe_full x : evicted = Some x → backend_size (sh_backend sh) = sh_capacity sh;
  pe_victim x : evicted = Some x → evict_candidate (on_put key (sh_policy sh)) = Some x;
  pe_stored x : evicted = Some x → x = key ∨ dict_mem (sh_backend sh) x = true;
  pe_keeps : keeps_new (sh_policy sh) → evicted ≠ Some key;
}.

(** Either nothing was expired, or the removal made room. *)
Lemma put_expire_cases now key sh :
  shard_wf sh →
  (put_expire now key sh).1 = sh ∨
  backend_size (sh_backend (put_expire now key sh).1) < sh_capacity sh.
Proof.
  intros Hw. unfold put_expire, get_entry. destruct (dict_get _ key) as [e|] eqn:E; [|by left].
  destruct (is_expired e now); [right|by left]. cbn [fst].
  rewrite remove_entry_size by apply Hw. unfold dict_mem. rewrite E. simpl.
  pose proof (sw_size _ Hw). lia.
Qed.

Lemma put_expire_not_expired now key sh e :
  (put_expire now key sh).2 = Some e → is_expired e now = false.
Proof.
  unfold put_expire. destruct (get_entry _ key) as [x|]; [|done].
  destruct (is_expired x now) eqn:E; [done|]. by intros [= <-].
Qed.

Lemma put_expire_capacity now key sh :
  sh_capacity (put_expire now key sh).1 = sh_capacity sh.
Proof.
  unfold put_expire. destruct (get_entry _ key) as [x|]; [|done].
  destruct (is_expired x now); [apply remove_entry_capacity|done].
Qed.

(** The in-memory write of [put], with the lazy expiration that comes before it. *)
Lemma put_store_visible mode dttl now key value ttl sh :
  shard_wf sh →
  let '(sh1, ex) := put_expire now key sh in
  let entry := new_entry mode dttl now key value ttl ex
                 (dict_get_default (sh_version_marks sh1) key 0 + 1) in
  let sh' := (put_store mode dttl now key value ttl ex sh1).1 in
  ∃ evicted,
    (∀ k, visible now sh' k = put_visible now key entry evicted (visible now sh) k) ∧
    put_evicts key sh evicted ∧ e_value entry = value ∧
    (ttl_live dttl ttl now = true → live_value now (Some entry) = Some value).
Proof.
  intros Hw. pose proof (put_expire_wf now key sh Hw) as Hw1.
  pose proof (put_expire_visible now key sh) as Hv. pose proof (put_expire_cases now key sh Hw) as Hc.
  pose proof (put_expire_not_expired now key sh) as Hne. pose proof (put_expire_capacity now key sh) as Hcap.
  destruct (put_expire now key sh) as [sh1 ex]. cbn [fst snd] in *.
  destruct (put_store_get mode dttl now key value ttl ex sh1 Hw1) as (ev & Hget & Hev & _).
  exists ev. split_conj.
  - intros k. unfold visible at 1, put_visible. rewrite Hget.
    case_decide; [done|]. case_decide; [done|]. by rewrite <- Hv.
  - destruct ev as [x|]; [|by split]. destruct (Hev x eq_refl) as (Hm & Hs & Hcand & Hin).
    destruct Hc as [->|Hlt]; [|lia]. split; try (by intros ? [= <-]).
    intros Hk [= ->]. pose proof (put_store_keeps_key mode dttl now key value ttl ex sh Hw Hk) as Hkey.
    rewrite Hget, decide_True in Hkey by done. done.
  - apply new_entry_value.
  - intros Ht. apply new_entry_live; [done|]. intros e ->. by apply Hne.
Qed.

(** [put] under the shard lock: it succeeds and stores, or the source fails and nothing
    visible changes. *)
Lemma put_locked_visible mode dttl n now key value ttl sh src :
  shard_wf sh →
  let '((sh', src'), r) := put_locked mode dttl n now key value ttl (sh, src) in
  match r with
  | Ok job =>
      ∃ entry evicted,
        (∀ k, visible now sh' k = put_visible now key entry evicted (visible now sh) k) ∧
        put_evicts key sh evicted ∧ e_value entry = value ∧
        (ttl_live dttl ttl now = true → live_value now (Some entry) = Some value) ∧
        (is_Some job → mode = WRITE_BACK) ∧
        sd_data src' = match mode with
                       | WRITE_THROUGH => dict_set (sd_data src) key value
                       | _ => sd_data src
                       end
  | Raise e =>
      mode = WRITE_THROUGH ∧ e = OSError "injected SlowDictBackend failure" ∧
      (∀ k, visible now sh' k = visible now sh k) ∧ sd_data src' = sd_data src
  end.
Proof.
  intros Hw. unfold put_locked. pose proof (put_store_visible mode dttl now key value ttl sh Hw) as Hst.
  pose proof (put_expire_visible now key sh) as Hv.
  destruct (put_expire now key sh) as [sh1 ex]. cbn [fst] in Hv.
  destruct Hst as (ev & Hvis & Hev & Hval & Hlive).
  pose proof (source_write_spec (λ d, dict_set d key value) src : let '(_, _) := put_value key value src in _)
    as Hsrc.
  destruct (put_store mode dttl now key value ttl ex sh1) as [sh2 v]. cbn [fst] in Hvis.
  destruct mode.
  - eexists _, ev. split_conj; try done; by intros [].
  - destruct (put_value key value src) as [src' [[]|e]].
    + destruct Hsrc as [(_ & ? & _)|(_ & _ & Hd & _)]; [done|].
      eexists _, ev. split_conj; try done; by intros [].
    + destruct Hsrc as [(_ & [= ->] & Hd & _)|(_ & ? & _)]; [|done]. done.
  - eexists _, ev. by split_conj.
Qed.

(** ** [delete] and [clear] as a whole *)

Lemma delete_key_outcome mode n key sh src :
  let '((sh', src'), r) := delete_key_locked mode n key (sh, src) in
  match r with
  | Ok (existed, job) =>
      existed = dict_mem (sh_backend sh) key ∧ sh_backend sh' = dict_pop (sh_backend sh) key ∧
      (is_Some job ↔ mode = WRITE_BACK) ∧
      sd_data src' = match mode with
                     | WRITE_THROUGH => dict_pop (sd_data src) key
                     | _ => sd_data src
                     end
  | Raise e =>
      mode = WRITE_THROUGH ∧ e = OSError "injected SlowDictBackend failure" ∧
      sh' = sh ∧ sd_data src' = sd_data src
  end.
Proof.
  unfold delete_key_locked.
  pose proof (source_write_spec (λ d, dict_pop d key) src : let '(_, _) := delete_value key src in _)
    as Hsrc.
  assert (∀ sh1 : CacheShard K V P, sh_backend sh1 = sh_backend sh →
    let '(sh2, existed) := remove_entry_locked key RDelete sh1 in
    existed = dict_mem (sh_backend sh) key ∧
    sh_backend (if existed then set_stats inc_deletes sh2 else sh2) = dict_pop (sh_backend sh) key)
    as Hrem.
  { intros sh1 Hb. pose proof (remove_entry_fields key RDelete sh1) as Hf.
    destruct (remove_entry_locked key RDelete sh1) as [sh2 existed]. destruct Hf as (-> & Hb2 & _).
    rewrite Hb in *. split; [done|]. by destruct (dict_mem _ _). }
  destruct mode.
  - specialize (Hrem sh eq_refl). destruct (remove_entry_locked key RDelete sh) as [sh2 existed].
    destruct Hrem. split_conj; try done; by intros [].
  - destruct (delete_value key src) as [src' [[]|e]].
    + destruct Hsrc as [(_ & ? & _)|(_ & _ & Hd & _)]; [done|].
      specialize (Hrem sh eq_refl). destruct (remove_entry_locked key RDelete sh) as [sh2 existed].
      destruct Hrem. split_conj; try done; by intros [].
    + destruct Hsrc as [(_ & [= ->] & Hd & _)|(_ & ? & _)]; [|done]. done.
  - specialize (Hrem (mark_deleted n key sh).1 eq_refl).
    destruct (mark_deleted n key sh) as [sh1 job]. cbn [fst] in Hrem.
    destruct (remove_entry_locked key RDelete sh1) as [sh2 existed].
    destruct Hrem. split_conj; try done; split; eauto.
Qed.

Lemma delete_outcome mode n key sh src :
  let '((sh', src'), r) := delete_locked mode n key (sh, src) in
  match r with
  | Ok (existed, job) =>
      existed = dict_mem (sh_backend sh) key ∧ sh_backend sh' = dict_pop (sh_backend sh) key ∧
      (is_Some job ↔ mode = WRITE_BACK) ∧
      sd_data src' = match mode with
                     | WRITE_THROUGH => dict_pop (sd_data src) key
                     | _ => sd_data src
                     end
  | Raise e =>
      mode = WRITE_THROUGH ∧ e = OSError "injected SlowDictBackend failure" ∧
      sh' = sh ∧ sd_data src' = sd_data src
  end.
Proof.
  pose proof (delete_key_outcome mode n key sh src) as Hd. unfold delete_locked, mbind, M_bind.
  destruct (delete_key_locked mode n key (sh, src)) as [[sh1 src1] [[existed job]|e]]; done.
Qed.

(** Whatever the outcome, [clear] only removes entries, and only the source can stop it. *)
Lemma clear_keys_shrinks mode n keys st :
  let '(st', r) := clear_keys_locked mode n keys st in
  (∀ k, dict_get (sh_backend st'.1) k = dict_get (sh_backend st.1) k ∨
        dict_get (sh_backend st'.1) k = None) ∧
  match r with
  | Ok _ => True
  | Raise e => mode = WRITE_THROUGH ∧ e = OSError "injected SlowDictBackend failure"
  end.
Proof.
  revert st. induction keys as [|key keys IH]; intros [sh src]; [by split; [left|]|].
  cbn [clear_keys_locked]. unfold mbind, M_bind. pose proof (delete_key_outcome mode n key sh src) as Hd.
  destruct (delete_key_locked mode n key (sh, src)) as [[sh1 src1] [[b job]|e]].
  - destruct Hd as (_ & Hb & _). specialize (IH (sh1, src1)).
    destruct (clear_keys_locked mode n keys (sh1, src1)) as [[sh2 src2] r].
    destruct IH as [Hk Hr]. cbn [fst] in *. rewrite Hb in Hk.
    assert (∀ k, dict_get (sh_backend sh2) k = dict_get (sh_backend sh) k ∨
                 dict_get (sh_backend sh2) k = None) as Hk'.
    { intros k. specialize (Hk k). rewrite dict_get_pop in Hk. case_decide; naive_solver. }
    destruct r; by split.
  - destruct Hd as (Hm & -> & -> & _). by split; [left|].
Qed.

Lemma clear_locked_shrinks mode n st :
  let '(st', r) := clear_locked mode n st in
  (∀ k, dict_get (sh_backend st'.1) k = dict_get (sh_backend st.1) k ∨
        dict_get (sh_backend st'.1) k = None) ∧
  match r with
  | Ok _ => True
  | Raise e => mode = WRITE_THROUGH ∧ e = OSError "injected SlowDictBackend failure"
  end.
Proof.
  destruct st as [sh src]. unfold clear_locked, mbind, M_bind, get_state.
  pose proof (clear_keys_shrinks mode n (backend_keys (sh_backend sh)) (sh, src)) as Hk.
  destruct (clear_keys_locked mode n _ (sh, src)) as [[sh1 src1] [jobs|e]]; done.
Qed.

Lemma clear_locked_empty mode n st st' jobs :
  clear_locked mode n st = (st', Ok jobs) → sh_backend st'.1 = [].
Proof.
  unfold clear_locked, mbind, M_bind, get_state. destruct st as [sh src].
  destruct (clear_keys_locked mode n _ _) as [[sh1 src1] [jobs'|e]] eqn:E; [|done].
  intros [= <- <-]. by apply (clear_keys_empty mode n (sh, src)) in E.
Qed.

(** ** [dump] *)

Lemma expire_keys_acc keys n n' sh : (expire_keys keys n sh).1 = (expire_keys keys n' sh).1.
Proof.
  revert n n' sh. induction keys as [|key keys IH]; intros n n' sh; [done|]. cbn [expire_keys].
  destruct (remove_entry_locked key RExpire sh) as [sh1 b]. apply IH.
Qed.

(** [dump] removes what [_expire_shard] removes and lists the rest. *)
Lemma dump_entries_eq now entries sh :
  (dump_entries now entries sh).1 = (expire_keys (expired_keys entries now) 0 sh).1 ∧
  (dump_entries now entries sh).2
  = (λ e, snapshot e now) <$> filter (λ e, is_expired e now = false) entries.
Proof.
  unfold expired_keys. revert sh. induction entries as [|e entries IH]; intros sh; [done|].
  cbn [dump_entries]. destruct (is_expired e now) eqn:E.
  - rewrite (filter_cons_True (λ e, is_expired e now = true)) by done.
    rewrite (filter_cons_False (λ e, is_expired e now = false)) by congruence. cbn [fmap list_fmap expire_keys].
    destruct (remove_entry_locked (e_key e) RExpire sh) as [sh1 b]. cbn [fst].
    rewrite (expire_keys_acc _ _ 0). apply IH.
  - rewrite (filter_cons_False (λ e, is_expired e now = true)) by congruence.
    rewrite (filter_cons_True (λ e, is_expired e now = false)) by done.
    specialize (IH sh) as [IH1 IH2]. destruct (dump_entries now entries sh) as [sh1 snaps].
    cbn [fst snd fmap list_fmap] in *. by rewrite IH2.
Qed.

Lemma dump_locked_eq now sh :
  (dump_locked now sh).1 = (expire_shard_locked now sh).1 ∧
  (dump_locked now sh).2
  = (λ e, snapshot e now) <$> filter (λ e, is_expired e now = false) (backend_entries (sh_backend sh)).
Proof. apply dump_entries_eq. Qed.

(** The count [_expire_shard] returns is the number of entries that went away. *)
Lemma expire_keys_sizes keys n sh :
  shard_wf sh →
  (expire_keys keys n sh).2
  = n + backend_size (sh_backend sh) - backend_size (sh_backend (expire_keys keys n sh).1).
Proof.
  revert n sh. induction keys as [|key keys IH]; intros n sh Hw; [cbn; lia|]. cbn [expire_keys].
  pose proof (remove_entry_wf key RExpire sh Hw) as Hw1.
  pose proof (remove_entry_size key RExpire sh (sw_core _ Hw)) as Hs.
  pose proof (remove_entry_fields key RExpire sh) as Hf.
  destruct (remove_entry_locked key RExpire sh) as [sh1 b]. destruct Hf as (-> & _).
  cbn [fst] in *. rewrite IH by done. destruct (dict_mem _ _); lia.
Qed.

Lemma expire_shard_visible now sh k :
  shard_wf sh → visible now (expire_shard_locked now sh).1 k = visible now sh k.
Proof.
  intros Hw. unfold visible. rewrite expire_shard_backend by done.
  destruct (dict_get _ k) as [e|]; [|done]. simpl. destruct (is_expired e now) eqn:E; [done|].
  simpl. by rewrite E.
Qed.
End spec.
