(* ===== verification/Cache.v ===== *)
(** The cache facade: the state and the operations of src/cachelab/core/cache.py, with
    the worker pool and the scheduler it owns (src/cachelab/workers/worker_pool.py,
    scheduler.py, src/cachelab/core/lifecycle.py, stats.py).

    An operation is a computation [M (Cache K V P) A]: it threads the state of the cache
    and returns or raises, and what it wrote before an exception stays written.  Each
    definition runs one call from its start to its end; the critical sections it is made
    of are those of [Shard].  Log records are not part of the state. *)

From stdpp Require Import base tactics numbers option strings sets list.
From S2P Require Import Prelude PyDict PyFloat PyMonad Config Entry Policies Storage Jobs.
From S2P Require Import Shard.
Local Open Scope string_scope.
Local Open Scope list_scope.
Local Open Scope Z_scope.

(** [stable_hash] on the type of the keys: what routes a key to its shard. *)
Class KeyHash (K : Type) : Type := key_hash : K → Z.

(** ** State *)

Inductive LifecycleState : Type := CREATED | STARTED | CLOSING | CLOSED.
#[export] Instance LifecycleState_eq_dec : EqDecision LifecycleState.
Proof. solve_decision. Defined.

(** [_RuntimeStats] and the names of its fields. *)
Inductive runtime_field : Type :=
  | worker_jobs_completed | worker_jobs_failed | write_back_retries
  | stale_write_back_jobs_skipped | flush_failures | shutdown_flush_failures.
#[export] Instance runtime_field_eq_dec : EqDecision runtime_field.
Proof. solve_decision. Defined.
Record RuntimeStats : Type := mkRuntime {
  rt_jobs_completed : Z;
  rt_jobs_failed : Z;
  rt_write_back_retries : Z;
  rt_stale_skipped : Z;
  rt_flush_failures : Z;
  rt_shutdown_flush_failures : Z;
}.
Definition runtime_init : RuntimeStats := mkRuntime 0 0 0 0 0 0.
Definition runtime_inc (f : runtime_field) (r : RuntimeStats) : RuntimeStats :=
  let one g := if decide (f = g) then 1 else 0 in
  mkRuntime (rt_jobs_completed r + one worker_jobs_completed)
    (rt_jobs_failed r + one worker_jobs_failed)
    (rt_write_back_retries r + one write_back_retries)
    (rt_stale_skipped r + one stale_write_back_jobs_skipped)
    (rt_flush_failures r + one flush_failures)
    (rt_shutdown_flush_failures r + one shutdown_flush_failures).

Record PolicyStatsSnapshot : Type := mkPolicyStats {
  pst_name : string;
  pst_evictions : Z;
  pst_tracked_keys : Z;
  pst_metadata_size : Z;
}.
Record ShardStatsSnapshot : Type := mkShardStats {
  sst_index : Z;
  sst_size : Z;
  sst_capacity : Z;
  sst_hits : Z;
  sst_misses : Z;
  sst_puts : Z;
  sst_deletes : Z;
  sst_evictions : Z;
  sst_expirations : Z;
  sst_lock_contention : Z;
  sst_policy : PolicyStatsSnapshot;
}.
Record CacheStatsSnapshot : Type := mkCacheStats {
  cst_hits : Z;
  cst_misses : Z;
  cst_hit_ratio : float;
  cst_puts : Z;
  cst_deletes : Z;
  cst_evictions : Z;
  cst_expirations : Z;
  cst_size : Z;
  cst_capacity : Z;
  cst_queue_depth : Z;
  cst_queue_dropped : Z;
  cst_runtime : RuntimeStats;
  cst_shards : list ShardStatsSnapshot;
}.

(** [WorkerPool] and [ExpirationScheduler], without their threads' program counters. *)
Record WorkerPool : Type := mkPool {
  wp_count : Z;
  wp_started : bool;
  wp_threads : Z;          (* len(self._threads) *)
  wp_stop_event : bool;
}.
Record ExpirationScheduler : Type := mkScheduler {
  sch_stop : bool;
  sch_thread : bool;       (* self._thread is not None *)
}.

(** [Flight]: shared by the leader and the waiters of a key, known by its position in
    the store of flights. *)
Record Flight (V : Type) : Type := mkFlight {
  fl_event : bool;
  fl_result : V;
  fl_exception : option exn;
}.
Arguments mkFlight {_} _ _ _.
Arguments fl_event {_} _.
Arguments fl_result {_} _.
Arguments fl_exception {_} _.

Record Cache (K V P : Type) : Type := mkCache {
  c_config : CacheConfig;
  c_clock : FakeClock;
  c_write_mode : WriteMode;
  c_source : SlowDictBackend K V;
  c_shards : list (CacheShard K V P);
  c_queue : CacheJobQueue K V;
  c_runtime : RuntimeStats;
  c_last_snapshot : option CacheStatsSnapshot;
  c_state : LifecycleState;
  c_warned : bool;
  c_pool : WorkerPool;
  c_scheduler : ExpirationScheduler;
  c_flights : list (Flight V);
}.
Arguments mkCache {_ _ _} _ _ _ _ _ _ _ _ _ _ _ _ _.
Arguments c_config {_ _ _} _.
Arguments c_clock {_ _ _} _.
Arguments c_write_mode {_ _ _} _.
Arguments c_source {_ _ _} _.
Arguments c_shards {_ _ _} _.
Arguments c_queue {_ _ _} _.
Arguments c_runtime {_ _ _} _.
Arguments c_last_snapshot {_ _ _} _.
Arguments c_state {_ _ _} _.
Arguments c_warned {_ _ _} _.
Arguments c_pool {_ _ _} _.
Arguments c_scheduler {_ _ _} _.
Arguments c_flights {_ _ _} _.

Section setters.
Context {K V P : Type}.
Implicit Types c : Cache K V P.

Definition set_clock (x : FakeClock) c : Cache K V P :=
  mkCache (c_config c) x (c_write_mode c) (c_source c) (c_shards c) (c_queue c) (c_runtime c)
    (c_last_snapshot c) (c_state c) (c_warned c) (c_pool c) (c_scheduler c) (c_flights c).
Definition set_source (x : SlowDictBackend K V) c : Cache K V P :=
  mkCache (c_config c) (c_clock c) (c_write_mode c) x (c_shards c) (c_queue c) (c_runtime c)
    (c_last_snapshot c) (c_state c) (c_warned c) (c_pool c) (c_scheduler c) (c_flights c).
Definition set_shards (x : list (CacheShard K V P)) c : Cache K V P :=
  mkCache (c_config c) (c_clock c) (c_write_mode c) (c_source c) x (c_queue c) (c_runtime c)
    (c_last_snapshot c) (c_state c) (c_warned c) (c_pool c) (c_scheduler c) (c_flights c).
Definition set_queue (x : CacheJobQueue K V) c : Cache K V P :=
  mkCache (c_config c) (c_clock c) (c_write_mode c) (c_source c) (c_shards c) x (c_runtime c)
    (c_last_snapshot c) (c_state c) (c_warned c) (c_pool c) (c_scheduler c) (c_flights c).
Definition set_runtime (x : RuntimeStats) c : Cache K V P :=
  mkCache (c_config c) (c_clock c) (c_write_mode c) (c_source c) (c_shards c) (c_queue c) x
    (c_last_snapshot c) (c_state c) (c_warned c) (c_pool c) (c_scheduler c) (c_flights c).
Definition set_last_snapshot (x : option CacheStatsSnapshot) c : Cache K V P :=
  mkCache (c_config c) (c_clock c) (c_write_mode c) (c_source c) (c_shards c) (c_queue c)
    (c_runtime c) x (c_state c) (c_warned c) (c_pool c) (c_scheduler c) (c_flights c).
Definition set_state (x : LifecycleState) c : Cache K V P :=
  mkCache (c_config c) (c_clock c) (c_write_mode c) (c_source c) (c_shards c) (c_queue c)
    (c_runtime c) (c_last_snapshot c) x (c_warned c) (c_pool c) (c_scheduler c) (c_flights c).
Definition set_warned (x : bool) c : Cache K V P :=
  mkCache (c_config c) (c_clock c) (c_write_mode c) (c_source c) (c_shards c) (c_queue c)
    (c_runtime c) (c_last_snapshot c) (c_state c) x (c_pool c) (c_scheduler c) (c_flights c).
Definition set_pool (x : WorkerPool) c : Cache K V P :=
  mkCache (c_config c) (c_clock c) (c_write_mode c) (c_source c) (c_shards c) (c_queue c)
    (c_runtime c) (c_last_snapshot c) (c_state c) (c_warned c) x (c_scheduler c) (c_flights c).
Definition set_scheduler (x : ExpirationScheduler) c : Cache K V P :=
  mkCache (c_config c) (c_clock c) (c_write_mode c) (c_source c) (c_shards c) (c_queue c)
    (c_runtime c) (c_last_snapshot c) (c_state c) (c_warned c) (c_pool c) x (c_flights c).
Definition set_flights (x : list (Flight V)) c : Cache K V P :=
  mkCache (c_config c) (c_clock c) (c_write_mode c) (c_source c) (c_shards c) (c_queue c)
    (c_runtime c) (c_last_snapshot c) (c_state c) (c_warned c) (c_pool c) (c_scheduler c) x.
End setters.

(** ** Construction *)

(** The keyword arguments of [Cache.__init__]; [None] is [_CONFIG_UNSET]. *)
Record InitArgs : Type := mkInitArgs {
  ia_capacity : option Z;
  ia_default_ttl : option (option float);
  ia_policy : option string;
  ia_shard_count : option Z;
  ia_worker_count : option Z;
  ia_scheduler_interval : option float;
  ia_queue_size : option Z;
  ia_write_mode : option string;
  ia_backend : option string;
}.
Definition no_args : InitArgs := mkInitArgs None None None None None None None None None.

(** The names of the arguments that were passed. *)
Definition conflicting (a : InitArgs) : list string :=
  fst <$> filter (λ nv, nv.2 = true)
    [("capacity", is_not_none (ia_capacity a));
     ("default_ttl", is_not_none (ia_default_ttl a));
     ("policy", is_not_none (ia_policy a));
     ("shard_count", is_not_none (ia_shard_count a));
     ("worker_count", is_not_none (ia_worker_count a));
     ("scheduler_interval", is_not_none (ia_scheduler_interval a));
     ("queue_size", is_not_none (ia_queue_size a));
     ("write_mode", is_not_none (ia_write_mode a));
     ("backend", is_not_none (ia_backend a))].

(** The call [CacheConfig(...)] made from the arguments, before [__post_init__]. *)
Definition args_config (a : InitArgs) : CacheConfig := {|
  cfg_capacity := default 128 (ia_capacity a);
  cfg_default_ttl := default None (ia_default_ttl a);
  cfg_policy := default "lru" (ia_policy a);
  cfg_shard_count := default 1 (ia_shard_count a);
  cfg_worker_count := default 0 (ia_worker_count a);
  cfg_backend := default "memory" (ia_backend a);
  cfg_write_mode := default (write_mode_value CACHE_ONLY) (ia_write_mode a);
  cfg_scheduler_interval := default (float_of_Z 1) (ia_scheduler_interval a);
  cfg_queue_size := default 0 (ia_queue_size a);
  cfg_write_back_retry_count := cfg_write_back_retry_count default_config;
  cfg_write_back_retry_delay := cfg_write_back_retry_delay default_config;
  cfg_shutdown_flush := cfg_shutdown_flush default_config;
  cfg_shutdown_timeout := cfg_shutdown_timeout default_config;
  cfg_active_expiration := cfg_active_expiration default_config;
  cfg_queue_put_timeout := cfg_queue_put_timeout default_config;
|}.

Definition init_config (config : option CacheConfig) (a : InitArgs) : result CacheConfig :=
  match config with
  | Some cfg =>
      match conflicting a with
      | [] => Ok cfg
      | _ => Raise (ConfigurationError "when config= is provided, do not also pass")
      end
  | None => post_init (args_config a)
  end.

(** [_make_backend] *)
Definition make_backend {K V} (name : string) : result (InMemoryBackend K V) :=
  if String.eqb name "memory" then Ok [] else Raise (ConfigurationError "unsupported backend").

(** The generator expression that builds the shards. *)
Fixpoint init_shards {K V} `{EqDecision K} (cfg : CacheConfig) (index : Z) (capacities : list Z)
    : result (list (CacheShard K V (AnyPolicy K))) :=
  match capacities with
  | [] => Ok []
  | shard_capacity :: capacities' =>
      match make_backend (K:=K) (V:=V) (cfg_backend cfg) with
      | Raise e => Raise e
      | Ok backend =>
          match make_policy (cfg_policy cfg) with
          | Raise e => Raise e
          | Ok policy =>
              match init_shards cfg (index + 1) capacities' with
              | Raise e => Raise e
              | Ok shards =>
                  Ok (set_backend backend (shard_init index shard_capacity policy) :: shards)
              end
          end
      end
  end.

(** [Cache.__init__].  [source] is the source backend the caller passes or the fresh one
    the code makes, [clock] the clock. *)
Definition cache_init {K V} `{EqDecision K} (config : option CacheConfig) (args : InitArgs)
    (source : SlowDictBackend K V) (clock : FakeClock) : result (Cache K V (AnyPolicy K)) :=
  match init_config config args with
  | Raise e => Raise e
  | Ok cfg =>
      match parse_write_mode (cfg_write_mode cfg) with
      | Raise e => Raise e
      | Ok mode =>
          match init_shards cfg 0 (shard_capacities (cfg_capacity cfg) (cfg_shard_count cfg)) with
          | Raise e => Raise e
          | Ok shards =>
              Ok {| c_config := cfg;
                    c_clock := clock;
                    c_write_mode := mode;
                    c_source := source;
                    c_shards := shards;
                    c_queue := queue_init (cfg_queue_size cfg);
                    c_runtime := runtime_init;
                    c_last_snapshot := None;
                    c_state := CREATED;
                    c_warned := false;
                    c_pool := mkPool (cfg_worker_count cfg) false 0 false;
                    c_scheduler := mkScheduler false false;
                    c_flights := [] |}
          end
      end
  end.

(** ** Operations *)

Section ops.
Context {K V P : Type} `{EqDecision K} `{KeyHash K} `{PyNone V} `{EvictionPolicy K P}.
Implicit Types (c : Cache K V P) (key : K) (value : V).
Local Abbreviation MC := (M (Cache K V P)).

(** *** Access to the parts *)

(** [self._shard_for(key).index] *)
Definition shard_for c key : Z := key_hash key mod Z.of_nat (length (c_shards c)).

(** The position [self._shards[i]] denotes; a negative index counts from the end. *)
Definition shard_slot (n : nat) (i : Z) : nat :=
  if 0 <=? i then Z.to_nat i else if 0 <=? Z.of_nat n + i then Z.to_nat (Z.of_nat n + i) else n.

(** [with self._shards[i].lock: m], [m] using the shard and the source backend. *)
Definition with_lock_src {A} (i : Z) (m : M (CacheShard K V P * SlowDictBackend K V) A) : MC A :=
  λ c,
    let slot := shard_slot (length (c_shards c)) i in
    match c_shards c !! slot with
    | None => (c, Raise IndexError)
    | Some sh =>
        let '((sh', src'), r) := m (sh, c_source c) in
        (set_source src' (set_shards (<[slot:=sh']> (c_shards c)) c), r)
    end.

(** The same for a block that uses only the shard. *)
Definition with_lock {A} (i : Z) (f : CacheShard K V P → CacheShard K V P * A) : MC A :=
  with_lock_src i (λ '(sh, src), let '(sh', a) := f sh in ((sh', src), Ok a)).

(** A call on [self.source_backend] outside the shard locks. *)
Definition with_source {A} (m : M (SlowDictBackend K V) A) : MC A :=
  λ c, let '(src, r) := m (c_source c) in (set_source src c, r).

Definition now : MC float := λ c, (c, Ok (clock_now (c_clock c))).
Definition sleep (seconds : float) : MC unit :=
  modify (λ c, set_clock (clock_sleep (c_clock c) seconds) c).

(** [Cache._inc_runtime] *)
Definition inc_runtime (f : runtime_field) : MC unit :=
  modify (λ c, set_runtime (runtime_inc f (c_runtime c)) c).

(** *** Guards *)

(** [Cache._require_not_closed] *)
Definition require_not_closed : MC unit :=
  c ← get_state;
  match c_state c with
  | CLOSED | CLOSING => raise (RuntimeError "cannot operate on a closed cache")
  | _ => mret tt
  end.

(** [Cache._require_workers] *)
Definition require_workers : MC unit :=
  c ← get_state;
  if cfg_worker_count (c_config c) <=? 0
  then raise (RuntimeError "requires a worker pool; construct the cache with worker_count > 0")
  else mret tt.

(** [Cache._maybe_warn_cache_not_started]; the warning itself goes to the log. *)
Definition maybe_warn_cache_not_started : MC unit :=
  c ← get_state;
  if c_warned c then mret tt
  else if bool_decide (c_state c = STARTED) then mret tt
  else if cfg_worker_count (c_config c) =? 0 then
    (if bool_decide (c_write_mode c = WRITE_BACK) then modify (set_warned true) else mret tt)
  else modify (set_warned true).

(** [Cache._validate_explicit_ttl] *)
Definition validate_explicit_ttl (ttl : ttl_arg) : MC unit :=
  match ttl with
  | TTL_UNSET | TTL_NONE => mret tt
  | TTL_SECONDS t =>
      if fle t fzero then raise (ValidationError "ttl must be positive when provided")
      else mret tt
  end.

(** *** The queue *)

(** [Cache._enqueue_job] *)
Definition enqueue_job (job : Job K V) (critical : bool) : MC bool :=
  ok ← (λ c, let '(q, ok) := queue_put job critical (c_queue c) in (set_queue q c, Ok ok));
  if (ok : bool) then mret true
  else if critical then raise QueueBackpressureError
  else mret false.

(** The release loop: [_resolve_pending_locked] for each of the jobs. *)
Definition release_pending (jobs : list (FlushWriteBack K V)) : MC unit :=
  for_each jobs (λ job,
    with_lock (f_shard_index job) (λ sh, (resolve_pending_locked (f_key job) sh, tt))).

(** [Cache._enqueue_flush_jobs] *)
Fixpoint enqueue_flush_jobs (jobs : list (FlushWriteBack K V)) : MC unit :=
  match jobs with
  | [] => mret tt
  | job :: jobs' =>
      r ← attempt (enqueue_job (FlushJob job) true);
      match r with
      | Ok _ => enqueue_flush_jobs jobs'
      | Raise QueueBackpressureError => release_pending jobs ;; raise QueueBackpressureError
      | Raise e => raise e
      end
  end.

(** *** Reads and writes *)

(** [Cache.get] *)
Definition cache_get key (dflt : V) : MC V :=
  require_not_closed ;;
  c ← get_state;
  t ← now;
  '(found, value) ← with_lock (shard_for c key) (read_value_locked t key true true);
  mret (if found : bool then value else dflt).

(** [Cache.contains] *)
Definition cache_contains key : MC bool :=
  require_not_closed ;;
  c ← get_state;
  t ← now;
  '(found, _) ← with_lock (shard_for c key) (read_value_locked t key false true);
  mret found.

(** [Cache.put] *)
Definition cache_put key value (ttl : ttl_arg) : MC unit :=
  require_not_closed ;;
  maybe_warn_cache_not_started ;;
  validate_explicit_ttl ttl ;;
  c ← get_state;
  t ← now;
  flush_job ← with_lock_src (shard_for c key)
    (put_locked (c_write_mode c) (cfg_default_ttl (c_config c))
       (cfg_write_back_retry_count (c_config c)) t key value ttl);
  match flush_job with
  | Some job => enqueue_flush_jobs [job]
  | None => mret tt
  end.

(** [Cache.delete] *)
Definition cache_delete key : MC bool :=
  require_not_closed ;;
  c ← get_state;
  '(existed, flush_job) ← with_lock_src (shard_for c key)
    (delete_locked (c_write_mode c) (cfg_write_back_retry_count (c_config c)) key);
  match flush_job with
  | Some job => enqueue_flush_jobs [job]
  | None => mret tt
  end ;;
  mret existed.

(** The loop of [Cache.clear] over the shards, with the jobs it collects. *)
Fixpoint clear_shards (indices : list Z) : MC (list (FlushWriteBack K V)) :=
  match indices with
  | [] => mret []
  | i :: indices' =>
      c ← get_state;
      jobs ← with_lock_src i
        (clear_locked (c_write_mode c) (cfg_write_back_retry_count (c_config c)));
      jobs' ← clear_shards indices';
      mret (jobs ++ jobs')
  end.
(** [range(len(self._shards))], which is also the order of [for shard in self._shards]. *)
Definition shard_indices c : list Z := py_range (Z.of_nat (length (c_shards c))).

(** [Cache.clear] *)
Definition cache_clear : MC unit :=
  require_not_closed ;;
  c ← get_state;
  flush_jobs ← clear_shards (shard_indices c);
  enqueue_flush_jobs flush_jobs.

(** [Cache.restore_entry_metadata] *)
Definition restore_entry_metadata key (hit_count : Z) : MC unit :=
  require_not_closed ;;
  c ← get_state;
  with_lock (shard_for c key) (λ sh, (restore_locked key hit_count sh, tt)).

(** *** Diagnostics *)

(** [Cache.size] *)
Definition cache_size : MC Z :=
  require_not_closed ;;
  c ← get_state;
  mret (py_sum ((λ sh, backend_size (sh_backend sh)) <$> c_shards c)).

(** [Cache.inspect] *)
Definition cache_inspect key : MC (option (EntrySnapshot K V)) :=
  require_not_closed ;;
  c ← get_state;
  t ← now;
  with_lock (shard_for c key) (inspect_locked t key).

(** Python's [xs[:n]] *)
Definition py_take {A} (n : Z) (xs : list A) : list A :=
  if 0 <=? n then take (Z.to_nat n) xs else take (Z.to_nat (Z.of_nat (length xs) + n)) xs.

Fixpoint dump_shards (indices : list Z) : MC (list (EntrySnapshot K V)) :=
  match indices with
  | [] => mret []
  | i :: indices' =>
      t ← now;
      snaps ← with_lock i (dump_locked t);
      snaps' ← dump_shards indices';
      mret (snaps ++ snaps')
  end.
(** [Cache.dump] *)
Definition cache_dump (limit : option Z) : MC (list (EntrySnapshot K V)) :=
  require_not_closed ;;
  c ← get_state;
  snapshots ← dump_shards (shard_indices c);
  mret (match limit with Some n => py_take n snapshots | None => snapshots end).

Definition shard_stats (sh : CacheShard K V P) : ShardStatsSnapshot := {|
  sst_index := sh_index sh;
  sst_size := backend_size (sh_backend sh);
  sst_capacity := sh_capacity sh;
  sst_hits := hits (sh_stats sh);
  sst_misses := misses (sh_stats sh);
  sst_puts := puts (sh_stats sh);
  sst_deletes := deletes (sh_stats sh);
  sst_evictions := evictions (sh_stats sh);
  sst_expirations := expirations (sh_stats sh);
  sst_lock_contention := sh_contentions sh;
  sst_policy := {|
    pst_name := policy_name (sh_policy sh);
    pst_evictions := evictions (sh_stats sh);
    pst_tracked_keys := policy_len (sh_policy sh);
    pst_metadata_size := metadata_size (sh_policy sh);
  |};
|}.
(** [Cache.stats] *)
Definition cache_stats c : CacheStatsSnapshot :=
  let shards := shard_stats <$> c_shards c in
  let hits := py_sum (sst_hits <$> shards) in
  let misses := py_sum (sst_misses <$> shards) in
  let total_reads := hits + misses in
  {| cst_hits := hits;
     cst_misses := misses;
     cst_hit_ratio := if total_reads =? 0 then fzero else int_div hits total_reads;
     cst_puts := py_sum (sst_puts <$> shards);
     cst_deletes := py_sum (sst_deletes <$> shards);
     cst_evictions := py_sum (sst_evictions <$> shards);
     cst_expirations := py_sum (sst_expirations <$> shards);
     cst_size := py_sum (sst_size <$> shards);
     cst_capacity := py_sum (sst_capacity <$> shards);
     cst_queue_depth := queue_depth (c_queue c);
     cst_queue_dropped := q_dropped (c_queue c);
     cst_runtime := c_runtime c;
     cst_shards := shards |}.

(** [Cache.last_snapshot] *)
Definition cache_last_snapshot c : option CacheStatsSnapshot := c_last_snapshot c.

(** [Cache._count_dirty_entries] *)
Definition count_dirty_entries c : Z := py_sum (count_dirty <$> c_shards c).

(** *** Expiration and background requests *)

(** [Cache._expire_shard] *)
Definition expire_shard (i : Z) : MC Z :=
  t ← now; with_lock i (expire_shard_locked t).

Fixpoint expire_shards (indices : list Z) : MC Z :=
  match indices with
  | [] => mret 0
  | i :: indices' => n ← expire_shard i; n' ← expire_shards indices'; mret (n + n')
  end.
(** [Cache.expire_all] *)
Definition expire_all : MC Z :=
  require_not_closed ;;
  c ← get_state;
  expire_shards (shard_indices c).

(** [Cache.preload] *)
Definition cache_preload key (loader : result V) (ttl : ttl_arg) : MC bool :=
  require_not_closed ;;
  validate_explicit_ttl ttl ;;
  require_workers ;;
  maybe_warn_cache_not_started ;;
  c ← get_state;
  let '(ttl_supplied, effective_ttl) :=
    match ttl with
    | TTL_UNSET => (false, None)
    | TTL_NONE => (true, None)
    | TTL_SECONDS t => (true, Some t)
    end in
  enqueue_job (PreloadKey (shard_for c key) key loader effective_ttl ttl_supplied) false.

(** [Cache.request_snapshot] *)
Definition request_snapshot (request_id : string) : MC bool :=
  require_not_closed ;;
  require_workers ;;
  enqueue_job (SnapshotStats request_id) false.

(** [Cache.scheduler_tick] *)
Definition scheduler_tick : MC unit :=
  require_not_closed ;;
  modify (λ c, set_queue (tick_once (Z.of_nat (length (c_shards c))) (c_queue c)) c).

(** *** Single flight *)

(** Registration of a new [Flight] for [key]. *)
Definition new_flight (i : Z) key : MC nat :=
  c ← get_state;
  let fid := length (c_flights c) in
  modify (λ c, set_flights (c_flights c ++ [mkFlight false py_none None]) c) ;;
  with_lock i (λ sh, (set_singleflight (dict_set (sh_singleflight sh) key fid) sh, tt)) ;;
  mret fid.

(** The block that ends a flight: its outcome is written, the registration of the key is
    dropped and the event is set. *)
Definition finish_flight (i : Z) key (fid : nat) (outcome : Flight V → Flight V) : MC unit :=
  modify (λ c, set_flights (alter outcome fid (c_flights c)) c) ;;
  with_lock i (λ sh, (set_singleflight (dict_pop (sh_singleflight sh) key) sh, tt)).

(** [Cache._fail_flight_locked] *)
Definition fail_flight_locked (i : Z) key (fid : nat) (e : exn) : MC unit :=
  finish_flight i key fid (λ f, mkFlight true (fl_result f) (Some e)).

(** What the first critical section of [get_or_compute] decides. *)
Inductive flight_role : Type :=
  | RHit (value : V)
  | RLeader (fid : nat)
  | RWaiter (fid : nat).

(** The first critical section of [get_or_compute]: one step, the shard lock being held from
    the read to the registration. *)
Definition join_flight key : MC flight_role :=
  c ← get_state;
  t ← now;
  '(found, value) ← with_lock (shard_for c key) (read_value_locked t key true true);
  if found : bool then mret (RHit value)
  else
    flight ← with_lock (shard_for c key) (λ sh, (sh, dict_get (sh_singleflight sh) key));
    match flight with
    | Some fid => mret (RWaiter fid)
    | None => fid ← new_flight (shard_for c key) key; mret (RLeader fid)
    end.

(** The leader's part, from the call of the loader to the publication. *)
Definition lead_flight key (loader : MC V) (ttl : ttl_arg) (fid : nat) : MC V :=
  c ← get_state;
  let i := shard_for c key in
  r ← attempt loader;
  match r with
  | Raise e => fail_flight_locked i key fid e ;; raise e
  | Ok loaded =>
      w ← attempt (cache_put key loaded ttl);
      match w with
      | Ok _ | Raise QueueBackpressureError =>
          finish_flight i key fid (λ f, mkFlight true loaded (fl_exception f)) ;; mret loaded
      | Raise e => fail_flight_locked i key fid e ;; raise e
      end
  end.

(** The waiter's part once [flight.event.wait()] has ended; [None] while it waits. *)
Definition await_flight (fid : nat) : MC (option V) :=
  c ← get_state;
  match c_flights c !! fid with
  | Some f =>
      if fl_event f then
        match fl_exception f with
        | Some e => raise e
        | None => mret (Some (fl_result f))
        end
      else mret None
  | None => mret None
  end.

(** [Cache.get_or_compute].  [loader] is the caller's function, which may use the cache
    itself; [others] is what the other threads do while a waiter waits.  [None] stands
    for a call whose flight has not ended yet. *)
Definition get_or_compute key (loader : MC V) (ttl : ttl_arg) (others : MC unit) : MC (option V) :=
  require_not_closed ;;
  validate_explicit_ttl ttl ;;
  role ← join_flight key;
  match role with
  | RHit value => mret (Some value)
  | RLeader fid => value ← lead_flight key loader ttl fid; mret (Some value)
  | RWaiter fid => others ;; await_flight fid
  end.

(** *** Workers *)

(** The [except] branch of [Cache._flush_write_back_job]. *)
Definition flush_failed (job : FlushWriteBack K V) : MC bool :=
  let drop_flush :=
    inc_runtime flush_failures ;;
    with_lock (f_shard_index job) (λ sh, (resolve_pending_locked (f_key job) sh, false)) in
  c ← get_state;
  if 0 <? f_retries_left job then
    inc_runtime write_back_retries ;;
    sleep (cfg_write_back_retry_delay (c_config c)) ;;
    let retry := mkFlush (f_shard_index job) (f_key job) (f_value job) (f_version job)
                   (f_operation job) (f_retries_left job - 1) (f_attempt job + 1) in
    r ← attempt (enqueue_job (FlushJob retry) true);
    match r with
    | Ok _ => mret true
    | Raise QueueBackpressureError => drop_flush
    | Raise e => raise e
    end
  else drop_flush.

(** [Cache._flush_write_back_job] *)
Definition flush_write_back_job (job : FlushWriteBack K V) : MC bool :=
  stale ← with_lock (f_shard_index job) (flush_check_locked job);
  if stale : bool then inc_runtime stale_write_back_jobs_skipped ;; mret true
  else
    applied ← attempt (with_source (apply_write_back job));
    match applied with
    | Raise _ => flush_failed job
    | Ok _ => with_lock (f_shard_index job) (λ sh, (flush_finish_locked job sh, true))
    end.

(** [Cache._handle_job] *)
Definition handle_job (job : Job K V) : MC unit :=
  match job with
  | ExpireShard i => expire_shard i ;; inc_runtime worker_jobs_completed
  | FlushJob job =>
      completed ← flush_write_back_job job;
      inc_runtime (if completed : bool then worker_jobs_completed else worker_jobs_failed)
  | PreloadKey _ key loader ttl ttl_supplied =>
      let put_ttl :=
        if ttl_supplied : bool
        then match ttl with Some t => TTL_SECONDS t | None => TTL_NONE end
        else TTL_UNSET in
      value ← lift loader;
      cache_put key value put_ttl ;;
      inc_runtime worker_jobs_completed
  | SnapshotStats _ =>
      modify (λ c, set_last_snapshot (Some (cache_stats c)) c) ;;
      inc_runtime worker_jobs_completed
  | StopWorker _ => inc_runtime worker_jobs_failed
  end.

(** The queue methods on the cache's queue. *)
Definition with_queue {A} (m : M (CacheJobQueue K V) A) : MC A :=
  λ c, let '(q, r) := m (c_queue c) in (set_queue q c, r).

(** One iteration of [WorkerPool._run] that finds a job and is not interrupted: the handler runs,
    a failure is recorded, the task is marked done.  The handler of a flush job gives its lock up
    twice; the iteration cut at these points, with other workers and clients acting in
    between, is [phase_step] and [worker_run].  A [PreloadKey] job taken while [close] holds the
    lifecycle lock waits in [_require_not_closed] until [close] returns, so it is not done
    within it. *)
Definition worker_step : MC unit :=
  c ← get_state;
  match queue_get (c_queue c) with
  | None => mret tt
  | Some (job, q) =>
      modify (set_queue q) ;;
      match job, c_state c with
      | PreloadKey _ _ (Ok _) _ _, CLOSING => mret tt
      | StopWorker _, _ => with_queue queue_task_done
      | _, _ =>
          r ← attempt (handle_job job);
          match r with Ok _ => mret tt | Raise _ => inc_runtime worker_jobs_failed end ;;
          with_queue queue_task_done
      end
  end.

(** [n] jobs taken from the queue, one after the other. *)
Fixpoint worker_steps (n : nat) : MC unit :=
  match n with
  | O => mret tt
  | S n' => worker_step ;; worker_steps n'
  end.

(** *** Lifecycle *)

(** [WorkerPool.start] *)
Definition pool_start (p : WorkerPool) : WorkerPool :=
  if wp_started p || (wp_count p =? 0) then p
  else mkPool (wp_count p) true (wp_threads p + wp_count p) false.

(** [ExpirationScheduler.start] and [stop]. *)
Definition scheduler_start (s : ExpirationScheduler) : ExpirationScheduler :=
  if sch_thread s && negb (sch_stop s) then s else mkScheduler false true.
Definition scheduler_stop (s : ExpirationScheduler) : ExpirationScheduler :=
  mkScheduler true (sch_thread s).

(** [Cache.start] *)
Definition cache_start : MC unit :=
  c ← get_state;
  match c_state c with
  | STARTED => mret tt
  | CLOSED | CLOSING => raise (RuntimeError "cannot restart a closed cache")
  | CREATED =>
      modify (λ c, set_pool (pool_start (c_pool c)) c) ;;
      let cfg := c_config c in
      (if cfg_active_expiration cfg && (0 <? cfg_worker_count cfg)
          && flt fzero (cfg_scheduler_interval cfg)
       then modify (λ c, set_scheduler (scheduler_start (c_scheduler c)) c)
       else mret tt) ;;
      (if bool_decide (c_write_mode c = WRITE_BACK) && (cfg_worker_count cfg =? 0)
       then modify (set_warned true) else mret tt) ;;
      modify (set_state STARTED)
  end.

(** What the worker threads do while [close] waits for them: the number of jobs they
    finish before the deadline of [join_until] and during [WorkerPool.stop], and the
    number of threads still alive at the end. *)
Record CloseEnv : Type := mkCloseEnv {
  ce_join_steps : nat;
  ce_stop_steps : nat;
  ce_survivors : Z;
}.

(** [WorkerPool.stop] *)
Definition pool_stop (env : CloseEnv) : MC unit :=
  c ← get_state;
  (if wp_started (c_pool c) then
     modify (λ c, set_pool (mkPool (wp_count (c_pool c)) true (wp_threads (c_pool c)) true) c) ;;
     for_each (py_range (wp_threads (c_pool c)))
       (λ _, modify (λ c, set_queue (queue_offer (StopWorker "shutdown") (c_queue c)).1 c)) ;;
     worker_steps (ce_stop_steps env) ;;
     modify (λ c, set_pool (mkPool (wp_count (c_pool c)) false (ce_survivors env)
                                   (wp_stop_event (c_pool c))) c)
   else mret tt) ;;
  with_queue queue_drain ;; mret tt.

(** The jobs [_enqueue_dirty_write_back_jobs] makes for one shard, with their pending
    marks registered. *)
Definition collect_flush_jobs (retry_count : Z) (sh : CacheShard K V P)
    : CacheShard K V P * list (FlushWriteBack K V) :=
  let jobs := dirty_put_jobs retry_count sh ++ tombstone_jobs retry_count sh in
  (foldl (λ sh job, register_pending_locked (f_key job) sh) sh jobs, jobs).

(** Its second loop: a full queue ends it and releases what was not enqueued. *)
Fixpoint enqueue_until_full (i : Z) (jobs : list (FlushWriteBack K V)) : MC unit :=
  match jobs with
  | [] => mret tt
  | job :: jobs' =>
      r ← attempt (enqueue_job (FlushJob job) true);
      match r with
      | Ok _ => enqueue_until_full i jobs'
      | Raise QueueBackpressureError =>
          for_each jobs (λ pending,
            with_lock i (λ sh, (resolve_pending_locked (f_key pending) sh, tt)))
      | Raise e => raise e
      end
  end.

(** [Cache._enqueue_dirty_write_back_jobs] *)
Definition enqueue_dirty_write_back_jobs : MC unit :=
  c ← get_state;
  for_each (shard_indices c) (λ i,
    jobs ← with_lock i (collect_flush_jobs (cfg_write_back_retry_count (c_config c)));
    enqueue_until_full i jobs).

(** The [for attempt in range(attempts)] loop of [_flush_dirty_entries_sync]. *)
Fixpoint sync_attempts (attempts : nat) (i : Z) (job : FlushWriteBack K V) : MC bool :=
  match attempts with
  | O => mret false
  | S attempts' =>
      r ← attempt
        (if String.eqb (f_operation job) "put" then
           with_source (put_value (f_key job) (f_value job)) ;;
           with_lock i (λ sh, (mark_clean job sh, tt))
         else with_source (delete_value (f_key job)));
      match r with
      | Ok _ => mret true
      | Raise _ =>
          (if (0 <? attempts')%nat then
             inc_runtime write_back_retries ;;
             c ← get_state;
             sleep (cfg_write_back_retry_delay (c_config c))
           else mret tt) ;;
          sync_attempts attempts' i job
      end
  end.

(** The body of its loop over the jobs of a shard; [true] when the job failed. *)
Definition sync_flush_job (i : Z) (job : FlushWriteBack K V) : MC bool :=
  stale ← with_lock i (λ sh,
    if is_stale_write_back (sh_version_marks sh) (sh_tombstones sh) job
    then (clear_pending_flushes_locked (f_key job) sh, true) else (sh, false));
  if stale : bool then inc_runtime stale_write_back_jobs_skipped ;; mret false
  else
    success ← sync_attempts (Z.to_nat (f_retries_left job + 1)) i job;
    (if success : bool then mret tt else inc_runtime flush_failures) ;;
    with_lock i (λ sh, (clear_pending_flushes_locked (f_key job) sh, tt)) ;;
    mret (negb success).

(** [any]: run the loop and report whether an iteration reported [true]. *)
Fixpoint for_any {S A} (xs : list A) (f : A → M S bool) : M S bool :=
  match xs with
  | [] => mret false
  | x :: xs' => b ← f x; b' ← for_any xs' f; mret (b || b')
  end.

(** [Cache._flush_dirty_entries_sync] *)
Definition flush_dirty_entries_sync : MC bool :=
  c ← get_state;
  for_any (shard_indices c) (λ i,
    jobs ← with_lock i (λ sh,
      (sh, dirty_put_jobs (cfg_write_back_retry_count (c_config c)) sh
           ++ tombstone_jobs (cfg_write_back_retry_count (c_config c)) sh));
    for_any jobs (sync_flush_job i)).

(** [Cache.close].  The timeouts only bound the waits, whose outcome is [env]. *)
Definition cache_close (flush : option bool) (env : CloseEnv) : MC unit :=
  c ← get_state;
  let do_flush := default (cfg_shutdown_flush (c_config c)) flush in
  match c_state c with
  | CLOSED => mret tt
  | _ =>
      modify (set_state CLOSING) ;;
      modify (λ c, set_scheduler (scheduler_stop (c_scheduler c)) c) ;;
      failed ←
        (if do_flush && bool_decide (c_write_mode c = WRITE_BACK) then
           enqueue_dirty_write_back_jobs ;;
           c1 ← get_state;
           joined ←
             (if wp_started (c_pool c1) && (0 <? cfg_worker_count (c_config c1)) then
                worker_steps (ce_join_steps env) ;;
                c2 ← get_state;
                mret (queue_join_until (c_queue c2))
              else mret true);
           sync_failed ← flush_dirty_entries_sync;
           (let failed := sync_failed || negb joined in
            (if failed then inc_runtime shutdown_flush_failures else mret tt) ;;
            mret failed)
         else mret false);
      pool_stop env ;;
      modify (set_state CLOSED) ;;
      if failed : bool then
        c3 ← get_state; raise (ShutdownFlushError (count_dirty_entries c3))
      else mret tt
  end.
End ops.
Arguments flight_role : clear implicits.
