(* ===== verification/CliBasic.v ===== *)
(** The basic commands of the command line: src/cachelab/cli/commands/basic.py, and the
    tables of src/cachelab/cli/commands/render.py.

    A command is a computation on the [World]: it takes the lock of the state file, builds a
    cache and fills it from the file, performs one operation, saves the cache when the
    operation changes it, and prints.  The process may take time before every call of the
    cache ([pass_time]).  Parameters: the text of floats and quoted strings, [float(s)] for a
    string, [json.loads], and [CacheConfig.from_file], which reads a TOML file. *)

From Stdlib Require Import ZArith SpecFloat.
From stdpp Require Import base tactics numbers option strings pretty sets list.
From S2P Require Import Prelude PyDict PyFloat PyMonad Config Hashing Json Tables Entry Files.
From S2P Require Import Policies Storage Jobs Shard Cache.
Local Open Scope string_scope.
Local Open Scope list_scope.
Local Open Scope Z_scope.

#[export] Instance pyval_none : PyNone pyval := VNone.

(** The cache of a command. *)
Definition CliCache : Type := Cache typed_key pyval (AnyPolicy typed_key).

(** ** Arguments *)

Inductive Command : Type :=
  | CmdPut (key value : string) (ttl : option float) (no_ttl key_json value_json : bool)
  | CmdGet (key : string) (key_json : bool)
  | CmdDelete (key : string) (key_json : bool)
  | CmdContains (key : string) (key_json : bool)
  | CmdInspect (key : string) (key_json : bool)
  | CmdDump (limit : option Z)
  | CmdClear
  | CmdStats.

Record Args : Type := mkArgs {
  a_capacity : Z;
  a_policy : string;
  a_shards : Z;
  a_default_ttl : option float;
  a_state : path;
  a_config : option string;
  a_command : Command;
}.

Section cli.
Context `{KeyHash typed_key}.
Context (float_repr : float → string) (str_repr : string → string).
Context (float_of_str : string → option float) (json_loads : string → option pyval).
Context (from_file : string → result CacheConfig).
Local Abbreviation MW := (M World).
Local Abbreviation repr := (py_repr float_repr str_repr).
Local Abbreviation str := (py_str float_repr str_repr).

(** ** Keys and values *)

(** [parse_cli_key] and [parse_cli_value] *)
Definition parse_cli_key (raw : string) (key_json : bool) : result pyval :=
  if negb key_json then Ok (VStr raw)
  else match json_loads raw with
       | Some v => Ok v
       | None => Raise (ValueError "invalid JSON key")
       end.
Definition parse_cli_value (raw : string) (value_json : bool) : result pyval :=
  if negb value_json then Ok (VStr raw)
  else match json_loads raw with
       | Some v => Ok v
       | None => Raise (ValueError "invalid JSON value")
       end.

(** Using a value as a key of the cache. *)
Definition hash_key (v : pyval) : result typed_key :=
  match json_key v with Some k => Ok k | None => Raise (TypeError "unhashable type") end.

(** ** Calls of the cache *)

(** A call at the time the process has reached. *)
Definition cache_call {A} (m : M CliCache A) (c : CliCache) : MW (CliCache * A) :=
  pass_time ;;
  w ← get_state;
  let '(c', r) := m (set_clock (mkFakeClock (w_mono w)) c) in
  a ← lift r;
  mret (c', a).

(** [Cache.get] with a default that is no value of the cache. *)
Definition cache_get_opt (key : typed_key) : M CliCache (option pyval) :=
  require_not_closed ;;
  c ← get_state;
  t ← now;
  '(found, value) ← with_lock (shard_for c key) (read_value_locked t key true true);
  mret (if found : bool then Some value else None).

(** [cache.put(key, value, ttl)] for any value as the key: the lifetime is checked before the
    key is hashed. *)
Definition put_any (key value : pyval) (ttl : ttl_arg) : M CliCache unit :=
  match json_key key with
  | Some k => cache_put k value ttl
  | None => validate_explicit_ttl ttl ;; raise (TypeError "unhashable type")
  end.

(** ** Configuration *)

(** [_config_from_args] *)
Definition flags_config (a : Args) : CacheConfig := {|
  cfg_capacity := a_capacity a;
  cfg_default_ttl := a_default_ttl a;
  cfg_policy := a_policy a;
  cfg_shard_count := a_shards a;
  cfg_worker_count := cfg_worker_count default_config;
  cfg_backend := cfg_backend default_config;
  cfg_write_mode := cfg_write_mode default_config;
  cfg_scheduler_interval := cfg_scheduler_interval default_config;
  cfg_queue_size := cfg_queue_size default_config;
  cfg_write_back_retry_count := cfg_write_back_retry_count default_config;
  cfg_write_back_retry_delay := cfg_write_back_retry_delay default_config;
  cfg_shutdown_flush := cfg_shutdown_flush default_config;
  cfg_shutdown_timeout := cfg_shutdown_timeout default_config;
  cfg_active_expiration := cfg_active_expiration default_config;
  cfg_queue_put_timeout := cfg_queue_put_timeout default_config;
|}.
(** [getattr(args, "config", None)] as a condition: the empty string is false. *)
Definition config_arg (a : Args) : option string :=
  match a_config a with Some EmptyString => None | o => o end.
Definition config_from_args (a : Args) : result CacheConfig :=
  match config_arg a with
  | Some file => from_file file
  | None => post_init (flags_config a)
  end.

Definition opt_float (o : option float) : pyval :=
  match o with Some f => VFloat f | None => VNone end.

(** [x != y] for a value read from JSON and a setting, which is not a list or an object. *)
Definition as_key (v : pyval) : option pykey :=
  match v with
  | VNone => Some KNone
  | VBool b => Some (KBool b)
  | VInt z => Some (KInt z)
  | VFloat f => Some (KFloat f)
  | VStr s => Some (KStr s)
  | VList _ | VDict _ => None
  end.
Definition py_ne (x y : pyval) : bool :=
  match as_key x, as_key y with
  | Some k1, Some k2 => negb (py_eq k1 k2)
  | _, _ => true
  end.

(** [_warn_ignored_config_settings] *)
Definition warn_ignored_config_settings (config : CacheConfig) : MW unit :=
  if (cfg_worker_count config <=? 0)
     && String.eqb (cfg_write_mode config) (write_mode_value CACHE_ONLY)
  then mret tt
  else print_err
    "cachelab: note: basic CLI commands do not start workers or a source backend; settings such as worker_count, write_mode, and active_expiration apply only to the library API.".

(** [_warn_flag_mismatch_with_config_file] *)
Definition flag_mismatches (a : Args) (config : CacheConfig) : list string :=
  (if a_capacity a =? cfg_capacity config then []
   else ["--capacity=" +:+ pretty (a_capacity a)
         +:+ " (file has " +:+ pretty (cfg_capacity config) +:+ ")"]) ++
  (if String.eqb (a_policy a) (cfg_policy config) then []
   else ["--policy=" +:+ a_policy a +:+ " (file has " +:+ cfg_policy config +:+ ")"]) ++
  (if a_shards a =? cfg_shard_count config then []
   else ["--shards=" +:+ pretty (a_shards a)
         +:+ " (file has " +:+ pretty (cfg_shard_count config) +:+ ")"]) ++
  (if py_ne (opt_float (a_default_ttl a)) (opt_float (cfg_default_ttl config))
   then ["--default-ttl=" +:+ repr (opt_float (a_default_ttl a))
         +:+ " (file has " +:+ repr (opt_float (cfg_default_ttl config)) +:+ ")"]
   else []).
Definition warn_flag_mismatch_with_config_file (a : Args) (config : CacheConfig) : MW unit :=
  match config_arg a, flag_mismatches a config with
  | None, _ | _, [] => mret tt
  | Some _, mismatches =>
      print_err ("cachelab: note: --config replaces sizing flags; ignored: "
                 +:+ str_join "; " mismatches)
  end.

(** [_warn_saved_config_mismatch] *)
Definition config_settings (config : CacheConfig) : list (string * pyval) := [
  ("capacity", VInt (cfg_capacity config));
  ("policy", VStr (cfg_policy config));
  ("shard_count", VInt (cfg_shard_count config));
  ("default_ttl", opt_float (cfg_default_ttl config))].
Definition saved_mismatches (saved : dict string pyval) (active : CacheConfig) : list string :=
  omap (λ '(name, expected),
    value ← dict_get saved name;
    if py_ne value expected
    then Some (name +:+ " saved=" +:+ repr value +:+ " active=" +:+ repr expected)
    else None) (config_settings active).
Definition warn_saved_config_mismatch (saved : dict string pyval) (active : CacheConfig) : MW unit :=
  match saved_mismatches saved active with
  | [] => mret tt
  | mismatches =>
      print_err ("cachelab: warning: state file config differs from active settings: "
                 +:+ str_join "; " mismatches)
  end.

(** ** Loading *)

(** What [_ttl_from_state_item] returns: [_SKIP_ENTRY], or the lifetime. *)
Inductive state_ttl : Type := SKIP_ENTRY | KeepTtl (ttl : option float).

Definition positive_ttl (remaining : result float) : result state_ttl :=
  match remaining with
  | Ok r => if fle r fzero then Ok SKIP_ENTRY else Ok (KeepTtl (Some r))
  | Raise (TypeError _) | Raise (ValueError _) => Ok SKIP_ENTRY
  | Raise e => Raise e
  end.

(** [_ttl_from_state_item] *)
Definition ttl_from_state_item (item : dict string pyval) (wall_now : float) : MW state_ttl :=
  match dict_get item "ttl_remaining" with
  | Some VNone => mret (KeepTtl None)
  | Some raw => lift (positive_ttl (py_float float_of_str raw))
  | None =>
      match dict_get item "expires_wall" with
      | None | Some VNone => mret (KeepTtl None)
      | Some expires_wall =>
          w ← get_state;
          (if w_legacy_warned w then mret tt
           else
             print_err
               "cachelab: note: loading legacy expires_wall timestamps uses wall clock; re-save the state file to migrate to ttl_remaining" ;;
             modify (set_legacy_warned true)) ;;
          lift (positive_ttl
            (match py_float float_of_str expires_wall with
             | Ok t => Ok (fsub t wall_now)
             | Raise e => Raise e
             end))
      end
  end.

(** The values [for item in state.get("entries", [])] runs through: the elements of a list,
    the characters of a string, the keys of an object. *)
Fixpoint str_chars (s : string) : list pyval :=
  match s with EmptyString => [] | String c s' => VStr (String c "") :: str_chars s' end.
Definition state_entries (state : dict string pyval) : result (list pyval) :=
  match dict_get state "entries" with
  | None => Ok []
  | Some (VList l) => Ok l
  | Some (VStr s) => Ok (str_chars s)
  | Some (VDict d) => Ok (VStr <$> dict_keys d)
  | Some _ => Raise (TypeError "object is not iterable")
  end.
Definition state_item (v : pyval) : option (dict string pyval) :=
  match v with
  | VDict item => if dict_mem item "key" then Some item else None
  | _ => None
  end.

(** [isinstance(hit_count, int) and hit_count > 0]; a [bool] is an [int]. *)
Definition item_hit_count (item : dict string pyval) : option Z :=
  match dict_get item "hit_count" with
  | Some (VInt n) => if 0 <? n then Some n else None
  | Some (VBool true) => Some 1
  | _ => None
  end.

(** The body of the loop over the items. *)
Definition load_item (wall_now : float) (item : dict string pyval) (c : CliCache) : MW CliCache :=
  ttl ← ttl_from_state_item item wall_now;
  match ttl with
  | SKIP_ENTRY => mret c
  | KeepTtl ttl =>
      let key := dict_get_default item "key" VNone in
      let value := dict_get_default item "value" VNone in
      '(c, _) ← cache_call (put_any key value
        (match ttl with Some t => TTL_SECONDS t | None => TTL_NONE end)) c;
      match item_hit_count item with
      | Some n =>
          k ← lift (hash_key key);
          '(c, _) ← cache_call (restore_entry_metadata k n) c;
          mret c
      | None => mret c
      end
  end.
Fixpoint load_items (wall_now : float) (items : list (dict string pyval)) (c : CliCache)
    : MW CliCache :=
  match items with
  | [] => mret c
  | item :: items' => c ← load_item wall_now item c; load_items wall_now items' c
  end.

(** [_load_cache_state] *)
Definition load_cache_state (p : path) (a : Args) : MW CliCache :=
  config ← lift (config_from_args a);
  (match config_arg a with
   | Some _ => warn_flag_mismatch_with_config_file a config ;; warn_ignored_config_settings config
   | None => mret tt
   end) ;;
  w ← get_state;
  let clock := mkFakeClock (w_mono w) in
  c ← lift (cache_init (Some config) no_args (slow_dict_init fzero clock) clock);
  state ← read_json p;
  (match dict_get state "config" with
   | Some (VDict saved) => warn_saved_config_mismatch saved config
   | _ => mret tt
   end) ;;
  w ← get_state;
  let wall_now := w_wall w in
  entries ← lift (state_entries state);
  let items := omap state_item entries in
  let count := Z.of_nat (length items) in
  (if cfg_capacity config <? count
   then print_err ("cachelab: warning: state has " +:+ pretty count
          +:+ " entries but capacity is " +:+ pretty (cfg_capacity config)
          +:+ "; excess entries may be evicted during reload")
   else mret tt) ;;
  c ← load_items wall_now items c;
  '(c, size) ← cache_call cache_size c;
  let dropped := count - size in
  (if 0 <? dropped
   then print_err ("cachelab: warning: " +:+ pretty dropped
          +:+ " entries dropped during reload (capacity=" +:+ pretty (cfg_capacity config) +:+ ")")
   else mret tt) ;;
  mret c.

(** ** Saving *)

Definition saved_entry (s : EntrySnapshot typed_key pyval) : pyval := VDict [
  ("key", key_json (s_key s));
  ("value", s_value s);
  ("ttl_remaining", opt_float (s_ttl_remaining s));
  ("hit_count", VInt (s_hit_count s))].
Definition saved_state (config : CacheConfig) (snapshots : list (EntrySnapshot typed_key pyval))
    : pyval := VDict [
  ("config", VDict (config_settings config));
  ("entries", VList (saved_entry <$> snapshots))].

(** [_save_cache_state] *)
Definition save_cache_state (p : path) (c : CliCache) : MW unit :=
  '(c, snapshots) ← cache_call (cache_dump None) c;
  write_json p (saved_state (c_config c) snapshots).

(** ** Tables *)

(** [stats_table] *)
Definition stats_table (c : CliCache) : result string :=
  let s := cache_stats c in
  format_table ["metric"; "value"] [
    ["hits"; pretty (cst_hits s)];
    ["misses"; pretty (cst_misses s)];
    ["hit_ratio"; float_repr (py_round 4 (cst_hit_ratio s))];
    ["puts"; pretty (cst_puts s)];
    ["deletes"; pretty (cst_deletes s)];
    ["evictions"; pretty (cst_evictions s)];
    ["expirations"; pretty (cst_expirations s)];
    ["size"; pretty (cst_size s)];
    ["queue_depth"; pretty (cst_queue_depth s)];
    ["queue_dropped"; pretty (cst_queue_dropped s)];
    ["worker_done"; pretty (rt_jobs_completed (cst_runtime s))];
    ["worker_failed"; pretty (rt_jobs_failed (cst_runtime s))];
    ["retries"; pretty (rt_write_back_retries (cst_runtime s))];
    ["stale_skips"; pretty (rt_stale_skipped (cst_runtime s))]].

(** The tables of [inspect] and [dump]. *)
Definition inspect_table (s : EntrySnapshot typed_key pyval) : result string :=
  format_table ["field"; "value"] [
    ["key"; str (key_json (s_key s))];
    ["value"; str (s_value s)];
    ["hit_count"; pretty (s_hit_count s)];
    ["ttl_remaining"; fmt_float (s_ttl_remaining s)];
    ["version"; pretty (s_version s)];
    ["dirty"; if s_dirty s then "True" else "False"]].
Definition dump_row (s : EntrySnapshot typed_key pyval) : list string := [
  str (key_json (s_key s)); str (s_value s); pretty (s_version s);
  fmt_float (s_ttl_remaining s); pretty (s_hit_count s)].
Definition dump_table (snapshots : list (EntrySnapshot typed_key pyval)) : result string :=
  format_table ["key"; "value"; "version"; "ttl"; "hits"]
    (match dump_row <$> snapshots with
     | [] => [["-"; "-"; "-"; "-"; "-"]]
     | rows => rows
     end).

(** ** [run_basic] *)

(** The argument [ttl] of the call [cache.put] makes. *)
Definition put_ttl (ttl : option float) (no_ttl : bool) : ttl_arg :=
  if no_ttl then TTL_NONE else match ttl with Some t => TTL_SECONDS t | None => TTL_UNSET end.

(** The raw key of a command, and whether it is JSON. *)
Definition command_key (cmd : Command) : option (string * bool) :=
  match cmd with
  | CmdPut key _ _ _ key_json _ => Some (key, key_json)
  | CmdGet key key_json | CmdDelete key key_json | CmdContains key key_json
  | CmdInspect key key_json => Some (key, key_json)
  | _ => None
  end.

Definition run_command (p : path) (cmd : Command) (key : pyval) (c : CliCache) : MW unit :=
  match cmd with
  | CmdPut raw value ttl no_ttl _ value_json =>
      (if no_ttl && is_not_none ttl then raise (ValueError "cannot use both --ttl and --no-ttl")
       else mret tt) ;;
      value ← lift (parse_cli_value value value_json);
      '(c, _) ← cache_call (put_any key value (put_ttl ttl no_ttl)) c;
      save_cache_state p c ;;
      print_out ("stored " +:+ raw)
  | CmdGet _ _ =>
      k ← lift (hash_key key);
      '(_, value) ← cache_call (cache_get_opt k) c;
      match value with
      | None => print_out "(miss)"
      | Some v => print_out (str v)
      end
  | CmdDelete _ _ =>
      k ← lift (hash_key key);
      '(c, deleted) ← cache_call (cache_delete k) c;
      save_cache_state p c ;;
      print_out (if deleted : bool then "deleted" else "not found")
  | CmdContains _ _ =>
      k ← lift (hash_key key);
      '(_, found) ← cache_call (cache_contains k) c;
      print_out (if found : bool then "yes" else "no")
  | CmdInspect _ _ =>
      k ← lift (hash_key key);
      '(_, snapshot) ← cache_call (cache_inspect k) c;
      match snapshot with
      | None => print_out "not found"
      | Some s => table ← lift (inspect_table s); print_out table
      end
  | CmdDump limit =>
      '(_, snapshots) ← cache_call (cache_dump limit) c;
      table ← lift (dump_table snapshots);
      print_out table
  | CmdClear =>
      '(c, _) ← cache_call cache_clear c;
      save_cache_state p c ;;
      print_out "cleared"
  | CmdStats => table ← lift (stats_table c); print_out table
  end.

(** The block under the lock. *)
Definition run_locked (a : Args) : MW Z :=
  c ← load_cache_state (a_state a) a;
  key ← lift (match command_key (a_command a) with
              | Some (raw, key_json) => parse_cli_key raw key_json
              | None => Ok VNone
              end);
  run_command (a_state a) (a_command a) key c ;;
  mret 0.

Definition run_basic (a : Args) (pauses : list (World → World)) : MW (option Z) :=
  with_state_lock (a_state a) pauses (run_locked a).
End cli.
