(* ===== verification/Workloads.v ===== *)
(** Workloads: src/cachelab/workloads/patterns.py, runner.py and benchmark.py, the commands
    of src/cachelab/cli/commands/simulate.py and benchmark.py, and the table they print
    (src/cachelab/cli/commands/render.py).

    Python's generator of random numbers is an interface ([Random]): a state made from the
    seed, integers below a bound and floats.  What a stream is proved to contain holds for
    every generator that keeps its integers below the bound ([RandomLaws]).  The clock of
    the simulated cache is the system's, so the time of every call is arbitrary. *)

From Stdlib Require Import ZArith SpecFloat Ascii.
From stdpp Require Import base tactics numbers option strings pretty sets list.
From S2P Require Import Prelude PyDict PyFloat PyMonad Config Json Tables Entry Policies.
From S2P Require Import Storage Jobs Shard Cache CliBasic.
Local Open Scope string_scope.
Local Open Scope list_scope.
Local Open Scope Z_scope.

(** ** Random numbers *)

(** [random.Random(seed)], [rng._randbelow(n)] and [rng.random()] *)
Class Random (G : Type) : Type := {
  rng_seed : Z → G;
  randbelow : Z → G → G * Z;
  rng_random : G → G * float;
}.
Class RandomLaws (G : Type) `{Random G} : Prop :=
  randbelow_range (n : Z) (g : G) : 0 < n → 0 ≤ (randbelow n g).2 < n.

Section patterns.
Context {G : Type} `{Random G}.
Local Abbreviation MG := (M G).

(** [rng.randrange(n)], [rng.random()] and [rng.choice(seq)] *)
Definition randrange (n : Z) : MG Z :=
  if n <=? 0 then raise (ValueError "empty range in randrange")
  else λ g, let '(g', z) := randbelow n g in (g', Ok z).
Definition random : MG float := λ g, let '(g', x) := rng_random g in (g', Ok x).
Definition choice {A} (seq : list A) : MG A :=
  match seq with
  | [] => raise IndexError
  | _ => i ← randrange (Z.of_nat (length seq)); lift (from_option Ok (Raise IndexError) (seq !! Z.to_nat i))
  end.

(** ** Patterns *)

(** [s.replace("-", "_")] *)
Fixpoint dash_to_underscore (s : string) : string :=
  match s with
  | EmptyString => EmptyString
  | String a s' =>
      String (if Ascii.eqb a "-"%char then "_"%char else a) (dash_to_underscore s')
  end.

(** [f"k{i}"] *)
Definition key_name (i : Z) : string := "k" +:+ pretty i.
(** [range(a, b)] *)
Definition py_range_from (a b : Z) : list Z := (λ i, a + i) <$> py_range (b - a).

Definition universe (capacity : Z) : Z := Z.max (capacity * 4) 16.
Definition hot_count (capacity : Z) : Z := Z.max 1 (capacity / 5).
Definition working_set (capacity : Z) : Z := Z.max 1 (capacity - Z.max 1 (capacity / 5)).

Definition uniform_key (capacity : Z) : MG string :=
  i ← randrange (universe capacity); mret (key_name i).
Definition hotspot_key (capacity : Z) : MG string :=
  let hot := key_name <$> py_range (hot_count capacity) in
  let cold := key_name <$> py_range_from (hot_count capacity) (universe capacity) in
  x ← random;
  if flt x (int_div 82 100) then choice hot else choice cold.
Definition mixed_key (capacity index : Z) : MG string :=
  i ← randrange (universe capacity);
  mret (if index mod 5 =? 0 then "write:" +:+ key_name i else key_name i).

(** [key_stream]: what the generator yields for each index of [range(requests)]. *)
Definition pattern_key (pattern : string) (capacity : Z) : option (Z → MG string) :=
  let normalized := dash_to_underscore (str_lower pattern) in
  if String.eqb normalized "uniform" then Some (λ _, uniform_key capacity)
  else if existsb (String.eqb normalized) ["zipfian"; "hotspot"] then
    Some (λ _, hotspot_key capacity)
  else if existsb (String.eqb normalized) ["sequential"; "sequential_scan"] then
    Some (λ index, mret (key_name index))
  else if existsb (String.eqb normalized) ["looping"; "looping_working_set"] then
    Some (λ index, mret (key_name (index mod working_set capacity)))
  else if existsb (String.eqb normalized) ["mixed"; "mixed_read_write"] then
    Some (mixed_key capacity)
  else None.
Definition key_stream (pattern : string) (requests capacity seed : Z) : result (list string) :=
  match pattern_key pattern capacity with
  | Some key => (mapM key (py_range requests) (rng_seed seed)).2
  | None => Raise (ValueError ("unknown workload pattern: " +:+ pattern))
  end.
End patterns.

(** ** Simulation *)

Definition SimCache : Type := Cache string pyval (AnyPolicy string).

(** The text after the first colon: [raw_key.split(":", 1)[1]] *)
Fixpoint after_colon (s : string) : string :=
  match s with
  | EmptyString => EmptyString
  | String a s' => if Ascii.eqb a ":"%char then s' else after_colon s'
  end.

Definition is_none_value (v : pyval) : bool := match v with VNone => true | _ => false end.

Section simulation.
Context {G : Type} `{Random G} `{KeyHash string}.
(** The readings of the clock by the [get] and by the [put] of a request. *)
Context (get_time put_time : Z → float).
Local Abbreviation MS := (M SimCache).

Definition at_reading {A} (t : float) (m : MS A) : MS A :=
  modify (set_clock (mkFakeClock t)) ;; m.

(** The body of the loop, with the number of writes so far. *)
Definition sim_request (index : Z) (raw_key : string) (writes : Z) : MS Z :=
  if String.prefix "write:" raw_key then
    at_reading (put_time index)
      (cache_put (after_colon raw_key) (VStr ("value-" +:+ pretty index)) TTL_UNSET) ;;
    mret (writes + 1)
  else
    value ← at_reading (get_time index) (cache_get raw_key VNone);
    (if is_none_value value
     then at_reading (put_time index) (cache_put raw_key (VStr ("value-" +:+ raw_key)) TTL_UNSET)
     else mret tt) ;;
    mret writes.
Fixpoint sim_loop (index : Z) (keys : list string) (writes : Z) : MS Z :=
  match keys with
  | [] => mret writes
  | raw_key :: keys' => writes ← sim_request index raw_key writes; sim_loop (index + 1) keys' writes
  end.

Record Simulation : Type := mkSimulation {
  sim_policy : string;
  sim_pattern : string;
  sim_requests : Z;
  sim_writes : Z;
  sim_hits : Z;
  sim_misses : Z;
  sim_hit_ratio : float;
  sim_evictions : Z;
  sim_expirations : Z;
  sim_size : Z;
  sim_shards : list ShardStatsSnapshot;
  sim_seconds : option float;              (* added by [benchmark_policies] *)
  sim_requests_per_second : option float;  (* likewise *)
}.

(** [Cache(capacity=capacity, policy=policy, shard_count=shards)] *)
Definition sim_args (policy : string) (capacity shards : Z) : InitArgs :=
  mkInitArgs (Some capacity) None (Some policy) (Some shards) None None None None None.

(** [run_simulation] *)
Definition run_simulation (policy pattern : string) (capacity requests seed shards : Z)
    : result Simulation :=
  match cache_init None (sim_args policy capacity shards) (slow_dict_init fzero (mkFakeClock fzero))
          (mkFakeClock fzero) with
  | Raise e => Raise e
  | Ok cache =>
      match key_stream pattern requests capacity seed with
      | Raise e => Raise e
      | Ok keys =>
          match sim_loop 0 keys 0 cache with
          | (_, Raise e) => Raise e
          | (cache, Ok writes) =>
              let stats := cache_stats cache in
              Ok {| sim_policy := policy;
                    sim_pattern := pattern;
                    sim_requests := requests;
                    sim_writes := writes;
                    sim_hits := cst_hits stats;
                    sim_misses := cst_misses stats;
                    sim_hit_ratio := py_round 4 (cst_hit_ratio stats);
                    sim_evictions := cst_evictions stats;
                    sim_expirations := cst_expirations stats;
                    sim_size := cst_size stats;
                    sim_shards := cst_shards stats;
                    sim_seconds := None;
                    sim_requests_per_second := None |}
          end
      end
  end.
End simulation.

(** ** Benchmark *)

Definition with_timing (seconds per_second : float) (s : Simulation) : Simulation :=
  mkSimulation (sim_policy s) (sim_pattern s) (sim_requests s) (sim_writes s) (sim_hits s)
    (sim_misses s) (sim_hit_ratio s) (sim_evictions s) (sim_expirations s) (sim_size s)
    (sim_shards s) (Some seconds) (Some per_second).

(** [round(requests / elapsed, 2) if elapsed else 0] *)
Definition rate (requests : Z) (elapsed : float) : result float :=
  match elapsed with
  | S754_zero _ => Ok fzero
  | _ =>
      if is_infinite (float_of_Z requests) then Raise OverflowError
      else Ok (py_round 2 (SFdiv 53 1024 (float_of_Z requests) elapsed))
  end.

Section benchmark.
Context {G : Type} `{Random G} `{KeyHash string} (get_time put_time : Z → float).
Context (float_repr : float → string).

(** [benchmark_policies], given the seconds each run takes. *)
Fixpoint benchmark_policies (policies : list string) (elapsed : list float)
    (pattern : string) (capacity requests seed shards : Z) : result (list Simulation) :=
  match policies with
  | [] => Ok []
  | policy :: policies' =>
      match run_simulation get_time put_time policy pattern capacity requests seed shards with
      | Raise e => Raise e
      | Ok s =>
          let seconds := default fzero (head elapsed) in
          match rate requests seconds with
          | Raise e => Raise e
          | Ok r =>
              match benchmark_policies policies' (tail elapsed) pattern capacity requests seed shards with
              | Raise e => Raise e
              | Ok rows => Ok (with_timing (py_round 6 seconds) r s :: rows)
              end
          end
      end
  end.

(** ** The commands *)

(** [print_simulation] *)
Definition simulation_row (s : Simulation) : list string := [
  sim_policy s; sim_pattern s; pretty (sim_requests s); pretty (sim_hits s);
  pretty (sim_misses s); float_repr (sim_hit_ratio s); pretty (sim_evictions s);
  match sim_seconds s with Some x => float_repr x | None => "-" end].
Definition print_simulation (rows : list Simulation) : result string :=
  format_table ["policy"; "pattern"; "requests"; "hits"; "misses"; "hit_ratio"; "evictions"; "seconds"]
    (simulation_row <$> rows).

(** [policy.strip()] on ASCII text, and [s.split(",")] *)
Definition is_space (a : ascii) : bool :=
  existsb (Ascii.eqb a) [" "%char; "009"%char; "010"%char; "011"%char; "012"%char; "013"%char;
    "028"%char; "029"%char; "030"%char; "031"%char].
Fixpoint lstrip (s : string) : string :=
  match s with
  | String a s' => if is_space a then lstrip s' else s
  | EmptyString => EmptyString
  end.
Fixpoint rstrip (s : string) : string :=
  match s with
  | EmptyString => EmptyString
  | String a s' =>
      match rstrip s' with
      | EmptyString => if is_space a then EmptyString else String a EmptyString
      | r => String a r
      end
  end.
Fixpoint split_comma (s : string) : list string :=
  match s with
  | EmptyString => [EmptyString]
  | String a s' =>
      if Ascii.eqb a ","%char then EmptyString :: split_comma s'
      else match split_comma s' with
           | w :: ws => String a w :: ws
           | [] => [String a EmptyString]
           end
  end.
Definition policy_names (s : string) : list string :=
  filter (λ p, p ≠ EmptyString) ((λ p, rstrip (lstrip p)) <$> split_comma s).

(** [run_simulate] and [run_benchmark]: the table they print, and exit with 0. *)
Definition run_simulate (policy pattern : string) (capacity requests seed shards : Z) : result string :=
  match run_simulation get_time put_time policy pattern capacity requests seed shards with
  | Ok s => print_simulation [s]
  | Raise e => Raise e
  end.
Definition run_benchmark (policies : string) (elapsed : list float) (pattern : string)
    (capacity requests seed shards : Z) : result string :=
  match benchmark_policies (policy_names policies) elapsed pattern capacity requests seed shards with
  | Ok rows => print_simulation rows
  | Raise e => Raise e
  end.
End benchmark.
