(* ===== verification/Argparse.v ===== *)
(** Python's [argparse], as far as src/cachelab/cli/parser.py uses it: options that store a value,
    flags, [--help] and [--version], positional arguments, and one level of subparsers.

    This follows [ArgumentParser.parse_known_args] of CPython 3.11: the arguments are first
    classified (option, argument, or the separator [--]), where options may be abbreviated and
    may carry their value after an equals sign; then options and positional arguments are
    consumed in turn.  A parse ends with a namespace and the arguments nobody recognised, or it
    ends the process: with code 0 for help and version, with code 2 for a usage error.  The
    texts of help and errors are left out. *)

From Stdlib Require Import ZArith Ascii.
From stdpp Require Import base tactics numbers option strings sets list.
From S2P Require Import Prelude PyDict PyFloat PyMonad Config Json Workloads.
Local Open Scope string_scope.
Local Open Scope list_scope.
Local Open Scope Z_scope.

(** ** Parsers as data *)

Inductive arg_type : Type := StrType | IntType | FloatType.
Inductive action : Type :=
  | Store (dest : string) (type : arg_type) (choices : option (list string)) (dflt : pyval)
  | StoreTrue (dest : string)
  | HelpAction
  | VersionAction.
Inductive positional : Type :=
  | Argument (dest : string) (choices : option (list string))
  | Subparsers (dest : string).
Record parser : Type := mkParser {
  p_options : list (string * action);      (* option string and action, in the order added *)
  p_positionals : list positional;
}.

Definition namespace : Type := dict string pyval.

(** The end of a parse: a value, or the end of the process. *)
Inductive parsed (A : Type) : Type :=
  | Parsed (a : A)
  | Exits (code : Z).
Arguments Parsed {_} _.
Arguments Exits {_} _.
#[export] Instance parsed_ret : MRet parsed := λ A, Parsed.
#[export] Instance parsed_bind : MBind parsed := λ A B f m,
  match m with Parsed a => f a | Exits code => Exits code end.
(** [parser.error] *)
Definition usage_error {A} : parsed A := Exits 2.

(** The namespace before anything is parsed. *)
Definition action_default (a : action) : option (string * pyval) :=
  match a with
  | Store dest _ _ dflt => Some (dest, dflt)
  | StoreTrue dest => Some (dest, VBool false)
  | HelpAction | VersionAction => None
  end.
Definition positional_dest (p : positional) : string :=
  match p with Argument dest _ | Subparsers dest => dest end.
Definition defaults (p : parser) : namespace :=
  omap (λ o, action_default o.2) (p_options p) ++ ((λ q, (positional_dest q, VNone)) <$> p_positionals p).

(** ** Strings *)

(** [s.split("=", 1)] *)
Fixpoint split_equals (s : string) : option (string * string) :=
  match s with
  | EmptyString => None
  | String c s' =>
      if Ascii.eqb c "=" then Some ("", s')
      else match split_equals s' with Some (a, b) => Some (String c a, b) | None => None end
  end.
Fixpoint has_space (s : string) : bool :=
  match s with EmptyString => false | String c s' => Ascii.eqb c " " || has_space s' end.

Definition digit_of (c : ascii) : option Z :=
  let n := Z.of_N (N_of_ascii c) in if (48 <=? n) && (n <=? 57) then Some (n - 48) else None.
Definition is_digit (c : ascii) : bool := match digit_of c with Some _ => true | None => false end.
Fixpoint all_digits (s : string) : bool :=
  match s with EmptyString => true | String c s' => is_digit c && all_digits s' end.
(** The regular expression ^-\d+$|^-\d*\.\d+$, where the end may come before a last newline. *)
Fixpoint chomp (s : string) : string :=
  match s with
  | EmptyString => EmptyString
  | String c s' => if Ascii.eqb c "010" && String.eqb s' "" then EmptyString else String c (chomp s')
  end.
Fixpoint decimal (s : string) : bool :=
  match s with
  | EmptyString => false
  | String c s' => if Ascii.eqb c "." then negb (String.eqb s' "") && all_digits s' else is_digit c && decimal s'
  end.
Definition negative_number_like (s : string) : bool :=
  match chomp s with
  | String "-" t => (negb (String.eqb t "") && all_digits t) || decimal t
  | _ => false
  end.

(** [int(s)]: digits, single underscores between them, a sign, white space around. *)
Fixpoint read_digits (s : string) (acc : Z) (after_digit : bool) : option Z :=
  match s with
  | EmptyString => if after_digit then Some acc else None
  | String c s' =>
      match digit_of c with
      | Some d => read_digits s' (10 * acc + d) true
      | None => if Ascii.eqb c "_" && after_digit then read_digits s' acc false else None
      end
  end.
Fixpoint count_digits (s : string) : Z :=
  match s with EmptyString => 0 | String c s' => (if is_digit c then 1 else 0) + count_digits s' end.
Definition int_of_str (s : string) : option Z :=
  let s := lstrip (rstrip s) in
  if 4300 <? count_digits s then None
  else match s with
       | String "-" s' => Z.opp <$> read_digits s' 0 false
       | String "+" s' => read_digits s' 0 false
       | _ => read_digits s 0 false
       end.

(** ** Classifying the arguments *)

(** An option: the action it stands for (unless no option is called so), the option string, and a
    value after an equals sign. *)
Inductive kind : Type :=
  | KArg
  | KDash
  | KOpt (found : option (action * string)) (explicit : option string).

Section classify.
Context (options : list (string * action)).

(** [_get_option_tuples] *)
Definition option_tuples (s : string) : list (action * string * option string) :=
  if String.prefix "--" s then
    let '(option_prefix, explicit) :=
      match split_equals s with Some (o, e) => (o, Some e) | None => (s, None) end in
    omap (λ oa : string * action,
      if String.prefix option_prefix oa.1 then Some (oa.2, oa.1, explicit) else None) options
  else
    match s with
    | String c1 (String c2 rest) =>
        omap (λ oa : string * action,
          if String.eqb oa.1 (String c1 (String c2 "")) then Some (oa.2, oa.1, Some rest)
          else if String.prefix s oa.1 then Some (oa.2, oa.1, None) else None) options
    | _ => []
    end.

(** [_parse_optional] *)
Definition parse_optional (s : string) : parsed kind :=
  if negb (String.prefix "-" s) then Parsed KArg
  else
    match dict_get options s with
    | Some a => Parsed (KOpt (Some (a, s)) None)
    | None =>
        if String.eqb s "-" then Parsed KArg
        else
          match (match split_equals s with
                 | Some (o, e) => match dict_get options o with Some a => Some (a, o, e) | None => None end
                 | None => None
                 end) with
          | Some (a, o, e) => Parsed (KOpt (Some (a, o)) (Some e))
          | None =>
              match option_tuples s with
              | [(a, o, e)] => Parsed (KOpt (Some (a, o)) e)
              | _ :: _ :: _ => usage_error
              | [] => if negative_number_like s || has_space s then Parsed KArg else Parsed (KOpt None None)
              end
          end
    end.

(** The first loop of [_parse_known_args]: every argument with its kind. *)
Fixpoint classify (args : list string) : parsed (list (string * kind)) :=
  match args with
  | [] => Parsed []
  | s :: args' =>
      if String.eqb s "--" then Parsed ((s, KDash) :: ((λ t, (t, KArg)) <$> args'))
      else k ← parse_optional s; rest ← classify args'; Parsed ((s, k) :: rest)
  end.
End classify.

(** ** Taking the actions *)

Section parse.
Context (float_of_str : string → option float).

(** [_get_value], [_check_value] and the part of [_get_values] for one argument: a first [--] is
    dropped, and then nothing at all makes an empty list. *)
Definition arg_value (type : arg_type) (s : string) : option pyval :=
  match type with
  | StrType => Some (VStr s)
  | IntType => VInt <$> int_of_str s
  | FloatType => VFloat <$> float_of_str s
  end.
Definition allowed_choice (choices : option (list string)) (v : pyval) : bool :=
  match choices, v with
  | None, _ => true
  | Some l, VStr s => str_in s l
  | Some _, _ => false
  end.
Fixpoint remove_first_dash (args : list string) : list string :=
  match args with
  | [] => []
  | s :: args' => if String.eqb s "--" then args' else s :: remove_first_dash args'
  end.
Definition get_values (type : arg_type) (choices : option (list string)) (args : list string) : parsed pyval :=
  match remove_first_dash args with
  | [] => Parsed (VList [])
  | s :: _ =>
      match arg_value type s with
      | Some v => if allowed_choice choices v then Parsed v else usage_error
      | None => usage_error
      end
  end.

Definition takes_one (a : action) : bool := match a with Store _ _ _ _ => true | _ => false end.
Definition take_action (a : action) (args : list string) (ns : namespace) : parsed namespace :=
  match a with
  | Store dest type choices _ => v ← get_values type choices args; Parsed (dict_set ns dest v)
  | StoreTrue dest => Parsed (dict_set ns dest (VBool true))
  | HelpAction | VersionAction => Exits 0
  end.

(** What a parse has come to: the positional arguments still expected, the namespace, and what was
    not recognised here or by a subparser. *)
Record state : Type := mkState {
  st_positionals : list positional;
  st_ns : namespace;
  st_extras : list string;
  st_unrecognized : list string;
}.

Section with_parser.
Context (options : list (string * action)).
Context (subparsers : dict string (list string → parsed (namespace * list string))).

(** [-xyz]: the flags of a cluster before the last, and the last with its value. *)
Fixpoint cluster (a : action) (explicit : string) : parsed (list action * action * option string) :=
  match explicit with
  | EmptyString => usage_error
  | String c rest =>
      match dict_get options (String "-" (String c "")) with
      | None => usage_error
      | Some a' =>
          if String.eqb rest "" then Parsed ([a], a', None)
          else if takes_one a' then Parsed ([a], a', Some rest)
          else '(flags, last, e) ← cluster a' rest; Parsed (a :: flags, last, e)
      end
  end.
Definition single_dash (s : string) : bool :=
  match s with String _ (String c _) => negb (Ascii.eqb c "-") | _ => true end.
Definition resolve (a : action) (option_string : string) (explicit : option string)
    : parsed (list action * action * option string) :=
  match explicit with
  | None => Parsed ([], a, None)
  | Some e =>
      if takes_one a then Parsed ([], a, Some e)
      else if single_dash option_string then cluster a e else usage_error
  end.

Fixpoint take_flags (flags : list action) (ns : namespace) : parsed namespace :=
  match flags with
  | [] => Parsed ns
  | a :: flags' => ns ← take_action a [] ns; take_flags flags' ns
  end.

(** [consume_optional]: the option at the head of the arguments, and what follows it. *)
Definition consume_optional (s : string) (found : option (action * string)) (explicit : option string)
    (rest : list (string * kind)) (st : state) : parsed (list (string * kind) * state) :=
  match found with
  | None => Parsed (rest, mkState (st_positionals st) (st_ns st) (st_extras st ++ [s]) (st_unrecognized st))
  | Some (a, option_string) =>
      '(flags, last, e) ← resolve a option_string explicit;
      '(args, rest) ←
        (match takes_one last, e, rest with
         | false, _, _ => Parsed ([], rest)
         | true, Some e, _ => Parsed ([e], rest)
         | true, None, (t, KArg) :: rest' => Parsed ([t], rest')
         | true, None, _ => usage_error
         end);
      ns ← take_flags flags (st_ns st);
      ns ← take_action last args ns;
      Parsed (rest, mkState (st_positionals st) ns (st_extras st) (st_unrecognized st))
  end.

(** How many arguments a positional argument matches: -*A-* or, for subparsers, -*A[-AO]*. *)
Fixpoint dashes (args : list (string * kind)) : nat :=
  match args with (_, KDash) :: args' => S (dashes args') | _ => O end.
Definition match_positional (p : positional) (args : list (string * kind)) : option nat :=
  let d := dashes args in
  match drop d args with
  | (_, KArg) :: rest =>
      Some (match p with
            | Argument _ _ => d + 1 + dashes rest
            | Subparsers _ => length args
            end)%nat
  | _ => None
  end.

Definition take_positional (p : positional) (args : list string) (st : state) : parsed state :=
  match p with
  | Argument dest choices =>
      v ← get_values StrType choices args;
      Parsed (mkState (st_positionals st) (dict_set (st_ns st) dest v) (st_extras st) (st_unrecognized st))
  | Subparsers dest =>
      match args with
      | name :: rest =>
          match dict_get subparsers name with
          | None => usage_error
          | Some sub =>
              '(ns, extras) ← sub rest;
              Parsed (mkState (st_positionals st)
                        (foldl (λ d kv, dict_set d kv.1 kv.2) (dict_set (st_ns st) dest (VStr name)) ns)
                        (st_extras st) (st_unrecognized st ++ extras))
          end
      | [] => usage_error
      end
  end.

(** [consume_positionals] *)
Fixpoint consume_positionals (ps : list positional) (args : list (string * kind)) (st : state)
    : parsed (list (string * kind) * state) :=
  match ps with
  | [] => Parsed (args, mkState [] (st_ns st) (st_extras st) (st_unrecognized st))
  | p :: ps' =>
      match match_positional p args with
      | None => Parsed (args, mkState ps (st_ns st) (st_extras st) (st_unrecognized st))
      | Some n =>
          st ← take_positional p (fst <$> take n args) st;
          consume_positionals ps' (drop n args) st
      end
  end.

Definition is_option (t : string * kind) : bool := match t.2 with KOpt _ _ => true | _ => false end.

(** The arguments before the next option, and those from it on. *)
Fixpoint before_option (args : list (string * kind)) : list string * list (string * kind) :=
  match args with
  | [] => ([], [])
  | t :: args' =>
      if is_option t then ([], args)
      else let '(before, after) := before_option args' in (t.1 :: before, after)
  end.

(** The second loop of [_parse_known_args].  Every iteration consumes an argument, so the number of
    arguments is enough fuel. *)
Fixpoint parse_loop (fuel : nat) (args : list (string * kind)) (st : state) : parsed state :=
  match fuel with
  | O => usage_error
  | S fuel' =>
      if existsb is_option args then
        '(args1, st) ←
          (match args with
           | (_, KOpt _ _) :: _ => Parsed (args, st)
           | _ => consume_positionals (st_positionals st) args st
           end);
        if (length args1 <? length args)%nat then parse_loop fuel' args1 st
        else
          let '(before, after) := before_option args1 in
          let st := mkState (st_positionals st) (st_ns st) (st_extras st ++ before) (st_unrecognized st) in
          match after with
          | (s, KOpt found explicit) :: rest =>
              '(rest, st) ← consume_optional s found explicit rest st;
              parse_loop fuel' rest st
          | _ => usage_error
          end
      else
        '(args, st) ← consume_positionals (st_positionals st) args st;
        Parsed (mkState (st_positionals st) (st_ns st) (st_extras st ++ (fst <$> args)) (st_unrecognized st))
  end.
End with_parser.

(** [parse_known_args]: an expected positional argument that is missing is an error. *)
Definition parse_known_args (p : parser)
    (subparsers : dict string (list string → parsed (namespace * list string))) (args : list string)
    : parsed (namespace * list string) :=
  tokens ← classify (p_options p) args;
  st ← parse_loop (p_options p) subparsers (S (length tokens)) tokens
         (mkState (p_positionals p) (defaults p) [] []);
  match st_positionals st with
  | [] => Parsed (st_ns st, st_extras st ++ st_unrecognized st)
  | _ => usage_error
  end.

(** [parse_args] of a parser with subparsers. *)
Definition parse_args (p : parser) (subs : list (string * parser)) (args : list string) : parsed namespace :=
  '(ns, extras) ← parse_known_args p ((λ s, (s.1, parse_known_args s.2 [])) <$> subs) args;
  match extras with
  | [] => Parsed ns
  | _ => usage_error
  end.
End parse.
