(* ===== verification/ArgparseSpec.v ===== *)
(** What a parse can come to: the loop of [Argparse] has enough fuel, and every namespace it returns
    gives each option a value of its type and among its choices, and each positional argument a
    string among its choices. *)

From Stdlib Require Import ZArith Ascii.
From stdpp Require Import base tactics numbers option strings sets list.
From S2P Require Import Prelude PyDict PyFloat PyMonad Config Json ConfigFile Workloads Argparse.
Local Open Scope string_scope.
Local Open Scope list_scope.

Lemma parsed_bind_inv {A B} (m : parsed A) (f : A → parsed B) b :
  m ≫= f = Parsed b → ∃ a, m = Parsed a ∧ f a = Parsed b.
Proof. destruct m as [a|]; [|done]. eauto. Qed.

(** Take a successful sequence apart. *)
Ltac parse_step H x E := apply parsed_bind_inv in H as (x & E & H).

(** ** Fuel *)

Section fuel.
Context (float_of_str : string → option float) (options : list (string * action)).
Context (subparsers : dict string (list string → parsed (namespace * list string))).

Lemma consume_optional_shorter s found explicit rest st rest' st' :
  consume_optional float_of_str options s found explicit rest st = Parsed (rest', st') →
  (length rest' ≤ length rest)%nat.
Proof.
  unfold consume_optional. destruct found as [[a o]|]; [|by intros [= <- _]].
  intros H. parse_step H x E1. destruct x as [[flags last] e]. parse_step H y E2. destruct y as [args rest1].
  parse_step H ns1 E3. parse_step H ns2 E4. injection H as <- _.
  destruct (takes_one last), e, rest as [|[t []] rest]; simplify_eq/=; lia.
Qed.

Lemma before_option_after args :
  (length (before_option args).2 ≤ length args)%nat.
Proof.
  induction args as [|t args IH]; simpl; [lia|]. destruct (is_option t); simpl; [lia|].
  destruct (before_option args). simpl in *. lia.
Qed.

Lemma consume_positionals_shorter ps args st args' st' :
  consume_positionals float_of_str subparsers ps args st = Parsed (args', st') →
  ∃ n, args' = drop n args.
Proof.
  revert args st. induction ps as [|p ps IH]; intros args st; simpl; [intros [= <- _]; by exists 0%nat|].
  destruct (match_positional p args) as [n|]; [|intros [= <- _]; by exists 0%nat].
  intros H. parse_step H st1 E. apply IH in H as [m ->]. rewrite drop_drop. eauto.
Qed.

(** More fuel than arguments makes no difference. *)
Lemma parse_loop_fuel fuel fuel' args st :
  (length args < fuel)%nat → (length args < fuel')%nat →
  parse_loop float_of_str options subparsers fuel args st
  = parse_loop float_of_str options subparsers fuel' args st.
Proof.
  revert fuel' args st. induction fuel as [|fuel IH]; intros [|fuel'] args st Hf Hf'; [lia..|].
  cbn [parse_loop]. destruct (existsb is_option args); [|done].
  match goal with |- ?m ≫= _ = _ => destruct m as [[args1 st1]|] eqn:E1 end; [|done].
  assert (length args1 ≤ length args)%nat as Hle.
  { assert (∃ n, args1 = drop n args) as [n ->]; [|rewrite length_drop; lia].
    destruct args as [|[s [| |found explicit]] args];
      first [by apply consume_positionals_shorter in E1 | injection E1 as <- _; by exists 0%nat]. }
  unfold mbind, parsed_bind at 1 3. destruct (Nat.ltb_spec (length args1) (length args)) as [Hlt|Hlt]; [apply IH; lia|].
  pose proof (before_option_after args1) as Hb. destruct (before_option args1) as [before after]. simpl in Hb.
  destruct after as [|[s [| |found explicit]] rest]; try done.
  match goal with |- context [consume_optional _ _ s found explicit rest ?st2] =>
    destruct (consume_optional float_of_str options s found explicit rest st2) as [[rest' st']|] eqn:E end; [|done].
  apply consume_optional_shorter in E. simpl in *. apply IH; lia.
Qed.
End fuel.

(** ** Arguments that do not end in [--] *)

Fixpoint ends_dashes (s : string) : bool :=
  match s with EmptyString => false | String c s' => String.eqb s "--" || ends_dashes s' end.
Definition plain_arg (s : string) : Prop := ends_dashes s = false.

Lemma plain_tail c s : plain_arg (String c s) → plain_arg s.
Proof. unfold plain_arg. simpl. by intros [_ ?]%orb_false_iff. Qed.
Lemma plain_not_dashes s : plain_arg s → String.eqb s "--" = false.
Proof. unfold plain_arg. destruct s as [|c s]; [done|]. cbn [ends_dashes]. by intros [? _]%orb_false_iff. Qed.
Lemma plain_split s o e : plain_arg s → split_equals s = Some (o, e) → plain_arg e.
Proof.
  revert o. induction s as [|c s IH]; intros o Hs; simpl; [done|]. apply plain_tail in Hs.
  destruct (Ascii.eqb c "="); [by intros [= _ <-]|].
  destruct (split_equals s) as [[a b]|]; [|done]. intros [= _ <-]. by eapply IH.
Qed.

Section kinds.
Context (options : list (string * action)).

(** The options of a classified argument are those of the parser. *)
Definition kind_ok (k : kind) : Prop :=
  match k with
  | KArg => True
  | KDash => False
  | KOpt found explicit =>
      (∀ a o, found = Some (a, o) → (o, a) ∈ options) ∧ (∀ e, explicit = Some e → plain_arg e)
  end.
Definition token_ok (t : string * kind) : Prop := plain_arg t.1 ∧ kind_ok t.2.

Lemma option_tuples_ok s a o e :
  plain_arg s → (a, o, e) ∈ option_tuples options s →
  (o, a) ∈ options ∧ ∀ x, e = Some x → plain_arg x.
Proof.
  intros Hs. unfold option_tuples. destruct (String.prefix "--" s).
  - assert (∀ x, match split_equals s with Some (o, e) => (o, Some e) | None => (s, None) end.2 = Some x →
      plain_arg x) as Hx.
    { destruct (split_equals s) as [[o' e']|] eqn:E; intros x; simpl; [|done].
      intros [= <-]. by eapply plain_split. }
    destruct (match split_equals s with Some (o, e) => (o, Some e) | None => (s, None) end) as [pre e'].
    intros ([o' a'] & Hin & Ho)%list_elem_of_omap. simpl in *. destruct (String.prefix _ _); [|done].
    by simplify_eq.
  - destruct s as [|c1 [|c2 rest]]; [by intros ?%not_elem_of_nil..|].
    intros ([o' a'] & Hin & Ho)%list_elem_of_omap. cbn [fst snd] in Ho.
    assert (plain_arg rest) as Hr by by eapply plain_tail, plain_tail.
    destruct (String.eqb _ _); [|destruct (String.prefix _ _); [|done]]; simplify_eq; (split; [done|]).
    + by intros x [= <-].
    + done.
Qed.

Lemma tuples_kind_ok s k :
  plain_arg s →
  match option_tuples options s with
  | [(a, o, e)] => Parsed (KOpt (Some (a, o)) e)
  | _ :: _ :: _ => usage_error
  | [] => if negative_number_like s || has_space s then Parsed KArg else Parsed (KOpt None None)
  end = Parsed k → kind_ok k.
Proof.
  intros Hs. destruct (option_tuples options s) as [|[[a o] e] [|]] eqn:E; [|intros [= <-]|done].
  - destruct (_ || _); by intros [= <-].
  - destruct (option_tuples_ok s a o e Hs) as [Hin He]; [rewrite E; set_solver|].
    split; [by intros a' o' [= <- <-]|done].
Qed.

Lemma parse_optional_ok s k : plain_arg s → parse_optional options s = Parsed k → kind_ok k.
Proof.
  intros Hs. unfold parse_optional. destruct (negb _); [by intros [= <-]|].
  destruct (dict_get options s) as [a|] eqn:Ea.
  { intros [= <-]. split; [|done]. intros a' o [= <- <-]. by apply dict_get_elem. }
  destruct (String.eqb s "-"); [by intros [= <-]|].
  destruct (split_equals s) as [[o e]|] eqn:Es; [|by apply tuples_kind_ok].
  destruct (dict_get options o) as [a|] eqn:Eo; [|by apply tuples_kind_ok].
  intros [= <-]. split; [intros a' o' [= <- <-]; by apply dict_get_elem|].
  intros e' [= <-]. by eapply plain_split.
Qed.

Lemma classify_ok args tokens :
  Forall plain_arg args → classify options args = Parsed tokens →
  Forall token_ok tokens ∧ fst <$> tokens = args.
Proof.
  intros Ha. revert tokens. induction Ha as [|s args Hs _ IH]; intros tokens; simpl; [by intros [= <-]|].
  rewrite (plain_not_dashes s Hs). intros H. parse_step H k Ek. parse_step H rest Er. injection H as <-.
  destruct (IH rest Er) as [Hr <-]. split; [|done]. constructor; [|done].
  split; [done|]. by eapply parse_optional_ok.
Qed.
End kinds.

(** ** The namespace *)

Definition action_dest (a : action) : option string :=
  match a with Store dest _ _ _ | StoreTrue dest => Some dest | HelpAction | VersionAction => None end.
(** No two arguments of a parser store under one name. *)
Definition distinct_dests (p : parser) : Prop :=
  NoDup (omap (λ o, action_dest o.2) (p_options p) ++ (positional_dest <$> p_positionals p)).

Section typed.
Context (float_of_str : string → option float).

Definition stored_value (type : arg_type) (choices : option (list string)) (v : pyval) : Prop :=
  ∃ s, arg_value float_of_str type s = Some v ∧ allowed_choice choices v = true.
Definition action_typed (ns : namespace) (a : action) : Prop :=
  match a with
  | Store dest type choices dflt => ∃ v, dict_get ns dest = Some v ∧ (v = dflt ∨ stored_value type choices v)
  | StoreTrue dest => ∃ b, dict_get ns dest = Some (VBool b)
  | HelpAction | VersionAction => True
  end.
Definition positional_typed (ns : namespace) (p : positional) : Prop :=
  match p with
  | Argument dest choices => ∃ s, dict_get ns dest = Some (VStr s) ∧ allowed_choice choices (VStr s) = true
  | Subparsers _ => False   (* its values are in the namespace of the subparser *)
  end.

Lemma get_values_typed type choices s v :
  plain_arg s → get_values float_of_str type choices [s] = Parsed v → stored_value type choices v.
Proof.
  intros Hs. unfold get_values. simpl. rewrite (plain_not_dashes s Hs).
  destruct (arg_value _ type s) as [v'|] eqn:E; [|done].
  destruct (allowed_choice choices v') eqn:Ec; [|done]. intros [= <-]. by exists s.
Qed.

Section parser.
Context (p : parser) (Hd : distinct_dests p).
Local Abbreviation options := (p_options p).

Lemma omap_inj {A B} (f : A → option B) (l : list A) x y d :
  NoDup (omap f l) → x ∈ l → y ∈ l → f x = Some d → f y = Some d → x = y.
Proof.
  induction l as [|a l IH]; [by intros _ ?%not_elem_of_nil|].
  rewrite !elem_of_cons. simpl. destruct (f a) as [b|] eqn:Ea.
  - intros [Hb Hn]%NoDup_cons [->|Hx] [->|Hy] Ex Ey; simplify_eq; try done; try by apply IH.
    + destruct Hb. apply list_elem_of_omap. eauto.
    + destruct Hb. apply list_elem_of_omap. eauto.
  - intros Hn [->|Hx] [->|Hy] Ex Ey; simplify_eq; try done. by apply IH.
Qed.

(** The actions that store under a name. *)
Lemma dest_action o a o' a' d :
  (o, a) ∈ options → (o', a') ∈ options → action_dest a = Some d → action_dest a' = Some d → a = a'.
Proof.
  intros Ha Ha' Ed Ed'. apply NoDup_app in Hd as [Hn _].
  by injection (omap_inj (λ o : string * action, action_dest o.2) options (o, a) (o', a') d Hn Ha Ha' Ed Ed') as _ ->.
Qed.
Lemma dest_positional o a q : (o, a) ∈ options → q ∈ p_positionals p → action_dest a ≠ Some (positional_dest q).
Proof.
  intros Ha Hq Ed. apply NoDup_app in Hd as (_ & Hn & _).
  apply (Hn (positional_dest q)); [apply list_elem_of_omap; by exists (o, a)|by apply list_elem_of_fmap_2].
Qed.
Lemma positional_inj q q' :
  q ∈ p_positionals p → q' ∈ p_positionals p → positional_dest q = positional_dest q' → q = q'.
Proof.
  intros Hq Hq' E. apply NoDup_app in Hd as (_ & _ & Hn). revert Hn Hq Hq'. clear -E.
  induction (p_positionals p) as [|a l IH]; [by intros _ ?%not_elem_of_nil|]. simpl.
  intros [Hb Hn]%NoDup_cons [->|Hq]%elem_of_cons [->|Hq']%elem_of_cons; try done; [| |by apply IH].
  - destruct Hb. rewrite E. by apply list_elem_of_fmap_2.
  - destruct Hb. rewrite <- E. by apply list_elem_of_fmap_2.
Qed.

(** What holds of the namespace while the positional arguments [left] are still expected. *)
Record ns_inv (left : list positional) (ns : namespace) : Prop := {
  ni_actions o a : (o, a) ∈ options → action_typed ns a;
  ni_positionals q : q ∈ p_positionals p → q ∈ left ∨ positional_typed ns q;
  ni_left q : q ∈ left → q ∈ p_positionals p;
  ni_nodup : NoDup left;
  ni_wf : dict_wf ns;
  ni_dom d : d ∈ dict_keys ns → d ∈ dict_keys (defaults p);
}.

Lemma defaults_keys :
  dict_keys (defaults p) = omap (λ o, action_dest o.2) options ++ (positional_dest <$> p_positionals p).
Proof.
  unfold defaults, dict_keys. rewrite map_app. f_equal.
  - induction options as [|[o a] l IH]; [done|]. destruct a; simpl; [f_equal|f_equal| |]; exact IH.
  - induction (p_positionals p) as [|q l IH]; [done|]. simpl. f_equal. exact IH.
Qed.

Lemma set_dom (ns : namespace) d v k :
  d ∈ dict_keys (defaults p) → (∀ x, x ∈ dict_keys ns → x ∈ dict_keys (defaults p)) →
  k ∈ dict_keys (dict_set ns d v) → k ∈ dict_keys (defaults p).
Proof.
  intros Hdd Hns Hk. apply dict_mem_keys in Hk. unfold dict_mem in Hk. rewrite dict_get_set in Hk.
  case_decide as E; [by rewrite <- E|]. apply Hns, dict_mem_keys. done.
Qed.
Lemma action_in_defaults o a d : (o, a) ∈ options → action_dest a = Some d → d ∈ dict_keys (defaults p).
Proof. intros Hin Ed. rewrite defaults_keys. apply elem_of_app. left. apply list_elem_of_omap. by exists (o, a). Qed.
Lemma positional_in_defaults q : q ∈ p_positionals p → positional_dest q ∈ dict_keys (defaults p).
Proof. intros Hin. rewrite defaults_keys. apply elem_of_app. right. by apply list_elem_of_fmap_2. Qed.

(** Storing a value for an action or a positional argument. *)
Lemma ns_inv_action left ns o a d v :
  ns_inv left ns → (o, a) ∈ options → action_dest a = Some d → action_typed (dict_set ns d v) a →
  ns_inv left (dict_set ns d v).
Proof.
  intros [Ha Hp Hl Hn Hw Hm] Hin Ed Hv. split; [| |done|done|by apply dict_wf_set|].
  - intros o' a' Hin'. destruct (decide (action_dest a' = Some d)) as [Ed'|Ed'].
    + by rewrite <- (dest_action o a o' a' d Hin Hin' Ed Ed').
    + specialize (Ha o' a' Hin'). destruct a' as [d' ty ch dv|d'| |]; simpl in *; try done;
        rewrite dict_get_set; by (case_decide; [congruence|]).
  - intros q Hq. destruct (Hp q Hq) as [?|Ht]; [by left|right].
    pose proof (dest_positional o a q Hin Hq) as Hne. destruct q as [d' ch|d']; simpl in *; [|done].
    rewrite dict_get_set. case_decide; [congruence|done].
  - intros k. apply set_dom; [by eapply action_in_defaults|done].
Qed.

Lemma ns_inv_positional left q ns d choices s :
  q = Argument d choices → ns_inv (q :: left) ns → allowed_choice choices (VStr s) = true →
  ns_inv left (dict_set ns d (VStr s)).
Proof.
  intros -> [Ha Hp Hl Hn Hw Hm] Hs. assert (Argument d choices ∈ p_positionals p) as Hin by (apply Hl; set_solver).
  split.
  - intros o a Hoa. specialize (Ha o a Hoa). pose proof (dest_positional o a _ Hoa Hin) as Hne.
    destruct a as [d' ty ch dv|d'| |]; simpl in *; try done; rewrite dict_get_set; by (case_decide; [congruence|]).
  - intros q' Hq'. destruct (decide (positional_dest q' = d)) as [E|E].
    + rewrite (positional_inj q' (Argument d choices) Hq' Hin E). right. exists s. by rewrite dict_get_set_eq.
    + destruct (Hp q' Hq') as [[->|?]%elem_of_cons|Ht]; [done|by left|right].
      destruct q' as [d' ch|d']; simpl in *; [|done]. rewrite dict_get_set. by case_decide.
  - intros q' Hq'. apply Hl. set_solver.
  - by apply NoDup_cons in Hn as [_ Hn].
  - by apply dict_wf_set.
  - intros k. apply set_dom; [|done]. by apply (positional_in_defaults (Argument d choices)).
Qed.

(** *** Options *)

Lemma take_action_inv left o a args ns ns' :
  ns_inv left ns → (o, a) ∈ options → (takes_one a = true → ∃ s, args = [s] ∧ plain_arg s) →
  take_action float_of_str a args ns = Parsed ns' → ns_inv left ns'.
Proof.
  intros Hi Hin Hargs. destruct a as [d ty ch dv|d| |]; simpl; [|intros [= <-]|done..].
  - destruct (Hargs eq_refl) as (s & -> & Hs). intros H. parse_step H v Ev. injection H as <-.
    eapply ns_inv_action; [done..|]. exists v. rewrite dict_get_set_eq. split; [done|right].
    by eapply get_values_typed.
  - eapply ns_inv_action; [done..|]. exists true. by rewrite dict_get_set_eq.
Qed.

Definition is_flag (a : action) : Prop := (∃ o, (o, a) ∈ options) ∧ takes_one a = false.

Lemma take_flags_inv left flags ns ns' :
  ns_inv left ns → Forall is_flag flags → take_flags float_of_str flags ns = Parsed ns' → ns_inv left ns'.
Proof.
  intros Hi Hf. revert ns Hi. induction Hf as [|a flags [[o Ho] Ha] _ IH]; intros ns Hi; simpl; [by intros [= <-]|].
  intros H. parse_step H ns1 E. apply (IH ns1); [|done].
  eapply take_action_inv; [done|done| |done]. by rewrite Ha.
Qed.

Lemma cluster_ok a explicit flags last e :
  is_flag a → plain_arg explicit → cluster options a explicit = Parsed (flags, last, e) →
  Forall is_flag flags ∧ (∃ o, (o, last) ∈ options) ∧ (∀ x, e = Some x → plain_arg x).
Proof.
  revert a flags. induction explicit as [|c rest IH]; intros a flags Ha Hp; simpl; [done|].
  apply plain_tail in Hp. destruct (dict_get options _) as [a'|] eqn:E; [|done]. apply dict_get_elem in E.
  destruct (String.eqb rest ""); [intros [= <- <- <-]; split_conj; [by apply Forall_singleton|eauto|done]|].
  destruct (takes_one a') eqn:Et.
  { intros [= <- <- <-]. split_conj; [by apply Forall_singleton|eauto|by intros x [= <-]]. }
  intros H. parse_step H x Ex. destruct x as [[flags' last'] e']. injection H as <- <- <-.
  apply IH in Ex as (Hf & Hl & He); [|by split; [eauto|]|done]. split_conj; [by constructor|done..].
Qed.

Lemma consume_optional_inv s found explicit rest st rest' st' :
  ns_inv (st_positionals st) (st_ns st) → token_ok options (s, KOpt found explicit) →
  Forall (token_ok options) rest →
  consume_optional float_of_str options s found explicit rest st = Parsed (rest', st') →
  ns_inv (st_positionals st') (st_ns st') ∧ Forall (token_ok options) rest'.
Proof.
  intros Hi [_ [Hfound Hex]] Hr. unfold consume_optional. destruct found as [[a o]|]; [|by intros [= <- <-]].
  specialize (Hfound a o eq_refl). intros H. parse_step H x E1. destruct x as [[flags last] e].
  parse_step H y E2. destruct y as [args rest1]. parse_step H ns1 E3. parse_step H ns2 E4. injection H as <- <-.
  assert (Forall is_flag flags ∧ (∃ o, (o, last) ∈ options) ∧ ∀ x, e = Some x → plain_arg x) as (Hf & [o' Hl] & He).
  { unfold resolve in E1. destruct explicit as [ex|]; [|injection E1 as <- <- <-; eauto].
    destruct (takes_one a) eqn:Et; [injection E1 as <- <- <-; eauto|].
    destruct (single_dash o); [|done]. eapply cluster_ok; [|by apply Hex|done]. split; eauto. }
  assert (Forall (token_ok options) rest1 ∧ (takes_one last = true → ∃ s, args = [s] ∧ plain_arg s)) as [Hr1 Hargs].
  { destruct (takes_one last); [|by injection E2 as <- <-].
    destruct e as [e|]; [injection E2 as <- <-; split; eauto|].
    destruct rest as [|[t []] rest]; try done. injection E2 as <- <-.
    apply Forall_cons in Hr as [[Ht _] Hr]. split; eauto. }
  split; [|done]. simpl. eapply take_action_inv; [|done|done|exact E4]. by eapply take_flags_inv.
Qed.

(** *** Positional arguments *)

Section loop.
Context (subparsers : dict string (list string → parsed (namespace * list string))).

(** The namespace after a subparser: its values replace those of the same name. *)
Definition merged (ns : namespace) : Prop :=
  ∃ ns0 d name sub rest nsub extras,
    (∀ o a, (o, a) ∈ options → action_typed ns0 a) ∧ Subparsers d ∈ p_positionals p ∧
    dict_get subparsers name = Some sub ∧ Forall plain_arg rest ∧ sub rest = Parsed (nsub, extras) ∧
    ns = foldl (λ m kv, dict_set m kv.1 kv.2) (dict_set ns0 d (VStr name)) nsub.

Lemma tokens_dashes tokens : Forall (token_ok options) tokens → dashes tokens = 0%nat.
Proof. destruct 1 as [|[s []] tokens [_ Hk] _]; done. Qed.

Lemma consume_positionals_inv ps args st args' st' :
  Forall (token_ok options) args → ns_inv ps (st_ns st) →
  consume_positionals float_of_str subparsers ps args st = Parsed (args', st') →
  (ns_inv (st_positionals st') (st_ns st') ∧ Forall (token_ok options) args') ∨ (args' = [] ∧ merged (st_ns st')).
Proof.
  revert args st. induction ps as [|q ps IH]; intros args st Ht Hi; simpl; [intros [= <- <-]; by left|].
  unfold match_positional. rewrite (tokens_dashes args Ht), drop_0.
  destruct args as [|[s [| |]] args]; try (intros [= <- <-]; by left).
  apply Forall_cons in Ht as [[Hs _] Ht]. destruct q as [d ch|d].
  - rewrite (tokens_dashes args Ht). simpl. intros H. parse_step H st1 E. parse_step E v Ev. injection E as <-.
    apply get_values_typed in Ev as (s' & [= <-] & Hc); [|done]. eapply IH; [done| |exact H].
    simpl. by eapply ns_inv_positional.
  - simpl. rewrite take_ge, drop_ge by (simpl; rewrite ?length_fmap; lia). simpl. intros H. parse_step H st1 E.
    right. destruct (dict_get subparsers s) as [sub|] eqn:Es; [|done].
    parse_step E x Ex. destruct x as [nsub extras]. injection E as <-.
    assert (args' = [] ∧ st_ns st' = foldl (λ m kv, dict_set m kv.1 kv.2)
      (dict_set (st_ns st) d (VStr s)) nsub) as [-> ->].
    { destruct ps as [|q ps]; simpl in H; [|destruct q]; by injection H as <- <-. }
    split; [done|]. exists (st_ns st), d, s, sub, (fst <$> args), nsub, extras.
    split_conj; [apply Hi|apply (ni_left _ _ Hi); set_solver|done| |done|done].
    apply Forall_fmap. eapply Forall_impl; [exact Ht|]. by intros t [? _].
Qed.

Lemma before_option_ok tokens :
  Forall (token_ok options) tokens → Forall (token_ok options) (before_option tokens).2.
Proof.
  induction 1 as [|t tokens Ht Hts IH]; simpl; [done|]. destruct (is_option t); [by constructor|].
  by destruct (before_option tokens).
Qed.

Lemma parse_loop_nil fuel st st' :
  parse_loop float_of_str options subparsers fuel [] st = Parsed st' → st_ns st' = st_ns st.
Proof.
  destruct fuel as [|fuel]; [done|]. cbn [parse_loop existsb]. intros H. parse_step H x E.
  destruct x as [args1 st1]. injection H as <-. simpl.
  destruct (st_positionals st) as [|[] ps]; by injection E as <- <-.
Qed.

(** What the loop leaves. *)
Lemma parse_loop_inv fuel args st st' :
  Forall (token_ok options) args → ns_inv (st_positionals st) (st_ns st) →
  parse_loop float_of_str options subparsers fuel args st = Parsed st' →
  ns_inv (st_positionals st') (st_ns st') ∨ merged (st_ns st').
Proof.
  revert args st. induction fuel as [|fuel IH]; intros args st Ht Hi; [done|]. cbn [parse_loop].
  destruct (existsb is_option args) eqn:Eo; intros H; parse_step H x E; destruct x as [args1 st1]; last first.
  { injection H as <-. by apply consume_positionals_inv in E as [[? _]|[_ ?]]; [left|right|..]. }
  assert ((ns_inv (st_positionals st1) (st_ns st1) ∧ Forall (token_ok options) args1) ∨
          (args1 = [] ∧ merged (st_ns st1))) as [[Hi1 Ht1]|[-> Hm]].
  { destruct args as [|[s [| |found explicit]] args];
      first [by apply consume_positionals_inv in E | injection E as <- <-; by left]. }
  - destruct (_ <? _)%nat; [by eapply IH|].
    pose proof (before_option_ok args1 Ht1) as Hb. destruct (before_option args1) as [before after]. simpl in Hb.
    destruct after as [|[s [| |found explicit]] rest]; try done. apply Forall_cons in Hb as [Hs Hr].
    parse_step H y Ey. destruct y as [rest' st2].
    apply consume_optional_inv in Ey as [Hi2 Hr2]; [|done..]. exact (IH rest' st2 Hr2 Hi2 H).
  - right. destruct args as [|t args]; [done|]. cbn [length Nat.ltb Nat.leb] in H.
    apply parse_loop_nil in H. by rewrite H.
Qed.

Lemma defaults_inv : ns_inv (p_positionals p) (defaults p).
Proof.
  assert (NoDup (p_positionals p)) as Hn
    by (apply NoDup_app in Hd as (_ & _ & Hn); by apply NoDup_fmap_1 in Hn).
  assert (dict_wf (defaults p)) as Hw by (unfold dict_wf; by rewrite defaults_keys).
  split; [|by left|done..]. intros o a Hin.
  assert (∀ d v, action_default a = Some (d, v) → dict_get (defaults p) d = Some v) as Hget.
  { intros d v Hdv. apply dict_wf_get_elem; [done|].
    apply elem_of_app. left. apply list_elem_of_omap. by exists (o, a). }
  destruct a as [d ty ch dv|d| |]; simpl; [|exists false; by apply Hget|done..].
  exists dv. split; [by apply Hget|by left].
Qed.

(** A parse that ends with a namespace. *)
Lemma parse_known_args_inv args ns extras :
  Forall plain_arg args → parse_known_args float_of_str p subparsers args = Parsed (ns, extras) →
  ns_inv [] ns ∨ merged ns.
Proof.
  intros Ha H. parse_step H tokens E1. parse_step H st E2.
  destruct (classify_ok _ _ _ Ha E1) as [Ht _]. pose proof defaults_inv as Hi.
  apply parse_loop_inv in E2; [|done..].
  destruct (st_positionals st) as [|q ps]; [|done]. by injection H as <- _.
Qed.
End loop.
End parser.
End typed.

(** ** A parser with subparsers *)

Section subs.
Context (float_of_str : string → option float) (p : parser) (subs : list (string * parser)) (d : string).

Lemma dict_get_merge (ns nsub : namespace) k :
  dict_wf nsub →
  dict_get (foldl (λ m kv, dict_set m kv.1 kv.2) ns nsub) k
  = match dict_get nsub k with Some v => Some v | None => dict_get ns k end.
Proof. intros Hw. by apply dict_get_update. Qed.

Lemma action_typed_ext ns ns' a :
  (∀ k, action_dest a = Some k → dict_get ns' k = dict_get ns k) →
  action_typed float_of_str ns a → action_typed float_of_str ns' a.
Proof. destruct a; simpl; intros He; try done; by rewrite (He _ eq_refl). Qed.

(** What a command line with a subcommand comes to: the values of the subparser, and those of the
    main parser for the names the subparser does not know. *)
Lemma parse_args_inv argv ns :
  distinct_dests p → p_positionals p = [Subparsers d] →
  (∀ name q, (name, q) ∈ subs → distinct_dests q ∧ d ∉ dict_keys (defaults q)) →
  Forall plain_arg argv → parse_args float_of_str p subs argv = Parsed ns →
  ∃ name q, (name, q) ∈ subs ∧ dict_get ns d = Some (VStr name) ∧
    (∀ o a, (o, a) ∈ p_options q → action_typed float_of_str ns a) ∧
    (∀ x, x ∈ p_positionals q → positional_typed ns x) ∧
    (∀ o a k, (o, a) ∈ p_options p → action_dest a = Some k → k ∉ dict_keys (defaults q) →
       action_typed float_of_str ns a).
Proof.
  intros Hp Hpos Hsubs Ha H. parse_step H x E. destruct x as [ns1 extras]. destruct extras; [|done].
  injection H as <-. apply parse_known_args_inv in E as [Hi|Hm]; [|..|done|done].
  { destruct (ni_positionals _ _ _ _ Hi (Subparsers d)) as [?%not_elem_of_nil|[]]; rewrite ?Hpos; set_solver. }
  destruct Hm as (ns0 & d' & name & sub & rest & nsub & extras & Ht & Hd' & Hsub & Hr & Es & ->).
  rewrite Hpos in Hd'. apply list_elem_of_singleton in Hd' as [= ->].
  apply dict_get_elem, list_elem_of_fmap in Hsub as ([name' q] & [= <- ->] & Hin). simpl in Es.
  destruct (Hsubs name q Hin) as [Hq Hdq].
  apply parse_known_args_inv in Es as [Hi|Hm]; [|by destruct Hm as (? & ? & ? & ? & ? & ? & ? & _ & _ & [=] & _)|done|done].
  pose proof (ni_wf _ _ _ _ Hi) as Hw.
  assert (∀ k, k ∉ dict_keys (defaults q) → dict_get nsub k = None) as Hnone.
  { intros k Hk. destruct (dict_get nsub k) as [v|] eqn:E; [|done]. destruct Hk. apply (ni_dom _ _ _ _ Hi).
    apply dict_mem_keys. unfold dict_mem. by rewrite E. }
  exists name, q. split_conj; [done|..].
  - rewrite dict_get_merge, Hnone, dict_get_set_eq by done. done.
  - intros o a Hoa. pose proof (ni_actions _ _ _ _ Hi o a Hoa) as Hta. revert Hta. apply action_typed_ext.
    intros k Hk. rewrite dict_get_merge by done.
    destruct (dict_get nsub k) eqn:E; [done|]. exfalso.
    pose proof (ni_actions _ _ _ _ Hi o a Hoa) as Hta. destruct a; simplify_eq/=; destruct Hta; naive_solver congruence.
  - intros x Hx. destruct (ni_positionals _ _ _ _ Hi x Hx) as [?%not_elem_of_nil|Hpx]; [done|].
    destruct x as [dx ch|]; [|done]. destruct Hpx as (s & Hs & Hc). exists s.
    by rewrite dict_get_merge, Hs.
  - intros o a k Hoa Hk Hnk. specialize (Ht o a Hoa). revert Ht. apply action_typed_ext.
    intros k' Hk'. assert (k' = k) as -> by congruence. rewrite dict_get_merge, Hnone, dict_get_set_ne by (try done;
      intros ->; by eapply (dest_positional p Hp o a (Subparsers k)); [done|rewrite Hpos; set_solver|]). done.
Qed.
End subs.

(** ** Exit codes *)

(** A parse that ends the process does so with the code of a usage error, or with that of help and version, and then
    something asked for them ([I]). *)
Definition exits_ok (I : Prop) {A} (m : parsed A) : Prop := ∀ code, m = Exits code → code = 2%Z ∨ code = 0%Z ∧ I.

Lemma exits_ret I {A} (a : A) : exits_ok I (Parsed a).
Proof. done. Qed.
Lemma exits_error I {A} : exits_ok I (usage_error (A:=A)).
Proof. intros code [= <-]. by left. Qed.
Lemma exits_help (I : Prop) {A} : I → exits_ok I (Exits 0 : parsed A).
Proof. intros HI code [= <-]. by right. Qed.
Lemma exits_bind I {A B} (m : parsed A) (f : A → parsed B) :
  exits_ok I m → (∀ a, m = Parsed a → exits_ok I (f a)) → exits_ok I (m ≫= f).
Proof. intros Hm Hf. destruct m as [a|c]; [by apply Hf|]. intros code [= <-]. by apply Hm. Qed.

(** Go through a parsing function branch by branch. *)
Ltac exits :=
  repeat first
  [ apply exits_ret | apply exits_error
  | apply exits_bind; [|intros]
  | match goal with |- exits_ok _ (match ?x with _ => _ end) => destruct x end
  | progress eauto ].

(** The actions that end the process with code 0; they are taken for an option that stands for one, or for a cluster of flags. *)
Definition shows (a : action) : bool := match a with HelpAction | VersionAction => true | _ => false end.
Definition shows_by (a : action) (option_string : string) : Prop :=
  shows a = true ∨ takes_one a = false ∧ single_dash option_string = true.

Section exits.
Context (I : Prop) (A : string → Prop).
Context (float_of_str : string → option float) (options : list (string * action)).
Local Abbreviation ok := (exits_ok I).

(** An argument of the command line, classified; an option that may show something is one that asked for it. *)
Definition asked (t : string * kind) : Prop :=
  A t.1 ∧ match t.2 with KOpt (Some (a, o)) _ => shows_by a o → I | _ => True end.

Lemma parse_optional_exits s : ok (parse_optional options s).
Proof. unfold parse_optional. exits. Qed.
Lemma classify_exits args : ok (classify options args).
Proof.
  induction args as [|s args IH]; simpl; [apply exits_ret|]. destruct (String.eqb s "--"); [apply exits_ret|].
  apply exits_bind; [apply parse_optional_exits|intros; apply exits_bind; [done|intros; apply exits_ret]].
Qed.
Lemma classify_asked args tokens :
  (∀ s a o e, A s → parse_optional options s = Parsed (KOpt (Some (a, o)) e) → shows_by a o → I) →
  Forall A args → classify options args = Parsed tokens → Forall asked tokens.
Proof.
  intros Hopt Ha. revert tokens. induction Ha as [|s args Hs Ha IH]; intros tokens; simpl; [by intros [= <-]|].
  destruct (String.eqb s "--").
  { intros [= <-]. constructor; [done|]. apply Forall_fmap. by eapply Forall_impl; [exact Ha|]. }
  intros H. parse_step H k Ek. parse_step H rest Er. injection H as <-. constructor; [|by apply IH].
  split; [done|]. simpl. destruct k as [| |[[a o]|] e]; try done. by apply (Hopt s a o e).
Qed.

Lemma get_values_exits type choices args : ok (get_values float_of_str type choices args).
Proof. unfold get_values. exits. Qed.
Lemma take_action_exits a args ns : (shows a = true → I) → ok (take_action float_of_str a args ns).
Proof.
  intros Ha. destruct a; simpl; [|apply exits_ret|apply exits_help; by apply Ha..].
  apply exits_bind; [apply get_values_exits|intros; apply exits_ret].
Qed.
Lemma take_flags_exits flags ns : I → ok (take_flags float_of_str flags ns).
Proof.
  intros HI. revert ns. induction flags as [|a flags IH]; intros ns; simpl; [apply exits_ret|].
  apply exits_bind; [by apply take_action_exits|done].
Qed.
Lemma cluster_exits a e : ok (cluster options a e).
Proof. revert a. induction e as [|c e IH]; intros a; simpl; exits. Qed.
Lemma consume_optional_exits s found explicit rest st :
  asked (s, KOpt found explicit) → ok (consume_optional float_of_str options s found explicit rest st).
Proof.
  intros [_ Ha]. unfold consume_optional. destruct found as [[a o]|]; [|apply exits_ret]. simpl in Ha.
  apply exits_bind; [unfold resolve; exits; apply cluster_exits|]. intros [[flags last] e] Er.
  apply exits_bind; [exits|]. intros [args rest'] _.
  assert (I ∨ flags = [] ∧ (shows last = true → I)) as [HI|[-> Hl]].
  { unfold resolve in Er. destruct explicit as [e'|]; [|injection Er as <- <- <-; right; split; [done|]; intros; by apply Ha; left].
    destruct (takes_one a) eqn:Et; [injection Er as <- <- <-; right; split; [done|]; by destruct a|].
    destruct (single_dash o) eqn:Es; [left; apply Ha; by right|done]. }
  - apply exits_bind; [by apply take_flags_exits|intros ns _]. apply exits_bind; [by apply take_action_exits|intros; apply exits_ret].
  - apply (exits_bind I (Parsed _)); [apply exits_ret|intros ns _].
    apply exits_bind; [by apply take_action_exits|intros; apply exits_ret].
Qed.
Lemma consume_optional_rest s found explicit rest st rest' st' (Q : string * kind → Prop) :
  consume_optional float_of_str options s found explicit rest st = Parsed (rest', st') → Forall Q rest → Forall Q rest'.
Proof.
  intros H HQ. unfold consume_optional in H. destruct found as [[a o]|]; [|by injection H as <- <-].
  parse_step H x Er. destruct x as [[flags last] e]. parse_step H y Ey. destruct y as [args rest1].
  parse_step H ns En. parse_step H ns' En'. injection H as <- <-.
  destruct (takes_one last), e; try (by injection Ey as <- <-).
  destruct rest as [|[t []] rest]; try done. injection Ey as <- <-. by apply Forall_cons in HQ as [_ ?].
Qed.

Context (subparsers : dict string (list string → parsed (namespace * list string))).
Context (Hsub : ∀ name sub args, dict_get subparsers name = Some sub → Forall A args → ok (sub args)).

Lemma consume_positionals_exits ps args st :
  Forall asked args → ok (consume_positionals float_of_str subparsers ps args st).
Proof.
  revert args st. induction ps as [|q ps IH]; intros args st Ha; simpl; [apply exits_ret|].
  destruct (match_positional q args) as [n|]; [|apply exits_ret].
  apply exits_bind; [|intros st' _; by apply IH, Forall_drop].
  destruct q as [d ch|d]; simpl; [apply exits_bind; [apply get_values_exits|intros; apply exits_ret]|].
  assert (Forall A (fst <$> take n args)) as Hn.
  { apply Forall_fmap, Forall_take. by eapply Forall_impl; [exact Ha|intros t []]. }
  destruct (fst <$> take n args) as [|name rest]; [apply exits_error|]. apply Forall_cons in Hn as [_ Hn].
  destruct (dict_get subparsers name) as [sub|] eqn:E; [|apply exits_error].
  apply exits_bind; [by eapply Hsub|]. intros [] _. apply exits_ret.
Qed.
Lemma consume_positionals_rest ps args st args' st' (Q : string * kind → Prop) :
  consume_positionals float_of_str subparsers ps args st = Parsed (args', st') → Forall Q args → Forall Q args'.
Proof.
  revert args st. induction ps as [|q ps IH]; intros args st; simpl; [by intros [= <- <-]|].
  destruct (match_positional q args) as [n|]; [|by intros [= <- <-]].
  intros H Ha. parse_step H st1 E. by eapply IH, Forall_drop.
Qed.
Lemma before_option_rest args (Q : string * kind → Prop) : Forall Q args → Forall Q (before_option args).2.
Proof.
  induction 1 as [|t tokens Ht Hts IH]; simpl; [done|]. destruct (is_option t); [by constructor|].
  by destruct (before_option tokens).
Qed.

Lemma parse_loop_exits fuel args st :
  Forall asked args → ok (parse_loop float_of_str options subparsers fuel args st).
Proof.
  revert args st. induction fuel as [|fuel IH]; intros args st Ha; cbn [parse_loop]; [apply exits_error|].
  destruct (existsb is_option args);
    [|apply exits_bind; [by apply consume_positionals_exits|intros [] _; apply exits_ret]].
  apply exits_bind.
  - destruct args as [|[s []] args]; first [apply exits_ret | by apply consume_positionals_exits].
  - intros [args1 st1] E.
    assert (Forall asked args1) as Ha1.
    { destruct args as [|[s []] args]; first [by injection E as <- <- | by eapply consume_positionals_rest]. }
    destruct (_ <? _)%nat; [by apply IH|].
    pose proof (before_option_rest args1 asked Ha1) as Hb. destruct (before_option args1) as [before after].
    destruct after as [|[s []] rest]; try apply exits_error. apply Forall_cons in Hb as [Hs Hr].
    apply exits_bind; [by apply consume_optional_exits|]. intros [rest' st2] E2. apply IH.
    by eapply consume_optional_rest.
Qed.
End exits.

Lemma parse_known_args_exits I A float_of_str p subparsers args :
  (∀ s a o e, A s → parse_optional (p_options p) s = Parsed (KOpt (Some (a, o)) e) → shows_by a o → I) →
  (∀ name sub args, dict_get subparsers name = Some sub → Forall A args → exits_ok I (sub args)) →
  Forall A args → exits_ok I (parse_known_args float_of_str p subparsers args).
Proof.
  intros Hopt Hsub Ha. apply exits_bind; [apply classify_exits|]. intros tokens E.
  apply exits_bind; [apply (parse_loop_exits I A); [done|by eapply classify_asked]|]. intros st _.
  destruct (st_positionals st); [apply exits_ret|apply exits_error].
Qed.

Lemma parse_args_exits (I : Prop) (A : string → Prop) float_of_str p subs args :
  (∀ q s a o e, q = p ∨ (∃ name, (name, q) ∈ subs) → A s →
     parse_optional (p_options q) s = Parsed (KOpt (Some (a, o)) e) → shows_by a o → I) →
  Forall A args → exits_ok I (parse_args float_of_str p subs args).
Proof.
  intros Hopt Ha. apply exits_bind; [|intros [ns []] _; [apply exits_ret|apply exits_error]].
  apply (parse_known_args_exits I A); [intros s a o e; apply Hopt; by left| |done].
  intros name sub args' Hs Ha'. apply dict_get_elem, list_elem_of_fmap in Hs as ([n q] & [= <- ->] & Hin).
  apply (parse_known_args_exits I A); [intros s a o e; apply Hopt; right; by eexists|done|done].
Qed.
