(* ===== verification/CacheInv.v ===== *)
(** The invariant of the cache: what holds of every shard, of the job queue and of the
    source backend, whatever the sequence of calls.

    [shard_side] collects the facts about one shard beyond [shard_wf]: its index and
    capacity, that its keys are the ones routed to it, that the counters account for the
    stored entries, that the write-back metadata is empty in the other modes, and that in
    write-through mode the stored values are those of the source backend.
    [cache_inv] is the invariant of the facade.  The lemmas of the second half are the
    preservation rules from which every operation's proof is composed. *)

From stdpp Require Import base tactics numbers option strings sets list.
From S2P Require Import Prelude PyDict PyFloat PyMonad Config Entry Policies PolicyLaws.
From S2P Require Import Storage Jobs Shard ShardInv ShardSpec Cache.
Local Open Scope string_scope.
Local Open Scope list_scope.
Local Open Scope Z_scope.

(** ** One shard *)

(** What is fixed about a shard when the cache is built: its capacity and whether its
    policy keeps new keys. *)
Record shard_shape : Type := mkShape { shp_capacity : Z; shp_keeps : Prop }.

Section side.
Context {K V P : Type} `{EqDecision K} `{PyNone V} `{HP : EvictionPolicy K P} `{!PolicyLaws K P}.
Implicit Types (sh : CacheShard K V P) (key k : K) (value : V).
Implicit Types (st : CacheShard K V P * SlowDictBackend K V).
Context (mode : WriteMode) (R : K → Prop) (idx : Z) (shape : shard_shape) (data : dict K V).

(** No write-back bookkeeping outside write-back mode. *)
Record no_write_back sh : Prop := {
  nw_pending : sh_pending_flushes sh = [];
  nw_tombstones : sh_tombstones sh = [];
  nw_clean k e : dict_get (sh_backend sh) k = Some e → e_dirty e = false;
}.

(** [slack] entries were removed but are not counted yet. *)
Record shard_side (slack : Z) sh : Prop := {
  ss_index : sh_index sh = idx;
  ss_capacity : sh_capacity sh = shp_capacity shape;
  ss_keeps : shp_keeps shape → keeps_new (sh_policy sh);
  ss_dict : dict_wf (sh_backend sh);
  ss_live k : k ∈ dict_keys (sh_backend sh) → R k;
  ss_pending k : k ∈ dict_keys (sh_pending_flushes sh) → R k;
  ss_deletes : 0 ≤ deletes (sh_stats sh);
  ss_evictions : 0 ≤ evictions (sh_stats sh);
  ss_expirations : 0 ≤ expirations (sh_stats sh);
  ss_reads : 0 ≤ hits (sh_stats sh) ∧ 0 ≤ misses (sh_stats sh);
  ss_balance :
    backend_size (sh_backend sh) + slack + deletes (sh_stats sh) + evictions (sh_stats sh)
      + expirations (sh_stats sh) ≤ puts (sh_stats sh);
  ss_mode : mode ≠ WRITE_BACK → no_write_back sh;
  ss_source k e :
    mode = WRITE_THROUGH → dict_get (sh_backend sh) k = Some e → dict_get data k = Some (e_value e);
}.

Record shard_inv sh : Prop := {
  si_wf : shard_wf sh;
  si_side : shard_side 0 sh;
}.

Lemma shard_init_inv (policy : P) :
  1 ≤ shp_capacity shape → policy_wf policy → tracked policy = [] →
  (shp_keeps shape → keeps_new policy) →
  shard_inv (shard_init idx (shp_capacity shape) policy).
Proof.
  intros Hc Hp Ht Hk. split; [by apply shard_init_wf|]. split; simpl; try done.
  - apply dict_wf_empty.
  - set_solver.
  - set_solver.
Qed.

(** A change of the fields the side conditions do not mention. *)
Lemma side_ext slack sh sh' :
  (keeps_new (sh_policy sh) → keeps_new (sh_policy sh')) →
  sh_index sh' = sh_index sh → sh_capacity sh' = sh_capacity sh →
  sh_backend sh' = sh_backend sh → sh_pending_flushes sh' = sh_pending_flushes sh →
  sh_tombstones sh' = sh_tombstones sh → sh_stats sh' = sh_stats sh →
  shard_side slack sh → shard_side slack sh'.
Proof.
  intros Ek Ei Ec Eb Ep Et Es [].
  split; rewrite ?Ei, ?Ec, ?Eb, ?Ep, ?Es; try done; [by auto|].
  intros Hm. destruct (ss_mode0 Hm). by split; rewrite ?Ep, ?Et, ?Eb.
Qed.

Lemma side_hit slack sh : shard_side slack sh → shard_side slack (set_stats inc_hits sh).
Proof. intros []. split; simpl; try done; [lia|]. intros Hm. by destruct (ss_mode0 Hm). Qed.

Lemma side_miss slack sh : shard_side slack sh → shard_side slack (set_stats inc_misses sh).
Proof. intros []. split; simpl; try done; [lia|]. intros Hm. by destruct (ss_mode0 Hm). Qed.

Lemma side_delete slack sh : shard_side (slack + 1) sh → shard_side slack (set_stats inc_deletes sh).
Proof. intros []. split; simpl; try done; [lia..|]. intros Hm. by destruct (ss_mode0 Hm). Qed.

Lemma side_slack slack slack' sh : slack' ≤ slack → shard_side slack sh → shard_side slack' sh.
Proof. intros Hs []. split; try done. lia. Qed.

Lemma side_update slack key f sh :
  (∀ e, e_dirty e = false → e_dirty (f e) = false) → (∀ e, e_value (f e) = e_value e) →
  shard_side slack sh →
  shard_side slack (set_backend (update_entry (sh_backend sh) key f) sh).
Proof.
  intros Hf Hv []. split; simpl; try done.
  - unfold dict_wf. by rewrite update_entry_keys.
  - intros k. rewrite update_entry_keys. apply ss_live0.
  - unfold backend_size. by rewrite update_entry_len.
  - intros Hm. destruct (ss_mode0 Hm) as [Hp Ht Hc]. split; simpl; [done..|]. intros k e.
    rewrite update_entry_get. case_decide; [|by apply Hc].
    intros (e' & He' & ->)%fmap_Some. apply Hf. by eapply Hc.
  - intros k e Hm. rewrite update_entry_get. case_decide; [|by apply ss_source0].
    intros (e' & He' & ->)%fmap_Some. rewrite Hv. by apply ss_source0.
Qed.

(** Removing an entry turns its place into a counted removal, or into slack. *)
Lemma side_remove slack key reason sh :
  shard_side slack sh →
  shard_side (slack + match reason with
                      | RDelete => if dict_mem (sh_backend sh) key then 1 else 0
                      | _ => 0
                      end) (remove_entry_locked key reason sh).1.
Proof.
  intros []. pose proof (remove_entry_stats key reason sh) as Es.
  pose proof (remove_entry_fields key reason sh) as Hf.
  destruct (remove_entry_locked key reason sh) as [sh1 b]. cbn [fst] in *.
  destruct Hf as (_ & Eb & Epol & _ & Et & Ep & _ & Ei & Ec & _).
  pose proof (dict_len_pop (sh_backend sh) key ss_dict0) as Hl.
  split; rewrite ?Ei, ?Ec, ?Eb, ?Ep, ?Es; try done.
  - intros Hk. rewrite Epol. by apply keeps_new_delete, ss_keeps0.
  - by apply dict_wf_pop.
  - intros k [_ Hk]%dict_keys_pop_elem. by apply ss_live0.
  - destruct (dict_mem _ _), reason; simpl; lia.
  - destruct (dict_mem _ _), reason; simpl; lia.
  - destruct (dict_mem _ _), reason; simpl; lia.
  - destruct (dict_mem _ _), reason; simpl; lia.
  - unfold backend_size in *. rewrite Hl. destruct (dict_mem _ _), reason; simpl; lia.
  - intros Hm. destruct (ss_mode0 Hm) as [Hp Ht Hc]. split.
    + by rewrite Ep.
    + rewrite Et, Ht. by destruct (prunable _ _).
    + intros k e. rewrite Eb, dict_get_pop. case_decide; [done|by apply Hc].
  - intros k e Hm. rewrite dict_get_pop. case_decide; [done|by apply ss_source0].
Qed.

Lemma side_evict slack key sh :
  shard_side slack sh → shard_side slack (remove_entry_locked key REvict sh).1.
Proof. intros Hs. eapply side_slack; [|by apply (side_remove slack key REvict)]. lia. Qed.

Lemma side_expire slack key sh :
  shard_side slack sh → shard_side slack (remove_entry_locked key RExpire sh).1.
Proof. intros Hs. eapply side_slack; [|by apply (side_remove slack key RExpire)]. lia. Qed.

Lemma side_enforce slack fuel sh :
  shard_side slack sh → shard_side slack (enforce_capacity_loop fuel sh).
Proof.
  revert sh. induction fuel as [|fuel IH]; intros sh Hs; [done|]. rewrite enforce_loop_S.
  destruct (_ <? _); [|done]. destruct (evict_candidate _) as [c|]; [|done].
  by apply IH, side_evict.
Qed.

(** Changing the pending count of a key, with or without pruning afterwards. *)
Lemma side_prune slack key sh :
  shard_side slack sh → shard_side slack (maybe_prune_marks_locked key sh).
Proof.
  intros Hs. unfold maybe_prune_marks_locked. destruct (0 <? _); [done|].
  destruct (get_entry _ _); [done|]. destruct Hs. split; simpl; try done.
  intros Hm. destruct (ss_mode0 Hm) as [Hp Ht Hc]. split; simpl; [done| |done]. by rewrite Ht.
Qed.

Lemma side_set_pending slack key n sh :
  mode = WRITE_BACK → R key → shard_side slack sh →
  shard_side slack (set_pending (dict_set (sh_pending_flushes sh) key n) sh).
Proof.
  intros Hm HR []. split; simpl; try done.
  intros k [->|Hk]%dict_keys_set_elem; [done|by apply ss_pending0].
Qed.

Lemma side_pop_pending slack key sh :
  shard_side slack sh →
  shard_side slack (set_pending (dict_pop (sh_pending_flushes sh) key) sh).
Proof.
  intros []. split; simpl; try done.
  - intros k [_ Hk]%dict_keys_pop_elem. by apply ss_pending0.
  - intros Hm. destruct (ss_mode0 Hm) as [Hp Ht Hc]. split; simpl; [|done..]. by rewrite Hp.
Qed.

Lemma side_resolve slack key sh :
  shard_side slack sh → shard_side slack (resolve_pending_locked key sh).
Proof.
  intros Hs. apply side_prune.
  destruct (Z.ltb_spec 0 (dict_get_default (sh_pending_flushes sh) key 0 - 1)) as [Hlt|];
    [|by apply side_pop_pending].
  assert (is_Some (dict_get (sh_pending_flushes sh) key)) as Hk.
  { unfold dict_get_default in Hlt. destruct (dict_get _ key); [eauto|lia]. }
  apply side_set_pending; [|by apply (ss_pending _ _ Hs), dict_keys_get|done].
  destruct (decide (mode = WRITE_BACK)) as [|Hm]; [done|].
  rewrite (nw_pending _ (ss_mode _ _ Hs Hm)) in Hk. by destruct Hk.
Qed.

Lemma side_clear_pending slack key sh :
  shard_side slack sh → shard_side slack (clear_pending_flushes_locked key sh).
Proof. intros Hs. by apply side_prune, side_pop_pending. Qed.

(** *** The critical sections *)

Lemma resolve_inv key sh : shard_inv sh → shard_inv (resolve_pending_locked key sh).
Proof. intros [Hw Hs]. split; [by apply resolve_pending_wf|by apply side_resolve]. Qed.

Lemma clear_pending_inv key sh : shard_inv sh → shard_inv (clear_pending_flushes_locked key sh).
Proof. intros [Hw Hs]. split; [by apply clear_pending_wf|by apply side_clear_pending]. Qed.

Lemma register_inv key sh :
  mode = WRITE_BACK → R key → shard_inv sh → shard_inv (register_pending_locked key sh).
Proof. intros Hm HR [Hw Hs]. split; [by apply register_pending_wf|by apply side_set_pending]. Qed.

Lemma set_singleflight_inv d sh : shard_inv sh → shard_inv (set_singleflight d sh).
Proof. intros [Hw Hs]. split; [by apply set_singleflight_wf|by apply (side_ext 0 sh)]. Qed.

Lemma read_value_inv now key t c sh : shard_inv sh → shard_inv (read_value_locked now key t c sh).1.
Proof.
  intros [Hw Hs]. split; [by apply read_value_wf|]. unfold read_value_locked.
  destruct (get_entry _ key) as [e|].
  - destruct (is_expired e now); cbn [fst].
    + destruct c; [apply side_miss|]; by apply side_expire.
    + destruct c; [apply side_hit|]; destruct t; try done;
        (eapply (side_ext 0 (set_backend _ _)); [apply keeps_new_get|done..|]); by apply side_update.
  - destruct c; [by apply side_miss|done].
Qed.

Lemma inspect_inv now key sh : shard_inv sh → shard_inv (inspect_locked now key sh).1.
Proof.
  intros [Hw Hs]. split; [by apply inspect_wf|]. unfold inspect_locked.
  destruct (get_entry _ key) as [e|]; [|done]. destruct (is_expired e now); [by apply side_expire|done].
Qed.

Lemma dump_inv now sh : shard_inv sh → shard_inv (dump_locked now sh).1.
Proof.
  intros [Hw Hs]. split; [by apply dump_entries_wf|]. unfold dump_locked.
  generalize (backend_entries (sh_backend sh)) as entries. clear Hw. intros entries. revert sh Hs.
  induction entries as [|e entries IH]; intros sh Hs; [done|]. cbn [dump_entries].
  destruct (is_expired e now); [by apply IH, side_expire|].
  specialize (IH sh Hs). by destruct (dump_entries now entries sh).
Qed.

Lemma expire_shard_inv now sh : shard_inv sh → shard_inv (expire_shard_locked now sh).1.
Proof.
  intros [Hw Hs]. split; [by apply expire_shard_wf|]. unfold expire_shard_locked.
  generalize (expired_keys (backend_entries (sh_backend sh)) now) as keys. clear Hw.
  generalize 0 at 2 as n. intros n keys. revert sh n Hs.
  induction keys as [|key keys IH]; intros sh n Hs; [done|]. cbn [expire_keys].
  pose proof (side_expire 0 key sh Hs) as Hr.
  destruct (remove_entry_locked key RExpire sh) as [sh1 b]. by apply IH.
Qed.

Lemma restore_inv key n sh : shard_inv sh → shard_inv (restore_locked key n sh).
Proof. intros [Hw Hs]. split; [by apply restore_wf|by apply side_update]. Qed.

Lemma mark_clean_inv job sh : shard_inv sh → shard_inv (mark_clean job sh).
Proof.
  intros [Hw Hs]. split; [by apply mark_clean_wf|]. unfold mark_clean.
  destruct (get_entry _ _); [|done]. destruct (_ =? _); [by apply side_update|done].
Qed.

Lemma flush_check_inv job sh : shard_inv sh → shard_inv (flush_check_locked job sh).1.
Proof.
  intros Hs. unfold flush_check_locked. destruct (is_stale_write_back _ _ _); [by apply resolve_inv|done].
Qed.

Lemma flush_finish_inv job sh : shard_inv sh → shard_inv (flush_finish_locked job sh).
Proof.
  intros Hs. apply resolve_inv. destruct (String.eqb _ _); [by apply mark_clean_inv|done].
Qed.

(** A flush job made under this shard's lock. *)
Record job_here (job : FlushWriteBack K V) : Prop := {
  jh_mode : mode = WRITE_BACK;
  jh_index : f_shard_index job = idx;
  jh_key : R (f_key job);
  jh_operation : f_operation job = "put" ∨ f_operation job = "delete";
}.

Lemma put_job_here n key value v sh slack :
  mode = WRITE_BACK → R key → shard_side slack sh → job_here (put_job n key value v sh).
Proof. intros Hm HR Hs. split; simpl; try done; [by apply (ss_index _ _ Hs)|by left]. Qed.

Lemma delete_job_here n key v sh slack :
  mode = WRITE_BACK → R key → shard_side slack sh → job_here (delete_job n key v sh).
Proof. intros Hm HR Hs. split; simpl; try done; [by apply (ss_index _ _ Hs)|by right]. Qed.

Lemma side_mark_deleted slack n key sh :
  mode = WRITE_BACK → R key → shard_side slack sh → shard_side slack (mark_deleted n key sh).1.
Proof.
  intros Hm HR []. split; simpl; try done.
  intros k [->|Hk]%dict_keys_set_elem; [done|by apply ss_pending0].
Qed.

Lemma flush_jobs_here n sh :
  mode = WRITE_BACK → shard_inv sh →
  Forall job_here (dirty_put_jobs n sh ++ tombstone_jobs n sh).
Proof.
  intros Hm [Hw Hs]. apply Forall_app. split; apply Forall_forall; intros job.
  - intros (e & -> & [_ He]%list_elem_of_filter)%list_elem_of_fmap.
    eapply put_job_here; [done| |done]. apply (ss_live _ _ Hs).
    destruct (sc_backend _ (sw_core _ Hw)) as [Hd Hk].
    apply dict_values_elem in He as [k He]; [|done]. rewrite (Hk _ _ He). apply dict_keys_get. eauto.
  - intros ([k v] & -> & Hin)%list_elem_of_fmap. eapply delete_job_here; [done| |done]. simpl.
    apply (ss_pending _ _ Hs), dict_keys_get.
    assert (k ∈ dict_keys (sh_tombstones sh)) as [v' Ht]%dict_keys_get
      by by apply (list_elem_of_fmap_2 fst) in Hin.
    by destruct (ko_tomb _ _ _ _ (sc_keys _ (sw_core _ Hw) k) v' Ht) as (_ & _ & ?).
Qed.

Lemma collect_inv n sh :
  mode = WRITE_BACK → shard_inv sh →
  shard_inv (collect_flush_jobs n sh).1 ∧ Forall job_here (collect_flush_jobs n sh).2.
Proof.
  intros Hm Hi. pose proof (flush_jobs_here n sh Hm Hi) as Hj. split; [|done]. unfold collect_flush_jobs.
  cbn [fst]. revert Hj. generalize (dirty_put_jobs n sh ++ tombstone_jobs n sh) as jobs.
  intros jobs Hj. revert sh Hi. induction Hj as [|job jobs Hjob _ IH]; intros sh Hi; [done|]. cbn [foldl].
  apply IH, register_inv; [done|apply Hjob|done].
Qed.
End side.

(** *** The critical sections that write to the source *)

Section source.
Context {K V P : Type} `{EqDecision K} `{PyNone V} `{HP : EvictionPolicy K P} `{!PolicyLaws K P}.
Implicit Types (sh : CacheShard K V P) (key k : K) (value : V).
Implicit Types (st : CacheShard K V P * SlowDictBackend K V).
Context (mode : WriteMode) (R : K → Prop) (idx : Z) (shape : shard_shape).

Local Abbreviation side := (shard_side mode R idx shape).

Definition pair_inv st : Prop := shard_inv mode R idx shape (sd_data st.2) st.1.

(** [data'] differs from [data] at most at keys of the shard. *)
Definition data_frame (data data' : dict K V) : Prop :=
  ∀ k, ¬ R k → dict_get data' k = dict_get data k.

Lemma side_change_data data data' slack sh :
  (∀ k, mode = WRITE_THROUGH → k ∈ dict_keys (sh_backend sh) → dict_get data' k = dict_get data k) →
  side data slack sh → side data' slack sh.
Proof.
  intros Hd []. split; try done. intros k e Hm He. rewrite Hd; [by apply ss_source0|done|].
  apply dict_keys_get. eauto.
Qed.

Lemma side_put_insert data data' slack dttl now key value ttl ex sh :
  R key →
  (mode = WRITE_THROUGH →
     dict_get data' key = Some value ∧ ∀ k, k ≠ key → dict_get data' k = dict_get data k) →
  side data slack sh →
  side data' slack (put_insert mode dttl now key value ttl ex sh).
Proof.
  intros HR Hd []. pose proof (put_insert_size mode dttl now key value ttl ex sh) as Hsz.
  split; try done.
  - intros Hk. by apply keeps_new_put, ss_keeps0.
  - simpl. unfold put_entry. by apply dict_wf_set.
  - simpl. unfold put_entry. rewrite new_entry_key.
    intros k [->|Hk]%dict_keys_set_elem; [done|by apply ss_live0].
  - rewrite Hsz. simpl. destruct (dict_mem _ _); lia.
  - intros Hm. destruct (ss_mode0 Hm) as [Hp Ht Hc]. split; [done|simpl; by rewrite Ht|].
    intros k e. rewrite put_insert_get. case_decide; [|by apply Hc]. intros [= <-].
    rewrite new_entry_dirty. by apply bool_decide_eq_false.
  - intros k e Hm. destruct (Hd Hm) as [Hk Hne]. rewrite put_insert_get. case_decide; [subst k|].
    + intros [= <-]. by rewrite new_entry_value.
    + rewrite Hne by congruence. by apply ss_source0.
Qed.

(** The writes to the source. *)
Lemma put_value_cases key value (src : SlowDictBackend K V) :
  let '(src', r) := put_value key value src in
  (∃ e, r = Raise e ∧ sd_data src' = sd_data src) ∨
  (r = Ok tt ∧ sd_data src' = dict_set (sd_data src) key value).
Proof.
  clear mode R idx shape. pose proof (source_write_spec (λ d, dict_set d key value) src : let '(_, _) := put_value key value src in _)
    as Hw. destruct (put_value key value src) as [src' r]. naive_solver.
Qed.

Lemma delete_value_cases key (src : SlowDictBackend K V) :
  let '(src', r) := delete_value key src in
  (∃ e, r = Raise e ∧ sd_data src' = sd_data src) ∨
  (r = Ok tt ∧ sd_data src' = dict_pop (sd_data src) key).
Proof.
  clear mode R idx shape. pose proof (source_write_spec (λ d, dict_pop d key) src : let '(_, _) := delete_value key src in _)
    as Hw. destruct (delete_value key src) as [src' r]. naive_solver.
Qed.

Definition put_source (key : K) (value : V) : M (SlowDictBackend K V) unit :=
  match mode with WRITE_THROUGH => put_value key value | _ => mret tt end.
Definition delete_source (key : K) : M (SlowDictBackend K V) unit :=
  match mode with WRITE_THROUGH => delete_value key | _ => mret tt end.

Lemma put_source_cases key value src :
  let '(src', r) := put_source key value src in
  (∃ e, r = Raise e ∧ sd_data src' = sd_data src) ∨
  (r = Ok tt ∧ (∀ k, k ≠ key → dict_get (sd_data src') k = dict_get (sd_data src) k) ∧
   (mode = WRITE_THROUGH → dict_get (sd_data src') key = Some value)).
Proof.
  unfold put_source. destruct mode; [right; naive_solver| |right; naive_solver].
  pose proof (put_value_cases key value src) as Hc. destruct (put_value key value src) as [src' r].
  destruct Hc as [?|[-> Hd]]; [by left|right]. rewrite Hd. split_conj; [done| |].
  - intros k Hk. by apply dict_get_set_ne.
  - intros _. apply dict_get_set_eq.
Qed.

Lemma delete_source_cases key src :
  let '(src', r) := delete_source key src in
  (∃ e, r = Raise e ∧ sd_data src' = sd_data src) ∨
  (r = Ok tt ∧ ∀ k, k ≠ key → dict_get (sd_data src') k = dict_get (sd_data src) k).
Proof.
  unfold delete_source. destruct mode; [right; naive_solver| |right; naive_solver].
  pose proof (delete_value_cases key src) as Hc. destruct (delete_value key src) as [src' r].
  destruct Hc as [?|[-> Hd]]; [by left|right]. rewrite Hd. split; [done|].
  intros k Hk. by apply dict_get_pop_ne.
Qed.

Lemma data_frame_key data data' key :
  R key → (∀ k, k ≠ key → dict_get data' k = dict_get data k) → data_frame data data'.
Proof. intros HR Hd k Hk. apply Hd. by intros ->. Qed.

Lemma put_locked_inv dttl n now key value ttl st :
  R key → pair_inv st →
  let '(st', r) := put_locked mode dttl n now key value ttl st in
  pair_inv st' ∧ data_frame (sd_data st.2) (sd_data st'.2) ∧
  match r with Ok (Some job) => job_here mode R idx job | _ => True end.
Proof.
  intros HR [Hw Hs]. pose proof (put_locked_wf mode dttl n now key value ttl st Hw) as Hw'.
  destruct st as [sh src]. cbn [fst snd] in *. unfold put_locked, pair_inv in *.
  assert (side (sd_data src) 0 (put_expire now key sh).1) as He.
  { unfold put_expire. destruct (get_entry _ _) as [e|]; [|done].
    destruct (is_expired e now); [by apply side_expire|done]. }
  destruct (put_expire now key sh) as [sh1 ex]. cbn [fst] in He.
  pose proof (put_source_cases key value src) as Hc.
  replace (match mode with WRITE_THROUGH => put_value key value src | _ => (src, Ok tt) end)
    with (put_source key value src) in * by (unfold put_source; by destruct mode).
  destruct (put_source key value src) as [src' r].
  destruct Hc as [(e & -> & Hd)|(-> & Hne & Hk)].
  { cbn [fst snd] in *. rewrite Hd. split_conj; [by split|done|done]. }
  rewrite put_store_eq in *.
  assert (side (sd_data src') 0
    (enforce_capacity_locked (put_insert mode dttl now key value ttl ex sh1))) as Hs2.
  { apply side_enforce. by apply (side_put_insert (sd_data src)); [| |exact He]; auto. }
  set (sh2 := enforce_capacity_locked _) in *.
  assert (data_frame (sd_data src) (sd_data src')) as Hf by by eapply data_frame_key.
  destruct mode eqn:Em; cbn [fst snd] in *; (split; [split; [done|]|]); try done.
  - by apply side_set_pending.
  - split; [done|]. by eapply put_job_here.
Qed.

Lemma delete_key_locked_inv n key st :
  R key → pair_inv st →
  let '(st', r) := delete_key_locked mode n key st in
  pair_inv st' ∧ data_frame (sd_data st.2) (sd_data st'.2) ∧
  match r with Ok (_, Some job) => job_here mode R idx job | _ => True end.
Proof.
  intros HR [Hw Hs]. pose proof (delete_key_locked_wf mode n key st Hw) as Hw'.
  destruct st as [sh src]. cbn [fst snd] in *. unfold delete_key_locked, pair_inv in *.
  pose proof (delete_source_cases key src) as Hc.
  replace (match mode with WRITE_THROUGH => delete_value key src | _ => (src, Ok tt) end)
    with (delete_source key src) in * by (unfold delete_source; by destruct mode).
  destruct (delete_source key src) as [src' r].
  destruct Hc as [(e & -> & Hd)|(-> & Hne)].
  { cbn [fst snd] in *. rewrite Hd. split_conj; [by split|done|done]. }
  assert (data_frame (sd_data src) (sd_data src')) as Hf by by eapply data_frame_key.
  set (q := match mode with WRITE_BACK => _ | _ => _ end) in *.
  assert (side (sd_data src) 0 q.1 ∧
    match q.2 with Some job => job_here mode R idx job | _ => True end) as [Hq Hj].
  { subst q. destruct mode eqn:Em; try done. split; [by apply (side_mark_deleted _ _ _ _ _ 0 n)|].
    by apply (delete_job_here _ _ _ shape (sd_data src) n key (dict_get_default (sh_version_marks sh) key 0 + 1) sh 0). }
  destruct q as [sh1 job]. cbn [fst snd] in *.
  pose proof (side_remove _ _ _ _ _ 0 key RDelete sh1 Hq) as Hr.
  pose proof (remove_entry_fields key RDelete sh1) as Hfd.
  destruct (remove_entry_locked key RDelete sh1) as [sh2 existed]. cbn [fst] in *.
  destruct Hfd as (-> & Eb & _).
  split; [split; [by apply Hw'|]|by split]. cbn [fst snd].
  apply (side_change_data (sd_data src)).
  { intros k Hm Hk. apply Hne. intros ->.
    destruct (dict_mem (sh_backend sh1) key); cbn [set_stats sh_backend] in Hk; rewrite Eb in Hk;
      by apply dict_keys_pop_elem in Hk as [? _]. }
  destruct (dict_mem _ _); [by apply side_delete|]. done.
Qed.

Lemma delete_locked_inv n key st :
  R key → pair_inv st →
  let '(st', r) := delete_locked mode n key st in
  pair_inv st' ∧ data_frame (sd_data st.2) (sd_data st'.2) ∧
  match r with Ok (_, Some job) => job_here mode R idx job | _ => True end.
Proof.
  intros HR Hi. pose proof (delete_key_locked_inv n key st HR Hi) as Hd.
  unfold delete_locked, mbind, M_bind. destruct (delete_key_locked mode n key st) as [[sh src] [r|e]];
    [|done]. destruct Hd as (Hp & Hf & Hj). split; [by apply set_singleflight_inv|done].
Qed.

Lemma clear_keys_inv n keys st :
  (∀ k, k ∈ keys → R k) → pair_inv st →
  let '(st', r) := clear_keys_locked mode n keys st in
  pair_inv st' ∧ data_frame (sd_data st.2) (sd_data st'.2) ∧
  match r with Ok jobs => Forall (job_here mode R idx) jobs | _ => True end.
Proof.
  revert st. induction keys as [|key keys IH]; intros st HR Hi.
  { split; [done|split; [by intros k|by constructor]]. }
  cbn [clear_keys_locked]. unfold mbind, M_bind.
  assert (R key) as HRk by (apply HR; set_solver).
  pose proof (delete_key_locked_inv n key st HRk Hi) as Hd.
  destruct (delete_key_locked mode n key st) as [st1 [[b job]|e]]; [|done].
  destruct Hd as (Hp & Hf & Hj).
  specialize (IH st1 (λ k Hk, HR k (list_elem_of_further _ _ _ Hk)) Hp).
  destruct (clear_keys_locked mode n keys st1) as [st2 [jobs|e]]; destruct IH as (Hp2 & Hf2 & Hj2).
  - split; [done|split; [intros k Hk; by rewrite Hf2, Hf|]]. apply Forall_app. split; [|done].
    destruct job; simpl; auto.
  - split; [done|split; [intros k Hk; by rewrite Hf2, Hf|done]].
Qed.

Lemma clear_locked_inv n st :
  pair_inv st →
  let '(st', r) := clear_locked mode n st in
  pair_inv st' ∧ data_frame (sd_data st.2) (sd_data st'.2) ∧
  match r with Ok jobs => Forall (job_here mode R idx) jobs | _ => True end.
Proof.
  intros Hi. pose proof (clear_locked_wf mode n st (si_wf _ _ _ _ _ _ Hi)) as Hw.
  unfold clear_locked, mbind, M_bind, get_state in *. destruct st as [sh src]. cbn [fst snd] in *.
  pose proof (clear_keys_inv n (backend_keys (sh_backend sh)) (sh, src)
    (ss_live _ _ _ _ _ _ _ (si_side _ _ _ _ _ _ Hi)) Hi) as Hk.
  destruct (clear_keys_locked _ _ _ _) as [[sh1 src1] [jobs|e]]; [|done].
  destruct Hk as (Hp & Hf & Hj).
  split; [|done]. split; [by apply Hw|].
  apply (side_ext _ _ _ _ _ 0 sh1); try done; [apply keeps_new_clear|]. apply (si_side _ _ _ _ _ _ Hp).
Qed.
End source.
