(* ===== verification/CacheSafety.v ===== *)
(** Every operation keeps the cache consistent.

    [cache_inv] is the invariant of the facade: a valid configuration, one consistent shard
    per index that holds only keys routed to it, a well-formed job queue whose jobs refer to
    existing shards.  [cache_step] is one call of the API or one action of the environment
    (a worker taking a job, the clock, an injected failure of the source), and [reachable]
    what any sequence of them leads to. *)

From stdpp Require Import base tactics numbers option strings sets list relations.
From S2P Require Import Prelude PyDict PyFloat PyMonad Config Entry Policies PolicyLaws.
From S2P Require Import Storage Jobs Shard ShardInv ShardSpec Cache CacheInv.
Local Open Scope string_scope.
Local Open Scope list_scope.
Local Open Scope Z_scope.

Create HintDb keepsdb.

Section safety.
Context {K V P : Type} `{EqDecision K} `{KeyHash K} `{PyNone V}
  `{HP : EvictionPolicy K P} `{!PolicyLaws K P}.
Implicit Types (c : Cache K V P) (sh : CacheShard K V P) (key k : K) (value : V).
Context (cfg : CacheConfig) (mode : WriteMode).

(** The keys routed to shard [i], its capacity, and the promise of its policy. *)
Definition routed (i : nat) (k : K) : Prop := key_hash k mod cfg_shard_count cfg = Z.of_nat i.
Definition shape_at (i : nat) : shard_shape := {|
  shp_capacity := default 0 (shard_capacities (cfg_capacity cfg) (cfg_shard_count cfg) !! i);
  shp_keeps := str_lower (cfg_policy cfg) ≠ "lfu";
|}.

Definition flush_ok (job : FlushWriteBack K V) : Prop :=
  ∃ i, (i < Z.to_nat (cfg_shard_count cfg))%nat ∧ job_here mode (routed i) (Z.of_nat i) job.
Definition job_ok (job : Job K V) : Prop :=
  match job with
  | ExpireShard i => 0 ≤ i < cfg_shard_count cfg
  | FlushJob job => flush_ok job
  | _ => True
  end.

Definition shard_ok (i : nat) (data : dict K V) sh : Prop :=
  shard_inv mode (routed i) (Z.of_nat i) (shape_at i) data sh.

(** [busy] tasks have been taken from the queue and are not done. *)
Record cache_inv (busy : Z) c : Prop := {
  ci_config : c_config c = cfg;
  ci_mode : c_write_mode c = mode;
  ci_valid : config_valid cfg;
  ci_length : length (c_shards c) = Z.to_nat (cfg_shard_count cfg);
  ci_shards i sh : c_shards c !! i = Some sh → shard_ok i (sd_data (c_source c)) sh;
  ci_queue : queue_wf (c_queue c);
  ci_busy : queue_depth (c_queue c) + busy ≤ q_unfinished (c_queue c);
  ci_jobs : Forall job_ok (q_items (c_queue c));
}.

Lemma inv_less_busy b b' c : b' ≤ b → cache_inv b c → cache_inv b' c.
Proof. intros Hb []. split; try done. lia. Qed.

Section ops.
Context (busy : Z).
Local Abbreviation inv := (cache_inv busy).

(** *** Rules *)

(** A change of parts the invariant does not mention. *)
Lemma inv_ext c c' :
  c_config c' = c_config c → c_write_mode c' = c_write_mode c → c_source c' = c_source c →
  c_shards c' = c_shards c → c_queue c' = c_queue c → inv c → inv c'.
Proof.
  intros E1 E2 E3 E4 E5 []. split; rewrite ?E1, ?E2, ?E4, ?E5; try done.
  intros i sh. rewrite E3. apply ci_shards0.
Qed.

Lemma returns_lock_src {A} i (m : M (CacheShard K V P * SlowDictBackend K V) A) (Q : A → Prop) :
  (∀ j st, j = shard_slot (Z.to_nat (cfg_shard_count cfg)) i →
     pair_inv mode (routed j) (Z.of_nat j) (shape_at j) st →
     let '(st', r) := m st in
     pair_inv mode (routed j) (Z.of_nat j) (shape_at j) st' ∧
     data_frame (routed j) (sd_data st.2) (sd_data st'.2) ∧
     match r with Ok a => Q a | Raise _ => True end) →
  returns inv (with_lock_src i m) Q.
Proof.
  intros Hm c Hc. unfold with_lock_src. rewrite (ci_length _ _ Hc).
  set (j := shard_slot _ _). destruct (c_shards c !! j) as [sh|] eqn:E; [|done].
  pose proof (Hm j (sh, c_source c) eq_refl (ci_shards _ _ Hc j sh E)) as Hst.
  destruct (m (sh, c_source c)) as [[sh' src'] r]. cbn [fst snd] in Hst.
  destruct Hst as (Hi & Hf & HQ). split; [|by destruct r]. destruct Hc. cbn [fst].
  split; simpl; try done; [by rewrite length_insert|].
  intros i' x. destruct (decide (i' = j)) as [->|Hne].
  - rewrite list_lookup_insert_eq by (by eapply lookup_lt_Some). by intros [= <-].
  - rewrite list_lookup_insert_ne by done. intros Hx. specialize (ci_shards0 _ _ Hx) as [Hw Hs].
    split; [done|]. eapply side_change_data; [|exact Hs].
    intros k _ Hk. apply Hf. intros HR. apply (ss_live _ _ _ _ _ _ _ Hs) in Hk.
    unfold routed in *. lia.
Qed.

Lemma returns_lock {A} i (f : CacheShard K V P → CacheShard K V P * A) (Q : A → Prop) :
  (∀ j data sh, j = shard_slot (Z.to_nat (cfg_shard_count cfg)) i →
     shard_ok j data sh → shard_ok j data (f sh).1 ∧ Q (f sh).2) →
  returns inv (with_lock i f) Q.
Proof.
  intros Hf. apply returns_lock_src. intros j [sh src] Hj Hi.
  specialize (Hf j _ sh Hj Hi). destruct (f sh) as [sh' a]. by destruct Hf.
Qed.

Lemma keeps_lock {A} i (f : CacheShard K V P → CacheShard K V P * A) :
  (∀ j data sh, shard_ok j data sh → shard_ok j data (f sh).1) → keeps inv (with_lock i f).
Proof.
  intros Hf. apply (returns_keeps _ _ (λ _, True)), returns_lock. intros. split; [by apply Hf|done].
Qed.

Lemma keeps_field (f : Cache K V P → Cache K V P) :
  (∀ c, c_config (f c) = c_config c ∧ c_write_mode (f c) = c_write_mode c ∧
        c_source (f c) = c_source c ∧ c_shards (f c) = c_shards c ∧ c_queue (f c) = c_queue c) →
  keeps inv (modify f).
Proof. intros Hf c Hc. destruct (Hf c) as (?&?&?&?&?). by apply (inv_ext c). Qed.

Lemma inv_set_queue q c :
  queue_wf q → queue_depth q + busy ≤ q_unfinished q → Forall job_ok (q_items q) →
  inv c → inv (set_queue q c).
Proof. intros Hw Hb Hj []. by split. Qed.

Lemma inv_queue_put job critical c :
  job_ok job → inv c → inv (set_queue (queue_put job critical (c_queue c)).1 c).
Proof.
  intros Hj Hc. pose proof (queue_put_wf _ job critical (ci_queue _ _ Hc)) as Hw.
  destruct Hc. destruct (queue_put_cases job critical (c_queue c)) as [[_ E]|[_ E]];
    rewrite E in *; cbn [fst] in *; split; try done; simpl in *.
  - unfold queue_depth in *. simpl. rewrite length_app. simpl. lia.
  - apply Forall_app. auto.
Qed.

Lemma keeps_source_wb {A} (m : M (SlowDictBackend K V) A) :
  mode = WRITE_BACK → keeps inv (with_source m).
Proof.
  intros Hm c []. unfold with_source. destruct (m (c_source c)) as [src r]. split; try done.
  intros i sh E. destruct (ci_shards0 i sh E) as [Hw Hs]. split; [done|].
  eapply side_change_data; [|exact Hs]. intros k Hmt. congruence.
Qed.

(** *** Parts shared by the operations *)

Lemma keeps_inc_runtime f : keeps inv (inc_runtime f).
Proof. by apply keeps_field. Qed.

Lemma keeps_sleep t : keeps inv (sleep t).
Proof. by apply keeps_field. Qed.

Lemma keeps_now : keeps inv now.
Proof. by intros c Hc. Qed.

Lemma keeps_require_not_closed : keeps inv require_not_closed.
Proof.
  apply keeps_bind; [apply keeps_get|]. intros c. destruct (c_state c); apply keeps_ret || apply keeps_raise.
Qed.

Lemma keeps_require_workers : keeps inv require_workers.
Proof.
  apply keeps_bind; [apply keeps_get|]. intros c. apply keeps_if; [apply keeps_raise|apply keeps_ret].
Qed.

Lemma keeps_set_warned b : keeps inv (modify (set_warned b)).
Proof. by apply keeps_field. Qed.

Lemma keeps_maybe_warn : keeps inv maybe_warn_cache_not_started.
Proof.
  apply keeps_bind; [apply keeps_get|]. intros c.
  repeat apply keeps_if; try apply keeps_ret; apply keeps_set_warned.
Qed.

Lemma keeps_validate_ttl ttl : keeps inv (validate_explicit_ttl ttl).
Proof.
  destruct ttl; try apply keeps_ret. apply keeps_if; [apply keeps_raise|apply keeps_ret].
Qed.

Lemma keeps_enqueue_job job critical : job_ok job → keeps inv (enqueue_job job critical).
Proof.
  intros Hj. apply keeps_bind.
  - intros c Hc. pose proof (inv_queue_put job critical c Hj Hc) as Hi.
    by destruct (queue_put job critical (c_queue c)).
  - intros ok. repeat apply keeps_if; (apply keeps_ret || apply keeps_raise).
Qed.

#[local] Hint Resolve keeps_inc_runtime keeps_sleep keeps_now keeps_require_not_closed
  keeps_require_workers keeps_maybe_warn keeps_validate_ttl keeps_enqueue_job keeps_set_warned
  keeps_ret keeps_raise keeps_get keeps_attempt keeps_lift : keepsdb.
#[local] Hint Extern 1 (job_ok _) => exact I : keepsdb.
Ltac keeps_tac :=
  repeat first
    [ progress (eauto 3 with keepsdb; try done)
    | apply keeps_bind; [|intros ?]
    | apply keeps_if
    | match goal with |- keeps _ (match ?x with _ => _ end) => destruct x end ].

Lemma shard_ok_slot c key :
  inv c → routed (shard_slot (Z.to_nat (cfg_shard_count cfg)) (shard_for c key)) key.
Proof.
  intros Hc. unfold routed, shard_slot, shard_for. rewrite (ci_length _ _ Hc).
  pose proof (cv_shards _ (ci_valid _ _ Hc)) as Hn. rewrite !Z2Nat.id by lia.
  pose proof (Z.mod_pos_bound (key_hash key) _ Hn). rewrite (proj2 (Z.leb_le 0 _)) by lia.
  rewrite Z2Nat.id; lia.
Qed.

Lemma shard_ok_slot_lt c key :
  inv c → (shard_slot (Z.to_nat (cfg_shard_count cfg)) (shard_for c key)
           < Z.to_nat (cfg_shard_count cfg))%nat.
Proof.
  intros Hc. unfold shard_slot, shard_for. rewrite (ci_length _ _ Hc).
  pose proof (cv_shards _ (ci_valid _ _ Hc)) as Hn. rewrite !Z2Nat.id by lia.
  pose proof (Z.mod_pos_bound (key_hash key) _ Hn). rewrite (proj2 (Z.leb_le 0 _)) by lia. lia.
Qed.

Lemma keeps_release_pending jobs : keeps inv (release_pending jobs).
Proof.
  apply keeps_for_each. intros job _. apply keeps_lock. intros j data sh. apply resolve_inv.
Qed.
#[local] Hint Resolve keeps_release_pending : keepsdb.

Lemma keeps_enqueue_flush jobs : Forall flush_ok jobs → keeps inv (enqueue_flush_jobs jobs).
Proof.
  induction 1 as [|job jobs Hj Hjs IH]; simpl; [apply keeps_ret|].
  apply keeps_bind; [by apply keeps_attempt, keeps_enqueue_job|]. intros [ok|e]; [done|].
  destruct e; keeps_tac.
Qed.

Lemma flush_ok_here i job :
  (i < Z.to_nat (cfg_shard_count cfg))%nat → job_here mode (routed i) (Z.of_nat i) job → flush_ok job.
Proof. intros Hi Hj. by exists i. Qed.

(** *** The operations *)

Lemma keeps_get_op key dflt : keeps inv (cache_get key dflt).
Proof.
  keeps_tac. apply keeps_lock. intros j data sh. apply read_value_inv.
Qed.

Lemma keeps_contains key : keeps inv (cache_contains key).
Proof. keeps_tac. apply keeps_lock. intros j data sh. apply read_value_inv. Qed.

Lemma returns_put_locked c t key value ttl :
  inv c →
  returns inv (with_lock_src (shard_for c key)
    (put_locked (c_write_mode c) (cfg_default_ttl (c_config c))
       (cfg_write_back_retry_count (c_config c)) t key value ttl))
    (λ job, match job with Some job => flush_ok job | None => True end).
Proof.
  intros Hc. apply returns_lock_src. intros j st -> Hi. rewrite (ci_mode _ _ Hc), (ci_config _ _ Hc).
  pose proof (put_locked_inv mode _ _ _ (cfg_default_ttl cfg) (cfg_write_back_retry_count cfg) t
    key value ttl st (shard_ok_slot c key Hc) Hi) as Hp.
  destruct (put_locked _ _ _ _ _ _ _ st) as [st' [[job|]|e]]; destruct Hp as (? & ? & Hj);
    split_conj; try done.
  eapply flush_ok_here; [by apply shard_ok_slot_lt|done].
Qed.

Lemma keeps_put key value ttl : keeps inv (cache_put key value ttl).
Proof.
  unfold cache_put. do 3 (apply keeps_bind; [keeps_tac|intros _]).
  apply (keeps_bind_returns _ _ _ inv); [apply returns_get|]. intros c Hc.
  apply keeps_bind; [keeps_tac|]. intros t.
  eapply keeps_bind_returns; [by apply returns_put_locked|].
  intros [job|] Hj; [|keeps_tac]. apply keeps_enqueue_flush. auto.
Qed.

Lemma returns_delete_locked c key :
  inv c →
  returns inv (with_lock_src (shard_for c key)
    (delete_locked (c_write_mode c) (cfg_write_back_retry_count (c_config c)) key))
    (λ r, match r.2 with Some job => flush_ok job | None => True end).
Proof.
  intros Hc. apply returns_lock_src. intros j st -> Hi. rewrite (ci_mode _ _ Hc), (ci_config _ _ Hc).
  pose proof (delete_locked_inv mode _ _ _ (cfg_write_back_retry_count cfg) key st
    (shard_ok_slot c key Hc) Hi) as Hp.
  destruct (delete_locked _ _ _ st) as [st' [[b [job|]]|e]]; destruct Hp as (? & ? & Hj);
    split_conj; try done.
  eapply flush_ok_here; [by apply shard_ok_slot_lt|done].
Qed.

Lemma keeps_delete key : keeps inv (cache_delete key).
Proof.
  unfold cache_delete. apply keeps_bind; [keeps_tac|]. intros _.
  apply (keeps_bind_returns _ _ _ inv); [apply returns_get|]. intros c Hc.
  eapply keeps_bind_returns; [by apply returns_delete_locked|].
  intros [existed job] Hj. apply keeps_bind; [|keeps_tac].
  destruct job; [|keeps_tac]. apply keeps_enqueue_flush. auto.
Qed.

(** Every index the loops over the shards use. *)
Lemma shard_indices_ok c i :
  inv c → i ∈ shard_indices c →
  0 ≤ i < cfg_shard_count cfg ∧ (shard_slot (Z.to_nat (cfg_shard_count cfg)) i) = Z.to_nat i.
Proof.
  intros Hc. unfold shard_indices. rewrite (ci_length _ _ Hc).
  pose proof (cv_shards _ (ci_valid _ _ Hc)) as Hn. rewrite Z2Nat.id by lia.
  rewrite elem_of_py_range. intros Hi. split; [done|]. unfold shard_slot.
  by rewrite (proj2 (Z.leb_le 0 _)) by lia.
Qed.

Lemma returns_lock_clear c i :
  inv c →
  keeps inv (with_lock_src i
    (clear_locked (c_write_mode c) (cfg_write_back_retry_count (c_config c)))).
Proof.
  intros Hc. apply (returns_keeps _ _ (λ _, True)), returns_lock_src. intros j st _ Hst.
  rewrite (ci_mode _ _ Hc), (ci_config _ _ Hc).
  pose proof (clear_locked_inv mode _ _ _ (cfg_write_back_retry_count cfg) st Hst) as Hp.
  destruct (clear_locked _ _ st) as [st' r]. destruct Hp as (? & ? & _). by destruct r.
Qed.

Lemma returns_clear_shards indices :
  (∀ i, i ∈ indices → 0 ≤ i < cfg_shard_count cfg) →
  returns inv (clear_shards indices) (Forall flush_ok).
Proof.
  induction indices as [|i indices IH]; intros Hi; cbn [clear_shards]; [by apply returns_ret|].
  eapply returns_bind; [apply returns_get|]. intros c Hc.
  eapply (returns_bind _ _ _ (Forall flush_ok)).
  - apply returns_lock_src. intros j st -> Hst. rewrite (ci_mode _ _ Hc), (ci_config _ _ Hc).
    pose proof (clear_locked_inv mode _ _ _ (cfg_write_back_retry_count cfg) st Hst) as Hp.
    destruct (clear_locked _ _ st) as [st' [jobs|e]]; destruct Hp as (? & ? & Hj);
      split_conj; try done.
    eapply Forall_impl; [exact Hj|]. intros job. apply flush_ok_here.
    specialize (Hi i ltac:(set_solver)). unfold shard_slot. case_tests; lia.
  - intros jobs Hj. eapply returns_bind; [apply IH; set_solver|]. intros jobs' Hj'.
    apply returns_ret, Forall_app. auto.
Qed.

Lemma keeps_clear : keeps inv cache_clear.
Proof.
  unfold cache_clear. apply keeps_bind; [keeps_tac|]. intros _.
  apply (keeps_bind_returns _ _ _ inv); [apply returns_get|]. intros c Hc.
  eapply keeps_bind_returns.
  - apply returns_clear_shards. intros i Hi. by apply (shard_indices_ok c).
  - intros jobs Hj. by apply keeps_enqueue_flush.
Qed.

Lemma keeps_restore key n : keeps inv (restore_entry_metadata key n).
Proof. keeps_tac. apply keeps_lock. intros j data sh. apply restore_inv. Qed.

Lemma keeps_size : keeps inv cache_size.
Proof. keeps_tac. Qed.

Lemma keeps_inspect key : keeps inv (cache_inspect key).
Proof. keeps_tac. apply keeps_lock. intros j data sh. apply inspect_inv. Qed.

Lemma keeps_dump_shards indices : keeps inv (dump_shards indices).
Proof.
  induction indices as [|i indices IH]; simpl; keeps_tac. apply keeps_lock.
  intros j data sh. apply dump_inv.
Qed.

Lemma keeps_dump limit : keeps inv (cache_dump limit).
Proof. keeps_tac. apply keeps_dump_shards. Qed.

Lemma keeps_expire_shard i : keeps inv (expire_shard i).
Proof. keeps_tac. apply keeps_lock. intros j data sh. apply expire_shard_inv. Qed.

Lemma keeps_expire_shards indices : keeps inv (expire_shards indices).
Proof.
  pose proof keeps_expire_shard as He.
  induction indices as [|i indices IH]; cbn [expire_shards]; keeps_tac.
Qed.

Lemma keeps_expire_all : keeps inv expire_all.
Proof. pose proof keeps_expire_shards. unfold expire_all. keeps_tac. Qed.

Lemma keeps_preload key loader ttl : keeps inv (cache_preload key loader ttl).
Proof. unfold cache_preload. destruct ttl; keeps_tac. Qed.

Lemma keeps_request_snapshot id : keeps inv (request_snapshot id).
Proof. unfold request_snapshot. keeps_tac. Qed.

Lemma inv_ticks c q l :
  (∀ i, i ∈ l → 0 ≤ i < cfg_shard_count cfg) → inv (set_queue q c) →
  inv (set_queue (foldl (λ q i, (queue_put (ExpireShard i) false q).1) q l) c).
Proof.
  revert q. induction l as [|i l IH]; intros q Hi Hq; simpl; [done|].
  apply IH; [set_solver|]. apply (inv_queue_put (ExpireShard i) false _) in Hq; [done|].
  apply Hi. set_solver.
Qed.

Lemma inv_tick c :
  inv c → inv (set_queue (tick_once (Z.of_nat (length (c_shards c))) (c_queue c)) c).
Proof.
  intros Hc. apply inv_ticks; [|by apply (inv_ext c)].
  intros i Hi. by apply (shard_indices_ok c).
Qed.

Lemma keeps_scheduler_tick : keeps inv scheduler_tick.
Proof. keeps_tac. apply keeps_modify, inv_tick. Qed.

(** *** Single flight *)

Lemma keeps_set_flights f : keeps inv (modify (λ c, set_flights (f c) c)).
Proof. by apply keeps_field. Qed.

Lemma keeps_finish_flight i key fid f : keeps inv (finish_flight i key fid f).
Proof.
  apply keeps_bind; [apply keeps_set_flights|]. intros _. apply keeps_lock.
  intros j data sh. apply set_singleflight_inv.
Qed.

Lemma keeps_join_flight key : keeps inv (join_flight key).
Proof.
  unfold join_flight, new_flight. keeps_tac.
  - apply keeps_lock. intros j data sh. apply read_value_inv.
  - by apply keeps_lock.
  - apply keeps_set_flights.
  - apply keeps_lock. intros j data sh. apply set_singleflight_inv.
Qed.

Lemma keeps_lead_flight key loader ttl fid : keeps inv loader → keeps inv (lead_flight key loader ttl fid).
Proof.
  intros Hl. unfold lead_flight, fail_flight_locked.
  pose proof keeps_finish_flight as Hf. pose proof keeps_put as Hp. keeps_tac.
Qed.

(** [get_or_compute] keeps the invariant when the loader and the other threads do. *)
Lemma keeps_get_or_compute key loader ttl others :
  keeps inv loader → keeps inv others → keeps inv (get_or_compute key loader ttl others).
Proof.
  intros Hl Ho. pose proof (keeps_lead_flight key loader ttl) as Hlead.
  pose proof (keeps_join_flight key) as Hj. unfold get_or_compute, await_flight. keeps_tac.
Qed.

(** *** Workers *)

Lemma keeps_resolve {A} i key (a : A) :
  keeps inv (with_lock i (λ sh, (resolve_pending_locked key sh, a))).
Proof. apply keeps_lock. intros j data sh. apply resolve_inv. Qed.

Lemma keeps_flush_failed job : flush_ok job → keeps inv (flush_failed job).
Proof.
  intros (i & Hi & Hj). pose proof (keeps_resolve (A:=bool)) as Hr. unfold flush_failed.
  assert (job_ok (FlushJob (mkFlush (f_shard_index job) (f_key job) (f_value job) (f_version job)
    (f_operation job) (f_retries_left job - 1) (f_attempt job + 1)))) as Hjob.
  { exists i. split; [done|]. by destruct Hj. }
  keeps_tac.
Qed.

Lemma keeps_flush_job job : flush_ok job → keeps inv (flush_write_back_job job).
Proof.
  intros Hj. pose proof (keeps_flush_failed job Hj) as Hfail. unfold flush_write_back_job.
  apply keeps_bind; [apply keeps_lock; intros j data sh; apply flush_check_inv|]. intros stale.
  apply keeps_if; [keeps_tac|]. destruct Hj as (i & Hi & Hj).
  apply keeps_bind; [apply keeps_attempt, keeps_source_wb; by destruct Hj|].
  intros [u|e]; [|done]. apply keeps_lock. intros j data sh. apply flush_finish_inv.
Qed.

Lemma keeps_handle_job job : job_ok job → keeps inv (handle_job job).
Proof.
  intros Hj. pose proof keeps_put as Hp. destruct job; simpl.
  - pose proof keeps_expire_shard. keeps_tac.
  - pose proof (keeps_flush_job job Hj). keeps_tac.
  - keeps_tac.
  - apply keeps_bind; [by apply keeps_field|]. keeps_tac.
  - keeps_tac.
Qed.
End ops.

#[local] Hint Resolve keeps_inc_runtime keeps_sleep keeps_now keeps_ret keeps_raise keeps_get
  keeps_attempt : keepsdb.

(** A worker takes a job, which makes one more task busy, and marks it done. *)
Lemma inv_queue_get b c job q :
  cache_inv b c → queue_get (c_queue c) = Some (job, q) →
  job_ok job ∧ cache_inv (b + 1) (set_queue q c).
Proof.
  intros [? ? ? ? ? [Hu Hb] Hbusy Hj]. unfold queue_get.
  destruct (q_items (c_queue c)) as [|j items] eqn:E; [done|]. intros [= <- <-].
  unfold queue_depth in *. rewrite E in *. apply Forall_cons in Hj as [Hj Hjs]. simpl in *.
  split; [done|]. split; simpl; try done; [split|]; unfold queue_depth; simpl; lia.
Qed.

Lemma keeps_task_done b c :
  0 ≤ b → cache_inv (b + 1) c → cache_inv b (with_queue queue_task_done c).1 ∧
  (with_queue queue_task_done c).2 = Ok tt.
Proof.
  intros Hb [? ? ? ? ? [Hu Hbd] Hbusy Hj]. unfold with_queue, queue_task_done, mbind, M_bind, get_state.
  unfold queue_depth in *. destruct (Z.leb_spec (q_unfinished (c_queue c)) 0); [lia|]. simpl.
  split; [|done]. split; simpl; try done; [split|]; unfold queue_depth; simpl; lia.
Qed.

Lemma keeps_worker_step b : 0 ≤ b → keeps (cache_inv b) worker_step.
Proof.
  intros Hb c Hc. unfold worker_step. unfold mbind at 1, M_bind at 1, get_state at 1.
  destruct (queue_get (c_queue c)) as [[job q]|] eqn:E; [|done].
  destruct (inv_queue_get b c job q Hc E) as [Hj Hq].
  assert (cache_inv b (set_queue q c)) as Hq0 by (by eapply inv_less_busy; [|exact Hq]; lia).
  unfold mbind at 1, M_bind at 1, modify at 1. set (c1 := set_queue q c) in *.
  assert (keeps (cache_inv (b + 1)) (r ← attempt (handle_job job);
    match r with Ok _ => mret tt | Raise _ => inc_runtime worker_jobs_failed end)) as Hk.
  { apply keeps_bind; [by apply keeps_attempt, keeps_handle_job|]. intros [|]; eauto with keepsdb. }
  assert (cache_inv b ((r ← attempt (handle_job job);
    match r with Ok _ => mret tt | Raise _ => inc_runtime worker_jobs_failed end ;;
    with_queue queue_task_done) c1).1) as Hrun.
  { specialize (Hk c1 Hq). unfold mbind, M_bind in *. destruct (attempt (handle_job job) c1) as [c2 [r|e]];
      [|by eapply inv_less_busy; [|exact Hk]; lia].
    destruct (_ c2) as [c3 [u|e]]; [by apply keeps_task_done|]. by eapply inv_less_busy; [|exact Hk]; lia. }
  destruct job as [| |? ? [] ? ?| |]; try done; destruct (c_state c); try done; by apply keeps_task_done.
Qed.

Lemma keeps_worker_steps b n : 0 ≤ b → keeps (cache_inv b) (worker_steps n).
Proof.
  intros Hb. induction n as [|n IH]; simpl; [apply keeps_ret|].
  apply keeps_bind; [by apply keeps_worker_step|]. by intros _.
Qed.

(** *** Lifecycle *)

Section lifecycle.
Context (busy : Z) (Hbusy : 0 ≤ busy).
Local Abbreviation inv := (cache_inv busy).

Lemma keeps_start : keeps inv cache_start.
Proof.
  unfold cache_start. apply keeps_bind; [apply keeps_get|]. intros c.
  destruct (c_state c); [|apply keeps_ret|apply keeps_raise..].
  repeat (apply keeps_bind; [try apply keeps_if; try apply keeps_ret; by apply keeps_field|intros _]).
  by apply keeps_field.
Qed.

Lemma keeps_offer job : job_ok job →
  keeps inv (modify (λ c, set_queue (queue_offer job (c_queue c)).1 c)).
Proof.
  intros Hj c Hc. simpl. pose proof (queue_offer_wf _ job (ci_queue _ _ Hc)) as Hw. destruct Hc.
  apply inv_set_queue; [done| | |by split]; unfold queue_offer in *; destruct (queue_full _); try done;
    simpl in *; [|apply Forall_app; auto].
  unfold queue_depth in *. simpl. rewrite length_app. simpl. lia.
Qed.

Lemma keeps_drain : keeps inv (with_queue queue_drain).
Proof.
  intros c Hc. unfold with_queue, queue_drain, mbind, M_bind, get_state.
  rewrite drain_loop_spec by (apply (ci_queue _ _ Hc) || lia). cbn [fst].
  apply inv_set_queue; [split|..]; simpl; try done; unfold queue_depth; simpl;
    pose proof (ci_busy _ _ Hc); unfold queue_depth in *; try constructor; lia.
Qed.

Lemma keeps_pool_stop env : keeps inv (pool_stop env).
Proof.
  unfold pool_stop. apply keeps_bind; [apply keeps_get|]. intros c.
  apply keeps_bind; [|intros _; apply keeps_bind; [apply keeps_drain|intros n; apply keeps_ret]].
  apply keeps_if; [|apply keeps_ret].
  apply keeps_bind; [by apply keeps_field|]. intros _.
  apply keeps_bind; [apply keeps_for_each; intros i _; by apply keeps_offer|]. intros _.
  apply keeps_bind; [by apply keeps_worker_steps|]. intros _. by apply keeps_field.
Qed.

Lemma keeps_enqueue_until_full i jobs : Forall flush_ok jobs → keeps inv (enqueue_until_full i jobs).
Proof.
  induction 1 as [|job jobs Hj Hjs IH]; cbn [enqueue_until_full]; [apply keeps_ret|].
  apply keeps_bind; [by apply keeps_attempt, keeps_enqueue_job|]. intros [ok|e]; [done|].
  destruct e; try apply keeps_raise.
  apply keeps_for_each. intros j _. apply keeps_resolve.
Qed.

Lemma keeps_enqueue_dirty : mode = WRITE_BACK → keeps inv enqueue_dirty_write_back_jobs.
Proof.
  intros Hm. apply (keeps_bind_returns _ _ _ inv); [apply returns_get|]. intros c Hc.
  apply keeps_for_each. intros i Hi. apply (shard_indices_ok busy c) in Hi as [Hi Hslot]; [|done].
  eapply keeps_bind_returns; [|intros jobs; apply keeps_enqueue_until_full].
  apply returns_lock. intros j data sh -> Hsh.
  destruct (collect_inv _ _ _ _ _ (cfg_write_back_retry_count (c_config c)) sh Hm Hsh) as [H1 H2].
  split; [done|]. eapply Forall_impl; [exact H2|]. intros job. apply flush_ok_here. rewrite Hslot. lia.
Qed.

Lemma keeps_sync_attempts n i job : mode = WRITE_BACK → keeps inv (sync_attempts n i job).
Proof.
  intros Hm. induction n as [|n IH]; [apply keeps_ret|]. cbn [sync_attempts].
  apply keeps_bind.
  - apply keeps_attempt, keeps_if; [|by apply keeps_source_wb].
    apply keeps_bind; [by apply keeps_source_wb|]. intros _.
    apply keeps_lock. intros j data sh. apply mark_clean_inv.
  - intros [u|e]; [apply keeps_ret|]. apply keeps_bind; [|by intros _].
    apply keeps_if; [|apply keeps_ret]. apply keeps_bind; [apply keeps_inc_runtime|]. intros _.
    apply keeps_bind; [apply keeps_get|]. intros c. apply keeps_sleep.
Qed.

Lemma keeps_sync_job i job : mode = WRITE_BACK → keeps inv (sync_flush_job i job).
Proof.
  intros Hm. apply keeps_bind.
  - apply keeps_lock. intros j data sh Hsh. destruct (is_stale_write_back _ _ _); [|done].
    by apply clear_pending_inv.
  - intros stale. apply keeps_if; [apply keeps_bind; eauto with keepsdb|].
    apply keeps_bind; [by apply keeps_sync_attempts|]. intros success.
    apply keeps_bind; [apply keeps_if; eauto with keepsdb|]. intros _.
    apply keeps_bind; [|intros _; apply keeps_ret]. apply keeps_lock.
    intros j data sh. apply clear_pending_inv.
Qed.

Lemma keeps_for_any {A} (xs : list A) f : (∀ x, keeps inv (f x)) → keeps inv (for_any xs f).
Proof.
  intros Hf. induction xs as [|x xs IH]; simpl; [apply keeps_ret|].
  apply keeps_bind; [apply Hf|]. intros b. apply keeps_bind; [done|]. intros b'. apply keeps_ret.
Qed.

Lemma keeps_sync_flush : mode = WRITE_BACK → keeps inv flush_dirty_entries_sync.
Proof.
  intros Hm. apply keeps_bind; [apply keeps_get|]. intros c. apply keeps_for_any. intros i.
  apply keeps_bind; [by apply keeps_lock|]. intros jobs. apply keeps_for_any. intros job.
  by apply keeps_sync_job.
Qed.

Lemma keeps_set_state st : keeps inv (modify (set_state st)).
Proof. by apply keeps_field. Qed.

(** The flush of [close], when it is write-back. *)
Lemma keeps_close flush env : keeps inv (cache_close flush env).
Proof.
  apply (keeps_bind_returns _ _ _ inv); [apply returns_get|]. intros c Hc.
  assert (keeps inv (modify (λ c : Cache K V P, set_scheduler (scheduler_stop (c_scheduler c)) c)))
    as Hs by by apply keeps_field.
  destruct (c_state c); try apply keeps_ret;
    (apply keeps_bind; [apply keeps_set_state|intros _]; apply keeps_bind; [done|intros _];
     apply keeps_bind; [|intros failed; apply keeps_bind; [apply keeps_pool_stop|intros _];
       apply keeps_bind; [apply keeps_set_state|intros _];
       apply keeps_if; [|apply keeps_ret];
       apply keeps_bind; [apply keeps_get|intros c3; apply keeps_raise]]);
    destruct (_ && _) eqn:Ef; try apply keeps_ret;
    apply andb_true_iff in Ef as [_ Hm%bool_decide_eq_true]; rewrite (ci_mode _ _ Hc) in Hm;
    (apply keeps_bind; [by apply keeps_enqueue_dirty|intros _]);
    (apply keeps_bind; [apply keeps_get|intros c1]);
    (apply keeps_bind;
      [apply keeps_if; [|apply keeps_ret]; apply keeps_bind; [by apply keeps_worker_steps|intros _];
       apply keeps_bind; [apply keeps_get|intros c2; apply keeps_ret]|intros joined]);
    (apply keeps_bind; [by apply keeps_sync_flush|intros sync_failed]);
    (apply keeps_bind; [apply keeps_if; eauto with keepsdb|intros _; apply keeps_ret]).
Qed.
End lifecycle.
End safety.
