(* ===== verification/Reach.v ===== *)
(** What holds of every cache a program can get: a cache built by [Cache.__init__] and
    driven by any sequence of API calls, worker and scheduler activity, clock ticks and
    source failures. *)

From stdpp Require Import base tactics numbers option strings sets list relations.
From S2P Require Import Prelude PyDict PyFloat PyMonad Config Entry Policies PolicyLaws.
From S2P Require Import Storage Jobs Shard ShardInv ShardSpec Cache CacheInv CacheSafety.
Local Open Scope string_scope.
Local Open Scope list_scope.
Local Open Scope Z_scope.

Section step.
Context {K V P : Type} `{EqDecision K} `{KeyHash K} `{PyNone V} `{HP : EvictionPolicy K P}.
Implicit Types (c : Cache K V P) (key : K) (value : V).

(** The calls and actions of the environment that leave the registrations of
    [get_or_compute] alone.  A loader is given by its outcome. *)
Inductive quiet_step : Cache K V P → Cache K V P → Prop :=
  | step_start c : quiet_step c (cache_start c).1
  | step_close flush env c : quiet_step c (cache_close flush env c).1
  | step_get key dflt c : quiet_step c (cache_get key dflt c).1
  | step_put key value ttl c : quiet_step c (cache_put key value ttl c).1
  | step_contains key c : quiet_step c (cache_contains key c).1
  | step_inspect key c : quiet_step c (cache_inspect key c).1
  | step_dump limit c : quiet_step c (cache_dump limit c).1
  | step_expire_all c : quiet_step c (expire_all c).1
  | step_preload key loader ttl c : quiet_step c (cache_preload key loader ttl c).1
  | step_request_snapshot id c : quiet_step c (request_snapshot id c).1
  | step_scheduler_tick c : quiet_step c (scheduler_tick c).1
  | step_restore key n c : quiet_step c (restore_entry_metadata key n c).1
  | step_worker c : wp_started (c_pool c) = true → quiet_step c (worker_step c).1
  | step_scheduler c :
      sch_thread (c_scheduler c) = true → sch_stop (c_scheduler c) = false →
      quiet_step c (set_queue (tick_once (Z.of_nat (length (c_shards c))) (c_queue c)) c)
  | step_clock seconds clock c :
      clock_advance (c_clock c) seconds = Ok clock → quiet_step c (set_clock clock c)
  | step_source_failures n c : quiet_step c (with_source (fail_next n) c).1.

(** One call, or one action of the environment. *)
Inductive cache_step : Cache K V P → Cache K V P → Prop :=
  | step_quiet c c' : quiet_step c c' → cache_step c c'
  | step_delete key c : cache_step c (cache_delete key c).1
  | step_clear c : cache_step c (cache_clear c).1
  | step_get_or_compute key loader ttl c :
      cache_step c (get_or_compute key (lift loader) ttl (mret tt) c).1.

Context `{!PolicyLaws K P}.

Lemma inv_fail_next cfg mode b n c :
  cache_inv cfg mode b c → cache_inv cfg mode b (with_source (fail_next n) c).1.
Proof. intros []. by split. Qed.

Lemma cache_step_inv cfg mode b c c' :
  0 ≤ b → cache_step c c' → cache_inv cfg mode b c → cache_inv cfg mode b c'.
Proof.
  intros Hb Hs Hc. destruct Hs as [c c' Hq|key c|c|key loader ttl c]; [destruct Hq|..].
  - by apply keeps_start.
  - by apply keeps_close.
  - by apply keeps_get_op.
  - by apply keeps_put.
  - by apply keeps_contains.
  - by apply keeps_inspect.
  - by apply keeps_dump.
  - by apply keeps_expire_all.
  - by apply keeps_preload.
  - by apply keeps_request_snapshot.
  - by apply keeps_scheduler_tick.
  - by apply keeps_restore.
  - by apply keeps_worker_step.
  - by apply inv_tick.
  - by apply (inv_ext _ _ _ c).
  - by apply inv_fail_next.
  - by apply keeps_delete.
  - by apply keeps_clear.
  - apply keeps_get_or_compute; [apply keeps_lift|apply keeps_ret|done].
Qed.

Lemma cache_steps_inv cfg mode c c' :
  rtc cache_step c c' → cache_inv cfg mode 0 c → cache_inv cfg mode 0 c'.
Proof. induction 1; [done|]. intros Hc. apply IHrtc. by eapply (cache_step_inv _ _ 0). Qed.
End step.

(** ** Construction *)

Section init.
Context {K V : Type} `{EqDecision K} `{KeyHash K} `{PyNone V}.

Lemma init_shards_spec cfg index caps (shards : list (CacheShard K V (AnyPolicy K))) :
  init_shards cfg index caps = Ok shards →
  length shards = length caps ∧
  ∀ i sh, shards !! i = Some sh →
    ∃ cap policy, caps !! i = Some cap ∧ make_policy (cfg_policy cfg) = Ok policy ∧
      sh = shard_init (index + Z.of_nat i) cap policy.
Proof.
  revert index shards. induction caps as [|cap caps IH]; intros index shards; cbn [init_shards].
  { intros [= <-]. split; [done|]. intros i sh. by rewrite lookup_nil. }
  unfold make_backend. destruct (String.eqb _ _); [|done].
  destruct (make_policy (cfg_policy cfg)) as [policy|] eqn:Ep; [|done].
  destruct (init_shards cfg (index + 1) caps) as [shards'|] eqn:E; [|done]. intros [= <-].
  apply IH in E as [Hl Hi]. split; [simpl; by rewrite Hl|]. intros [|i] sh; simpl.
  - intros [= <-]. exists cap, policy. split_conj; [done..|]. by rewrite Z.add_0_r.
  - intros Hsh. destruct (Hi i sh Hsh) as (cap' & policy' & Hc & [= <-] & ->).
    exists cap', policy. split_conj; [done..|]. f_equal. lia.
Qed.

Lemma init_shards_ok cfg index caps :
  cfg_backend cfg ∈ SUPPORTED_BACKENDS → str_lower (cfg_policy cfg) ∈ SUPPORTED_POLICIES →
  ∃ shards : list (CacheShard K V (AnyPolicy K)), init_shards cfg index caps = Ok shards.
Proof.
  intros Hb Hp. destruct (make_policy_supported (K:=K) _ Hp) as [policy Epol].
  assert (cfg_backend cfg = "memory") as Eb by set_solver. revert index.
  induction caps as [|cap caps IH]; intros index; cbn [init_shards]; [by eexists|].
  unfold make_backend. rewrite Eb. cbn. rewrite Epol. destruct (IH (index + 1)) as [shards ->].
  by eexists.
Qed.

(** A configuration the constructor ends up with is valid. *)
Lemma init_config_valid config args cfg :
  (∀ cfg', config = Some cfg' → config_valid cfg') →
  init_config config args = Ok cfg → config_valid cfg.
Proof.
  intros Hv. unfold init_config. destruct config as [cfg'|].
  - destruct (conflicting args); [|done]. intros [= <-]. by apply Hv.
  - intros Hp. pose proof (post_init_id _ _ Hp) as ->. by apply post_init_valid.
Qed.

Lemma cache_init_eq config args source clock (c : Cache K V (AnyPolicy K)) :
  cache_init config args source clock = Ok c →
  init_config config args = Ok (c_config c) ∧
  parse_write_mode (cfg_write_mode (c_config c)) = Ok (c_write_mode c) ∧
  init_shards (c_config c) 0
    (shard_capacities (cfg_capacity (c_config c)) (cfg_shard_count (c_config c))) = Ok (c_shards c) ∧
  c_queue c = queue_init (cfg_queue_size (c_config c)) ∧ c_state c = CREATED ∧
  c_source c = source ∧ c_clock c = clock.
Proof.
  unfold cache_init. destruct (init_config config args) as [cfg|]; [|done].
  destruct (parse_write_mode _) as [mode|] eqn:Em; [|done].
  destruct (init_shards _ _ _) as [shards|] eqn:Es; [|done]. by intros [= <-].
Qed.

Lemma cache_init_inv config args source clock (c : Cache K V (AnyPolicy K)) :
  (∀ cfg, config = Some cfg → config_valid cfg) →
  cache_init config args source clock = Ok c →
  cache_inv (c_config c) (c_write_mode c) 0 c.
Proof.
  intros Hv Hi. apply cache_init_eq in Hi as (Hc & _ & Hs & Hq & _).
  pose proof (init_config_valid _ _ _ Hv Hc) as Hval. apply init_shards_spec in Hs as [Hl Hs].
  split; try done.
  - rewrite Hl. apply shard_capacities_length.
  - intros i sh Hsh. destruct (Hs i sh Hsh) as (cap & policy & Hcap & Hpol & ->).
    destruct (make_policy_init _ _ Hpol) as (Hw & Ht & Hkeep). rewrite Z.add_0_l.
    replace cap with (shp_capacity (shape_at (c_config c) i)) by (simpl; by rewrite Hcap).
    apply shard_init_inv; [|done..]. simpl. rewrite Hcap.
    pose proof (shard_capacities_positive _ _ (cv_shards _ Hval) (cv_capacity _ Hval)) as Hp.
    rewrite Forall_forall in Hp. apply Hp. by eapply list_elem_of_lookup_2.
  - rewrite Hq. apply queue_init_wf.
  - rewrite Hq. unfold queue_depth. simpl. lia.
  - rewrite Hq. by constructor.
Qed.

(** A cache some program can get. *)
Definition reachable (c : Cache K V (AnyPolicy K)) : Prop :=
  ∃ config args source clock c0,
    (∀ cfg, config = Some cfg → config_valid cfg) ∧
    cache_init config args source clock = Ok c0 ∧ rtc cache_step c0 c.

Lemma reachable_inv c : reachable c → cache_inv (c_config c) (c_write_mode c) 0 c.
Proof.
  intros (config & args & source & clock & c0 & Hv & Hi & Hs).
  pose proof (cache_steps_inv _ _ _ _ Hs (cache_init_inv _ _ _ _ _ Hv Hi)) as Hc.
  by rewrite (ci_config _ _ _ _ Hc), (ci_mode _ _ _ _ Hc).
Qed.

Lemma reachable_step c c' : reachable c → cache_step c c' → reachable c'.
Proof.
  intros (config & args & source & clock & c0 & Hv & Hi & Hs) Hst.
  exists config, args, source, clock, c0. split_conj; [done..|]. by eapply rtc_r.
Qed.
End init.
