(* ===== verification/CacheSpec.v ===== *)
(** The cache as a map: what callers observe.

    [view c] is the abstract state of a cache, the value of every key that is stored and
    not expired now.  The lemmas run the operations of [Cache] on a consistent cache and
    say what they return and what they do to the view. *)

From stdpp Require Import base tactics numbers option strings sets list relations.
From S2P Require Import Prelude PyDict PyFloat PyMonad Config Entry Policies PolicyLaws.
From S2P Require Import Storage Jobs Shard ShardInv ShardSpec Cache CacheInv CacheSafety.
From S2P Require Import Reach.
Local Open Scope string_scope.
Local Open Scope list_scope.
Local Open Scope Z_scope.

(** Running a sequence whose first part is known. *)
Lemma bind_ok {S A B} (m : M S A) (f : A → M S B) s s' a :
  m s = (s', Ok a) → (m ≫= f) s = f a s'.
Proof. unfold mbind, M_bind. by intros ->. Qed.

Lemma bind_raise {S A B} (m : M S A) (f : A → M S B) s s' e :
  m s = (s', Raise e) → (m ≫= f) s = (s', Raise e).
Proof. unfold mbind, M_bind. by intros ->. Qed.

Lemma attempt_eq {S A} (m : M S A) s s' r : m s = (s', r) → attempt m s = (s', Ok r).
Proof. unfold attempt. by intros ->. Qed.

Section view.
Context {K V P : Type} `{EqDecision K} `{KeyHash K} `{PyNone V}
  `{HP : EvictionPolicy K P} `{!PolicyLaws K P}.
Implicit Types (c : Cache K V P) (sh : CacheShard K V P) (key k : K) (value : V).

(** The position of the shard of a key. *)
Definition slot c key : nat := Z.to_nat (shard_for c key).

Definition view c k : option V :=
  match c_shards c !! slot c k with
  | Some sh => visible (clock_now (c_clock c)) sh k
  | None => None
  end.

Definition is_open c : Prop := c_state c = CREATED ∨ c_state c = STARTED.

(** The cache with the shard at [i] replaced. *)
Definition with_shard (i : nat) sh c : Cache K V P := set_shards (<[i:=sh]> (c_shards c)) c.

Section run.
Context (cfg : CacheConfig) (mode : WriteMode) (busy : Z).
Local Abbreviation inv := (cache_inv cfg mode busy).

Lemma inv_shard_count c : inv c → 0 < Z.of_nat (length (c_shards c)).
Proof. intros Hc. rewrite (ci_length _ _ _ _ Hc). pose proof (cv_shards _ (ci_valid _ _ _ _ Hc)). lia. Qed.

Lemma slot_shard_slot c key : inv c → shard_slot (length (c_shards c)) (shard_for c key) = slot c key.
Proof.
  intros Hc. unfold shard_slot, slot. pose proof (inv_shard_count c Hc) as Hn.
  pose proof (Z.mod_pos_bound (key_hash key) _ Hn) as Hb. unfold shard_for.
  by rewrite (proj2 (Z.leb_le 0 _)) by lia.
Qed.

Lemma slot_lookup c key : inv c → ∃ sh, c_shards c !! slot c key = Some sh.
Proof.
  intros Hc. apply lookup_lt_is_Some. unfold slot, shard_for.
  pose proof (inv_shard_count c Hc) as Hn. pose proof (Z.mod_pos_bound (key_hash key) _ Hn). lia.
Qed.

Lemma slot_routed c key k :
  inv c → routed cfg (slot c key) k ↔ slot c k = slot c key.
Proof.
  intros Hc. unfold routed, slot, shard_for. rewrite (ci_length _ _ _ _ Hc).
  pose proof (cv_shards _ (ci_valid _ _ _ _ Hc)) as Hn. rewrite !(Z2Nat.id (cfg_shard_count cfg)) by lia.
  pose proof (Z.mod_pos_bound (key_hash key) _ Hn). pose proof (Z.mod_pos_bound (key_hash k) _ Hn). lia.
Qed.

Lemma slot_shard_wf c key sh : inv c → c_shards c !! slot c key = Some sh → shard_wf sh.
Proof. intros Hc Hsh. by apply (ci_shards _ _ _ _ Hc) in Hsh as [? _]. Qed.

(** Running a critical section of the shard of [key]. *)
Lemma run_lock_src {A} c key sh (m : M (CacheShard K V P * SlowDictBackend K V) A) sh' src' r :
  inv c → c_shards c !! slot c key = Some sh → m (sh, c_source c) = ((sh', src'), r) →
  with_lock_src (shard_for c key) m c = (set_source src' (with_shard (slot c key) sh' c), r).
Proof.
  intros Hc Hsh Hm. unfold with_lock_src. by rewrite slot_shard_slot, Hsh, Hm.
Qed.

Lemma run_lock {A} c key sh (f : CacheShard K V P → CacheShard K V P * A) :
  inv c → c_shards c !! slot c key = Some sh →
  with_lock (shard_for c key) f c = (with_shard (slot c key) (f sh).1 c, Ok (f sh).2).
Proof.
  intros Hc Hsh. unfold with_lock.
  rewrite (run_lock_src c key sh _ (f sh).1 (c_source c) (Ok (f sh).2)); [done..|]. by destruct (f sh).
Qed.

Lemma run_open c : is_open c → require_not_closed c = (c, Ok tt).
Proof.
  intros Ho. unfold require_not_closed, mbind, M_bind, get_state. by destruct Ho as [-> | ->].
Qed.

Lemma run_now c : now c = (c, Ok (clock_now (c_clock c))).
Proof. done. Qed.

(** The view after a change of one shard. *)
Lemma slot_with_shard i sh c k : slot (with_shard i sh c) k = slot c k.
Proof. unfold slot, shard_for. simpl. by rewrite length_insert. Qed.

Lemma view_with_shard i sh c k :
  (i < length (c_shards c))%nat →
  view (with_shard i sh c) k
  = if decide (slot c k = i) then visible (clock_now (c_clock c)) sh k else view c k.
Proof.
  intros Hi. unfold view. rewrite slot_with_shard. simpl. case_decide as Hd.
  - by rewrite Hd, list_lookup_insert_eq.
  - by rewrite list_lookup_insert_ne by done.
Qed.

Lemma view_slot c k sh :
  c_shards c !! slot c k = Some sh → view c k = visible (clock_now (c_clock c)) sh k.
Proof. unfold view. by intros ->. Qed.

(** A critical section that leaves the visible values of its shard alone. *)
Lemma view_same_shard c key sh sh' k :
  c_shards c !! slot c key = Some sh →
  (∀ x, visible (clock_now (c_clock c)) sh' x = visible (clock_now (c_clock c)) sh x) →
  view (with_shard (slot c key) sh' c) k = view c k.
Proof.
  intros Hsh Hv. rewrite view_with_shard by (by eapply lookup_lt_Some). case_decide as Hd; [|done].
  rewrite Hv. symmetry. apply view_slot. by rewrite Hd.
Qed.

(** *** Reads *)

Lemma run_get c key dflt :
  inv c → is_open c →
  let '(c', r) := cache_get key dflt c in
  r = Ok (default dflt (view c key)) ∧ (∀ k, view c' k = view c k) ∧ c_source c' = c_source c.
Proof.
  intros Hc Ho. destruct (slot_lookup c key Hc) as [sh Hsh].
  unfold cache_get. rewrite (bind_ok _ _ c c tt) by by apply run_open.
  rewrite (bind_ok _ _ c c c) by done. rewrite (bind_ok _ _ c c _) by apply run_now.
  erewrite bind_ok by by apply run_lock.
  pose proof (read_value_visible (clock_now (c_clock c)) key true true sh) as Hr.
  destruct (read_value_locked _ key true true sh) as [sh' [found v]]. destruct Hr as [Hv Hk].
  rewrite (view_slot c key sh Hsh). cbn [fst snd]. split; [|split].
  - destruct (visible _ sh key) as [x|]; destruct Hv as [-> ->]; done.
  - intros k. by apply (view_same_shard c key sh).
  - done.
Qed.

Lemma run_contains c key :
  inv c → is_open c →
  let '(c', r) := cache_contains key c in
  r = Ok (is_not_none (view c key)) ∧ ∀ k, view c' k = view c k.
Proof.
  intros Hc Ho. destruct (slot_lookup c key Hc) as [sh Hsh].
  unfold cache_contains. rewrite (bind_ok _ _ c c tt) by by apply run_open.
  rewrite (bind_ok _ _ c c c) by done. rewrite (bind_ok _ _ c c _) by apply run_now.
  erewrite bind_ok by by apply run_lock.
  pose proof (read_value_visible (clock_now (c_clock c)) key false true sh) as Hr.
  destruct (read_value_locked _ key false true sh) as [sh' [found v]]. destruct Hr as [Hv Hk].
  rewrite (view_slot c key sh Hsh). cbn [fst snd]. split.
  - destruct (visible _ sh key) as [x|]; destruct Hv as [-> _]; done.
  - intros k. by apply (view_same_shard c key sh).
Qed.

Lemma run_inspect c key :
  inv c → is_open c →
  let '(c', r) := cache_inspect key c in
  (∃ s, r = Ok s ∧ s_value <$> s = view c key) ∧ ∀ k, view c' k = view c k.
Proof.
  intros Hc Ho. destruct (slot_lookup c key Hc) as [sh Hsh].
  unfold cache_inspect. rewrite (bind_ok _ _ c c tt) by by apply run_open.
  rewrite (bind_ok _ _ c c c) by done. rewrite (bind_ok _ _ c c _) by apply run_now.
  erewrite run_lock by done.
  pose proof (inspect_visible (clock_now (c_clock c)) key sh) as Hi.
  rewrite (view_slot c key sh Hsh). split.
  - eexists. split; [done|]. by apply Hi.
  - intros k. apply (view_same_shard c key sh); [done|]. intros x. apply Hi.
Qed.

(** *** Enqueuing leaves the entries alone *)

Record same_entries c0 c : Prop := {
  se_backends : sh_backend <$> c_shards c = sh_backend <$> c_shards c0;
  se_clock : c_clock c = c_clock c0;
  se_source : c_source c = c_source c0;
  se_state : c_state c = c_state c0;
  se_config : c_config c = c_config c0;
  se_mode : c_write_mode c = c_write_mode c0;
}.

Lemma same_entries_refl c : same_entries c c.
Proof. done. Qed.

Lemma same_entries_view c0 c k : same_entries c0 c → view c k = view c0 k.
Proof.
  intros [Hb Hcl _ _ _ _]. unfold view, visible, slot, shard_for. rewrite Hcl.
  assert (length (c_shards c) = length (c_shards c0)) as Hl
    by by rewrite <- (length_fmap sh_backend), Hb, length_fmap.
  rewrite Hl. set (i := Z.to_nat _).
  assert (sh_backend <$> (c_shards c !! i) = sh_backend <$> (c_shards c0 !! i)) as Hi
    by by rewrite <- !list_lookup_fmap, Hb.
  destruct (c_shards c !! i), (c_shards c0 !! i); simplify_option_eq; congruence.
Qed.

Lemma same_entries_lock {A} c0 i (f : CacheShard K V P → CacheShard K V P * A) :
  (∀ sh, sh_backend (f sh).1 = sh_backend sh) → keeps (same_entries c0) (with_lock i f).
Proof.
  intros Hf c [Hb ? ? ? ? ?]. unfold with_lock, with_lock_src.
  destruct (c_shards c !! _) as [sh|] eqn:E; [|done]. specialize (Hf sh).
  destruct (f sh) as [sh' a]. split; try done. simpl. rewrite <- Hb, list_fmap_insert. simpl in Hf.
  rewrite Hf. apply list_insert_id. by rewrite list_lookup_fmap, E.
Qed.

Lemma resolve_backend key sh : sh_backend (resolve_pending_locked key sh) = sh_backend sh.
Proof.
  unfold resolve_pending_locked. set (x := if 0 <? _ then _ else _).
  pose proof (prune_fields key x) as (-> & _). subst x. by destruct (0 <? _).
Qed.

Lemma same_entries_enqueue_job c0 job critical : keeps (same_entries c0) (enqueue_job job critical).
Proof.
  apply keeps_bind.
  - intros c []. by destruct (queue_put job critical (c_queue c)).
  - intros ok. repeat apply keeps_if; apply keeps_ret || apply keeps_raise.
Qed.

Lemma enqueue_job_critical job c :
  ∃ q, (enqueue_job job true c = (set_queue q c, Ok true)) ∨
       (enqueue_job job true c = (set_queue q c, Raise QueueBackpressureError)).
Proof.
  unfold enqueue_job, mbind, M_bind. destruct (queue_put job true (c_queue c)) as [q []]; eauto.
Qed.

Lemma same_entries_enqueue_flush c0 jobs : keeps (same_entries c0) (enqueue_flush_jobs jobs).
Proof.
  induction jobs as [|job jobs IH]; cbn [enqueue_flush_jobs]; [apply keeps_ret|].
  apply keeps_bind; [apply keeps_attempt, same_entries_enqueue_job|].
  intros [ok|e]; [done|]. destruct e; try apply keeps_raise.
  apply keeps_bind; [|intros _; apply keeps_raise].
  apply keeps_for_each. intros j _. apply same_entries_lock. intros sh. apply resolve_backend.
Qed.

(** *** Enqueuing ends normally or with backpressure *)

Lemma lock_in_range {A} i (f : CacheShard K V P → CacheShard K V P * A) c :
  inv c → 0 ≤ i < cfg_shard_count cfg → ∃ c' a, with_lock i f c = (c', Ok a).
Proof.
  intros Hc Hi. unfold with_lock, with_lock_src.
  destruct (lookup_lt_is_Some_2 (c_shards c) (shard_slot (length (c_shards c)) i)) as [sh ->].
  - unfold shard_slot. rewrite (proj2 (Z.leb_le 0 _)) by lia. rewrite (ci_length _ _ _ _ Hc). lia.
  - destruct (f sh) as [sh' a]. eauto.
Qed.

Lemma flush_ok_index (job : FlushWriteBack K V) : flush_ok cfg mode job → 0 ≤ f_shard_index job < cfg_shard_count cfg.
Proof. intros (i & Hi & Hj). rewrite (jh_index _ _ _ _ Hj). lia. Qed.

Lemma release_pending_ok jobs c :
  inv c → Forall (flush_ok cfg mode) jobs → (release_pending jobs c).2 = Ok tt.
Proof.
  intros Hc Hj. revert c Hc. induction Hj as [|job jobs Hj _ IH]; intros c Hc; [done|].
  unfold release_pending. cbn [for_each].
  set (f := λ sh, (resolve_pending_locked (f_key job) sh, tt)).
  destruct (lock_in_range (f_shard_index job) f c Hc (flush_ok_index job Hj)) as (c1 & [] & E).
  pose proof (keeps_resolve cfg mode busy (f_shard_index job) (f_key job) tt c Hc) as H1.
  change (cache_inv cfg mode busy (with_lock (f_shard_index job) f c).1) in H1. rewrite E in H1.
  rewrite (bind_ok _ _ _ _ _ E). by apply IH.
Qed.

Lemma enqueue_flush_outcome jobs c :
  inv c → Forall (flush_ok cfg mode) jobs →
  (enqueue_flush_jobs jobs c).2 = Ok tt ∨
  (enqueue_flush_jobs jobs c).2 = Raise QueueBackpressureError.
Proof.
  intros Hc Hj. revert c Hc. induction Hj as [|job jobs Hj Hjs IH]; intros c Hc; [by left|].
  cbn [enqueue_flush_jobs].
  pose proof (keeps_enqueue_job cfg mode busy (FlushJob job) true Hj c Hc) as H1.
  destruct (enqueue_job_critical (FlushJob job) c) as [q [E|E]]; rewrite E in H1;
    rewrite (bind_ok _ _ _ _ _ (attempt_eq _ _ _ _ E)); [by apply IH|]. right.
  assert (Forall (flush_ok cfg mode) (job :: jobs)) as Hall by by constructor.
  pose proof (release_pending_ok (job :: jobs) (set_queue q c) H1 Hall) as Hr.
  destruct (release_pending (job :: jobs) (set_queue q c)) as [c2 [[]|e]] eqn:Er; [|done].
  by rewrite (bind_ok _ _ _ _ _ Er).
Qed.

(** *** [put] *)

Lemma run_warn c : ∃ b, maybe_warn_cache_not_started c = (set_warned b c, Ok tt).
Proof.
  assert (set_warned (c_warned c) c = c) as He by by destruct c.
  unfold maybe_warn_cache_not_started, mbind, M_bind, get_state.
  destruct (c_warned c) eqn:E; [by eexists; rewrite He|]. 
  repeat case_match; try (exists true; done); by (eexists; rewrite He).
Qed.

Lemma run_validate ttl c :
  validate_explicit_ttl ttl c = (c, Ok tt) ∨
  (∃ t, ttl = TTL_SECONDS t ∧ fle t fzero = true ∧
        validate_explicit_ttl ttl c
        = (c, Raise (ValidationError "ttl must be positive when provided"))).
Proof.
  destruct ttl as [| |t]; [by left..|]. simpl. destruct (fle t fzero) eqn:E; [right|by left]. eauto.
Qed.

(** The effect of a [put] that stores its value. *)
Definition put_stored c c' key value (ttl : ttl_arg) : Prop :=
  ∃ sh entry evicted,
    c_shards c !! slot c key = Some sh ∧
    (∀ k, view c' k = put_visible (clock_now (c_clock c)) key entry evicted (view c) k) ∧
    put_evicts key sh evicted ∧ e_value entry = value ∧
    (ttl_live (cfg_default_ttl (c_config c)) ttl (clock_now (c_clock c)) = true →
       live_value (clock_now (c_clock c)) (Some entry) = Some value) ∧
    sd_data (c_source c') = match c_write_mode c with
                            | WRITE_THROUGH => dict_set (sd_data (c_source c)) key value
                            | _ => sd_data (c_source c)
                            end.

(** What [put] does, outcome by outcome. *)
Definition put_outcome c key value ttl (c' : Cache K V P) (r : result unit) : Prop :=
  match r with
  | Ok _ => put_stored c c' key value ttl
  | Raise QueueBackpressureError => c_write_mode c = WRITE_BACK ∧ put_stored c c' key value ttl
  | Raise (ValidationError _) =>
      (∃ t, ttl = TTL_SECONDS t ∧ fle t fzero = true) ∧
      (∀ k, view c' k = view c k) ∧ c_source c' = c_source c
  | Raise (OSError _) =>
      c_write_mode c = WRITE_THROUGH ∧ (∀ k, view c' k = view c k) ∧
      sd_data (c_source c') = sd_data (c_source c)
  | Raise _ => False
  end.

Lemma view_put_shard c key sh sh' entry evicted :
  inv c → c_shards c !! slot c key = Some sh →
  (∀ k, visible (clock_now (c_clock c)) sh' k
        = put_visible (clock_now (c_clock c)) key entry evicted
            (visible (clock_now (c_clock c)) sh) k) →
  put_evicts key sh evicted →
  ∀ k, view (with_shard (slot c key) sh' c) k
       = put_visible (clock_now (c_clock c)) key entry evicted (view c) k.
Proof.
  intros Hc Hsh Hv Hev k. rewrite view_with_shard by (by eapply lookup_lt_Some).
  case_decide as Hd.
  - rewrite Hv. unfold put_visible. case_decide; [done|]. case_decide; [done|].
    symmetry. apply view_slot. by rewrite Hd.
  - unfold put_visible. case_decide as He.
    + exfalso. apply Hd. destruct (pe_stored _ _ _ Hev k He) as [->|Hm]; [done|].
      apply (ci_shards _ _ _ _ Hc) in Hsh as [_ Hs].
      apply dict_mem_keys, (ss_live _ _ _ _ _ _ _ Hs) in Hm. by apply (slot_routed c key k).
    + case_decide; [|done]. subst k. by destruct Hd.
Qed.

Lemma run_put c key value ttl :
  inv c → is_open c →
  let '(c', r) := cache_put key value ttl c in put_outcome c key value ttl c' r.
Proof.
  intros Hc0 Ho. unfold cache_put. rewrite (bind_ok _ _ c c tt) by by apply run_open.
  destruct (run_warn c) as [b Eb]. rewrite (bind_ok _ _ _ _ _ Eb).
  set (c1 := set_warned b c). assert (inv c1) as Hc by by apply (inv_ext _ _ _ c).
  assert (∀ k, view c1 k = view c k) as Hview by done.
  destruct (run_validate ttl c1) as [Ev|(t & Et & Ht & Ev)];
    [rewrite (bind_ok _ _ _ _ _ Ev)|by rewrite (bind_raise _ _ _ _ _ Ev); simpl; eauto].
  rewrite (bind_ok _ _ c1 c1 c1) by done. rewrite (bind_ok _ _ c1 c1 _) by apply run_now.
  destruct (slot_lookup c1 key Hc) as [sh Hsh].
  pose proof (put_locked_visible (c_write_mode c1) (cfg_default_ttl (c_config c1))
    (cfg_write_back_retry_count (c_config c1)) (clock_now (c_clock c1)) key value ttl sh (c_source c1)
    (slot_shard_wf c1 key sh Hc Hsh)) as Hp.
  pose proof (returns_put_locked cfg mode busy c1 (clock_now (c_clock c1)) key value ttl Hc c1 Hc) as [Hi Hj].
  destruct (put_locked _ _ _ _ _ _ _ (sh, c_source c1)) as [[sh' src'] r] eqn:Ep.
  pose proof (run_lock_src c1 key sh _ sh' src' r Hc Hsh Ep) as Erun. rewrite Erun in Hi, Hj.
  cbn [fst snd] in Hi, Hj. destruct r as [job|e].
  - rewrite (bind_ok _ _ _ _ _ Erun). destruct Hp as (entry & ev & Hv & Hev & Hval & Hl & Hjm & Hd).
    set (c2 := set_source src' (with_shard (slot c1 key) sh' c1)) in *.
    assert (∀ c', same_entries c2 c' → put_stored c c' key value ttl) as Hst.
    { intros c' Hse. exists sh, entry, ev. split_conj; try done.
      - intros k. rewrite (same_entries_view c2 c' k Hse).
        by apply (view_put_shard c1 key sh sh' entry ev).
      - by rewrite (se_source _ _ Hse). }
    destruct job as [job|]; [|by apply Hst].
    assert (Forall (flush_ok cfg mode) [job]) as Hjobs by auto.
    pose proof (enqueue_flush_outcome [job] c2 Hi Hjobs) as Hout.
    pose proof (same_entries_enqueue_flush c2 [job] c2 (same_entries_refl c2)) as Hse.
    destruct (enqueue_flush_jobs [job] c2) as [c3 r]. cbn [fst snd] in *.
    destruct Hout as [-> | ->]; simpl; [by apply Hst|]. split; [by apply Hjm|by apply Hst].
  - rewrite (bind_raise _ _ _ _ _ Erun). destruct Hp as (Hm & -> & Hv & Hd). simpl.
    split_conj; [done| |done]. intros k. rewrite <- Hview. by apply (view_same_shard c1 key sh).
Qed.

(** Which result it is: a closed cache, a lifetime that is not positive, a failing source in write-through mode and a full queue
    in write-back mode make [put] raise, in this order, and nothing else does. *)
Definition put_result c (ttl : ttl_arg) : result unit :=
  let by_mode :=
    match c_write_mode c with
    | WRITE_THROUGH =>
        if 0 <? sd_failures_remaining (c_source c) then Raise (OSError "injected SlowDictBackend failure") else Ok tt
    | WRITE_BACK => if queue_full (c_queue c) then Raise QueueBackpressureError else Ok tt
    | CACHE_ONLY => Ok tt
    end in
  match c_state c with
  | CLOSING | CLOSED => Raise (RuntimeError "cannot operate on a closed cache")
  | CREATED | STARTED =>
      match ttl with
      | TTL_SECONDS t => if fle t fzero then Raise (ValidationError "ttl must be positive when provided") else by_mode
      | TTL_NONE | TTL_UNSET => by_mode
      end
  end.

(** What it does to the queue: a put that returns in write-back mode has queued its flush job. *)
Definition put_queued c key value (c' : Cache K V P) (r : result unit) : Prop :=
  match r, c_write_mode c with
  | Ok _, WRITE_BACK =>
      ∃ job, q_items (c_queue c') = q_items (c_queue c) ++ [FlushJob job] ∧
             f_key job = key ∧ f_value job = value ∧ f_operation job = "put"
  | _, _ => q_items (c_queue c') = q_items (c_queue c)
  end.

Lemma put_value_result key value (src : SlowDictBackend K V) :
  (put_value key value src).2 =
    if 0 <? sd_failures_remaining src then Raise (OSError "injected SlowDictBackend failure") else Ok tt.
Proof.
  unfold put_value, maybe_delay_and_fail, mbind, M_bind, get_state, modify, raise, mret, M_ret.
  destruct (flt fzero (sd_delay src)); cbn; by destruct (0 <? sd_failures_remaining src).
Qed.

Lemma release_items jobs c : q_items (c_queue (release_pending jobs c).1) = q_items (c_queue c).
Proof.
  apply (keeps_for_each (λ c', q_items (c_queue c') = q_items (c_queue c)) jobs); [|done]. intros job _ c1 Hc1.
  unfold with_lock, with_lock_src. destruct (c_shards c1 !! _) as [sh|]; done.
Qed.

Lemma put_validates ttl c :
  c_state c ≠ CLOSING → c_state c ≠ CLOSED →
  match (validate_explicit_ttl ttl c).2 with
  | Raise e => put_result c ttl = Raise e
  | Ok _ => put_result c ttl = put_result c TTL_NONE
  end.
Proof.
  intros H1 H2. unfold put_result. destruct (c_state c); try done; destruct ttl as [| |t]; try done; cbn;
    by destruct (fle t fzero).
Qed.

Lemma run_put_result c key value ttl :
  inv c →
  let '(c', r) := cache_put key value ttl c in
  r = put_result c ttl ∧ put_queued c key value c' r ∧ (¬ is_open c → c' = c).
Proof.
  intros Hc0. unfold cache_put.
  assert (is_open c ∨ c_state c = CLOSING ∨ c_state c = CLOSED) as [Ho|Hcl]
    by (unfold is_open; destruct (c_state c); tauto).
  2: { unfold require_not_closed, put_result, mbind, M_bind, get_state. by destruct Hcl as [-> | ->]. }
  rewrite (bind_ok _ _ c c tt) by by apply run_open.
  destruct (run_warn c) as [b Eb]. rewrite (bind_ok _ _ _ _ _ Eb).
  set (c1 := set_warned b c). assert (inv c1) as Hc by by apply (inv_ext _ _ _ c).
  pose proof (put_validates ttl c1 ltac:(destruct Ho as [E|E]; cbn; congruence) ltac:(destruct Ho as [E|E]; cbn; congruence)) as Hval.
  destruct (run_validate ttl c1) as [Ev|(t & Et & Ht & Ev)]; rewrite Ev in Hval; cbn [snd] in Hval;
    [rewrite (bind_ok _ _ _ _ _ Ev)|rewrite (bind_raise _ _ _ _ _ Ev); by split_conj].
  rewrite (bind_ok _ _ c1 c1 c1) by done. rewrite (bind_ok _ _ c1 c1 _) by apply run_now.
  destruct (slot_lookup c1 key Hc) as [sh Hsh].
  pose proof (returns_put_locked cfg mode busy c1 (clock_now (c_clock c1)) key value ttl Hc c1 Hc) as [Hi Hj].
  destruct (put_locked (c_write_mode c1) (cfg_default_ttl (c_config c1)) (cfg_write_back_retry_count (c_config c1))
    (clock_now (c_clock c1)) key value ttl (sh, c_source c1)) as [[sh' src'] r] eqn:Ep.
  pose proof (run_lock_src c1 key sh _ sh' src' r Hc Hsh Ep) as Erun. rewrite Erun in Hi, Hj.
  cbn [fst snd] in Hi, Hj. change (put_result c1) with (put_result c) in Hval. rewrite Hval.
  assert (put_result c TTL_NONE = match c_write_mode c with
    | WRITE_THROUGH => if 0 <? sd_failures_remaining (c_source c) then Raise (OSError "injected SlowDictBackend failure") else Ok tt
    | WRITE_BACK => if queue_full (c_queue c) then Raise QueueBackpressureError else Ok tt
    | CACHE_ONLY => Ok tt end) as -> by (unfold put_result; by destruct Ho as [-> | ->]).
  unfold put_queued. unfold put_locked in Ep. change (c_write_mode c1) with (c_write_mode c) in Ep.
  destruct (put_expire _ key sh) as [sh1 ex]. destruct (c_write_mode c) eqn:Em.
  - (* cache only *)
    destruct (put_store _ _ _ _ _ _ _ _) as [sh2 v]. injection Ep as <- <- <-.
    rewrite (bind_ok _ _ _ _ _ Erun). by split_conj.
  - (* write through *)
    pose proof (put_value_result key value (c_source c1)) as Hpv. change (c_source c1) with (c_source c) in *.
    destruct (put_value key value (c_source c)) as [src1 r1]. cbn [snd] in Hpv. subst r1.
    destruct (0 <? sd_failures_remaining (c_source c)).
    + injection Ep as <- <- <-. rewrite (bind_raise _ _ _ _ _ Erun). by split_conj.
    + destruct (put_store _ _ _ _ _ _ _ _) as [sh2 v]. injection Ep as <- <- <-.
      rewrite (bind_ok _ _ _ _ _ Erun). by split_conj.
  - (* write back *)
    destruct (put_store _ _ _ _ _ _ _ _) as [sh2 v]. injection Ep as <- <- <-.
    rewrite (bind_ok _ _ _ _ _ Erun). set (job := put_job _ _ _ _ _). set (c2 := set_source _ _) in *.
    assert (Forall (flush_ok cfg mode) [job]) as Hjobs by auto.
    pose proof (enqueue_flush_outcome [job] c2 Hi Hjobs) as Hout. cbn [enqueue_flush_jobs] in Hout |- *.
    unfold enqueue_job, queue_put, attempt, mbind, M_bind in Hout |- *. change (c_queue c2) with (c_queue c) in *.
    destruct (queue_full (c_queue c)); cbn [raise mret M_ret fst snd] in Hout |- *.
    + set (c3 := set_queue _ c2) in *. pose proof (release_items [job] c3) as Hrel.
      destruct (release_pending [job] c3) as [c4 [u|e]]; cbn [fst snd raise] in *.
      * by split_conj.
      * destruct Hout as [|Hout]; [done|]. rewrite Hout. by split_conj.
    + split_conj; [done| |by intros []]. exists job. by split_conj.
Qed.

(** *** [delete] *)

(** The entry stored for a key, expired or not. *)
Definition stored c key : option (CacheEntry K V) :=
  sh ← c_shards c !! slot c key; dict_get (sh_backend sh) key.

Definition deleted c c' key : Prop :=
  stored c' key = None ∧
  (∀ k, view c' k = if decide (key = k) then None else view c k) ∧
  sd_data (c_source c') = match c_write_mode c with
                          | WRITE_THROUGH => dict_pop (sd_data (c_source c)) key
                          | _ => sd_data (c_source c)
                          end.

Lemma same_entries_stored c0 c k : same_entries c0 c → stored c k = stored c0 k.
Proof.
  intros [Hb _ _ _ _ _]. unfold stored, slot, shard_for.
  assert (length (c_shards c) = length (c_shards c0)) as Hl
    by by rewrite <- (length_fmap sh_backend), Hb, length_fmap.
  rewrite Hl. set (i := Z.to_nat _).
  assert (sh_backend <$> (c_shards c !! i) = sh_backend <$> (c_shards c0 !! i)) as Hi
    by by rewrite <- !list_lookup_fmap, Hb.
  destruct (c_shards c !! i), (c_shards c0 !! i); simplify_option_eq; congruence.
Qed.

Definition delete_result c key (c' : Cache K V P) (r : result bool) : Prop :=
  match r with
  | Ok existed => existed = is_not_none (stored c key) ∧ deleted c c' key
  | Raise QueueBackpressureError => c_write_mode c = WRITE_BACK ∧ deleted c c' key
  | Raise (OSError _) =>
      c_write_mode c = WRITE_THROUGH ∧ (∀ k, view c' k = view c k) ∧
      sd_data (c_source c') = sd_data (c_source c)
  | Raise _ => False
  end.

Lemma with_shard_id i sh c : c_shards c !! i = Some sh → with_shard i sh c = c.
Proof. intros Hi. unfold with_shard. rewrite list_insert_id by done. by destruct c. Qed.

Lemma run_delete c key :
  inv c → is_open c → let '(c', r) := cache_delete key c in delete_result c key c' r.
Proof.
  intros Hc Ho. unfold cache_delete. rewrite (bind_ok _ _ c c tt) by by apply run_open.
  rewrite (bind_ok _ _ c c c) by done. destruct (slot_lookup c key Hc) as [sh Hsh].
  pose proof (delete_outcome (c_write_mode c) (cfg_write_back_retry_count (c_config c)) key sh
    (c_source c)) as Hd.
  pose proof (returns_delete_locked cfg mode busy c key Hc c Hc) as [Hi Hj].
  destruct (delete_locked _ _ _ (sh, c_source c)) as [[sh' src'] r] eqn:Ep.
  pose proof (run_lock_src c key sh _ sh' src' r Hc Hsh Ep) as Erun. rewrite Erun in Hi, Hj.
  cbn [fst snd] in Hi, Hj. destruct r as [[existed job]|e].
  - rewrite (bind_ok _ _ _ _ _ Erun). destruct Hd as (-> & Hb & Hjm & Hsrc).
    set (c2 := set_source src' (with_shard (slot c key) sh' c)) in *.
    assert (∀ c', same_entries c2 c' → deleted c c' key) as Hst.
    { intros c' Hse. unfold deleted. split_conj.
      - rewrite (same_entries_stored c2 c' key Hse). unfold stored.
        change (slot c2 key) with (slot (with_shard (slot c key) sh' c) key).
        rewrite slot_with_shard. simpl. rewrite list_lookup_insert_eq by (by eapply lookup_lt_Some). simpl.
        by rewrite Hb, dict_get_pop_eq.
      - intros k. rewrite (same_entries_view c2 c' k Hse).
        change (view c2 k) with (view (with_shard (slot c key) sh' c) k).
        rewrite view_with_shard by (by eapply lookup_lt_Some). unfold visible. rewrite Hb, dict_get_pop.
        case_decide as Hs; case_decide as Hk; try done.
        + symmetry. apply view_slot. by rewrite Hs.
        + by subst k.
      - by rewrite (se_source _ _ Hse). }
    assert (is_not_none (stored c key) = dict_mem (sh_backend sh) key) as Hex
      by by unfold stored; rewrite Hsh.
    destruct job as [job|]; [|by rewrite <- Hex; split; [|apply Hst]].
    assert (Forall (flush_ok cfg mode) [job]) as Hjobs by auto.
    pose proof (enqueue_flush_outcome [job] c2 Hi Hjobs) as Hout.
    pose proof (same_entries_enqueue_flush c2 [job] c2 (same_entries_refl c2)) as Hse.
    destruct (enqueue_flush_jobs [job] c2) as [c3 r] eqn:Ee. cbn [fst snd] in *.
    destruct Hout as [-> | ->].
    + rewrite (bind_ok _ _ _ _ _ Ee). simpl. rewrite Hex. split; [done|by apply Hst].
    + rewrite (bind_raise _ _ _ _ _ Ee). simpl. split; [by apply Hjm|by apply Hst].
  - rewrite (bind_raise _ _ _ _ _ Erun). destruct Hd as (Hm & -> & -> & Hd). simpl.
    split_conj; [done| |done]. intros k. by rewrite with_shard_id.
Qed.

(** *** Loops over the shards *)

Definition total_size c : Z := py_sum ((λ sh, backend_size (sh_backend sh)) <$> c_shards c).

Lemma run_lock_at {A} i (f : CacheShard K V P → CacheShard K V P * A) c :
  inv c → 0 ≤ i < cfg_shard_count cfg →
  ∃ sh, c_shards c !! Z.to_nat i = Some sh ∧ shard_wf sh ∧
        with_lock i f c = (with_shard (Z.to_nat i) (f sh).1 c, Ok (f sh).2).
Proof.
  intros Hc Hi. destruct (lookup_lt_is_Some_2 (c_shards c) (Z.to_nat i)) as [sh Hsh].
  { rewrite (ci_length _ _ _ _ Hc). lia. }
  exists sh. split_conj; [done|by apply (ci_shards _ _ _ _ Hc) in Hsh as [? _]|].
  unfold with_lock, with_lock_src, shard_slot. rewrite (proj2 (Z.leb_le 0 _)) by lia.
  rewrite Hsh. by destruct (f sh).
Qed.

(** What one pass of expiration does to a shard, if there is one at the position. *)
Definition expire_at c (i : nat) : option (CacheShard K V P) :=
  (λ sh, (expire_shard_locked (clock_now (c_clock c)) sh).1) <$> c_shards c !! i.

Lemma total_size_with_shard i sh sh' c :
  c_shards c !! i = Some sh →
  total_size (with_shard i sh' c)
  = total_size c - backend_size (sh_backend sh) + backend_size (sh_backend sh').
Proof. intros Hi. unfold total_size. simpl. by rewrite (py_sum_insert _ _ _ sh). Qed.

Lemma with_shard_lookup i sh c j :
  (i < length (c_shards c))%nat →
  c_shards (with_shard i sh c) !! j = if decide (j = i) then Some sh else c_shards c !! j.
Proof.
  intros Hi. simpl. case_decide; [subst; by rewrite list_lookup_insert_eq|].
  by rewrite list_lookup_insert_ne.
Qed.

Lemma expire_at_cons c i l sh j :
  0 ≤ i → i ∉ l → c_shards c !! Z.to_nat i = Some sh →
  let c1 := with_shard (Z.to_nat i) (expire_shard_locked (clock_now (c_clock c)) sh).1 c in
  (if decide (Z.of_nat j ∈ l) then expire_at c1 j else c_shards c1 !! j)
  = if decide (Z.of_nat j ∈ i :: l) then expire_at c j else c_shards c !! j.
Proof.
  intros Hi Hil Hsh c1. unfold expire_at, c1. rewrite with_shard_lookup by (by eapply lookup_lt_Some).
  destruct (decide (j = Z.to_nat i)) as [->|Hne].
  - rewrite Z2Nat.id by done. rewrite decide_False, decide_True by (done || apply list_elem_of_here).
    by rewrite Hsh.
  - destruct (decide (Z.of_nat j ∈ l)) as [Hl|Hl].
    + by rewrite decide_True by (by apply list_elem_of_further).
    + rewrite decide_False; [done|]. intros [Hj|Hj]%elem_of_cons; [|done]. apply Hne. lia.
Qed.

Lemma run_expire_shards l c :
  inv c → NoDup l → (∀ i, i ∈ l → 0 ≤ i < cfg_shard_count cfg) →
  ∃ c' n, expire_shards l c = (c', Ok n) ∧ c_clock c' = c_clock c ∧
    (∀ i, c_shards c' !! i = if decide (Z.of_nat i ∈ l) then expire_at c i else c_shards c !! i) ∧
    n = total_size c - total_size c'.
Proof.
  revert c. induction l as [|i l IH]; intros c Hc Hnd Hl.
  { exists c, 0. split_conj; [done..| |lia]. intros i. by rewrite decide_False by set_solver. }
  apply NoDup_cons in Hnd as [Hil Hnd].
  pose proof (keeps_expire_shard cfg mode busy i c Hc) as Hc1. unfold expire_shard in Hc1.
  rewrite (bind_ok _ _ _ _ _ (run_now c)) in Hc1.
  destruct (run_lock_at i (expire_shard_locked (clock_now (c_clock c))) c Hc) as (sh & Hsh & Hw & E);
    [apply Hl; set_solver|].
  rewrite E in Hc1. cbn [fst] in Hc1.
  destruct (IH _ Hc1 Hnd) as (c' & n & E' & Hcl & Hlk & ->); [set_solver|].
  cbn [expire_shards]. unfold expire_shard at 1.
  rewrite (bind_ok _ _ c (with_shard (Z.to_nat i) (expire_shard_locked (clock_now (c_clock c)) sh).1 c)
    (expire_shard_locked (clock_now (c_clock c)) sh).2)
    by by rewrite (bind_ok _ _ _ _ _ (run_now c)).
  rewrite (bind_ok _ _ _ _ _ E'). eexists _, _. split_conj; [done|done| |].
  - intros j. rewrite Hlk. apply expire_at_cons; [apply Hl, list_elem_of_here|done..].
  - rewrite (total_size_with_shard _ sh) by done.
    rewrite (expire_keys_sizes _ 0 sh Hw : (expire_shard_locked _ sh).2 = _).
    unfold expire_shard_locked. lia.
Qed.

Lemma shard_indices_nodup c : NoDup (shard_indices c).
Proof. unfold shard_indices, py_range. apply NoDup_fmap; [apply Nat2Z.inj'|apply NoDup_seq]. Qed.

Lemma shard_indices_elem c i sh : c_shards c !! i = Some sh → Z.of_nat i ∈ shard_indices c.
Proof. intros Hi%lookup_lt_Some. apply elem_of_py_range. lia. Qed.

Lemma run_expire_all c :
  inv c → is_open c →
  ∃ c' n, expire_all c = (c', Ok n) ∧ c_clock c' = c_clock c ∧
    (∀ i, c_shards c' !! i = expire_at c i) ∧ n = total_size c - total_size c'.
Proof.
  intros Hc Ho. unfold expire_all. rewrite (bind_ok _ _ c c tt) by by apply run_open.
  rewrite (bind_ok _ _ c c c) by done.
  destruct (run_expire_shards (shard_indices c) c Hc (shard_indices_nodup c)) as (c' & n & E & Hcl & Hlk & Hn).
  { intros i Hi. by apply (shard_indices_ok cfg mode busy c). }
  exists c', n. split_conj; try done. intros i. rewrite Hlk. unfold expire_at.
  destruct (c_shards c !! i) as [sh|] eqn:Hi.
  - rewrite decide_True by by eapply shard_indices_elem. done.
  - by case_decide.
Qed.

(** The live entries of a shard, as [dump] lists them. *)
Definition live_snapshots (t : float) sh : list (EntrySnapshot K V) :=
  (λ e, snapshot e t) <$> filter (λ e, is_expired e t = false) (backend_entries (sh_backend sh)).
Definition live_at c (i : Z) : list (EntrySnapshot K V) :=
  from_option (live_snapshots (clock_now (c_clock c))) [] (c_shards c !! Z.to_nat i).

Lemma run_dump_shards l c :
  inv c → NoDup l → (∀ i, i ∈ l → 0 ≤ i < cfg_shard_count cfg) →
  ∃ c', dump_shards l c = (c', Ok (mjoin (live_at c <$> l))) ∧ c_clock c' = c_clock c ∧
    (∀ i, c_shards c' !! i = if decide (Z.of_nat i ∈ l) then expire_at c i else c_shards c !! i).
Proof.
  revert c. induction l as [|i l IH]; intros c Hc Hnd Hl.
  { exists c. split_conj; [done..|]. intros i. by rewrite decide_False by set_solver. }
  apply NoDup_cons in Hnd as [Hil Hnd].
  set (t := clock_now (c_clock c)).
  pose proof (keeps_lock cfg mode busy i (dump_locked t) (λ j data sh, dump_inv _ _ _ _ _ t sh) c Hc) as Hc1.
  destruct (run_lock_at i (dump_locked t) c Hc) as (sh & Hsh & Hw & E); [apply Hl; set_solver|].
  rewrite E in Hc1. cbn [fst] in Hc1. destruct (dump_locked_eq t sh) as [Ed1 Ed2].
  destruct (IH _ Hc1 Hnd) as (c' & E' & Hcl & Hlk); [set_solver|].
  cbn [dump_shards]. rewrite (bind_ok _ _ _ _ _ (run_now c)), (bind_ok _ _ _ _ _ E), (bind_ok _ _ _ _ _ E').
  assert (∀ j, j ∈ l → live_at (with_shard (Z.to_nat i) (dump_locked t sh).1 c) j = live_at c j) as Hlive.
  { intros j Hj. unfold live_at. rewrite with_shard_lookup by (by eapply lookup_lt_Some).
    rewrite decide_False; [done|]. pose proof (Hl i ltac:(set_solver)). pose proof (Hl j ltac:(set_solver)).
    intros Hji. apply Hil. by replace i with j by lia. }
  exists c'. split_conj; [|done|].
  - unfold mret, M_ret. do 2 f_equal. cbn [fmap list_fmap mjoin list_join]. f_equal.
    + rewrite Ed2. unfold live_at, live_snapshots. by rewrite Hsh.
    + f_equal. apply list_fmap_ext. intros ? j Hj. apply Hlive. by eapply list_elem_of_lookup_2.
  - intros j. rewrite Hlk, Ed1. apply expire_at_cons; [apply Hl, list_elem_of_here|done..].
Qed.

Lemma run_dump limit c :
  inv c → is_open c →
  ∃ c', cache_dump limit c
        = (c', Ok (let all := mjoin (live_at c <$> shard_indices c) in
                   match limit with Some n => py_take n all | None => all end)) ∧
    c_clock c' = c_clock c ∧ ∀ i, c_shards c' !! i = expire_at c i.
Proof.
  intros Hc Ho. unfold cache_dump. rewrite (bind_ok _ _ c c tt) by by apply run_open.
  rewrite (bind_ok _ _ c c c) by done.
  destruct (run_dump_shards (shard_indices c) c Hc (shard_indices_nodup c)) as (c' & E & Hcl & Hlk).
  { intros i Hi. by apply (shard_indices_ok cfg mode busy c). }
  rewrite (bind_ok _ _ _ _ _ E). exists c'. split_conj; [done..|]. intros i. rewrite Hlk. unfold expire_at.
  destruct (c_shards c !! i) as [sh|] eqn:Hi.
  - rewrite decide_True by by eapply shard_indices_elem. done.
  - by case_decide.
Qed.

Lemma expired_length c c' :
  (∀ i, c_shards c' !! i = expire_at c i) → length (c_shards c') = length (c_shards c).
Proof.
  intros Hlk. apply Nat.le_antisymm; apply lookup_ge_None.
  - rewrite Hlk. unfold expire_at. by rewrite (lookup_ge_None_2 (c_shards c)).
  - specialize (Hlk (length (c_shards c'))). rewrite lookup_ge_None_2 in Hlk by done.
    unfold expire_at in Hlk. by destruct (c_shards c !! _).
Qed.

(** Expiration of every shard leaves the view alone. *)
Lemma view_expired c c' k :
  inv c → c_clock c' = c_clock c → (∀ i, c_shards c' !! i = expire_at c i) → view c' k = view c k.
Proof.
  intros Hc Hcl Hlk. unfold view, slot, shard_for.
  rewrite (expired_length c c' Hlk).
  set (i := Z.to_nat _). rewrite Hlk, Hcl. unfold expire_at.
  destruct (c_shards c !! i) as [sh|] eqn:E; [|done]. cbn [fmap option_fmap option_map].
  apply expire_shard_visible. by apply (ci_shards _ _ _ _ Hc) in E as [? _].
Qed.

Lemma total_size_expired c c' :
  inv c → (∀ i, c_shards c' !! i = expire_at c i) → total_size c' ≤ total_size c.
Proof.
  intros Hc Hlk. apply py_sum_le_pointwise, Forall2_fmap_2, Forall2_same_length_lookup. split.
  - by apply expired_length.
  - intros i sh' sh Hsh' Hsh. rewrite Hlk in Hsh'. unfold expire_at in Hsh'. rewrite Hsh in Hsh'.
    injection Hsh' as <-. apply (ci_shards _ _ _ _ Hc) in Hsh as [Hw _].
    unfold expire_shard_locked. generalize (expired_keys (backend_entries (sh_backend sh))
      (clock_now (c_clock c))) as keys. generalize 0 as n. intros n keys. revert n sh Hw.
    induction keys as [|key keys IH]; intros n sh Hw; [done|]. cbn [expire_keys].
    pose proof (remove_entry_wf key RExpire sh Hw) as Hw1.
    pose proof (remove_entry_size key RExpire sh (sw_core _ Hw)) as Hs.
    destruct (remove_entry_locked key RExpire sh) as [sh1 b]. cbn [fst] in *.
    etransitivity; [by apply IH|]. destruct (dict_mem _ _); lia.
Qed.

(** *** [clear] *)

Lemma run_lock_src_at {A} i (m : M (CacheShard K V P * SlowDictBackend K V) A) c :
  inv c → 0 ≤ i < cfg_shard_count cfg →
  ∃ sh, c_shards c !! Z.to_nat i = Some sh ∧
        with_lock_src i m c
        = (set_source (m (sh, c_source c)).1.2 (with_shard (Z.to_nat i) (m (sh, c_source c)).1.1 c),
           (m (sh, c_source c)).2).
Proof.
  intros Hc Hi. destruct (lookup_lt_is_Some_2 (c_shards c) (Z.to_nat i)) as [sh Hsh].
  { rewrite (ci_length _ _ _ _ Hc). lia. }
  exists sh. split; [done|]. unfold with_lock_src, shard_slot. rewrite (proj2 (Z.leb_le 0 _)) by lia.
  rewrite Hsh. by destruct (m (sh, c_source c)) as [[sh' src'] r].
Qed.

Lemma view_shrinks i sh sh' c k :
  c_shards c !! i = Some sh →
  (∀ x, dict_get (sh_backend sh') x = dict_get (sh_backend sh) x ∨
        dict_get (sh_backend sh') x = None) →
  view (with_shard i sh' c) k = view c k ∨ view (with_shard i sh' c) k = None.
Proof.
  intros Hi Hx. rewrite view_with_shard by (by eapply lookup_lt_Some). case_decide as Hs; [|by left].
  unfold visible. destruct (Hx k) as [-> | ->]; [left|by right].
  unfold view. by rewrite Hs, Hi.
Qed.

Lemma run_clear_shards l c :
  inv c → (∀ i, i ∈ l → 0 ≤ i < cfg_shard_count cfg) →
  let '(c', r) := clear_shards l c in
  c_clock c' = c_clock c ∧ length (c_shards c') = length (c_shards c) ∧
  (∀ k, view c' k = view c k ∨ view c' k = None) ∧
  (∀ i, Z.of_nat i ∉ l → c_shards c' !! i = c_shards c !! i) ∧
  match r with
  | Ok _ => ∀ i sh, c_shards c' !! i = Some sh → Z.of_nat i ∈ l → sh_backend sh = []
  | Raise e => mode = WRITE_THROUGH ∧ e = OSError "injected SlowDictBackend failure"
  end.
Proof.
  revert c. induction l as [|i l IH]; intros c Hc Hl.
  { cbv beta iota delta [clear_shards mret M_ret]. split_conj; try done; [by left|].
    intros i sh _ Hi. by apply not_elem_of_nil in Hi. }
  cbn [clear_shards]. rewrite (bind_ok _ _ c c c) by done.
  set (m := clear_locked (c_write_mode c) (cfg_write_back_retry_count (c_config c))).
  destruct (run_lock_src_at i m c Hc) as (sh & Hsh & E); [apply Hl, list_elem_of_here|].
  pose proof (returns_lock_clear cfg mode busy c i Hc) as Hk. fold m in Hk.
  specialize (Hk c Hc). rewrite E in Hk. cbn [fst] in Hk.
  pose proof (clear_locked_shrinks (c_write_mode c) (cfg_write_back_retry_count (c_config c))
    (sh, c_source c)) as Hs.
  pose proof (clear_locked_empty (c_write_mode c) (cfg_write_back_retry_count (c_config c))
    (sh, c_source c)) as He.
  fold m in Hs, He. destruct (m (sh, c_source c)) as [[sh1 src1] r] eqn:Em. destruct Hs as [Hs Hr].
  cbn [fst snd] in *. set (c1 := set_source src1 (with_shard (Z.to_nat i) sh1 c)) in *.
  assert (∀ k, view c1 k = view c k ∨ view c1 k = None) as Hv
    by by intros k; apply (view_shrinks _ sh sh1).
  assert (length (c_shards c1) = length (c_shards c)) as Hlen by by simpl; rewrite length_insert.
  assert (∀ j, Z.of_nat j ≠ i → c_shards c1 !! j = c_shards c !! j) as Hne.
  { intros j Hj. simpl. apply list_lookup_insert_ne.
    pose proof (Hl i (list_elem_of_here _ _)). lia. }
  destruct r as [jobs|e].
  - rewrite (bind_ok _ _ _ _ _ E). specialize (IH c1 Hk (λ j Hj, Hl j (list_elem_of_further _ _ _ Hj))).
    destruct (clear_shards l c1) as [c2 r2] eqn:E2. destruct IH as (Hcl & Hlen2 & Hv2 & Hne2 & Hr2).
    assert (∀ k, view c2 k = view c k ∨ view c2 k = None) as Hv12.
    { intros k. destruct (Hv2 k) as [->|]; [apply Hv|by right]. }
    assert (∀ j, Z.of_nat j ∉ i :: l → c_shards c2 !! j = c_shards c !! j) as Hne12.
    { intros j [Hj1 Hj2]%not_elem_of_cons. by rewrite Hne2, Hne. }
    destruct r2 as [jobs2|e].
    + rewrite (bind_ok _ _ _ _ _ E2). cbv beta iota delta [mret M_ret]. split_conj; [done|congruence|done|done|].
      intros j sh2 Hj [Hji|Hjl]%elem_of_cons; [|by eapply Hr2].
      destruct (decide (Z.of_nat j ∈ l)) as [Hjl|Hjl]; [by eapply Hr2|].
      rewrite (Hne2 j Hjl) in Hj. assert (j = Z.to_nat i) as -> by lia.
      simpl in Hj. rewrite list_lookup_insert_eq in Hj by (by eapply lookup_lt_Some).
      injection Hj as <-. by apply (He (sh1, src1) jobs).
    + rewrite (bind_raise _ _ _ _ _ E2). destruct Hr2. split_conj; try done. congruence.
  - rewrite (bind_raise _ _ _ _ _ E). destruct Hr as [Hm ->]. rewrite (ci_mode _ _ _ _ Hc) in Hm.
    split_conj; try done. intros j [Hj1 Hj2]%not_elem_of_cons. by apply Hne.
Qed.

Lemma run_clear c :
  inv c → is_open c →
  let '(c', r) := cache_clear c in
  (∀ k, view c' k = view c k ∨ view c' k = None) ∧
  match r with
  | Ok _ | Raise QueueBackpressureError => total_size c' = 0 ∧ ∀ k, view c' k = None
  | Raise (OSError _) => c_write_mode c = WRITE_THROUGH
  | Raise _ => False
  end.
Proof.
  intros Hc Ho. unfold cache_clear. rewrite (bind_ok _ _ c c tt) by by apply run_open.
  rewrite (bind_ok _ _ c c c) by done.
  assert (∀ i, i ∈ shard_indices c → 0 ≤ i < cfg_shard_count cfg) as Hl
    by (intros i Hi; by apply (shard_indices_ok cfg mode busy c)).
  pose proof (run_clear_shards (shard_indices c) c Hc Hl) as Hrun.
  pose proof (returns_clear_shards cfg mode busy (shard_indices c) Hl c Hc) as [Hi Hj].
  destruct (clear_shards (shard_indices c) c) as [c1 [jobs|e]] eqn:E; cbn [fst snd] in *;
    destruct Hrun as (Hcl & Hlen & Hv & Hne & Hr).
  - rewrite (bind_ok _ _ _ _ _ E). pose proof (enqueue_flush_outcome jobs c1 Hi Hj) as Hout.
    pose proof (same_entries_enqueue_flush c1 jobs c1 (same_entries_refl c1)) as Hse.
    destruct (enqueue_flush_jobs jobs c1) as [c2 r]. cbn [fst snd] in *.
    assert (∀ i sh, c_shards c1 !! i = Some sh → sh_backend sh = []) as Hempty.
    { intros i sh Hsh. apply (Hr i sh Hsh). apply elem_of_py_range.
      apply lookup_lt_Some in Hsh. lia. }
    assert (∀ k, view c2 k = None) as Hnone.
    { intros k. rewrite (same_entries_view c1 c2 k Hse). unfold view.
      destruct (c_shards c1 !! slot c1 k) as [sh|] eqn:Es; [|done]. unfold visible.
      by rewrite (Hempty _ _ Es). }
    assert (total_size c2 = 0) as Hts.
    { trans (py_sum (backend_size <$> (sh_backend <$> c_shards c2))); [by rewrite <- list_fmap_compose|].
      rewrite (se_backends _ _ Hse).
      assert (Forall (λ sh, sh_backend sh = []) (c_shards c1)) as Hf
        by (apply Forall_lookup; intros i sh Hsh; by eapply Hempty).
      clear -Hf. induction Hf as [|sh l Hsh _ IH]; csimpl; [done|]. by rewrite Hsh, IH. }
    split; [by right; rewrite Hnone|]. by destruct Hout as [-> | ->].
  - rewrite (bind_raise _ _ _ _ _ E). split; [done|]. destruct Hr as [Hm ->].
    by rewrite (ci_mode _ _ _ _ Hc).
Qed.
End run.

(** *** The lifecycle state *)

(** Only [start] and [close] change the lifecycle state. *)
Definition same_state (st : LifecycleState) c : Prop := c_state c = st.

Lemma same_state_lock_src {A} st i (m : M (CacheShard K V P * SlowDictBackend K V) A) :
  keeps (same_state st) (with_lock_src i m).
Proof.
  intros c Hc. unfold with_lock_src. destruct (c_shards c !! _) as [sh|]; [|done].
  by destruct (m (sh, c_source c)) as [[sh' src'] r].
Qed.

Lemma same_state_lock {A} st i (f : CacheShard K V P → CacheShard K V P * A) :
  keeps (same_state st) (with_lock i f).
Proof. apply same_state_lock_src. Qed.

Lemma same_state_enqueue_flush st jobs : keeps (same_state st) (enqueue_flush_jobs jobs).
Proof.
  induction jobs as [|job jobs IH]; cbn [enqueue_flush_jobs]; [apply keeps_ret|].
  apply keeps_bind.
  - apply keeps_attempt. intros c Hc. by destruct (enqueue_job_critical (FlushJob job) c) as [q [-> | ->]].
  - intros [ok|e]; [done|]. destruct e; try apply keeps_raise.
    apply keeps_bind; [|intros _; apply keeps_raise].
    apply keeps_for_each. intros j _. apply same_state_lock.
Qed.

Lemma same_state_put st key value ttl : keeps (same_state st) (cache_put key value ttl).
Proof.
  unfold cache_put. apply keeps_bind.
  { apply keeps_bind; [apply keeps_get|]. intros c. destruct (c_state c); apply keeps_ret || apply keeps_raise. }
  intros _. apply keeps_bind; [intros c Hc; by destruct (run_warn c) as [b ->]|]. intros _.
  apply keeps_bind.
  { intros c Hc. by destruct (run_validate ttl c) as [-> | (t & _ & _ & ->)]. }
  intros _. apply keeps_bind; [apply keeps_get|]. intros c. apply keeps_bind; [by intros c' Hc|].
  intros t. apply keeps_bind; [apply same_state_lock_src|].
  intros [job|]; [apply same_state_enqueue_flush|apply keeps_ret].
Qed.

Lemma put_keeps_state key value ttl c : c_state (cache_put key value ttl c).1 = c_state c.
Proof. by apply same_state_put. Qed.
End view.
