(* ===== verification/CacheOnly.v ===== *)
(** Caches in cache-only mode, the mode of the command line and of the workload runner:
    [put] and [get] as changes of one shard, and what they do to the stored entries. *)

From stdpp Require Import base tactics numbers option strings sets list relations.
From S2P Require Import Prelude PyDict PyFloat PyMonad Config Entry Policies PolicyLaws.
From S2P Require Import Storage Jobs Shard ShardInv ShardSpec Cache CacheInv CacheSafety.
From S2P Require Import Reach CacheSpec.
Local Open Scope string_scope.
Local Open Scope list_scope.
Local Open Scope Z_scope.

Section plain.
Context {K V P : Type} `{EqDecision K} `{KeyHash K} `{PyNone V}
  `{HP : EvictionPolicy K P} `{!PolicyLaws K P}.
Implicit Types (c : Cache K V P) (sh : CacheShard K V P) (key k : K) (value : V).

(** The critical section of [put] in cache-only mode. *)
Definition put_plain (dttl : option float) (now : float) key value (ttl : ttl_arg) sh
    : CacheShard K V P :=
  (put_store CACHE_ONLY dttl now key value ttl (put_expire now key sh).2 (put_expire now key sh).1).1.

Lemma put_locked_plain dttl n now key value ttl sh src :
  put_locked CACHE_ONLY dttl n now key value ttl (sh, src)
  = ((put_plain dttl now key value ttl sh, src), Ok None).
Proof.
  unfold put_locked, put_plain. destruct (put_expire now key sh) as [sh1 ex]. simpl.
  by destruct (put_store CACHE_ONLY dttl now key value ttl ex sh1).
Qed.

(** A lifetime [put] accepts. *)
Definition ttl_ok (ttl : ttl_arg) : Prop :=
  match ttl with TTL_SECONDS t => fle t fzero = false | _ => True end.

(** A shard that has room takes a new key without evicting. *)
Lemma put_plain_room dttl now key value ttl sh :
  dict_get (sh_backend sh) key = None → backend_size (sh_backend sh) < sh_capacity sh →
  put_plain dttl now key value ttl sh = put_insert CACHE_ONLY dttl now key value ttl None sh.
Proof.
  intros Hk Hs. unfold put_plain.
  assert (put_expire now key sh = (sh, None)) as -> by (unfold put_expire, get_entry; by rewrite Hk).
  rewrite put_store_eq. apply enforce_noop. rewrite put_insert_size. unfold dict_mem. rewrite Hk.
  simpl. lia.
Qed.

(** A policy that keeps new keys keeps the key written. *)
Lemma put_plain_get dttl now key value ttl sh :
  shard_wf sh → keeps_new (sh_policy sh) →
  ∃ ex v, dict_get (sh_backend (put_plain dttl now key value ttl sh)) key
          = Some (new_entry CACHE_ONLY dttl now key value ttl ex v).
Proof.
  intros Hw Hk. unfold put_plain. eexists _, _. apply put_store_keeps_key.
  - by apply put_expire_wf.
  - unfold put_expire. destruct (get_entry _ key) as [e|]; [|done].
    destruct (is_expired e now); [|done]. cbn [fst].
    pose proof (remove_entry_fields key RExpire sh) as Hf.
    destruct (remove_entry_locked key RExpire sh) as [sh1 b]. destruct Hf as (_ & _ & Hp & _).
    cbn [fst]. rewrite Hp. by apply keeps_new_delete.
Qed.

(** A counted read of a key whose entry has no lifetime. *)
Lemma read_plain t key sh :
  (∀ e, dict_get (sh_backend sh) key = Some e → e_expires_at e = None) →
  let o := dict_get (sh_backend sh) key in
  let '(sh', r) := read_value_locked t key true true sh in
  r = (is_not_none o, from_option e_value py_none o) ∧
  (∀ k, dict_get (sh_backend sh') k
        = if decide (key = k) then (λ e, touch e t) <$> o else dict_get (sh_backend sh) k) ∧
  hits (sh_stats sh') = hits (sh_stats sh) + (if is_not_none o then 1 else 0) ∧
  misses (sh_stats sh') = misses (sh_stats sh) + (if is_not_none o then 0 else 1) ∧
  evictions (sh_stats sh') = evictions (sh_stats sh).
Proof.
  intros He o. unfold read_value_locked, get_entry. fold o in He |- *.
  destruct o as [e|] eqn:Ho; unfold o in *; simpl.
  - unfold is_expired. rewrite (He e eq_refl). cbn. split_conj; [done| |lia..].
    intros k. rewrite update_entry_get. case_decide as Hk; [|done]. subst k. by rewrite Ho.
  - split_conj; [done| |lia..]. intros k. case_decide as Hk; [|done]. by subst k.
Qed.

(** A write over a key whose entry, if any, has no lifetime. *)
Lemma put_plain_effect now key value sh :
  shard_wf sh →
  (∀ e, dict_get (sh_backend sh) key = Some e → e_expires_at e = None) →
  let sh' := put_plain None now key value TTL_UNSET sh in
  ∃ evicted entry,
    (∀ k, dict_get (sh_backend sh') k
          = if decide (evicted = Some k) then None
            else if decide (key = k) then Some entry else dict_get (sh_backend sh) k) ∧
    e_expires_at entry = None ∧ e_value entry = value ∧
    (∀ x, evicted = Some x →
       dict_get (sh_backend sh) key = None ∧ backend_size (sh_backend sh) = sh_capacity sh ∧
       (x = key ∨ dict_mem (sh_backend sh) x = true)) ∧
    hits (sh_stats sh') = hits (sh_stats sh) ∧ misses (sh_stats sh') = misses (sh_stats sh) ∧
    evictions (sh_stats sh') = evictions (sh_stats sh) + (if is_not_none evicted then 1 else 0).
Proof.
  intros Hw He sh'. unfold sh', put_plain. set (o := dict_get (sh_backend sh) key).
  assert (put_expire now key sh = (sh, o)) as ->.
  { unfold put_expire, get_entry. fold o. destruct o as [e|] eqn:Ho; [|done].
    unfold is_expired. by rewrite (He e Ho). }
  cbn [fst snd]. destruct (put_store_get CACHE_ONLY None now key value TTL_UNSET o sh Hw)
    as (ev & Hget & Hev & Hst).
  eexists ev, _. split_conj; [exact Hget| | | |rewrite Hst; by destruct ev..|].
  - unfold new_entry, resolve_ttl. destruct o as [e|] eqn:Ho; [|done].
    specialize (He e Ho). simpl. by destruct (e_ttl e).
  - apply new_entry_value.
  - intros x Hx. destruct (Hev x Hx) as (Hm & Hs & _ & Hin). split_conj; [|done..].
    unfold dict_mem in Hm. subst o. by destruct (dict_get _ key).
  - rewrite Hst. destruct ev; simpl; lia.
Qed.

Section run.
Context (cfg : CacheConfig) (mode : WriteMode) (busy : Z).

Lemma run_put_plain c key value ttl sh :
  mode = CACHE_ONLY → cache_inv cfg mode busy c → is_open c → ttl_ok ttl →
  c_shards c !! slot c key = Some sh →
  ∃ b, cache_put key value ttl c
       = (with_shard (slot c key)
            (put_plain (cfg_default_ttl cfg) (clock_now (c_clock c)) key value ttl sh)
            (set_warned b c), Ok tt).
Proof.
  intros -> Hc0 Ho Ht Hsh. unfold cache_put. rewrite (bind_ok _ _ c c tt) by by apply run_open.
  destruct (run_warn c) as [b Eb]. rewrite (bind_ok _ _ _ _ _ Eb). exists b.
  set (c1 := set_warned b c). assert (cache_inv cfg CACHE_ONLY busy c1) as Hc by by apply (inv_ext _ _ _ c).
  assert (validate_explicit_ttl ttl c1 = (c1, Ok tt)) as Ev.
  { destruct ttl as [| |t]; [done..|]. simpl in *. by rewrite Ht. }
  rewrite (bind_ok _ _ _ _ _ Ev). rewrite (bind_ok _ _ c1 c1 c1) by done.
  rewrite (bind_ok _ _ c1 c1 _) by apply run_now.
  erewrite bind_ok; [|apply (run_lock_src cfg CACHE_ONLY busy c1 key sh); [done|done|]].
  2: { rewrite (ci_mode _ _ _ _ Hc), (ci_config _ _ _ _ Hc). apply put_locked_plain. }
  done.
Qed.
End run.

(** The stored entries after a change of one shard. *)
Lemma stored_with_shard i sh c k :
  (i < length (c_shards c))%nat →
  stored (with_shard i sh c) k
  = if decide (slot c k = i) then dict_get (sh_backend sh) k else stored c k.
Proof.
  intros Hi. unfold stored. rewrite slot_with_shard. simpl. case_decide as Hd.
  - by rewrite Hd, list_lookup_insert_eq.
  - by rewrite list_lookup_insert_ne by done.
Qed.

Lemma stored_slot c k sh :
  c_shards c !! slot c k = Some sh → stored c k = dict_get (sh_backend sh) k.
Proof. unfold stored. by intros ->. Qed.
End plain.
