(* ===== verification/CliSpec.v ===== *)
(** What the basic commands do to the world: lemmas on loading, saving and running one
    command of [CliBasic]. *)

From Stdlib Require Import ZArith SpecFloat.
From stdpp Require Import base tactics numbers option strings pretty sets list relations.
From S2P Require Import Prelude PyDict PyFloat PyMonad Config Hashing Json Tables Entry Files.
From S2P Require Import Policies PolicyLaws Storage Jobs Shard ShardInv ShardSpec Cache CliBasic.
From S2P Require Import CacheInv CacheSafety Reach CacheSpec CacheOnly.
Local Open Scope string_scope.
Local Open Scope list_scope.
Local Open Scope Z_scope.

(** The world after the next delay, and a cache at the time of a world. *)
Definition later (w : World) : World := (pass_time w).1.
Definition at_time (w : World) (c : CliCache) : CliCache := set_clock (mkFakeClock (w_mono w)) c.

Lemma cache_call_eq {A} (m : M CliCache A) c w :
  cache_call m c w =
    match m (at_time (later w) c) with
    | (c', Ok a) => (later w, Ok (c', a))
    | (_, Raise e) => (later w, Raise e)
    end.
Proof.
  unfold cache_call. rewrite run_bind. unfold later at 1. unfold pass_time, modify at 1.
  rewrite run_bind. unfold get_state. cbv beta iota. fold (later w).
  change (match w_delays w with
   | [] => w
   | d :: delays =>
       set_times (fadd (w_wall w) (fmax fzero d)) (fadd (w_mono w) (fmax fzero d)) delays w
   end) with (later w).
  unfold at_time. destruct (m _) as [c' [a|e]]; done.
Qed.

(** A property of the world that a process keeps as long as it does not write files: time
    passes, it prints to the error stream, and it makes system calls. *)
Record stable (P : World → Prop) : Prop := {
  st_times wall mono delays w : P w → P (set_times wall mono delays w);
  st_stderr err w : P w → P (set_output (w_stdout w) err w);
  st_legacy b w : P w → P (set_legacy_warned b w);
  st_os {A} what (f : M World A) : keeps P f → keeps P (os_call what id f);
}.

Section frame.
Context (P : World → Prop) (HP : stable P).

Lemma keeps_pass_time : keeps P pass_time.
Proof. apply keeps_modify. intros w Hw. destruct (w_delays w); [done|]. by apply (st_times _ HP). Qed.

Lemma keeps_print_err line : keeps P (print_err line).
Proof. apply keeps_modify. intros w Hw. destruct (w_alive w); [|done]. by apply (st_stderr _ HP). Qed.

Lemma keeps_legacy : keeps P (modify (set_legacy_warned true)).
Proof. apply keeps_modify. intros w Hw. by apply (st_legacy _ HP). Qed.

Lemma keeps_read_json p : keeps P (read_json p).
Proof.
  apply keeps_bind; [apply keeps_get|]. intros w. destruct (file_at w p); [|apply keeps_ret].
  apply (st_os _ HP), keeps_bind; [apply keeps_get|]. intros w'.
  destruct (file_at w' p) as [[[[]|] ?]|]; (apply keeps_ret || apply keeps_raise).
Qed.

Lemma keeps_cache_call {A} (m : M CliCache A) c : keeps P (cache_call m c).
Proof.
  apply keeps_bind; [apply keeps_pass_time|]. intros _. apply keeps_bind; [apply keeps_get|].
  intros w. destruct (m _) as [c' r]. apply keeps_bind; [apply keeps_lift|].
  intros a. apply keeps_ret.
Qed.
End frame.

(** The files are [F], and the process would draw [R] for a temporary name. *)
Definition files_are (F : dict path file) (R : string) (w : World) : Prop :=
  w_files w = F ∧ w_rand w = R.

Lemma files_are_stable F R : stable (files_are F R).
Proof.
  split; [done..|]. intros A what f Hf w Hw. unfold os_call. destruct (w_alive w); [|done].
  destruct (next_fault w); [by apply Hf|done|done|exact (Hf (use_fault w) Hw)].
Qed.

(** The same, nothing more was printed, and the system calls work. *)
Definition calm (F : dict path file) (R : string) (out : list string) (w : World) : Prop :=
  files_are F R w ∧ w_stdout w = out ∧ undisturbed w.

Lemma calm_stable F R out : stable (calm F R out).
Proof.
  split; [done..|]. intros A what f Hf w Hw. rewrite os_call_undisturbed by apply Hw. by apply Hf.
Qed.

Lemma keeps_print_out F R line : keeps (files_are F R) (print_out line).
Proof. apply (st_os _ (files_are_stable F R)), keeps_modify. by intros w Hw. Qed.

#[export] Hint Resolve files_are_stable calm_stable : cachedb.

(** Prove that a computation keeps a stable property, along its syntax. *)
Ltac keeps_files :=
  repeat first
    [ progress intros
    | apply keeps_ret | apply keeps_raise | apply keeps_lift | apply keeps_get
    | apply keeps_pass_time | apply keeps_print_err | apply keeps_legacy | apply keeps_print_out
    | apply keeps_read_json | apply keeps_cache_call
    | apply keeps_bind
    | match goal with
      | |- keeps _ (match ?x with _ => _ end) => destruct x
      | |- keeps _ (if ?b then _ else _) => destruct b
      end
    | solve [eauto with cachedb] ].

Section cli.
Context `{KeyHash typed_key}.
Context (float_repr : float → string) (str_repr : string → string).
Context (float_of_str : string → option float) (json_loads : string → option pyval).
Context (from_file : string → result CacheConfig).
Local Abbreviation load_state := (load_cache_state float_repr str_repr float_of_str from_file).
Local Abbreviation command := (run_command float_repr str_repr json_loads).
Local Abbreviation locked := (run_locked float_repr str_repr float_of_str json_loads from_file).

(** *** Nothing is written before the state is saved *)

Lemma keeps_load_item P wall_now item c :
  stable P → keeps P (load_item float_of_str wall_now item c).
Proof. intros HP. unfold load_item, ttl_from_state_item. keeps_files. Qed.

Lemma keeps_load_items P wall_now items c :
  stable P → keeps P (load_items float_of_str wall_now items c).
Proof.
  intros HP. revert c. induction items as [|item items IH]; intros c; cbn [load_items]; [apply keeps_ret|].
  apply keeps_bind; [by apply keeps_load_item|]. intros c'. apply IH.
Qed.

Lemma keeps_load_state P p a : stable P → keeps P (load_state p a).
Proof.
  intros HP. unfold load_cache_state, warn_flag_mismatch_with_config_file, warn_ignored_config_settings,
    warn_saved_config_mismatch.
  repeat first [apply keeps_load_items | progress keeps_files].
Qed.

(** The commands that save the cache. *)
Definition saves (cmd : Command) : bool :=
  match cmd with CmdPut _ _ _ _ _ _ | CmdDelete _ _ | CmdClear => true | _ => false end.

Lemma keeps_reading_command F R p cmd key c :
  saves cmd = false → keeps (files_are F R) (command p cmd key c).
Proof. intros Hs. destruct cmd; try done; simpl; keeps_files. Qed.

Lemma keeps_reading_locked F R a :
  saves (a_command a) = false → keeps (files_are F R) (locked a).
Proof.
  intros Hs. apply keeps_bind; [apply keeps_load_state, files_are_stable|]. intros c.
  apply keeps_bind; [apply keeps_lift|]. intros key.
  apply keeps_bind; [by apply keeps_reading_command|]. intros _. apply keeps_ret.
Qed.
End cli.
