(* ===== verification/CliReload.v ===== *)
(** Reloading a saved cache: the state file that [_save_cache_state] writes, read back by
    [_load_cache_state] of a later process. *)

From Stdlib Require Import ZArith SpecFloat.
From stdpp Require Import base tactics numbers option strings pretty sets list relations.
From S2P Require Import Prelude PyDict PyFloat PyMonad Config Hashing Json Tables Entry Files.
From S2P Require Import Policies PolicyLaws Storage Jobs Shard ShardInv ShardSpec Cache CliBasic.
From S2P Require Import CacheInv CacheSafety Reach CacheSpec CacheOnly CliSpec.
Local Open Scope string_scope.
Local Open Scope list_scope.
Local Open Scope Z_scope.

Local Abbreviation snapshots := (list (EntrySnapshot typed_key pyval)).

(** ** What a saved entry looks like when it is read *)

Definition loaded_item (s : EntrySnapshot typed_key pyval) : dict string pyval := [
  ("hit_count", VInt (s_hit_count s));
  ("key", json_dump (key_json (s_key s)));
  ("ttl_remaining", opt_float (s_ttl_remaining s));
  ("value", json_dump (s_value s))].
Definition loaded_state (config : CacheConfig) (snaps : snapshots) : dict string pyval := [
  ("config", json_dump (VDict (config_settings config)));
  ("entries", VList ((λ s, VDict (loaded_item s)) <$> snaps))].

Lemma json_dump_opt_float o : json_dump (opt_float o) = opt_float o.
Proof. by destruct o. Qed.

Lemma saved_entry_loaded s : json_dump (saved_entry s) = VDict (loaded_item s).
Proof. unfold loaded_item. simpl. by rewrite json_dump_opt_float. Qed.

Lemma saved_entries_loaded (snaps : snapshots) :
  map json_dump (saved_entry <$> snaps) = (λ s, VDict (loaded_item s)) <$> snaps.
Proof.
  induction snaps as [|s snaps IH]; [done|].
  change (json_dump (saved_entry s) :: map json_dump (saved_entry <$> snaps)
          = VDict (loaded_item s) :: ((λ s, VDict (loaded_item s)) <$> snaps)).
  by rewrite IH, saved_entry_loaded.
Qed.

Lemma saved_state_loaded config snaps :
  json_dump (saved_state config snaps) = VDict (loaded_state config snaps).
Proof.
  unfold loaded_state. rewrite <- saved_entries_loaded. done.
Qed.

(** The lifetime a saved entry is put with, and the entries that are not skipped. *)
Definition restorable (s : EntrySnapshot typed_key pyval) : bool :=
  match s_ttl_remaining s with None => true | Some r => negb (fle r fzero) end.
Definition reload_ttl (s : EntrySnapshot typed_key pyval) : ttl_arg :=
  match s_ttl_remaining s with Some r => TTL_SECONDS r | None => TTL_NONE end.

(** The entry a saved one becomes when it is loaded at time [t]. *)
Definition reloaded (t : float) (version : Z) (s : EntrySnapshot typed_key pyval)
    : CacheEntry typed_key pyval := {|
  e_key := s_key s;
  e_value := json_dump (s_value s);
  e_created_at := t;
  e_last_accessed_at := t;
  e_hit_count := Z.max 0 (s_hit_count s);
  e_expires_at := fadd t <$> s_ttl_remaining s;
  e_ttl := s_ttl_remaining s;
  e_version := version;
  e_dirty := false;
|}.

(** ** Loading one entry *)

Section load.
Context `{KeyHash typed_key} (float_of_str : string → option float).
Context (cfg : CacheConfig).
Local Abbreviation inv := (cache_inv (P:=AnyPolicy typed_key) (V:=pyval) cfg CACHE_ONLY 0).

(** The shard of a key and the entries and the room of a shard, by the configuration. *)
Definition slot_of (k : typed_key) : nat := Z.to_nat (key_hash k mod cfg_shard_count cfg).
Definition occupied (c : CliCache) (i : nat) : Z :=
  from_option (λ sh, backend_size (sh_backend sh)) 0 (c_shards c !! i).
Definition room_at (i : nat) : Z := shp_capacity (shape_at cfg i).

Lemma slot_key_slot (c : CliCache) k : inv c → slot c k = slot_of k.
Proof.
  intros Hc. unfold slot, slot_of, shard_for. rewrite (ci_length _ _ _ _ Hc).
  pose proof (cv_shards _ (ci_valid _ _ _ _ Hc)). by rewrite Z2Nat.id by lia.
Qed.

Lemma inv_at_time w (c : CliCache) : inv c → inv (at_time w c).
Proof. intros Hc. by apply (inv_ext _ _ _ c). Qed.

Lemma load_item_eq wall_now s c w :
  load_item float_of_str wall_now (loaded_item s) c w =
    if restorable s then
      ('(c, _) ← cache_call (cache_put (s_key s) (json_dump (s_value s)) (reload_ttl s)) c;
       if 0 <? s_hit_count s then
         '(c, _) ← cache_call (restore_entry_metadata (s_key s) (s_hit_count s)) c; mret c
       else mret c) w
    else (w, Ok c).
Proof.
  unfold load_item. rewrite run_bind.
  assert (ttl_from_state_item float_of_str (loaded_item s) wall_now w
    = (w, Ok (if restorable s then KeepTtl (s_ttl_remaining s) else SKIP_ENTRY))) as ->.
  { unfold ttl_from_state_item, restorable. simpl. destruct (s_ttl_remaining s) as [r|]; simpl; [|done].
    unfold lift. simpl. by destruct (fle r fzero). }
  destruct (restorable s); [|done]. unfold dict_get_default, put_any, reload_ttl. simpl.
  rewrite json_key_roundtrip, !run_bind.
  destruct (cache_call _ c w) as [w' [[c' []]|e]]; [|done].
  unfold item_hit_count. simpl. destruct (0 <? s_hit_count s); [|done].
  unfold hash_key. by rewrite json_key_roundtrip.
Qed.

(** The shard a put and the restored count leave. *)
Lemma new_entry_reloaded dttl t v s :
  restorable s = true →
  (if 0 <? s_hit_count s then set_hit_count (s_hit_count s) else id)
    (new_entry CACHE_ONLY dttl t (s_key s) (json_dump (s_value s)) (reload_ttl s) None v)
  = reloaded t v s.
Proof.
  unfold restorable, new_entry, resolve_ttl, reload_ttl, reloaded. intros Hr.
  destruct (s_ttl_remaining s) as [r|]; [apply negb_true_iff in Hr; rewrite Hr|]; simpl;
    destruct (Z.ltb_spec 0 (s_hit_count s)); unfold set_hit_count, id; simpl; f_equal; lia.
Qed.

Lemma run_restore c key n sh :
  inv c → is_open c → c_shards c !! slot c key = Some sh →
  restore_entry_metadata key n c = (with_shard (slot c key) (restore_locked key n sh) c, Ok tt).
Proof.
  intros Hc Ho Hsh. unfold restore_entry_metadata. rewrite (bind_ok _ _ c c tt) by by apply run_open.
  rewrite (bind_ok _ _ c c c) by done. by erewrite run_lock.
Qed.

(** The shard of a key after it was loaded. *)
Definition load_shard (dttl : option float) (t : float) (s : EntrySnapshot typed_key pyval)
    (sh : CacheShard typed_key pyval (AnyPolicy typed_key))
    : CacheShard typed_key pyval (AnyPolicy typed_key) :=
  (if 0 <? s_hit_count s then restore_locked (s_key s) (s_hit_count s) else id)
    (put_insert CACHE_ONLY dttl t (s_key s) (json_dump (s_value s)) (reload_ttl s) None sh).

Lemma load_shard_get dttl t s sh k :
  restorable s = true →
  dict_get (sh_backend (load_shard dttl t s sh)) k
  = if decide (s_key s = k)
    then Some (reloaded t (dict_get_default (sh_version_marks sh) (s_key s) 0 + 1) s)
    else dict_get (sh_backend sh) k.
Proof.
  intros Hr. rewrite <- (new_entry_reloaded dttl) by done. unfold load_shard, restore_locked.
  destruct (0 <? s_hit_count s).
  - cbn [sh_backend set_backend]. rewrite update_entry_get, put_insert_get. by case_decide.
  - apply put_insert_get.
Qed.

Lemma load_shard_size dttl t s sh :
  dict_get (sh_backend sh) (s_key s) = None →
  backend_size (sh_backend (load_shard dttl t s sh)) = backend_size (sh_backend sh) + 1.
Proof.
  intros Hk. unfold load_shard, restore_locked.
  pose proof (put_insert_size CACHE_ONLY dttl t (s_key s) (json_dump (s_value s)) (reload_ttl s) None sh)
    as Hs. unfold dict_mem in Hs. rewrite Hk in Hs. simpl in Hs.
  destruct (0 <? s_hit_count s); [|done]. cbn [sh_backend set_backend].
  unfold backend_size. by rewrite update_entry_len.
Qed.

Lemma is_open_ext (c c' : CliCache) : c_state c' = c_state c → is_open c → is_open c'.
Proof. unfold is_open. by intros ->. Qed.

Lemma load_one wall_now s (c : CliCache) w :
  inv c → is_open c → restorable s = true → stored c (s_key s) = None →
  occupied c (slot_of (s_key s)) < room_at (slot_of (s_key s)) →
  ∃ n c' sh, load_item float_of_str wall_now (loaded_item s) c w = (Nat.iter (S n) later w, Ok c') ∧
    inv c' ∧ is_open c' ∧ c_shards c !! slot c (s_key s) = Some sh ∧
    c_shards c' = <[slot c (s_key s) :=
                      load_shard (cfg_default_ttl cfg) (w_mono (later w)) s sh]> (c_shards c).
Proof.
  intros Hc Ho Hr Hst Hroom. destruct (slot_lookup cfg CACHE_ONLY 0 c (s_key s) Hc) as [sh Hsh].
  rewrite (stored_slot _ _ _ Hsh) in Hst. rewrite <- (slot_key_slot c) in Hroom by done.
  unfold occupied, room_at in Hroom. rewrite Hsh in Hroom. simpl in Hroom.
  assert (sh_capacity sh = shp_capacity (shape_at cfg (slot c (s_key s)))) as Hcap
    by (apply (ci_shards _ _ _ _ Hc) in Hsh as [_ Hs]; apply (ss_capacity _ _ _ _ _ _ _ Hs)).
  assert (ttl_ok (reload_ttl s)) as Htok.
  { unfold reload_ttl, restorable in *. destruct (s_ttl_remaining s); [by apply negb_true_iff|done]. }
  rewrite load_item_eq, Hr, run_bind, cache_call_eq.
  set (ca := at_time (later w) c). assert (inv ca) as Hca by by apply inv_at_time.
  assert (is_open ca) as Hoa by done.
  destruct (run_put_plain cfg CACHE_ONLY 0 ca (s_key s) (json_dump (s_value s)) (reload_ttl s) sh
    eq_refl Hca Hoa Htok Hsh) as [b Eput].
  pose proof (keeps_put cfg CACHE_ONLY 0 (s_key s) (json_dump (s_value s)) (reload_ttl s) ca Hca) as Hinv1.
  rewrite put_plain_room in Eput by (simpl in Hcap; lia || done).
  rewrite Eput in *. cbn [fst] in Hinv1.
  change (clock_now (c_clock ca)) with (w_mono (later w)) in *.
  change (slot ca (s_key s)) with (slot c (s_key s)) in *.
  set (sh1 := put_insert _ _ _ _ _ _ _ sh) in *.
  set (c1 := with_shard (slot c (s_key s)) sh1 (set_warned b ca)) in *.
  destruct (0 <? s_hit_count s) eqn:Eh.
  - rewrite run_bind, cache_call_eq.
    assert (c_shards (at_time (later (later w)) c1) !! slot (at_time (later (later w)) c1) (s_key s)
            = Some sh1) as Hsh1.
    { change (slot (at_time (later (later w)) c1) (s_key s)) with (slot c1 (s_key s)).
      subst c1. rewrite slot_with_shard. simpl. apply list_lookup_insert_eq. by eapply lookup_lt_Some. }
    assert (inv (at_time (later (later w)) c1)) as Hinv2 by by apply inv_at_time.
    pose proof (keeps_restore cfg CACHE_ONLY 0 (s_key s) (s_hit_count s) _ Hinv2) as Hinv3.
    rewrite (run_restore _ _ _ sh1 Hinv2 Ho Hsh1) in *. cbn [fst] in Hinv3.
    eexists 1%nat, _, sh. split_conj; [reflexivity|exact Hinv3|exact Ho|done|].
    change (slot (at_time (later (later w)) c1) (s_key s)) with (slot c1 (s_key s)).
    subst c1. rewrite slot_with_shard. simpl. rewrite list_insert_insert_eq. do 2 f_equal.
    unfold load_shard. by rewrite Eh.
  - eexists 0%nat, _, sh. split_conj; [reflexivity|exact Hinv1|exact Ho|done|].
    simpl. f_equal. unfold load_shard. by rewrite Eh.
Qed.

(** What loading one entry does to the stored entries and the sizes. *)
Lemma loaded_stored s (c c' : CliCache) t sh k :
  inv c → inv c' → restorable s = true → c_shards c !! slot c (s_key s) = Some sh →
  c_shards c' = <[slot c (s_key s) := load_shard (cfg_default_ttl cfg) t s sh]> (c_shards c) →
  stored c' k = if decide (s_key s = k)
                then Some (reloaded t (dict_get_default (sh_version_marks sh) (s_key s) 0 + 1) s)
                else stored c k.
Proof.
  intros Hc Hc' Hr Hsh Hs. pose proof (lookup_lt_Some _ _ _ Hsh) as Hlt.
  unfold stored. rewrite Hs, !slot_key_slot in * by done.
  destruct (decide (slot_of k = slot_of (s_key s))) as [E|E].
  - rewrite E, list_lookup_insert_eq, Hsh by done. simpl. by rewrite load_shard_get.
  - rewrite list_lookup_insert_ne by done. case_decide; [by subst|done].
Qed.

Lemma loaded_occupied s (c c' : CliCache) t sh i :
  inv c → c_shards c !! slot c (s_key s) = Some sh → stored c (s_key s) = None →
  c_shards c' = <[slot c (s_key s) := load_shard (cfg_default_ttl cfg) t s sh]> (c_shards c) →
  occupied c' i = occupied c i + if decide (slot_of (s_key s) = i) then 1 else 0.
Proof.
  intros Hc Hsh Hst Hs. rewrite (stored_slot _ _ _ Hsh) in Hst.
  pose proof (lookup_lt_Some _ _ _ Hsh) as Hlt. unfold occupied. rewrite Hs, slot_key_slot in * by done.
  case_decide as E.
  - subst i. rewrite list_lookup_insert_eq, Hsh by done. simpl. by apply load_shard_size.
  - rewrite list_lookup_insert_ne by done. lia.
Qed.

(** Number of the saved entries that belong to a shard. *)
Definition count_at (snaps : snapshots) (i : nat) : Z :=
  Z.of_nat (length (filter (λ s, slot_of (s_key s) = i) snaps)).

Lemma count_at_cons s snaps i :
  count_at (s :: snaps) i = (if decide (slot_of (s_key s) = i) then 1 else 0) + count_at snaps i.
Proof. unfold count_at. rewrite filter_cons. case_decide; simpl; lia. Qed.

Lemma iter_later n m w : Nat.iter n later (Nat.iter m later w) = Nat.iter (n + m) later w.
Proof. by rewrite Nat.iter_add. Qed.

(** What has become of a saved entry. *)
Definition restored (w : World) (c : CliCache) (s : EntrySnapshot typed_key pyval) : Prop :=
  if restorable s
  then ∃ n v, stored c (s_key s) = Some (reloaded (w_mono (Nat.iter (S n) later w)) v s)
  else stored c (s_key s) = None.

Lemma load_many wall_now (snaps : snapshots) (c : CliCache) w :
  inv c → is_open c → NoDup (s_key <$> snaps) →
  (∀ s, s ∈ snaps → stored c (s_key s) = None) →
  (∀ i, occupied c i + count_at snaps i ≤ room_at i) →
  ∃ n c', load_items float_of_str wall_now (loaded_item <$> snaps) c w = (Nat.iter n later w, Ok c') ∧
    inv c' ∧ is_open c' ∧ (∀ s, s ∈ snaps → restored w c' s) ∧
    (∀ k, k ∉ s_key <$> snaps → stored c' k = stored c k).
Proof.
  revert c w. induction snaps as [|s snaps IH]; intros c w Hc Ho Hnd Hnew Hroom.
  { exists 0%nat, c. split_conj; [done..| |done]. by intros s ?%not_elem_of_nil. }
  rewrite fmap_cons, NoDup_cons in Hnd. destruct Hnd as [Hs Hnd].
  assert (∀ s', s' ∈ snaps → s_key s ≠ s_key s') as Hne.
  { intros s' Hs' E. apply Hs. rewrite E. by apply list_elem_of_fmap_2. }
  rewrite fmap_cons. cbn [load_items]. rewrite run_bind.
  destruct (restorable s) eqn:Hr.
  - destruct (load_one wall_now s c w) as (n & c1 & sh & -> & Hc1 & Ho1 & Hsh & Hshards);
      [done|done|done|apply Hnew; set_solver| |].
    { specialize (Hroom (slot_of (s_key s))). rewrite count_at_cons, decide_True in Hroom by done.
      unfold count_at in Hroom. lia. }
    pose proof (λ k, loaded_stored s c c1 _ sh k Hc Hc1 Hr Hsh Hshards) as Hst.
    pose proof (λ i, loaded_occupied s c c1 _ sh i Hc Hsh (Hnew s ltac:(set_solver)) Hshards) as Hocc.
    destruct (IH c1 (Nat.iter (S n) later w)) as (n' & c' & -> & Hc' & Ho' & Hin & Hout); try done.
    { intros s' Hs'. rewrite Hst, decide_False by by apply Hne. apply Hnew. set_solver. }
    { intros i. specialize (Hroom i). rewrite count_at_cons in Hroom. rewrite Hocc. lia. }
    rewrite iter_later. eexists _, c'. split_conj; [done..| |].
    + intros s' [->|Hs']%elem_of_cons.
      * unfold restored. rewrite Hr. exists 0%nat. eexists.
        rewrite Hout by done. rewrite Hst, decide_True by done. done.
      * specialize (Hin s' Hs'). unfold restored in *. destruct (restorable s'); [|done].
        destruct Hin as (m & v & ->). rewrite iter_later. replace (S m + S n)%nat with (S (m + S n)) by lia.
        by eexists _, v.
    + intros k Hk. rewrite fmap_cons, not_elem_of_cons in Hk. destruct Hk as [Hk1 Hk2].
      rewrite Hout by done. by rewrite Hst, decide_False by done.
  - rewrite load_item_eq, Hr.
    destruct (IH c w) as (n' & c' & -> & Hc' & Ho' & Hin & Hout); try done.
    { intros s' Hs'. apply Hnew. set_solver. }
    { intros i. specialize (Hroom i). rewrite count_at_cons in Hroom. case_decide; lia. }
    eexists _, c'. split_conj; [done..| |].
    + intros s' [->|Hs']%elem_of_cons; [|by apply Hin]. unfold restored. rewrite Hr.
      rewrite Hout by done. apply Hnew. set_solver.
    + intros k Hk. rewrite fmap_cons, not_elem_of_cons in Hk. by apply Hout, Hk.
Qed.

(** ** What a dump lists *)

Lemma live_at_elem (c : CliCache) i s :
  inv c →
  s ∈ live_at c (Z.of_nat i) ↔
  slot_of (s_key s) = i ∧
  ∃ e, stored c (s_key s) = Some e ∧ is_expired e (clock_now (c_clock c)) = false ∧
       s = snapshot e (clock_now (c_clock c)).
Proof.
  intros Hc. unfold live_at, live_snapshots. rewrite Nat2Z.id. split.
  - destruct (c_shards c !! i) as [sh|] eqn:Hsh; simpl; [|by intros ?%not_elem_of_nil].
    pose proof (ci_shards _ _ _ _ Hc i sh Hsh) as [Hw Hs].
    intros (e & -> & He)%list_elem_of_fmap. apply list_elem_of_filter in He as [Hx He].
    apply dict_values_elem in He as [k Hk]; [|apply (ss_dict _ _ _ _ _ _ _ Hs)].
    pose proof (proj2 (sc_backend _ (sw_core _ Hw)) k e Hk) as <-. simpl.
    assert (slot_of (e_key e) = i) as Hi.
    { assert (e_key e ∈ dict_keys (sh_backend sh)) as Hin by (apply dict_keys_get; eauto).
      apply (ss_live _ _ _ _ _ _ _ Hs) in Hin. unfold routed in Hin. unfold slot_of. lia. }
    split; [done|]. exists e. split_conj; [|done..].
    rewrite (stored_slot c (e_key e) sh); [done|]. by rewrite slot_key_slot, Hi.
  - intros [Hi (e & He & Hx & Hse)]. unfold stored in He. rewrite slot_key_slot, Hi in He by done.
    destruct (c_shards c !! i) as [sh|] eqn:Hsh; [|done]. simpl in *.
    pose proof (ci_shards _ _ _ _ Hc i sh Hsh) as [Hw Hs].
    apply list_elem_of_fmap. exists e. split; [done|]. apply list_elem_of_filter. split; [done|].
    apply dict_values_elem; [apply (ss_dict _ _ _ _ _ _ _ Hs)|]. eauto.
Qed.

Lemma live_at_nodup (c : CliCache) i : inv c → NoDup (s_key <$> live_at c i).
Proof.
  intros Hc. unfold live_at. destruct (c_shards c !! Z.to_nat i) as [sh|] eqn:Hsh; [|constructor].
  pose proof (ci_shards _ _ _ _ Hc _ sh Hsh) as [Hw Hs]. simpl. unfold live_snapshots.
  rewrite <- list_fmap_compose. apply (NoDup_fmap_filter e_key).
  pose proof (sc_backend _ (sw_core _ Hw)) as [Hwf Hk].
  assert (e_key <$> backend_entries (sh_backend sh) = dict_keys (sh_backend sh)) as ->; [|done].
  unfold backend_entries, dict_values, dict_keys. rewrite <- list_fmap_compose.
  apply list_fmap_ext. intros j [k e] Hj. simpl. apply Hk, dict_wf_get_elem; [done|].
  by eapply list_elem_of_lookup_2.
Qed.

Definition all_live (c : CliCache) : snapshots := mjoin (live_at c <$> shard_indices c).

Lemma all_live_elem (c : CliCache) s :
  inv c →
  s ∈ all_live c ↔
  ∃ e, stored c (s_key s) = Some e ∧ is_expired e (clock_now (c_clock c)) = false ∧
       s = snapshot e (clock_now (c_clock c)).
Proof.
  intros Hc. unfold all_live. rewrite list_elem_of_join. split.
  - intros (l & Hs & Hl). apply list_elem_of_fmap in Hl as (i & -> & Hi).
    apply elem_of_py_range in Hi. rewrite <- (Z2Nat.id i) in Hs by lia.
    apply live_at_elem in Hs; [|done]. apply Hs.
  - intros (e & He & Hx). exists (live_at c (Z.of_nat (slot_of (s_key s)))). split.
    + apply live_at_elem; [done|]. eauto.
    + apply list_elem_of_fmap_2. unfold stored in He.
      destruct (c_shards c !! slot c (s_key s)) as [sh|] eqn:Hsh; [|done].
      rewrite <- (slot_key_slot c) by done. by eapply shard_indices_elem.
Qed.

Lemma all_live_nodup (c : CliCache) : inv c → NoDup (s_key <$> all_live c).
Proof.
  intros Hc. unfold all_live. pose proof (shard_indices_nodup c) as Hnd.
  assert (∀ i, i ∈ shard_indices c → 0 ≤ i) as Hpos by (intros i Hi%elem_of_py_range; lia).
  revert Hnd Hpos. generalize (shard_indices c) as l. induction l as [|i l IH]; intros Hnd Hpos.
  { constructor. }
  apply NoDup_cons in Hnd as [Hi Hnd]. csimpl. rewrite fmap_app, NoDup_app. split_conj.
  - by apply live_at_nodup.
  - intros k (s & -> & Hs)%list_elem_of_fmap (s' & E & Hs')%list_elem_of_fmap.
    apply list_elem_of_join in Hs' as (l' & Hs' & Hl'). apply list_elem_of_fmap in Hl' as (j & -> & Hj).
    pose proof (Hpos i ltac:(set_solver)). pose proof (Hpos j ltac:(set_solver)).
    rewrite <- (Z2Nat.id i) in Hs by lia. rewrite <- (Z2Nat.id j) in Hs' by lia.
    apply live_at_elem in Hs as [Hs _], Hs' as [Hs' _]; [|done..].
    apply Hi. rewrite E in Hs. by replace i with j by lia.
  - apply IH; [done|]. intros j Hj. apply Hpos. set_solver.
Qed.

Lemma all_live_room (c : CliCache) i : inv c → count_at (all_live c) i ≤ room_at i.
Proof.
  intros Hc. unfold count_at, room_at. destruct (c_shards c !! i) as [sh|] eqn:Hsh.
  - pose proof (ci_shards _ _ _ _ Hc i sh Hsh) as [Hw Hs].
    rewrite <- (ss_capacity _ _ _ _ _ _ _ Hs). etransitivity; [|apply (sw_size _ Hw)].
    unfold backend_size. rewrite dict_len_keys.
    rewrite <- (length_fmap s_key (filter _ _)). apply Nat2Z.inj_le, NoDup_length_le.
    + by apply NoDup_fmap_filter, all_live_nodup.
    + intros k (s & -> & [Hi Hin]%list_elem_of_filter)%list_elem_of_fmap.
      apply all_live_elem in Hin as (e & He & _); [|done]. apply dict_keys_get.
      unfold stored in He. rewrite slot_key_slot, Hi, Hsh in He by done. eauto.
  - rewrite filter_all_false; [|].
    + pose proof (cv_shards _ (ci_valid _ _ _ _ Hc)) as Hn.
      pose proof (shard_capacities_positive _ _ Hn (cv_capacity _ (ci_valid _ _ _ _ Hc))) as Hp.
      simpl. destruct (shard_capacities _ _ !! i) as [x|] eqn:Ex; simpl; [|lia].
      rewrite Forall_forall in Hp. specialize (Hp x (list_elem_of_lookup_2 _ _ _ Ex)). lia.
    + intros s Hin Hi. apply all_live_elem in Hin as (e & He & _); [|done].
      unfold stored in He. by rewrite slot_key_slot, Hi, Hsh in He.
Qed.
End load.

(** ** Loading a whole state file *)

Section reload.
Context `{KeyHash typed_key}.
Context (float_repr : float → string) (str_repr : string → string).
Context (float_of_str : string → option float) (json_loads : string → option pyval).
Context (from_file : string → result CacheConfig).
Local Abbreviation load_state := (load_cache_state float_repr str_repr float_of_str from_file).

(** The cache a command starts with. *)
Lemma fresh_cache cfg clock :
  config_valid cfg → cfg_write_mode cfg = write_mode_value CACHE_ONLY →
  ∃ c : CliCache, cache_init (Some cfg) no_args (slow_dict_init fzero clock) clock = Ok c ∧
    cache_inv cfg CACHE_ONLY 0 c ∧ c_state c = CREATED ∧ (∀ k, stored c k = None) ∧
    (∀ i, occupied c i = 0).
Proof.
  intros Hv Hm.
  destruct (init_shards_ok (K:=typed_key) (V:=pyval) cfg 0
    (shard_capacities (cfg_capacity cfg) (cfg_shard_count cfg)) (cv_backend _ Hv) (cv_policy _ Hv))
    as [shards Es].
  assert (parse_write_mode (cfg_write_mode cfg) = Ok CACHE_ONLY) as Em by by rewrite Hm.
  assert (∃ c : CliCache, cache_init (Some cfg) no_args (slow_dict_init fzero clock) clock = Ok c)
    as [c Ec] by (unfold cache_init; simpl; rewrite Em, Es; eauto).
  pose proof (cache_init_eq _ _ _ _ _ Ec) as (Hcfg & Hmode & Hsh & _ & Hst & _).
  simpl in Hcfg. injection Hcfg as ->. rewrite Em in Hmode. injection Hmode as Hmode.
  apply init_shards_spec in Hsh as [_ Hs]. exists c. split_conj; [done| |done| |].
  - rewrite Hmode. eapply cache_init_inv; [|exact Ec]. by intros cfg' [= <-].
  - intros k. unfold stored. destruct (c_shards c !! _) as [sh|] eqn:E; [|done].
    by destruct (Hs _ _ E) as (cap & pol & _ & _ & ->).
  - intros i. unfold occupied. destruct (c_shards c !! i) as [sh|] eqn:E; [|done].
    by destruct (Hs _ _ E) as (cap & pol & _ & _ & ->).
Qed.

(** Worlds at the same time, with the same time to come. *)
Definition same_times (w0 w : World) : Prop :=
  w_wall w = w_wall w0 ∧ w_mono w = w_mono w0 ∧ w_delays w = w_delays w0.

Lemma same_times_later w0 w : same_times w0 w → same_times (later w0) (later w).
Proof.
  intros (H1 & H2 & H3). unfold later, pass_time, modify. simpl. rewrite H3.
  unfold same_times. destruct (w_delays w0) eqn:E; simpl; [by rewrite E|]. by rewrite H1, H2.
Qed.

Lemma same_times_iter n w0 w : same_times w0 w → same_times (Nat.iter n later w0) (Nat.iter n later w).
Proof. induction n as [|n IH]; simpl; [done|]. intros Hw. by apply same_times_later, IH. Qed.

Lemma restored_same_times w0 w c s : same_times w0 w → restored w c s → restored w0 c s.
Proof.
  intros Hw. unfold restored. destruct (restorable s); [|done]. intros (n & v & ->).
  exists n, v. by destruct (same_times_iter (S n) w0 w Hw) as (_ & -> & _).
Qed.

Lemma print_err_times w0 line w : same_times w0 w → same_times w0 (print_err line w).1.
Proof. intros Hw. simpl. by destruct (w_alive w). Qed.

Lemma loaded_items_eq (snaps : snapshots) :
  omap state_item ((λ s, VDict (loaded_item s)) <$> snaps) = loaded_item <$> snaps.
Proof. induction snaps as [|s snaps IH]; [done|]. csimpl. by rewrite IH. Qed.

(** A step that only prints to the error stream. *)
Definition only_warns (m : M World unit) : Prop :=
  ∀ w, ∃ w', m w = (w', Ok tt) ∧ same_times w w'.

Lemma only_warns_ret : only_warns (mret tt).
Proof. intros w. by exists w. Qed.

Lemma only_warns_print line : only_warns (print_err line).
Proof. intros w. eexists. split; [done|]. by apply print_err_times. Qed.

Lemma only_warns_saved saved active :
  only_warns (warn_saved_config_mismatch float_repr str_repr saved active).
Proof.
  unfold warn_saved_config_mismatch. destruct (saved_mismatches _ _ _ _);
    [apply only_warns_ret|apply only_warns_print].
Qed.

Lemma only_warns_if (b : bool) line : only_warns (if b then print_err line else mret tt).
Proof. destruct b; [apply only_warns_print|apply only_warns_ret]. Qed.

(** Running a sequence that starts with warnings. *)
Lemma run_warning {A} (m : M World unit) (f : unit → M World A) w0 w :
  only_warns m → same_times w0 w → ∃ w', same_times w0 w' ∧ (m ≫= f) w = f tt w'.
Proof.
  intros Hm Hw. destruct (Hm w) as (w' & E & Hw'). exists w'. split.
  - unfold same_times in *. destruct Hw as (? & ? & ?), Hw' as (? & ? & ?). by split_conj; etransitivity.
  - by apply bind_ok.
Qed.

Ltac warn_step Ht w' Ht' :=
  match goal with
  | |- context [(?m ≫= ?f) ?w] =>
      match type of Ht with
      | same_times ?w0 _ =>
          let E := fresh in
          destruct (run_warning m f w0 w) as (w' & Ht' & E); [|exact Ht|rewrite E; clear E]
      end
  end.

Lemma later_calm F R out w : calm F R out w → calm F R out (later w).
Proof. apply (keeps_pass_time _ (calm_stable F R out)). Qed.

(** Loading a file that holds the given saved entries. *)
Lemma load_saved a config0 (snaps : snapshots) m w :
  config_arg a = None → config_valid (flags_config a) → undisturbed w →
  file_at w (a_state a) = Some (mkFile (JsonText (VDict (loaded_state config0 snaps))) m) →
  NoDup (s_key <$> snaps) → (∀ i, count_at (flags_config a) snaps i ≤ room_at (flags_config a) i) →
  ∃ w' c n, load_state (a_state a) a w = (w', Ok c) ∧
    cache_inv (flags_config a) CACHE_ONLY 0 c ∧ is_open c ∧
    (∀ s, s ∈ snaps → restored w c s) ∧ (∀ k, k ∉ s_key <$> snaps → stored c k = None) ∧
    same_times (Nat.iter n later w) w'.
Proof.
  intros Ha Hv Hu Hf Hnd Hroom. set (cfg := flags_config a) in *. unfold load_cache_state.
  assert (config_from_args from_file a = Ok cfg) as ->.
  { unfold config_from_args. rewrite Ha. by apply post_init_valid. }
  rewrite Ha. rewrite !(bind_ok _ _ w w _) by reflexivity.
  destruct (fresh_cache cfg (mkFakeClock (w_mono w)) Hv eq_refl) as (c0 & -> & Hc0 & Hcr & Hst0 & Hocc0).
  assert (is_open c0) as Ho0 by by left.
  rewrite (bind_ok _ _ w w c0) by done.
  assert (same_times w (use_fault w)) as Ht0 by done.
  rewrite (bind_ok _ _ w (use_fault w) (loaded_state config0 snaps)).
  2: { apply (read_json_back _ _ m); [done|apply Hu|]. unfold next_fault. by rewrite (proj2 Hu). }
  warn_step Ht0 w1 Ht1; [apply only_warns_saved|].
  rewrite (bind_ok _ _ w1 w1 w1) by done.
  rewrite (bind_ok _ _ w1 w1 ((λ s, VDict (loaded_item s)) <$> snaps)) by done.
  cbv zeta. rewrite loaded_items_eq. warn_step Ht1 w2 Ht2; [apply only_warns_if|].
  destruct (load_many float_of_str cfg (w_wall w1) snaps c0 w2 Hc0 Ho0 Hnd)
    as (n & c & Eload & Hc & Ho & Hin & Hout); [by intros; apply Hst0| |].
  { intros i. rewrite Hocc0. apply Hroom. }
  rewrite (bind_ok _ _ _ _ _ Eload).
  assert (∃ z, cache_call cache_size c (Nat.iter n later w2)
               = (later (Nat.iter n later w2), Ok (at_time (later (Nat.iter n later w2)) c, z)))
    as [z Ez].
  { rewrite cache_call_eq. unfold cache_size.
    rewrite (bind_ok _ _ _ (at_time (later (Nat.iter n later w2)) c) tt) by by apply run_open.
    by eexists. }
  rewrite (bind_ok _ _ _ _ _ Ez). cbv beta iota.
  change (later (Nat.iter n later w2)) with (Nat.iter (S n) later w2) in *.
  assert (same_times (Nat.iter (S n) later w) (Nat.iter (S n) later w2)) as Ht3
    by by apply same_times_iter.
  warn_step Ht3 w4 Ht4; [apply only_warns_if|].
  eexists w4, _, (S n). split_conj; [reflexivity|by apply inv_at_time|done| | |done].
  - intros s Hs. by apply (restored_same_times w w2 c s), Hin.
  - intros k Hk. rewrite <- (Hst0 k). by apply Hout.
Qed.
End reload.
