(* ===== verification/Demo.v ===== *)
(** Small concrete caches, over integer keys and values, on which the theorems of the other
    files are instantiated and the counterexamples are run. *)

From stdpp Require Import base tactics numbers option strings sets list relations.
From S2P Require Import Prelude PyDict PyFloat PyMonad Config Entry Policies PolicyLaws.
From S2P Require Import Storage Jobs Shard Cache Reach.
Local Open Scope string_scope.
Local Open Scope Z_scope.

#[export] Instance Z_key_hash : KeyHash Z := λ z, z.
#[export] Instance Z_none : PyNone Z := -1.

Definition demo_clock : FakeClock := mkFakeClock fzero.
Definition demo_source : SlowDictBackend Z Z := slow_dict_init fzero demo_clock.

(** [Cache(capacity=2, policy=..., shard_count=1, worker_count=..., queue_size=...,
    write_mode=...)] *)
Definition demo_args (policy write_mode : string) (workers queue_size : Z) : InitArgs :=
  mkInitArgs (Some 2) None (Some policy) (Some 1) (Some workers) None (Some queue_size)
    (Some write_mode) None.

(** The value of a result, for results known to be [Ok]. *)
Definition unwrap {A} (d : A) (r : result A) : A := match r with Ok a => a | Raise _ => d end.

Definition empty_cache : Cache Z Z (AnyPolicy Z) :=
  mkCache default_config demo_clock CACHE_ONLY demo_source [] (queue_init 0) runtime_init None
    CREATED false (mkPool 0 false 0 false) (mkScheduler false false) [].

Definition demo_cache (policy write_mode : string) (workers queue_size : Z)
    : Cache Z Z (AnyPolicy Z) :=
  unwrap empty_cache
    (cache_init None (demo_args policy write_mode workers queue_size) demo_source demo_clock).

Lemma demo_reachable policy write_mode workers queue_size :
  (match cache_init None (demo_args policy write_mode workers queue_size) demo_source demo_clock with
   | Ok _ => true | Raise _ => false end) = true →
  reachable (demo_cache policy write_mode workers queue_size).
Proof.
  intros Hok. unfold demo_cache.
  destruct (cache_init _ _ _ _) as [c|e] eqn:E; [|done]. simpl.
  exists None, (demo_args policy write_mode workers queue_size), demo_source, demo_clock, c.
  split_conj; [done|exact E|apply rtc_refl].
Qed.

(** Running calls one after the other for their effect on the state. *)
Definition run {A} (m : M (Cache Z Z (AnyPolicy Z)) A) (c : Cache Z Z (AnyPolicy Z))
    : Cache Z Z (AnyPolicy Z) := (m c).1.

Lemma run_reachable {A} (m : M (Cache Z Z (AnyPolicy Z)) A) c :
  (∀ c, cache_step c (m c).1) → reachable c → reachable (run m c).
Proof. intros Hm Hr. by eapply reachable_step. Qed.

Lemma run_worker_reachable c :
  wp_started (c_pool c) = true → reachable c → reachable (run worker_step c).
Proof. intros Hs Hr. by eapply reachable_step, step_quiet, step_worker. Qed.

(** Three puts into a cache of two entries. *)
Definition demo_three (policy write_mode : string) : Cache Z Z (AnyPolicy Z) :=
  run (cache_put 3 30 TTL_UNSET) (run (cache_put 2 20 TTL_UNSET)
    (run (cache_put 1 10 (TTL_SECONDS (float_of_Z 5))) (demo_cache policy write_mode 1 0))).

Lemma demo_three_reachable policy write_mode :
  (match cache_init None (demo_args policy write_mode 1 0) demo_source demo_clock with
   | Ok _ => true | Raise _ => false end) = true →
  reachable (demo_three policy write_mode).
Proof.
  intros Hok. unfold demo_three. repeat (apply run_reachable; [intros c; apply step_quiet, step_put|]).
  by apply demo_reachable.
Qed.

(** The same with the first key expired: put at time 0 with a lifetime of 5, read at 6. *)
Definition demo_expired (policy write_mode : string) : Cache Z Z (AnyPolicy Z) :=
  set_clock (mkFakeClock (fadd fzero (float_of_Z 6)))
    (run (cache_put 2 20 TTL_UNSET)
      (run (cache_put 1 10 (TTL_SECONDS (float_of_Z 5))) (demo_cache policy write_mode 1 0))).

Lemma demo_expired_reachable policy write_mode :
  (match cache_init None (demo_args policy write_mode 1 0) demo_source demo_clock with
   | Ok _ => true | Raise _ => false end) = true →
  clk_now (c_clock (run (cache_put 2 20 TTL_UNSET)
      (run (cache_put 1 10 (TTL_SECONDS (float_of_Z 5))) (demo_cache policy write_mode 1 0)))) = fzero →
  reachable (demo_expired policy write_mode).
Proof.
  intros Hok Hclk. unfold demo_expired. eapply reachable_step.
  - apply (run_reachable (cache_put 2 20 TTL_UNSET)); [intros c; apply step_quiet, step_put|].
    apply (run_reachable (cache_put 1 10 (TTL_SECONDS (float_of_Z 5)))); [intros c; apply step_quiet, step_put|]. by apply demo_reachable.
  - eapply step_quiet, (step_clock (float_of_Z 6)). unfold clock_advance. by rewrite Hclk.
Qed.
