(* ===== verification/CacheTheorems.v ===== *)
(** What the cache promises its callers: bounds, consistency of its parts, the map it
    implements, errors, and agreement with the source backend in write-through mode.  Every
    theorem is about any cache a program can reach. *)

From stdpp Require Import base tactics numbers option strings sets list relations.
From S2P Require Import Prelude PyDict PyFloat PyMonad Config Entry Policies PolicyLaws.
From S2P Require Import Storage Jobs Shard ShardInv ShardSpec Cache CacheInv CacheSafety.
From S2P Require Import Reach CacheSpec Demo.
Local Open Scope string_scope.
Local Open Scope list_scope.
Local Open Scope Z_scope.

Section lemmas.
Context {K V : Type} `{EqDecision K} `{KeyHash K} `{PyNone V}.
Implicit Types (c : Cache K V (AnyPolicy K)) (key k : K) (value : V).

Lemma reachable_shard c i sh :
  reachable c → c_shards c !! i = Some sh →
  shard_ok (c_config c) (c_write_mode c) i (sd_data (c_source c)) sh.
Proof. intros Hr Hi. by apply (ci_shards _ _ _ _ (reachable_inv c Hr)). Qed.

(** The sizes, from the invariant alone: it also holds while workers are busy. *)
Lemma inv_capacities cfg mode b c :
  cache_inv cfg mode b c →
  sh_capacity <$> c_shards c = shard_capacities (cfg_capacity cfg) (cfg_shard_count cfg).
Proof.
  intros Hc. apply list_eq. intros i. rewrite list_lookup_fmap.
  destruct (c_shards c !! i) as [sh|] eqn:E.
  - destruct (ci_shards _ _ _ _ Hc i sh E) as [_ Hs].
    pose proof (ss_capacity _ _ _ _ _ _ _ Hs) as Hcap. simpl in *. rewrite Hcap.
    destruct (lookup_lt_is_Some_2 (shard_capacities (cfg_capacity cfg) (cfg_shard_count cfg)) i)
      as [x ->]; [|done].
    rewrite shard_capacities_length, <- (ci_length _ _ _ _ Hc). by eapply lookup_lt_Some.
  - apply lookup_ge_None in E. symmetry. apply lookup_ge_None.
    by rewrite shard_capacities_length, <- (ci_length _ _ _ _ Hc).
Qed.

Lemma inv_sizes cfg mode b c :
  cache_inv cfg mode b c → Forall2 Z.le ((λ sh, backend_size (sh_backend sh)) <$> c_shards c)
                                        (sh_capacity <$> c_shards c).
Proof.
  intros Hc. apply Forall2_fmap_2, Forall_Forall2_diag, Forall_lookup. intros i sh Hsh.
  destruct (ci_shards _ _ _ _ Hc i sh Hsh) as [Hw _]. apply (sw_size _ Hw).
Qed.

Lemma inv_size_bounded cfg mode b c :
  cache_inv cfg mode b c →
  Forall (λ sh, backend_size (sh_backend sh) ≤ sh_capacity sh) (c_shards c) ∧
  py_sum (sh_capacity <$> c_shards c) = cfg_capacity cfg ∧
  cst_size (cache_stats c) ≤ cfg_capacity cfg.
Proof.
  intros Hc. pose proof (inv_sizes _ _ _ c Hc) as Hs.
  assert (py_sum (sh_capacity <$> c_shards c) = cfg_capacity cfg) as Hsum.
  { rewrite (inv_capacities _ _ _ c Hc). apply shard_capacities_sum, (ci_valid _ _ _ _ Hc). }
  split_conj; [|done|].
  - apply Forall_lookup. intros i sh Hsh. destruct (ci_shards _ _ _ _ Hc i sh Hsh) as [Hw _].
    apply (sw_size _ Hw).
  - rewrite <- Hsum. unfold cache_stats. cbn [cst_size].
    rewrite <- (list_fmap_compose shard_stats sst_size). by apply py_sum_le_pointwise.
Qed.
End lemmas.

(** ** Bounds and consistency *)

(** C5: the cache never exceeds its capacity: in every cache a program can reach, by any
    sequence of calls, worker activity, clock ticks and source failures, each shard holds at
    most its capacity, the shards' capacities add up to the configured one, and so the size
    that [size] and [stats] report is at most the configured capacity. *)
Theorem reachable_size_bounded {K V} `{EqDecision K} `{KeyHash K} `{PyNone V}
    (c : Cache K V (AnyPolicy K)) :
  reachable c →
  Forall (λ sh, backend_size (sh_backend sh) ≤ sh_capacity sh) (c_shards c) ∧
  py_sum (sh_capacity <$> c_shards c) = cfg_capacity (c_config c) ∧
  cst_size (cache_stats c) ≤ cfg_capacity (c_config c).
Proof. intros Hr. by eapply inv_size_bounded, reachable_inv. Qed.

Lemma reachable_size_bounded_witness :
  reachable (demo_three "lru" "cache-only") ∧
  cst_size (cache_stats (demo_three "lru" "cache-only")) ≤ 2.
Proof.
  assert (reachable (demo_three "lru" "cache-only")) as Hr by (apply demo_three_reachable; reflexivity).
  split; [exact Hr|]. apply (reachable_size_bounded _ Hr).
Defined.

(** C28: the bookkeeping is bounded: a version mark exists only for a live key or one with an
    outstanding flush, a tombstone only for a dead key with an outstanding flush, and outside
    write-back mode there are no tombstones and no pending flushes, no entry is dirty, and the
    version marks are exactly those of the live keys. *)
Theorem reachable_metadata_bounded {K V} `{EqDecision K} `{KeyHash K} `{PyNone V}
    (c : Cache K V (AnyPolicy K)) (sh : CacheShard K V (AnyPolicy K)) :
  reachable c → sh ∈ c_shards c →
  (∀ k, k ∈ dict_keys (sh_version_marks sh) →
     k ∈ dict_keys (sh_backend sh) ∨ k ∈ dict_keys (sh_pending_flushes sh)) ∧
  (∀ k, k ∈ dict_keys (sh_tombstones sh) →
     k ∉ dict_keys (sh_backend sh) ∧ k ∈ dict_keys (sh_pending_flushes sh)) ∧
  (c_write_mode c ≠ WRITE_BACK →
     sh_tombstones sh = [] ∧ sh_pending_flushes sh = [] ∧ count_dirty sh = 0 ∧
     ∀ k, k ∈ dict_keys (sh_version_marks sh) ↔ k ∈ dict_keys (sh_backend sh)).
Proof.
  intros Hr [i Hi]%list_elem_of_lookup_1. destruct (reachable_shard c i sh Hr Hi) as [Hw Hs].
  pose proof (sc_keys _ (sw_core _ Hw)) as Hk.
  assert (∀ k, k ∈ dict_keys (sh_version_marks sh) →
    k ∈ dict_keys (sh_backend sh) ∨ k ∈ dict_keys (sh_pending_flushes sh)) as Hmarks.
  { intros k. rewrite !dict_keys_get. apply (ko_mark _ _ _ _ (Hk k)). }
  split_conj; [done| |].
  - intros k [v Hv]%dict_keys_get. destruct (ko_tomb _ _ _ _ (Hk k) v Hv) as (_ & He & Hp).
    by rewrite dict_not_keys_get, dict_keys_get.
  - intros Hm. destruct (ss_mode _ _ _ _ _ _ _ Hs Hm) as [Hp Ht Hc]. split_conj; [done..| |].
    + unfold count_dirty. rewrite filter_all_false; [done|]. intros e He Hd.
      apply dict_values_elem in He as [k He]; [|apply (ss_dict _ _ _ _ _ _ _ Hs)].
      rewrite (Hc k e He) in Hd. done.
    + intros k. split.
      * intros [?|Hk']%Hmarks; [done|]. rewrite Hp in Hk'. by apply not_elem_of_nil in Hk'.
      * intros [e He]%dict_keys_get. apply dict_keys_get. rewrite (ko_entry _ _ _ _ (Hk k) e He). eauto.
Qed.

Lemma reachable_metadata_bounded_witness :
  let c := demo_three "lru" "write-back" in
  ∃ sh, c_shards c = [sh] ∧ dict_keys (sh_version_marks sh) = [1; 2; 3] ∧
        (1 ∈ dict_keys (sh_backend sh) ∨ 1 ∈ dict_keys (sh_pending_flushes sh)).
Proof.
  assert (reachable (demo_three "lru" "write-back")) as Hr by (apply demo_three_reachable; reflexivity).
  eexists. split; [vm_compute; reflexivity|]. split; [vm_compute; reflexivity|].
  eapply (proj1 (reachable_metadata_bounded _ _ Hr ltac:(vm_compute; left))).
  vm_compute. left.
Defined.

(** C29: routing and policies are consistent with the entries: a stored key lives only in the
    shard [_shard_for] names, under its own key, and the eviction policy of a shard tracks
    exactly the keys the shard stores, each once. *)
Theorem reachable_routing_and_policy {K V} `{EqDecision K} `{KeyHash K} `{PyNone V}
    (c : Cache K V (AnyPolicy K)) (i : nat) (sh : CacheShard K V (AnyPolicy K)) :
  reachable c → c_shards c !! i = Some sh →
  sh_index sh = Z.of_nat i ∧
  (∀ k e, dict_get (sh_backend sh) k = Some e → e_key e = k ∧ shard_for c k = Z.of_nat i) ∧
  (∀ k, k ∈ tracked (sh_policy sh) ↔ k ∈ dict_keys (sh_backend sh)) ∧
  NoDup (tracked (sh_policy sh)) ∧
  policy_len (sh_policy sh) = backend_size (sh_backend sh).
Proof.
  intros Hr Hi. destruct (reachable_shard c i sh Hr Hi) as [Hw Hs].
  pose proof (sw_core _ Hw) as Hcore. split_conj.
  - apply (ss_index _ _ _ _ _ _ _ Hs).
  - intros k e He. split; [by apply (sc_backend _ Hcore)|].
    assert (k ∈ dict_keys (sh_backend sh)) as Hk by (apply dict_keys_get; eauto).
    apply (ss_live _ _ _ _ _ _ _ Hs) in Hk. pose proof (reachable_inv c Hr) as Hc.
    unfold shard_for. rewrite (ci_length _ _ _ _ Hc), Z2Nat.id; [done|].
    pose proof (cv_shards _ (ci_valid _ _ _ _ Hc)). lia.
  - apply (sc_tracked _ Hcore).
  - apply tracked_nodup, (sc_policy _ Hcore).
  - symmetry. by apply core_len.
Qed.

Lemma reachable_routing_and_policy_witness :
  let c := demo_three "lfu" "cache-only" in
  ∃ sh, c_shards c !! 0%nat = Some sh ∧ policy_len (sh_policy sh) = backend_size (sh_backend sh).
Proof.
  assert (reachable (demo_three "lfu" "cache-only")) as Hr by (apply demo_three_reachable; reflexivity).
  eexists. split; [vm_compute; reflexivity|].
  eapply (reachable_routing_and_policy _ 0%nat _ Hr). vm_compute. reflexivity.
Defined.

(** The counters account for the entries: in every shard the entries stored now and the
    ones deleted, evicted and expired so far are at most the puts, no such counter is
    negative, and the totals [stats] reports obey the same inequality. *)
Theorem reachable_counters_balance {K V} `{EqDecision K} `{KeyHash K} `{PyNone V}
    (c : Cache K V (AnyPolicy K)) :
  reachable c →
  let s := cache_stats c in
  Forall (λ x, 0 ≤ sst_deletes x ∧ 0 ≤ sst_evictions x ∧ 0 ≤ sst_expirations x ∧
               sst_size x + sst_deletes x + sst_evictions x + sst_expirations x ≤ sst_puts x)
    (cst_shards s) ∧
  cst_size s + cst_deletes s + cst_evictions s + cst_expirations s ≤ cst_puts s.
Proof.
  intros Hr. cbn zeta.
  assert (Forall (λ x, 0 ≤ sst_deletes x ∧ 0 ≤ sst_evictions x ∧ 0 ≤ sst_expirations x ∧
      sst_size x + sst_deletes x + sst_evictions x + sst_expirations x ≤ sst_puts x)
    (cst_shards (cache_stats c))) as Hf.
  { simpl. apply Forall_fmap, Forall_lookup. intros i sh Hsh.
    destruct (reachable_shard c i sh Hr Hsh) as [_ []]. simpl. lia. }
  split; [done|]. unfold cache_stats in *. cbn [cst_shards cst_size cst_deletes cst_evictions
    cst_expirations cst_puts] in *.
  induction Hf as [|x l Hx _ IH]; csimpl; lia.
Qed.

Lemma reachable_counters_balance_witness :
  let s := cache_stats (demo_three "fifo" "cache-only") in
  cst_size s = 2 ∧ cst_evictions s = 1 ∧ cst_puts s = 3 ∧
  cst_size s + cst_deletes s + cst_evictions s + cst_expirations s ≤ cst_puts s.
Proof.
  assert (reachable (demo_three "fifo" "cache-only")) as Hr by (apply demo_three_reachable; reflexivity).
  do 3 (split; [vm_compute; reflexivity|]). apply (reachable_counters_balance _ Hr).
Defined.

(** ** The cache as a map *)

Section refinement.
Context {K V : Type} `{EqDecision K} `{KeyHash K} `{PyNone V}.
Implicit Types (key : K) (value : V).

(** The calls of the specification and their outcomes. *)
Inductive map_call : Type :=
  | CGet key (dflt : V)
  | CContains key
  | CPut key value (ttl : ttl_arg)
  | CDelete key
  | CClear
  | CExpireAll
  | CInspect key.
Inductive map_outcome : Type :=
  | ODone
  | OValue value
  | OBool (b : bool)
  | OCount (n : Z)
  | OEntry (e : option V)
  | OError (e : exn).

(** The specification: a map from keys to values.  [put] may make the map forget one other
    key, or its own when the policy chooses it or the lifetime is over at once; a source
    failure changes nothing, and stops [clear] half-way. *)
Inductive map_step (m : K → option V) : map_call → map_outcome → (K → option V) → Prop :=
  | ms_get key dflt m' :
      (∀ k, m' k = m k) → map_step m (CGet key dflt) (OValue (default dflt (m key))) m'
  | ms_contains key m' :
      (∀ k, m' k = m k) → map_step m (CContains key) (OBool (is_not_none (m key))) m'
  | ms_put key value ttl evicted x out m' :
      out = ODone ∨ out = OError QueueBackpressureError →
      x = Some value ∨ x = None →
      (evicted ≠ None → m key = None) →
      (∀ k, m' k = if decide (evicted = Some k) then None else if decide (key = k) then x else m k) →
      map_step m (CPut key value ttl) out m'
  | ms_delete key out m' :
      out = OBool true ∨ (out = OBool false ∧ m key = None) ∨ out = OError QueueBackpressureError →
      (∀ k, m' k = if decide (key = k) then None else m k) →
      map_step m (CDelete key) out m'
  | ms_clear out m' :
      out = ODone ∨ out = OError QueueBackpressureError →
      (∀ k, m' k = None) → map_step m CClear out m'
  | ms_clear_stopped msg m' :
      (∀ k, m' k = m k ∨ m' k = None) → map_step m CClear (OError (OSError msg)) m'
  | ms_expire_all n m' : 0 ≤ n → (∀ k, m' k = m k) → map_step m CExpireAll (OCount n) m'
  | ms_inspect key m' : (∀ k, m' k = m k) → map_step m (CInspect key) (OEntry (m key)) m'
  | ms_rejected key value ttl e m' :
      (∃ msg, e = OSError msg ∨ e = ValidationError msg) →
      (∀ k, m' k = m k) → map_step m (CPut key value ttl) (OError e) m'
  | ms_delete_rejected key msg m' :
      (∀ k, m' k = m k) → map_step m (CDelete key) (OError (OSError msg)) m'.

(** The call on the cache. *)
Definition outcome {A} (f : A → map_outcome) (r : result A) : map_outcome :=
  match r with Ok a => f a | Raise e => OError e end.
Definition call_cache (call : map_call) (c : Cache K V (AnyPolicy K))
    : Cache K V (AnyPolicy K) * map_outcome :=
  match call with
  | CGet key dflt => let '(c', r) := cache_get key dflt c in (c', outcome OValue r)
  | CContains key => let '(c', r) := cache_contains key c in (c', outcome OBool r)
  | CPut key value ttl => let '(c', r) := cache_put key value ttl c in (c', outcome (λ _, ODone) r)
  | CDelete key => let '(c', r) := cache_delete key c in (c', outcome OBool r)
  | CClear => let '(c', r) := cache_clear c in (c', outcome (λ _, ODone) r)
  | CExpireAll => let '(c', r) := expire_all c in (c', outcome OCount r)
  | CInspect key =>
      let '(c', r) := cache_inspect key c in (c', outcome (λ s, OEntry (s_value <$> s)) r)
  end.

Lemma refine_put (c c' : Cache K V (AnyPolicy K)) key value ttl r :
  put_outcome c key value ttl c' r →
  map_step (view c) (CPut key value ttl) (outcome (λ _, ODone) r) (view c').
Proof.
  assert (put_stored c c' key value ttl →
    ∀ out, out = ODone ∨ out = OError QueueBackpressureError →
    map_step (view c) (CPut key value ttl) out (view c')) as Hst.
  { intros (sh & entry & ev & Hsh & Hv & Hev & Hval & _) out Hout.
    apply (ms_put _ key value ttl ev (live_value (clock_now (c_clock c)) (Some entry)) out);
      [done| | |done].
    - simpl. rewrite Hval. destruct (is_expired _ _); eauto.
    - intros Hne. destruct ev as [x|]; [|done]. rewrite (view_slot c key sh Hsh). unfold visible.
      pose proof (pe_new _ _ _ Hev x eq_refl) as Hm. unfold dict_mem in Hm. by destruct (dict_get _ key). }
  intros Ho. destruct r as [[]|e]; [by apply Hst; [|left]|]. destruct e; try done; simpl in *.
  - apply Hst; [by destruct Ho|by right].
  - destruct Ho as (_ & Hv & _). apply ms_rejected; eauto.
  - destruct Ho as (_ & Hv & _). apply ms_rejected; eauto.
Qed.

Lemma refine_delete (c c' : Cache K V (AnyPolicy K)) key r :
  delete_result c key c' r → map_step (view c) (CDelete key) (outcome OBool r) (view c').
Proof.
  intros Ho. destruct r as [b|e]; simpl in *.
  - destruct Ho as (-> & _ & Hv & _). apply ms_delete; [|done].
    destruct (stored c key) as [x|] eqn:E; simpl; [by left|]. right. left. split; [done|].
    unfold view, visible. unfold stored in E. destruct (c_shards c !! slot c key) as [sh|]; [|done].
    simpl in E. by rewrite E.
  - destruct e; try done; destruct Ho as (_ & Ho).
    + apply ms_delete; [by auto|]. by destruct Ho as (_ & Hv & _).
    + apply ms_delete_rejected. by destruct Ho.
Qed.

(** Every call on a consistent open cache is a step of the specification. *)
Lemma refine_call cfg mode busy call (c : Cache K V (AnyPolicy K)) :
  cache_inv cfg mode busy c → is_open c →
  let '(c', out) := call_cache call c in map_step (view c) call out (view c').
Proof.
  intros Hc Ho. destruct call as [key dflt|key|key value ttl|key| | |key]; simpl.
  - pose proof (run_get cfg mode busy c key dflt Hc Ho) as Hr.
    destruct (cache_get key dflt c) as [c' r]. destruct Hr as (-> & Hv & _). by apply ms_get.
  - pose proof (run_contains cfg mode busy c key Hc Ho) as Hr.
    destruct (cache_contains key c) as [c' r]. destruct Hr as (-> & Hv). by apply ms_contains.
  - pose proof (run_put cfg mode busy c key value ttl Hc Ho) as Hr.
    destruct (cache_put key value ttl c) as [c' r]. by apply refine_put.
  - pose proof (run_delete cfg mode busy c key Hc Ho) as Hr.
    destruct (cache_delete key c) as [c' r]. by apply refine_delete.
  - pose proof (run_clear cfg mode busy c Hc Ho) as Hr.
    destruct (cache_clear c) as [c' [[]|e]]; destruct Hr as [Hv Hr].
    + apply ms_clear; [by left|apply Hr].
    + destruct e; try done; simpl in *; [apply ms_clear; [by right|apply Hr]|by apply ms_clear_stopped].
  - destruct (run_expire_all cfg mode busy c Hc Ho) as (c' & n & E & Hcl & Hlk & Hn). rewrite E.
    apply ms_expire_all; [|by intros k; eapply view_expired].
    rewrite Hn. pose proof (total_size_expired cfg mode busy c c' Hc Hlk). lia.
  - pose proof (run_inspect cfg mode busy c key Hc Ho) as Hr.
    destruct (cache_inspect key c) as [c' r]. destruct Hr as ((s & -> & Hs) & Hv). simpl. rewrite Hs.
    by apply ms_inspect.
Qed.
End refinement.
Arguments map_call : clear implicits.

(** C1: the cache refines a map: on every reachable cache that is not closed, [get],
    [contains], [put], [delete], [clear], [expire_all] and [inspect], with whatever outcome they
    have, are steps of the map specification [map_step] on the visible values.  In
    particular a read returns the current value and changes nothing, a write changes its own
    key and makes at most one other key disappear, and a failed write-through call changes
    nothing. *)
Theorem cache_refines_map {K V} `{EqDecision K} `{KeyHash K} `{PyNone V}
    (c : Cache K V (AnyPolicy K)) (call : map_call K V) :
  reachable c → is_open c →
  map_step (view c) call (call_cache call c).2 (view (call_cache call c).1).
Proof.
  intros Hr Ho. pose proof (refine_call _ _ _ call c (reachable_inv c Hr) Ho) as Hs.
  by destruct (call_cache call c).
Qed.

Lemma cache_refines_map_witness :
  let c := demo_three "lru" "cache-only" in
  (call_cache (CGet 3 0) c).2 = OValue 30 ∧
  map_step (view c) (CGet 3 0) (OValue 30) (view (call_cache (CGet 3 0) c).1).
Proof.
  assert ((call_cache (CGet 3 0) (demo_three "lru" "cache-only")).2 = OValue 30) as E
    by (vm_compute; reflexivity).
  split; [exact E|]. rewrite <- E at 1.
  apply (cache_refines_map (demo_three "lru" "cache-only") (CGet 3 0)).
  - apply demo_three_reachable. reflexivity.
  - left. vm_compute. reflexivity.
Defined.

(** C30: what [put] does on every reachable cache, and when.  It raises [RuntimeError] exactly on a cache that is closed or closing, and then leaves it as it is; otherwise
    [ValidationError] exactly for a lifetime that is not positive; otherwise [OSError] exactly in write-through mode when the source is about to fail;
    otherwise [QueueBackpressureError] exactly in write-back mode with a full queue; and otherwise it returns ([put_result]).  A put that returns, and one that raises
    [QueueBackpressureError], has stored the value, which is then visible unless its key was evicted or its lifetime is over at once, with at most
    one key evicted, and only to make room for a new key; in write-through mode the source has the value, and in write-back mode a put that returns has queued
    its flush job.  With [ValidationError] and [OSError] no visible value and no source value has changed, and nothing was queued. *)
Theorem put_outcomes {K V} `{EqDecision K} `{KeyHash K} `{PyNone V}
    (c : Cache K V (AnyPolicy K)) (key : K) (value : V) (ttl : ttl_arg) :
  reachable c →
  let '(c', r) := cache_put key value ttl c in
  r = put_result c ttl ∧ put_queued c key value c' r ∧ (¬ is_open c → c' = c) ∧
  (is_open c → put_outcome c key value ttl c' r).
Proof.
  intros Hr. pose proof (run_put _ _ _ c key value ttl (reachable_inv c Hr)) as Hp.
  pose proof (run_put_result _ _ _ c key value ttl (reachable_inv c Hr)) as Hq.
  destruct (cache_put key value ttl c) as [c' r]. naive_solver.
Qed.

(** A lifetime of 0 seconds. *)
Lemma put_outcomes_witness :
  let c := demo_three "lru" "cache-only" in
  (cache_put 4 40 (TTL_SECONDS fzero) c).2
    = Raise (ValidationError "ttl must be positive when provided") ∧
  ∀ k, view (cache_put 4 40 (TTL_SECONDS fzero) c).1 k = view c k.
Proof.
  intros c.
  assert (reachable c) as Hr by (apply demo_three_reachable; reflexivity).
  assert (is_open c) as Ho by (left; vm_compute; reflexivity).
  pose proof (put_outcomes c 4 40 (TTL_SECONDS fzero) Hr) as Hp.
  destruct (cache_put 4 40 (TTL_SECONDS fzero) c) as [c' r] eqn:E. destruct Hp as (Hres & _ & _ & Hout). specialize (Hout Ho).
  assert (put_result c (TTL_SECONDS fzero) = Raise (ValidationError "ttl must be positive when provided")) as Hv by (vm_compute; reflexivity).
  rewrite Hv in Hres. subst r. split; [reflexivity|]. intros k. apply Hout.
Defined.

(** A value that was put is read back: when [put] returns, or raises
    [QueueBackpressureError], under a policy other than LFU and with a lifetime that ends after
    the current time, [get] on the resulting cache returns the value, whatever the write mode. *)
Theorem put_get_roundtrip {K V} `{EqDecision K} `{KeyHash K} `{PyNone V}
    (c : Cache K V (AnyPolicy K)) (key : K) (value dflt : V) (ttl : ttl_arg) :
  reachable c → is_open c → str_lower (cfg_policy (c_config c)) ≠ "lfu" →
  ttl_live (cfg_default_ttl (c_config c)) ttl (clock_now (c_clock c)) = true →
  (cache_put key value ttl c).2 = Ok tt ∨
    (cache_put key value ttl c).2 = Raise QueueBackpressureError →
  (cache_get key dflt (cache_put key value ttl c).1).2 = Ok value.
Proof.
  intros Hr Ho Hp Ht. pose proof (reachable_inv c Hr) as Hc.
  pose proof (run_put _ _ _ c key value ttl Hc Ho) as Hput.
  pose proof (keeps_put _ _ _ key value ttl c Hc) as Hc'.
  pose proof (put_keeps_state key value ttl c) as Hst.
  destruct (cache_put key value ttl c) as [c' r]. cbn [fst snd] in *. intros Hout.
  assert (put_stored c c' key value ttl) as (sh & entry & ev & Hsh & Hv & Hev & _ & Hl & _)
    by (destruct Hout as [-> | ->]; [done|by destruct Hput]).
  assert (view c' key = Some value) as Hview.
  { rewrite Hv. unfold put_visible. rewrite decide_False, decide_True; [by apply Hl|done|].
    apply (pe_keeps _ _ _ Hev). destruct (reachable_shard c _ sh Hr Hsh) as [_ Hs].
    by apply (ss_keeps _ _ _ _ _ _ _ Hs). }
  assert (is_open c') as Ho' by (unfold is_open in *; by rewrite Hst).
  pose proof (run_get _ _ _ c' key dflt Hc' Ho') as Hg. destruct (cache_get key dflt c') as [c2 r2].
  destruct Hg as (-> & _). by rewrite Hview.
Qed.

Lemma put_get_roundtrip_witness :
  let c := demo_three "lru" "write-back" in
  (cache_get 9 0 (run (cache_put 9 90 (TTL_SECONDS (float_of_Z 3))) c)).2 = Ok 90.
Proof.
  apply (put_get_roundtrip (demo_three "lru" "write-back") 9 90 0 (TTL_SECONDS (float_of_Z 3))).
  - apply demo_three_reachable. reflexivity.
  - left. vm_compute. reflexivity.
  - vm_compute. discriminate.
  - vm_compute. reflexivity.
  - left. vm_compute. reflexivity.
Defined.

(** ** Expiration *)

(** Expiration is exact: [expire_all] on an open reachable cache returns the number of
    entries it removed; afterwards a key is stored exactly when it was stored and not
    expired, with the same entry, and no visible value has changed. *)
Theorem expire_all_exact {K V} `{EqDecision K} `{KeyHash K} `{PyNone V}
    (c : Cache K V (AnyPolicy K)) :
  reachable c → is_open c →
  let c' := (expire_all c).1 in
  (expire_all c).2 = Ok (total_size c - total_size c') ∧
  (∀ k, stored c' k = match stored c k with
                      | Some e => if is_expired e (clock_now (c_clock c)) then None else Some e
                      | None => None
                      end) ∧
  (∀ k, view c' k = view c k).
Proof.
  intros Hr Ho. cbn zeta. pose proof (reachable_inv c Hr) as Hc.
  destruct (run_expire_all _ _ _ c Hc Ho) as (c' & n & E & Hcl & Hlk & Hn). rewrite E. cbn [fst snd].
  split_conj; [by rewrite Hn| |by intros k; eapply view_expired].
  intros k. unfold stored, slot, shard_for. rewrite (expired_length c c' Hlk), Hlk. unfold expire_at.
  set (i := Z.to_nat _). destruct (c_shards c !! i) as [sh|] eqn:Ei; [|done]. simpl.
  apply expire_shard_backend. by apply (ci_shards _ _ _ _ Hc) in Ei as [? _].
Qed.

Lemma expire_all_exact_witness :
  let c := demo_expired "lru" "cache-only" in
  is_not_none (stored c 1) = true ∧ is_not_none (stored (expire_all c).1 1) = false ∧
  (expire_all c).2 = Ok 1 ∧ view (expire_all c).1 2 = view c 2.
Proof.
  do 3 (split; [vm_compute; reflexivity|]).
  apply (expire_all_exact (demo_expired "lru" "cache-only")).
  - apply demo_expired_reachable; vm_compute; reflexivity.
  - left. vm_compute. reflexivity.
Defined.

(** [dump] without a limit lists exactly the live entries, shard by shard in the order
    of the backend, each with its remaining lifetime, and removes the expired ones it meets:
    the shards it leaves are those [expire_all] leaves. *)
Theorem dump_lists_live_entries {K V} `{EqDecision K} `{KeyHash K} `{PyNone V}
    (c : Cache K V (AnyPolicy K)) :
  reachable c → is_open c →
  (cache_dump None c).2
  = Ok (mjoin ((λ sh, (λ e, snapshot e (clock_now (c_clock c)))
                        <$> filter (λ e, is_expired e (clock_now (c_clock c)) = false)
                              (backend_entries (sh_backend sh))) <$> c_shards c)) ∧
  c_shards (cache_dump None c).1 = c_shards (expire_all c).1.
Proof.
  intros Hr Ho. pose proof (reachable_inv c Hr) as Hc.
  destruct (run_dump _ _ _ None c Hc Ho) as (c1 & E1 & _ & Hlk1).
  destruct (run_expire_all _ _ _ c Hc Ho) as (c2 & n & E2 & _ & Hlk2 & _).
  rewrite E1, E2. cbn [fst snd]. split; [|by apply list_eq; intros i; rewrite Hlk1, Hlk2].
  do 2 f_equal. apply list_eq. intros i. rewrite !list_lookup_fmap. unfold shard_indices, py_range.
  rewrite list_lookup_fmap, Nat2Z.id. destruct (c_shards c !! i) as [sh|] eqn:Ei.
  - rewrite lookup_seq_lt by (by eapply lookup_lt_Some). simpl. unfold live_at.
    by rewrite Nat2Z.id, Ei.
  - apply lookup_ge_None in Ei. by rewrite lookup_seq_ge.
Qed.

Lemma dump_lists_live_entries_witness :
  let c := demo_expired "fifo" "cache-only" in
  s_key <$> unwrap [] (cache_dump None c).2 = [2] ∧
  c_shards (cache_dump None c).1 = c_shards (expire_all c).1.
Proof.
  split; [vm_compute; reflexivity|].
  apply (dump_lists_live_entries (demo_expired "fifo" "cache-only")).
  - apply demo_expired_reachable; vm_compute; reflexivity.
  - left. vm_compute. reflexivity.
Defined.

(** [inspect] applies lazy expiration: inspecting a key whose entry is stored but expired
    returns [None] and removes the entry, counting one expiration and no miss. *)
Theorem inspect_removes_expired {K V} `{EqDecision K} `{KeyHash K} `{PyNone V}
    (c : Cache K V (AnyPolicy K)) (key : K) (e : CacheEntry K V) :
  reachable c → is_open c → stored c key = Some e → is_expired e (clock_now (c_clock c)) = true →
  let c' := (cache_inspect key c).1 in
  (cache_inspect key c).2 = Ok None ∧ stored c' key = None ∧
  cst_expirations (cache_stats c') = cst_expirations (cache_stats c) + 1 ∧
  cst_misses (cache_stats c') = cst_misses (cache_stats c).
Proof.
  intros Hr Ho He Hx. cbn zeta. pose proof (reachable_inv c Hr) as Hc.
  destruct (slot_lookup _ _ _ c key Hc) as [sh Hsh].
  unfold stored in He. rewrite Hsh in He. simpl in He.
  unfold cache_inspect. rewrite (bind_ok _ _ c c tt) by by apply run_open.
  rewrite (bind_ok _ _ c c c) by done. rewrite (bind_ok _ _ c c _) by apply run_now.
  erewrite run_lock by done. unfold inspect_locked, get_entry. rewrite He, Hx. cbn [fst snd].
  pose proof (remove_entry_stats key RExpire sh) as Hst.
  pose proof (remove_entry_fields key RExpire sh) as Hf.
  destruct (remove_entry_locked key RExpire sh) as [sh' b]. destruct Hf as (_ & Hb & _). cbn [fst] in *.
  unfold dict_mem in Hst. rewrite He in Hst. simpl in Hst. split_conj; [done| | |].
  - unfold stored. rewrite slot_with_shard. simpl.
    rewrite list_lookup_insert_eq by (by eapply lookup_lt_Some). simpl. by rewrite Hb, dict_get_pop_eq.
  - unfold cache_stats. cbn [cst_expirations]. rewrite <- !(list_fmap_compose shard_stats sst_expirations).
    simpl. rewrite (py_sum_insert _ _ _ sh) by done. simpl. rewrite Hst. simpl. lia.
  - unfold cache_stats. cbn [cst_misses]. rewrite <- !(list_fmap_compose shard_stats sst_misses).
    simpl. rewrite (py_sum_insert _ _ _ sh) by done. simpl. rewrite Hst. simpl. lia.
Qed.

Lemma inspect_removes_expired_witness :
  let c := demo_expired "lru" "cache-only" in
  ∃ e, stored c 1 = Some e ∧ is_expired e (clock_now (c_clock c)) = true ∧
       stored (cache_inspect 1 c).1 1 = None.
Proof.
  eexists. split; [vm_compute; reflexivity|]. split; [vm_compute; reflexivity|].
  eapply (inspect_removes_expired (demo_expired "lru" "cache-only") 1).
  - apply demo_expired_reachable; vm_compute; reflexivity.
  - left. vm_compute. reflexivity.
  - vm_compute. reflexivity.
  - vm_compute. reflexivity.
Defined.

(** ** Write-through *)

(** C12: in write-through mode the cache agrees with the source of truth: in every reachable
    cache whatever [get] returns for a key that is visible is the value the source backend
    holds for it, through every failed put, delete and clear. *)
Theorem write_through_agrees_with_source {K V} `{EqDecision K} `{KeyHash K} `{PyNone V}
    (c : Cache K V (AnyPolicy K)) (key : K) (dflt value : V) :
  reachable c → c_write_mode c = WRITE_THROUGH → is_open c → view c key = Some value →
  (cache_get key dflt c).2 = Ok value ∧
  dict_get (source_snapshot (c_source c)) key = Some value.
Proof.
  intros Hr Hm Ho Hv. pose proof (reachable_inv c Hr) as Hc. split.
  - pose proof (run_get _ _ _ c key dflt Hc Ho) as Hg. destruct (cache_get key dflt c) as [c' r].
    destruct Hg as (-> & _). by rewrite Hv.
  - destruct (slot_lookup _ _ _ c key Hc) as [sh Hsh]. rewrite (view_slot c key sh Hsh) in Hv.
    destruct (reachable_shard c _ sh Hr Hsh) as [_ Hs]. unfold visible in Hv.
    destruct (dict_get (sh_backend sh) key) as [e|] eqn:E; [|done]. simpl in Hv.
    destruct (is_expired e _); [done|]. injection Hv as <-. by apply (ss_source _ _ _ _ _ _ _ Hs).
Qed.

(** The second put of key 3 fails in the source; the old value is still there, and the same. *)
Lemma write_through_agrees_with_source_witness :
  let c := run (cache_put 3 33 TTL_UNSET) (run (with_source (fail_next 1)) (demo_three "lru" "write-through")) in
  (cache_get 3 0 c).2 = Ok 30 ∧ dict_get (source_snapshot (c_source c)) 3 = Some 30.
Proof.
  apply (write_through_agrees_with_source
    (run (cache_put 3 33 TTL_UNSET) (run (with_source (fail_next 1)) (demo_three "lru" "write-through"))) 3 0 30).
  - apply run_reachable; [intros c; apply step_quiet, step_put|].
    apply run_reachable; [intros c; apply step_quiet, step_source_failures|]. apply demo_three_reachable. reflexivity.
  - vm_compute. reflexivity.
  - left. vm_compute. reflexivity.
  - vm_compute. reflexivity.
Defined.

(** ** Construction *)

(** A cache as the constructor should leave it: as many shards as configured, each with its index, its share of the capacity (the first ones get the remainder), no entries, a policy
    of the configured kind that tracks nothing, and empty bookkeeping; an empty queue of the configured bound; the configured number of workers, not started. *)
Record new_shard {K V} `{EqDecision K} (cfg : CacheConfig) (i : nat) (sh : CacheShard K V (AnyPolicy K)) : Prop := {
  ns_index : sh_index sh = Z.of_nat i;
  ns_capacity : sh_capacity sh = cfg_capacity cfg / cfg_shard_count cfg
    + (if Z.of_nat i <? cfg_capacity cfg mod cfg_shard_count cfg then 1 else 0);
  ns_backend : sh_backend sh = [];
  ns_policy : policy_name (sh_policy sh) = str_lower (cfg_policy cfg) ∧ tracked (sh_policy sh) = [];
  ns_books : sh_singleflight sh = [] ∧ sh_version_marks sh = [] ∧ sh_tombstones sh = [] ∧ sh_pending_flushes sh = [];
}.
Record new_cache {K V} `{EqDecision K} (cfg : CacheConfig) (source : SlowDictBackend K V) (clock : FakeClock)
    (c : Cache K V (AnyPolicy K)) : Prop := {
  nc_config : c_config c = cfg ∧ write_mode_value (c_write_mode c) = cfg_write_mode cfg;
  nc_given : c_source c = source ∧ c_clock c = clock;
  nc_shards : Z.of_nat (length (c_shards c)) = cfg_shard_count cfg ∧
              ∀ i sh, c_shards c !! i = Some sh → new_shard cfg i sh;
  nc_capacity : py_sum (sh_capacity <$> c_shards c) = cfg_capacity cfg;
  nc_queue : q_items (c_queue c) = [] ∧ q_maxsize (c_queue c) = cfg_queue_size cfg ∧ q_unfinished (c_queue c) = 0;
  nc_pool : wp_count (c_pool c) = cfg_worker_count cfg ∧ wp_started (c_pool c) = false ∧ wp_threads (c_pool c) = 0;
  nc_state : c_state c = CREATED ∧ c_flights c = [];
}.

Lemma init_shard_new {K V} `{EqDecision K} cfg (shards : list (CacheShard K V (AnyPolicy K))) i sh :
  init_shards cfg 0 (shard_capacities (cfg_capacity cfg) (cfg_shard_count cfg)) = Ok shards →
  shards !! i = Some sh → new_shard cfg i sh.
Proof.
  intros Es Hi. destruct (init_shards_spec _ _ _ _ Es) as [_ Hsh]. destruct (Hsh i sh Hi) as (cap & policy & Hcap & Hpol & ->).
  unfold shard_capacities in Hcap. rewrite list_lookup_fmap in Hcap. apply fmap_Some in Hcap as (x & Hx & ->).
  unfold py_range in Hx. apply list_lookup_fmap_Some in Hx as (y & -> & Hy). apply lookup_seq in Hy as [-> _].
  split; cbn; [lia|done|done| |done]. destruct (make_policy_init _ _ Hpol) as (_ & Ht & _). split; [|done].
  unfold make_policy in Hpol. destruct (String.eqb_spec (str_lower (cfg_policy cfg)) "fifo") as [->|];
    [by injection Hpol as <-|]. destruct (String.eqb_spec (str_lower (cfg_policy cfg)) "lru") as [->|];
    [by injection Hpol as <-|]. destruct (String.eqb_spec (str_lower (cfg_policy cfg)) "lfu") as [->|]; by simplify_eq.
Qed.
Lemma init_capacities {K V} `{EqDecision K} cfg index caps (shards : list (CacheShard K V (AnyPolicy K))) :
  init_shards cfg index caps = Ok shards → sh_capacity <$> shards = caps.
Proof.
  revert index shards. induction caps as [|cap caps IH]; intros index shards; cbn [init_shards]; [by intros [= <-]|].
  destruct (make_backend _) as [bk|]; [|done]. destruct (make_policy _) as [p|]; [|done].
  destruct (init_shards cfg (index + 1) caps) as [l|] eqn:E; [|done]. intros [= <-]. csimpl. f_equal. by eapply IH.
Qed.

(** C34: the constructor accepts exactly the valid configurations.  Without [config=] it
    builds the configuration from the arguments and their defaults and fails with
    [ConfigurationError] exactly when that is invalid; with a (validated) [config=] it fails
    exactly when another setting is passed too.  A cache it builds is as [new_cache] says: as many shards as configured, each empty, with its index, its share of the capacity
    and a policy of the configured kind, the shares adding up to the capacity; an empty queue of the configured bound, the configured workers, none started, the source and clock
    it was given, and the state CREATED. *)
Theorem cache_init_accepts_exactly_valid {K V} `{EqDecision K} `{KeyHash K} `{PyNone V}
    (config : option CacheConfig) (args : InitArgs) (source : SlowDictBackend K V) (clock : FakeClock) :
  (∀ cfg, config = Some cfg → config_valid cfg) →
  match config with
  | Some cfg =>
      (conflicting args = [] ∧ ∃ c : Cache K V (AnyPolicy K),
         cache_init config args source clock = Ok c ∧ new_cache cfg source clock c) ∨
      (conflicting args ≠ [] ∧ ∃ msg,
         cache_init (K:=K) (V:=V) config args source clock = Raise (ConfigurationError msg))
  | None =>
      (config_valid (args_config args) ∧ ∃ c : Cache K V (AnyPolicy K),
         cache_init config args source clock = Ok c ∧ new_cache (args_config args) source clock c) ∨
      (¬ config_valid (args_config args) ∧ ∃ msg,
         cache_init (K:=K) (V:=V) config args source clock = Raise (ConfigurationError msg))
  end.
Proof.
  intros Hv.
  assert (∀ cfg, init_config config args = Ok cfg → config_valid cfg → ∃ c : Cache K V (AnyPolicy K),
    cache_init config args source clock = Ok c ∧ new_cache cfg source clock c) as Hok.
  { intros cfg Hi Hc. destruct (parse_write_mode_supported _ (cv_mode _ Hc)) as (mode & Em & Hmode).
    destruct (init_shards_ok (K:=K) (V:=V) cfg 0
      (shard_capacities (cfg_capacity cfg) (cfg_shard_count cfg)) (cv_backend _ Hc) (cv_policy _ Hc))
      as [shards Es]. pose proof (cv_shards _ Hc) as Hn.
    unfold cache_init. rewrite Hi, Em, Es. eexists. split; [done|]. split; cbn; [done|done| | |done|done|done].
    - split; [|intros i sh; by apply init_shard_new]. destruct (init_shards_spec _ _ _ _ Es) as [-> _].
      rewrite shard_capacities_length. lia.
    - rewrite (init_capacities _ _ _ _ Es). by apply shard_capacities_sum. }
  destruct config as [cfg|].
  - specialize (Hv cfg eq_refl). destruct (conflicting args) as [|x l] eqn:Ec.
    + left. split; [done|]. apply Hok; [|done]. simpl. by rewrite Ec.
    + right. split; [done|]. unfold cache_init. simpl. rewrite Ec. eauto.
  - destruct (post_init (args_config args)) as [cfg|e] eqn:Ep.
    + left. pose proof (post_init_id _ _ Ep) as ->. apply post_init_valid in Ep as Hval.
      split; [done|]. by apply Hok.
    + right. split; [rewrite <- post_init_valid; congruence|].
      destruct (post_init_error_kind _ _ Ep) as [msg ->]. unfold cache_init. simpl. rewrite Ep. eauto.
Qed.

Lemma cache_init_accepts_exactly_valid_witness :
  ∃ c : Cache Z Z (AnyPolicy Z),
    cache_init (Some default_config) no_args demo_source demo_clock = Ok c ∧ new_cache default_config demo_source demo_clock c.
Proof.
  assert (∀ cfg, Some default_config = Some cfg → config_valid cfg) as Hv.
  { intros cfg [= <-]. apply post_init_valid. vm_compute. reflexivity. }
  destruct (cache_init_accepts_exactly_valid (Some default_config) no_args demo_source demo_clock Hv)
    as [[_ Hc]|[Hn _]]; [exact Hc|]. destruct Hn. vm_compute. reflexivity.
Defined.
