(* ===== verification/CliTheorems.v ===== *)
(** What the command line promises: a command leaves the state file as it was or complete, well
    formed and bounded, what is saved is what is loaded, and what one command puts the next
    one gets.  Two theorems show where a sequence of commands differs from one process. *)

From Stdlib Require Import ZArith SpecFloat.
From stdpp Require Import base tactics numbers option strings pretty sets list relations.
From S2P Require Import Prelude PyDict PyFloat PyMonad Config Hashing Json Tables Entry Files.
From S2P Require Import FileLock Policies PolicyLaws Storage Jobs Shard ShardInv ShardSpec Cache.
From S2P Require Import CliBasic CacheInv CacheSafety Reach CacheSpec CacheOnly CliSpec CliReload.
From S2P Require Import CacheTheorems.
Local Open Scope string_scope.
Local Open Scope list_scope.
Local Open Scope Z_scope.

(** Look at the first part of a sequence that is known to return. *)
Ltac step_ok w' a E :=
  rewrite run_bind;
  match goal with
  | |- match ?x with _ => _ end = _ → _ => destruct x as [w' [a|?]] eqn:E; [|discriminate]
  end.

(** ** The caches of the commands *)

Section inv.
Context `{KeyHash typed_key}.
Context (float_repr : float → string) (str_repr : string → string).
Context (float_of_str : string → option float) (json_loads : string → option pyval).
Context (from_file : string → result CacheConfig).
Local Abbreviation load_state := (load_cache_state float_repr str_repr float_of_str from_file).
Local Abbreviation locked := (run_locked float_repr str_repr float_of_str json_loads from_file).

(** A consistent cache that was not started. *)
Definition cli_ok (cfg : CacheConfig) (c : CliCache) : Prop :=
  cache_inv cfg CACHE_ONLY 0 c ∧ c_state c = CREATED.

Lemma cli_ok_open cfg c : cli_ok cfg c → is_open c.
Proof. intros [_ Hs]. by left. Qed.

Lemma cli_ok_at_time cfg w c : cli_ok cfg c → cli_ok cfg (at_time w c).
Proof. intros [Hc Hs]. split; [by apply inv_at_time|done]. Qed.

Lemma call_ok cfg {A} (m : M CliCache A) c w w' c' a :
  keeps (cli_ok cfg) m → cli_ok cfg c → cache_call m c w = (w', Ok (c', a)) →
  cli_ok cfg c' ∧ w' = later w ∧ m (at_time (later w) c) = (c', Ok a).
Proof.
  intros Hm Hc. rewrite cache_call_eq. pose proof (Hm _ (cli_ok_at_time cfg (later w) c Hc)) as Hc'.
  destruct (m _) as [c1 [a1|e]]; intros [= <- <- <-]. done.
Qed.

Lemma keeps_both {S A} (P Q : S → Prop) (m : M S A) :
  keeps P m → keeps Q m → keeps (λ s, P s ∧ Q s) m.
Proof. intros HP HQ s [? ?]. split; [by apply HP|by apply HQ]. Qed.

Lemma ok_put cfg key value ttl : keeps (cli_ok cfg) (cache_put key value ttl).
Proof. apply keeps_both; [apply keeps_put|apply same_state_put]. Qed.

Lemma ok_put_any cfg key value ttl : keeps (cli_ok cfg) (put_any key value ttl).
Proof.
  unfold put_any. destruct (json_key key); [apply ok_put|]. intros c Hc. rewrite run_bind.
  destruct (run_validate ttl c) as [->|(t & _ & _ & ->)]; done.
Qed.

Lemma ok_restore cfg key n : keeps (cli_ok cfg) (restore_entry_metadata key n).
Proof.
  apply keeps_both; [apply keeps_restore|].
  apply keeps_bind; [intros c Hc; unfold require_not_closed; rewrite run_bind; simpl; by case_match|].
  intros _. apply keeps_bind; [apply keeps_get|]. intros c. apply same_state_lock.
Qed.

Lemma load_item_ok cfg wall_now item c w w' c' :
  cli_ok cfg c → load_item float_of_str wall_now item c w = (w', Ok c') → cli_ok cfg c'.
Proof.
  intros Hc. unfold load_item. rewrite run_bind.
  destruct (ttl_from_state_item _ _ _ w) as [w1 [[|ttl]|e]]; [by intros [= _ <-]| |done].
  rewrite run_bind. destruct (cache_call (put_any _ _ _) c w1) as [w2 [[c1 []]|e]] eqn:E1; [|done].
  apply (call_ok cfg) in E1 as (Hc1 & _ & _); [|apply ok_put_any|done].
  destruct (item_hit_count item) as [n|]; [|by intros [= _ <-]]. rewrite run_bind.
  destruct (lift _ w2) as [w3 [k|e]]; [|done]. rewrite run_bind.
  destruct (cache_call (restore_entry_metadata k n) c1 w3) as [w4 [[c2 []]|e]] eqn:E2; [|done].
  apply (call_ok cfg) in E2 as (Hc2 & _ & _); [|apply ok_restore|done]. by intros [= _ <-].
Qed.

Lemma load_items_ok cfg wall_now items c w w' c' :
  cli_ok cfg c → load_items float_of_str wall_now items c w = (w', Ok c') → cli_ok cfg c'.
Proof.
  revert c w. induction items as [|item items IH]; intros c w Hc; cbn [load_items].
  - by intros [= _ <-].
  - rewrite run_bind. destruct (load_item _ _ _ c w) as [w1 [c1|e]] eqn:E; [|done].
    apply IH. by eapply load_item_ok.
Qed.

Lemma ok_size cfg : keeps (cli_ok cfg) cache_size.
Proof.
  intros c Hc. unfold cache_size. rewrite (bind_ok _ _ c c tt); [done|].
  by apply run_open, (cli_ok_open cfg).
Qed.

Lemma load_state_ok a p w w' c :
  config_arg a = None → load_state p a w = (w', Ok c) → cli_ok (flags_config a) c.
Proof.
  intros Ha. unfold load_cache_state. step_ok w1 cfg E1.
  unfold config_from_args in E1. rewrite Ha in *. injection E1 as <- Hpost.
  pose proof (post_init_id _ _ Hpost) as ->. apply post_init_valid in Hpost as Hv.
  rewrite !(bind_ok _ _ w w _) by reflexivity.
  destruct (fresh_cache (flags_config a) (mkFakeClock (w_mono w)) Hv eq_refl) as (c0 & -> & Hc0 & Hs0 & _).
  rewrite (bind_ok _ _ w w c0) by done.
  step_ok w2 state E2. step_ok w3 u3 E3. rewrite (bind_ok _ _ w3 w3 w3) by done.
  step_ok w4 entries E4. cbv zeta. step_ok w5 u5 E5. step_ok w6 c1 E6.
  apply (load_items_ok (flags_config a)) in E6; [|by split].
  step_ok w7 r7 E7. destruct r7 as [c2 z]. step_ok w8 u8 E8.
  apply (call_ok (flags_config a)) in E7 as (Hc2 & _ & _); [|apply ok_size|done].
  by intros [= _ <-].
Qed.

Lemma state_not_closed st : keeps (same_state st) (require_not_closed (K:=typed_key) (V:=pyval) (P:=AnyPolicy typed_key)).
Proof. intros c Hc. unfold require_not_closed. rewrite run_bind. simpl. by case_match. Qed.

Lemma ok_delete cfg key : keeps (cli_ok cfg) (cache_delete key).
Proof.
  apply keeps_both; [apply keeps_delete|]. apply keeps_bind; [apply state_not_closed|]. intros _.
  apply keeps_bind; [apply keeps_get|]. intros c. apply keeps_bind; [apply same_state_lock_src|].
  intros [existed job]. apply keeps_bind; [|intros _; apply keeps_ret].
  destruct job; [apply same_state_enqueue_flush|apply keeps_ret].
Qed.

Lemma ok_clear cfg : keeps (cli_ok cfg) cache_clear.
Proof.
  apply keeps_both; [apply keeps_clear|]. apply keeps_bind; [apply state_not_closed|]. intros _.
  apply keeps_bind; [apply keeps_get|]. intros c. apply keeps_bind; [|intros jobs; apply same_state_enqueue_flush].
  generalize (shard_indices c) as l. induction l as [|i l IH]; cbn [clear_shards]; [apply keeps_ret|].
  apply keeps_bind; [apply keeps_get|]. intros c'. apply keeps_bind; [apply same_state_lock_src|].
  intros jobs. apply keeps_bind; [apply IH|]. intros; apply keeps_ret.
Qed.

(** The file a save leaves. *)
Lemma save_content cfg p (c : CliCache) w w1 :
  cache_inv cfg CACHE_ONLY 0 c → is_open c → save_cache_state p c w = (w1, Ok tt) →
  file_at w1 p
  = Some (mkFile (JsonText (VDict (loaded_state cfg (all_live (at_time (later w) c))))) (w_wall (later w))).
Proof.
  intros Hc Ho. unfold save_cache_state. rewrite run_bind, cache_call_eq.
  pose proof (inv_at_time cfg (later w) c Hc) as Hca.
  destruct (run_dump cfg CACHE_ONLY 0 None _ Hca Ho) as (c1 & E & _).
  pose proof (keeps_dump cfg CACHE_ONLY 0 None _ Hca) as Hinv. rewrite E in *. cbn [fst] in Hinv.
  rewrite (ci_config _ _ _ _ Hinv). fold (all_live (at_time (later w) c)). cbv zeta. intros Hw.
  pose proof (write_json_spec p (saved_state cfg (all_live (at_time (later w) c))) (later w)) as Ha.
  cbv zeta in Ha. rewrite Hw in Ha. destruct Ha as [_ [-> _]]. by rewrite saved_state_loaded.
Qed.

Lemma print_out_file line p w : file_at (print_out line w).1 p = file_at w p.
Proof. unfold print_out, os_call. destruct (w_alive w); [|done]. by destruct (next_fault w). Qed.
Lemma print_out_ok line w w' p : print_out line w = (w', Ok tt) → file_at w' p = file_at w p.
Proof. intros E. pose proof (print_out_file line p w) as Hf. by rewrite E in Hf. Qed.

(** A command that saves ends with a save of a consistent cache. *)
Lemma command_saves cfg p cmd key c w w' :
  saves cmd = true → cli_ok cfg c →
  run_command float_repr str_repr json_loads p cmd key c w = (w', Ok tt) →
  ∃ c1 w0 w1, cli_ok cfg c1 ∧ save_cache_state p c1 w0 = (w1, Ok tt) ∧ file_at w' p = file_at w1 p.
Proof.
  intros Hs Hc. destruct cmd; try done; cbn [run_command].
  - step_ok w1 u1 E1. step_ok w2 v E2. step_ok w3 r3 E3. destruct r3 as [c1 u3].
    apply (call_ok cfg) in E3 as (Hc1 & _ & _); [|apply ok_put_any|done].
    step_ok w4 u4 E4. destruct u4. intros Ep. exists c1, w3, w4. split_conj; [done..|]. by eapply print_out_ok.
  - step_ok w1 k E1. step_ok w3 r3 E3. destruct r3 as [c1 b].
    apply (call_ok cfg) in E3 as (Hc1 & _ & _); [|apply ok_delete|done].
    step_ok w4 u4 E4. destruct u4. intros Ep. exists c1, w3, w4. split_conj; [done..|]. by eapply print_out_ok.
  - step_ok w3 r3 E3. destruct r3 as [c1 b].
    apply (call_ok cfg) in E3 as (Hc1 & _ & _); [|apply ok_clear|done].
    step_ok w4 u4 E4. destruct u4. intros Ep. exists c1, w3, w4. split_conj; [done..|]. by eapply print_out_ok.
Qed.

Lemma length_join_sum {A} (ls : list (list A)) :
  Z.of_nat (length (mjoin ls)) = py_sum ((λ l, Z.of_nat (length l)) <$> ls).
Proof. induction ls as [|l ls IH]; [done|]. csimpl. rewrite length_app. lia. Qed.

Lemma all_live_bounded cfg (c : CliCache) :
  cli_ok cfg c → Z.of_nat (length (all_live c)) ≤ cfg_capacity cfg.
Proof.
  intros [Hc _]. destruct (inv_size_bounded _ _ _ _ Hc) as (_ & _ & Hsize). etransitivity; [|exact Hsize].
  transitivity (Z.of_nat (length (mjoin ((λ sh, dict_keys (sh_backend sh)) <$> c_shards c)))).
  - rewrite <- (length_fmap s_key). apply Nat2Z.inj_le, NoDup_length_le; [by eapply all_live_nodup|].
    intros k (s & -> & Hs)%list_elem_of_fmap. apply (all_live_elem cfg) in Hs as (e & He & _); [|done].
    unfold stored in He. destruct (c_shards c !! _) as [sh|] eqn:Hsh; [|done]. simpl in He.
    apply list_elem_of_join. exists (dict_keys (sh_backend sh)). split; [apply dict_keys_get; eauto|].
    apply list_elem_of_fmap. exists sh. split; [done|]. by eapply list_elem_of_lookup_2.
  - rewrite length_join_sum. unfold cache_stats. cbn [cst_size]. rewrite <- !list_fmap_compose.
    apply Z.eq_le_incl. f_equal. apply list_fmap_ext. intros i sh _. simpl.
    unfold backend_size. by rewrite dict_len_keys.
Qed.

Lemma stored_key cfg (c : CliCache) k e :
  cache_inv cfg CACHE_ONLY 0 c → stored c k = Some e → e_key e = k.
Proof.
  intros Hc. unfold stored. destruct (c_shards c !! slot c k) as [sh|] eqn:Hsh; [|done]. simpl.
  destruct (ci_shards _ _ _ _ Hc _ sh Hsh) as [Hw _]. apply (proj2 (sc_backend _ (sw_core _ Hw))).
Qed.

(** What a cache saves, as the file is read back. *)
Lemma save_restores a (c : CliCache) w w1 w2 :
  config_arg a = None → cache_inv (flags_config a) CACHE_ONLY 0 c → is_open c →
  save_cache_state (a_state a) c w = (w1, Ok tt) →
  undisturbed w2 → file_at w2 (a_state a) = file_at w1 (a_state a) →
  ∃ w' c', load_state (a_state a) a w2 = (w', Ok c') ∧
    cache_inv (flags_config a) CACHE_ONLY 0 c' ∧ is_open c' ∧
    ∀ k, let t := w_mono (later w) in
      match stored c k with
      | Some e =>
          if is_expired e t then stored c' k = None
          else restored w2 c' (snapshot e t) ∧ e_key e = k
      | None => stored c' k = None
      end.
Proof.
  intros Ha Hc Ho Hs Hu Hf. apply (save_content (flags_config a)) in Hs; [|done..].
  rewrite Hs in Hf. set (ca := at_time (later w) c) in *.
  assert (cache_inv (flags_config a) CACHE_ONLY 0 ca) as Hca by by apply inv_at_time.
  destruct (load_saved float_repr str_repr float_of_str from_file a (flags_config a) (all_live ca)
    (w_wall (later w)) w2 Ha (ci_valid _ _ _ _ Hc) Hu Hf)
    as (w' & c' & n & E & Hc' & Ho' & Hin & Hout & _);
    [by eapply all_live_nodup|intros i; by apply all_live_room|].
  exists w', c'. split_conj; [done..|]. intros k t.
  assert (∀ s, s ∈ all_live ca ↔ ∃ e, stored c (s_key s) = Some e ∧ is_expired e t = false ∧ s = snapshot e t)
    as Hel by (intros s; by apply (all_live_elem (flags_config a) ca s)).
  assert ((∀ e, stored c k = Some e → is_expired e t = true) → stored c' k = None) as Hnone.
  { intros Hk. apply Hout. intros (s & -> & (e & He & Hx & _)%Hel)%list_elem_of_fmap.
    by rewrite (Hk e He) in Hx. }
  destruct (stored c k) as [e|] eqn:He; [|by apply Hnone].
  destruct (is_expired e t) eqn:Hx; [by apply Hnone; intros ? [= <-]|].
  assert (e_key e = k) as Hk by exact (stored_key _ c k e Hc He).
  split; [|done]. apply Hin, Hel. exists e. cbn [snapshot s_key]. by rewrite Hk.
Qed.

(** A [put] that never expires, under a policy that keeps new keys. *)
Lemma put_stores a key k value (c c' : CliCache) w w' :
  str_lower (a_policy a) ≠ "lfu" → cli_ok (flags_config a) c → json_key key = Some k →
  cache_call (put_any key value TTL_NONE) c w = (w', Ok (c', tt)) →
  ∃ e, stored c' k = Some e ∧ e_expires_at e = None ∧ e_value e = value.
Proof.
  intros Hp Hc Hk. rewrite cache_call_eq. unfold put_any. rewrite Hk.
  set (ca := at_time (later w) c). pose proof (cli_ok_at_time _ (later w) c Hc) as Hca. fold ca in Hca.
  destruct Hca as [Hca Hs]. assert (is_open ca) as Ho by by left.
  destruct (slot_lookup _ _ _ ca k Hca) as [sh Hsh].
  destruct (run_put_plain _ _ _ ca k value TTL_NONE sh eq_refl Hca Ho I Hsh) as [b ->].
  intros [= _ <-]. rewrite stored_with_shard by (by eapply lookup_lt_Some).
  rewrite decide_True by done. destruct (ci_shards _ _ _ _ Hca _ sh Hsh) as [Hw Hside].
  destruct (put_plain_get (cfg_default_ttl (flags_config a)) (clock_now (c_clock ca)) k value TTL_NONE sh Hw)
    as (ex & v & E); [by apply (ss_keeps _ _ _ _ _ _ _ Hside)|].
  eexists. split; [exact E|done].
Qed.

Lemma run_get_opt cfg (c : CliCache) k :
  cache_inv cfg CACHE_ONLY 0 c → is_open c → ∃ c', cache_get_opt k c = (c', Ok (view c k)).
Proof.
  intros Hc Ho. destruct (slot_lookup _ _ _ c k Hc) as [sh Hsh].
  unfold cache_get_opt. rewrite (bind_ok _ _ c c tt) by by apply run_open.
  rewrite (bind_ok _ _ c c c) by done. rewrite (bind_ok _ _ c c _) by apply run_now.
  erewrite bind_ok by by apply (run_lock cfg CACHE_ONLY 0).
  pose proof (read_value_visible (clock_now (c_clock c)) k true true sh) as Hr.
  destruct (read_value_locked _ k true true sh) as [sh' [found v]]. destruct Hr as [Hv _].
  rewrite (view_slot c k sh Hsh). cbn [fst snd]. eexists.
  destruct (visible _ sh k) as [x|]; destruct Hv as [-> ->]; done.
Qed.

Lemma view_stored (c : CliCache) k e :
  stored c k = Some e → e_expires_at e = None → view c k = Some (e_value e).
Proof.
  unfold stored, view. destruct (c_shards c !! slot c k) as [sh|]; [|done]. simpl.
  unfold visible. intros ->. simpl. unfold is_expired. by intros ->.
Qed.
End inv.

(** ** What the commands promise *)

(** The same invocation with another command. *)
Definition with_command (cmd : Command) (a : Args) : Args :=
  mkArgs (a_capacity a) (a_policy a) (a_shards a) (a_default_ttl a) (a_state a) (a_config a) cmd.

Section claims.
Context `{KeyHash typed_key}.
Context (float_repr : float → string) (str_repr : string → string).
Context (float_of_str : string → option float) (json_loads : string → option pyval).
Context (from_file : string → result CacheConfig).
Local Abbreviation load_state := (load_cache_state float_repr str_repr float_of_str from_file).
Local Abbreviation command := (run_command float_repr str_repr json_loads).
Local Abbreviation locked := (run_locked float_repr str_repr float_of_str json_loads from_file).
Local Abbreviation basic := (run_basic float_repr str_repr float_of_str json_loads from_file).


(** The cache of a command whose settings come from the flags is consistent. *)
Definition flags_ok (a : Args) (c : CliCache) : Prop := config_arg a = None → cli_ok (flags_config a) c.
Lemma keeps_flags_ok {A} a (m : M CliCache A) : keeps (cli_ok (flags_config a)) m → keeps (flags_ok a) m.
Proof. intros Hm c Hc Ha. by apply Hm, Hc. Qed.
Lemma flags_ok_at_time a w c : flags_ok a c → flags_ok a (at_time w c).
Proof. intros Hc Ha. by apply cli_ok_at_time, Hc. Qed.







(** The cache a saving command ends with. *)
Lemma locked_saves a w w' z :
  config_arg a = None → saves (a_command a) = true → locked a w = (w', Ok z) →
  ∃ c1 w0 w1, cli_ok (flags_config a) c1 ∧ save_cache_state (a_state a) c1 w0 = (w1, Ok tt) ∧
    file_at w' (a_state a) = file_at w1 (a_state a).
Proof.
  intros Ha Hs. unfold run_locked. step_ok w1 c E1. apply load_state_ok in E1; [|done].
  step_ok w2 key E2. step_ok w3 u E3. destruct u. intros [= <- _]. by eapply command_saves.
Qed.

(** What a state file holds.  When [put], [delete] or [clear] succeeds, the state file is
    JSON with the settings and a list of entries, each with its key, value, remaining lifetime
    and hit count, no key twice, no more entries in all than the capacity and none more for a
    shard than the shard's share: the next command with the same settings loads the file
    without evicting. *)
Theorem cli_saves_well_formed_state (a : Args) (w w' : World) (z : Z) :
  config_arg a = None → saves (a_command a) = true → locked a w = (w', Ok z) →
  ∃ snaps mtime,
    file_at w' (a_state a)
    = Some (mkFile (JsonText (VDict (loaded_state (flags_config a) snaps))) mtime) ∧
    NoDup (s_key <$> snaps) ∧ Z.of_nat (length snaps) ≤ a_capacity a ∧
    ∀ i, count_at (flags_config a) snaps i ≤ room_at (flags_config a) i.
Proof.
  intros Ha Hs E. destruct (locked_saves a w w' z Ha Hs E) as (c & w0 & w1 & Hc & Es & ->).
  rewrite (save_content _ _ _ _ _ (proj1 Hc) (cli_ok_open _ _ Hc) Es).
  pose proof (cli_ok_at_time _ (later w0) c Hc) as Hca.
  eexists _, _. split_conj; [reflexivity|by eapply all_live_nodup, Hca|by apply (all_live_bounded (flags_config a))|].
  intros i. apply all_live_room, Hca.
Qed.

(** C15: what is saved is what is loaded.  When a cache of the command line (with the settings
    of the flags) was saved, loading the file later with the same flags succeeds, and key by
    key: an entry that was expired at the time of saving, or whose remaining lifetime was 0,
    is gone; every other entry is back with its key, its value as JSON knows it, its hit count
    and its remaining lifetime, counted from the time of loading; and there are no others. *)
Theorem save_load_roundtrip (a : Args) (c : CliCache) (w w1 w2 : World) :
  config_arg a = None → reachable c → is_open c →
  c_config c = flags_config a → c_write_mode c = CACHE_ONLY →
  save_cache_state (a_state a) c w = (w1, Ok tt) →
  undisturbed w2 → file_at w2 (a_state a) = file_at w1 (a_state a) →
  ∃ w' c', load_state (a_state a) a w2 = (w', Ok c') ∧
    ∀ k, let t := w_mono (later w) in
      match stored c k with
      | Some e =>
          if is_expired e t || negb (restorable (snapshot e t)) then stored c' k = None
          else ∃ n v, stored c' k = Some (reloaded (w_mono (Nat.iter (S n) later w2)) v (snapshot e t))
      | None => stored c' k = None
      end.
Proof.
  intros Ha Hr Ho Hcfg Hm Hs Hu Hf. pose proof (reachable_inv c Hr) as Hc. rewrite Hcfg, Hm in Hc.
  destruct (save_restores float_repr str_repr float_of_str from_file a c w w1 w2 Ha Hc Ho Hs Hu Hf)
    as (w' & c' & E & _ & _ & Hk).
  exists w', c'. split; [done|]. intros k t. specialize (Hk k). cbv zeta in Hk. fold t in Hk.
  destruct (stored c k) as [e|]; [|done]. destruct (is_expired e t); [done|]. simpl.
  destruct Hk as [Hres Hk]. unfold restored in Hres. simpl in Hres. rewrite Hk in Hres.
  by destruct (restorable (snapshot e t)).
Qed.

(** The lookup of a later [get]. *)
Lemma locked_get a raw kj key k e w w1 (c : CliCache) w0 :
  config_arg a = None → cli_ok (flags_config a) c →
  save_cache_state (a_state a) c w0 = (w1, Ok tt) →
  parse_cli_key json_loads raw kj = Ok key → json_key key = Some k →
  stored c k = Some e → e_expires_at e = None →
  undisturbed w → file_at w (a_state a) = file_at w1 (a_state a) →
  ∃ w', locked (with_command (CmdGet raw kj) a) w = (w', Ok 0) ∧
    calm (w_files w) (w_rand w) (w_stdout w ++ [py_str float_repr str_repr (json_dump (e_value e))]) w'.
Proof.
  intros Ha Hc Hs Hkey Hk He Hx Hu Hf.
  destruct (save_restores float_repr str_repr float_of_str from_file
    (with_command (CmdGet raw kj) a) c w0 w1 w Ha (proj1 Hc) (cli_ok_open _ _ Hc) Hs Hu Hf)
    as (w2 & c2 & E & Hc2 & Ho2 & Hst). specialize (Hst k). cbv zeta in Hst. rewrite He in Hst.
  assert (is_expired e (w_mono (later w0)) = false) as Hexp by (unfold is_expired; by rewrite Hx).
  rewrite Hexp in Hst. destruct Hst as [Hres Hek]. unfold restored, restorable in Hres. simpl in Hres.
  rewrite Hx, Hek in Hres. destruct Hres as (n & v & Hst).
  assert (calm (w_files w) (w_rand w) (w_stdout w) w2) as Hcalm.
  { pose proof (keeps_load_state float_repr str_repr float_of_str from_file _ (a_state a)
      (with_command (CmdGet raw kj) a) (calm_stable (w_files w) (w_rand w) (w_stdout w)) w) as Hk2.
    change (a_state (with_command (CmdGet raw kj) a)) with (a_state a) in E. rewrite E in Hk2. by apply Hk2. }
  unfold run_locked. erewrite bind_ok by exact E. cbn [a_command with_command command_key].
  rewrite Hkey. erewrite bind_ok by done. rewrite run_bind. cbn [run_command].
  erewrite bind_ok; [|unfold hash_key; by rewrite Hk]. rewrite run_bind, cache_call_eq.
  destruct (run_get_opt (flags_config a) (at_time (later w2) c2) k) as [c3 ->];
    [by apply inv_at_time|done|].
  rewrite (view_stored _ _ _ (Hst : stored (at_time (later w2) c2) k = _)).
  2: { unfold reloaded. simpl. by rewrite Hx. }
  pose proof (later_calm _ _ _ _ Hcalm) as ([Hfi Hra] & Hout & Hal).
  unfold print_out. cbn beta iota. rewrite os_call_undisturbed by done. simpl. eexists. split; [done|]. split; [by split|]. split; [simpl; by rewrite Hout|done].
Qed.

(** C16: what one command puts the next one gets.  After [put --no-ttl KEY VALUE] succeeded
    under a policy other than LFU, [get KEY] with the same flags, at any later time, on a
    machine whose lock file is free and whose system calls work, exits with 0, prints the value as JSON
    returns it and leaves the state file and the lock as they were. *)
Theorem cli_put_then_get (a : Args) (raw value : string) (kj vj : bool) (v : pyval)
    (w w' w2 : World) (z : Z) (pauses : list (World → World)) :
  config_arg a = None → str_lower (a_policy a) ≠ "lfu" →
  parse_cli_value json_loads value vj = Ok v →
  locked (with_command (CmdPut raw value None true kj vj) a) w = (w', Ok z) →
  undisturbed w2 → file_at w2 (lock_path (a_state a)) = None →
  file_at w2 (a_state a) = file_at w' (a_state a) →
  ∃ w3, basic (with_command (CmdGet raw kj) a) pauses w2 = (w3, Ok (Some 0)) ∧
    w_stdout w3 = w_stdout w2 ++ [py_str float_repr str_repr (json_dump v)] ∧
    ∀ q, file_at w3 q = file_at w2 q.
Proof.
  intros Ha Hp Hv E Hu Hl Hf. revert E. unfold run_locked. step_ok w3 c E1.
  apply load_state_ok in E1; [|done]. step_ok w4 key E2. cbn [with_command a_command command_key] in E2.
  injection E2 as <- Hkey. step_ok w5 u5 E3. destruct u5. intros [= -> _]. revert E3.
  cbn [with_command a_command run_command]. rewrite Hv. step_ok w6 u6 E4. step_ok w7 v7 E5.
  injection E5 as -> ->. step_ok w8 r8 E6. destruct r8 as [c1 []].
  assert (∃ k, json_key key = Some k) as [k Hk].
  { revert E6. rewrite cache_call_eq. unfold put_any. destruct (json_key key) eqn:Ek; [by eauto|done]. }
  pose proof (put_stores a key k v7 c c1 _ _ Hp E1 Hk E6) as (e & He & Hx & <-).
  apply (call_ok (flags_config a)) in E6 as (Hc1 & _ & _); [|apply ok_put_any|done].
  step_ok w9 u9 E7. destruct u9. intros Hpo%(print_out_ok _ _ _ (a_state a)).
  change (a_state (with_command _ a)) with (a_state a) in E7. rewrite Hpo in Hf.
  unfold run_basic, with_state_lock, lock_enter. change (a_state (with_command _ a)) with (a_state a).
  rewrite !run_bind. unfold get_state. cbv beta iota.
  rewrite enter_loop_eq by done. rewrite Hl.
  set (wl := store_file (lock_path (a_state a)) OtherText w2).
  assert (file_at wl (a_state a) = file_at w9 (a_state a)) as Hfl.
  { subst wl. rewrite file_at_store, decide_False by apply lock_path_ne. done. }
  destruct (locked_get a raw kj key k e wl w9 c1 w8 Ha Hc1 E7 Hkey Hk He Hx Hu Hfl)
    as (w10 & E10 & [Hfi _] & Hout & Hal).
  rewrite run_bind. unfold attempt. rewrite E10. rewrite run_bind. unfold lock_exit.
  rewrite unlink_lock_eq by done. eexists. split; [reflexivity|]. split; [exact Hout|].
  intros q. rewrite file_at_remove. case_decide as Hq; [by rewrite <- Hq, Hl|].
  unfold file_at at 1. rewrite Hfi. subst wl. change (dict_get (w_files ?x) q) with (file_at x q).
  by rewrite file_at_store, decide_False.
Qed.
End claims.

(** ** Concrete sessions *)

#[local] Instance length_hash : KeyHash typed_key := λ k,
  match k with TStr s => Z.of_nat (String.length s) | TInt z => z | _ => 0 end.

(** [cachelab --capacity 2 --policy lru --state state.json CMD] *)
Definition cli_args (cmd : Command) : Args := mkArgs 2 "lru" 1 None ("", "state.json") None cmd.
Definition cli_world : World :=
  mkWorld [] (float_of_Z 1000) fzero (repeat (float_of_Z 1) 30) [] true "x" [] [] false.
Definition plain_put (key value : string) : Command := CmdPut key value None true false false.

(** Texts of floats do not matter here, and no JSON or configuration file is read. *)
Definition demo_locked : Args → M World Z :=
  run_locked (λ _, "0.0") (λ s, s) (λ _, None) (λ _, None) (λ _, Raise (OSError "open")).
Definition demo_basic (a : Args) : M World (option Z) :=
  run_basic (λ _, "0.0") (λ s, s) (λ _, None) (λ _, None) (λ _, Raise (OSError "open")) a [].

(** One process per command, each on the files the one before left. *)
Definition session (cmds : list Command) (w : World) : World :=
  foldl (λ w cmd, (demo_basic (cli_args cmd) w).1) w cmds.

(** The cache of one process that makes the same puts. *)
Definition one_process (puts : list (string * string)) : result CliCache :=
  match cache_init (Some (flags_config (cli_args CmdStats))) no_args
          (slow_dict_init fzero (mkFakeClock fzero)) (mkFakeClock fzero) with
  | Ok c => Ok (foldl (λ c '(k, v), (cache_put (TStr k) (VStr v) TTL_NONE c).1) c puts)
  | Raise e => Raise e
  end.

(** A sequence of commands is not one session.  With a capacity of 2 and LRU, after
    putting a, b, a again and c, one process has evicted b, the least recently used key; four
    commands have evicted a, the most recently written of the two: a reload puts the entries
    in the order they were first stored in, so the recency of the update is lost. *)
Theorem cli_forgets_recency :
  w_stdout (session [plain_put "a" "1"; plain_put "b" "2"; plain_put "a" "3"; plain_put "c" "4";
                     CmdGet "a" false; CmdGet "b" false; CmdGet "c" false] cli_world)
  = ["stored a"; "stored b"; "stored a"; "stored c"; "(miss)"; "2"; "4"] ∧
  match one_process [("a", "1"); ("b", "2"); ("a", "3"); ("c", "4")] with
  | Ok c => view c (TStr "a") = Some (VStr "3") ∧ view c (TStr "b") = None ∧
            view c (TStr "c") = Some (VStr "4")
  | Raise _ => False
  end.
Proof. vm_compute. done. Qed.

(** A value put with the lifetime NaN is lost.  [--ttl nan] passes the check for a
    positive lifetime, the command reports the key as stored, and in the process the entry
    never expires; but its remaining lifetime is saved as 0, so the next command does not
    load it. *)
Theorem cli_nan_ttl_is_lost :
  w_stdout (session [CmdPut "a" "1" (Some S754_nan) false false false; CmdGet "a" false] cli_world)
  = ["stored a"; "(miss)"] ∧
  match one_process [] with
  | Ok c => view (cache_put (TStr "a") (VStr "1") (TTL_SECONDS S754_nan) c).1 (TStr "a") = Some (VStr "1")
  | Raise _ => False
  end.
Proof. vm_compute. done. Qed.

Lemma cli_saves_well_formed_state_witness :
  let a := cli_args (plain_put "a" "1") in
  ∃ snaps mtime,
    file_at (demo_locked a cli_world).1 (a_state a)
    = Some (mkFile (JsonText (VDict (loaded_state (flags_config a) snaps))) mtime) ∧
    NoDup (s_key <$> snaps) ∧ Z.of_nat (length snaps) ≤ a_capacity a ∧
    ∀ i, count_at (flags_config a) snaps i ≤ room_at (flags_config a) i.
Proof.
  apply (cli_saves_well_formed_state (λ _, "0.0") (λ s, s) (λ _, None) (λ _, None)
    (λ _, Raise (OSError "open")) (cli_args (plain_put "a" "1")) cli_world _ 0).
  - reflexivity.
  - reflexivity.
  - vm_compute. reflexivity.
Defined.

Lemma cli_put_then_get_witness :
  ∃ w3, demo_basic (cli_args (CmdGet "a" false)) (demo_locked (cli_args (plain_put "a" "1")) cli_world).1
        = (w3, Ok (Some 0)) ∧
    w_stdout w3 = ["stored a"; "1"] ∧
    ∀ q, file_at w3 q = file_at (demo_locked (cli_args (plain_put "a" "1")) cli_world).1 q.
Proof.
  apply (cli_put_then_get (λ _, "0.0") (λ s, s) (λ _, None) (λ _, None)
    (λ _, Raise (OSError "open")) (cli_args CmdStats) "a" "1" false false (VStr "1") cli_world
    (demo_locked (cli_args (plain_put "a" "1")) cli_world).1
    (demo_locked (cli_args (plain_put "a" "1")) cli_world).1 0 []).
  - reflexivity.
  - discriminate.
  - reflexivity.
  - vm_compute. reflexivity.
  - vm_compute. split; reflexivity.
  - vm_compute. reflexivity.
  - reflexivity.
Defined.

Lemma flags_config_reachable (puts : list (string * string)) c :
  one_process puts = Ok c → reachable c.
Proof.
  unfold one_process. destruct (cache_init _ _ _ _) as [c0|] eqn:E; [|done]. intros [= <-].
  assert (reachable c0) as Hr.
  { eexists _, _, _, _, c0. split_conj; [|exact E|apply rtc_refl].
    intros cfg [= <-]. apply post_init_valid. reflexivity. }
  clear E. revert c0 Hr. induction puts as [|[k v] puts IH]; intros c0 Hr; [done|].
  simpl. apply IH. eapply reachable_step; [exact Hr|]. apply step_quiet, step_put.
Qed.

Lemma save_load_roundtrip_witness :
  match one_process [("a", "1"); ("b", "2")] with
  | Ok c =>
      let a := cli_args CmdStats in
      let w1 := (save_cache_state (a_state a) c cli_world).1 in
      ∃ w' c', load_cache_state (λ _, "0.0") (λ s, s) (λ _, None) (λ _, Raise (OSError "open"))
                 (a_state a) a w1 = (w', Ok c') ∧
        ∃ n v, stored c' (TStr "b")
          = Some (reloaded (w_mono (Nat.iter (S n) later w1)) v
              (mkEntrySnapshot (TStr "b") (VStr "2") fzero fzero 0 None None None 1 false))
  | Raise _ => False
  end.
Proof.
  destruct (one_process [("a", "1"); ("b", "2")]) as [c|] eqn:E; [|vm_compute in E; discriminate].
  intros a w1.
  destruct (save_load_roundtrip (λ _, "0.0") (λ s, s) (λ _, None) (λ _, Raise (OSError "open"))
    a c cli_world w1 w1) as (w' & c' & El & Hk).
  - reflexivity.
  - by eapply flags_config_reachable.
  - vm_compute in E. injection E as <-. left. reflexivity.
  - vm_compute in E. injection E as <-. reflexivity.
  - vm_compute in E. injection E as <-. reflexivity.
  - vm_compute in E. injection E as <-. vm_compute. reflexivity.
  - vm_compute in E. injection E as <-. vm_compute. split; reflexivity.
  - reflexivity.
  - exists w', c'. split; [exact El|]. specialize (Hk (TStr "b")).
    vm_compute in E. injection E as <-. exact Hk.
Defined.
