(* ===== verification/WorkloadTheorems.v ===== *)
(** What the workload runner measures: a simulation always ends with a result, its counters
    add up to the requests, a scan of distinct keys never hits, and a working set that fits
    is loaded once and never evicted, under every policy. *)

From Stdlib Require Import ZArith SpecFloat.
From stdpp Require Import base tactics numbers option strings pretty sets gmap list relations.
From S2P Require Import Prelude PyDict PyFloat PyMonad Config Json Tables Entry Policies.
From S2P Require Import PolicyLaws Storage Jobs Shard ShardInv ShardSpec Cache CliBasic Workloads.
From S2P Require Import CacheInv CacheSafety Reach CacheSpec CacheOnly CacheTheorems.
Local Open Scope string_scope.
Local Open Scope list_scope.
Local Open Scope Z_scope.

(** ** A cache without lifetimes *)

Section steps.
Context `{KeyHash string} (cfg : CacheConfig) (Hdttl : cfg_default_ttl cfg = None).
Implicit Types (c : SimCache) (sh : CacheShard string pyval (AnyPolicy string)).

Definition held c (k : string) : Prop := is_Some (stored c k).

Record sim_ok c : Prop := {
  so_inv : cache_inv cfg CACHE_ONLY 0 c;
  so_state : c_state c = CREATED;
  so_entries k e :
    stored c k = Some e → e_expires_at e = None ∧ is_none_value (e_value e) = false;
}.

Lemma sim_open c : sim_ok c → is_open c.
Proof. intros Hc. left. apply Hc. Qed.

Lemma sim_ok_clock t c : sim_ok c → sim_ok (set_clock (mkFakeClock t) c).
Proof. intros [Hi Hs He]. split; [by apply (inv_ext _ _ _ c)|done|done]. Qed.

Definition hits_of c : Z := cst_hits (cache_stats c).
Definition misses_of c : Z := cst_misses (cache_stats c).
Definition evictions_of c : Z := cst_evictions (cache_stats c).

(** A sum of counters after a change of one shard. *)
Lemma sum_stats (f : ShardStatsSnapshot → Z) (l : list (CacheShard string pyval (AnyPolicy string))) i sh sh' :
  l !! i = Some sh →
  py_sum (f <$> (shard_stats <$> <[i:=sh']> l))
  = py_sum (f <$> (shard_stats <$> l)) - f (shard_stats sh) + f (shard_stats sh').
Proof.
  intros Hi. rewrite <- !(list_fmap_compose shard_stats f).
  by rewrite (py_sum_insert (f ∘ shard_stats) _ _ sh).
Qed.

Lemma sum_with_shard i sh sh' c :
  c_shards c !! i = Some sh →
  hits_of (with_shard i sh' c) = hits_of c - hits (sh_stats sh) + hits (sh_stats sh') ∧
  misses_of (with_shard i sh' c) = misses_of c - misses (sh_stats sh) + misses (sh_stats sh') ∧
  evictions_of (with_shard i sh' c)
  = evictions_of c - evictions (sh_stats sh) + evictions (sh_stats sh').
Proof.
  intros Hi. unfold hits_of, misses_of, evictions_of, cache_stats. simpl.
  split_conj; by rewrite (sum_stats _ _ _ sh).
Qed.

(** A key is in the shard it is routed to. *)
Lemma sim_slot_of_stored c key sh x :
  sim_ok c → c_shards c !! slot c key = Some sh → dict_mem (sh_backend sh) x = true →
  slot c x = slot c key.
Proof.
  intros Hc Hsh Hm. apply (ci_shards _ _ _ _ (so_inv c Hc)) in Hsh as [_ Hs].
  apply dict_mem_keys, (ss_live _ _ _ _ _ _ _ Hs) in Hm. by apply (slot_routed cfg CACHE_ONLY 0 c key x (so_inv c Hc)).
Qed.

(** What a read and a write do, for a cache that is [sim_ok]. *)
Lemma sim_get_now c key :
  sim_ok c →
  let found := is_not_none (stored c key) in
  ∃ c' v, cache_get key VNone c = (c', Ok v) ∧ sim_ok c' ∧
    is_none_value v = negb found ∧ (∀ k, held c' k ↔ held c k) ∧
    hits_of c' = hits_of c + (if found then 1 else 0) ∧
    misses_of c' = misses_of c + (if found then 0 else 1) ∧ evictions_of c' = evictions_of c.
Proof.
  intros Hc found.
  pose proof (keeps_get_op cfg CACHE_ONLY 0 key VNone c (so_inv _ Hc)) as Hinv.
  revert Hinv. unfold cache_get. rewrite (bind_ok _ _ c c tt) by by apply run_open, sim_open.
  rewrite (bind_ok _ _ c c c) by done. rewrite (bind_ok _ _ c c _) by apply run_now.
  destruct (slot_lookup _ _ _ c key (so_inv _ Hc)) as [sh Hsh].
  erewrite bind_ok by by apply (run_lock cfg CACHE_ONLY 0 c key sh _ (so_inv _ Hc)).
  assert (stored c key = dict_get (sh_backend sh) key) as Hst by by apply stored_slot.
  pose proof (read_plain (clock_now (c_clock c)) key sh) as Hr. cbv zeta in Hr.
  destruct (read_value_locked _ key true true sh) as [sh' r].
  destruct Hr as (-> & Hget & Hh & Hm & He).
  { intros e. rewrite <- Hst. intros He. by destruct (so_entries _ Hc _ _ He). }
  rewrite <- Hst in Hget, Hh, Hm |- *. fold found in Hh, Hm |- *. cbn [fst snd]. intros Hinv.
  assert (∀ k, stored (with_shard (slot c key) sh' c) k
               = if decide (key = k) then (λ e, touch e (clock_now (c_clock c))) <$> stored c key
                 else stored c k) as Hstored.
  { intros k. rewrite stored_with_shard by (by eapply lookup_lt_Some). case_decide as Hs.
    - rewrite Hget. case_decide; [done|]. symmetry. apply stored_slot. by rewrite Hs.
    - case_decide; [|done]. by subst k. }
  destruct (sum_with_shard (slot c key) sh sh' c Hsh) as (Sh & Sm & Se).
  eexists _, _. split_conj; [reflexivity| | | |rewrite Sh; lia|rewrite Sm; lia|rewrite Se; lia].
  - split; [done|apply Hc|]. intros k e. rewrite Hstored. case_decide; [|by apply (so_entries _ Hc)].
    intros (e' & He' & ->)%fmap_Some. by apply (so_entries _ Hc) in He'.
  - subst found. destruct (stored c key) as [e|] eqn:E; [|done]. simpl. by apply (so_entries _ Hc) in E as [_ ->].
  - intros k. unfold held. rewrite Hstored. case_decide; [subst k|done]. by rewrite fmap_is_Some.
Qed.

Lemma sim_put_now c key value :
  sim_ok c → is_none_value value = false →
  ∃ c' evicted sh, cache_put key value TTL_UNSET c = (c', Ok tt) ∧ sim_ok c' ∧
    c_shards c !! slot c key = Some sh ∧
    (∀ k, held c' k ↔ evicted ≠ Some k ∧ (key = k ∨ held c k)) ∧
    (∀ x, evicted = Some x → ¬ held c key ∧ backend_size (sh_backend sh) = sh_capacity sh) ∧
    hits_of c' = hits_of c ∧ misses_of c' = misses_of c ∧
    evictions_of c' = evictions_of c + (if is_not_none evicted then 1 else 0).
Proof.
  intros Hc Hv.
  destruct (slot_lookup _ _ _ c key (so_inv _ Hc)) as [sh Hsh].
  assert (stored c key = dict_get (sh_backend sh) key) as Hst by by apply stored_slot.
  pose proof (keeps_put cfg CACHE_ONLY 0 key value TTL_UNSET c (so_inv _ Hc)) as Hinv.
  pose proof (put_keeps_state key value TTL_UNSET c) as Hstate.
  destruct (run_put_plain cfg CACHE_ONLY 0 c key value TTL_UNSET sh eq_refl (so_inv _ Hc)
    (sim_open _ Hc) I Hsh) as [b E].
  rewrite E in Hinv, Hstate |- *. cbn [fst] in Hinv, Hstate. rewrite Hdttl in *.
  destruct (put_plain_effect (clock_now (c_clock c)) key value sh) as (ev & entry & Hget & Hx & Hval & Hev & Hh & Hm & He).
  { by destruct (ci_shards _ _ _ _ (so_inv _ Hc) _ sh Hsh). }
  { intros e. rewrite <- Hst. intros He. by destruct (so_entries _ Hc _ _ He). }
  set (sh' := put_plain None _ _ _ _ _) in *.
  assert (∀ k, stored (with_shard (slot c key) sh' (set_warned b c)) k
               = if decide (ev = Some k) then None
                 else if decide (key = k) then Some entry else stored c k) as Hstored.
  { intros k. rewrite stored_with_shard by (by eapply lookup_lt_Some).
    change (slot (set_warned b c)) with (slot c). change (stored (set_warned b c)) with (stored c).
    case_decide as Hs.
    - rewrite Hget. case_decide; [done|]. case_decide; [done|]. symmetry. apply stored_slot. by rewrite Hs.
    - rewrite decide_False; [rewrite decide_False; [done|]|].
      + intros ->. done.
      + intros Hk. destruct (Hev k Hk) as (_ & _ & [->|Hmem]); [done|]. apply Hs. by apply (sim_slot_of_stored c key sh). }
  destruct (sum_with_shard (slot c key) sh sh' (set_warned b c) Hsh) as (Sh & Sm & Se).
  exists (with_shard (slot c key) sh' (set_warned b c)), ev, sh. split_conj;
    [reflexivity| |done| | |rewrite Sh, Hh|rewrite Sm, Hm|rewrite Se, He].
  - split; [done|rewrite Hstate; apply Hc|]. intros k e. rewrite Hstored.
    repeat case_decide; [done| |by apply (so_entries _ Hc)]. intros [= <-]. by rewrite Hval.
  - intros k. unfold held. rewrite Hstored. repeat case_decide; naive_solver.
  - intros x Hx'. destruct (Hev x Hx') as (Hn & Hs & _). split; [|done]. unfold held. rewrite Hst, Hn.
    by intros [? ?].
  - change (hits_of (set_warned b c)) with (hits_of c). lia.
  - change (misses_of (set_warned b c)) with (misses_of c). lia.
  - change (evictions_of (set_warned b c)) with (evictions_of c). lia.
Qed.

(** The same at a reading of the clock, which a cache without lifetimes does not depend on. *)
Lemma sim_get t c key :
  sim_ok c →
  let found := is_not_none (stored c key) in
  ∃ c' v, at_reading t (cache_get key VNone) c = (c', Ok v) ∧ sim_ok c' ∧
    is_none_value v = negb found ∧ (∀ k, held c' k ↔ held c k) ∧
    hits_of c' = hits_of c + (if found then 1 else 0) ∧
    misses_of c' = misses_of c + (if found then 0 else 1) ∧ evictions_of c' = evictions_of c.
Proof. intros Hc. exact (sim_get_now (set_clock (mkFakeClock t) c) key (sim_ok_clock t c Hc)). Qed.

Lemma sim_put t c key value :
  sim_ok c → is_none_value value = false →
  ∃ c' evicted sh, at_reading t (cache_put key value TTL_UNSET) c = (c', Ok tt) ∧ sim_ok c' ∧
    c_shards c !! slot c key = Some sh ∧
    (∀ k, held c' k ↔ evicted ≠ Some k ∧ (key = k ∨ held c k)) ∧
    (∀ x, evicted = Some x → ¬ held c key ∧ backend_size (sh_backend sh) = sh_capacity sh) ∧
    hits_of c' = hits_of c ∧ misses_of c' = misses_of c ∧
    evictions_of c' = evictions_of c + (if is_not_none evicted then 1 else 0).
Proof. intros Hc. exact (sim_put_now (set_clock (mkFakeClock t) c) key value (sim_ok_clock t c Hc)). Qed.

(** The shard of a key is full, as far as the held keys tell. *)
Definition full c key : Prop :=
  ∃ l, NoDup l ∧ (∀ k, k ∈ l → held c k) ∧
       Z.of_nat (length l) = shp_capacity (shape_at cfg (slot c key)).

Lemma full_shard c key sh :
  sim_ok c → c_shards c !! slot c key = Some sh → backend_size (sh_backend sh) = sh_capacity sh →
  full c key.
Proof.
  intros Hc Hsh Hs. destruct (ci_shards _ _ _ _ (so_inv c Hc) _ sh Hsh) as [Hw Hside].
  exists (dict_keys (sh_backend sh)). split_conj.
  - apply (ss_dict _ _ _ _ _ _ _ Hside).
  - intros k Hk. apply dict_mem_keys in Hk as Hm. unfold held. rewrite (stored_slot c k sh).
    + unfold dict_mem in Hm. destruct (dict_get _ k); [by eexists|done].
    + by rewrite (sim_slot_of_stored c key sh).
  - rewrite <- (ss_capacity _ _ _ _ _ _ _ Hside), <- Hs. unfold backend_size. by rewrite dict_len_keys.
Qed.

Lemma full_ext c c' key : (∀ k, held c k ↔ held c' k) → slot c key = slot c' key → full c key → full c' key.
Proof. intros Hh Hs (l & Hn & Hl & Hc). exists l. rewrite <- Hs. split_conj; [done| |done]. intros k Hk. by apply Hh, Hl. Qed.

Lemma slot_sim_ok c c' key : sim_ok c → sim_ok c' → slot c key = slot c' key.
Proof.
  intros Hc Hc'. unfold slot, shard_for.
  by rewrite (ci_length _ _ _ _ (so_inv c Hc)), (ci_length _ _ _ _ (so_inv c' Hc')).
Qed.

(** One request. *)
Context (get_time put_time : Z → float).
Local Abbreviation request := (sim_request get_time put_time).
Local Abbreviation loop := (sim_loop get_time put_time).

Lemma sim_read index key writes c :
  sim_ok c → String.prefix "write:" key = false →
  let found := is_not_none (stored c key) in
  ∃ c' evicted, request index key writes c = (c', Ok writes) ∧ sim_ok c' ∧
    (∀ k, held c' k ↔ evicted ≠ Some k ∧ (key = k ∨ held c k)) ∧
    (∀ x, evicted = Some x → ¬ held c key ∧ full c key) ∧
    hits_of c' = hits_of c + (if found then 1 else 0) ∧
    misses_of c' = misses_of c + (if found then 0 else 1) ∧
    evictions_of c' = evictions_of c + (if is_not_none evicted then 1 else 0).
Proof.
  intros Hc Hp found. unfold sim_request. rewrite Hp.
  destruct (sim_get (get_time index) c key Hc) as (c1 & v & E1 & Hc1 & Hv & Hk1 & Hh & Hm & He).
  fold found in Hv, Hh, Hm. rewrite (bind_ok _ _ _ _ _ E1), Hv. destruct found eqn:Hf; cbn [negb].
  - rewrite (bind_ok _ _ c1 c1 tt) by done. exists c1, None. split_conj; [done|done| | |simpl in *; lia..].
    + intros k. rewrite Hk1. split; [by auto|]. intros [_ [<-|?]]; [|done].
      unfold held. subst found. destruct (stored c key); [by eexists|done].
    + done.
  - destruct (sim_put (put_time index) c1 key (VStr ("value-" +:+ key)) Hc1 eq_refl)
      as (c2 & ev & sh & E2 & Hc2 & Hsh & Hk2 & Hev & Hh2 & Hm2 & He2).
    rewrite (bind_ok _ _ _ _ _ E2). exists c2, ev. split_conj; [done|done| | |simpl in *; lia..].
    + intros k. rewrite Hk2. by setoid_rewrite Hk1.
    + intros x Hx. destruct (Hev x Hx) as [Hn Hs]. split; [by rewrite <- Hk1|].
      apply (full_ext c1 c key); [done|by apply slot_sim_ok|]. by eapply full_shard.
Qed.

Lemma sim_any_request index raw writes c :
  sim_ok c →
  ∃ c' writes', request index raw writes c = (c', Ok writes') ∧ sim_ok c' ∧
    hits_of c' + misses_of c' + writes' = hits_of c + misses_of c + writes + 1.
Proof.
  intros Hc. destruct (String.prefix "write:" raw) eqn:Hp.
  - unfold sim_request. rewrite Hp.
    destruct (sim_put (put_time index) c (after_colon raw) (VStr ("value-" +:+ pretty index)) Hc eq_refl)
      as (c2 & ev & sh & E2 & Hc2 & _ & _ & _ & Hh & Hm & _).
    rewrite (bind_ok _ _ _ _ _ E2). eexists _, _. split_conj; [done..|lia].
  - destruct (sim_read index raw writes c Hc Hp) as (c' & ev & E & Hc' & _ & _ & Hh & Hm & _).
    eexists _, _. split_conj; [done..|]. destruct (is_not_none _); lia.
Qed.

(** *** The loop *)

Lemma sim_loop_counts index keys writes c :
  sim_ok c →
  ∃ c' writes', loop index keys writes c = (c', Ok writes') ∧ sim_ok c' ∧
    hits_of c' + misses_of c' + writes' = hits_of c + misses_of c + writes + Z.of_nat (length keys).
Proof.
  revert index writes c. induction keys as [|key keys IH]; intros index writes c Hc; cbn [sim_loop].
  { eexists _, _. split_conj; [done..|simpl; lia]. }
  destruct (sim_any_request index key writes c Hc) as (c1 & w1 & E1 & Hc1 & H1).
  rewrite (bind_ok _ _ _ _ _ E1). destruct (IH (index + 1) w1 c1 Hc1) as (c2 & w2 & E2 & Hc2 & H2).
  eexists _, _. split_conj; [done..|]. rewrite H2, H1. cbn [length]. lia.
Qed.

(** Keys that do not repeat. *)
Lemma sim_loop_distinct index keys writes c :
  sim_ok c → Forall (λ k, String.prefix "write:" k = false) keys → NoDup keys →
  (∀ k, k ∈ keys → ¬ held c k) →
  ∃ c', loop index keys writes c = (c', Ok writes) ∧ sim_ok c' ∧
    hits_of c' = hits_of c ∧ misses_of c' = misses_of c + Z.of_nat (length keys).
Proof.
  revert index c. induction keys as [|key keys IH]; intros index c Hc Hr Hn Hk; cbn [sim_loop].
  { eexists. split_conj; [done..|simpl; lia]. }
  apply Forall_cons in Hr as [Hp Hr]. apply NoDup_cons in Hn as [Hnk Hn].
  destruct (sim_read index key writes c Hc Hp) as (c1 & ev & E1 & Hc1 & Hh1 & _ & Hh & Hm & _).
  assert (stored c key = None) as Hst.
  { destruct (stored c key) eqn:E; [|done]. destruct (Hk key); [set_solver|]. unfold held. by rewrite E. }
  rewrite Hst in Hh, Hm. simpl in *. rewrite (bind_ok _ _ _ _ _ E1).
  destruct (IH (index + 1) c1 Hc1 Hr Hn) as (c2 & E2 & Hc2 & Hh2 & Hm2).
  { intros k Hin. rewrite Hh1. intros [_ [<-|Hheld]]; [done|]. apply (Hk k); [set_solver|done]. }
  eexists. split_conj; [done..|lia|]. rewrite Hm2, Hm. cbn [length]. lia.
Qed.

(** Keys of a set that fits in the one shard there is: each key misses once, and nothing is
    evicted. *)
Lemma full_contradiction c key (D U : gset string) :
  sim_ok c → cfg_shard_count cfg = 1 → Z.of_nat (size U) ≤ cfg_capacity cfg →
  (∀ k, held c k ↔ k ∈ D) → D ⊆ U → key ∈ U → ¬ held c key → ¬ full c key.
Proof.
  intros Hc Hn HU HD Hsub Hkey Hk (l & Hl & Hheld & Hlen).
  assert (slot c key = 0%nat) as Hs.
  { unfold slot, shard_for. rewrite (ci_length _ _ _ _ (so_inv c Hc)), Hn. by rewrite Z.mod_1_r. }
  rewrite Hs in Hlen. simpl in Hlen. rewrite Hn in Hlen.
  assert (shard_capacities (cfg_capacity cfg) 1 !! 0%nat = Some (cfg_capacity cfg)) as Hcap.
  { unfold shard_capacities. simpl. by rewrite Z.div_1_r, Z.mod_1_r, Z.add_0_r. }
  rewrite Hcap in Hlen. simpl in Hlen. rewrite <- (size_list_to_set (C:=gset string) l Hl) in Hlen.
  assert (size (list_to_set l : gset string) < size U)%nat; [|lia].
  apply subset_size. split.
  - intros k Hin%elem_of_list_to_set. by apply Hsub, HD, Hheld.
  - intros Hin. apply Hk, Hheld. by apply (elem_of_list_to_set (C:=gset string)), Hin.
Qed.

Lemma sim_loop_fits index keys writes c (D U : gset string) :
  sim_ok c → cfg_shard_count cfg = 1 → Z.of_nat (size U) ≤ cfg_capacity cfg →
  Forall (λ k, String.prefix "write:" k = false) keys →
  (∀ k, held c k ↔ k ∈ D) → D ⊆ U → list_to_set keys ⊆ U →
  ∃ c', loop index keys writes c = (c', Ok writes) ∧ sim_ok c' ∧
    evictions_of c' = evictions_of c ∧
    misses_of c' = misses_of c + Z.of_nat (size (list_to_set keys ∖ D)) ∧
    hits_of c' + misses_of c' = hits_of c + misses_of c + Z.of_nat (length keys).
Proof.
  intros Hc Hn HU. revert index c D Hc.
  induction keys as [|key keys IH]; intros index c D Hc Hr HD Hsub Hkeys; cbn [sim_loop].
  { eexists. split_conj; [done..| |simpl; lia]. rewrite list_to_set_nil.
    assert ((∅ ∖ D : gset string) = ∅) as -> by set_solver. rewrite size_empty. lia. }
  apply Forall_cons in Hr as [Hp Hr].
  destruct (sim_read index key writes c Hc Hp) as (c1 & ev & E1 & Hc1 & Hh1 & Hev & Hh & Hm & He).
  assert (ev = None) as ->.
  { destruct ev as [x|]; [|done]. destruct (Hev x eq_refl) as [Hk Hf]. exfalso.
    apply (full_contradiction c key D U); set_solver. }
  rewrite (bind_ok _ _ _ _ _ E1).
  destruct (IH (index + 1) c1 ({[key]} ∪ D) Hc1 Hr) as (c2 & E2 & Hc2 & He2 & Hm2 & Ht2);
    [intros k; rewrite Hh1, HD; set_solver|set_solver..|].
  exists c2. cbn [is_not_none] in He. split_conj; [done|done|lia| |destruct (is_not_none _); cbn [length]; lia].
  rewrite Hm2, Hm. destruct (decide (key ∈ D)) as [Hin|Hin].
  - apply HD in Hin as Hheld. unfold held in Hheld. destruct Hheld as [e ->]. cbn [is_not_none].
    assert ((list_to_set (key :: keys) ∖ D : gset string) = list_to_set keys ∖ ({[key]} ∪ D)) as -> by set_solver.
    lia.
  - assert (stored c key = None) as ->.
    { destruct (stored c key) eqn:E; [|done]. destruct Hin. apply HD. unfold held. by rewrite E. }
    assert ((list_to_set (key :: keys) ∖ D : gset string)
            = {[key]} ∪ (list_to_set keys ∖ ({[key]} ∪ D))) as ->.
    { rewrite list_to_set_cons. apply set_eq. intros k. destruct (decide (k = key)); set_solver. }
    rewrite (size_union ({[key]} : gset string)) by set_solver. rewrite size_singleton. cbn [is_not_none]. lia.
Qed.
End steps.

(** ** Streams of keys *)

Lemma key_name_inj i j : key_name i = key_name j → i = j.
Proof. unfold key_name. intros [= Heq]. by apply (inj pretty). Qed.

Lemma key_name_read i : String.prefix "write:" (key_name i) = false.
Proof. done. Qed.

Section streams.
Context {G : Type} `{HG : Random G} `{!RandomLaws G}.

(** A computation that returns, with a property of what it returns. *)
Definition draws {A} (P : A → Prop) (m : M G A) : Prop := ∀ g, ∃ g' a, m g = (g', Ok a) ∧ P a.

Lemma draws_bind {A B} (P : A → Prop) (Q : B → Prop) (m : M G A) (f : A → M G B) :
  draws P m → (∀ a, P a → draws Q (f a)) → draws Q (m ≫= f).
Proof.
  intros Hm Hf g. destruct (Hm g) as (g1 & a & E & Ha). destruct (Hf a Ha g1) as (g2 & b & E2 & Hb).
  exists g2, b. split; [|done]. by rewrite (bind_ok _ _ _ _ _ E).
Qed.

Lemma draws_ret {A} (P : A → Prop) a : P a → draws P (mret a).
Proof. intros Ha g. by exists g, a. Qed.

Lemma draws_mapM {A B} (P : A → B → Prop) (f : A → M G B) (l : list A) :
  (∀ a, a ∈ l → draws (P a) (f a)) → draws (Forall2 P l) (mapM f l).
Proof.
  induction l as [|a l IH]; intros Hf; csimpl; [by apply draws_ret|].
  eapply draws_bind; [apply Hf; set_solver|]. intros b Hb.
  eapply draws_bind; [apply IH; set_solver|]. intros bs Hbs. apply draws_ret. by constructor.
Qed.

Lemma draws_randrange n : 0 < n → draws (λ i, 0 ≤ i < n) (randrange n).
Proof.
  intros Hn g. unfold randrange. rewrite (proj2 (Z.leb_gt n 0)) by lia.
  pose proof (randbelow_range n g Hn). destruct (randbelow n g) as [g' i]. by exists g', i.
Qed.

Lemma draws_random : draws (λ _, True) random.
Proof. intros g. unfold random. destruct (rng_random g) as [g' x]. by exists g', x. Qed.

Lemma draws_choice {A} (l : list A) : l ≠ [] → draws (λ a, a ∈ l) (choice l).
Proof.
  intros Hl. destruct l as [|x l]; [done|].
  apply (draws_bind (λ i, 0 ≤ i < Z.of_nat (length (x :: l)))); [apply draws_randrange; simpl; lia|].
  intros i Hi g. destruct (lookup_lt_is_Some_2 (x :: l) (Z.to_nat i)) as [a Ha]; [lia|].
  rewrite Ha. exists g, a. split; [done|]. by eapply list_elem_of_lookup_2.
Qed.

(** The indices of the keys a pattern yields are below this bound. *)
Definition stream_bound (pattern : string) (requests capacity : Z) : Z :=
  if existsb (String.eqb (dash_to_underscore (str_lower pattern))) ["sequential"; "sequential_scan"]
  then requests else universe capacity.

Definition names_key (bound : Z) (raw : string) : Prop :=
  ∃ i, 0 ≤ i < bound ∧ (raw = key_name i ∨ raw = "write:" +:+ key_name i).

Lemma draws_hotspot capacity : draws (names_key (universe capacity)) (hotspot_key capacity).
Proof.
  assert (0 < hot_count capacity < universe capacity) as Hr.
  { unfold hot_count, universe. pose proof (Z.div_mod capacity 5). pose proof (Z.mod_pos_bound capacity 5). lia. }
  eapply draws_bind; [apply draws_random|]. intros x _.
  assert (∀ l, l ≠ [] → (∀ i, i ∈ l → 0 ≤ i < universe capacity) →
    draws (names_key (universe capacity)) (choice (key_name <$> l))) as Hpick.
  { intros l Hl Hi g. destruct (draws_choice (key_name <$> l)) with (g := g) as (g' & a & E & Ha);
      [by destruct l|].
    exists g', a. split; [done|]. apply list_elem_of_fmap in Ha as (i & -> & Hin).
    exists i. split; [by apply Hi|by left]. }
  destruct (flt x _); apply Hpick.
  - intros Hn%(f_equal length). rewrite length_py_range in Hn. simpl in Hn. lia.
  - intros i Hi%elem_of_py_range. lia.
  - intros Hn%(f_equal length). unfold py_range_from in Hn. rewrite length_fmap, length_py_range in Hn. simpl in Hn. lia.
  - intros i (j & -> & Hj%elem_of_py_range)%list_elem_of_fmap. lia.
Qed.

Lemma draws_pattern pattern capacity key requests i :
  pattern_key (G:=G) pattern capacity = Some key → 0 ≤ i < requests →
  draws (names_key (stream_bound pattern requests capacity)) (key i).
Proof.
  intros Hp Hi. unfold pattern_key in Hp. unfold stream_bound.
  set (n := dash_to_underscore _) in *. clearbody n.
  assert (0 < universe capacity) as Hu by (unfold universe; lia).
  assert (∀ f : string → string, (∀ j, f (key_name j) = key_name j ∨ f (key_name j) = "write:" +:+ key_name j) →
    draws (names_key (universe capacity)) (j ← randrange (universe capacity); mret (f (key_name j)))) as Hdraw.
  { intros f Hf. eapply draws_bind; [by apply draws_randrange|]. intros j Hj. apply draws_ret. by exists j. }
  destruct (String.eqb_spec n "uniform") as [Hn|_].
  { injection Hp as <-. subst n. apply (Hdraw id). by left. }
  destruct (existsb _ ["zipfian"; "hotspot"]) eqn:Hz.
  { injection Hp as <-. replace (existsb _ ["sequential"; "sequential_scan"]) with false; [apply draws_hotspot|].
    apply existsb_exists in Hz as (x & Hin & ->%String.eqb_eq). by destruct Hin as [<-|[<-|[]]]. }
  destruct (existsb _ ["sequential"; "sequential_scan"]).
  { injection Hp as <-. apply draws_ret. exists i. split; [lia|by left]. }
  destruct (existsb _ ["looping"; "looping_working_set"]).
  { injection Hp as <-. apply draws_ret. exists (i mod working_set capacity). split; [|by left].
    assert (0 < working_set capacity ≤ universe capacity) as Hw by (unfold working_set, universe; lia).
    pose proof (Z.mod_pos_bound i (working_set capacity)). lia. }
  destruct (existsb _ ["mixed"; "mixed_read_write"]); [|done].
  injection Hp as <-. apply (Hdraw (λ s, if i mod 5 =? 0 then "write:" +:+ s else s)).
  intros j. destruct (i mod 5 =? 0); auto.
Qed.

Lemma key_stream_draws pattern requests capacity seed :
  match pattern_key (G:=G) pattern capacity with
  | Some key => ∃ keys, key_stream (G:=G) pattern requests capacity seed = Ok keys ∧
      length keys = Z.to_nat requests ∧
      Forall (names_key (stream_bound pattern requests capacity)) keys
  | None => key_stream (G:=G) pattern requests capacity seed
            = Raise (ValueError ("unknown workload pattern: " +:+ pattern))
  end.
Proof.
  unfold key_stream. destruct (pattern_key pattern capacity) as [key|] eqn:E; [|done].
  destruct (draws_mapM (λ _, names_key (stream_bound pattern requests capacity)) key (py_range requests))
    with (g := rng_seed (G:=G) seed) as (g' & keys & -> & Hk).
  { intros i Hi%elem_of_py_range. by apply draws_pattern. }
  exists keys. split_conj; [done| |].
  - apply Forall2_length in Hk. by rewrite <- Hk, length_py_range.
  - clear E. induction Hk; by constructor.
Qed.
End streams.

(** ** Simulations *)

Section claims.
Context {G : Type} `{HG : Random G} `{!RandomLaws G} `{KeyHash string}.
Context (get_time put_time : Z → float).
Local Abbreviation simulate := (run_simulation (G:=G) get_time put_time).

Definition sim_config (policy : string) (capacity shards : Z) : CacheConfig :=
  args_config (sim_args policy capacity shards).
Local Abbreviation sim_init policy capacity shards :=
  (cache_init (K:=string) (V:=pyval) None (sim_args policy capacity shards)
     (slow_dict_init fzero (mkFakeClock fzero)) (mkFakeClock fzero)).

Lemma sum_fresh (f : ShardStatsSnapshot → Z) (l : list (CacheShard string pyval (AnyPolicy string))) :
  Forall (λ sh, f (shard_stats sh) = 0) l → py_sum (f <$> (shard_stats <$> l)) = 0.
Proof. induction 1 as [|sh l Hsh _ IH]; csimpl; [done|]. by rewrite Hsh, IH. Qed.

Lemma sim_start policy capacity shards :
  (config_valid (sim_config policy capacity shards) ∧ ∃ c : SimCache,
     sim_init policy capacity shards = Ok c ∧ sim_ok (sim_config policy capacity shards) c ∧
     (∀ k, ¬ held c k) ∧ hits_of c = 0 ∧ misses_of c = 0 ∧ evictions_of c = 0) ∨
  (¬ config_valid (sim_config policy capacity shards) ∧ ∃ msg,
     sim_init policy capacity shards = Raise (ConfigurationError msg)).
Proof.
  destruct (post_init (sim_config policy capacity shards)) as [cfg|e] eqn:Ep; [left|right].
  - pose proof (post_init_id _ _ Ep) as ->. apply post_init_valid in Ep as Hv. split; [done|].
    set (cfg := sim_config policy capacity shards) in *.
    destruct (init_shards_ok (K:=string) (V:=pyval) cfg 0
      (shard_capacities (cfg_capacity cfg) (cfg_shard_count cfg)) (cv_backend _ Hv) (cv_policy _ Hv))
      as [shs Es].
    assert (∃ c : SimCache, sim_init policy capacity shards = Ok c) as [c Ec].
    { unfold cache_init. simpl. fold (sim_config policy capacity shards) cfg. rewrite Ep.
      change (parse_write_mode (cfg_write_mode cfg)) with (Ok CACHE_ONLY). rewrite Es. by eexists. }
    exists c. pose proof (cache_init_eq _ _ _ _ _ Ec) as (Hcfg & Hm & Hs & _ & Hst & _).
    simpl in Hcfg. fold (sim_config policy capacity shards) cfg in Hcfg. rewrite Ep in Hcfg.
    injection Hcfg as Hcfg. rewrite <- Hcfg in Hm. injection Hm as Hm.
    pose proof (cache_init_inv None _ _ _ c ltac:(done) Ec) as Hinv. rewrite <- Hcfg, <- Hm in Hinv.
    apply init_shards_spec in Hs as [_ Hs].
    assert (∀ k, stored c k = None) as Hnone.
    { intros k. unfold stored. destruct (c_shards c !! _) as [sh|] eqn:E; [|done].
      by destruct (Hs _ _ E) as (cap & pol & _ & _ & ->). }
    assert (Forall (λ sh, sh_stats sh = stats_init) (c_shards c)) as Hz.
    { apply Forall_lookup. intros i sh E. by destruct (Hs _ _ E) as (cap & pol & _ & _ & ->). }
    split_conj; [done| |by intros k; unfold held; rewrite Hnone; intros [? ?]| | |].
    + split; [done..|]. intros k e. by rewrite Hnone.
    + apply sum_fresh. by eapply Forall_impl; [exact Hz|]; simpl; intros sh ->.
    + apply sum_fresh. by eapply Forall_impl; [exact Hz|]; simpl; intros sh ->.
    + apply sum_fresh. by eapply Forall_impl; [exact Hz|]; simpl; intros sh ->.
  - split; [rewrite <- post_init_valid; congruence|].
    destruct (post_init_error_kind _ _ Ep) as [msg ->]. exists msg. unfold cache_init. simpl.
    fold (sim_config policy capacity shards). by rewrite Ep.
Qed.

Lemma sim_config_ttl policy capacity shards : cfg_default_ttl (sim_config policy capacity shards) = None.
Proof. done. Qed.

(** C35: a simulation ends with a result exactly when its settings are valid and its pattern is
    known; otherwise it raises [ConfigurationError] or [ValueError], the settings being checked
    first.  In a result every request is a hit, a miss or a write, counted once, and the
    final size is within the capacity: for every policy, generator and clock. *)
Theorem simulation_accounts_for_requests (policy pattern : string) (capacity requests seed shards : Z) :
  let cfg := sim_config policy capacity shards in
  let known := is_Some (pattern_key (G:=G) pattern capacity) in
  (config_valid cfg ∧ known ∧ ∃ s, simulate policy pattern capacity requests seed shards = Ok s ∧
     sim_hits s + sim_misses s + sim_writes s = Z.max 0 requests ∧ sim_size s ≤ capacity) ∨
  (config_valid cfg ∧ ¬ known ∧ simulate policy pattern capacity requests seed shards
     = Raise (ValueError ("unknown workload pattern: " +:+ pattern))) ∨
  (¬ config_valid cfg ∧ ∃ msg,
     simulate policy pattern capacity requests seed shards = Raise (ConfigurationError msg)).
Proof.
  intros cfg known. unfold run_simulation.
  destruct (sim_start policy capacity shards) as [(Hv & c & -> & Hc & _ & Hh & Hm & _)|(Hv & msg & ->)];
    [|by right; right; eauto].
  pose proof (key_stream_draws (G:=G) pattern requests capacity seed) as Hk. unfold known.
  destruct (pattern_key pattern capacity) as [key|].
  - destruct Hk as (keys & -> & Hl & _). left. split_conj; [done|by eexists|].
    destruct (sim_loop_counts _ (sim_config_ttl _ _ _) get_time put_time 0 keys 0 c Hc)
      as (c' & w & -> & Hc' & Hsum).
    eexists. split; [done|]. cbn [sim_hits sim_misses sim_writes sim_size]. split.
    + unfold hits_of, misses_of in *. lia.
    + by destruct (inv_size_bounded _ _ _ _ (so_inv _ _ Hc')) as (_ & _ & Hs).
  - rewrite Hk. right. left. split_conj; [done|by intros [? ?]|done].
Qed.

(** What a stream yields: for a known pattern, exactly as many keys as requests (none for
    a negative number), each [k0], [k1], ... with an index below the number of requests for a
    scan and below [max(4 * capacity, 16)] otherwise, possibly marked as a write; an unknown
    pattern raises [ValueError]. *)
Theorem key_stream_yields (pattern : string) (requests capacity seed : Z) :
  match pattern_key (G:=G) pattern capacity with
  | Some _ => ∃ keys, key_stream (G:=G) pattern requests capacity seed = Ok keys ∧
      Z.of_nat (length keys) = Z.max 0 requests ∧
      ∀ raw, raw ∈ keys → names_key (stream_bound pattern requests capacity) raw
  | None => key_stream (G:=G) pattern requests capacity seed
            = Raise (ValueError ("unknown workload pattern: " +:+ pattern))
  end.
Proof.
  pose proof (key_stream_draws (G:=G) pattern requests capacity seed) as Hk.
  destruct (pattern_key pattern capacity); [|done]. destruct Hk as (keys & -> & Hl & Hf).
  exists keys. split_conj; [done|lia|]. by apply Forall_forall.
Qed.

Lemma mapM_pure {A B} (f : A → B) (l : list A) (g : G) :
  mapM (M := M G) (λ a, mret (f a)) l g = (g, Ok (f <$> l)).
Proof. induction l as [|a l IH]; [done|]. csimpl. rewrite run_bind. simpl. by rewrite (bind_ok _ _ _ _ _ IH). Qed.

Definition normalized (pattern : string) : string := dash_to_underscore (str_lower pattern).

Lemma scan_stream pattern requests capacity seed :
  normalized pattern ∈ ["sequential"; "sequential_scan"] →
  key_stream (G:=G) pattern requests capacity seed = Ok (key_name <$> py_range requests).
Proof.
  intros Hp. unfold key_stream, pattern_key. fold (normalized pattern).
  assert (normalized pattern = "sequential" ∨ normalized pattern = "sequential_scan") as [-> | ->]
    by set_solver; cbn; by rewrite mapM_pure.
Qed.

Lemma loop_stream pattern requests capacity seed :
  normalized pattern ∈ ["looping"; "looping_working_set"] →
  key_stream (G:=G) pattern requests capacity seed
  = Ok ((λ i, key_name (i mod working_set capacity)) <$> py_range requests).
Proof.
  intros Hp. unfold key_stream, pattern_key. fold (normalized pattern).
  assert (normalized pattern = "looping" ∨ normalized pattern = "looping_working_set") as [-> | ->]
    by set_solver; cbn; by rewrite mapM_pure.
Qed.

Lemma reads_only (f : Z → Z) (l : list Z) :
  Forall (λ k, String.prefix "write:" k = false) ((λ i, key_name (f i)) <$> l).
Proof. apply Forall_fmap, Forall_true. intros i. apply key_name_read. Qed.

(** A sequential scan defeats every policy: its keys never repeat, so whatever the policy,
    the capacity and the shards, no request hits and every request is a miss. *)
Theorem sequential_scan_never_hits (policy pattern : string) (capacity requests seed shards : Z) :
  config_valid (sim_config policy capacity shards) →
  normalized pattern ∈ ["sequential"; "sequential_scan"] →
  ∃ s, simulate policy pattern capacity requests seed shards = Ok s ∧
    sim_hits s = 0 ∧ sim_misses s = Z.max 0 requests ∧ sim_writes s = 0.
Proof.
  intros Hv Hp. unfold run_simulation. rewrite scan_stream by done.
  destruct (sim_start policy capacity shards) as [(_ & c & -> & Hc & Hn & Hh & Hm & _)|(? & _)]; [|done].
  destruct (sim_loop_distinct _ (sim_config_ttl policy capacity shards) get_time put_time 0 (key_name <$> py_range requests) 0 c)
    as (c' & -> & _ & Hh' & Hm'); [done|apply (reads_only id)| |by intros; apply Hn|].
  { apply NoDup_fmap_2; [by intros i j; apply key_name_inj|]. apply NoDup_fmap_2; [apply _|]. apply NoDup_seq. }
  eexists. split; [done|]. cbn [sim_hits sim_misses sim_writes]. unfold hits_of, misses_of in *.
  rewrite length_fmap, length_py_range in Hm'. split_conj; lia.
Qed.

(** The keys of a loop. *)
Definition loop_keys (n : Z) : gset string := list_to_set (key_name <$> py_range n).

Lemma loop_keys_size n : size (loop_keys n) = Z.to_nat n.
Proof.
  unfold loop_keys. rewrite size_list_to_set; [by rewrite length_fmap, length_py_range|].
  apply NoDup_fmap_2; [by intros i j; apply key_name_inj|]. apply NoDup_fmap_2; [apply _|]. apply NoDup_seq.
Qed.

Lemma loop_keys_seen ws n :
  0 < ws →
  (list_to_set ((λ i, key_name (i mod ws)) <$> py_range n) : gset string) = loop_keys (Z.min (Z.max 0 n) ws).
Proof.
  intros Hws. apply set_eq. intros k. unfold loop_keys. rewrite !elem_of_list_to_set, !list_elem_of_fmap.
  setoid_rewrite elem_of_py_range. split.
  - intros (i & -> & Hi). exists (i mod ws). split; [done|].
    pose proof (Z.mod_pos_bound i ws Hws). pose proof (Z.mod_le i ws). lia.
  - intros (i & -> & Hi). exists i. split; [by rewrite Z.mod_small by lia|lia].
Qed.

(** A working set that fits is loaded once.  The looping pattern keeps its working set
    within the capacity, so in one shard, under every policy, only the first request of each
    key misses, all the others hit and nothing is evicted. *)
Theorem looping_working_set_fits (policy pattern : string) (capacity requests seed : Z) :
  config_valid (sim_config policy capacity 1) →
  normalized pattern ∈ ["looping"; "looping_working_set"] →
  ∃ s, simulate policy pattern capacity requests seed 1 = Ok s ∧
    sim_misses s = Z.min (Z.max 0 requests) (working_set capacity) ∧
    sim_hits s = Z.max 0 requests - sim_misses s ∧ sim_evictions s = 0.
Proof.
  intros Hv Hp. unfold run_simulation. rewrite loop_stream by done.
  destruct (sim_start policy capacity 1) as [(_ & c & -> & Hc & Hn & Hh & Hm & He)|(? & _)]; [|done].
  pose proof (cv_capacity _ Hv) as Hcap. simpl in Hcap.
  assert (0 < working_set capacity ≤ capacity) as Hws by (unfold working_set; lia).
  destruct (sim_loop_fits _ (sim_config_ttl policy capacity 1) get_time put_time 0
    ((λ i, key_name (i mod working_set capacity)) <$> py_range requests) 0 c ∅
    (loop_keys (working_set capacity))) as (c' & -> & _ & He' & Hm' & Ht); [done|done| | | |done| |].
  { rewrite loop_keys_size. simpl. lia. }
  { apply (reads_only (λ i, i mod working_set capacity)). }
  { intros k. split; [by intros ?%Hn|set_solver]. }
  { rewrite loop_keys_seen by lia. unfold loop_keys. intros k.
    rewrite !elem_of_list_to_set, !list_elem_of_fmap. setoid_rewrite elem_of_py_range.
    intros (i & -> & Hi). exists i. split; [done|lia]. }
  rewrite difference_empty_L, loop_keys_seen, loop_keys_size in Hm' by lia.
  rewrite length_fmap, length_py_range in Ht.
  eexists. split; [done|]. cbn [sim_hits sim_misses sim_evictions].
  unfold hits_of, misses_of, evictions_of in *. split_conj; lia.
Qed.
End claims.

(** ** Witnesses *)

(** A linear congruential generator. *)
#[local] Instance lcg : Random Z := {|
  rng_seed seed := seed;
  randbelow n g := ((g * 1103515245 + 12345) mod 2147483648, (g / 65536) mod n);
  rng_random g := ((g * 1103515245 + 12345) mod 2147483648, int_div ((g / 65536) mod 32768) 32768);
|}.
#[local] Instance lcg_laws : RandomLaws Z.
Proof. intros n g Hn. simpl. by apply Z.mod_pos_bound. Qed.
#[local] Instance length_hash : KeyHash string := λ s, Z.of_nat (String.length s).

Lemma sim_config_demo policy capacity shards :
  post_init (sim_config policy capacity shards) = Ok (sim_config policy capacity shards) →
  config_valid (sim_config policy capacity shards).
Proof. apply post_init_valid. Qed.

Lemma simulation_accounts_for_requests_witness :
  let cfg := sim_config "lfu" 10 2 in
  let known := is_Some (pattern_key (G:=Z) "Mixed-Read-Write" 10) in
  (config_valid cfg ∧ known ∧ ∃ s,
     run_simulation (G:=Z) (λ _, fzero) (λ _, fzero) "lfu" "Mixed-Read-Write" 10 30 1 2 = Ok s ∧
     sim_hits s + sim_misses s + sim_writes s = Z.max 0 30 ∧ sim_size s ≤ 10) ∨
  (config_valid cfg ∧ ¬ known ∧
     run_simulation (G:=Z) (λ _, fzero) (λ _, fzero) "lfu" "Mixed-Read-Write" 10 30 1 2
     = Raise (ValueError ("unknown workload pattern: " +:+ "Mixed-Read-Write"))) ∨
  (¬ config_valid cfg ∧ ∃ msg,
     run_simulation (G:=Z) (λ _, fzero) (λ _, fzero) "lfu" "Mixed-Read-Write" 10 30 1 2
     = Raise (ConfigurationError msg)).
Proof.
  exact (simulation_accounts_for_requests (G:=Z) (λ _, fzero) (λ _, fzero) "lfu" "Mixed-Read-Write" 10 30 1 2).
Defined.

Lemma key_stream_yields_witness :
  ∃ keys, key_stream (G:=Z) "hotspot" 20 10 1 = Ok keys ∧ Z.of_nat (length keys) = Z.max 0 20 ∧
    ∀ raw, raw ∈ keys → names_key (stream_bound "hotspot" 20 10) raw.
Proof. exact (key_stream_yields (G:=Z) "hotspot" 20 10 1). Defined.

Lemma sequential_scan_never_hits_witness :
  ∃ s, run_simulation (G:=Z) (λ _, fzero) (λ _, fzero) "fifo" "sequential-scan" 10 25 1 2 = Ok s ∧
    sim_hits s = 0 ∧ sim_misses s = Z.max 0 25 ∧ sim_writes s = 0.
Proof.
  apply (sequential_scan_never_hits (G:=Z) (λ _, fzero) (λ _, fzero) "fifo" "sequential-scan" 10 25 1 2).
  - apply sim_config_demo. reflexivity.
  - vm_compute. right. left.
Defined.

Lemma looping_working_set_fits_witness :
  ∃ s, run_simulation (G:=Z) (λ _, fzero) (λ _, fzero) "lru" "looping" 10 50 1 1 = Ok s ∧
    sim_misses s = Z.min (Z.max 0 50) (working_set 10) ∧
    sim_hits s = Z.max 0 50 - sim_misses s ∧ sim_evictions s = 0.
Proof.
  apply (looping_working_set_fits (G:=Z) (λ _, fzero) (λ _, fzero) "lru" "looping" 10 50 1).
  - apply sim_config_demo. reflexivity.
  - vm_compute. left.
Defined.
