(* ===== verification/Lifecycle.v ===== *)
(** Lifecycle: [start], [close] and the worker loop end the way they should.

    On a consistent cache no internal step of a worker or of the shutdown raises: worker
    failures are recorded, every task that was taken is acknowledged, and [close] always
    leaves the cache closed, returning or raising [ShutdownFlushError]. *)

From stdpp Require Import base tactics numbers option strings sets list relations.
From S2P Require Import Prelude PyDict PyFloat PyMonad Config Entry Policies PolicyLaws.
From S2P Require Import Storage Jobs Shard ShardInv ShardSpec Cache CacheInv CacheSafety.
From S2P Require Import Reach CacheSpec Demo.
Local Open Scope string_scope.
Local Open Scope list_scope.
Local Open Scope Z_scope.

Section succeed.
Context {K V P : Type} `{EqDecision K} `{KeyHash K} `{PyNone V}
  `{HP : EvictionPolicy K P} `{!PolicyLaws K P}.
Implicit Types (c : Cache K V P) (sh : CacheShard K V P) (key k : K) (value : V).
Context (cfg : CacheConfig) (mode : WriteMode).

Section parts.
Context (busy : Z).
Local Abbreviation inv := (cache_inv (K:=K) (V:=V) (P:=P) cfg mode busy).

Lemma succeeds_lock {A} i (f : CacheShard K V P → CacheShard K V P * A) Q :
  0 ≤ i < cfg_shard_count cfg → returns inv (with_lock i f) Q → succeeds inv (with_lock i f) Q.
Proof.
  intros Hi Hr c Hc. destruct (lock_in_range cfg mode busy i f c Hc Hi) as (c' & a & E).
  specialize (Hr c Hc). rewrite E in Hr. destruct Hr as [Hc' Ha]. by exists c', a.
Qed.

Lemma succeeds_inc_runtime f : succeeds inv (inc_runtime f) (λ _, True).
Proof. apply succeeds_modify, keeps_inc_runtime. Qed.

Lemma succeeds_sleep t : succeeds inv (sleep t) (λ _, True).
Proof. apply succeeds_modify, keeps_sleep. Qed.

Lemma succeeds_resolve i key :
  0 ≤ i < cfg_shard_count cfg →
  succeeds inv (with_lock i (λ sh, (resolve_pending_locked key sh, tt))) (λ _, True).
Proof. intros Hi. apply succeeds_lock; [done|]. apply keeps_returns, keeps_resolve. Qed.

(** The queue accepts a job or reports backpressure, never anything else. *)
Lemma enqueue_attempt job :
  job_ok cfg mode job →
  succeeds inv (attempt (enqueue_job job true)) (λ r, r = Ok true ∨ r = Raise QueueBackpressureError).
Proof.
  intros Hj c Hc. pose proof (keeps_enqueue_job cfg mode busy job true Hj c Hc) as Hk.
  destruct (enqueue_job_critical job c) as [q [E|E]]; rewrite E in Hk;
    rewrite (attempt_eq _ _ _ _ E); eexists _, _; (split; [done|]); (split; [exact Hk|]); auto.
Qed.

Lemma succeeds_enqueue_until_full i jobs :
  0 ≤ i < cfg_shard_count cfg → Forall (flush_ok cfg mode) jobs →
  succeeds inv (enqueue_until_full i jobs) (λ _, True).
Proof.
  intros Hi. induction 1 as [|job jobs Hj Hjs IH]; cbn [enqueue_until_full]; [by apply succeeds_ret|].
  eapply succeeds_bind; [by apply enqueue_attempt|]. intros r [-> | ->]; [done|].
  apply succeeds_for_each. intros j _. by apply succeeds_resolve.
Qed.

Lemma succeeds_enqueue_dirty :
  mode = WRITE_BACK → succeeds inv enqueue_dirty_write_back_jobs (λ _, True).
Proof.
  intros Hm. eapply succeeds_bind; [apply succeeds_get|]. intros c Hc.
  apply succeeds_for_each. intros i Hi. apply (shard_indices_ok cfg mode busy c) in Hi as [Hi Hslot]; [|done].
  eapply succeeds_bind.
  - apply (succeeds_lock _ _ (Forall (flush_ok cfg mode))); [done|].
    apply returns_lock. intros j data sh -> Hsh.
    destruct (collect_inv _ _ _ _ _ (cfg_write_back_retry_count (c_config c)) sh Hm Hsh) as [H1 H2].
    split; [done|]. eapply Forall_impl; [exact H2|]. intros job. apply flush_ok_here. rewrite Hslot. lia.
  - intros jobs Hj. by apply succeeds_enqueue_until_full.
Qed.

Lemma succeeds_sync_attempts n i job :
  mode = WRITE_BACK → succeeds inv (sync_attempts n i job) (λ _, True).
Proof.
  intros Hm. induction n as [|n IH]; [by apply succeeds_ret|]. cbn [sync_attempts].
  eapply succeeds_bind.
  - apply succeeds_attempt, keeps_if; [|by apply keeps_source_wb].
    apply keeps_bind; [by apply keeps_source_wb|]. intros _.
    apply keeps_lock. intros j data sh. apply mark_clean_inv.
  - intros [u|e] _; [by apply succeeds_ret|]. eapply succeeds_bind; [|by intros _ _].
    apply succeeds_if; [|by apply (succeeds_ret _ tt (λ _, True))].
    eapply succeeds_bind; [apply succeeds_inc_runtime|]. intros _ _.
    eapply succeeds_bind; [apply succeeds_get|]. intros c _. apply succeeds_sleep.
Qed.

Lemma succeeds_sync_job i job :
  mode = WRITE_BACK → 0 ≤ i < cfg_shard_count cfg →
  succeeds inv (sync_flush_job i job) (λ _, True).
Proof.
  intros Hm Hi. eapply succeeds_bind.
  - apply (succeeds_lock _ _ (λ _, True)); [done|]. apply keeps_returns, keeps_lock.
    intros j data sh Hsh. destruct (is_stale_write_back _ _ _); [|done]. by apply clear_pending_inv.
  - intros stale _. apply succeeds_if.
    + eapply succeeds_bind; [apply succeeds_inc_runtime|]. intros _ _. by apply succeeds_ret.
    + eapply succeeds_bind; [by apply succeeds_sync_attempts|]. intros success _.
      eapply succeeds_bind.
      { apply (succeeds_if _ _ _ _ (λ _, True)); [by apply succeeds_ret|apply succeeds_inc_runtime]. }
      intros _ _. eapply succeeds_bind; [|intros _ _; by apply succeeds_ret].
      apply (succeeds_lock _ _ (λ _, True)); [done|]. apply keeps_returns, keeps_lock.
      intros j data sh. apply clear_pending_inv.
Qed.

Lemma succeeds_for_any {A} (xs : list A) f :
  (∀ x, x ∈ xs → succeeds inv (f x) (λ _, True)) → succeeds inv (for_any xs f) (λ _, True).
Proof.
  induction xs as [|x xs IH]; intros Hf; simpl; [by apply succeeds_ret|].
  eapply succeeds_bind; [apply Hf; set_solver|]. intros b _.
  eapply succeeds_bind; [apply IH; set_solver|]. intros b' _. by apply succeeds_ret.
Qed.

Lemma succeeds_sync_flush : mode = WRITE_BACK → succeeds inv flush_dirty_entries_sync (λ _, True).
Proof.
  intros Hm. eapply succeeds_bind; [apply succeeds_get|]. intros c Hc. apply succeeds_for_any.
  intros i Hi. apply (shard_indices_ok cfg mode busy c) in Hi as [Hi _]; [|done].
  eapply succeeds_bind.
  - apply (succeeds_lock _ _ (λ _, True)); [done|]. by apply keeps_returns, keeps_lock.
  - intros jobs _. apply succeeds_for_any. intros job _. by apply succeeds_sync_job.
Qed.
End parts.

(** A worker never dies and never acknowledges a task it did not take. *)
Lemma succeeds_worker_step busy :
  0 ≤ busy → succeeds (cache_inv (K:=K) (V:=V) (P:=P) cfg mode busy) worker_step (λ _, True).
Proof.
  intros Hb c Hc. unfold worker_step. rewrite (bind_ok _ _ c c c) by done.
  destruct (queue_get (c_queue c)) as [[job q]|] eqn:E; [|by exists c, tt].
  destruct (inv_queue_get cfg mode busy c job q Hc E) as [Hj Hq].
  rewrite (bind_ok _ _ c (set_queue q c) tt) by done. set (c1 := set_queue q c) in *.
  assert (∀ c2, cache_inv cfg mode (busy + 1) c2 →
    ∃ s' a, with_queue queue_task_done c2 = (s', Ok a) ∧ cache_inv cfg mode busy s' ∧ True) as Hdone.
  { intros c2 Hc2. pose proof (keeps_task_done cfg mode busy c2 Hb Hc2) as [H1 H2].
    destruct (with_queue queue_task_done c2) as [c3 r]. cbn [fst snd] in *. subst r. eauto. }
  assert (∃ s' a, (r ← attempt (handle_job job);
    match r with Ok _ => mret tt | Raise _ => inc_runtime worker_jobs_failed end ;;
    with_queue queue_task_done) c1 = (s', Ok a) ∧ cache_inv cfg mode busy s' ∧ True) as Hrun.
  { destruct (succeeds_attempt (cache_inv cfg mode (busy + 1)) (handle_job job)
      (keeps_handle_job cfg mode (busy + 1) job Hj) c1 Hq) as (c2 & r & E2 & Hc2 & _).
    rewrite (bind_ok _ _ _ _ _ E2). destruct r as [u|e].
    - rewrite (bind_ok _ _ c2 c2 tt) by done. by apply Hdone.
    - destruct (succeeds_inc_runtime (busy + 1) worker_jobs_failed c2 Hc2) as (c3 & [] & E3 & Hc3 & _).
      rewrite (bind_ok _ _ _ _ _ E3). by apply Hdone. }
  assert (cache_inv cfg mode busy c1) as Hc1 by (by eapply inv_less_busy; [|exact Hq]; lia).
  destruct job as [| |? ? [] ? ?| |]; try done; destruct (c_state c); try done;
    try (by apply Hdone); by exists c1, tt.
Qed.

Lemma succeeds_worker_steps busy n :
  0 ≤ busy → succeeds (cache_inv (K:=K) (V:=V) (P:=P) cfg mode busy) (worker_steps n) (λ _, True).
Proof.
  intros Hb. induction n as [|n IH]; simpl; [by apply succeeds_ret|].
  eapply succeeds_bind; [by apply succeeds_worker_step|]. by intros _ _.
Qed.

Section close.
Context (busy : Z) (Hbusy : 0 ≤ busy).
Local Abbreviation inv := (cache_inv (K:=K) (V:=V) (P:=P) cfg mode busy).

Lemma succeeds_drain : succeeds inv (with_queue queue_drain) (λ _, True).
Proof.
  intros c Hc. pose proof (keeps_drain cfg mode busy Hbusy c Hc) as Hk.
  unfold with_queue, queue_drain in *. rewrite (bind_ok _ _ _ _ _ (eq_refl : get_state (c_queue c) = _)) in *.
  rewrite drain_loop_spec in * by (apply (ci_queue _ _ _ _ Hc) || lia). eauto.
Qed.

Lemma succeeds_pool_stop env : succeeds inv (pool_stop env) (λ _, True).
Proof.
  eapply succeeds_bind; [apply succeeds_get|]. intros c _.
  eapply succeeds_bind.
  - apply (succeeds_if _ _ _ _ (λ _, True)); [|by apply succeeds_ret].
    eapply succeeds_bind; [by apply succeeds_modify, keeps_field|]. intros _ _.
    eapply succeeds_bind.
    { apply succeeds_for_each. intros i _. by apply succeeds_modify, keeps_offer. }
    intros _ _. eapply succeeds_bind; [by apply succeeds_worker_steps|]. intros _ _.
    by apply succeeds_modify, keeps_field.
  - intros _ _. eapply succeeds_bind; [apply succeeds_drain|]. intros n _. by apply succeeds_ret.
Qed.

(** The flushing part of [close] returns whether something was left unflushed. *)
Definition close_flush (do_flush : bool) (env : CloseEnv) c : M (Cache K V P) bool :=
  if do_flush && bool_decide (c_write_mode c = WRITE_BACK) then
    enqueue_dirty_write_back_jobs ;;
    c1 ← get_state;
    joined ←
      (if wp_started (c_pool c1) && (0 <? cfg_worker_count (c_config c1)) then
         worker_steps (ce_join_steps env) ;;
         c2 ← get_state;
         mret (queue_join_until (c_queue c2))
       else mret true);
    sync_failed ← flush_dirty_entries_sync;
    (let failed := sync_failed || negb joined in
     (if failed then inc_runtime shutdown_flush_failures else mret tt) ;;
     mret failed)
  else mret false.

Lemma cache_close_eq flush env c :
  c_state c ≠ CLOSED →
  cache_close flush env c =
    (modify (set_state CLOSING) ;;
     modify (λ c, set_scheduler (scheduler_stop (c_scheduler c)) c) ;;
     failed ← close_flush (default (cfg_shutdown_flush (c_config c)) flush) env c;
     pool_stop env ;;
     modify (set_state CLOSED) ;;
     if failed : bool then
       c3 ← get_state; raise (ShutdownFlushError (count_dirty_entries c3))
     else mret tt) c.
Proof.
  intros Hs. unfold cache_close. rewrite (bind_ok _ _ c c c) by done. by destruct (c_state c).
Qed.

Lemma succeeds_close_flush do_flush env c :
  inv c → succeeds inv (close_flush do_flush env c) (λ _, True).
Proof.
  intros Hc. unfold close_flush. destruct (_ && _) eqn:Ef; [|by apply succeeds_ret].
  apply andb_true_iff in Ef as [_ Hm%bool_decide_eq_true]. rewrite (ci_mode _ _ _ _ Hc) in Hm.
  eapply succeeds_bind; [by apply succeeds_enqueue_dirty|]. intros _ _.
  eapply succeeds_bind; [apply succeeds_get|]. intros c1 _.
  eapply succeeds_bind.
  { apply (succeeds_if _ _ _ _ (λ _, True)); [|by apply succeeds_ret].
    eapply succeeds_bind; [by apply succeeds_worker_steps|]. intros _ _.
    eapply succeeds_bind; [apply succeeds_get|]. intros c2 _. by apply succeeds_ret. }
  intros joined _. eapply succeeds_bind; [by apply succeeds_sync_flush|]. intros sync_failed _.
  eapply succeeds_bind; [|intros _ _; by apply succeeds_ret].
  apply (succeeds_if _ _ _ _ (λ _, True)); [apply succeeds_inc_runtime|by apply succeeds_ret].
Qed.

Lemma run_close flush env c :
  inv c →
  c_state (cache_close flush env c).1 = CLOSED ∧
  ((cache_close flush env c).2 = Ok tt ∨
   ∃ n, (cache_close flush env c).2 = Raise (ShutdownFlushError n) ∧
        n = count_dirty_entries (cache_close flush env c).1).
Proof.
  intros Hc. destruct (decide (c_state c = CLOSED)) as [Hs|Hs].
  { unfold cache_close. rewrite (bind_ok _ _ c c c) by done. rewrite Hs. auto. }
  rewrite cache_close_eq by done. rewrite (bind_ok _ _ c (set_state CLOSING c) tt) by done.
  set (c1 := set_scheduler (scheduler_stop (c_scheduler (set_state CLOSING c))) (set_state CLOSING c)).
  rewrite (bind_ok _ _ (set_state CLOSING c) c1 tt) by done.
  assert (inv c1) as Hc1 by by apply (inv_ext _ _ _ c).
  destruct (succeeds_close_flush (default (cfg_shutdown_flush (c_config c)) flush) env c Hc c1 Hc1)
    as (c2 & failed & E2 & Hc2 & _).
  rewrite (bind_ok _ _ _ _ _ E2).
  destruct (succeeds_pool_stop env c2 Hc2) as (c3 & [] & E3 & Hc3 & _).
  rewrite (bind_ok _ _ _ _ _ E3). rewrite (bind_ok _ _ c3 (set_state CLOSED c3) tt) by done.
  destruct failed; [|by split; [|left]]. split; [done|]. right. by eexists.
Qed.
End close.
End succeed.

(** ** Properties *)

(** A worker survives every job: on any reachable cache, one iteration of the worker loop
    returns, whatever the job's handler raised, the task it took is acknowledged without
    [task_done] being called once too often, and the queue stays within its bound. *)
Theorem worker_step_never_raises {K V} `{EqDecision K} `{KeyHash K} `{PyNone V}
    (c : Cache K V (AnyPolicy K)) :
  reachable c →
  (worker_step c).2 = Ok tt ∧ queue_wf (c_queue (worker_step c).1).
Proof.
  intros Hr. destruct (succeeds_worker_step _ _ 0 ltac:(lia) c (reachable_inv c Hr))
    as (c' & [] & E & Hc' & _).
  rewrite E. split; [done|]. apply (ci_queue _ _ _ _ Hc').
Qed.

Lemma worker_step_never_raises_witness :
  let c := run (cache_preload 7 (Raise (UserError 1)) TTL_UNSET) (demo_cache "lru" "write-back" 1 0) in
  queue_depth (c_queue c) = 1 ∧ (worker_step c).2 = Ok tt ∧
  rt_jobs_failed (c_runtime (worker_step c).1) = 1.
Proof.
  split; [vm_compute; reflexivity|]. split; [|vm_compute; reflexivity].
  apply (worker_step_never_raises
    (run (cache_preload 7 (Raise (UserError 1)) TTL_UNSET) (demo_cache "lru" "write-back" 1 0))).
  apply run_reachable; [intros c; apply step_quiet, step_preload|]. apply demo_reachable. reflexivity.
Defined.

(** C32: shutdown always completes: on any reachable cache and whatever the worker threads do
    meanwhile, [close] leaves the cache closed; it returns or raises [ShutdownFlushError], and
    the number in the error is the number of entries that are still dirty. *)
Theorem close_always_closes {K V} `{EqDecision K} `{KeyHash K} `{PyNone V}
    (c : Cache K V (AnyPolicy K)) (flush : option bool) (env : CloseEnv) :
  reachable c →
  c_state (cache_close flush env c).1 = CLOSED ∧
  ((cache_close flush env c).2 = Ok tt ∨
   ∃ n, (cache_close flush env c).2 = Raise (ShutdownFlushError n) ∧
        n = count_dirty_entries (cache_close flush env c).1).
Proof. intros Hr. apply (run_close _ _ 0 ltac:(lia) flush env c (reachable_inv c Hr)). Qed.

(** A source that fails three times outlasts the two retries of one dirty entry. *)
Lemma close_always_closes_witness :
  let c := run (with_source (fail_next 3)) (run (cache_put 1 10 TTL_UNSET) (demo_cache "lru" "write-back" 0 0)) in
  (cache_close None (mkCloseEnv 0 0 0) c).2 = Raise (ShutdownFlushError 1) ∧
  c_state (cache_close None (mkCloseEnv 0 0 0) c).1 = CLOSED.
Proof.
  split; [vm_compute; reflexivity|]. apply close_always_closes.
  apply run_reachable; [intros c; apply step_quiet, step_source_failures|].
  apply run_reachable; [intros c; apply step_quiet, step_put|]. apply demo_reachable. reflexivity.
Defined.

(** A cache that is closing or closed refuses every call with [RuntimeError] and without
    any effect, and closing it again does nothing. *)
Theorem closed_cache_rejects_calls {K V P} `{EqDecision K} `{KeyHash K} `{PyNone V}
    `{HP : EvictionPolicy K P} (c : Cache K V P) :
  c_state c = CLOSED ∨ c_state c = CLOSING →
  let refused {A} (m : M (Cache K V P) A) := ∃ msg, m c = (c, Raise (RuntimeError msg)) in
  (∀ key dflt, refused (cache_get key dflt)) ∧
  (∀ key value ttl, refused (cache_put key value ttl)) ∧
  (∀ key, refused (cache_delete key)) ∧
  (∀ key, refused (cache_contains key)) ∧
  refused cache_clear ∧ refused cache_size ∧
  (∀ key, refused (cache_inspect key)) ∧
  (∀ limit, refused (cache_dump limit)) ∧
  (∀ key loader ttl others, refused (get_or_compute key loader ttl others)) ∧
  refused expire_all ∧
  (∀ key loader ttl, refused (cache_preload key loader ttl)) ∧
  (∀ id, refused (request_snapshot id)) ∧
  refused scheduler_tick ∧
  (∀ key n, refused (restore_entry_metadata key n)) ∧
  refused cache_start ∧
  (c_state c = CLOSED → ∀ flush env, cache_close flush env c = (c, Ok tt)).
Proof.
  intros Hs refused.
  assert (∀ A (f : unit → M (Cache K V P) A), ∃ msg,
    (require_not_closed ≫= f) c = (c, Raise (RuntimeError msg))) as Hguard.
  { intros A f. eexists. apply bind_raise. unfold require_not_closed. rewrite (bind_ok _ _ c c c) by done.
    by destruct Hs as [-> | ->]. }
  split_conj; intros; try apply Hguard.
  - eexists. unfold cache_start. rewrite (bind_ok _ _ c c c) by done. by destruct Hs as [-> | ->].
  - unfold cache_close. rewrite (bind_ok _ _ c c c) by done. match goal with E : c_state c = CLOSED |- _ => by rewrite E end.
Qed.

Lemma closed_cache_rejects_calls_witness :
  let c := run (cache_close None (mkCloseEnv 0 0 0)) (demo_three "lru" "cache-only") in
  c_state c = CLOSED ∧ ∃ msg, cache_get 1 0 c = (c, Raise (RuntimeError msg)).
Proof.
  assert (c_state (run (cache_close None (mkCloseEnv 0 0 0)) (demo_three "lru" "cache-only")) = CLOSED)
    as E by (vm_compute; reflexivity).
  split; [exact E|]. exact (proj1 (closed_cache_rejects_calls _ (or_introl E)) 1 0).
Defined.
