(* ===== verification/WriteBackInv.v ===== *)
(** Write-back: what ties a shard, the outstanding flush jobs and the source together.

    [wb_key] says, for one key, how its entry, version mark and pending count relate to the
    flush jobs that are outstanding for it (in the queue, being worked on, or made but not
    queued yet) and to the value in the source:
    - while the cache is open, [pending_flushes] counts exactly the outstanding jobs, and the
      version of a job is not newer than the version mark, so no job outlives its mark;
    - a put job with the version of the stored entry carries the stored value;
    - an entry that is not dirty has the value the source holds.
    The lemmas show that every critical section keeps it, for the policies that never evict
    the key just written. *)

From stdpp Require Import base tactics numbers option strings sets list.
From S2P Require Import Prelude PyDict PyFloat PyMonad Config Entry Policies PolicyLaws.
From S2P Require Import Storage Jobs Shard ShardInv ShardSpec.
Local Open Scope string_scope.
Local Open Scope list_scope.
Local Open Scope Z_scope.

Section key.
Context {K V : Type} `{EqDecision K}.
Implicit Types (jobs : list (FlushWriteBack K V)) (e : option (CacheEntry K V)).

Record wb_key (opened : Prop) jobs e (m p : option Z) (d : option V) : Prop := {
  wk_count : opened → Z.of_nat (length jobs) = default 0 p;
  wk_bound j : opened → j ∈ jobs → ∃ v, m = Some v ∧ f_version j ≤ v;
  wk_value j x :
    j ∈ jobs → f_operation j = "put" → e = Some x → f_version j = e_version x →
    f_value j = e_value x;
  wk_clean x : e = Some x → e_dirty x = false → d = Some (e_value x);
}.

(** The jobs outstanding for a key. *)
Definition jobs_for (k : K) jobs : list (FlushWriteBack K V) := filter (λ j, f_key j = k) jobs.

Lemma jobs_for_here k j jobs : f_key j = k → jobs_for k (j :: jobs) = j :: jobs_for k jobs.
Proof. intros Hk. unfold jobs_for. by rewrite filter_cons_True. Qed.

Lemma jobs_for_other k j jobs : f_key j ≠ k → jobs_for k (j :: jobs) = jobs_for k jobs.
Proof. intros Hk. unfold jobs_for. by rewrite filter_cons_False. Qed.

(** The order of the jobs does not matter. *)
Lemma wb_key_perm opened jobs jobs' e m p d :
  jobs ≡ₚ jobs' → wb_key opened jobs e m p d → wb_key opened jobs' e m p d.
Proof.
  intros Hp [Hc Hb Hv Hd]. split; try done.
  - by rewrite <- Hp.
  - intros j Ho Hj. apply Hb; [done|]. by rewrite Hp.
  - intros j x Hj. apply Hv. by rewrite Hp.
Qed.

(** The cache closes: counts and bounds no longer matter. *)
Lemma wb_key_close (o1 o2 : Prop) jobs e m p d :
  (o2 → o1) → wb_key o1 jobs e m p d → wb_key o2 jobs e m p d.
Proof. intros Ho [Hc Hb Hv Hd]. split; eauto. Qed.

(** A step of housekeeping on a key: its entry may go away, or change in nothing that
    matters, and its mark may be dropped when nothing is pending. *)
Record key_evolves e (m p : option Z) e' (m' p' : option Z) : Prop := {
  kv_pending : p' = p;
  kv_mark : m' = m ∨ (m' = None ∧ default 0 p ≤ 0);
  kv_entry x' : e' = Some x' →
    ∃ x, e = Some x ∧ e_version x' = e_version x ∧ e_value x' = e_value x ∧ e_dirty x' = e_dirty x;
}.

Lemma key_evolves_refl e m p : key_evolves e m p e m p.
Proof. split; eauto. Qed.

Lemma key_evolves_trans e1 m1 p1 e2 m2 p2 e3 m3 p3 :
  key_evolves e1 m1 p1 e2 m2 p2 → key_evolves e2 m2 p2 e3 m3 p3 → key_evolves e1 m1 p1 e3 m3 p3.
Proof.
  intros [-> Hm1 He1] [-> Hm2 He2]. split; [done|naive_solver|].
  intros x3 Hx3. destruct (He2 x3 Hx3) as (x2 & Hx2 & ? & ? & ?).
  destruct (He1 x2 Hx2) as (x1 & Hx1 & ? & ? & ?). exists x1. split_conj; congruence.
Qed.

Lemma wb_key_evolves opened jobs e m p d e' m' p' :
  key_evolves e m p e' m' p' → wb_key opened jobs e m p d → wb_key opened jobs e' m' p' d.
Proof.
  intros [-> Hm He] [Hc Hb Hv Hd]. split; [done| | |].
  - intros j Ho Hj. destruct Hm as [-> | [-> Hp]]; [by apply Hb|].
    specialize (Hc Ho). destruct jobs; [by apply not_elem_of_nil in Hj|]. simpl in Hc. lia.
  - intros j x' Hj Hop Hx' Hver. destruct (He x' Hx') as (x & Hx & Hve & Hva & _).
    rewrite Hva. apply (Hv j x); congruence.
  - intros x' Hx' Hdirty. destruct (He x' Hx') as (x & Hx & _ & Hva & Hdi).
    rewrite Hva. apply Hd; congruence.
Qed.
End key.
Arguments jobs_for : simpl never.

Section shard.
Context {K V P : Type} `{EqDecision K} `{PyNone V} `{HP : EvictionPolicy K P} `{!PolicyLaws K P}.
Implicit Types (sh : CacheShard K V P) (key k : K) (value : V) (data : dict K V).
Implicit Types (jobs : list (FlushWriteBack K V)) (job : FlushWriteBack K V).

Definition wb_at (opened : Prop) jobs data sh k : Prop :=
  wb_key opened (jobs_for k jobs) (dict_get (sh_backend sh) k) (dict_get (sh_version_marks sh) k)
    (dict_get (sh_pending_flushes sh) k) (dict_get data k).

(** For every key of the shard. *)
Definition wb_shard (R : K → Prop) (opened : Prop) jobs data sh : Prop :=
  ∀ k, R k → wb_at opened jobs data sh k.

Definition shard_evolves sh sh' : Prop :=
  ∀ k, key_evolves (dict_get (sh_backend sh) k) (dict_get (sh_version_marks sh) k)
         (dict_get (sh_pending_flushes sh) k) (dict_get (sh_backend sh') k)
         (dict_get (sh_version_marks sh') k) (dict_get (sh_pending_flushes sh') k).

#[export] Instance shard_evolves_preorder : PreOrder shard_evolves.
Proof.
  split.
  - intros sh k. apply key_evolves_refl.
  - intros sh1 sh2 sh3 H12 H23 k. by eapply key_evolves_trans.
Qed.

Lemma wb_shard_evolves R opened jobs data sh sh' :
  shard_evolves sh sh' → wb_shard R opened jobs data sh → wb_shard R opened jobs data sh'.
Proof. intros He Hw k Hk. by eapply wb_key_evolves; [apply He|apply Hw]. Qed.

Lemma wb_shard_perm R opened jobs jobs' data sh :
  jobs ≡ₚ jobs' → wb_shard R opened jobs data sh → wb_shard R opened jobs' data sh.
Proof.
  intros Hp Hw k Hk. eapply wb_key_perm; [|by apply Hw]. unfold jobs_for. by rewrite Hp.
Qed.

(** *** Housekeeping *)

Lemma evolves_remove key reason sh : shard_evolves sh (remove_entry_locked key reason sh).1.
Proof.
  intros k. pose proof (remove_entry_fields key reason sh) as Hf.
  destruct (remove_entry_locked key reason sh) as [sh' b].
  destruct Hf as (_ & Hb & _ & Hm & _ & Hp & _). cbn [fst]. rewrite Hb, Hm, Hp. split; [done| |].
  - unfold prunable, dict_get_default. destruct (Z.ltb_spec 0
      (match dict_get (sh_pending_flushes sh) key with Some v => v | None => 0 end)) as [Hlt|Hge];
      simpl; [by left|]. rewrite dict_get_pop. case_decide; [|by left]. subst k. right. split; [done|].
    by destruct (dict_get (sh_pending_flushes sh) key).
  - intros x. rewrite dict_get_pop. case_decide; [done|]. eauto.
Qed.

Lemma evolves_update key f sh :
  (∀ e, e_version (f e) = e_version e) → (∀ e, e_value (f e) = e_value e) →
  (∀ e, e_dirty (f e) = e_dirty e) →
  shard_evolves sh (set_backend (update_entry (sh_backend sh) key f) sh).
Proof.
  intros Hve Hva Hd k. split; [done|by left|]. simpl. intros x'. rewrite update_entry_get.
  case_decide; [|by eauto]. intros (x & Hx & ->)%fmap_Some. eauto.
Qed.

(** Nothing but the policy, the counters and the flights changed. *)
Lemma evolves_ext sh sh' :
  sh_backend sh' = sh_backend sh → sh_version_marks sh' = sh_version_marks sh →
  sh_pending_flushes sh' = sh_pending_flushes sh → shard_evolves sh sh'.
Proof. intros Eb Em Ep k. rewrite Eb, Em, Ep. apply key_evolves_refl. Qed.

Lemma evolves_read now key t c sh : shard_evolves sh (read_value_locked now key t c sh).1.
Proof.
  unfold read_value_locked. destruct (get_entry _ key) as [e|]; [destruct (is_expired e now)|].
  - etransitivity; [apply (evolves_remove key RExpire)|]. destruct c; by apply evolves_ext.
  - destruct t; [|destruct c; by apply evolves_ext].
    etransitivity; [by apply (evolves_update key (λ e, touch e now))|].
    destruct c; by apply evolves_ext.
  - destruct c; by apply evolves_ext.
Qed.

Lemma evolves_inspect now key sh : shard_evolves sh (inspect_locked now key sh).1.
Proof.
  unfold inspect_locked. destruct (get_entry _ key) as [e|]; [|done].
  destruct (is_expired e now); [apply evolves_remove|done].
Qed.

Lemma evolves_expire_keys keys n sh : shard_evolves sh (expire_keys keys n sh).1.
Proof.
  revert n sh. induction keys as [|key keys IH]; intros n sh; [done|]. cbn [expire_keys].
  pose proof (evolves_remove key RExpire sh) as Hr.
  destruct (remove_entry_locked key RExpire sh) as [sh1 b]. cbn [fst] in Hr. by etransitivity.
Qed.

Lemma evolves_dump now sh : shard_evolves sh (dump_locked now sh).1.
Proof. destruct (dump_locked_eq now sh) as [-> _]. apply evolves_expire_keys. Qed.

Lemma evolves_restore key n sh : shard_evolves sh (restore_locked key n sh).
Proof. by apply evolves_update. Qed.

Lemma evolves_put_expire now key sh : shard_evolves sh (put_expire now key sh).1.
Proof.
  unfold put_expire. destruct (get_entry _ key) as [e|]; [|done].
  destruct (is_expired e now); [apply evolves_remove|done].
Qed.

Lemma evolves_enforce fuel sh : shard_evolves sh (enforce_capacity_loop fuel sh).
Proof.
  revert sh. induction fuel as [|fuel IH]; intros sh; [done|]. rewrite enforce_loop_S.
  destruct (_ <? _); [|done]. destruct (evict_candidate _) as [c|]; [|done].
  etransitivity; [apply (evolves_remove c REvict)|]. apply IH.
Qed.

(** *** New versions *)

(** A new job for [key] whose version is the new mark: what becomes of [wb_key]. *)
Lemma wb_key_new_version jobs job e e' m p d :
  wb_key True jobs e m p d →
  f_version job = default 0 m + 1 →
  (∀ x, e' = Some x → e_version x = f_version job ∧ e_dirty x = true ∧
        (f_operation job = "put" → f_value job = e_value x)) →
  wb_key True (job :: jobs) e' (Some (default 0 m + 1)) (Some (default 0 p + 1)) d.
Proof.
  intros [Hc Hb Hv Hd] Hver He'. split.
  - intros _. specialize (Hc I). simpl. lia.
  - intros j _ [-> | Hj]%elem_of_cons; [eexists; split; [done|]; lia|].
    destruct (Hb j I Hj) as (v & -> & Hle). eexists. split; [done|]. simpl. lia.
  - intros j x [-> | Hj]%elem_of_cons Hop Hx Hvx; [by apply He'|].
    destruct (Hb j I Hj) as (v & -> & Hle). destruct (He' x Hx) as (Hxv & _). simpl in *. lia.
  - intros x Hx Hdirty. destruct (He' x Hx) as (_ & Hxd & _). congruence.
Qed.

Lemma wb_put R dttl n now key value ttl sh src sh' src' r jobs data :
  shard_wf sh → keeps_new (sh_policy sh) → wb_shard R True jobs data sh →
  put_locked WRITE_BACK dttl n now key value ttl (sh, src) = ((sh', src'), r) →
  src' = src ∧ ∃ job, r = Ok (Some job) ∧ f_key job = key ∧ wb_shard R True (job :: jobs) data sh'.
Proof.
  intros Hw Hkeep Hwb. unfold put_locked.
  pose proof (put_expire_wf now key sh Hw) as Hw1. pose proof (evolves_put_expire now key sh) as He1.
  assert (keeps_new (sh_policy (put_expire now key sh).1)) as Hk1.
  { unfold put_expire. destruct (get_entry _ _) as [e|]; [|done]. destruct (is_expired e now); [|done].
    pose proof (remove_entry_fields key RExpire sh) as Hf.
    destruct (remove_entry_locked key RExpire sh) as [sh1 b]. destruct Hf as (_ & _ & Hp & _).
    cbn [fst]. rewrite Hp.
    by apply keeps_new_delete. }
  destruct (put_expire now key sh) as [sh1 ex]. cbn [fst] in *.
  apply (wb_shard_evolves _ _ _ _ sh sh1 He1) in Hwb.
  pose proof (put_store_keeps_key WRITE_BACK dttl now key value ttl ex sh1 Hw1 Hk1) as Hentry.
  pose proof (put_store_wf WRITE_BACK dttl now key value ttl ex sh1 Hw1) as Hw2.
  rewrite put_store_eq in *. cbn [fst] in *. intros [= <- <- <-]. split; [done|]. eexists. split; [done|]. split; [done|].
  pose proof (evolves_enforce (S (Z.to_nat (policy_len (sh_policy
    (put_insert WRITE_BACK dttl now key value ttl ex sh1)))))
    (put_insert WRITE_BACK dttl now key value ttl ex sh1)) as Hev.
  change (enforce_capacity_loop _ _) with
    (enforce_capacity_locked (put_insert WRITE_BACK dttl now key value ttl ex sh1)) in Hev.
  set (sh2 := enforce_capacity_locked _) in *. set (entry := new_entry _ _ _ _ _ _ _ _) in *.
  intros k HR. unfold wb_at. simpl. destruct (decide (k = key)) as [->|Hne].
  - rewrite jobs_for_here by done. rewrite dict_get_set_eq, Hentry.
    assert (dict_get (sh_version_marks sh2) key
      = Some (default 0 (dict_get (sh_version_marks sh1) key) + 1)) as Hmark.
    { rewrite (ko_entry _ _ _ _ (sc_keys _ (sw_core _ Hw2) key) _ Hentry). f_equal.
      apply new_entry_version. }
    rewrite Hmark. unfold dict_get_default. rewrite (kv_pending _ _ _ _ _ _ (Hev key)). simpl.
    apply (wb_key_new_version _ _ (dict_get (sh_backend sh1) key)); [by apply Hwb|done|].
    intros x [= <-]. simpl. unfold entry. rewrite new_entry_version, new_entry_dirty, new_entry_value.
    by split_conj.
  - rewrite jobs_for_other by done. rewrite dict_get_set_ne by done.
    eapply wb_key_evolves; [apply Hev|]. simpl. unfold put_entry.
    rewrite new_entry_key, !dict_get_set_ne by done. by apply Hwb.
Qed.

Lemma wb_delete_key R n key sh src sh' src' r jobs data :
  shard_wf sh → wb_shard R True jobs data sh →
  delete_key_locked WRITE_BACK n key (sh, src) = ((sh', src'), r) →
  src' = src ∧ ∃ existed job,
    r = Ok (existed, Some job) ∧ f_key job = key ∧ wb_shard R True (job :: jobs) data sh'.
Proof.
  intros Hw Hwb. unfold delete_key_locked.
  pose proof (mark_deleted_fields n key sh) as (Fb & _ & Fm & _ & Fp & _).
  assert (f_key (mark_deleted n key sh).2 = key ∧ f_operation (mark_deleted n key sh).2 = "delete" ∧
    f_version (mark_deleted n key sh).2 = default 0 (dict_get (sh_version_marks sh) key) + 1)
    as (Jk & Jo & Jv) by done.
  destruct (mark_deleted n key sh) as [sh1 job]. cbn [fst snd] in *.
  pose proof (remove_entry_fields key RDelete sh1) as Hf.
  destruct (remove_entry_locked key RDelete sh1) as [sh2 existed].
  destruct Hf as (_ & Eb & _ & Em & _ & Ep & _). intros [= <- <- <-].
  split; [done|]. eexists _, _. split; [done|]. split; [done|].
  eapply (wb_shard_evolves _ _ _ _ sh2); [destruct existed; [by apply evolves_ext|done]|].
  pose proof (mark_nonneg sh key (sc_keys _ (sw_core _ Hw))) as Hmn.
  pose proof (pending_nonneg sh key (sc_keys _ (sw_core _ Hw))) as Hpn.
  assert (prunable sh1 key = false) as Hpr.
  { unfold prunable, dict_get_default in *. rewrite Fp, dict_get_set_eq.
    apply negb_false_iff, Z.ltb_lt. lia. }
  rewrite Hpr in *. intros k HR. unfold wb_at. rewrite Eb, Em, Ep, Fb, Fm, Fp.
  destruct (decide (k = key)) as [->|Hne].
  - rewrite !dict_get_set_eq, dict_get_pop_eq, jobs_for_here by done.
    apply (wb_key_new_version _ _ (dict_get (sh_backend sh) key)); [by apply Hwb|done|done].
  - rewrite !dict_get_set_ne, dict_get_pop_ne by done. rewrite jobs_for_other by congruence.
    by apply Hwb.
Qed.

Lemma wb_delete R n key sh src sh' src' r jobs data :
  shard_wf sh → wb_shard R True jobs data sh →
  delete_locked WRITE_BACK n key (sh, src) = ((sh', src'), r) →
  src' = src ∧ ∃ existed job,
    r = Ok (existed, Some job) ∧ f_key job = key ∧ wb_shard R True (job :: jobs) data sh'.
Proof.
  intros Hw Hwb. unfold delete_locked, mbind, M_bind.
  destruct (delete_key_locked WRITE_BACK n key (sh, src)) as [[sh1 src1] r1] eqn:E.
  destruct (wb_delete_key _ _ _ _ _ _ _ _ _ _ Hw Hwb E) as (-> & existed & job & -> & Hkey & Hwb1).
  intros [= <- <- <-]. split; [done|]. eexists _, _. split; [done|]. split; [done|].
  eapply wb_shard_evolves; [|exact Hwb1]. by apply evolves_ext.
Qed.

Lemma wb_clear_keys R n keys sh src jobs data :
  shard_wf sh → wb_shard R True jobs data sh →
  ∃ sh' new, clear_keys_locked WRITE_BACK n keys (sh, src) = ((sh', src), Ok new) ∧
             wb_shard R True (new ++ jobs) data sh'.
Proof.
  revert sh jobs. induction keys as [|key keys IH]; intros sh jobs Hw Hwb; [by exists sh, []|].
  cbn [clear_keys_locked]. unfold mbind, M_bind.
  pose proof (delete_key_locked_wf WRITE_BACK n key (sh, src) Hw) as Hw1.
  destruct (delete_key_locked WRITE_BACK n key (sh, src)) as [[sh1 src1] r1] eqn:E.
  destruct (wb_delete_key _ _ _ _ _ _ _ _ _ _ Hw Hwb E) as (-> & existed & job & -> & _ & Hwb1).
  destruct (IH sh1 (job :: jobs) Hw1 Hwb1) as (sh2 & new & E2 & Hwb2).
  rewrite E2. exists sh2, (job :: new). split; [done|].
  eapply wb_shard_perm; [|exact Hwb2]. by rewrite <- Permutation_middle.
Qed.

Lemma wb_clear R n sh src jobs data :
  shard_wf sh → wb_shard R True jobs data sh →
  ∃ sh' new, clear_locked WRITE_BACK n (sh, src) = ((sh', src), Ok new) ∧
             wb_shard R True (new ++ jobs) data sh'.
Proof.
  intros Hw Hwb. unfold clear_locked, mbind, M_bind, get_state.
  destruct (wb_clear_keys R n (backend_keys (sh_backend sh)) sh src jobs data Hw Hwb)
    as (sh1 & new & E & Hwb1). rewrite E. eexists _, new. split; [done|].
  eapply wb_shard_evolves; [|exact Hwb1]. by apply evolves_ext.
Qed.

(** *** Resolving a job *)

Lemma resolve_fields key sh :
  let sh' := resolve_pending_locked key sh in
  let n := default 0 (dict_get (sh_pending_flushes sh) key) - 1 in
  sh_backend sh' = sh_backend sh ∧
  (∀ k, dict_get (sh_pending_flushes sh') k
        = if decide (key = k) then (if 0 <? n then Some n else None)
          else dict_get (sh_pending_flushes sh) k) ∧
  (∀ k, dict_get (sh_version_marks sh') k = dict_get (sh_version_marks sh) k ∨
        (k = key ∧ n ≤ 0 ∧ dict_get (sh_version_marks sh') k = None)).
Proof.
  cbn zeta. unfold resolve_pending_locked.
  change (dict_get_default (sh_pending_flushes sh) key 0)
    with (default 0 (dict_get (sh_pending_flushes sh) key)).
  set (n := default 0 (dict_get (sh_pending_flushes sh) key) - 1).
  set (sh1 := if 0 <? n then _ else _).
  assert (sh_backend sh1 = sh_backend sh ∧ sh_version_marks sh1 = sh_version_marks sh) as [Hb Hm]
    by (subst sh1; by destruct (0 <? n)).
  assert (∀ k, dict_get (sh_pending_flushes sh1) k
    = if decide (key = k) then (if 0 <? n then Some n else None)
      else dict_get (sh_pending_flushes sh) k) as Hp.
  { intros k. subst sh1. destruct (0 <? n); simpl; [rewrite dict_get_set|rewrite dict_get_pop];
      by case_decide. }
  pose proof (prune_fields key sh1) as (Eb & _ & Ep & _ & _ & Em & _).
  rewrite Eb, Ep, Hb. split_conj; [done..|]. intros k. rewrite Em, Hm.
  destruct (prunable sh1 key && _) eqn:Ea; [|by left]. rewrite dict_get_pop. case_decide; [|by left].
  right. subst k. apply andb_true_iff in Ea as [Hpr _]. unfold prunable, dict_get_default in Hpr.
  rewrite Hp, decide_True in Hpr by done. split_conj; [done| |done].
  destruct (Z.ltb_spec 0 n); [|lia]. apply negb_true_iff, Z.ltb_ge in Hpr. lia.
Qed.

Lemma wb_resolve R (opened : Prop) job jobs data sh :
  wb_shard R opened (job :: jobs) data sh →
  wb_shard R opened jobs data (resolve_pending_locked (f_key job) sh).
Proof.
  intros Hwb k HR. specialize (Hwb k HR). unfold wb_at in *.
  destruct (resolve_fields (f_key job) sh) as (Hb & Hp & Hm). rewrite Hb, Hp.
  specialize (Hm k). destruct (decide (f_key job = k)) as [Hk|Hk].
  - rewrite Hk in *. rewrite jobs_for_here in Hwb by done. destruct Hwb as [Hc Hbd Hv Hd]. split.
    + intros Ho. specialize (Hc Ho). simpl in Hc. destruct (Z.ltb_spec 0
        (default 0 (dict_get (sh_pending_flushes sh) k) - 1)); simpl; lia.
    + intros j Ho Hj. specialize (Hc Ho). simpl in Hc.
      destruct Hm as [-> | (_ & Hn & _)]; [by apply Hbd; [|apply list_elem_of_further]|].
      destruct (jobs_for k jobs); [by apply not_elem_of_nil in Hj|]. simpl in Hc. lia.
    + intros j x Hj. apply Hv. by apply list_elem_of_further.
    + done.
  - rewrite jobs_for_other in Hwb by done. destruct Hm as [-> | (-> & _)]; done.
Qed.

(** *** Applying a job to the source *)

(** The data the job leaves in the source. *)
Definition applied (job : FlushWriteBack K V) data : dict K V :=
  if String.eqb (f_operation job) "put" then dict_set data (f_key job) (f_value job)
  else dict_pop data (f_key job).

Lemma applied_other job data k : f_key job ≠ k → dict_get (applied job data) k = dict_get data k.
Proof.
  intros Hk. unfold applied. destruct (String.eqb _ _); [by apply dict_get_set_ne|by apply dict_get_pop_ne].
Qed.

(** A job that is not stale writes what the live entry says. *)
Lemma not_stale_entry sh (job : FlushWriteBack K V) (x : CacheEntry K V) :
  shard_wf sh → is_stale_write_back (sh_version_marks sh) (sh_tombstones sh) job = false →
  dict_get (sh_backend sh) (f_key job) = Some x →
  f_operation job = "put" ∧ f_version job = e_version x.
Proof.
  intros Hw Hs Hx. pose proof (sc_keys _ (sw_core _ Hw) (f_key job)) as Hk.
  pose proof (ko_entry _ _ _ _ Hk x Hx) as Hm.
  assert (dict_get (sh_tombstones sh) (f_key job) = None) as Ht.
  { destruct (dict_get (sh_tombstones sh) (f_key job)) as [v|] eqn:E; [|done].
    destruct (ko_tomb _ _ _ _ Hk v eq_refl) as (_ & He & _). congruence. }
  unfold is_stale_write_back, dict_get_default in Hs. rewrite Hm, Ht in Hs.
  destruct (String.eqb_spec (f_operation job) "put") as [Hop|Hop].
  - split; [done|]. rewrite orb_false_r in Hs. apply negb_false_iff, Z.eqb_eq in Hs. done.
  - destruct (String.eqb (f_operation job) "delete"); [|done]. by rewrite orb_true_r in Hs.
Qed.

(** A clean entry for the key of the job has the value the job writes. *)
Definition agrees (job : FlushWriteBack K V) sh : Prop :=
  ∀ x, dict_get (sh_backend sh) (f_key job) = Some x → e_dirty x = false →
    f_operation job = "put" ∧ f_value job = e_value x.

(** The entry for the key of the job, clean or not, has the value the job writes. *)
Definition matches (job : FlushWriteBack K V) sh : Prop :=
  ∀ x, dict_get (sh_backend sh) (f_key job) = Some x → f_operation job = "put" ∧ f_value job = e_value x.

Lemma matches_agrees job sh : matches job sh → agrees job sh.
Proof. intros Hm x Hx _. by apply Hm. Qed.

Lemma not_stale_matches R opened job jobs data sh :
  shard_wf sh → is_stale_write_back (sh_version_marks sh) (sh_tombstones sh) job = false →
  R (f_key job) → wb_shard R opened (job :: jobs) data sh → matches job sh.
Proof.
  intros Hw Hs HR Hwb x Hx. destruct (not_stale_entry sh job x Hw Hs Hx) as [Hop Hver]. split; [done|].
  apply (wk_value _ _ _ _ _ _ (Hwb _ HR) job x); [|done..].
  rewrite jobs_for_here by done. apply list_elem_of_here.
Qed.

Lemma wb_applied R opened job jobs data sh :
  agrees job sh → wb_shard R opened jobs data sh → wb_shard R opened jobs (applied job data) sh.
Proof.
  intros Ha Hwb k HR. specialize (Hwb k HR). unfold wb_at in *.
  destruct (decide (f_key job = k)) as [Hk|Hk]; [|by rewrite applied_other].
  subst k. destruct Hwb as [Hc Hb Hv Hd]. split; [done..|]. intros x Hx Hdirty.
  destruct (Ha x Hx Hdirty) as [Hop <-]. unfold applied. rewrite Hop. simpl. apply dict_get_set_eq.
Qed.

Lemma wb_mark_clean R opened job jobs data sh :
  (∀ x, dict_get (sh_backend sh) (f_key job) = Some x → e_version x = f_version job →
     dict_get data (f_key job) = Some (e_value x)) →
  wb_shard R opened jobs data sh → wb_shard R opened jobs data (mark_clean job sh).
Proof.
  intros Hdata Hwb k HR. specialize (Hwb k HR). unfold wb_at in *. unfold mark_clean, get_entry.
  destruct (dict_get (sh_backend sh) (f_key job)) as [x|] eqn:E; [|done].
  destruct (Z.eqb_spec (e_version x) (f_version job)) as [Hver|]; [|done]. simpl.
  rewrite update_entry_get. case_decide as Hk; [|done]. subst k. rewrite E in *. simpl.
  destruct Hwb as [Hc Hb Hv Hd]. split; [done..| |].
  - intros j y Hj Hjop [= <-]. simpl. by apply Hv.
  - intros y [= <-] _. simpl. by apply Hdata.
Qed.

(** *** After the cache has started to close *)

(** Marks and pending counts do not matter any more. *)
Lemma wb_closed_backend R jobs data sh sh' :
  sh_backend sh' = sh_backend sh → wb_shard R False jobs data sh → wb_shard R False jobs data sh'.
Proof. intros Hb Hwb k HR. destruct (Hwb k HR) as [_ _ Hv Hd]. by split; try done; rewrite Hb. Qed.

(** Jobs may be dropped. *)
Lemma wb_closed_fewer R jobs jobs' data sh :
  (∀ j, j ∈ jobs' → j ∈ jobs) → wb_shard R False jobs data sh → wb_shard R False jobs' data sh.
Proof.
  intros Hj Hwb k HR. destruct (Hwb k HR) as [_ _ Hv Hd]. split; try done.
  intros j x [Hk Hin]%list_elem_of_filter. apply Hv. apply list_elem_of_filter. auto.
Qed.

(** The jobs the shutdown makes carry the values of the entries. *)
Lemma wb_collect R n jobs data sh :
  shard_wf sh → wb_shard R False jobs data sh →
  wb_shard R False ((dirty_put_jobs n sh ++ tombstone_jobs n sh) ++ jobs) data sh.
Proof.
  intros Hw Hwb k HR. destruct (Hwb k HR) as [_ _ Hv Hd]. split; try done.
  intros j x [Hk [[Hj|Hj]%elem_of_app|Hj]%elem_of_app]%list_elem_of_filter Hop Hx Hver.
  - apply list_elem_of_fmap in Hj as (e & -> & [_ He]%list_elem_of_filter). simpl in *.
    destruct (sc_backend _ (sw_core _ Hw)) as [Hdw Hkey].
    apply dict_values_elem in He as [k' He]; [|done]. rewrite (Hkey _ _ He) in Hk. congruence.
  - apply list_elem_of_fmap in Hj as (kv & -> & _). done.
  - apply (Hv j x); [by apply list_elem_of_filter|done..].
Qed.
End shard.
