(* ===== verification/WriteBack.v ===== *)
(** Write-back mode end to end: the cache, its job queue, one worker at a time and the source.

    [wb_inv held c] extends the invariant of [WriteBackInv] to the whole cache; [held] are the
    flush jobs that some call or worker holds outside the queue.  It is kept by every step of
    the cache, provided the policy never evicts the key just written, and gives the two
    guarantees of write-back: entries that are not dirty agree with the source, and a
    [close] that returns has persisted every entry. *)

From stdpp Require Import base tactics numbers option strings sets list relations.
From S2P Require Import Prelude PyDict PyFloat PyMonad Config Entry Policies PolicyLaws.
From S2P Require Import Storage Jobs Shard ShardInv ShardSpec Cache CacheInv CacheSafety.
From S2P Require Import Reach CacheSpec Demo Lifecycle WriteBackInv.
Local Open Scope string_scope.
Local Open Scope list_scope.
Local Open Scope Z_scope.

Section wb.
Context {K V P : Type} `{EqDecision K} `{KeyHash K} `{PyNone V}
  `{HP : EvictionPolicy K P} `{!PolicyLaws K P}.
Implicit Types (c : Cache K V P) (sh : CacheShard K V P) (key k : K) (value : V).
Implicit Types (job : FlushWriteBack K V) (held jobs : list (FlushWriteBack K V)).
Local Abbreviation MC := (M (Cache K V P)).

(** The flush jobs in the queue. *)
Definition flush_of (job : Job K V) : option (FlushWriteBack K V) :=
  match job with FlushJob j => Some j | _ => None end.
Definition queued c : list (FlushWriteBack K V) := omap flush_of (q_items (c_queue c)).

(** ** Commit and enqueue *)

(** The jobs a commit hands over; one that raised hands over none. *)
Definition jobs_of (r : result (list (FlushWriteBack K V))) : list (FlushWriteBack K V) :=
  match r with Ok jobs => jobs | Raise _ => [] end.

(** [Cache.put] up to the end of its critical section: what it leaves to be enqueued. *)
Definition put_commit key value (ttl : ttl_arg) : MC (list (FlushWriteBack K V)) :=
  require_not_closed ;;
  maybe_warn_cache_not_started ;;
  validate_explicit_ttl ttl ;;
  c ← get_state;
  t ← now;
  flush_job ← with_lock_src (shard_for c key)
    (put_locked (c_write_mode c) (cfg_default_ttl (c_config c))
       (cfg_write_back_retry_count (c_config c)) t key value ttl);
  mret (option_list flush_job).

(** [Cache.delete] up to the end of its critical section. *)
Definition delete_commit key : MC (bool * list (FlushWriteBack K V)) :=
  require_not_closed ;;
  c ← get_state;
  '(existed, flush_job) ← with_lock_src (shard_for c key)
    (delete_locked (c_write_mode c) (cfg_write_back_retry_count (c_config c)) key);
  mret (existed, option_list flush_job).

(** [Cache.clear] up to the end of its last critical section. *)
Definition clear_commit : MC (list (FlushWriteBack K V)) :=
  require_not_closed ;;
  c ← get_state;
  clear_shards (shard_indices c).

(** The calls are their commit followed by [_enqueue_flush_jobs]. *)
Lemma put_commits key value ttl c :
  cache_put key value ttl c = (jobs ← put_commit key value ttl; enqueue_flush_jobs jobs) c.
Proof.
  unfold cache_put, put_commit, mbind, M_bind. destruct (require_not_closed c) as [c1 [[]|]]; [|done].
  destruct (maybe_warn_cache_not_started c1) as [c2 [[]|]]; [|done].
  destruct (validate_explicit_ttl ttl c2) as [c3 [[]|]]; [|done]. cbn.
  by destruct (with_lock_src _ _ _) as [c4 [[]|]].
Qed.
Lemma delete_commits key c :
  cache_delete key c = ('(existed, jobs) ← delete_commit key; enqueue_flush_jobs jobs ;; mret existed) c.
Proof.
  unfold cache_delete, delete_commit, mbind, M_bind. destruct (require_not_closed c) as [c1 [[]|]]; [|done]. cbn.
  by destruct (with_lock_src _ _ _) as [c2 [[existed []]|]].
Qed.
Lemma clear_commits c : cache_clear c = (jobs ← clear_commit; enqueue_flush_jobs jobs) c.
Proof.
  unfold cache_clear, clear_commit, mbind, M_bind. by destruct (require_not_closed c) as [c1 [[]|]].
Qed.

Context (cfg : CacheConfig) (Hkeep : str_lower (cfg_policy cfg) ≠ "lfu").
Local Abbreviation cinv := (cache_inv (K:=K) (V:=V) (P:=P) cfg WRITE_BACK).

Definition wb_inv held c : Prop :=
  ∀ i sh, c_shards c !! i = Some sh →
    wb_shard (routed cfg i) (is_open c) (held ++ queued c) (sd_data (c_source c)) sh.

Record wbi (busy : Z) held c : Prop := {
  wbi_inv : cinv busy c;
  wbi_wb : wb_inv held c;
}.

(** *** Rules *)

Lemma jobs_for_app k jobs jobs' : jobs_for k (jobs ++ jobs') = jobs_for k jobs ++ jobs_for k jobs'.
Proof. unfold jobs_for. by rewrite filter_app. Qed.

Lemma wb_inv_ext held c c' :
  c_shards c' = c_shards c → c_source c' = c_source c → c_queue c' = c_queue c →
  (is_open c' → is_open c) → wb_inv held c → wb_inv held c'.
Proof.
  intros E1 E2 E3 Ho Hw i sh. rewrite E1. intros Hi k HR. unfold queued. rewrite E2, E3.
  eapply wb_key_close; [exact Ho|]. by apply (Hw i sh Hi k HR).
Qed.

(** One shard changes, perhaps with the source and the jobs held for its keys. *)
Lemma wb_inv_change j sh sh' src' held held' c :
  c_shards c !! j = Some sh → wb_inv held c →
  (wb_shard (routed cfg j) (is_open c) (held ++ queued c) (sd_data (c_source c)) sh →
   wb_shard (routed cfg j) (is_open c) (held' ++ queued c) (sd_data src') sh') →
  (∀ k, ¬ routed cfg j k → jobs_for k held' = jobs_for k held ∧
        dict_get (sd_data src') k = dict_get (sd_data (c_source c)) k) →
  wb_inv held' (set_source src' (with_shard j sh' c)).
Proof.
  intros Hj Hw Hsh Hother i x. cbn [set_source with_shard set_shards c_shards].
  destruct (decide (i = j)) as [->|Hne].
  - rewrite list_lookup_insert_eq by (by eapply lookup_lt_Some). intros [= <-]. apply Hsh. by apply Hw.
  - rewrite list_lookup_insert_ne by done. intros Hx k HR.
    assert (¬ routed cfg j k) as Hnr by (unfold routed in *; lia).
    destruct (Hother k Hnr) as [Hjobs Hdata]. specialize (Hw i x Hx k HR). unfold wb_at in *.
    rewrite jobs_for_app, Hjobs, <- jobs_for_app. simpl. by rewrite Hdata.
Qed.

Lemma wb_inv_shard j sh sh' held c :
  c_shards c !! j = Some sh → wb_inv held c →
  (wb_shard (routed cfg j) (is_open c) (held ++ queued c) (sd_data (c_source c)) sh →
   wb_shard (routed cfg j) (is_open c) (held ++ queued c) (sd_data (c_source c)) sh') →
  wb_inv held (with_shard j sh' c).
Proof. intros Hj Hw Hsh. by apply (wb_inv_change j sh sh' (c_source c) held held c). Qed.

Section ops.
Context (busy : Z).

Lemma wbi_field held f :
  (∀ c, c_config (f c) = c_config c ∧ c_write_mode (f c) = c_write_mode c ∧
        c_source (f c) = c_source c ∧ c_shards (f c) = c_shards c ∧ c_queue (f c) = c_queue c ∧
        c_state (f c) = c_state c) →
  keeps (wbi busy held) (modify f).
Proof.
  intros Hf c [Hc Hw]. destruct (Hf c) as (?&?&?&?&?&Hst). split; [by apply (inv_ext _ _ _ c)|].
  apply (wb_inv_ext held c); try done. unfold is_open. simpl. by rewrite Hst.
Qed.

Lemma wbi_lock {A} held i (f : CacheShard K V P → CacheShard K V P * A) :
  (∀ j data sh, shard_ok cfg WRITE_BACK j data sh → shard_ok cfg WRITE_BACK j data (f sh).1) →
  (∀ sh, shard_evolves sh (f sh).1) →
  keeps (wbi busy held) (with_lock i f).
Proof.
  intros Hf He c [Hc Hw]. pose proof (keeps_lock cfg WRITE_BACK busy i f Hf c Hc) as Hk.
  split; [done|]. unfold with_lock, with_lock_src. set (j := shard_slot _ _).
  destruct (c_shards c !! j) as [sh|] eqn:E; [|done]. specialize (He sh).
  destruct (f sh) as [sh' a]. cbn [fst] in *. apply (wb_inv_shard j sh sh' held c E Hw).
  by apply wb_shard_evolves.
Qed.

Lemma wbi_inc_runtime held f : keeps (wbi busy held) (inc_runtime f).
Proof. by apply wbi_field. Qed.

Lemma wbi_sleep held t : keeps (wbi busy held) (sleep t).
Proof. by apply wbi_field. Qed.

Lemma wbi_perm held held' c : held ≡ₚ held' → wbi busy held c → wbi busy held' c.
Proof.
  intros Hp [Hc Hw]. split; [done|]. intros i sh Hi. eapply wb_shard_perm; [|by apply Hw].
  by rewrite Hp.
Qed.

(** A job enters the queue, or the queue is full. *)
Lemma queued_push (q : CacheJobQueue K V) (j : Job K V) :
  omap flush_of (q_items (queue_push q j)) = omap flush_of (q_items q) ++ option_list (flush_of j).
Proof. unfold queue_push. simpl. by rewrite omap_app. Qed.

Lemma wbi_enqueue_other held (job : Job K V) critical :
  job_ok cfg WRITE_BACK job → flush_of job = None → keeps (wbi busy held) (enqueue_job job critical).
Proof.
  intros Hj Hf c [Hc Hw]. split; [by apply keeps_enqueue_job|].
  assert (queued (enqueue_job job critical c).1 = queued c ∧
    c_shards (enqueue_job job critical c).1 = c_shards c ∧
    c_source (enqueue_job job critical c).1 = c_source c ∧
    c_state (enqueue_job job critical c).1 = c_state c) as (Eq & Es & Esrc & Est).
  { unfold enqueue_job, mbind, M_bind, queued.
    destruct (queue_put_cases job critical (c_queue c)) as [[_ ->]|[_ ->]].
    - by destruct critical.
    - cbn [mret M_ret fst set_queue c_queue]. by rewrite queued_push, Hf, app_nil_r. }
  intros i sh. rewrite Es, Eq, Esrc. intros Hi k HR. eapply wb_key_close; [|by apply (Hw i sh Hi k HR)].
  unfold is_open. by rewrite Est.
Qed.

Lemma wbi_enqueue held job c :
  flush_ok cfg WRITE_BACK job → wbi busy (job :: held) c →
  (∃ c', enqueue_job (FlushJob job) true c = (c', Ok true) ∧ wbi busy held c') ∨
  (∃ c', enqueue_job (FlushJob job) true c = (c', Raise QueueBackpressureError) ∧
         wbi busy (job :: held) c').
Proof.
  intros Hj [Hc Hw]. pose proof (keeps_enqueue_job cfg WRITE_BACK busy (FlushJob job) true Hj c Hc) as Hk.
  unfold enqueue_job, mbind, M_bind in *.
  destruct (queue_put_cases (FlushJob job) true (c_queue c)) as [[_ E]|[_ E]]; rewrite E in *.
  - right. eexists. split; [done|]. split; [done|]. exact Hw.
  - left. eexists. split; [done|]. split; [done|]. intros i sh Hi. specialize (Hw i sh Hi).
    eapply wb_shard_perm; [|exact Hw]. unfold queued. cbn [set_queue c_queue]. rewrite queued_push. simpl.
    rewrite (app_assoc held). by rewrite <- Permutation_cons_append.
Qed.

(** The pending mark of a held job is released. *)
Lemma wbi_resolve {A} held job c (a : A) :
  flush_ok cfg WRITE_BACK job → wbi busy (job :: held) c →
  ∃ c', with_lock (f_shard_index job) (λ sh, (resolve_pending_locked (f_key job) sh, a)) c = (c', Ok a) ∧
        wbi busy held c'.
Proof.
  intros Hj [Hc Hw]. destruct Hj as (i & Hi & Hj).
  pose proof (keeps_resolve cfg WRITE_BACK busy (f_shard_index job) (f_key job) a c Hc) as Hk.
  destruct (run_lock_at cfg WRITE_BACK busy (f_shard_index job)
    (λ sh, (resolve_pending_locked (f_key job) sh, a)) c Hc) as (sh & Hsh & Hwf & E).
  { rewrite (jh_index _ _ _ _ Hj). lia. }
  rewrite E in *. eexists. split; [done|]. split; [done|]. cbn [fst snd] in *.
  rewrite (jh_index _ _ _ _ Hj), Nat2Z.id in *.
  apply (wb_inv_change i sh _ (c_source c) (job :: held) held c Hsh Hw).
  - apply wb_resolve.
  - intros k Hk'. split; [|done]. symmetry. apply jobs_for_other. intros <-. by apply Hk', (jh_key _ _ _ _ Hj).
Qed.

Lemma wbi_release held jobs c :
  Forall (flush_ok cfg WRITE_BACK) jobs → wbi busy (jobs ++ held) c →
  ∃ c', release_pending jobs c = (c', Ok tt) ∧ wbi busy held c'.
Proof.
  intros Hj. revert c. induction Hj as [|job jobs Hj _ IH]; intros c Hw; [by exists c|].
  unfold release_pending. cbn [for_each].
  destruct (wbi_resolve (jobs ++ held) job c tt Hj Hw) as (c1 & E & Hw1).
  rewrite (bind_ok _ _ _ _ _ E). by apply IH.
Qed.

Lemma wbi_enqueue_flush held jobs c :
  Forall (flush_ok cfg WRITE_BACK) jobs → wbi busy (jobs ++ held) c →
  wbi busy held (enqueue_flush_jobs jobs c).1.
Proof.
  intros Hj. revert c. induction Hj as [|job jobs Hj Hjs IH]; intros c Hw; [done|].
  cbn [enqueue_flush_jobs].
  destruct (wbi_enqueue (jobs ++ held) job c Hj Hw) as [(c1 & E & Hw1)|(c1 & E & Hw1)];
    rewrite (bind_ok _ _ _ _ _ (attempt_eq _ _ _ _ E)); [by apply IH|].
  destruct (wbi_release held (job :: jobs) c1) as (c2 & E2 & Hw2); [by constructor|done|].
  by rewrite (bind_ok _ _ _ _ _ E2).
Qed.

Lemma wb_shard_opened R (o1 o2 : Prop) jobs data sh :
  (o2 → o1) → wb_shard R o1 jobs data sh → wb_shard R o2 jobs data sh.
Proof. intros Ho Hw k HR. eapply wb_key_close; [exact Ho|by apply Hw]. Qed.

Lemma shard_keeps_new c key sh : cinv busy c → c_shards c !! slot c key = Some sh → keeps_new (sh_policy sh).
Proof.
  intros Hc Hsh. apply (ci_shards _ _ _ _ Hc) in Hsh as [_ Hs]. by apply (ss_keeps _ _ _ _ _ _ _ Hs).
Qed.

Lemma not_open_raises c : ¬ is_open c → ∃ e, require_not_closed c = (c, Raise e).
Proof.
  intros Ho. unfold require_not_closed. rewrite (bind_ok _ _ c c c) by done. unfold is_open in Ho.
  destruct (c_state c); [by destruct Ho; left|by destruct Ho; right|by eexists..].
Qed.

Lemma open_dec c : is_open c ∨ ¬ is_open c.
Proof. unfold is_open. destruct (c_state c); [left; by left|left; by right|right..]; by intros [?|?]. Qed.

(** *** Operations *)

Lemma slot_routed_key c key : cinv busy c → routed cfg (slot c key) key.
Proof. intros Hc. by apply (slot_routed cfg WRITE_BACK busy c key key). Qed.

(** What a committed call of a client leaves: its flush jobs are held until they are enqueued. *)
Definition committed held (out : Cache K V P * result (list (FlushWriteBack K V))) : Prop :=
  wbi busy (jobs_of out.2 ++ held) out.1 ∧
  Forall (flush_ok cfg WRITE_BACK) (jobs_of out.2).

Lemma wbi_put_commit held key value ttl c : wbi busy held c → committed held (put_commit key value ttl c).
Proof.
  intros Hw. destruct (open_dec c) as [Ho|Ho].
  2: { destruct (not_open_raises c Ho) as [e E]. unfold put_commit. by rewrite (bind_raise _ _ _ _ _ E). }
  unfold put_commit. rewrite (bind_ok _ _ c c tt) by by apply run_open.
  destruct (run_warn c) as [b Eb]. rewrite (bind_ok _ _ _ _ _ Eb).
  set (c1 := set_warned b c). assert (wbi busy held c1) as [Hc1 Hw1].
  { by apply (wbi_field held (set_warned b)). }
  destruct (run_validate ttl c1) as [Ev|(t & Et & Ht & Ev)];
    [rewrite (bind_ok _ _ _ _ _ Ev)|by rewrite (bind_raise _ _ _ _ _ Ev)].
  rewrite (bind_ok _ _ c1 c1 c1) by done. rewrite (bind_ok _ _ c1 c1 _) by apply run_now.
  destruct (slot_lookup _ _ _ c1 key Hc1) as [sh Hsh].
  pose proof (returns_put_locked cfg WRITE_BACK busy c1 (clock_now (c_clock c1)) key value ttl Hc1 c1 Hc1)
    as [Hi Hj].
  rewrite (ci_mode _ _ _ _ Hc1) in *.
  destruct (put_locked WRITE_BACK (cfg_default_ttl (c_config c1))
    (cfg_write_back_retry_count (c_config c1)) (clock_now (c_clock c1)) key value ttl (sh, c_source c1))
    as [[sh' src'] r] eqn:Ep.
  pose proof (run_lock_src _ _ _ c1 key sh _ sh' src' r Hc1 Hsh Ep) as Erun. rewrite Erun in Hi, Hj.
  assert (wb_shard (routed cfg (slot c1 key)) True (held ++ queued c1) (sd_data (c_source c1)) sh) as Hws.
  { eapply wb_shard_opened; [|by apply Hw1]. done. }
  destruct (wb_put _ _ _ _ _ _ _ _ _ _ _ _ _ _ (slot_shard_wf _ _ _ c1 key sh Hc1 Hsh)
    (shard_keeps_new c1 key sh Hc1 Hsh) Hws Ep) as (-> & job & -> & Hjk & Hws').
  rewrite (bind_ok _ _ _ _ _ Erun). cbn [fst snd] in *. split; [|by constructor]. split; [done|].
  apply (wb_inv_change _ sh sh' (c_source c1) held (job :: held) c1 Hsh Hw1).
  - intros _. by eapply wb_shard_opened; [|exact Hws'].
  - intros k Hk. split; [|done]. apply jobs_for_other. intros <-. apply Hk.
    rewrite Hjk. by apply slot_routed_key.
Qed.

(** A call is its commit followed by the enqueueing of its jobs. *)
Lemma wbi_commit {A} held (commit : MC (list (FlushWriteBack K V))) (call : MC A) c :
  (∀ out, commit c = out → match out with
     | (c1, Ok jobs) => (call c).1 = (enqueue_flush_jobs jobs c1).1
     | (c1, Raise _) => (call c).1 = c1
     end) →
  committed held (commit c) → wbi busy held (call c).1.
Proof.
  intros Hcall [Hw Hj]. specialize (Hcall _ eq_refl).
  destruct (commit c) as [c1 [jobs|e]]; rewrite Hcall; [by apply wbi_enqueue_flush|done].
Qed.

Lemma wbi_put held key value ttl : keeps (wbi busy held) (cache_put key value ttl).
Proof.
  intros c Hw. apply (wbi_commit held (put_commit key value ttl)); [|by apply wbi_put_commit].
  intros out <-. rewrite put_commits, run_bind. by destruct (put_commit key value ttl c) as [c1 []].
Qed.

Lemma wbi_delete_commit held key c :
  wbi busy held c → committed held ((p ← delete_commit key; mret p.2) c).
Proof.
  intros Hw. destruct (open_dec c) as [Ho|Ho].
  2: { destruct (not_open_raises c Ho) as [e E]. unfold delete_commit. rewrite run_bind.
    by rewrite (bind_raise _ _ _ _ _ E). }
  destruct Hw as [Hc Hw]. unfold delete_commit. rewrite run_bind. rewrite (bind_ok _ _ c c tt) by by apply run_open.
  rewrite (bind_ok _ _ c c c) by done. destruct (slot_lookup _ _ _ c key Hc) as [sh Hsh].
  pose proof (returns_delete_locked cfg WRITE_BACK busy c key Hc c Hc) as [Hi Hj].
  rewrite (ci_mode _ _ _ _ Hc) in *.
  destruct (delete_locked WRITE_BACK (cfg_write_back_retry_count (c_config c)) key (sh, c_source c))
    as [[sh' src'] r] eqn:Ep.
  pose proof (run_lock_src _ _ _ c key sh _ sh' src' r Hc Hsh Ep) as Erun. rewrite Erun in Hi, Hj.
  assert (wb_shard (routed cfg (slot c key)) True (held ++ queued c) (sd_data (c_source c)) sh) as Hws
    by by eapply wb_shard_opened; [|by apply Hw].
  destruct (wb_delete _ _ _ _ _ _ _ _ _ _ (slot_shard_wf _ _ _ c key sh Hc Hsh) Hws Ep)
    as (-> & existed & job & -> & Hjk & Hws').
  rewrite (bind_ok _ _ _ _ _ Erun). cbn [fst snd] in *. split; [|by constructor]. split; [done|].
  apply (wb_inv_change _ sh sh' (c_source c) held (job :: held) c Hsh Hw).
  - intros _. by eapply wb_shard_opened; [|exact Hws'].
  - intros k Hk. split; [|done]. apply jobs_for_other. intros <-. apply Hk.
    rewrite Hjk. by apply slot_routed_key.
Qed.

Lemma wbi_delete held key : keeps (wbi busy held) (cache_delete key).
Proof.
  intros c Hw. apply (wbi_commit held (p ← delete_commit key; mret p.2)); [|by apply wbi_delete_commit].
  intros out <-. rewrite delete_commits, !run_bind. destruct (delete_commit key c) as [c1 [[existed jobs]|e]]; [|done].
  cbn. rewrite run_bind. by destruct (enqueue_flush_jobs jobs c1) as [c2 [[]|e]].
Qed.

(** The loop of [clear]: the jobs it collects are held until they are enqueued. *)
Lemma wbi_clear_shards held l c :
  (∀ i, i ∈ l → 0 ≤ i < cfg_shard_count cfg) → is_open c → wbi busy held c →
  ∃ c' new, clear_shards l c = (c', Ok new) ∧ Forall (flush_ok cfg WRITE_BACK) new ∧
            wbi busy (new ++ held) c' ∧ is_open c'.
Proof.
  revert held c. induction l as [|i l IH]; intros held c Hl Ho [Hc Hw].
  { exists c, []. by split_conj. }
  pose proof (Hl i (list_elem_of_here _ _)) as Hi.
  cbn [clear_shards]. rewrite (bind_ok _ _ c c c) by done. rewrite (ci_mode _ _ _ _ Hc).
  set (m := clear_locked WRITE_BACK (cfg_write_back_retry_count (c_config c))).
  destruct (run_lock_src_at cfg WRITE_BACK busy i m c Hc Hi) as (sh & Hsh & E).
  pose proof (returns_lock_clear cfg WRITE_BACK busy c i Hc c Hc) as Hk.
  pose proof (ci_shards _ _ _ _ Hc _ _ Hsh) as Hso.
  pose proof (clear_locked_inv WRITE_BACK _ _ _ (cfg_write_back_retry_count (c_config c)) (sh, c_source c) Hso) as Hj.
  assert (wb_shard (routed cfg (Z.to_nat i)) True (held ++ queued c) (sd_data (c_source c)) sh) as Hws
    by by eapply wb_shard_opened; [|by apply Hw].
  destruct (wb_clear _ (cfg_write_back_retry_count (c_config c)) sh (c_source c) _ _ (si_wf _ _ _ _ _ _ Hso) Hws)
    as (sh' & new & Ec & Hws').
  rewrite (ci_mode _ _ _ _ Hc) in Hk. fold m in Hk, Hj, Ec. rewrite Ec in E, Hj. rewrite E in Hk.
  cbn [fst snd] in *. destruct Hj as (_ & _ & Hj). rewrite (bind_ok _ _ _ _ _ E).
  assert (wbi busy (new ++ held) (set_source (c_source c) (with_shard (Z.to_nat i) sh' c))) as Hw1.
  { split; [done|]. apply (wb_inv_change _ sh sh' (c_source c) held (new ++ held) c Hsh Hw).
    - intros _. rewrite <- app_assoc. by eapply wb_shard_opened; [|exact Hws'].
    - intros k Hk'. split; [|done]. rewrite jobs_for_app. unfold jobs_for at 1.
      rewrite filter_all_false; [done|]. intros j Hin Hjk. apply Hk'. rewrite <- Hjk.
      rewrite Forall_forall in Hj. by apply (jh_key _ _ _ _ (Hj j Hin)). }
  destruct (IH (new ++ held) (set_source (c_source c) (with_shard (Z.to_nat i) sh' c))
    (λ j Hj, Hl j (list_elem_of_further _ _ _ Hj)) Ho Hw1)
    as (c2 & new2 & E2 & Hf2 & Hw2 & Ho2).
  rewrite (bind_ok _ _ _ _ _ E2). exists c2, (new ++ new2). split_conj; [done| | |done].
  - apply Forall_app. split; [|done]. eapply Forall_impl; [exact Hj|]. intros job. apply flush_ok_here. lia.
  - eapply wbi_perm; [|exact Hw2]. rewrite app_assoc. by rewrite (Permutation_app_comm new2).
Qed.

Lemma wbi_clear_commit held c : wbi busy held c → committed held (clear_commit c).
Proof.
  intros Hw. destruct (open_dec c) as [Ho|Ho].
  2: { destruct (not_open_raises c Ho) as [e E]. unfold clear_commit. by rewrite (bind_raise _ _ _ _ _ E). }
  unfold clear_commit. rewrite (bind_ok _ _ c c tt) by by apply run_open.
  rewrite (bind_ok _ _ c c c) by done.
  destruct (wbi_clear_shards held (shard_indices c) c) as (c1 & new & E & Hf & Hw1 & _); [|done|done|].
  { intros i Hi. by apply (shard_indices_ok cfg WRITE_BACK busy c); [apply Hw|]. }
  by rewrite E.
Qed.

Lemma wbi_clear held : keeps (wbi busy held) cache_clear.
Proof.
  intros c Hw. apply (wbi_commit held clear_commit); [|by apply wbi_clear_commit].
  intros out <-. rewrite clear_commits, run_bind. by destruct (clear_commit c) as [c1 []].
Qed.

(** *** Flush jobs *)

Lemma wbi_source held j src' c :
  wbi busy (j :: held) c → flush_ok cfg WRITE_BACK j →
  (∀ sh, c_shards c !! Z.to_nat (f_shard_index j) = Some sh → agrees j sh) →
  sd_data src' = sd_data (c_source c) ∨ sd_data src' = applied j (sd_data (c_source c)) →
  wbi busy (j :: held) (set_source src' c).
Proof.
  intros [Hc Hw] (i & Hi & Hj) Hst Hd. split.
  - pose proof (keeps_source_wb cfg WRITE_BACK busy (λ _, (src', Ok tt)) eq_refl c Hc) as Hk. done.
  - rewrite (jh_index _ _ _ _ Hj), Nat2Z.id in Hst.
    destruct (lookup_lt_is_Some_2 (c_shards c) i) as [sh Hsh]; [by rewrite (ci_length _ _ _ _ Hc)|].
    rewrite <- (with_shard_id i sh c Hsh).
    apply (wb_inv_change i sh sh src' (j :: held) (j :: held) c Hsh Hw).
    + destruct Hd as [-> | ->]; [done|]. by apply wb_applied, Hst.
    + intros k Hk. split; [done|]. destruct Hd as [-> | ->]; [done|]. apply applied_other.
      intros <-. by apply Hk, (jh_key _ _ _ _ Hj).
Qed.

(** A job that was just found not to be stale. *)
Lemma fresh_matches held j sh c :
  wbi busy (j :: held) c → flush_ok cfg WRITE_BACK j → c_shards c !! Z.to_nat (f_shard_index j) = Some sh →
  is_stale_write_back (sh_version_marks sh) (sh_tombstones sh) j = false → matches j sh.
Proof.
  intros [Hc Hw] (i & Hi & Hj) Hsh Hst. rewrite (jh_index _ _ _ _ Hj), Nat2Z.id in Hsh.
  eapply (not_stale_matches (routed cfg i)); [|done|by apply (jh_key _ _ _ _ Hj)|by apply Hw].
  by apply (ci_shards _ _ _ _ Hc) in Hsh as [? _].
Qed.

(** What applying a job does to the source. *)
Lemma apply_write_back_cases j (src : SlowDictBackend K V) :
  f_operation j = "put" ∨ f_operation j = "delete" →
  let '(src', r) := apply_write_back j src in
  (∃ e, r = Raise e ∧ sd_data src' = sd_data src) ∨
  (r = Ok tt ∧ sd_data src' = applied j (sd_data src)).
Proof.
  intros [Hop|Hop]; unfold apply_write_back, applied; rewrite Hop; simpl;
    [apply put_value_cases|apply delete_value_cases].
Qed.

(** The source has what the entry had when the job was made. *)
Definition job_settled job c : Prop :=
  f_operation job = "put" → ∀ sh x, c_shards c !! Z.to_nat (f_shard_index job) = Some sh →
    dict_get (sh_backend sh) (f_key job) = Some x → e_version x = f_version job →
    dict_get (sd_data (c_source c)) (f_key job) = Some (e_value x).

Lemma written_settled held j c :
  flush_ok cfg WRITE_BACK j → wbi busy (j :: held) c →
  (f_operation j = "put" → dict_get (sd_data (c_source c)) (f_key j) = Some (f_value j)) → job_settled j c.
Proof.
  intros (i & Hi & Hj) [_ Hw] Hd Hop sh x Hsh Hx Hver. rewrite (Hd Hop). f_equal.
  rewrite (jh_index _ _ _ _ Hj), Nat2Z.id in Hsh.
  apply (wk_value _ _ _ _ _ _ (Hw i sh Hsh _ (jh_key _ _ _ _ Hj)) j x); [|done..].
  cbn [app]. rewrite jobs_for_here by done. apply list_elem_of_here.
Qed.

Lemma wbi_finish held j c :
  flush_ok cfg WRITE_BACK j → wbi busy (j :: held) c → job_settled j c →
  ∃ c', with_lock (f_shard_index j) (λ sh, (flush_finish_locked j sh, true)) c = (c', Ok true) ∧
        wbi busy held c'.
Proof.
  intros (i & Hi & Hj) [Hc Hw] Hd.
  pose proof (keeps_lock cfg WRITE_BACK busy (f_shard_index j) (λ sh, (flush_finish_locked j sh, true))
    (λ x data sh, flush_finish_inv _ _ _ _ _ j sh) c Hc) as Hk.
  destruct (run_lock_at cfg WRITE_BACK busy (f_shard_index j)
    (λ sh, (flush_finish_locked j sh, true)) c Hc) as (sh & Hsh & Hwf & E).
  { rewrite (jh_index _ _ _ _ Hj). lia. }
  rewrite E in *. eexists. split; [done|]. split; [done|]. cbn [fst snd] in *.
  rewrite (jh_index _ _ _ _ Hj), Nat2Z.id in *.
  apply (wb_inv_change i sh _ (c_source c) (j :: held) held c Hsh Hw).
  - intros Hws. apply wb_resolve. destruct (String.eqb_spec (f_operation j) "put") as [Hop|]; [|done].
    apply wb_mark_clean; [|done]. intros x. unfold job_settled in Hd.
    rewrite (jh_index _ _ _ _ Hj), Nat2Z.id in Hd. by apply Hd.
  - intros k Hk'. split; [|done]. symmetry. apply jobs_for_other. intros <-. by apply Hk', (jh_key _ _ _ _ Hj).
Qed.

(** A retry stands for the job it repeats. *)
Lemma wbi_same_job held j j' c :
  f_key j' = f_key j → f_version j' = f_version j → f_operation j' = f_operation j →
  f_value j' = f_value j → wbi busy (j :: held) c → wbi busy (j' :: held) c.
Proof.
  intros Ek Ev Eo Eva [Hc Hw]. split; [done|]. intros i sh Hi k HR. specialize (Hw i sh Hi k HR).
  unfold wb_at in *. cbn [app] in *. destruct (decide (f_key j = k)) as [Hk|Hk].
  - rewrite (jobs_for_here k j') by congruence. rewrite jobs_for_here in Hw by done.
    destruct Hw as [Hcnt Hb Hv Hd]. split; [done|..|done].
    + intros x Ho [-> | Hx]%elem_of_cons; [rewrite Ev; apply (Hb j Ho), list_elem_of_here|].
      apply Hb; [done|by apply list_elem_of_further].
    + intros x e [-> | Hx]%elem_of_cons; [rewrite Ev, Eo, Eva; apply (Hv j e), list_elem_of_here|].
      apply Hv. by apply list_elem_of_further.
  - rewrite (jobs_for_other k j') by congruence. by rewrite jobs_for_other in Hw by done.
Qed.

Lemma wbi_flush_failed held j c :
  flush_ok cfg WRITE_BACK j → wbi busy (j :: held) c → wbi busy held (flush_failed j c).1.
Proof.
  intros Hj Hw. unfold flush_failed. rewrite (bind_ok _ _ c c c) by done.
  assert (∀ c1, wbi busy (j :: held) c1 → wbi busy held ((inc_runtime flush_failures ;;
    with_lock (f_shard_index j) (λ sh, (resolve_pending_locked (f_key j) sh, false))) c1).1) as Hgive.
  { intros c1 Hw1. pose proof (wbi_inc_runtime (j :: held) flush_failures c1 Hw1) as Hw2.
    unfold mbind, M_bind. unfold inc_runtime, modify in *. cbn [fst] in Hw2.
    destruct (wbi_resolve held j _ false Hj Hw2) as (c2 & E2 & Hw3). by rewrite E2. }
  destruct (0 <? f_retries_left j); [|by apply Hgive].
  pose proof (wbi_inc_runtime (j :: held) write_back_retries c Hw) as Hw1.
  rewrite (bind_ok _ _ c (inc_runtime write_back_retries c).1 tt) by done.
  pose proof (wbi_sleep (j :: held) (cfg_write_back_retry_delay (c_config c)) _ Hw1) as Hw2.
  set (c1 := (inc_runtime write_back_retries c).1) in *.
  rewrite (bind_ok _ _ c1 (sleep (cfg_write_back_retry_delay (c_config c)) c1).1 tt) by done.
  set (c2 := (sleep (cfg_write_back_retry_delay (c_config c)) c1).1) in *.
  set (retry := mkFlush _ _ _ _ _ _ _).
  assert (flush_ok cfg WRITE_BACK retry) as Hr.
  { destruct Hj as (i & Hi & Hj). exists i. split; [done|]. by destruct Hj. }
  assert (wbi busy (retry :: held) c2) as Hw3 by by apply (wbi_same_job held j).
  destruct (wbi_enqueue held retry c2 Hr Hw3) as [(c3 & E & Hw4)|(c3 & E & Hw4)];
    rewrite (bind_ok _ _ _ _ _ (attempt_eq _ _ _ _ E)); [done|].
  (* the retry is dropped: the job itself is still the one that is pending *)
  apply Hgive. by apply (wbi_same_job held retry).
Qed.

Lemma wbi_flush_job held j c :
  flush_ok cfg WRITE_BACK j → wbi busy (j :: held) c → wbi busy held (flush_write_back_job j c).1.
Proof.
  intros Hj Hw. pose proof Hj as (i & Hi & Hh). pose proof (wbi_inv _ _ _ Hw) as Hc.
  assert (Z.to_nat (f_shard_index j) = i) as Ei by (rewrite (jh_index _ _ _ _ Hh); lia).
  destruct (run_lock_at cfg WRITE_BACK busy (f_shard_index j) (flush_check_locked j) c Hc)
    as (sh & Hsh & Hwf & E); [rewrite (jh_index _ _ _ _ Hh); lia|].
  unfold flush_write_back_job. rewrite (bind_ok _ _ _ _ _ E). unfold flush_check_locked.
  destruct (is_stale_write_back (sh_version_marks sh) (sh_tombstones sh) j) eqn:Est; cbn [fst snd].
  - (* stale: the pending mark is released *)
    destruct (wbi_resolve held j c true Hj Hw) as (c1 & E1 & Hw1).
    destruct (run_lock_at cfg WRITE_BACK busy (f_shard_index j)
      (λ sh, (resolve_pending_locked (f_key j) sh, true)) c Hc) as (sh1 & Hsh1 & _ & E1');
      [rewrite (jh_index _ _ _ _ Hh); lia|].
    assert (sh1 = sh) as -> by congruence. rewrite E1 in E1'. injection E1' as E1'. subst c1.
    by apply (wbi_inc_runtime held stale_write_back_jobs_skipped).
  - rewrite (with_shard_id _ sh c Hsh). unfold with_source.
    pose proof (apply_write_back_cases j (c_source c) (jh_operation _ _ _ _ Hh)) as Ha.
    unfold mbind at 1, M_bind at 1, attempt at 1.
    destruct (apply_write_back j (c_source c)) as [src' r].
    assert (wbi busy (j :: held) (set_source src' c)) as Hw1.
    { apply wbi_source; [done|done| |].
      - intros sh1 Hsh1. assert (sh1 = sh) as -> by congruence. by eapply matches_agrees, fresh_matches.
      - destruct Ha as [(e & _ & ->)|[_ ->]]; auto. }
    destruct Ha as [(e & -> & _)|[-> Hd]].
    + by apply wbi_flush_failed.
    + destruct (wbi_finish held j (set_source src' c) Hj Hw1) as (c2 & E2 & Hw2).
      * eapply written_settled; [done..|].
        intros Hop. simpl. rewrite Hd. unfold applied. rewrite Hop. simpl. apply dict_get_set_eq.
      * by rewrite E2.
Qed.

(** *** The other operations *)

Lemma wbi_now held : keeps (wbi busy held) now.
Proof. by intros c Hc. Qed.

Lemma wbi_require_not_closed held : keeps (wbi busy held) require_not_closed.
Proof.
  apply keeps_bind; [apply keeps_get|]. intros c. destruct (c_state c); apply keeps_ret || apply keeps_raise.
Qed.

Lemma wbi_require_workers held : keeps (wbi busy held) require_workers.
Proof.
  apply keeps_bind; [apply keeps_get|]. intros c. apply keeps_if; [apply keeps_raise|apply keeps_ret].
Qed.

Lemma wbi_maybe_warn held : keeps (wbi busy held) maybe_warn_cache_not_started.
Proof.
  intros c Hw. destruct (run_warn c) as [b E]. rewrite E. by apply (wbi_field held (set_warned b)).
Qed.

Lemma wbi_validate held ttl : keeps (wbi busy held) (validate_explicit_ttl ttl).
Proof. intros c Hw. by destruct (run_validate ttl c) as [-> | (t & _ & _ & ->)]. Qed.

Lemma wbi_read held i t key touch_entry count :
  keeps (wbi busy held) (with_lock i (read_value_locked t key touch_entry count)).
Proof.
  apply wbi_lock; [intros j data sh; apply read_value_inv|]. intros sh. apply evolves_read.
Qed.

Lemma wbi_inspect held i t key : keeps (wbi busy held) (with_lock i (inspect_locked t key)).
Proof.
  apply wbi_lock; [intros j data sh; apply inspect_inv|]. intros sh. apply evolves_inspect.
Qed.

Lemma wbi_dump_shard held i t : keeps (wbi busy held) (with_lock i (dump_locked t)).
Proof. apply wbi_lock; [intros j data sh; apply dump_inv|]. intros sh. apply evolves_dump. Qed.

Lemma wbi_expire_shard held i : keeps (wbi busy held) (expire_shard i).
Proof.
  apply keeps_bind; [apply wbi_now|]. intros t.
  apply wbi_lock; [intros j data sh; apply expire_shard_inv|]. intros sh. apply evolves_expire_keys.
Qed.

Lemma wbi_restore_lock held i key n :
  keeps (wbi busy held) (with_lock i (λ sh, (restore_locked key n sh, tt))).
Proof. apply wbi_lock; [intros j data sh; apply restore_inv|]. intros sh. apply evolves_restore. Qed.

Lemma wbi_singleflight {A} held i (f : CacheShard K V P → dict K nat) (a : A) :
  keeps (wbi busy held) (with_lock i (λ sh, (set_singleflight (f sh) sh, a))).
Proof.
  apply wbi_lock; [intros j data sh; apply set_singleflight_inv|]. intros sh. by apply evolves_ext.
Qed.

#[local] Hint Resolve wbi_inc_runtime wbi_sleep wbi_now wbi_require_not_closed wbi_require_workers
  wbi_maybe_warn wbi_validate wbi_read wbi_inspect wbi_dump_shard wbi_expire_shard wbi_restore_lock
  wbi_singleflight wbi_put wbi_delete wbi_clear
  keeps_ret keeps_raise keeps_get keeps_attempt keeps_lift : keepsdb.
Ltac wb_tac :=
  repeat first
    [ progress (eauto 3 with keepsdb; try done)
    | apply keeps_bind; [|intros ?]
    | apply keeps_if
    | match goal with |- keeps _ (match ?x with _ => _ end) => destruct x end ].

Lemma wbi_get held key dflt : keeps (wbi busy held) (cache_get key dflt).
Proof. unfold cache_get. wb_tac. Qed.

Lemma wbi_contains held key : keeps (wbi busy held) (cache_contains key).
Proof. unfold cache_contains. wb_tac. Qed.

Lemma wbi_inspect_op held key : keeps (wbi busy held) (cache_inspect key).
Proof. unfold cache_inspect. wb_tac. Qed.

Lemma wbi_restore held key n : keeps (wbi busy held) (restore_entry_metadata key n).
Proof. unfold restore_entry_metadata. wb_tac. Qed.

Lemma wbi_dump held limit : keeps (wbi busy held) (cache_dump limit).
Proof.
  assert (∀ l, keeps (wbi busy held) (dump_shards l)) as Hd.
  { induction l as [|i l IH]; cbn [dump_shards]; wb_tac. }
  unfold cache_dump. wb_tac.
Qed.

Lemma wbi_expire_all held : keeps (wbi busy held) expire_all.
Proof.
  assert (∀ l, keeps (wbi busy held) (expire_shards l)) as Hd.
  { induction l as [|i l IH]; cbn [expire_shards]; wb_tac. }
  unfold expire_all. wb_tac.
Qed.

Lemma wbi_preload held key loader ttl : keeps (wbi busy held) (cache_preload key loader ttl).
Proof.
  unfold cache_preload. do 4 (apply keeps_bind; [eauto with keepsdb|intros _]).
  apply keeps_bind; [eauto with keepsdb|]. intros c. destruct ttl; by apply wbi_enqueue_other.
Qed.

Lemma wbi_request_snapshot held id : keeps (wbi busy held) (request_snapshot id).
Proof.
  unfold request_snapshot. do 2 (apply keeps_bind; [eauto with keepsdb|intros _]).
  by apply wbi_enqueue_other.
Qed.

Lemma queued_ticks (q : CacheJobQueue K V) l :
  omap flush_of (q_items (foldl (λ q i, (queue_put (ExpireShard i) false q).1) q l))
  = omap flush_of (q_items q).
Proof.
  revert q. induction l as [|i l IH]; intros q; simpl; [done|]. rewrite IH.
  destruct (queue_put_cases (ExpireShard i) false q) as [[_ ->]|[_ ->]]; simpl; [done|].
  rewrite omap_app. simpl. by rewrite app_nil_r.
Qed.

Lemma wbi_tick held c :
  wbi busy held c →
  wbi busy held (set_queue (tick_once (Z.of_nat (length (c_shards c))) (c_queue c)) c).
Proof.
  intros [Hc Hw]. split; [by apply inv_tick|]. intros i sh Hi.
  unfold queued, tick_once. cbn [set_queue c_queue]. rewrite queued_ticks. by apply Hw.
Qed.

Lemma wbi_scheduler_tick held : keeps (wbi busy held) scheduler_tick.
Proof.
  apply keeps_bind; [eauto with keepsdb|]. intros _. apply keeps_modify, wbi_tick.
Qed.

Lemma wbi_finish_flight held i key fid f : keeps (wbi busy held) (finish_flight i key fid f).
Proof. apply keeps_bind; [by apply wbi_field|]. intros _. apply wbi_singleflight. Qed.

Lemma wbi_get_or_compute held key loader ttl others :
  keeps (wbi busy held) loader → keeps (wbi busy held) others →
  keeps (wbi busy held) (get_or_compute key loader ttl others).
Proof.
  intros Hl Ho. pose proof (wbi_finish_flight held) as Hff.
  assert (keeps (wbi busy held) (join_flight key)) as Hj.
  { unfold join_flight, new_flight. wb_tac.
    - apply wbi_lock; [by intros j data sh|]. intros sh. by apply evolves_ext.
    - by apply wbi_field. }
  assert (∀ fid, keeps (wbi busy held) (lead_flight key loader ttl fid)) as Hlead.
  { intros fid. unfold lead_flight, fail_flight_locked. wb_tac. }
  unfold get_or_compute, await_flight. wb_tac.
Qed.

Lemma wbi_fail_next held n : keeps (wbi busy held) (with_source (fail_next n)).
Proof.
  intros c [Hc Hw]. split; [by apply inv_fail_next|]. exact Hw.
Qed.

Lemma wbi_start held : keeps (wbi busy held) cache_start.
Proof.
  intros c [Hc Hw]. split; [by apply keeps_start|]. unfold cache_start.
  rewrite (bind_ok _ _ c c c) by done. destruct (c_state c) eqn:Est; [|done..].
  apply (wb_inv_ext held c); [..|by left|done];
    unfold mbind, M_bind, modify; destruct (_ && _ && _), (bool_decide _ && _); done.
Qed.

(** *** Closing *)

Lemma wbi_closed_lock {A} held held' i (f : CacheShard K V P → CacheShard K V P * A) c :
  0 ≤ i < cfg_shard_count cfg → ¬ is_open c → wbi busy held c →
  (∀ j data sh, shard_ok cfg WRITE_BACK j data sh → shard_ok cfg WRITE_BACK j data (f sh).1) →
  (∀ sh, sh_backend (f sh).1 = sh_backend sh) → (∀ x, x ∈ held' → x ∈ held) →
  ∃ sh c', c_shards c !! Z.to_nat i = Some sh ∧
    with_lock i f c = (c', Ok (f sh).2) ∧ c' = with_shard (Z.to_nat i) (f sh).1 c ∧ wbi busy held' c'.
Proof.
  intros Hi Ho [Hc Hw] Hf Hb Hh. pose proof (keeps_lock cfg WRITE_BACK busy i f Hf c Hc) as Hk.
  destruct (run_lock_at cfg WRITE_BACK busy i f c Hc Hi) as (sh & Hsh & _ & E). rewrite E in Hk.
  eexists sh, _. split_conj; [done|exact E|done|]. split; [done|]. intros x y Hx.
  eapply wb_shard_opened; [by intros Hop; destruct Ho|].
  apply (wb_closed_fewer _ (held ++ queued c)).
  { intros j [Hj|Hj]%elem_of_app; apply elem_of_app; auto. }
  rewrite with_shard_lookup in Hx by (by eapply lookup_lt_Some). case_decide as Hxi.
  - subst x. injection Hx as <-. apply (wb_closed_backend _ _ _ sh); [done|].
    eapply wb_shard_opened; [|by apply Hw]. done.
  - eapply wb_shard_opened; [|by apply Hw]. done.
Qed.

(** Consistent and no longer open. *)
Definition cwb held c : Prop := wbi busy held c ∧ ¬ is_open c.

Lemma cwb_fewer held held' c : (∀ x, x ∈ held' → x ∈ held) → cwb held c → cwb held' c.
Proof.
  intros Hh [[Hc Hw] Ho]. split; [|done]. split; [done|]. intros i sh Hi.
  eapply wb_shard_opened; [by intros Hop; destruct Ho|].
  eapply wb_closed_fewer; [|eapply wb_shard_opened; [|by apply Hw]; done].
  intros j [Hj|Hj]%elem_of_app; apply elem_of_app; auto.
Qed.

Lemma cwb_field held f :
  (∀ c, c_config (f c) = c_config c ∧ c_write_mode (f c) = c_write_mode c ∧
        c_source (f c) = c_source c ∧ c_shards (f c) = c_shards c ∧ c_queue (f c) = c_queue c ∧
        c_state (f c) = c_state c) →
  keeps (cwb held) (modify f).
Proof.
  intros Hf c [Hw Ho]. split; [by apply (wbi_field held f)|]. unfold is_open in *. simpl.
  by destruct (Hf c) as (_ & _ & _ & _ & _ & ->).
Qed.

Lemma cwb_inc_runtime held f : keeps (cwb held) (inc_runtime f).
Proof. by apply cwb_field. Qed.

Lemma cwb_enqueue_until_full held i jobs :
  0 ≤ i < cfg_shard_count cfg → Forall (flush_ok cfg WRITE_BACK) jobs →
  ∀ c, cwb (jobs ++ held) c → cwb held (enqueue_until_full i jobs c).1.
Proof.
  intros Hi. induction 1 as [|job jobs Hj Hjs IH]; intros c Hc; cbn [enqueue_until_full]; [done|].
  destruct Hc as [Hw Ho].
  destruct (wbi_enqueue (jobs ++ held) job c Hj Hw) as [(c1 & E & Hw1)|(c1 & E & Hw1)];
    rewrite (bind_ok _ _ _ _ _ (attempt_eq _ _ _ _ E)).
  - apply IH. split; [done|]. unfold is_open in *.
    by destruct (enqueue_job_critical (FlushJob job) c) as [q [E'|E']]; rewrite E in E'; injection E' as ->.
  - assert (cwb held c1) as Hc1.
    { apply (cwb_fewer (job :: jobs ++ held)); [intros x Hx; apply list_elem_of_further, elem_of_app; auto|].
      split; [done|]. unfold is_open in *.
      by destruct (enqueue_job_critical (FlushJob job) c) as [q [E'|E']]; rewrite E in E'; injection E' as ->. }
    apply (keeps_for_each (cwb held)); [|done]. intros x _ c2 [Hw2 Ho2].
    destruct (wbi_closed_lock held held i (λ sh, (resolve_pending_locked (f_key x) sh, tt)) c2 Hi Ho2 Hw2)
      as (sh & c3 & Hsh & E3 & -> & Hw3); [intros j data y; apply resolve_inv|intros y; apply resolve_backend|done|].
    rewrite E3. by split.
Qed.

Lemma collect_backend n sh : sh_backend (collect_flush_jobs n sh).1 = sh_backend sh.
Proof.
  unfold collect_flush_jobs. cbn [fst]. generalize (dirty_put_jobs n sh ++ tombstone_jobs n sh) as l.
  intros l. revert sh. induction l as [|j l IH]; intros sh; simpl; [done|]. by rewrite IH.
Qed.

(** The jobs made for shard [i] can be added to the ones held. *)
Lemma cwb_collected held i sh n c :
  cwb held c → c_shards c !! i = Some sh →
  cwb ((dirty_put_jobs n sh ++ tombstone_jobs n sh) ++ held) c ∧
  Forall (λ j, flush_ok cfg WRITE_BACK j ∧ f_shard_index j = Z.of_nat i)
    (dirty_put_jobs n sh ++ tombstone_jobs n sh).
Proof.
  intros [[Hc Hw] Ho] Hsh. pose proof (ci_shards _ _ _ _ Hc _ _ Hsh) as Hok.
  pose proof (flush_jobs_here _ _ _ _ _ n sh eq_refl Hok) as Hjobs.
  assert ((i < Z.to_nat (cfg_shard_count cfg))%nat) as Hi
    by (rewrite <- (ci_length _ _ _ _ Hc); by eapply lookup_lt_Some).
  split.
  - split; [|done]. split; [done|]. intros x y Hx.
    eapply wb_shard_opened; [by intros Hop; destruct Ho|].
    assert (wb_shard (routed cfg x) False (held ++ queued c) (sd_data (c_source c)) y) as Hwx
      by by eapply wb_shard_opened; [|by apply Hw].
    rewrite <- app_assoc. destruct (decide (x = i)) as [->|Hne].
    + assert (y = sh) as -> by congruence. apply wb_collect; [|done]. by destruct Hok.
    + intros k HR. specialize (Hwx k HR). unfold wb_at in *. rewrite jobs_for_app.
      unfold jobs_for at 1. rewrite filter_all_false; [done|]. intros j Hj Hjk.
      rewrite Forall_forall in Hjobs. pose proof (jh_key _ _ _ _ (Hjobs j Hj)) as Hjr.
      rewrite Hjk in Hjr. unfold routed in *. lia.
  - eapply Forall_impl; [exact Hjobs|]. intros j Hj. split; [by eapply flush_ok_here|].
    apply (jh_index _ _ _ _ Hj).
Qed.

(** [close] collects the jobs of a shard, which it then holds. *)
Lemma cwb_collect held n i c :
  0 ≤ i < cfg_shard_count cfg → cwb held c →
  ∃ c' jobs, with_lock i (collect_flush_jobs n) c = (c', Ok jobs) ∧
    Forall (λ j, flush_ok cfg WRITE_BACK j ∧ f_shard_index j = i) jobs ∧ cwb (jobs ++ held) c'.
Proof.
  intros Hi Hc. pose proof Hc as [Hw Ho].
  destruct (wbi_closed_lock held held i (collect_flush_jobs n) c Hi Ho Hw) as (sh & c1 & Hsh & E & Ec1 & Hw1);
    [intros j data y Hy; by apply collect_inv|intros y; apply collect_backend|done|].
  destruct (cwb_collected held _ sh n c Hc Hsh) as [_ Hjobs]. rewrite Z2Nat.id in Hjobs by lia.
  exists c1, (dirty_put_jobs n sh ++ tombstone_jobs n sh). split_conj; [done|done|].
  (* the registered shard still has the entries of [sh] *)
  assert (cwb held c1) as Hc1 by by split; [|subst c1].
  assert (c_shards c1 !! Z.to_nat i = Some (collect_flush_jobs n sh).1) as Hsh1.
  { subst c1. rewrite with_shard_lookup by (by eapply lookup_lt_Some). by rewrite decide_True. }
  destruct Hc1 as [[Hci Hcw] Hco]. split; [|done]. split; [done|]. intros x y Hx.
  eapply wb_shard_opened; [by intros Hop; destruct Hco|].
  assert (wb_shard (routed cfg x) False (held ++ queued c1) (sd_data (c_source c1)) y) as Hwx
    by by eapply wb_shard_opened; [|by apply Hcw].
  rewrite <- app_assoc. destruct (decide (x = Z.to_nat i)) as [->|Hne].
  - rewrite Hsh1 in Hx. injection Hx as <-.
    apply (wb_closed_backend _ _ _ sh); [apply collect_backend|].
    apply wb_collect; [by apply (ci_shards _ _ _ _ (wbi_inv _ _ _ Hw)) in Hsh as [? _]|].
    eapply wb_closed_backend; [|exact Hwx]. symmetry. apply collect_backend.
  - intros k HR. specialize (Hwx k HR). unfold wb_at in *. rewrite jobs_for_app.
    unfold jobs_for at 1. rewrite filter_all_false; [done|]. intros j Hj Hjk.
    rewrite Forall_forall in Hjobs. destruct (Hjobs j Hj) as [(i' & Hi' & Hj') Hidx].
    pose proof (jh_key _ _ _ _ Hj') as Hjr. rewrite (jh_index _ _ _ _ Hj') in Hidx.
    rewrite Hjk in Hjr. unfold routed in *. lia.
Qed.

Lemma cwb_enqueue_dirty held : keeps (cwb held) enqueue_dirty_write_back_jobs.
Proof.
  intros c0 Hc0. unfold enqueue_dirty_write_back_jobs. rewrite (bind_ok _ _ c0 c0 c0) by done.
  apply (keeps_for_each (cwb held)); [|done]. intros i Hi c Hc.
  apply (shard_indices_ok cfg WRITE_BACK busy c0) in Hi as [Hi _]; [|apply Hc0].
  destruct (cwb_collect held (cfg_write_back_retry_count (c_config c0)) i c Hi Hc) as (c1 & jobs & E & Hj & Hc1).
  rewrite (bind_ok _ _ _ _ _ E). apply cwb_enqueue_until_full; [done| |done].
  eapply Forall_impl; [exact Hj|]. by intros j [? _].
Qed.

(** *** The synchronous flush *)

Lemma wbi_mark_clean held i sh j c :
  cwb (j :: held) c → flush_ok cfg WRITE_BACK j → f_shard_index j = Z.of_nat i →
  c_shards c !! i = Some sh → f_operation j = "put" → job_settled j c →
  cwb (j :: held) (with_shard i (mark_clean j sh) c).
Proof.
  intros [[Hc Hw] Ho] Hj Hidx Hsh Hop Hd. split; [|done]. split.
  - pose proof (keeps_lock cfg WRITE_BACK busy (Z.of_nat i) (λ sh, (mark_clean j sh, tt))
      (λ x data y, mark_clean_inv _ _ _ _ _ j y) c Hc) as Hk.
    destruct (run_lock_at cfg WRITE_BACK busy (Z.of_nat i) (λ sh, (mark_clean j sh, tt)) c Hc)
      as (sh1 & Hsh1 & _ & E); [rewrite <- Hidx; by apply (flush_ok_index cfg WRITE_BACK)|].
    rewrite E in Hk. rewrite Nat2Z.id in *. assert (sh1 = sh) as -> by congruence. done.
  - apply (wb_inv_shard i sh _ (j :: held) c Hsh Hw). apply wb_mark_clean. intros x. apply Hd; [done|].
    by rewrite Hidx, Nat2Z.id.
Qed.

(** A write of a job that is not stale keeps the protocol, whether it was made or not. *)
Lemma sync_source src' i sh j held c :
  cwb (j :: held) c → flush_ok cfg WRITE_BACK j → f_shard_index j = Z.of_nat i →
  c_shards c !! i = Some sh →
  is_stale_write_back (sh_version_marks sh) (sh_tombstones sh) j = false →
  sd_data src' = sd_data (c_source c) ∨ sd_data src' = applied j (sd_data (c_source c)) →
  cwb (j :: held) (set_source src' c).
Proof.
  intros [Hw Ho] Hj Hidx Hsh Hst Hd. split; [|done]. apply wbi_source; [done..| |done].
  intros sh1 Hsh1. eapply matches_agrees, fresh_matches; [done..|]. by rewrite Hidx, Nat2Z.id, Hsh in Hsh1; injection Hsh1 as <-.
Qed.

(** One attempt: it fails and changes nothing that matters, or it writes the job to the source
    and, for a put, cleans the entry. *)
Lemma sync_write_spec i sh j held c :
  cwb (j :: held) c → flush_ok cfg WRITE_BACK j → f_shard_index j = Z.of_nat i →
  c_shards c !! i = Some sh →
  is_stale_write_back (sh_version_marks sh) (sh_tombstones sh) j = false →
  ∃ c' r, (if String.eqb (f_operation j) "put"
           then with_source (put_value (f_key j) (f_value j)) ;;
                with_lock (Z.of_nat i) (λ sh, (mark_clean j sh, tt))
           else with_source (delete_value (f_key j))) c = (c', r) ∧ cwb (j :: held) c' ∧
    c_shards c' = match r with
                  | Ok _ => if String.eqb (f_operation j) "put"
                            then <[i := mark_clean j sh]> (c_shards c) else c_shards c
                  | Raise _ => c_shards c
                  end.
Proof.
  intros Hc Hj Hidx Hsh Hst. pose proof (λ src', sync_source src' i sh j held c Hc Hj Hidx Hsh Hst) as Hsrc.
  destruct Hj as (x & Hx & Hh). destruct (jh_operation _ _ _ _ Hh) as [Hop|Hop];
    rewrite Hop in *; cbn [String.eqb Ascii.eqb Bool.eqb].
  - pose proof (put_value_cases (f_key j) (f_value j) (c_source c)) as Hv.
    destruct (put_value (f_key j) (f_value j) (c_source c)) as [src' r] eqn:Ep.
    assert (with_source (put_value (f_key j) (f_value j)) c = (set_source src' c, r)) as Ew
      by by unfold with_source; rewrite Ep.
    destruct Hv as [(e & -> & Hd)|[-> Hd]].
    { eexists _, _. split; [by apply (bind_raise _ _ _ _ _ Ew)|]. split; [by apply Hsrc; left|done]. }
    assert (cwb (j :: held) (set_source src' c)) as Hc1
      by (apply Hsrc; right; unfold applied; by rewrite Hop).
    destruct (run_lock_at cfg WRITE_BACK busy (Z.of_nat i) (λ sh, (mark_clean j sh, tt))
      (set_source src' c)) as (sh1 & Hsh1 & _ & El); [apply Hc1|..].
    { rewrite <- Hidx. apply (flush_ok_index cfg WRITE_BACK). by exists x. }
    rewrite Nat2Z.id in *. simpl in Hsh1. assert (sh1 = sh) as -> by congruence.
    eexists _, (Ok tt). split; [by rewrite (bind_ok _ _ _ _ _ Ew)|]. split; [|done].
    apply wbi_mark_clean; [done|by exists x|done..|]. eapply written_settled; [by exists x|apply Hc1|].
    intros _. simpl. rewrite Hd. apply dict_get_set_eq.
  - pose proof (delete_value_cases (f_key j) (c_source c)) as Hv. unfold with_source.
    destruct (delete_value (f_key j) (c_source c)) as [src' r] eqn:Ep.
    eexists _, r. split; [done|]. split; [|by destruct r]. apply Hsrc.
    destruct Hv as [(e & -> & Hd)|[-> Hd]]; [by left|right]. unfold applied. by rewrite Hop.
Qed.

(** The pause before the next attempt. *)
Lemma sync_pause_spec (b : bool) held c :
  cwb held c →
  ∃ c', (if b then inc_runtime write_back_retries ;;
                   c ← get_state; sleep (cfg_write_back_retry_delay (c_config c))
         else mret tt) c = (c', Ok tt) ∧ cwb held c' ∧ c_shards c' = c_shards c.
Proof.
  intros Hc. destruct b; [|by exists c].
  pose proof (cwb_inc_runtime held write_back_retries c Hc) as Hc1.
  set (c1 := (inc_runtime write_back_retries c).1) in *. eexists. split; [reflexivity|]. split; [|done].
  by apply (cwb_field held (λ c, set_clock (clock_sleep (c_clock c)
    (cfg_write_back_retry_delay (c_config c1))) c)).
Qed.

(** All attempts: the job is written in one of them, or it is given up. *)
Lemma sync_attempts_spec n i sh j held c :
  cwb (j :: held) c → flush_ok cfg WRITE_BACK j → f_shard_index j = Z.of_nat i →
  c_shards c !! i = Some sh →
  is_stale_write_back (sh_version_marks sh) (sh_tombstones sh) j = false →
  ∃ c' s, sync_attempts n (Z.of_nat i) j c = (c', Ok s) ∧ cwb (j :: held) c' ∧
    c_shards c' = if s && String.eqb (f_operation j) "put"
                  then <[i := mark_clean j sh]> (c_shards c) else c_shards c.
Proof.
  revert c. induction n as [|n IH]; intros c Hc Hj Hidx Hsh Hst; [by exists c, false|].
  cbn [sync_attempts].
  destruct (sync_write_spec i sh j held c Hc Hj Hidx Hsh Hst) as (c1 & r & E1 & Hc1 & Hs1).
  rewrite (bind_ok _ _ _ _ _ (attempt_eq _ _ _ _ E1)). destruct r as [u|e]; [by exists c1, true|].
  destruct (sync_pause_spec (0 <? n)%nat _ c1 Hc1) as (c2 & E2 & Hc2 & Hs2).
  rewrite (bind_ok _ _ _ _ _ E2). rewrite <- Hs1, <- Hs2 in *. by apply IH.
Qed.

(** Every dirty entry of shard [i] is the subject of one of the jobs. *)
Definition dirty_covered (i : nat) jobs c : Prop :=
  ∀ sh k x, c_shards c !! i = Some sh → dict_get (sh_backend sh) k = Some x → e_dirty x = true →
    ∃ j, j ∈ jobs ∧ f_operation j = "put" ∧ f_key j = k ∧ f_version j = e_version x.

Lemma mark_clean_dirty j sh k x :
  dict_get (sh_backend (mark_clean j sh)) k = Some x → e_dirty x = true →
  dict_get (sh_backend sh) k = Some x ∧ (f_key j = k → e_version x ≠ f_version j).
Proof.
  unfold mark_clean, get_entry. destruct (dict_get (sh_backend sh) (f_key j)) as [y|] eqn:E.
  - destruct (Z.eqb_spec (e_version y) (f_version j)) as [Hv|Hv]; simpl.
    + rewrite update_entry_get. case_decide as Hk; [|by split].
      subst k. rewrite E. simpl. by intros [= <-].
    + intros Hx Hd. split; [done|]. intros <-. congruence.
  - intros Hx Hd. split; [done|]. intros <-. congruence.
Qed.

Lemma clear_pending_backend key sh : sh_backend (clear_pending_flushes_locked key sh) = sh_backend sh.
Proof. apply (prune_fields key (set_pending (dict_pop (sh_pending_flushes sh) key) sh)). Qed.

(** A put job of the stored version is not stale. *)
Lemma stored_version_not_stale sh (j : FlushWriteBack K V) x :
  shard_wf sh → dict_get (sh_backend sh) (f_key j) = Some x → f_version j = e_version x →
  f_operation j = "put" → is_stale_write_back (sh_version_marks sh) (sh_tombstones sh) j = false.
Proof.
  intros Hwf Hx Hver Hop. pose proof (sc_keys _ (sw_core _ Hwf) (f_key j)) as Hkk.
  pose proof (ko_entry _ _ _ _ Hkk x Hx) as Hm.
  assert (dict_get (sh_tombstones sh) (f_key j) = None) as Ht.
  { destruct (dict_get (sh_tombstones sh) (f_key j)) as [v|] eqn:Et; [|done].
    destruct (ko_tomb _ _ _ _ Hkk v eq_refl) as (_ & He & _). congruence. }
  unfold is_stale_write_back, dict_get_default. rewrite Hm, Ht, Hop, Hver. simpl. by rewrite Z.eqb_refl.
Qed.

(** Whoever remains dirty after job [j] was written or found stale is covered by the others. *)
Lemma covered_after i j jobs c c' sh sh' :
  c_shards c !! i = Some sh → c_shards c' !! i = Some sh' →
  (∀ k x, dict_get (sh_backend sh') k = Some x → e_dirty x = true →
     dict_get (sh_backend sh) k = Some x ∧
     ¬ (f_operation j = "put" ∧ f_key j = k ∧ f_version j = e_version x)) →
  dirty_covered i (j :: jobs) c → dirty_covered i jobs c'.
Proof.
  intros Hsh Hsh' Hd Hcov sh2 k x Hsh2 Hx Hdirty. assert (sh2 = sh') as -> by congruence.
  destruct (Hd k x Hx Hdirty) as [Hx' Hne].
  destruct (Hcov sh k x Hsh Hx' Hdirty) as (j' & [-> |Hin]%elem_of_cons & Hj'); [by destruct Hne|].
  by exists j'.
Qed.

(** The end of a job: a failure is counted and the pending counters are dropped. *)
Lemma sync_job_end i j jobs held c c2 sh s :
  0 ≤ Z.of_nat i < cfg_shard_count cfg → c_shards c !! i = Some sh → cwb (j :: jobs ++ held) c2 →
  c_shards c2 = (if s && String.eqb (f_operation j) "put"
                 then <[i := mark_clean j sh]> (c_shards c) else c_shards c) →
  ∃ c' failed,
    ((if s : bool then mret tt else inc_runtime flush_failures) ;;
     with_lock (Z.of_nat i) (λ sh, (clear_pending_flushes_locked (f_key j) sh, tt)) ;;
     mret (negb s)) c2 = (c', Ok failed) ∧ cwb (jobs ++ held) c' ∧
    (failed = false → dirty_covered i (j :: jobs) c → dirty_covered i jobs c') ∧
    (∀ x, x ≠ i → c_shards c' !! x = c_shards c !! x).
Proof.
  intros Hi Hsh Hc2 Hs2.
  assert (∃ c3, (if s then mret tt else inc_runtime flush_failures) c2 = (c3, Ok tt) ∧
    cwb (j :: jobs ++ held) c3 ∧ c_shards c3 = c_shards c2) as (c3 & E3 & [Hw3 Ho3] & Hs3).
  { destruct s; [by exists c2|]. eexists. split; [done|]. split; [|done].
    by apply (cwb_inc_runtime _ flush_failures c2). }
  rewrite (bind_ok _ _ _ _ _ E3).
  destruct (wbi_closed_lock (j :: jobs ++ held) (jobs ++ held) (Z.of_nat i)
    (λ sh, (clear_pending_flushes_locked (f_key j) sh, tt)) c3 Hi Ho3 Hw3)
    as (sh3 & c4 & Hsh3 & E4 & Ec4 & Hw4);
    [intros x data y; apply clear_pending_inv|intros y; apply clear_pending_backend
    |intros x; apply list_elem_of_further|].
  rewrite (bind_ok _ _ _ _ _ E4). exists c4, (negb s). split; [done|].
  split; [by split; [|subst c4]|]. rewrite Nat2Z.id in *. rewrite Hs2 in Hs3.
  rewrite Hs3 in Hsh3. subst c4. split.
  - intros Hneg. assert (s = true) as -> by by destruct s. cbn [andb] in Hsh3.
    eapply (covered_after i j jobs c _ sh); [done| |].
    { simpl. rewrite Hs3. cbn [andb]. apply list_lookup_insert_eq.
      destruct (String.eqb _ _); rewrite ?length_insert; by eapply lookup_lt_Some. }
    intros k x Hx Hd. cbn [fst] in Hx. rewrite clear_pending_backend in Hx.
    destruct (String.eqb_spec (f_operation j) "put") as [Hop|Hop].
    + rewrite list_lookup_insert_eq in Hsh3 by (by eapply lookup_lt_Some). injection Hsh3 as <-.
      destruct (mark_clean_dirty j sh k x Hx Hd) as [Hx' Hne]. split; [done|].
      intros (_ & Hk & Hver). by destruct (Hne Hk).
    + assert (sh3 = sh) as -> by congruence. split; [done|]. by intros (? & _).
  - intros x Hx. simpl. rewrite list_lookup_insert_ne by done. rewrite Hs3.
    destruct (_ && _); [by rewrite list_lookup_insert_ne|done].
Qed.

Lemma sync_job_spec i j jobs held c :
  cwb (j :: jobs ++ held) c → flush_ok cfg WRITE_BACK j → f_shard_index j = Z.of_nat i →
  ∃ c' failed, sync_flush_job (Z.of_nat i) j c = (c', Ok failed) ∧ cwb (jobs ++ held) c' ∧
    (failed = false → dirty_covered i (j :: jobs) c → dirty_covered i jobs c') ∧
    (∀ x, x ≠ i → c_shards c' !! x = c_shards c !! x).
Proof.
  intros Hc Hj Hidx. pose proof Hc as [Hw Ho].
  assert (0 ≤ Z.of_nat i < cfg_shard_count cfg) as Hi by (rewrite <- Hidx; by apply (flush_ok_index cfg WRITE_BACK)).
  set (f := λ sh : CacheShard K V P, if is_stale_write_back (sh_version_marks sh) (sh_tombstones sh) j
    then (clear_pending_flushes_locked (f_key j) sh, true) else (sh, false)).
  destruct (wbi_closed_lock (j :: jobs ++ held) (j :: jobs ++ held) (Z.of_nat i) f c Hi Ho Hw)
    as (sh & c1 & Hsh & E & Ec1 & Hw1).
  { intros x data y Hy. unfold f. destruct (is_stale_write_back _ _ _); [by apply clear_pending_inv|done]. }
  { intros y. unfold f. destruct (is_stale_write_back _ _ _); [apply clear_pending_backend|done]. }
  { done. }
  rewrite Nat2Z.id in *. unfold sync_flush_job. rewrite (bind_ok _ _ _ _ _ E). unfold f in *.
  assert (cwb (j :: jobs ++ held) c1) as Hc1 by by split; [|subst c1].
  pose proof (ci_shards _ _ _ _ (wbi_inv _ _ _ Hw) _ _ Hsh) as [Hwf _].
  destruct (is_stale_write_back (sh_version_marks sh) (sh_tombstones sh) j) eqn:Est; cbn [fst snd] in *.
  - pose proof (cwb_inc_runtime _ stale_write_back_jobs_skipped c1 Hc1) as Hc2.
    eexists _, false. split; [done|].
    split; [eapply cwb_fewer; [|exact Hc2]; intros x; apply list_elem_of_further|]. subst c1. split.
    + intros _. eapply (covered_after i j jobs c _ sh); [done|by apply list_lookup_insert_eq, lookup_lt_is_Some|].
      intros k x Hx _. cbn [fst] in Hx. rewrite clear_pending_backend in Hx. split; [done|].
      intros (Hop & <- & Hver). by rewrite (stored_version_not_stale sh j x) in Est.
    + intros x Hx. simpl. by rewrite list_lookup_insert_ne.
  - rewrite (with_shard_id i sh c Hsh) in Ec1. subst c1.
    destruct (sync_attempts_spec (Z.to_nat (f_retries_left j + 1)) i sh j (jobs ++ held) c Hc Hj Hidx Hsh Est)
      as (c2 & s & E2 & Hc2 & Hs2).
    rewrite (bind_ok _ _ _ _ _ E2). by apply (sync_job_end i j jobs held c c2 sh s).
Qed.

(** No dirty entry. *)
Definition clean_shard sh : Prop :=
  ∀ k x, dict_get (sh_backend sh) k = Some x → e_dirty x = false.

Lemma sync_shard_spec i jobs held c :
  cwb (jobs ++ held) c →
  Forall (λ j, flush_ok cfg WRITE_BACK j ∧ f_shard_index j = Z.of_nat i) jobs →
  ∃ c' failed, for_any jobs (sync_flush_job (Z.of_nat i)) c = (c', Ok failed) ∧ cwb held c' ∧
    (failed = false → dirty_covered i jobs c → dirty_covered i [] c') ∧
    (∀ x, x ≠ i → c_shards c' !! x = c_shards c !! x).
Proof.
  intros Hc Hj. revert c Hc. induction Hj as [|j jobs [Hj Hidx] _ IH]; intros c Hc; [by exists c, false|].
  cbn [for_any].
  destruct (sync_job_spec i j jobs held c Hc Hj Hidx) as (c1 & b & E & Hc1 & Hd1 & Hx1).
  rewrite (bind_ok _ _ _ _ _ E). destruct (IH c1 Hc1) as (c2 & b2 & E2 & Hc2 & Hd2 & Hx2).
  rewrite (bind_ok _ _ _ _ _ E2). exists c2, (b || b2). split_conj; [done|done| |].
  - intros [-> ->]%orb_false_iff Hcov. auto.
  - intros x Hx. by rewrite Hx2, Hx1.
Qed.

Lemma collected_covers i sh n c :
  cinv busy c → c_shards c !! i = Some sh →
  dirty_covered i (dirty_put_jobs n sh ++ tombstone_jobs n sh) c.
Proof.
  intros Hc Hsh sh' k x Hsh' Hx Hd. assert (sh' = sh) as -> by congruence.
  apply (ci_shards _ _ _ _ Hc) in Hsh as [Hwf _]. destruct (sc_backend _ (sw_core _ Hwf)) as [Hdw Hkey].
  eexists. split.
  - apply elem_of_app. left. apply list_elem_of_fmap_2, list_elem_of_filter. split; [exact Hd|].
    apply dict_values_elem; [done|]. eauto.
  - simpl. by rewrite (Hkey _ _ Hx).
Qed.

Lemma sync_shards_spec n l c :
  cwb [] c → NoDup l → (∀ i, i ∈ l → 0 ≤ i < cfg_shard_count cfg) →
  ∃ c' failed,
    for_any l (λ i,
      jobs ← with_lock i (λ sh, (sh, dirty_put_jobs n sh ++ tombstone_jobs n sh));
      for_any jobs (sync_flush_job i)) c = (c', Ok failed) ∧ cwb [] c' ∧
    (failed = false → ∀ i sh, Z.of_nat i ∈ l → c_shards c' !! i = Some sh → clean_shard sh) ∧
    (∀ x, Z.of_nat x ∉ l → c_shards c' !! x = c_shards c !! x).
Proof.
  revert c. induction l as [|i l IH]; intros c Hc Hnd Hl.
  { exists c, false. split_conj; [done..| |done]. intros _ i sh Hi. by apply not_elem_of_nil in Hi. }
  apply NoDup_cons in Hnd as [Hil Hnd]. pose proof (Hl i (list_elem_of_here _ _)) as Hi. cbn [for_any].
  destruct (run_lock_at cfg WRITE_BACK busy i
    (λ sh, (sh, dirty_put_jobs n sh ++ tombstone_jobs n sh)) c (wbi_inv _ _ _ (proj1 Hc)) Hi)
    as (sh & Hsh & _ & E). cbn [fst snd] in E. rewrite (with_shard_id _ sh c Hsh) in E.
  destruct (cwb_collected [] (Z.to_nat i) sh n c Hc Hsh) as [Hcj Hjobs].
  destruct (sync_shard_spec (Z.to_nat i) _ [] c Hcj Hjobs) as (c1 & b & E1 & Hc1 & Hd1 & Hx1).
  rewrite Z2Nat.id in * by lia.
  rewrite (bind_ok _ _ c c1 b) by by rewrite (bind_ok _ _ _ _ _ E).
  destruct (IH c1 Hc1 Hnd) as (c2 & b2 & E2 & Hc2 & Hd2 & Hx2);
    [intros x Hx; by apply Hl, list_elem_of_further|].
  rewrite (bind_ok _ _ _ _ _ E2). exists c2, (b || b2). split_conj; [done|done| |].
  - intros [-> ->]%orb_false_iff x sh2 [Hxi|Hxl]%elem_of_cons Hsh2; [|by eapply Hd2].
    rewrite Hx2 in Hsh2 by by rewrite Hxi. assert (x = Z.to_nat i) as -> by lia.
    pose proof (Hd1 eq_refl (collected_covers _ sh n c (wbi_inv _ _ _ (proj1 Hc)) Hsh)) as Hcov.
    intros k y Hy. destruct (e_dirty y) eqn:Hdy; [|done].
    destruct (Hcov sh2 k y Hsh2 Hy Hdy) as (j & Hj & _). by apply not_elem_of_nil in Hj.
  - intros x [Hxi Hxl]%not_elem_of_cons. rewrite Hx2 by done. apply Hx1. lia.
Qed.

(** *** A closed cache stays clean *)

Section closed.
Context (strict : Prop).

(** The cache is not open and, when [strict], has no dirty entry. *)
Definition closed_clean c : Prop :=
  ¬ is_open c ∧ (strict → ∀ i sh, c_shards c !! i = Some sh → clean_shard sh).

Lemma clean_lock_src {A} i (m : M (CacheShard K V P * SlowDictBackend K V) A) :
  (∀ sh src, clean_shard sh → clean_shard (m (sh, src)).1.1) → keeps closed_clean (with_lock_src i m).
Proof.
  intros Hm c [Ho Hc]. unfold with_lock_src. set (j := shard_slot _ _).
  destruct (c_shards c !! j) as [sh|] eqn:E; [|done]. specialize (Hm sh (c_source c)).
  destruct (m (sh, c_source c)) as [[sh' src'] r]. split; [done|]. intros Hs x y. simpl.
  destruct (decide (x = j)) as [->|Hne].
  - rewrite list_lookup_insert_eq by (by eapply lookup_lt_Some). intros [= <-]. by apply Hm, (Hc Hs j).
  - rewrite list_lookup_insert_ne by done. by apply Hc.
Qed.

Lemma clean_lock {A} i (f : CacheShard K V P → CacheShard K V P * A) :
  (∀ sh, clean_shard sh → clean_shard (f sh).1) → keeps closed_clean (with_lock i f).
Proof. intros Hf. apply clean_lock_src. intros sh src Hs. specialize (Hf sh Hs). by destruct (f sh). Qed.

Lemma clean_field f :
  (∀ c, c_shards (f c) = c_shards c ∧ c_state (f c) = c_state c) → keeps closed_clean (modify f).
Proof.
  intros Hf c [Ho Hc]. destruct (Hf c) as [E1 E2]. split.
  - unfold is_open in *. simpl. by rewrite E2.
  - simpl. rewrite E1. done.
Qed.

Lemma clean_evolves sh sh' : shard_evolves sh sh' → clean_shard sh → clean_shard sh'.
Proof. intros He Hc k x' Hx'. destruct (kv_entry _ _ _ _ _ _ (He k) x' Hx') as (x & Hx & _ & _ & ->). by eapply Hc. Qed.

Lemma clean_backend sh sh' : sh_backend sh' = sh_backend sh → clean_shard sh → clean_shard sh'.
Proof. intros Hb Hc k x. rewrite Hb. apply Hc. Qed.

Lemma clean_resolve {A} i key (a : A) :
  keeps closed_clean (with_lock i (λ sh, (resolve_pending_locked key sh, a))).
Proof. apply clean_lock. intros sh. apply clean_backend, resolve_backend. Qed.

Lemma clean_inc_runtime f : keeps closed_clean (inc_runtime f).
Proof. by apply clean_field. Qed.

Lemma clean_enqueue (job : Job K V) critical : keeps closed_clean (enqueue_job job critical).
Proof.
  apply keeps_bind; [|intros ok; repeat apply keeps_if; apply keeps_ret || apply keeps_raise].
  intros c Hc. by destruct (queue_put job critical (c_queue c)).
Qed.

Lemma clean_source {A} (m : M (SlowDictBackend K V) A) : keeps closed_clean (with_source m).
Proof. intros c Hc. unfold with_source. by destruct (m (c_source c)). Qed.

Lemma clean_with_queue {A} (m : M (CacheJobQueue K V) A) : keeps closed_clean (with_queue m).
Proof. intros c Hc. unfold with_queue. by destruct (m (c_queue c)). Qed.

Lemma clean_flush_job j : keeps closed_clean (flush_write_back_job j).
Proof.
  assert (∀ i key, keeps closed_clean (with_lock i (λ sh, (resolve_pending_locked key sh, false)))) as Hr
    by (intros; apply clean_resolve).
  apply keeps_bind.
  { apply clean_lock. intros sh Hs. unfold flush_check_locked.
    destruct (is_stale_write_back _ _ _); [|done]. eapply clean_backend; [apply resolve_backend|done]. }
  intros stale. apply keeps_if; [apply keeps_bind; [apply clean_inc_runtime|intros _; apply keeps_ret]|].
  apply keeps_bind; [apply keeps_attempt, clean_source|]. intros [u|e].
  - apply clean_lock. intros sh Hs. cbn [fst]. eapply clean_backend; [apply resolve_backend|].
    destruct (String.eqb _ _); [|done]. intros k x Hx. destruct (e_dirty x) eqn:Hd; [|done].
    destruct (mark_clean_dirty j sh k x Hx Hd) as [Hx' _]. rewrite (Hs k x Hx') in Hd. done.
  - unfold flush_failed. apply keeps_bind; [apply keeps_get|]. intros c.
    assert (keeps closed_clean (inc_runtime flush_failures ;;
      with_lock (f_shard_index j) (λ sh, (resolve_pending_locked (f_key j) sh, false)))) as Hgive
      by (apply keeps_bind; [apply clean_inc_runtime|intros _; apply Hr]).
    apply keeps_if; [|done]. apply keeps_bind; [apply clean_inc_runtime|]. intros _.
    apply keeps_bind; [by apply clean_field|]. intros _.
    apply keeps_bind; [apply keeps_attempt, clean_enqueue|].
    intros [ok|e']; [apply keeps_ret|]. destruct e'; try apply keeps_raise. done.
Qed.

Lemma clean_put key value ttl : keeps closed_clean (cache_put key value ttl).
Proof.
  intros c Hc. destruct (not_open_raises c (proj1 Hc)) as [e E]. unfold cache_put.
  by rewrite (bind_raise _ _ _ _ _ E).
Qed.

Lemma clean_handle_job (job : Job K V) : keeps closed_clean (handle_job job).
Proof.
  destruct job as [i|j|i key loader ttl sup|id|r]; simpl.
  - apply keeps_bind; [|intros _; apply clean_inc_runtime].
    apply keeps_bind; [by intros c Hc|]. intros t. apply clean_lock. intros sh.
    apply clean_evolves, evolves_expire_keys.
  - apply keeps_bind; [apply clean_flush_job|]. intros b. apply clean_inc_runtime.
  - apply keeps_bind; [apply keeps_lift|]. intros v.
    apply keeps_bind; [apply clean_put|]. intros _. apply clean_inc_runtime.
  - apply keeps_bind; [by apply clean_field|]. intros _. apply clean_inc_runtime.
  - apply clean_inc_runtime.
Qed.

Lemma clean_worker_step : keeps closed_clean worker_step.
Proof.
  apply keeps_bind; [apply keeps_get|]. intros c.
  destruct (queue_get (c_queue c)) as [[job q]|]; [|apply keeps_ret].
  apply keeps_bind; [by apply clean_field|]. intros _.
  assert (keeps closed_clean (r ← attempt (handle_job job);
    match r with Ok _ => mret tt | Raise _ => inc_runtime worker_jobs_failed end ;;
    with_queue queue_task_done)) as Hrun.
  { apply keeps_bind; [apply keeps_attempt, clean_handle_job|]. intros r.
    apply keeps_bind; [destruct r; [apply keeps_ret|apply clean_inc_runtime]|].
    intros _. apply clean_with_queue. }
  destruct job as [| |? ? [] ? ?| |]; try done; destruct (c_state c); try done;
    try apply keeps_ret; apply clean_with_queue.
Qed.

Lemma clean_worker_steps n : keeps closed_clean (worker_steps n).
Proof.
  induction n as [|n IH]; simpl; [apply keeps_ret|]. apply keeps_bind; [apply clean_worker_step|]. by intros _.
Qed.

Lemma clean_pool_stop env : keeps closed_clean (pool_stop env).
Proof.
  apply keeps_bind; [apply keeps_get|]. intros c.
  apply keeps_bind; [|intros _; apply keeps_bind; [apply clean_with_queue|intros n; apply keeps_ret]].
  apply keeps_if; [|apply keeps_ret].
  apply keeps_bind; [by apply clean_field|]. intros _.
  apply keeps_bind; [apply keeps_for_each; intros i _; by apply clean_field|]. intros _.
  apply keeps_bind; [apply clean_worker_steps|]. intros _. by apply clean_field.
Qed.
End closed.
End ops.

(** *** Workers *)

Lemma wbi_less_busy b b' held c : b' ≤ b → wbi b held c → wbi b' held c.
Proof. intros Hb [Hc Hw]. split; [by eapply inv_less_busy|done]. Qed.

Lemma wbi_queue_get b held c (job : Job K V) q :
  wbi b held c → queue_get (c_queue c) = Some (job, q) →
  job_ok cfg WRITE_BACK job ∧ wbi (b + 1) (option_list (flush_of job) ++ held) (set_queue q c).
Proof.
  intros [Hc Hw] E. destruct (inv_queue_get cfg WRITE_BACK b c job q Hc E) as [Hj Hq].
  split; [done|]. split; [done|]. intros i sh Hi. eapply wb_shard_perm; [|by apply Hw].
  unfold queued. unfold queue_get in E. destruct (q_items (c_queue c)) as [|x items] eqn:Eq; [done|].
  injection E as -> <-. cbn [set_queue c_queue q_items omap list_omap].
  destruct (flush_of job) as [j|]; simpl; [|done]. by rewrite <- Permutation_middle.
Qed.

Lemma wbi_task_done b held c :
  0 ≤ b → wbi (b + 1) held c → wbi b held (with_queue queue_task_done c).1.
Proof.
  intros Hb [Hc Hw]. destruct (keeps_task_done cfg WRITE_BACK b c Hb Hc) as [Hk _]. split; [done|].
  unfold with_queue, queue_task_done, mbind, M_bind, get_state. destruct (_ <=? 0); [|done]. exact Hw.
Qed.

Lemma wbi_handle_job b held (job : Job K V) c :
  job_ok cfg WRITE_BACK job → wbi b (option_list (flush_of job) ++ held) c →
  wbi b held (handle_job job c).1.
Proof.
  intros Hj Hw. destruct job as [i|j|i key loader ttl sup|id|r]; simpl in *.
  - unfold mbind, M_bind. pose proof (wbi_expire_shard b held i c Hw) as H1.
    destruct (expire_shard i c) as [c1 [n|e]]; [|done]. by apply (wbi_inc_runtime b held worker_jobs_completed).
  - unfold mbind, M_bind. pose proof (wbi_flush_job b held j c Hj Hw) as H1.
    destruct (flush_write_back_job j c) as [c1 [done_|e]]; [|done]. by apply wbi_inc_runtime.
  - destruct loader as [v|e]; simpl; [|done]. unfold mbind, M_bind, lift.
    set (t := if sup then _ else _). pose proof (wbi_put b held key v t c Hw) as H1.
    destruct (cache_put key v t c) as [c1 [[]|e]]; [|done]. by apply wbi_inc_runtime.
  - by apply (wbi_field b held (λ c, set_runtime (runtime_inc worker_jobs_completed (c_runtime c))
      (set_last_snapshot (Some (cache_stats c)) c))).
  - by apply wbi_inc_runtime.
Qed.

Lemma wbi_worker_step b held : 0 ≤ b → keeps (wbi b held) worker_step.
Proof.
  intros Hb c Hw. unfold worker_step. rewrite (bind_ok _ _ c c c) by done.
  destruct (queue_get (c_queue c)) as [[job q]|] eqn:E; [|done].
  destruct (wbi_queue_get b held c job q Hw E) as [Hj Hq].
  rewrite (bind_ok _ _ c (set_queue q c) tt) by done. set (c1 := set_queue q c) in *.
  assert (wbi b held ((r ← attempt (handle_job job);
    match r with Ok _ => mret tt | Raise _ => inc_runtime worker_jobs_failed end ;;
    with_queue queue_task_done) c1).1) as Hrun.
  { pose proof (wbi_handle_job (b + 1) held job c1 Hj Hq) as Hw2.
    destruct (handle_job job c1) as [c2 r] eqn:E2. rewrite (bind_ok _ _ _ _ _ (attempt_eq _ _ _ _ E2)).
    destruct r as [u|e].
    - rewrite (bind_ok _ _ c2 c2 tt) by done. by apply wbi_task_done.
    - rewrite (bind_ok _ _ c2 (inc_runtime worker_jobs_failed c2).1 tt) by done.
      apply wbi_task_done; [done|]. by apply (wbi_inc_runtime (b + 1) held worker_jobs_failed). }
  destruct job as [| |? ? [] ? ?| |]; try done; destruct (c_state c); try done;
    try (by apply wbi_task_done); by eapply wbi_less_busy; [|exact Hq]; lia.
Qed.

Lemma wbi_worker_steps b held n : 0 ≤ b → keeps (wbi b held) (worker_steps n).
Proof.
  intros Hb. induction n as [|n IH]; simpl; [apply keeps_ret|].
  apply keeps_bind; [by apply wbi_worker_step|]. by intros _.
Qed.

(** *** Shutdown *)

Section shutdown.
Context (busy : Z) (Hbusy : 0 ≤ busy).

Lemma cwb_worker_steps n : keeps (cwb busy []) (worker_steps n).
Proof.
  intros c [Hw Ho]. split; [by apply wbi_worker_steps|].
  by apply (clean_worker_steps False n c).
Qed.

Lemma cwb_queue held c q :
  cache_inv cfg WRITE_BACK busy (set_queue q c) →
  (∀ j, j ∈ omap flush_of (q_items q) → j ∈ queued c) → cwb busy held c → cwb busy held (set_queue q c).
Proof.
  intros Hq Hj [[Hc Hw] Ho]. split; [|done]. split; [done|]. intros i sh Hi.
  eapply wb_shard_opened; [by intros Hop; destruct Ho|].
  eapply wb_closed_fewer; [|eapply wb_shard_opened; [|by apply Hw]; done].
  intros j [?|?]%elem_of_app; apply elem_of_app; auto.
Qed.

(** A stop sentinel is offered to the queue; in the end the queue is emptied. *)
Lemma cwb_offer held :
  keeps (cwb busy held) (modify (λ c, set_queue (queue_offer (StopWorker "shutdown") (c_queue c)).1 c)).
Proof.
  intros c1 Hc1. apply cwb_queue; [| |done].
  - by apply (keeps_offer cfg WRITE_BACK busy (StopWorker "shutdown") I c1), Hc1.
  - intros j. unfold queue_offer, queued. destruct (queue_full _); [done|].
    cbn [fst]. rewrite queued_push. by rewrite app_nil_r.
Qed.
Lemma cwb_drain held : keeps (cwb busy held) (with_queue queue_drain).
Proof.
  intros c1 Hc1. pose proof (keeps_drain cfg WRITE_BACK busy Hbusy c1 (wbi_inv _ _ _ (proj1 Hc1))) as Hk.
  unfold with_queue, queue_drain in *. rewrite (bind_ok _ _ _ _ _ (eq_refl : get_state (c_queue c1) = _)) in *.
  rewrite drain_loop_spec in * by (apply (ci_queue _ _ _ _ (wbi_inv _ _ _ (proj1 Hc1))) || lia).
  apply cwb_queue; [done| |done]. intros j Hj. by apply not_elem_of_nil in Hj.
Qed.

Lemma cwb_pool_stop env : keeps (cwb busy []) (pool_stop env).
Proof.
  unfold pool_stop. apply keeps_bind; [apply keeps_get|]. intros c.
  apply keeps_bind; [|intros _; apply keeps_bind; [apply cwb_drain|intros n; apply keeps_ret]].
  apply keeps_if; [|apply keeps_ret].
  apply keeps_bind; [by apply cwb_field|]. intros _.
  apply keeps_bind; [apply keeps_for_each; intros i _; apply cwb_offer|].
  intros _. apply keeps_bind; [apply cwb_worker_steps|]. intros _. by apply cwb_field.
Qed.

Lemma cwb_sync_flush c :
  cwb busy [] c →
  ∃ c' failed, flush_dirty_entries_sync c = (c', Ok failed) ∧ cwb busy [] c' ∧
    (failed = false → ∀ i sh, c_shards c' !! i = Some sh → clean_shard sh).
Proof.
  intros Hc. unfold flush_dirty_entries_sync. rewrite (bind_ok _ _ c c c) by done.
  destruct (sync_shards_spec busy (cfg_write_back_retry_count (c_config c)) (shard_indices c) c Hc
    (shard_indices_nodup c)) as (c' & b & E & Hc' & Hd & _).
  { intros i Hi. by apply (shard_indices_ok cfg WRITE_BACK busy c); [apply Hc|]. }
  exists c', b. split_conj; [done..|]. intros Hb i sh Hsh. apply (Hd Hb i sh); [|done].
  apply elem_of_py_range. apply lookup_lt_Some in Hsh.
  rewrite (ci_length _ _ _ _ (wbi_inv _ _ _ (proj1 Hc'))) in Hsh.
  rewrite (ci_length _ _ _ _ (wbi_inv _ _ _ (proj1 Hc))). lia.
Qed.

(** The flushing part of [close]: when nothing failed, no entry is left dirty. *)
Lemma cwb_close_flush do_flush env c0 c :
  c_write_mode c0 = WRITE_BACK → cwb busy [] c →
  ∃ c' failed, close_flush do_flush env c0 c = (c', Ok failed) ∧ cwb busy [] c' ∧
    (do_flush = true → failed = false → ∀ i sh, c_shards c' !! i = Some sh → clean_shard sh).
Proof.
  intros Hm Hc. unfold close_flush. rewrite Hm, bool_decide_eq_true_2, andb_true_r by done.
  destruct do_flush; [|by exists c, false].
  destruct (succeeds_enqueue_dirty cfg WRITE_BACK busy eq_refl c (wbi_inv _ _ _ (proj1 Hc)))
    as (c1 & [] & E1 & _ & _).
  pose proof (cwb_enqueue_dirty busy [] c Hc) as Hc1. rewrite E1 in Hc1. cbn [fst] in Hc1.
  rewrite (bind_ok _ _ _ _ _ E1). rewrite (bind_ok _ _ c1 c1 c1) by done.
  assert (∃ c2 joined, (if wp_started (c_pool c1) && (0 <? cfg_worker_count (c_config c1))
    then worker_steps (ce_join_steps env) ;;
         c2 ← get_state; mret (queue_join_until (c_queue c2))
    else mret true) c1 = (c2, Ok joined) ∧ cwb busy [] c2) as (c2 & joined & E2 & Hc2).
  { destruct (_ && _); [|by exists c1, true].
    destruct (succeeds_worker_steps cfg WRITE_BACK busy (ce_join_steps env) Hbusy c1
      (wbi_inv _ _ _ (proj1 Hc1))) as (c2 & [] & E2 & _ & _).
    pose proof (cwb_worker_steps (ce_join_steps env) c1 Hc1) as Hc2. rewrite E2 in Hc2.
    rewrite (bind_ok _ _ _ _ _ E2). by eexists _, _. }
  rewrite (bind_ok _ _ _ _ _ E2). destruct (cwb_sync_flush c2 Hc2) as (c3 & sf & E3 & Hc3 & Hd).
  rewrite (bind_ok _ _ _ _ _ E3). destruct sf; simpl.
  - eexists _, true. split_conj; [done| |done]. by apply (cwb_inc_runtime busy [] shutdown_flush_failures c3).
  - destruct joined; simpl.
    + exists c3, false. by split_conj; [..|auto].
    + eexists _, true. split_conj; [done| |done]. by apply (cwb_inc_runtime busy [] shutdown_flush_failures c3).
Qed.

Lemma wbi_set_state held (st : LifecycleState) c :
  st = CLOSING ∨ st = CLOSED → wbi busy held c → cwb busy held (set_state st c).
Proof.
  intros Hst [Hc Hw]. assert (¬ is_open (set_state st c)) as Ho
    by (intros [E|E]; destruct Hst; simpl in E; congruence).
  split; [|done]. split; [by apply (inv_ext _ _ _ c)|]. by apply (wb_inv_ext held c).
Qed.

(** [close] keeps the invariant; when it flushes and returns, nothing is dirty. *)
Lemma wb_close flush env c :
  wbi busy [] c →
  wbi busy [] (cache_close flush env c).1 ∧
  (c_state c ≠ CLOSED → default (cfg_shutdown_flush (c_config c)) flush = true →
   (cache_close flush env c).2 = Ok tt →
   ∀ i sh, c_shards (cache_close flush env c).1 !! i = Some sh → clean_shard sh).
Proof.
  intros Hw. destruct (decide (c_state c = CLOSED)) as [Hs|Hs].
  { unfold cache_close. rewrite (bind_ok _ _ c c c) by done. by rewrite Hs. }
  rewrite cache_close_eq by done. rewrite (bind_ok _ _ c (set_state CLOSING c) tt) by done.
  set (c1 := set_scheduler (scheduler_stop (c_scheduler (set_state CLOSING c))) (set_state CLOSING c)).
  rewrite (bind_ok _ _ (set_state CLOSING c) c1 tt) by done.
  assert (cwb busy [] c1) as Hc1.
  { apply (cwb_field busy [] (λ c, set_scheduler (scheduler_stop (c_scheduler c)) c)); [done|].
    apply wbi_set_state; [by left|done]. }
  destruct (cwb_close_flush (default (cfg_shutdown_flush (c_config c)) flush) env c c1
    (ci_mode _ _ _ _ (wbi_inv _ _ _ Hw)) Hc1) as (c2 & failed & E2 & Hc2 & Hd).
  rewrite (bind_ok _ _ _ _ _ E2).
  destruct (succeeds_pool_stop cfg WRITE_BACK busy Hbusy env c2 (wbi_inv _ _ _ (proj1 Hc2)))
    as (c3 & [] & E3 & _ & _).
  pose proof (cwb_pool_stop env c2 Hc2) as Hc3. rewrite E3 in Hc3.
  rewrite (bind_ok _ _ _ _ _ E3). rewrite (bind_ok _ _ c3 (set_state CLOSED c3) tt) by done.
  assert (wbi busy [] (set_state CLOSED c3)) as Hc4
    by (apply wbi_set_state; [by right|apply Hc3]).
  split; [by destruct failed|]. intros _ Hf Hok. destruct failed; [done|]. simpl.
  pose proof (clean_pool_stop True env c2) as Hcl. rewrite E3 in Hcl.
  apply Hcl; [|done]. split; [apply Hc2|]. intros _. by apply Hd.
Qed.
End shutdown.
End wb.

(** ** Reachable caches *)

Section reach.
Context {K V : Type} `{EqDecision K} `{KeyHash K} `{PyNone V}.
Implicit Types (c : Cache K V (AnyPolicy K)).

Lemma cache_step_wb cfg c c' :
  str_lower (cfg_policy cfg) ≠ "lfu" → cache_step c c' → wbi cfg 0 [] c → wbi cfg 0 [] c'.
Proof.
  intros Hk Hs Hw. destruct Hs as [c c' Hq|key c|c|key loader ttl c]; [destruct Hq|..].
  - by apply wbi_start.
  - by apply wb_close.
  - by apply wbi_get.
  - by apply wbi_put.
  - by apply wbi_contains.
  - by apply wbi_inspect_op.
  - by apply wbi_dump.
  - by apply wbi_expire_all.
  - by apply wbi_preload.
  - by apply wbi_request_snapshot.
  - by apply wbi_scheduler_tick.
  - by apply wbi_restore.
  - by apply wbi_worker_step.
  - by apply wbi_tick.
  - by apply (wbi_field cfg 0 [] (set_clock clock)).
  - by apply wbi_fail_next.
  - by apply wbi_delete.
  - by apply wbi_clear.
  - apply wbi_get_or_compute; [done|apply keeps_lift|apply keeps_ret|done].
Qed.

Lemma cache_init_wb config args source clock c :
  (∀ cfg, config = Some cfg → config_valid cfg) →
  cache_init config args source clock = Ok c → c_write_mode c = WRITE_BACK →
  wbi (c_config c) 0 [] c.
Proof.
  intros Hv Hi Hm. pose proof (cache_init_inv _ _ _ _ _ Hv Hi) as Hc. rewrite Hm in Hc.
  split; [done|]. apply cache_init_eq in Hi as (_ & _ & Hs & Hq & _).
  apply init_shards_spec in Hs as [_ Hs]. intros i sh Hsh k HR.
  destruct (Hs i sh Hsh) as (cap & policy & _ & _ & ->). unfold queued. rewrite Hq. simpl.
  split; simpl; try done. intros j _ Hj. by apply not_elem_of_nil in Hj.
Qed.

Lemma reachable_wb c :
  reachable c → c_write_mode c = WRITE_BACK → str_lower (cfg_policy (c_config c)) ≠ "lfu" →
  wbi (c_config c) 0 [] c.
Proof.
  intros (config & args & source & clock & c0 & Hv & Hi & Hs) Hm Hp.
  pose proof (cache_init_inv _ _ _ _ _ Hv Hi) as Hc0.
  pose proof (cache_steps_inv _ _ _ _ Hs Hc0) as Hc.
  rewrite (ci_config _ _ _ _ Hc) in *. rewrite (ci_mode _ _ _ _ Hc) in Hm.
  pose proof (cache_init_wb _ _ _ _ _ Hv Hi Hm) as Hw0. clear -Hs Hw0 Hp. revert Hw0.
  generalize (c_config c0) as cfg, Hp. intros cfg Hp' Hw0. clear Hp.
  induction Hs as [|c1 c2 c3 Hst _ IH]; [done|]. apply IH. by eapply cache_step_wb.
Qed.

(** The entry stored for a key, in terms of its shard. *)
Lemma stored_lookup c key e :
  stored c key = Some e →
  ∃ sh, c_shards c !! slot c key = Some sh ∧ dict_get (sh_backend sh) key = Some e.
Proof. unfold stored. destruct (c_shards c !! slot c key) as [sh|]; simpl; [eauto|done]. Qed.
End reach.

(** ** Concrete caches *)

(** Three puts, then a worker that handles the three flush jobs. *)
Definition demo_flushed : Cache Z Z (AnyPolicy Z) :=
  run worker_step (run worker_step (run worker_step (run cache_start (demo_three "lru" "write-back")))).

Lemma demo_flushed_reachable : reachable demo_flushed.
Proof.
  unfold demo_flushed.
  do 3 (apply run_worker_reachable; [vm_compute; reflexivity|]).
  apply (run_reachable cache_start); [intros x; apply step_quiet, step_start|].
  apply demo_three_reachable. reflexivity.
Qed.

(** Three puts, then a delete of the last key: two jobs of it are queued. *)
Definition demo_deleted : Cache Z Z (AnyPolicy Z) :=
  run (cache_delete 3) (demo_three "lru" "write-back").

Lemma demo_deleted_reachable : reachable demo_deleted.
Proof.
  unfold demo_deleted. apply (run_reachable (cache_delete 3)); [intros x; apply step_delete|].
  apply demo_three_reachable. reflexivity.
Qed.

(** Three puts, and a source whose next two operations fail. *)
Definition demo_failing : Cache Z Z (AnyPolicy Z) :=
  run (with_source (fail_next 2)) (demo_three "lru" "write-back").

Lemma demo_failing_reachable : reachable demo_failing.
Proof.
  unfold demo_failing.
  apply (run_reachable (with_source (fail_next 2))); [intros x; apply step_quiet, step_source_failures|].
  apply demo_three_reachable. reflexivity.
Qed.

(** An LFU cache of two entries with two keys that have been read. *)
Definition demo_used : Cache Z Z (AnyPolicy Z) :=
  run (cache_get 2 0) (run (cache_get 1 0) (run (cache_put 2 20 TTL_UNSET)
    (run (cache_put 1 10 TTL_UNSET) (run cache_start (demo_cache "lfu" "write-back" 1 0))))).

Lemma demo_used_reachable : reachable demo_used.
Proof.
  unfold demo_used.
  do 2 (apply (run_reachable (cache_get _ _)); [intros x; apply step_quiet, step_get|]).
  do 2 (apply (run_reachable (cache_put _ _ _)); [intros x; apply step_quiet, step_put|]).
  apply (run_reachable cache_start); [intros x; apply step_quiet, step_start|].
  apply demo_reachable. reflexivity.
Qed.

(** ** Properties *)

(** In write-back mode an entry that is not dirty is safely persisted: in every reachable
    cache whose policy is not LFU, with workers handling one job at a time, the source holds
    exactly the value of every stored entry that is marked clean. *)
Theorem write_back_clean_entries_agree {K V} `{EqDecision K} `{KeyHash K} `{PyNone V}
    (c : Cache K V (AnyPolicy K)) (key : K) (e : CacheEntry K V) :
  reachable c → c_write_mode c = WRITE_BACK → str_lower (cfg_policy (c_config c)) ≠ "lfu" →
  stored c key = Some e → e_dirty e = false →
  dict_get (source_snapshot (c_source c)) key = Some (e_value e).
Proof.
  intros Hr Hm Hp He Hd. destruct (reachable_wb c Hr Hm Hp) as [Hc Hw].
  destruct (stored_lookup c key e He) as (sh & Hsh & Hx).
  by apply (wk_clean _ _ _ _ _ _ (Hw _ sh Hsh key (proj2 (slot_routed _ _ _ c key key Hc) eq_refl)) e).
Qed.

Lemma write_back_clean_entries_agree_witness :
  ∃ e, stored demo_flushed 3 = Some e ∧ e_dirty e = false ∧
       dict_get (source_snapshot (c_source demo_flushed)) 3 = Some (e_value e).
Proof.
  assert (match stored demo_flushed 3 with Some e => e_dirty e | None => true end = false) as Hd
    by (vm_compute; reflexivity).
  assert (c_write_mode demo_flushed = WRITE_BACK) as Hm by (vm_compute; reflexivity).
  assert (str_lower (cfg_policy (c_config demo_flushed)) ≠ "lfu") as Hp by (vm_compute; discriminate).
  destruct (stored demo_flushed 3) as [e|] eqn:E; [|discriminate Hd].
  exists e. split; [reflexivity|]. split; [exact Hd|].
  exact (write_back_clean_entries_agree demo_flushed 3 e demo_flushed_reachable Hm Hp E Hd).
Defined.

(** The pending counter is exact: in every reachable open write-back cache whose policy is
    not LFU, the pending-flush count of a key is the number of flush jobs queued for it, each
    of a version that is still marked; in particular a put or delete rejected by a full queue
    leaves no pending mark behind. *)
Theorem pending_counts_queued_jobs {K V} `{EqDecision K} `{KeyHash K} `{PyNone V}
    (c : Cache K V (AnyPolicy K)) (key : K) (sh : CacheShard K V (AnyPolicy K)) :
  reachable c → c_write_mode c = WRITE_BACK → str_lower (cfg_policy (c_config c)) ≠ "lfu" →
  is_open c → c_shards c !! slot c key = Some sh →
  dict_get_default (sh_pending_flushes sh) key 0 = Z.of_nat (length (jobs_for key (queued c))) ∧
  ∀ job, job ∈ jobs_for key (queued c) →
    ∃ v, dict_get (sh_version_marks sh) key = Some v ∧ f_version job ≤ v.
Proof.
  intros Hr Hm Hp Ho Hsh. destruct (reachable_wb c Hr Hm Hp) as [Hc Hw].
  destruct (Hw _ sh Hsh key (proj2 (slot_routed _ _ _ c key key Hc) eq_refl)) as [Hcnt Hb _ _].
  split; [symmetry; by apply Hcnt|]. intros job. by apply Hb.
Qed.

Lemma pending_counts_queued_jobs_witness :
  ∃ sh, c_shards demo_deleted !! slot demo_deleted 3 = Some sh ∧
        dict_get_default (sh_pending_flushes sh) 3 0
          = Z.of_nat (length (jobs_for 3 (queued demo_deleted))) ∧
        length (jobs_for 3 (queued demo_deleted)) = 2%nat.
Proof.
  assert (match c_shards demo_deleted !! slot demo_deleted 3 with Some _ => true | None => false end = true)
    as Hs by (vm_compute; reflexivity).
  assert (c_write_mode demo_deleted = WRITE_BACK) as Hm by (vm_compute; reflexivity).
  assert (str_lower (cfg_policy (c_config demo_deleted)) ≠ "lfu") as Hp by (vm_compute; discriminate).
  assert (is_open demo_deleted) as Ho by (left; vm_compute; reflexivity).
  destruct (c_shards demo_deleted !! slot demo_deleted 3) as [sh|] eqn:E; [|discriminate Hs].
  exists sh. split; [reflexivity|]. split; [|vm_compute; reflexivity].
  exact (proj1 (pending_counts_queued_jobs demo_deleted 3 sh demo_deleted_reachable Hm Hp Ho E)).
Defined.

(** A shutdown that returns has persisted everything, as long as nothing interrupts a flush job: when [close] with
    flushing returns normally on a reachable open write-back cache whose policy is not LFU, however often the source
    failed meanwhile, no entry is dirty and the source holds the value of every stored entry.  A worker that is
    interrupted within its job is the subject of [interleaved_close_persists]; two workers that interrupt each other can leave
    an older value in the source (compare [two_workers_resurrect_deleted_key]). *)
Theorem close_persists_every_entry {K V} `{EqDecision K} `{KeyHash K} `{PyNone V}
    (c : Cache K V (AnyPolicy K)) (flush : option bool) (env : CloseEnv) :
  reachable c → c_write_mode c = WRITE_BACK → str_lower (cfg_policy (c_config c)) ≠ "lfu" →
  is_open c → default (cfg_shutdown_flush (c_config c)) flush = true →
  (cache_close flush env c).2 = Ok tt →
  let c' := (cache_close flush env c).1 in
  ∀ key e, stored c' key = Some e →
    e_dirty e = false ∧ dict_get (source_snapshot (c_source c')) key = Some (e_value e).
Proof.
  intros Hr Hm Hp Ho Hf Hok c' key e He.
  pose proof (reachable_wb c Hr Hm Hp) as Hw.
  destruct (wb_close (c_config c) Hp 0 ltac:(lia) flush env c Hw) as [[Hc' Hw'] Hclean].
  destruct (stored_lookup c' key e He) as (sh & Hsh & Hx).
  assert (e_dirty e = false) as Hd.
  { apply (Hclean ltac:(destruct Ho; congruence) Hf Hok _ sh Hsh key e Hx). }
  split; [done|].
  by apply (wk_clean _ _ _ _ _ _ (Hw' _ sh Hsh key (proj2 (slot_routed _ _ _ c' key key Hc') eq_refl)) e).
Qed.

(** The source fails twice during the shutdown, which the retries absorb. *)
Lemma close_persists_every_entry_witness :
  ∃ e, stored (cache_close (Some true) (mkCloseEnv 0 0 0) demo_failing).1 3 = Some e ∧
       e_dirty e = false ∧
       dict_get (source_snapshot (c_source (cache_close (Some true) (mkCloseEnv 0 0 0) demo_failing).1)) 3
         = Some (e_value e).
Proof.
  assert (match stored (cache_close (Some true) (mkCloseEnv 0 0 0) demo_failing).1 3 with
          | Some _ => true | None => false end = true) as Hs by (vm_compute; reflexivity).
  assert (c_write_mode demo_failing = WRITE_BACK) as Hm by (vm_compute; reflexivity).
  assert (str_lower (cfg_policy (c_config demo_failing)) ≠ "lfu") as Hp by (vm_compute; discriminate).
  assert (is_open demo_failing) as Ho by (left; vm_compute; reflexivity).
  assert ((cache_close (Some true) (mkCloseEnv 0 0 0) demo_failing).2 = Ok tt) as Hok
    by (vm_compute; reflexivity).
  destruct (stored (cache_close (Some true) (mkCloseEnv 0 0 0) demo_failing).1 3) as [e|] eqn:E;
    [|discriminate Hs].
  exists e. split; [reflexivity|].
  exact (close_persists_every_entry demo_failing (Some true) (mkCloseEnv 0 0 0)
           demo_failing_reachable Hm Hp Ho eq_refl Hok 3 e E).
Defined.

(** C36: under LFU a write-back put can be lost silently.  With two frequently used keys in a
    cache of two, [put] of a third returns normally, but the key is evicted at once and its
    version mark with it; its flush job is then taken for stale, and after every job has been
    worked off and [close] has returned without an error the source has no value for the key. *)
Theorem lfu_write_back_loses_put :
  let c := run (cache_put 3 30 TTL_UNSET) demo_used in
  let c' := run (cache_close (Some true) (mkCloseEnv 10 10 0)) c in
  reachable c ∧ (cache_put 3 30 TTL_UNSET demo_used).2 = Ok tt ∧
  (cache_close (Some true) (mkCloseEnv 10 10 0) c).2 = Ok tt ∧
  dict_get (source_snapshot (c_source c')) 1 = Some 10 ∧
  dict_get (source_snapshot (c_source c')) 2 = Some 20 ∧
  dict_get (source_snapshot (c_source c')) 3 = None ∧
  rt_stale_skipped (c_runtime c') = 1.
Proof.
  cbn zeta. split; [|vm_compute; by split_conj].
  apply (run_reachable (cache_put 3 30 TTL_UNSET)); [intros x; apply step_quiet, step_put|].
  apply demo_used_reachable.
Qed.
