(* ===== verification/Race.v ===== *)
(** Several workers at once.

    [WorkerPool] runs [worker_count] threads over one queue, and [Cache._flush_write_back_job]
    gives up the shard lock between its stale check, the write to the source and its last
    critical section.  Here the job is cut into these phases, and [race_step] interleaves the
    phases of any number of workers with the calls of the clients. *)

From stdpp Require Import base tactics numbers option strings sets list relations.
From S2P Require Import Prelude PyDict PyFloat PyMonad Config Entry Policies PolicyLaws.
From S2P Require Import Storage Jobs Shard ShardInv ShardSpec Cache CacheInv CacheSafety.
From S2P Require Import Reach CacheSpec Demo CacheTheorems.
Local Open Scope string_scope.
Local Open Scope list_scope.
Local Open Scope Z_scope.

(** ** The phases of a flush job *)

Section phases.
Context {K V P : Type} `{EqDecision K} `{KeyHash K} `{PyNone V} `{HP : EvictionPolicy K P}.
Implicit Types (c : Cache K V P) (job : FlushWriteBack K V).
Local Abbreviation MC := (M (Cache K V P)).

(** The first [with shard.lock] block: whether the job is stale. *)
Definition flush_check job : MC bool :=
  stale ← with_lock (f_shard_index job) (flush_check_locked job);
  if stale : bool then inc_runtime stale_write_back_jobs_skipped ;; mret true else mret false.

(** [apply_write_back(self.source_backend, job)] with no lock of the cache held. *)
Definition flush_apply job : MC (result unit) := attempt (with_source (apply_write_back job)).

(** The [except] branch, or the last [with shard.lock] block. *)
Definition flush_end job (applied : result unit) : MC bool :=
  match applied with
  | Raise _ => flush_failed job
  | Ok _ => with_lock (f_shard_index job) (λ sh, (flush_finish_locked job sh, true))
  end.

(** The phases run without interruption are the job. *)
Lemma flush_phases job c :
  (stale ← flush_check job;
   if stale : bool then mret true else r ← flush_apply job; flush_end job r) c
  = flush_write_back_job job c.
Proof.
  unfold flush_write_back_job, flush_check, mbind, M_bind.
  destruct (with_lock _ _ c) as [c1 [[]|e]]; [|done..]. by destruct (inc_runtime _ c1) as [c2 []].
Qed.

(** What a worker thread is about to do. *)
Inductive phase : Type :=
  | Idle                                                  (* in [queue.get] *)
  | Taken (job : Job K V)                                 (* before the handler *)
  | Checked (job : FlushWriteBack K V)                    (* found not stale *)
  | Applied (job : FlushWriteBack K V) (r : result unit)  (* the source has answered *)
  | Flushed (completed : bool)                            (* the flush has returned *)
  | Handled (stop : bool)                                 (* before [task_done] *)
  | Exited.                                               (* after a [StopWorker] *)

Definition phase_busy (w : phase) : Z := match w with Idle | Exited => 0 | _ => 1 end.
Definition busy_workers (ws : list phase) : Z := py_sum (phase_busy <$> ws).

(** One action of a worker of the pool: the new phase and the new cache. *)
Definition phase_step (w : phase) : MC phase :=
  match w with
  | Idle =>
      c ← get_state;
      match queue_get (c_queue c) with
      | None => mret Idle
      | Some (job, q) => modify (set_queue q) ;; mret (Taken job)
      end
  | Taken (StopWorker _) => mret (Handled true)
  | Taken (FlushJob job) =>
      stale ← flush_check job; mret (if stale : bool then Flushed true else Checked job)
  | Taken job =>
      r ← attempt (handle_job job);
      match r with Ok _ => mret tt | Raise _ => inc_runtime worker_jobs_failed end ;;
      mret (Handled false)
  | Checked job => r ← flush_apply job; mret (Applied job r)
  | Applied job r => completed ← flush_end job r; mret (Flushed completed)
  | Flushed completed =>
      inc_runtime (if completed : bool then worker_jobs_completed else worker_jobs_failed) ;;
      mret (Handled false)
  | Handled stop => with_queue queue_task_done ;; mret (if stop : bool then Exited else Idle)
  | Exited => mret Exited
  end.

(** The cache with the workers of its pool: a client calls the API (or the clock, the
    scheduler or the source moves), or worker [i] acts. *)
Inductive race_step : Cache K V P * list phase → Cache K V P * list phase → Prop :=
  | race_client c c' ws : cache_step c c' → race_step (c, ws) (c', ws)
  | race_worker c c' ws i w w' :
      ws !! i = Some w → phase_step w c = (c', Ok w') → race_step (c, ws) (c', <[i := w']> ws).

(** *** The invariant *)

Context `{!PolicyLaws K P}.
Section inv.
Context (cfg : CacheConfig) (mode : WriteMode).

Definition phase_ok (w : phase) : Prop :=
  match w with
  | Taken job => job_ok cfg mode job
  | Checked job | Applied job _ => flush_ok cfg mode job
  | _ => True
  end.

Record race_inv (s : Cache K V P * list phase) : Prop := {
  ri_cache : cache_inv cfg mode (busy_workers s.2) s.1;
  ri_phases : Forall phase_ok s.2;
}.

Lemma phase_busy_range w : 0 ≤ phase_busy w ≤ 1.
Proof. destruct w; simpl; lia. Qed.

Lemma busy_workers_nonneg ws : 0 ≤ busy_workers ws.
Proof.
  apply py_sum_nonneg, Forall_fmap, Forall_forall. intros w _. apply phase_busy_range.
Qed.

Lemma busy_workers_insert ws i w w' :
  ws !! i = Some w → busy_workers (<[i := w']> ws) = busy_workers ws - phase_busy w + phase_busy w'.
Proof. apply py_sum_insert. Qed.

Lemma keeps_flush_check b job : keeps (cache_inv cfg mode b) (flush_check job).
Proof.
  unfold flush_check.
  apply keeps_bind; [apply keeps_lock; intros j data sh; apply flush_check_inv|]. intros [].
  - apply keeps_bind; [apply keeps_inc_runtime|intros _; apply keeps_ret].
  - apply keeps_ret.
Qed.

Lemma keeps_flush_apply b job : flush_ok cfg mode job → keeps (cache_inv cfg mode b) (flush_apply job).
Proof. intros (i & _ & Hj). apply keeps_attempt, keeps_source_wb. by destruct Hj. Qed.

Lemma keeps_flush_end b job r : flush_ok cfg mode job → keeps (cache_inv cfg mode b) (flush_end job r).
Proof.
  intros Hj. destruct r; [|by apply keeps_flush_failed].
  apply keeps_lock. intros j data sh. apply flush_finish_inv.
Qed.

(** Between [queue.get] and [task_done] the worker keeps the job it holds. *)
Lemma phase_step_holding b w :
  w ≠ Idle → w ≠ Exited → (∀ stop, w ≠ Handled stop) → phase_ok w →
  returns (cache_inv cfg mode b) (phase_step w) (λ w', phase_busy w' = 1 ∧ phase_ok w').
Proof.
  intros Hni Hne Hnh Hw.
  assert (∀ job : Job K V, job_ok cfg mode job → keeps (cache_inv cfg mode b) (attempt (handle_job job))) as Hh
    by (intros job Hj; by apply keeps_attempt, keeps_handle_job).
  assert (∀ m : MC unit, keeps (cache_inv cfg mode b) m →
    returns (cache_inv cfg mode b) (m ;; mret (Handled false)) (λ w', phase_busy w' = 1 ∧ phase_ok w')) as Hhandled.
  { intros m Hm. eapply returns_bind; [by apply keeps_returns|]. intros _ _. by apply returns_ret. }
  assert (∀ r : result unit, keeps (cache_inv cfg mode b)
    (match r return MC unit with Ok _ => mret tt | Raise _ => inc_runtime worker_jobs_failed end)) as Hr
    by (intros []; [apply keeps_ret|apply keeps_inc_runtime]).
  destruct w as [|[]|job|job r|completed|stop|]; try done; try (by destruct (Hnh stop)); cbn [phase_step phase_ok job_ok] in *.
  - eapply returns_bind; [by apply keeps_returns, Hh|]. intros r _. by apply Hhandled.
  - eapply returns_bind; [apply keeps_returns, keeps_flush_check|]. intros [] _; by apply returns_ret.
  - eapply returns_bind; [by apply keeps_returns, Hh|]. intros r _. by apply Hhandled.
  - eapply returns_bind; [by apply keeps_returns, Hh|]. intros r _. by apply Hhandled.
  - eapply returns_bind; [by apply keeps_returns, keeps_flush_apply|]. intros r _. by apply returns_ret.
  - eapply returns_bind; [by apply keeps_returns, keeps_flush_end|]. intros r' _. by apply returns_ret.
  - apply Hhandled, keeps_inc_runtime.
Qed.

(** A worker's action keeps the invariant and accounts for the job it holds. *)
Lemma phase_step_inv b w c c' w' :
  0 ≤ b → phase_ok w → cache_inv cfg mode (b + phase_busy w) c → phase_step w c = (c', Ok w') →
  cache_inv cfg mode (b + phase_busy w') c' ∧ phase_ok w'.
Proof.
  intros Hb Hw Hc Hs.
  assert (w ≠ Idle → w ≠ Exited → (∀ stop, w ≠ Handled stop) → cache_inv cfg mode (b + phase_busy w') c' ∧ phase_ok w') as Hhold.
  { intros Hni Hne Hnh. destruct (phase_step_holding (b + phase_busy w) w Hni Hne Hnh Hw c Hc) as [Hi HQ].
    rewrite Hs in Hi, HQ. destruct HQ as [-> Hok]. split; [|done].
    replace (phase_busy w) with 1 in Hi by (by destruct w). done. }
  destruct w; try (by apply Hhold); clear Hhold; cbn [phase_step phase_busy] in *;
    unfold mbind, M_bind, get_state, modify, mret, M_ret in Hs.
  - rewrite Z.add_0_r in Hc. destruct (queue_get (c_queue c)) as [[job q]|] eqn:E; simplify_eq.
    + destruct (inv_queue_get _ _ b c job q Hc E). by split.
    + simpl. by rewrite Z.add_0_r.
  - destruct (keeps_task_done _ _ b c Hb Hc) as [Hi Hok].
    destruct (with_queue queue_task_done c) as [c1 r]. simpl in *. subst r. simplify_eq.
    split; [|by destruct stop]. destruct stop; cbn [phase_busy]; by rewrite Z.add_0_r.
  - by simplify_eq.
Qed.

Lemma race_step_inv s s' : race_step s s' → race_inv s → race_inv s'.
Proof.
  intros Hs [Hc Hp]. destruct Hs as [c c' ws Hst|c c' ws i w w' Hi Hst]; simpl in *.
  { split; [|done]. by apply (cache_step_inv _ _ _ _ _ (busy_workers_nonneg ws) Hst). }
  rewrite Forall_lookup in Hp.
  destruct (phase_step_inv (busy_workers ws - phase_busy w) w c c' w') as [Hc' Hw'].
  - pose proof (busy_workers_insert ws i w Idle Hi) as Hb.
    pose proof (busy_workers_nonneg (<[i := Idle]> ws)). cbn [phase_busy] in *. lia.
  - by eapply Hp.
  - by replace (_ - _ + _) with (busy_workers ws) by lia.
  - done.
  - split; simpl; [by erewrite busy_workers_insert|].
    apply Forall_insert; [by apply Forall_lookup|done].
Qed.

Lemma race_steps_inv s s' : rtc race_step s s' → race_inv s → race_inv s'.
Proof. induction 1; [done|]. intros Hs. by eapply IHrtc, race_step_inv. Qed.
End inv.
End phases.

#[global] Arguments phase : clear implicits.

(** ** Runs *)

Section runs.
Context {K V : Type} `{EqDecision K} `{KeyHash K} `{PyNone V}.
Implicit Types (c : Cache K V (AnyPolicy K)) (ws : list (phase K V)).

(** What the cache and its workers can come to from a cache whose workers are idle. *)
Definition race_reachable c ws : Prop :=
  ∃ c0 n, reachable c0 ∧ rtc race_step (c0, replicate n Idle) (c, ws).

Lemma race_reachable_inv c ws :
  race_reachable c ws → race_inv (c_config c) (c_write_mode c) (c, ws).
Proof.
  intros (c0 & n & Hr & Hs). pose proof (reachable_inv c0 Hr) as Hc0.
  assert (race_inv (c_config c0) (c_write_mode c0) (c0, replicate n Idle)) as Hinit.
  { split; simpl; [|by apply Forall_replicate].
    replace (busy_workers _) with 0; [done|]. clear. unfold busy_workers.
    by induction n as [|n IH]; [|rewrite replicate_S, fmap_cons; cbn [py_sum foldr phase_busy];
      fold (py_sum (phase_busy <$> replicate n (Idle (K:=K) (V:=V)))); rewrite <- IH]. }
  pose proof (race_steps_inv _ _ _ _ Hs Hinit) as Hi. pose proof (ri_cache _ _ _ Hi) as Hc.
  simpl in Hc. by rewrite (ci_config _ _ _ _ Hc), (ci_mode _ _ _ _ Hc).
Qed.

(** Worker [i] acts, as a function. *)
Definition act (i : nat) (s : Cache K V (AnyPolicy K) * list (phase K V)) :
    Cache K V (AnyPolicy K) * list (phase K V) :=
  match s.2 !! i with
  | Some w => match phase_step w s.1 with (c', Ok w') => (c', <[i := w']> s.2) | _ => s end
  | None => s
  end.

Lemma act_steps i s s' : rtc race_step s s' → rtc race_step s (act i s').
Proof.
  intros Hs. destruct s' as [c ws]. unfold act. cbn [fst snd].
  destruct (ws !! i) as [w|] eqn:Hw; [|done].
  destruct (phase_step w c) as [c' [w'|e]] eqn:Hp; [|done].
  eapply rtc_r; [done|]. by econstructor.
Qed.

(** A client calls [m]. *)
Definition client {A} (m : M (Cache K V (AnyPolicy K)) A) (s : Cache K V (AnyPolicy K) * list (phase K V))
    : Cache K V (AnyPolicy K) * list (phase K V) := ((m s.1).1, s.2).

Lemma client_steps {A} (m : M (Cache K V (AnyPolicy K)) A) s s' :
  (∀ c, cache_step c (m c).1) → rtc race_step s s' → rtc race_step s (client m s').
Proof. intros Hm Hs. destruct s' as [c ws]. eapply rtc_r; [done|]. by constructor. Qed.
End runs.

(** ** Properties *)

(** C13: any number of workers, interleaved with the clients and with each other between the
    critical sections of a flush job, keep the cache consistent: no shard exceeds its
    capacity, the eviction policy of each shard still tracks exactly its keys, the queue
    respects its bound, and the unfinished-task count covers every queued job and every busy
    worker, so that no [task_done] is one too many. *)
Theorem concurrent_workers_keep_invariants {K V} `{EqDecision K} `{KeyHash K} `{PyNone V}
    (c : Cache K V (AnyPolicy K)) (ws : list (phase K V)) :
  race_reachable c ws →
  Forall (λ sh, backend_size (sh_backend sh) ≤ sh_capacity sh ∧
                ∀ k, k ∈ tracked (sh_policy sh) ↔ k ∈ dict_keys (sh_backend sh)) (c_shards c) ∧
  cst_size (cache_stats c) ≤ cfg_capacity (c_config c) ∧
  (0 < q_maxsize (c_queue c) → queue_depth (c_queue c) ≤ q_maxsize (c_queue c)) ∧
  queue_depth (c_queue c) + busy_workers ws ≤ q_unfinished (c_queue c) ∧
  (∀ stop, Handled stop ∈ ws → (phase_step (Handled stop) c).2 = Ok (if stop then Exited else Idle)).
Proof.
  intros Hr. pose proof (race_reachable_inv c ws Hr) as [Hc _]. cbn [fst snd] in Hc.
  destruct (inv_size_bounded _ _ _ c Hc) as (_ & _ & Hsize). split_conj.
  - apply Forall_lookup. intros i sh Hsh. destruct (ci_shards _ _ _ _ Hc i sh Hsh) as [Hw _].
    split; [apply (sw_size _ Hw)|apply (sc_tracked _ (sw_core _ Hw))].
  - done.
  - apply (qw_bound _ (ci_queue _ _ _ _ Hc)).
  - apply (ci_busy _ _ _ _ Hc).
  - intros stop [i Hi]%list_elem_of_lookup_1.
    pose proof (busy_workers_insert ws i (Handled stop) Idle Hi) as Hb.
    pose proof (busy_workers_nonneg (<[i := Idle]> ws)). cbn [phase_busy] in Hb.
    assert (cache_inv (c_config c) (c_write_mode c) (0 + 1) c) as Hone
      by (by eapply inv_less_busy; [|exact Hc]; lia).
    destruct (keeps_task_done _ _ 0 c ltac:(lia) Hone) as [_ Hok].
    cbn [phase_step]. unfold mbind, M_bind, mret, M_ret.
    destruct (with_queue queue_task_done c) as [c1 r]. simpl in *. by subst r.
Qed.

(** Two workers of one write-back cache, and a run in which the first worker is stopped
    between its stale check and its write. *)
Definition race_start : Cache Z Z (AnyPolicy Z) * list (phase Z Z) :=
  (run cache_start (demo_cache "lru" "write-back" 2 0), [Idle; Idle]).
Definition race_checked : Cache Z Z (AnyPolicy Z) * list (phase Z Z) :=
  act 0 (act 0 (client (cache_put 1 10 TTL_UNSET) race_start)).
Definition race_deleted : Cache Z Z (AnyPolicy Z) * list (phase Z Z) :=
  client (cache_delete 1) race_checked.
Definition race_end : Cache Z Z (AnyPolicy Z) * list (phase Z Z) :=
  Nat.iter 4 (act 0) (Nat.iter 6 (act 1) race_deleted).

Lemma race_start_reachable : reachable race_start.1.
Proof.
  apply (run_reachable cache_start); [intros c; apply step_quiet, step_start|]. by apply demo_reachable.
Qed.

Lemma race_start_runs s : rtc race_step race_start s → race_reachable s.1 s.2.
Proof.
  intros Hs. exists race_start.1, 2%nat. split; [apply race_start_reachable|].
  destruct s as [c ws]. exact Hs.
Qed.

Lemma race_checked_steps : rtc race_step race_start race_checked.
Proof.
  unfold race_checked. do 2 apply act_steps.
  apply (client_steps (cache_put 1 10 TTL_UNSET)); [intros c; apply step_quiet, step_put|]. apply rtc_refl.
Qed.

Lemma race_end_steps : rtc race_step race_start race_end.
Proof.
  unfold race_end, race_deleted. cbn [Nat.iter nat_rect]. do 10 apply act_steps.
  apply (client_steps (cache_delete 1)); [intros c; apply step_delete|]. apply race_checked_steps.
Qed.

Lemma concurrent_workers_keep_invariants_witness :
  race_reachable race_checked.1 race_checked.2 ∧ busy_workers race_checked.2 = 1 ∧
  queue_depth (c_queue race_checked.1) + busy_workers race_checked.2
    ≤ q_unfinished (c_queue race_checked.1).
Proof.
  pose proof (race_start_runs race_checked race_checked_steps) as Hr.
  split; [exact Hr|]. split; [vm_compute; reflexivity|].
  apply (concurrent_workers_keep_invariants _ _ Hr).
Defined.

(** C38: with two workers a deleted key can come back in the source.  A put of key 1 is taken
    by the first worker, which finds it not stale and is then interrupted; the key is deleted,
    the second worker handles the delete completely, and the first worker then writes the old
    value.  Afterwards no job, no entry, no tombstone and no pending flush is left, [close]
    returns without an error, and the source still holds the deleted key. *)
Theorem two_workers_resurrect_deleted_key :
  race_reachable race_end.1 race_end.2 ∧
  (cache_delete 1 race_checked.1).2 = Ok true ∧
  race_end.2 = [Idle; Idle] ∧ q_items (c_queue race_end.1) = [] ∧
  stored race_end.1 1 = None ∧
  Forall (λ sh, sh_tombstones sh = [] ∧ sh_pending_flushes sh = []) (c_shards race_end.1) ∧
  (cache_close (Some true) (mkCloseEnv 10 10 0) race_end.1).2 = Ok tt ∧
  dict_get (source_snapshot (c_source (cache_close (Some true) (mkCloseEnv 10 10 0) race_end.1).1)) 1
    = Some 10.
Proof.
  split; [exact (race_start_runs race_end race_end_steps)|].
  vm_compute. split_conj; [done..| |done|done]. repeat constructor.
Qed.
