(* ===== verification/Pool.v ===== *)
(** The threads of a cache: src/cachelab/workers/worker_pool.py, scheduler.py and shutdown.py.

    [Race] cuts a job into the phases between which a worker can be interrupted.  Here the
    phases become the loop [WorkerPool._run], with the idle timeout and the stop event, beside
    the loop [ExpirationScheduler._run]; a schedule says which thread acts next.  The threads
    matter most at the end: [stop] sets the stop event, wakes the workers and joins them. *)

From stdpp Require Import base tactics numbers option strings sets list.
From S2P Require Import Prelude PyDict PyFloat PyMonad Config Entry Policies.
From S2P Require Import Storage Jobs Shard Cache Demo Race.
Local Open Scope string_scope.
Local Open Scope list_scope.
Local Open Scope Z_scope.

(** What the scheduler thread is about to do. *)
Inductive ticker : Type :=
  | Waiting                  (* in [self._stop.wait(self.interval)] *)
  | Ticking (index : Z)      (* in [tick_once], before the job of a shard *)
  | Stopped.                 (* after the loop, or never started *)

Section threads.
Context {K V P : Type} `{EqDecision K} `{KeyHash K} `{PyNone V} `{HP : EvictionPolicy K P}.
Implicit Types (c : Cache K V P) (w : phase K V) (ws : list (phase K V)) (t : ticker).
Local Abbreviation MC := (M (Cache K V P)).

(** ** Threads *)

(** [Cache._record_worker_failure] *)
Definition record_worker_failure : MC unit := inc_runtime worker_jobs_failed.

(** One action of [WorkerPool._run].  A worker that waited on an empty queue looks at the stop
    event.  A handler that raises is recorded.  The put of a [PreloadKey] job waits for the
    lifecycle lock while [close] holds it.  [task_done] is in no [try] of its own: the thread would die of
    what it raises. *)
Definition worker_run w : MC (phase K V) :=
  c ← get_state;
  match w with
  | Idle =>
      match queue_get (c_queue c) with
      | None => mret (if wp_stop_event (c_pool c) then Exited else Idle)
      | Some (job, q) => modify (set_queue q) ;; mret (Taken job)
      end
  | Handled stop =>
      r ← attempt (with_queue queue_task_done);
      mret (match r with Ok _ => if stop : bool then Exited else Idle | Raise _ => Exited end)
  | Exited => mret Exited
  | _ =>
      match w, c_state c with
      | Taken (PreloadKey _ _ (Ok _) _ _), CLOSING => mret w
      | _, _ =>
          r ← attempt (phase_step w);
          match r with
          | Ok w' => mret w'
          | Raise _ => record_worker_failure ;; mret (Handled false)
          end
      end
  end.

(** One action of [ExpirationScheduler._run]; a job for which the queue has no room is dropped. *)
Definition scheduler_run t : MC ticker :=
  c ← get_state;
  match t with
  | Waiting => mret (if sch_stop (c_scheduler c) then Stopped else Ticking 0)
  | Ticking index =>
      if index <? Z.of_nat (length (c_shards c)) then
        modify (λ c, set_queue (queue_put (ExpireShard index) false (c_queue c)).1 c) ;;
        mret (Ticking (index + 1))
      else mret Waiting
  | Stopped => mret Stopped
  end.

(** The cache with its threads; thread [i] acts, the one after the workers being the scheduler. *)
Record running : Type := mkRunning {
  run_cache : Cache K V P;
  run_workers : list (phase K V);
  run_ticker : ticker;
}.
Definition thread_act (s : running) (i : nat) : running :=
  match run_workers s !! i with
  | Some w =>
      match worker_run w (run_cache s) with
      | (c, Ok w') => mkRunning c (<[i := w']> (run_workers s)) (run_ticker s)
      | (c, Raise _) => mkRunning c (<[i := Exited]> (run_workers s)) (run_ticker s)
      end
  | None =>
      match scheduler_run (run_ticker s) (run_cache s) with
      | (c, Ok t) => mkRunning c (run_workers s) t
      | (c, Raise _) => mkRunning c (run_workers s) Stopped
      end
  end.
Definition run_threads (schedule : list nat) (s : running) : running := foldl thread_act s schedule.

(** [thread.is_alive()], and [join_all]: the threads that are still alive when the joins have ended. *)
Definition worker_alive w : bool := match w with Exited => false | _ => true end.
Definition ticker_alive t : bool := match t with Stopped => false | _ => true end.
Definition join_all ws : list (phase K V) := filter (λ w, worker_alive w = true) ws.

(** [WorkerPool.alive_threads] *)
Definition alive_threads (s : running) : list (phase K V) := join_all (run_workers s).

(** [Cache.alive_threads]: the workers that are alive, and the scheduler's thread if it is. *)
Definition cache_alive_threads (s : running) : list (phase K V + ticker) :=
  (inl <$> alive_threads s) ++ (if ticker_alive (run_ticker s) then [inr (run_ticker s)] else []).

(** [ExpirationScheduler.stop]: the others run while it joins. *)
Definition stop_scheduler (schedule : list nat) (s : running) : running :=
  run_threads schedule
    (mkRunning (set_scheduler (scheduler_stop (c_scheduler (run_cache s))) (run_cache s)) (run_workers s) (run_ticker s)).

(** [WorkerPool.stop]: the stop event, a sentinel for each thread, the joins, and the queue settled. *)
Definition on_cache_of (f : Cache K V P → Cache K V P) (s : running) : running :=
  mkRunning (f (run_cache s)) (run_workers s) (run_ticker s).
Definition offer_sentinels (n : nat) c : Cache K V P :=
  Nat.iter n (λ c, set_queue (queue_offer (StopWorker "shutdown") (c_queue c)).1 c) c.
Definition stop_workers (schedule : list nat) (s : running) : running :=
  let drained := on_cache_of (λ c, (with_queue queue_drain c).1) in
  if wp_started (c_pool (run_cache s)) then
    let set_event c := set_pool (mkPool (wp_count (c_pool c)) true (wp_threads (c_pool c)) true) c in
    let s1 := on_cache_of (λ c, offer_sentinels (length (run_workers s)) (set_event c)) s in
    let s2 := run_threads schedule s1 in
    let survivors := join_all (run_workers s2) in
    drained (mkRunning
      (set_pool (mkPool (wp_count (c_pool (run_cache s2))) false (Z.of_nat (length survivors))
                        (wp_stop_event (c_pool (run_cache s2)))) (run_cache s2))
      survivors (run_ticker s2))
  else drained s.

(** ** What a job in progress leaves alone *)

Definition seen c := (c_queue c, c_state c, c_pool c, c_scheduler c, length (c_shards c)).
Definition closing c : Prop := c_state c = CLOSING ∨ c_state c = CLOSED.

Lemma seen_closing c c' : seen c' = seen c → closing c → closing c'.
Proof. intros [= _ E _ _ _]. unfold closing. by rewrite E. Qed.

Section quiet.
Context (c0 : Cache K V P) (Hclosing : closing c0).
Local Abbreviation quiet := (keeps (λ c, seen c = seen c0)).

Lemma quiet_field (f : Cache K V P → Cache K V P) : (∀ c, seen (f c) = seen c) → quiet (modify f).
Proof. intros Hf c Hc. simpl. by rewrite Hf. Qed.
Lemma quiet_inc_runtime f : quiet (inc_runtime f).
Proof. by apply quiet_field. Qed.
Lemma quiet_lock {A} i (f : CacheShard K V P → CacheShard K V P * A) : quiet (with_lock i f).
Proof.
  intros c Hc. unfold with_lock, with_lock_src. destruct (c_shards c !! _) as [sh|]; [|done].
  destruct (f sh) as [sh' a]. cbn. rewrite <- Hc. unfold seen. cbn. by rewrite length_insert.
Qed.
Lemma quiet_source {A} (m : M (SlowDictBackend K V) A) : quiet (with_source m).
Proof. intros c Hc. unfold with_source. by destruct (m (c_source c)). Qed.
Lemma quiet_require : quiet require_not_closed.
Proof. apply keeps_bind; [apply keeps_get|]. intros c. destruct (c_state c); apply keeps_ret || apply keeps_raise. Qed.

(** On a closing cache [put] does not get past its first guard. *)
Lemma quiet_put key value ttl : quiet (cache_put key value ttl).
Proof.
  intros c Hc. pose proof (seen_closing _ _ Hc Hclosing) as Hcl. unfold cache_put. rewrite run_bind.
  assert (require_not_closed c = (c, Raise (RuntimeError "cannot operate on a closed cache"))) as ->; [|done].
  unfold require_not_closed, mbind, M_bind, get_state. by destruct Hcl as [->| ->].
Qed.

(** No job but a flush touches the queue. *)
Lemma quiet_handle job : (∀ j, job ≠ FlushJob j) → quiet (handle_job job).
Proof.
  intros Hj. destruct job as [i|j|i key loader ttl supplied|request|reason]; [| |..]; cbn [handle_job].
  - apply keeps_bind; [|intros _; apply quiet_inc_runtime].
    apply keeps_bind; [by intros c|intros t; apply quiet_lock].
  - by destruct (Hj j).
  - apply keeps_bind; [apply keeps_lift|intros v]. apply keeps_bind; [apply quiet_put|intros _; apply quiet_inc_runtime].
  - apply keeps_bind; [by apply quiet_field|intros _; apply quiet_inc_runtime].
  - apply quiet_inc_runtime.
Qed.
End quiet.

(** ** How much is left to do *)

(** The actions a job can still cost: a flush is queued again at most as often as it has retries left. *)
Definition job_weight (job : Job K V) : Z :=
  match job with FlushJob j => 6 * (1 + Z.max 0 (f_retries_left j)) | _ => 3 end.
Definition worker_weight w : Z :=
  match w with
  | Idle => 1
  | Taken job => job_weight job
  | Checked j => job_weight (FlushJob j) - 1
  | Applied j _ => job_weight (FlushJob j) - 2
  | Flushed _ => 3
  | Handled _ => 2
  | Exited => 0
  end.
Definition queue_weight (q : CacheJobQueue K V) : Z := py_sum (job_weight <$> q_items q).
(** Tasks that are neither done nor queued: those the workers hold. *)
Definition queue_held (q : CacheJobQueue K V) : Z := q_unfinished q - queue_depth q.

Lemma job_weight_pos job : 3 ≤ job_weight job.
Proof. destruct job; simpl; lia. Qed.
Lemma worker_weight_nonneg w : 0 ≤ worker_weight w.
Proof. destruct w as [|job|j|j r| | |]; cbn [worker_weight job_weight]; try lia. pose proof (job_weight_pos job). lia. Qed.
Lemma queue_weight_nonneg q : 0 ≤ queue_weight q.
Proof. apply py_sum_nonneg, Forall_fmap, Forall_forall. intros job _. cbn. pose proof (job_weight_pos job). lia. Qed.
Lemma queue_weight_push q job : queue_weight (queue_push q job) = queue_weight q + job_weight job.
Proof. unfold queue_weight. simpl. rewrite fmap_app, py_sum_app. simpl. lia. Qed.
Lemma queue_held_push q job : queue_held (queue_push q job) = queue_held q.
Proof. unfold queue_held, queue_depth. simpl. rewrite length_app. simpl. lia. Qed.
Lemma queue_put_load q job critical :
  queue_held (queue_put job critical q).1 = queue_held q ∧
  queue_weight q ≤ queue_weight (queue_put job critical q).1 ≤ queue_weight q + job_weight job.
Proof.
  pose proof (job_weight_pos job). destruct (queue_put_cases job critical q) as [[_ ->]|[_ ->]]; cbn [fst].
  - split; [done|]. unfold queue_weight. simpl. lia.
  - rewrite queue_held_push, queue_weight_push. split; [done|lia].
Qed.
Lemma queue_get_load q job q' :
  queue_get q = Some (job, q') →
  queue_held q' = queue_held q + 1 ∧ queue_weight q = job_weight job + queue_weight q'.
Proof.
  unfold queue_get, queue_held, queue_weight, queue_depth. destruct (q_items q) as [|j items]; [done|].
  intros [= <- <-]. cbn [q_items q_unfinished length]. split; [lia|done].
Qed.

(** The jobs, apart from the queue itself. *)
Definition kept c c' : Prop :=
  c_state c' = c_state c ∧ c_pool c' = c_pool c ∧ c_scheduler c' = c_scheduler c ∧
  length (c_shards c') = length (c_shards c).
Lemma seen_kept c c' : seen c' = seen c → kept c c' ∧ c_queue c' = c_queue c.
Proof. by intros [= ? ? ? ? ?]. Qed.
Lemma kept_refl c : kept c c.
Proof. done. Qed.
Lemma kept_trans c1 c2 c3 : kept c1 c2 → kept c2 c3 → kept c1 c3.
Proof. unfold kept. intros (?&?&?&?) (?&?&?&?). split_conj; congruence. Qed.

(** A flush that failed is queued again with one retry less, or not at all. *)
Lemma flush_failed_load job c :
  let c' := (flush_failed job c).1 in
  kept c c' ∧ queue_held (c_queue c') = queue_held (c_queue c) ∧
  queue_weight (c_queue c') ≤ queue_weight (c_queue c) + 6 * Z.max 0 (f_retries_left job).
Proof.
  assert (∀ c1 : Cache K V P, seen ((inc_runtime flush_failures ;;
    with_lock (f_shard_index job) (λ sh, (resolve_pending_locked (f_key job) sh, false))) c1).1 = seen c1) as Hdrop.
  { intros c1. eapply (keeps_bind (λ c', seen c' = seen c1)); [apply quiet_inc_runtime|intros _; apply quiet_lock|done]. }
  unfold flush_failed, mbind, M_bind, get_state, inc_runtime, sleep, modify, attempt in *. cbn [fst].
  destruct (Z.ltb_spec 0 (f_retries_left job)).
  2: { destruct (seen_kept _ _ (Hdrop c)) as [Hk ->]. split_conj; [done|done|]. lia. }
  set (c1 := set_clock _ _). set (retry := mkFlush _ _ _ _ _ _ _).
  destruct (queue_put_load (c_queue c1) (FlushJob retry) true) as [Hh Hw].
  unfold enqueue_job, mbind, M_bind. destruct (queue_put _ _ _) as [q ok]. cbn [fst] in *.
  change (c_queue c1) with (c_queue c) in *.
  assert (kept c (set_queue q c1) ∧ c_queue (set_queue q c1) = q) as [Hk Hq] by done.
  generalize dependent (set_queue q c1). intros c2 Hk Hq.
  assert (job_weight (FlushJob retry) = 6 * Z.max 0 (f_retries_left job)) as Hj by (subst retry; cbn; lia).
  destruct ok; cbn.
  - rewrite Hq. split_conj; [done|done|]. lia.
  - destruct (seen_kept _ _ (Hdrop c2)) as [Hk2 Hq2]. rewrite Hq2, Hq. split_conj; [by eapply kept_trans|done|]. lia.
Qed.

(** An action of a handler in progress costs something, whatever comes of it. *)
Definition in_handler w : Prop :=
  match w with Taken _ | Checked _ | Applied _ _ | Flushed _ => True | _ => False end.
Definition outcome_weight (r : result (phase K V)) : Z :=
  match r with Ok w' => worker_weight w' | Raise _ => 2 end.
Definition outcome_busy (r : result (phase K V)) : Prop :=
  match r with Ok w' => phase_busy w' = 1 | Raise _ => True end.
Definition costs w c (out : Cache K V P * result (phase K V)) : Prop :=
  kept c out.1 ∧ queue_held (c_queue out.1) = queue_held (c_queue c) ∧ outcome_busy out.2 ∧
  queue_weight (c_queue out.1) + outcome_weight out.2 < queue_weight (c_queue c) + worker_weight w.

Lemma quiet_costs w c out :
  seen out.1 = seen c → outcome_busy out.2 → outcome_weight out.2 < worker_weight w → costs w c out.
Proof. intros [Hk Hq]%seen_kept Hb Hw. unfold costs. rewrite Hq. split_conj; [done|done|done|lia]. Qed.

Lemma phase_step_costs w c : closing c → in_handler w → costs w c (phase_step w c).
Proof.
  intros Hc Hw. destruct w as [|job|j|j r|b|b|]; try done.
  - assert ((∀ j, job ≠ FlushJob j) → (∀ reason, job ≠ StopWorker reason) →
      costs (Taken job) c ((r ← attempt (handle_job job);
        (match r with Ok _ => mret tt | Raise _ => inc_runtime worker_jobs_failed end) ;; mret (Handled false)) c)) as Hother.
    { intros Hj _. pose proof (job_weight_pos job). pose proof (quiet_handle c Hc job Hj c eq_refl) as Hs.
      unfold mbind, M_bind, attempt. destruct (handle_job job c) as [c1 [[]|e]]; apply quiet_costs; try done; simpl; lia. }
    destruct job as [i|j| | |]; cbn [phase_step]; try (by apply Hother); [|].
    + pose proof (quiet_lock c (f_shard_index j) (flush_check_locked j) c eq_refl) as Hs.
      unfold flush_check, mbind, M_bind. destruct (with_lock _ _ c) as [c1 [[]|e]]; apply quiet_costs; try done; cbn; lia.
    + apply quiet_costs; try done.
  - pose proof (quiet_source c (apply_write_back j) c eq_refl) as Hs.
    cbn [phase_step]. unfold flush_apply, mbind, M_bind, attempt.
    destruct (with_source _ c) as [c1 r]; apply quiet_costs; try done; cbn; lia.
  - cbn [phase_step]. unfold mbind, M_bind. destruct r as [u|e]; cbn [flush_end].
    + pose proof (quiet_lock c (f_shard_index j) (λ sh, (flush_finish_locked j sh, true)) c eq_refl) as Hs.
      destruct (with_lock _ _ c) as [c1 [b|e]]; apply quiet_costs; try done; cbn; lia.
    + destruct (flush_failed_load j c) as (Hk & Hh & Hq). destruct (flush_failed j c) as [c1 [b|e']];
        cbn [fst] in *; (split; [done|split; [done|split; [done|cbn; lia]]]).
  - by apply quiet_costs.
Qed.

(** ** Threads of a stopped cache *)

(** A worker that can do nothing more: it has ended, or its job's put waits for [close]. *)
Definition worker_done c w : Prop :=
  w = Exited ∨ c_state c = CLOSING ∧ ∃ i key value ttl supplied, w = Taken (PreloadKey i key (Ok value) ttl supplied).

(** Both stop events are set. *)
Record stopping (s : running) : Prop := {
  sp_closing : closing (run_cache s);
  sp_event : wp_stop_event (c_pool (run_cache s)) = true;
  sp_stop : sch_stop (c_scheduler (run_cache s)) = true;
}.
Lemma stopping_kept s c ws t : kept (run_cache s) c → stopping s → stopping (mkRunning c ws t).
Proof.
  intros (E1 & E2 & E3 & _) []. split; unfold closing; cbn [run_cache]; by rewrite ?E1, ?E2, ?E3.
Qed.

Definition ticker_weight (n : nat) t : Z :=
  match t with Waiting => 1 | Ticking index => 2 + 4 * Z.max 0 (Z.of_nat n - index) | Stopped => 0 end.
Definition threads_weight (s : running) : Z :=
  queue_weight (c_queue (run_cache s)) + py_sum (worker_weight <$> run_workers s)
  + ticker_weight (length (c_shards (run_cache s))) (run_ticker s).

Lemma threads_weight_nonneg s : 0 ≤ threads_weight s.
Proof.
  unfold threads_weight. pose proof (queue_weight_nonneg (c_queue (run_cache s))).
  assert (0 ≤ py_sum (worker_weight <$> run_workers s)).
  { apply py_sum_nonneg, Forall_fmap, Forall_forall. intros w _. apply worker_weight_nonneg. }
  assert (0 ≤ ticker_weight (length (c_shards (run_cache s))) (run_ticker s)) by (destruct (run_ticker s); simpl; lia).
  lia.
Qed.

(** A worker of a stopped pool is done, or its action brings it nearer to the end. *)
Lemma worker_run_stopping c w :
  closing c → wp_stop_event (c_pool c) = true →
  (worker_done c w ∧ worker_run w c = (c, Ok w)) ∨
  ∃ c' w', worker_run w c = (c', Ok w') ∧ kept c c' ∧
    queue_weight (c_queue c') + worker_weight w' < queue_weight (c_queue c) + worker_weight w ∧
    (0 ≤ queue_held (c_queue c) - phase_busy w →
     queue_held (c_queue c') - phase_busy w' = queue_held (c_queue c) - phase_busy w).
Proof.
  intros Hc He.
  assert (∀ w, in_handler w → ∃ c' w', (r ← attempt (phase_step w);
      match r with Ok w' => mret w' | Raise _ => record_worker_failure ;; mret (Handled false) end) c = (c', Ok w') ∧
    kept c c' ∧ queue_weight (c_queue c') + worker_weight w' < queue_weight (c_queue c) + worker_weight w ∧
    queue_held (c_queue c') - phase_busy w' = queue_held (c_queue c) - 1) as Hhandler.
  { intros w1 Hw. destruct (phase_step_costs w1 c Hc Hw) as (Hk & Hh & Hb & Hq).
    unfold mbind, M_bind, attempt. destruct (phase_step w1 c) as [c1 [w2|e]]; cbn in *;
      (eexists; eexists; split_conj; [reflexivity|done|done|]); cbn; lia. }
  destruct w as [|job|j|j r|b|stop|]; unfold worker_run; rewrite run_bind; cbn [get_state].
  - right. destruct (queue_get (c_queue c)) as [[job q]|] eqn:E.
    + destruct (queue_get_load _ _ _ E) as [Hh Hw]. exists (set_queue q c), (Taken job).
      split_conj; [done|done|cbn [worker_weight set_queue c_queue]; lia|cbn; lia].
    + rewrite He. exists c, Exited. split_conj; [done|done|cbn [worker_weight]; lia|done].
  - assert (∀ i key v ttl sup, job = PreloadKey i key (Ok v) ttl sup → c_state c = CLOSING → worker_done c (Taken job)) as Hblock
      by (intros; right; split; [done|]; eauto 10 with f_equal).
    destruct (Hhandler (Taken job) I) as (c1 & w1 & E & Hk & Hw & Hh).
    destruct Hc as [Hs|Hs]; rewrite Hs; destruct job as [| |? ? [] ? ?| |];
      try (right; exists c1, w1; by split_conj). left. split; [by eapply Hblock|done].
  - right. destruct (Hhandler (Checked j) I) as (c1 & w1 & E & Hk & Hw & Hh). exists c1, w1. by split_conj.
  - right. destruct (Hhandler (Applied j r) I) as (c1 & w1 & E & Hk & Hw & Hh). exists c1, w1. by split_conj.
  - right. destruct (Hhandler (Flushed b) I) as (c1 & w1 & E & Hk & Hw & Hh). exists c1, w1. by split_conj.
  - right. unfold mbind, M_bind, attempt, with_queue, queue_task_done, mbind, M_bind, get_state, put_state. 
    destruct (Z.leb_spec (q_unfinished (c_queue c)) 0).
    + cbn. eexists; eexists; split_conj; [reflexivity|done|cbn; lia|]. unfold queue_held, queue_depth. cbn. lia.
    + cbn. eexists; eexists; split_conj; [reflexivity|done| |].
      * unfold queue_weight. cbn [q_items set_queue c_queue]. destruct stop; cbn [worker_weight]; lia.
      * intros _. unfold queue_held, queue_depth. cbn. destruct stop; cbn; lia.
  - left. split; [by left|done].
Qed.
Lemma scheduler_run_stopping c t :
  sch_stop (c_scheduler c) = true →
  (t = Stopped ∧ scheduler_run t c = (c, Ok t)) ∨
  ∃ c' t', scheduler_run t c = (c', Ok t') ∧ kept c c' ∧
    queue_weight (c_queue c') + ticker_weight (length (c_shards c)) t'
      < queue_weight (c_queue c) + ticker_weight (length (c_shards c)) t ∧
    queue_held (c_queue c') = queue_held (c_queue c).
Proof.
  intros Hs. destruct t as [|index|]; unfold scheduler_run; rewrite run_bind; cbn [get_state].
  - right. rewrite Hs. exists c, Stopped. split_conj; [done|done|cbn [ticker_weight]; lia|done].
  - right. destruct (Z.ltb_spec index (Z.of_nat (length (c_shards c)))).
    + destruct (queue_put_load (c_queue c) (ExpireShard index) false) as [Hh Hw]. cbn [job_weight] in Hw.
      eexists; eexists; split_conj; [reflexivity|done|cbn [ticker_weight set_queue c_queue]; lia|done].
    + exists c, Waiting. split_conj; [done|done|cbn [ticker_weight]; lia|done].
  - by left.
Qed.

Definition thread_done (s : running) (i : nat) : Prop :=
  match run_workers s !! i with Some w => worker_done (run_cache s) w | None => run_ticker s = Stopped end.
(** The tasks that are counted as unfinished are those queued and those held by the workers. *)
Definition accounted (s : running) : Prop := queue_held (c_queue (run_cache s)) = busy_workers (run_workers s).

Lemma act_stopping s i :
  stopping s →
  (thread_done s i ∧ thread_act s i = s) ∨
  (stopping (thread_act s i) ∧ kept (run_cache s) (run_cache (thread_act s i)) ∧
   length (run_workers (thread_act s i)) = length (run_workers s) ∧
   threads_weight (thread_act s i) < threads_weight s ∧ (accounted s → accounted (thread_act s i))).
Proof.
  intros Hs. pose proof Hs as [Hc He Ht]. unfold thread_done, thread_act, accounted. destruct s as [c ws t].
  cbn [run_cache run_workers run_ticker] in *. destruct (ws !! i) as [w|] eqn:Hw.
  - destruct (worker_run_stopping c w Hc He) as [[Hd ->]|(c' & w' & -> & Hk & Hlt & Hh)].
    { left. split; [done|]. by rewrite list_insert_id. }
    right. split_conj; [by eapply (stopping_kept (mkRunning c ws t))|done|cbn [run_workers]; by rewrite length_insert| |].
    + unfold threads_weight. cbn [run_cache run_workers run_ticker].
      rewrite (py_sum_insert _ _ _ w w' Hw). destruct Hk as (_ & _ & _ & ->). lia.
    + cbn [run_cache run_workers]. intros Ha. rewrite (busy_workers_insert _ _ w w' Hw).
      pose proof (busy_workers_insert _ _ w Idle Hw) as Hb. pose proof (busy_workers_nonneg (<[i:=Idle]> ws)).
      cbn [phase_busy] in Hb. lia.
  - destruct (scheduler_run_stopping c t Ht) as [[Hd ->]|(c' & t' & -> & Hk & Hlt & Hh)]; [by left|].
    right. split_conj; [by eapply (stopping_kept (mkRunning c ws t))|done|done| |].
    + unfold threads_weight. cbn [run_cache run_workers run_ticker]. destruct Hk as (_ & _ & _ & ->). lia.
    + cbn [run_cache run_workers]. lia.
Qed.

Lemma run_threads_cons i schedule s : run_threads (i :: schedule) s = run_threads schedule (thread_act s i).
Proof. done. Qed.
Lemma run_threads_app l1 l2 s : run_threads (l1 ++ l2) s = run_threads l2 (run_threads l1 s).
Proof. apply foldl_app. Qed.

(** Along a schedule: nothing happened, because every thread in it is done, or the threads are nearer to the end. *)
Lemma run_stopping schedule s :
  stopping s →
  let s' := run_threads schedule s in
  stopping s' ∧ kept (run_cache s) (run_cache s') ∧ length (run_workers s') = length (run_workers s) ∧
  (accounted s → accounted s') ∧
  (s' = s ∧ Forall (thread_done s) schedule ∨ threads_weight s' < threads_weight s).
Proof.
  revert s. induction schedule as [|i schedule IH]; intros s Hs; cbv zeta.
  { split_conj; [done|done|done|done|by left]. }
  rewrite run_threads_cons. destruct (act_stopping s i Hs) as [[Hd E]|(Hs1 & Hk1 & Hl1 & Hw1 & Ha1)].
  - rewrite E. destruct (IH s Hs) as (? & ? & ? & ? & Hor). split_conj; try done.
    destruct Hor as [[E' Hf]|]; [left|by right]. split; [done|]. by apply Forall_cons.
  - destruct (IH _ Hs1) as (? & Hk & Hl & Ha & Hor).
    split_conj; [done|by eapply kept_trans|congruence|by intros ?%Ha1%Ha|].
    right. destruct Hor as [[-> _]|]; lia.
Qed.

(** Rounds in which every thread acts at least once. *)
Definition fair_round (n : nat) (round : list nat) : Prop := ∀ i, (i ≤ n)%nat → i ∈ round.

Lemma done_thread_stays s i : thread_done s i → thread_act s i = s.
Proof.
  unfold thread_done, thread_act. destruct s as [c ws t]. cbn [run_cache run_workers run_ticker].
  destruct (ws !! i) as [w|] eqn:Hw; [|by intros ->].
  intros [->|(Hc & j & key & v & ttl & sup & ->)]; unfold worker_run; rewrite run_bind; cbn [get_state];
    [|rewrite Hc]; cbn; by rewrite list_insert_id.
Qed.
Lemma all_done s n : (length (run_workers s) ≤ n)%nat → (∀ i, (i ≤ n)%nat → thread_done s i) → ∀ i, thread_done s i.
Proof.
  intros Hn Hd i. destruct (decide (i ≤ n)%nat) as [Hi|Hi]; [by apply Hd|].
  specialize (Hd n ltac:(lia)). unfold thread_done in *. by rewrite !lookup_ge_None_2 in * by lia.
Qed.
Lemma done_stay schedule s : (∀ i, thread_done s i) → run_threads schedule s = s.
Proof.
  intros Hd. induction schedule as [|i schedule IH]; [done|]. by rewrite run_threads_cons, done_thread_stays.
Qed.

(** Every action of a thread that is not done costs something, so the weight is enough rounds. *)
Lemma rounds_settle rounds s :
  stopping s → Forall (fair_round (length (run_workers s))) rounds →
  threads_weight s < Z.of_nat (length rounds) → ∀ i, thread_done (run_threads (mjoin rounds) s) i.
Proof.
  revert s. induction rounds as [|round rounds IH]; intros s Hs Hf Hlen.
  { pose proof (threads_weight_nonneg s). simpl in Hlen. lia. }
  apply Forall_cons in Hf as [Hr Hf]. cbn [mjoin list_join foldr]. rewrite run_threads_app.
  destruct (run_stopping round s Hs) as (Hs1 & _ & Hl1 & _ & [[E Hd]|Hw]).
  - rewrite E. rewrite Forall_forall in Hd.
    assert (∀ i, thread_done s i) as Hall by (apply (all_done s (length (run_workers s))); [done|intros i Hi; by apply Hd, Hr]).
    by rewrite done_stay.
  - apply IH; [done|by rewrite Hl1|]. cbn [length] in Hlen. lia.
Qed.

Lemma settled s :
  (∀ i, thread_done s i) → Forall (worker_done (run_cache s)) (run_workers s) ∧ run_ticker s = Stopped.
Proof.
  intros Hd. split.
  - apply Forall_lookup. intros i w Hw. specialize (Hd i). unfold thread_done in Hd. by rewrite Hw in Hd.
  - specialize (Hd (length (run_workers s))). unfold thread_done in Hd. by rewrite lookup_ge_None_2 in Hd by lia.
Qed.

(** ** [WorkerPool.stop] *)

Lemma offer_load n c :
  let c' := offer_sentinels n c in
  kept c c' ∧ queue_held (c_queue c') = queue_held (c_queue c) ∧
  queue_weight (c_queue c') ≤ queue_weight (c_queue c) + 3 * Z.of_nat n.
Proof.
  unfold offer_sentinels. cbv zeta. induction n as [|n IH]; [by split_conj; [| |simpl; lia]|].
  rewrite Nat.iter_succ. destruct IH as (Hk & Hh & Hw). set (c1 := Nat.iter n _ c) in *.
  unfold queue_offer. destruct (queue_full (c_queue c1)); cbn [fst set_queue c_queue].
  - split_conj; [done|done|lia].
  - rewrite queue_held_push, queue_weight_push. split_conj; [done|done|cbn [job_weight]; lia].
Qed.

(** The state in which [stop] joins the workers. *)
Definition stop_set (s : running) : running :=
  on_cache_of (λ c, offer_sentinels (length (run_workers s))
    (set_pool (mkPool (wp_count (c_pool c)) true (wp_threads (c_pool c)) true) c)) s.

Lemma stop_set_stopping s :
  closing (run_cache s) → sch_stop (c_scheduler (run_cache s)) = true →
  stopping (stop_set s) ∧ run_workers (stop_set s) = run_workers s ∧ (accounted s → accounted (stop_set s)) ∧
  c_state (run_cache (stop_set s)) = c_state (run_cache s) ∧
  threads_weight (stop_set s) ≤ threads_weight s + 3 * Z.of_nat (length (run_workers s)).
Proof.
  intros Hc Hs. unfold stop_set, on_cache_of, accounted, threads_weight. destruct s as [c ws t].
  cbn [run_cache run_workers run_ticker] in *.
  set (c1 := set_pool _ c). destruct (offer_load (length ws) c1) as ((E1 & E2 & E3 & E4) & Hh & Hw).
  split_conj; [split; unfold closing; cbn [run_cache]; rewrite ?E1, ?E2, ?E3; done|done| |done|].
  - rewrite Hh. done.
  - rewrite E4. subst c1. cbn [set_pool c_shards c_queue] in *. lia.
Qed.

Lemma drain_run c :
  0 ≤ queue_held (c_queue c) →
  (with_queue queue_drain c).1 =
  set_queue (mkQueue [] (q_maxsize (c_queue c)) (queue_held (c_queue c)) (q_dropped (c_queue c))) c.
Proof.
  intros Hh. unfold with_queue, queue_drain. rewrite run_bind. cbn [get_state].
  rewrite drain_loop_spec; [done|lia|]. unfold queue_held in Hh. lia.
Qed.

Lemma busy_join_all ws : busy_workers (join_all ws) = busy_workers ws.
Proof.
  unfold join_all, busy_workers. induction ws as [|w ws IH]; [done|].
  rewrite filter_cons. destruct w; cbn [worker_alive]; rewrite ?decide_True, ?decide_False by done; csimpl; lia.
Qed.

(** ** Properties *)

(** C10: no thread outlives its stop event.  Once the cache is closing and both stop events are set, then
    however the workers and the scheduler are interleaved, whatever is still queued and however often the source
    fails, all threads have ended after as many rounds as [threads_weight] says, which depends only on
    the queue (with the retries left of its jobs) and on the phases the threads are in.  The only exception is a worker whose
    [PreloadKey] job waits for the lifecycle lock that [close] holds; when the cache is closed there is none.  And the queue
    counts as unfinished exactly what is queued or held, so that no [task_done] raises. *)
Theorem stopped_threads_end (rounds : list (list nat)) (s : running) :
  stopping s → Forall (fair_round (length (run_workers s))) rounds →
  threads_weight s < Z.of_nat (length rounds) →
  let s' := run_threads (mjoin rounds) s in
  run_ticker s' = Stopped ∧
  Forall (λ w, w = Exited ∨ c_state (run_cache s) = CLOSING ∧
    ∃ i key value ttl supplied, w = Taken (PreloadKey i key (Ok value) ttl supplied)) (run_workers s') ∧
  (c_state (run_cache s) = CLOSED → cache_alive_threads s' = []) ∧
  (accounted s → accounted s').
Proof.
  intros Hs Hf Hw s'. destruct (settled s' (rounds_settle rounds s Hs Hf Hw)) as [Hd Ht].
  destruct (run_stopping (mjoin rounds) s Hs) as (_ & (E & _) & _ & Ha & _). fold s' in E, Ha.
  unfold worker_done in Hd. rewrite E in Hd. split_conj; [done|done| |done].
  intros Hc. rewrite Hc in Hd. unfold cache_alive_threads. rewrite Ht, app_nil_r.
  assert (alive_threads s' = []) as ->; [|done]. unfold alive_threads, join_all.
  induction Hd as [|w ws [->|[? _]] _ IH]; [done| |done]. by rewrite filter_cons.
Qed.

(** C11: [WorkerPool.stop].  On a closing cache whose scheduler has been told to stop, and however far the workers get before the
    joins time out, [stop] leaves an empty queue whose unfinished tasks are those of the surviving threads, and records
    just the survivors; given enough rounds, the survivors are workers that wait for [close] in a [PreloadKey] job, and the scheduler has
    ended, so that a cache without such jobs is left by all its threads. *)
Theorem pool_stop_joins (schedule : list nat) (s : running) :
  closing (run_cache s) → sch_stop (c_scheduler (run_cache s)) = true →
  wp_started (c_pool (run_cache s)) = true → accounted s →
  let s' := stop_workers schedule s in
  q_items (c_queue (run_cache s')) = [] ∧
  q_unfinished (c_queue (run_cache s')) = busy_workers (run_workers s') ∧
  wp_started (c_pool (run_cache s')) = false ∧
  wp_threads (c_pool (run_cache s')) = Z.of_nat (length (run_workers s')) ∧
  Forall (λ w, worker_alive w = true) (run_workers s') ∧
  (∀ rounds, schedule = mjoin rounds → Forall (fair_round (length (run_workers s))) rounds →
     threads_weight s + 3 * Z.of_nat (length (run_workers s)) < Z.of_nat (length rounds) →
     run_ticker s' = Stopped ∧
     Forall (λ w, c_state (run_cache s) = CLOSING ∧
       ∃ i key value ttl supplied, w = Taken (PreloadKey i key (Ok value) ttl supplied)) (run_workers s')).
Proof.
  intros Hc Hsch Hst Ha. destruct (stop_set_stopping s Hc Hsch) as (Hs1 & Hw1 & Ha1 & Hcs & Hwt).
  destruct (run_stopping schedule _ Hs1) as (_ & (E & _) & _ & Ha2 & _). specialize (Ha2 (Ha1 Ha)). rewrite Hcs in E.
  unfold stop_workers. rewrite Hst. fold (stop_set s). cbv zeta.
  set (s2 := run_threads schedule (stop_set s)) in *. unfold on_cache_of. cbn [run_cache run_workers run_ticker].
  pose proof (busy_workers_nonneg (run_workers s2)). unfold accounted in Ha2.
  rewrite drain_run by (cbn [set_pool c_queue]; lia). cbn [set_pool set_queue c_queue c_pool q_items q_unfinished wp_started wp_threads].
  split_conj; [done|by rewrite busy_join_all|done|done| |].
  - apply Forall_forall. intros w [Hw _]%list_elem_of_filter. done.
  - intros rounds -> Hf Hlen.
    assert (∀ i, thread_done s2 i) as Hd by (apply rounds_settle; [done|by rewrite Hw1|lia]).
    destruct (settled s2 Hd) as [Hwd Ht]. split; [done|]. unfold worker_done in Hwd. rewrite E in Hwd.
    rewrite Forall_forall in *. intros w [Hal Hin]%list_elem_of_filter. by destruct (Hwd w Hin) as [->|?].
Qed.
End threads.
#[global] Arguments running : clear implicits.

(** ** Concrete runs *)

(** A cache with two workers, one put queued to be written back, and [close] at its first lines; the
    scheduler is in the middle of a tick. *)
Definition closing_cache (m : M (Cache Z Z (AnyPolicy Z)) unit) : Cache Z Z (AnyPolicy Z) :=
  let c := run m (run cache_start (demo_cache "lru" "write-back" 2 0)) in
  set_state CLOSING (set_scheduler (scheduler_stop (c_scheduler c)) c).
Definition closing_threads (m : M (Cache Z Z (AnyPolicy Z)) unit) : running Z Z (AnyPolicy Z) :=
  mkRunning (closing_cache m) [Idle; Idle] (Ticking 0).
Definition one_put : M (Cache Z Z (AnyPolicy Z)) unit := cache_put 1 10 TTL_UNSET.

Lemma fair_rounds n k : Forall (fair_round k) (replicate n (seq 0 (S k))).
Proof. apply Forall_replicate. intros i Hi. apply elem_of_seq. lia. Qed.

Lemma stopped_threads_end_witness :
  let s := stop_set (closing_threads one_put) in
  let s' := run_threads (mjoin (replicate 60 (seq 0 3))) s in
  stopping s ∧ queue_depth (c_queue (run_cache s)) = 3 ∧ threads_weight s = 32 ∧
  run_ticker s' = Stopped ∧ run_workers s' = [Exited; Exited].
Proof.
  intros s s'.
  assert (stopping s) as Hs by (split; [by left|done|done]).
  assert (threads_weight s = 32) as Hw by (vm_compute; reflexivity).
  destruct (stopped_threads_end (replicate 60 (seq 0 3)) s Hs (fair_rounds 60 2)) as (Ht & Hd & _ & _).
  { rewrite Hw. done. }
  split_conj; [exact Hs|vm_compute; reflexivity|exact Hw|exact Ht|vm_compute; reflexivity].
Defined.

Lemma pool_stop_joins_witness :
  let s' := stop_workers (mjoin (replicate 60 (seq 0 3))) (closing_threads one_put) in
  q_items (c_queue (run_cache s')) = [] ∧ q_unfinished (c_queue (run_cache s')) = 0 ∧ run_workers s' = [] ∧
  run_ticker s' = Stopped ∧ sd_data (c_source (run_cache s')) = [(1, 10)].
Proof.
  intros s'.
  destruct (pool_stop_joins (mjoin (replicate 60 (seq 0 3))) (closing_threads one_put)) as (Hq & Hu & _ & _ & _ & Hr);
    [by left|reflexivity|reflexivity|vm_compute; reflexivity|].
  destruct (Hr (replicate 60 (seq 0 3)) eq_refl (fair_rounds 60 2)) as [Ht _]; [vm_compute; reflexivity|].
  split_conj; [exact Hq|vm_compute; reflexivity|vm_compute; reflexivity|exact Ht|vm_compute; reflexivity].
Defined.

(** A [PreloadKey] job taken while [close] runs keeps its worker: [stop] ends with a live thread and an unfinished
    task, however long it waits. *)
Lemma preload_outlives_stop :
  let s' := stop_workers (mjoin (replicate 60 (seq 0 3)))
              (closing_threads (cache_preload 7 (Ok 70) TTL_UNSET ;; mret tt)) in
  run_workers s' = [Taken (PreloadKey 0 7 (Ok 70) None false)] ∧
  wp_threads (c_pool (run_cache s')) = 1 ∧ q_unfinished (c_queue (run_cache s')) = 1.
Proof. vm_compute. done. Qed.
