(* ===== verification/Calls.v ===== *)
(** The calls of the clients, as other threads see them.

    A worker that flushes a job, or [close], is interrupted by the clients of the cache.  What it can rely
    on meanwhile is that no call writes to the source of a write-back cache, and that no call makes an entry clean
    ([client_call_safe]).  Calls that leave flush jobs to be enqueued end, for the others, with their
    critical section ([client_commit]). *)

From stdpp Require Import base tactics numbers option strings sets list relations.
From S2P Require Import Prelude PyDict PyFloat PyMonad Config Entry Policies PolicyLaws.
From S2P Require Import Storage Jobs Shard ShardInv ShardSpec Cache CacheInv CacheSafety.
From S2P Require Import Reach CacheSpec Lifecycle WriteBackInv WriteBack.
Local Open Scope string_scope.
Local Open Scope list_scope.
Local Open Scope Z_scope.

Create HintDb safedb.

(** ** Calls of the clients *)

Section calls.
Context {K V P : Type} `{EqDecision K} `{KeyHash K} `{PyNone V} `{HP : EvictionPolicy K P}.
Implicit Types (c : Cache K V P) (sh : CacheShard K V P) (key k : K) (value : V).

(** Time passes, the scheduler ticks, the source is about to fail: what happens at any time. *)
Inductive ambient : Cache K V P → Cache K V P → Prop :=
  | ambient_tick c : ambient c (set_queue (tick_once (Z.of_nat (length (c_shards c))) (c_queue c)) c)
  | ambient_clock seconds clock c :
      clock_advance (c_clock c) seconds = Ok clock → ambient c (set_clock clock c)
  | ambient_source_failures n c : ambient c (with_source (fail_next n) c).1.

(** The steps of [cache_step] that no other thread can interrupt, or that hold no flush job when they are. *)
Inductive client_call : Cache K V P → Cache K V P → Prop :=
  | call_start c : client_call c (cache_start c).1
  | call_get key dflt c : client_call c (cache_get key dflt c).1
  | call_contains key c : client_call c (cache_contains key c).1
  | call_inspect key c : client_call c (cache_inspect key c).1
  | call_dump limit c : client_call c (cache_dump limit c).1
  | call_expire_all c : client_call c (expire_all c).1
  | call_preload key loader ttl c : client_call c (cache_preload key loader ttl c).1
  | call_request_snapshot id c : client_call c (request_snapshot id c).1
  | call_scheduler_tick c : client_call c (scheduler_tick c).1
  | call_restore key n c : client_call c (restore_entry_metadata key n c).1
  | call_get_or_compute key loader ttl c :
      client_call c (get_or_compute key (lift loader) ttl (mret tt) c).1.

(** The first half of a call that leaves flush jobs to be enqueued, with these jobs. *)
Inductive client_commit : Cache K V P → Cache K V P → list (FlushWriteBack K V) → Prop :=
  | commit_put key value ttl c c' r :
      put_commit key value ttl c = (c', r) → client_commit c c' (jobs_of r)
  | commit_delete key c c' r :
      (p ← delete_commit key; mret p.2) c = (c', r) → client_commit c c' (jobs_of r).

(** ** No call makes an entry clean *)

(** What a walk through a shard may do to it: at least some housekeeping. *)
Class Walkable (R : relation (CacheShard K V P)) : Prop := {
  walk_preorder :: PreOrder R;
  walk_evolves sh sh' : shard_evolves sh sh' → R sh sh';
  walk_backend sh sh' : sh_backend sh' = sh_backend sh → R sh sh';
}.

(** Every clean entry was there before, clean and with its value. *)
Definition shard_dirtier sh sh' : Prop :=
  ∀ k x', dict_get (sh_backend sh') k = Some x' → e_dirty x' = false →
    ∃ x, dict_get (sh_backend sh) k = Some x ∧ e_dirty x = false ∧ e_value x' = e_value x.
#[export] Instance shard_dirtier_preorder : PreOrder shard_dirtier.
Proof.
  split; [intros sh k x Hx Hd; eauto|]. intros sh1 sh2 sh3 H12 H23 k x3 Hx3 Hd3.
  destruct (H23 k x3 Hx3 Hd3) as (x2 & Hx2 & Hd2 & ->). by apply H12.
Qed.
Lemma evolves_dirtier sh sh' : shard_evolves sh sh' → shard_dirtier sh sh'.
Proof.
  intros He k x' Hx' Hd. destruct (kv_entry _ _ _ _ _ _ (He k) x' Hx') as (x & Hx & _ & Hv & Hdx).
  exists x. split_conj; congruence.
Qed.
Lemma backend_dirtier sh sh' : sh_backend sh' = sh_backend sh → shard_dirtier sh sh'.
Proof. intros Hb k x. rewrite Hb. eauto. Qed.

#[export] Instance dirtier_walkable : Walkable shard_dirtier.
Proof. split; [apply _|apply evolves_dirtier|apply backend_dirtier]. Qed.

(** Every entry was there before, with its version and value, and none became dirty. *)
Definition shard_keeps sh sh' : Prop :=
  ∀ k x', dict_get (sh_backend sh') k = Some x' →
    ∃ x, dict_get (sh_backend sh) k = Some x ∧ e_version x' = e_version x ∧ e_value x' = e_value x ∧
         (e_dirty x' = true → e_dirty x = true).
#[export] Instance keeps_walkable : Walkable shard_keeps.
Proof.
  split.
  - split; [intros sh k x Hx; eauto|]. intros sh1 sh2 sh3 H12 H23 k x3 Hx3.
    destruct (H23 k x3 Hx3) as (x2 & Hx2 & -> & -> & Hd2). destruct (H12 k x2 Hx2) as (x1 & Hx1 & -> & -> & Hd1).
    eauto 7.
  - intros sh sh' He k x' Hx'. destruct (kv_entry _ _ _ _ _ _ (He k) x' Hx') as (x & Hx & Hv & Hva & Hdx).
    exists x. split_conj; congruence.
  - intros sh sh' Hb k x. rewrite Hb. eauto.
Qed.
Lemma mark_clean_keeps job sh : shard_keeps sh (mark_clean job sh).
Proof.
  intros k x'. unfold mark_clean. destruct (get_entry _ _) as [e|] eqn:E; [|by eauto].
  destruct (_ =? _); [|by eauto]. simpl. rewrite update_entry_get. case_decide; [|by eauto].
  intros (x & Hx & ->)%fmap_Some. exists x. by split_conj.
Qed.

Context `{!PolicyLaws K P}.

Lemma put_dirtier dttl n now key value ttl sh src :
  let '((sh', src'), _) := put_locked WRITE_BACK dttl n now key value ttl (sh, src) in
  shard_dirtier sh sh' ∧ src' = src.
Proof.
  unfold put_locked. pose proof (evolves_dirtier _ _ (evolves_put_expire now key sh)) as H1.
  destruct (put_expire now key sh) as [sh1 ex]. cbn [fst] in H1. rewrite put_store_eq. split; [|done].
  transitivity sh1; [exact H1|]. set (sh2 := put_insert _ _ _ _ _ _ _ sh1).
  transitivity sh2;
    [|transitivity (enforce_capacity_locked sh2); [apply evolves_dirtier, evolves_enforce|by apply backend_dirtier]].
  intros k x. cbn. unfold put_entry. rewrite new_entry_key, dict_get_set.
  case_decide; [|eauto]. intros [= <-]. by rewrite new_entry_dirty.
Qed.
Lemma delete_key_dirtier n key sh src :
  let '((sh', src'), _) := delete_key_locked WRITE_BACK n key (sh, src) in shard_dirtier sh sh' ∧ src' = src.
Proof.
  unfold delete_key_locked. pose proof (mark_deleted_fields n key sh) as (Fb & _).
  destruct (mark_deleted n key sh) as [sh1 job]. cbn [fst] in Fb.
  pose proof (evolves_dirtier _ _ (evolves_remove key RDelete sh1)) as H2.
  destruct (remove_entry_locked key RDelete sh1) as [sh2 existed]. cbn [fst] in H2. split; [|done].
  etrans; [apply backend_dirtier, Fb|]. etrans; [exact H2|]. apply backend_dirtier. by destruct existed.
Qed.
Lemma delete_dirtier n key sh src :
  let '((sh', src'), _) := delete_locked WRITE_BACK n key (sh, src) in shard_dirtier sh sh' ∧ src' = src.
Proof.
  unfold delete_locked, mbind, M_bind. pose proof (delete_key_dirtier n key sh src) as Hd.
  destruct (delete_key_locked WRITE_BACK n key (sh, src)) as [[sh1 src1] [r|e]]; [|done]. cbn.
  destruct Hd as [Hd ->]. split; [|done]. etrans; [exact Hd|by apply backend_dirtier].
Qed.
Lemma clear_keys_dirtier n keys sh src :
  let '((sh', src'), _) := clear_keys_locked WRITE_BACK n keys (sh, src) in shard_dirtier sh sh' ∧ src' = src.
Proof.
  revert sh. induction keys as [|key keys IH]; intros sh; [done|]. cbn [clear_keys_locked]. unfold mbind, M_bind.
  pose proof (delete_key_dirtier n key sh src) as Hd.
  destruct (delete_key_locked WRITE_BACK n key (sh, src)) as [[sh1 src1] [[b job]|e]]; [|done]. destruct Hd as [Hd ->].
  specialize (IH sh1). destruct (clear_keys_locked WRITE_BACK n keys (sh1, src)) as [[sh2 src2] [r|e]];
    destruct IH as [IH ->]; (split; [by etrans|done]).
Qed.
Lemma clear_dirtier n sh src :
  let '((sh', src'), _) := clear_locked WRITE_BACK n (sh, src) in shard_dirtier sh sh' ∧ src' = src.
Proof.
  unfold clear_locked, mbind, M_bind, get_state.
  pose proof (clear_keys_dirtier n (backend_keys (sh_backend sh)) sh src) as Hd.
  destruct (clear_keys_locked _ _ _ _) as [[sh1 src1] [r|e]]; [|done]. destruct Hd as [Hd ->]. cbn.
  split; [|done]. etrans; [exact Hd|by apply backend_dirtier].
Qed.

(** *** Along a call *)

Section walk.
Context (R : relation (CacheShard K V P)) `{!Walkable R} (c0 : Cache K V P).

(** Seen from [c0]: the shards did nothing but [R], the source holds what it held, and a pool that ran still runs. *)
Record call_safe c : Prop := {
  cs_mode : c_write_mode c = WRITE_BACK;
  cs_data : sd_data (c_source c) = sd_data (c_source c0);
  cs_shards i sh' : c_shards c !! i = Some sh' → ∃ sh, c_shards c0 !! i = Some sh ∧ R sh sh';
  cs_started : wp_started (c_pool c0) = true → wp_started (c_pool c) = true;
}.
Local Abbreviation safe := (keeps call_safe).

Lemma safe_field f :
  (∀ c, c_write_mode (f c) = c_write_mode c ∧ sd_data (c_source (f c)) = sd_data (c_source c) ∧
        c_shards (f c) = c_shards c ∧ (wp_started (c_pool c) = true → wp_started (c_pool (f c)) = true)) →
  safe (modify f).
Proof.
  intros Hf c [Hm Hd Hs Hp]. destruct (Hf c) as (E1 & E2 & E3 & E4). split; simpl; [by rewrite E1|by rewrite E2| |by auto].
  by rewrite E3.
Qed.
Lemma safe_lock_src {A} i (m : M (CacheShard K V P * SlowDictBackend K V) A) :
  (∀ sh src, let '((sh', src'), _) := m (sh, src) in R sh sh' ∧ src' = src) →
  safe (with_lock_src i m).
Proof.
  intros Hm c [Hmo Hd Hs Hp]. unfold with_lock_src. set (j := shard_slot _ _).
  destruct (c_shards c !! j) as [sh|] eqn:E; [|done]. specialize (Hm sh (c_source c)).
  destruct (m (sh, c_source c)) as [[sh' src'] r]. destruct Hm as [Hsh ->]. split; [done..| |done].
  intros x y. simpl. destruct (decide (x = j)) as [->|Hne].
  - rewrite list_lookup_insert_eq by (by eapply lookup_lt_Some). intros [= <-].
    destruct (Hs j sh E) as (sh0 & E0 & Hsh0). exists sh0. split; [done|by transitivity sh].
  - rewrite list_lookup_insert_ne by done. apply Hs.
Qed.
Lemma safe_lock {A} i (f : CacheShard K V P → CacheShard K V P * A) :
  (∀ sh, R sh (f sh).1) → safe (with_lock i f).
Proof. intros Hf. apply safe_lock_src. intros sh src. specialize (Hf sh). by destruct (f sh). Qed.
Lemma safe_read {A} (f : Cache K V P → M (Cache K V P) A) :
  (∀ c, c_write_mode c = WRITE_BACK → safe (f c)) → safe (c ← get_state; f c).
Proof. intros Hf c Hc. rewrite run_bind. cbn. by apply Hf; [apply Hc|]. Qed.
Lemma safe_inc_runtime f : safe (inc_runtime f).
Proof. by apply safe_field. Qed.
Lemma safe_now : safe now.
Proof. by intros c Hc. Qed.
Lemma safe_require_not_closed : safe require_not_closed.
Proof. apply keeps_bind; [apply keeps_get|]. intros c. destruct (c_state c); apply keeps_ret || apply keeps_raise. Qed.
Lemma safe_require_workers : safe require_workers.
Proof. apply keeps_bind; [apply keeps_get|]. intros c. apply keeps_if; [apply keeps_raise|apply keeps_ret]. Qed.
Lemma safe_maybe_warn : safe maybe_warn_cache_not_started.
Proof. intros c Hc. destruct (run_warn c) as [b E]. rewrite E. by apply (safe_field (set_warned b)). Qed.
Lemma safe_validate ttl : safe (validate_explicit_ttl ttl).
Proof. intros c Hw. by destruct (run_validate ttl c) as [-> | (t & _ & _ & ->)]. Qed.
Lemma safe_evolves {A} i (f : CacheShard K V P → CacheShard K V P * A) :
  (∀ sh, shard_evolves sh (f sh).1) → safe (with_lock i f).
Proof. intros Hf. apply safe_lock. intros sh. by apply walk_evolves. Qed.
Lemma safe_read_value i t key touch_entry count : safe (with_lock i (read_value_locked t key touch_entry count)).
Proof. apply safe_evolves. intros sh. apply evolves_read. Qed.
Lemma safe_inspect i t key : safe (with_lock i (inspect_locked t key)).
Proof. apply safe_evolves. intros sh. apply evolves_inspect. Qed.
Lemma safe_dump_shard i t : safe (with_lock i (dump_locked t)).
Proof. apply safe_evolves. intros sh. apply evolves_dump. Qed.
Lemma safe_expire_shard i : safe (expire_shard i).
Proof. apply keeps_bind; [apply safe_now|]. intros t. apply safe_evolves. intros sh. apply evolves_expire_keys. Qed.
Lemma safe_restore_lock i key n : safe (with_lock i (λ sh, (restore_locked key n sh, tt))).
Proof. apply safe_evolves. intros sh. apply evolves_restore. Qed.
Lemma safe_backend {A} i (f : CacheShard K V P → CacheShard K V P * A) :
  (∀ sh, sh_backend (f sh).1 = sh_backend sh) → safe (with_lock i f).
Proof. intros Hf. apply safe_lock. intros sh. by apply walk_backend. Qed.
Lemma safe_singleflight {A} i (f : CacheShard K V P → dict K nat) (a : A) :
  safe (with_lock i (λ sh, (set_singleflight (f sh) sh, a))).
Proof. by apply safe_backend. Qed.
Lemma safe_resolve {A} i key (a : A) : safe (with_lock i (λ sh, (resolve_pending_locked key sh, a))).
Proof. apply safe_backend. intros sh. apply resolve_backend. Qed.
Lemma safe_enqueue (job : Job K V) critical : safe (enqueue_job job critical).
Proof.
  apply keeps_bind; [|intros ok; repeat apply keeps_if; apply keeps_ret || apply keeps_raise].
  intros c [Hm Hd Hs Hp]. destruct (queue_put job critical (c_queue c)). by split.
Qed.

Lemma safe_sleep t : safe (sleep t).
Proof. by apply safe_field. Qed.
Lemma safe_fail_next n : safe (with_source (fail_next n)).
Proof. intros c [Hm Hd Hs Hp]. by split. Qed.
End walk.

#[local] Hint Resolve safe_inc_runtime safe_now safe_require_not_closed safe_require_workers
  safe_maybe_warn safe_validate safe_read_value safe_inspect safe_dump_shard safe_expire_shard safe_restore_lock
  safe_singleflight safe_resolve safe_enqueue
  keeps_ret keeps_raise keeps_get keeps_attempt keeps_lift : safedb.
#[local] Hint Extern 1 (Walkable _) => apply _ : safedb.
Ltac safe_tac :=
  repeat first
    [ progress (eauto 3 with safedb; try done)
    | match goal with
      | |- keeps _ (get_state ≫= _) => apply safe_read; intros ? ?
      | |- keeps _ (_ ≫= _) => apply keeps_bind; [|intros ?]
      | |- keeps _ (for_each _ _) => apply keeps_for_each; intros ? ?
      | |- keeps _ (match ?x with _ => _ end) => destruct x
      end ].

Section calls.
Context (c0 : Cache K V P).
Local Abbreviation safe := (keeps (call_safe shard_dirtier c0)).

Lemma safe_enqueue_flush jobs : safe (enqueue_flush_jobs jobs).
Proof. induction jobs as [|job jobs IH]; cbn [enqueue_flush_jobs]; unfold release_pending; safe_tac. Qed.
Lemma safe_put_commit key value ttl : safe (put_commit key value ttl).
Proof.
  unfold put_commit. do 3 (apply keeps_bind; [eauto with safedb|intros _]).
  apply safe_read. intros c ->. apply keeps_bind; [eauto with safedb|intros t].
  apply keeps_bind; [apply (safe_lock_src shard_dirtier); intros sh src; apply put_dirtier|]. intros job. apply keeps_ret.
Qed.
Lemma safe_put key value ttl : safe (cache_put key value ttl).
Proof.
  intros c Hc. rewrite put_commits. revert c Hc. apply keeps_bind; [apply safe_put_commit|apply safe_enqueue_flush].
Qed.
Lemma safe_delete_commit key : safe (delete_commit key).
Proof.
  unfold delete_commit. apply keeps_bind; [eauto with safedb|intros _]. apply safe_read. intros c ->.
  apply keeps_bind; [apply (safe_lock_src shard_dirtier); intros sh src; apply delete_dirtier|]. intros [existed job]. apply keeps_ret.
Qed.
Lemma safe_clear_shards l : safe (clear_shards l).
Proof.
  induction l as [|i l IH]; cbn [clear_shards]; [apply keeps_ret|]. apply safe_read. intros c ->.
  apply keeps_bind; [apply (safe_lock_src shard_dirtier); intros sh src; apply clear_dirtier|]. intros jobs. safe_tac.
Qed.
#[local] Hint Resolve safe_put : safedb.

Lemma safe_get key dflt : safe (cache_get key dflt).
Proof. unfold cache_get. safe_tac. Qed.
Lemma safe_contains key : safe (cache_contains key).
Proof. unfold cache_contains. safe_tac. Qed.
Lemma safe_inspect_op key : safe (cache_inspect key).
Proof. unfold cache_inspect. safe_tac. Qed.
Lemma safe_restore key n : safe (restore_entry_metadata key n).
Proof. unfold restore_entry_metadata. safe_tac. Qed.
Lemma safe_dump limit : safe (cache_dump limit).
Proof.
  assert (∀ l, safe (dump_shards l)) by (induction l as [|i l IH]; cbn [dump_shards]; safe_tac).
  unfold cache_dump. safe_tac.
Qed.
Lemma safe_expire_all : safe expire_all.
Proof.
  assert (∀ l, safe (expire_shards l)) by (induction l as [|i l IH]; cbn [expire_shards]; safe_tac).
  unfold expire_all. safe_tac.
Qed.
Lemma safe_preload key loader ttl : safe (cache_preload key loader ttl).
Proof. unfold cache_preload. safe_tac. Qed.
Lemma safe_request_snapshot id : safe (request_snapshot id).
Proof. unfold request_snapshot. safe_tac. Qed.
Lemma safe_scheduler_tick : safe scheduler_tick.
Proof. apply keeps_bind; [eauto with safedb|intros _]. by apply (safe_field shard_dirtier). Qed.
Lemma pool_start_started p : wp_started p = true → wp_started (pool_start p) = true.
Proof. unfold pool_start. intros Hs. by rewrite Hs. Qed.
Lemma safe_start : safe cache_start.
Proof.
  unfold cache_start. safe_tac; apply (safe_field shard_dirtier); try done. intros c1. split; [done|]. split; [done|].
  split; [done|apply pool_start_started].
Qed.
Lemma safe_get_or_compute key (loader : result V) ttl : safe (get_or_compute key (lift loader) ttl (mret tt)).
Proof.
  assert (∀ f, safe (modify (λ c, set_flights (f c) c))) as Hfl by (intros; by apply (safe_field shard_dirtier)).
  assert (∀ i key fid f, safe (finish_flight i key fid f)) as Hff.
  { intros i k fid f. unfold finish_flight. safe_tac. }
  assert (safe (join_flight key)) as Hj.
  { unfold join_flight, new_flight. safe_tac. by apply (safe_backend shard_dirtier). }
  assert (∀ fid, safe (lead_flight key (lift loader) ttl fid)) as Hlead.
  { intros fid. unfold lead_flight, fail_flight_locked. safe_tac. }
  unfold get_or_compute, await_flight. safe_tac.
Qed.
End calls.

(** Nobody but a worker or [close] writes to the source or makes an entry clean. *)
Lemma call_safe_refl (R : relation (CacheShard K V P)) `{!Walkable R} c :
  c_write_mode c = WRITE_BACK → call_safe R c c.
Proof. intros Hm. split; [done..| |done]. intros i sh ?. by exists sh. Qed.
Lemma client_call_safe c c' : c_write_mode c = WRITE_BACK → client_call c c' → call_safe shard_dirtier c c'.
Proof.
  intros Hm%(call_safe_refl shard_dirtier) Hc. destruct Hc.
  - by apply safe_start.
  - by apply safe_get.
  - by apply safe_contains.
  - by apply safe_inspect_op.
  - by apply safe_dump.
  - by apply safe_expire_all.
  - by apply safe_preload.
  - by apply safe_request_snapshot.
  - by apply safe_scheduler_tick.
  - by apply safe_restore.
  - by apply safe_get_or_compute.
Qed.
Lemma client_commit_safe c c' jobs : c_write_mode c = WRITE_BACK → client_commit c c' jobs → call_safe shard_dirtier c c'.
Proof.
  intros Hm%(call_safe_refl shard_dirtier) Hc. destruct Hc as [key value ttl c c' r E|key c c' r E];
    change c' with (c', r).1; rewrite <- E.
  - by apply safe_put_commit.
  - apply keeps_bind; [apply safe_delete_commit|intros p; apply keeps_ret|done].
Qed.
Lemma ambient_safe (R : relation (CacheShard K V P)) `{!Walkable R} c c' :
  c_write_mode c = WRITE_BACK → ambient c c' → call_safe R c c'.
Proof. intros Hm%(call_safe_refl R) Ha. destruct Hm, Ha; by split. Qed.
End calls.

