(* ===== verification/OneWorker.v ===== *)
(** The worker of a write-back cache, interrupted.

    [WriteBack] runs a flush job without interruption.  Here the worker is the thread of [Pool.worker_run], which other
    threads interrupt between its stale check, its write to the source and its last critical section.  The job it holds enters
    the invariant of [WriteBack] as a [held] job; what a checked or written job relies on is kept apart ([note]), in a form
    that the clients keep while the cache is open and in a stronger one that holds once nobody writes. *)

From stdpp Require Import base tactics numbers option strings sets list relations.
From S2P Require Import Prelude PyDict PyFloat PyMonad Config Entry Policies PolicyLaws.
From S2P Require Import Storage Jobs Shard ShardInv ShardSpec Cache CacheInv CacheSafety.
From S2P Require Import Reach CacheSpec Demo Lifecycle WriteBackInv WriteBack Race Pool Calls.
Local Open Scope string_scope.
Local Open Scope list_scope.
Local Open Scope Z_scope.

(** ** The worker *)

Section worker.
Context {K V P : Type} `{EqDecision K} `{KeyHash K} `{PyNone V} `{HP : EvictionPolicy K P} `{!PolicyLaws K P}.
Implicit Types (c : Cache K V P) (sh : CacheShard K V P) (w : phase K V) (held : list (FlushWriteBack K V)).
Context (cfg : CacheConfig) (Hkeep : str_lower (cfg_policy cfg) ≠ "lfu").

(** The flush job a worker holds. *)
Definition held_of w : list (FlushWriteBack K V) :=
  match w with Taken (FlushJob j) | Checked j | Applied j _ => [j] | _ => [] end.

(** What a job that was found not to be stale, or was written to the source, can rely on.  While clients still write
    ([frozen = false]) it is what they cannot undo: a clean entry has the value of the job, and the source has it when the job
    was written.  When they no longer do, the entry for the key is the one the job was made for, and the source has
    the value of that entry, whoever wrote it. *)
Definition checked (frozen : bool) (j : FlushWriteBack K V) c : Prop :=
  ∀ sh, c_shards c !! Z.to_nat (f_shard_index j) = Some sh → if frozen then matches j sh else agrees j sh.
Definition written (frozen : bool) (j : FlushWriteBack K V) c : Prop :=
  if frozen then job_settled j c
  else f_operation j = "put" → dict_get (sd_data (c_source c)) (f_key j) = Some (f_value j).
Definition note (frozen : bool) w c : Prop :=
  match w with
  | Checked j => checked frozen j c
  | Applied j (Ok _) => written frozen j c
  | _ => True
  end.

Lemma note_safe w c c' : call_safe shard_dirtier c c' → note false w c → note false w c'.
Proof.
  intros [_ Hd Hs _] Hn. destruct w as [| |j|j [u|e]| | |]; try done; simpl in *.
  - intros sh' Hsh' x' Hx' Hdirty. destruct (Hs _ _ Hsh') as (sh & Hsh & Hdi).
    destruct (Hdi _ _ Hx' Hdirty) as (x & Hx & Hdx & ->). by apply (Hn sh).
  - by rewrite Hd.
Qed.

Lemma checked_agrees frozen j c sh :
  checked frozen j c → c_shards c !! Z.to_nat (f_shard_index j) = Some sh → agrees j sh.
Proof. intros Hc Hsh. specialize (Hc sh Hsh). destruct frozen; [by apply matches_agrees|done]. Qed.
Lemma matches_checked frozen j c sh :
  c_shards c !! Z.to_nat (f_shard_index j) = Some sh → matches j sh → checked frozen j c.
Proof.
  intros Hsh Hm sh1 Hsh1. assert (sh1 = sh) as -> by congruence. destruct frozen; [done|by apply matches_agrees].
Qed.
Lemma put_written held b frozen j c :
  flush_ok cfg WRITE_BACK j → wbi cfg b (j :: held) c →
  (f_operation j = "put" → dict_get (sd_data (c_source c)) (f_key j) = Some (f_value j)) → written frozen j c.
Proof. intros Hj Hw Hd. destruct frozen; [by eapply written_settled|done]. Qed.
Lemma written_is_settled held b frozen j c :
  flush_ok cfg WRITE_BACK j → wbi cfg b (j :: held) c → written frozen j c → job_settled j c.
Proof. intros Hj Hw Hd. destruct frozen; [done|by eapply written_settled]. Qed.

Context (frozen : bool).

(** What is left of a worker and its cache by an action. *)
Record worker_wb held w c : Prop := {
  ww_phase : phase_ok cfg WRITE_BACK w;
  ww_cache : wbi cfg (phase_busy w) (held_of w ++ held) c;
  ww_note : note frozen w c;
}.

Definition after held (out : Cache K V P * result (phase K V)) : Prop :=
  ∃ w, out.2 = Ok w ∧ worker_wb held w out.1.

(** A worker between two jobs. *)
Lemma handled_after held c w : phase_busy w = 1 → held_of w = [] → note frozen w c → phase_ok cfg WRITE_BACK w →
  wbi cfg 1 held c → after held (c, Ok w).
Proof. intros Hb Hh Hn Hp Hw. exists w. split; [done|]. split; [done|by rewrite Hh, Hb|done]. Qed.

Lemma flush_check_after held j c :
  worker_wb held (Taken (FlushJob j)) c →
  after held ((stale ← flush_check j; mret (if stale : bool then Flushed true else Checked j)) c).
Proof.
  intros [Hj Hw _]. simpl in Hj, Hw. pose proof Hj as (i & Hi & Hh). pose proof (wbi_inv _ _ _ _ Hw) as Hc.
  destruct (run_lock_at cfg WRITE_BACK 1 (f_shard_index j) (flush_check_locked j) c Hc)
    as (sh & Hsh & Hwf & E); [rewrite (jh_index _ _ _ _ Hh); lia|].
  unfold flush_check. rewrite !run_bind, E. unfold flush_check_locked.
  destruct (is_stale_write_back (sh_version_marks sh) (sh_tombstones sh) j) eqn:Est; cbn [fst snd].
  - destruct (wbi_resolve cfg 1 held j c true Hj Hw) as (c1 & E1 & Hw1).
    destruct (run_lock_at cfg WRITE_BACK 1 (f_shard_index j)
      (λ sh, (resolve_pending_locked (f_key j) sh, true)) c Hc) as (sh1 & Hsh1 & _ & E1');
      [rewrite (jh_index _ _ _ _ Hh); lia|].
    assert (sh1 = sh) as -> by congruence. rewrite E1 in E1'. injection E1' as E1'. subst c1.
    apply handled_after; [done..|]. by apply (wbi_inc_runtime cfg 1 held stale_write_back_jobs_skipped).
  - rewrite (with_shard_id _ sh c Hsh). eexists. split; [done|]. split; [done|done|].
    eapply matches_checked, fresh_matches; done.
Qed.

Lemma flush_apply_after held j c :
  worker_wb held (Checked j) c → after held ((r ← flush_apply j; mret (Applied j r)) c).
Proof.
  intros [Hj Hw Hn]. simpl in *. pose proof Hj as (i & Hi & Hh).
  pose proof (apply_write_back_cases j (c_source c) (jh_operation _ _ _ _ Hh)) as Ha.
  unfold flush_apply, attempt, with_source. rewrite run_bind.
  destruct (apply_write_back j (c_source c)) as [src' r].
  assert (wbi cfg 1 (j :: held) (set_source src' c)) as Hw1.
  { apply wbi_source; [done..|intros sh Hsh; by eapply checked_agrees|]. destruct Ha as [(e & _ & ->)|[_ ->]]; auto. }
  eexists. split; [done|]. split; [done|done|]. destruct Ha as [(e & -> & _)|[-> Hd]]; [done|].
  eapply put_written; [done..|]. intros Hop. simpl. rewrite Hd. unfold applied. rewrite Hop. simpl. apply dict_get_set_eq.
Qed.

Lemma flush_end_after held j r c :
  worker_wb held (Applied j r) c →
  wbi cfg 1 held (flush_end j r c).1.
Proof.
  intros [Hj Hw Hn]. simpl in *. destruct r as [[]|e]; cbn [flush_end]; [|by apply wbi_flush_failed].
  destruct (wbi_finish cfg 1 held j c Hj Hw (written_is_settled _ _ _ _ _ Hj Hw Hn)) as (c2 & E2 & Hw2). by rewrite E2.
Qed.

(** The job is handled or has failed: the worker goes on to [task_done]. *)
Definition finishes held (out : Cache K V P * result (phase K V)) : Prop :=
  match out.2 with Ok w => worker_wb held w out.1 | Raise _ => wbi cfg 1 held out.1 end.

Lemma after_finishes held out : after held out → finishes held out.
Proof. intros (w & E & Hw). unfold finishes. by rewrite E. Qed.

Lemma phase_step_finishes held w c : in_handler w → worker_wb held w c → finishes held (phase_step w c).
Proof.
  assert (∀ job : Job K V, flush_of job = None → worker_wb held (Taken job) c →
    finishes held ((r ← attempt (handle_job job);
      match r with Ok _ => mret tt | Raise _ => inc_runtime worker_jobs_failed end ;; mret (Handled false)) c)) as Hjob.
  { intros job Hf [Hj Hw _]. simpl in Hj, Hw.
    assert (wbi cfg 1 held (handle_job job c).1) as Hw1.
    { apply wbi_handle_job; [done|done|]. rewrite Hf. by destruct job. }
    unfold attempt. rewrite !run_bind. destruct (handle_job job c) as [c1 [u|e]]; split; try done.
    by apply (wbi_inc_runtime cfg 1 held worker_jobs_failed). }
  intros Hin Hw. destruct w as [|job|j|j r|b|b|]; try done.
  - destruct job as [i|j|i key loader ttl sup|id|reason]; cbn [phase_step]; try (by apply Hjob).
    + by apply after_finishes, flush_check_after.
    + destruct Hw as [_ Hw _]. by split.
  - by apply after_finishes, flush_apply_after.
  - cbn [phase_step]. pose proof (flush_end_after held j r c Hw) as Hw1. rewrite run_bind.
    destruct (flush_end j r c) as [c1 [b|e]]; [by split|done].
  - destruct Hw as [_ Hw _]. split; [done| |done]. by apply wbi_inc_runtime.
Qed.

(** An action of the worker's loop. *)
Lemma worker_run_after held w c : worker_wb held w c → after held (worker_run w c).
Proof.
  intros Hw. unfold worker_run. rewrite run_bind. cbn [get_state].
  assert (in_handler w → after held ((r ← attempt (phase_step w);
    match r with Ok w' => mret w' | Raise _ => record_worker_failure ;; mret (Handled false) end) c)) as Hh.
  { intros Hin. pose proof (phase_step_finishes held w c Hin Hw) as Hf. unfold attempt. rewrite run_bind.
    destruct (phase_step w c) as [c1 [w1|e]]; [by exists w1|].
    apply handled_after; [done..|]. by apply (wbi_inc_runtime cfg 1 held worker_jobs_failed). }
  destruct w as [|job|j|j r|b|b|]; try (by apply Hh).
  - destruct Hw as [_ Hw _]. destruct (queue_get (c_queue c)) as [[job q]|] eqn:E.
    + destruct (wbi_queue_get cfg 0 held c job q Hw E) as [Hj Hq].
      exists (Taken job). split; [done|]. split; [done| |done]. simpl. by destruct job.
    + destruct (wp_stop_event (c_pool c)); eexists; (split; [done|]; by split).
  - destruct job as [| |? ? [] ? ?| |], (c_state c); try (by apply Hh). by eexists.
  - destruct Hw as [_ Hw _]. pose proof (wbi_task_done cfg 0 held c ltac:(lia) Hw) as Hd.
    unfold attempt. rewrite run_bind. destruct (with_queue queue_task_done c) as [c1 [u|e]];
      [destruct b|]; eexists; (split; [done|]; by split).
  - by exists Exited.
Qed.
End worker.
