(* ===== verification/Closing.v ===== *)
(** The shutdown of a write-back cache, interleaved with everything that still runs.

    [close(flush=True)] holds no shard lock between its actions: while it collects and enqueues the flush jobs,
    waits in [join_until], flushes what is left itself and stops the pool, the worker of [OneWorker] goes on, and clients
    whose calls have passed their critical section still enqueue their jobs.  [closer_step] cuts [close] at
    these points, and [together_step] interleaves all of them.  The worker is there once the pool has been started; without it [close] does
    not wait. *)

From stdpp Require Import base tactics numbers option strings sets list relations.
From S2P Require Import Prelude PyDict PyFloat PyMonad Config Entry Policies PolicyLaws.
From S2P Require Import Storage Jobs Shard ShardInv ShardSpec Cache CacheInv CacheSafety.
From S2P Require Import Reach CacheSpec Demo Lifecycle WriteBackInv WriteBack Race Pool Calls OneWorker.
Local Open Scope string_scope.
Local Open Scope list_scope.
Local Open Scope Z_scope.

(** ** The cache, its clients, its worker and [close] *)

Section system.
Context {K V P : Type} `{EqDecision K} `{KeyHash K} `{PyNone V} `{HP : EvictionPolicy K P}.
Implicit Types (c : Cache K V P) (w : phase K V) (job : FlushWriteBack K V) (jobs : list (FlushWriteBack K V)).
Local Abbreviation MC := (M (Cache K V P)).

(** A client in [clear], or in [_enqueue_flush_jobs]. *)
Inductive caller : Type :=
  | Emptying jobs (shards : list Z)   (* the jobs of [clear] so far, and the shards still to be cleared *)
  | Enqueueing jobs                   (* the jobs still to be enqueued *)
  | Dropping jobs.                    (* the queue was full: the pending marks still to be released *)
Definition caller_jobs (p : caller) : list (FlushWriteBack K V) :=
  match p with Emptying jobs _ | Enqueueing jobs | Dropping jobs => jobs end.

(** One action of [_enqueue_flush_jobs]; with no jobs left it has ended. *)
Definition caller_step (p : caller) : MC caller :=
  match p with
  | Emptying jobs [] => mret (Enqueueing jobs)
  | Enqueueing (job :: jobs') =>
      r ← attempt (enqueue_job (FlushJob job) true);
      match r with
      | Ok _ => mret (Enqueueing jobs')
      | Raise QueueBackpressureError => mret (Dropping (job :: jobs'))
      | Raise e => raise e
      end
  | Dropping (job :: jobs') =>
      with_lock (f_shard_index job) (λ sh, (resolve_pending_locked (f_key job) sh, tt)) ;;
      mret (Dropping jobs')
  | _ => mret p
  end.

(** Where [_flush_dirty_entries_sync] is: a shard, its jobs after the current one, the shards after
    it, and whether something has failed. *)
Record sync_site : Type := mkSite {
  sy_shard : Z;
  sy_jobs : list (FlushWriteBack K V);
  sy_shards : list Z;
  sy_failed : bool;
}.

(** The thread that closes the cache. *)
Inductive closer : Type :=
  | Serving                                      (* [close] has not been called *)
  | Collecting (shards : list Z)                 (* before the shards still to be collected from *)
  | Queueing (i : Z) jobs (shards : list Z)      (* the jobs of shard [i] still to be enqueued *)
  | Releasing (i : Z) jobs (shards : list Z)     (* the queue was full *)
  | Joining                                      (* at [job_queue.join_until], if the pool runs *)
  | Flushing (shards : list Z) (failed : bool)   (* before the shards still to be flushed *)
  | Checking (y : sync_site)                     (* before the stale check of the next job *)
  | Writing (attempts : nat) job (y : sync_site) (* with so many attempts left *)
  | Marking job (y : sync_site)                  (* the source has taken the put *)
  | Clearing (succeeded : bool) job (y : sync_site) (* before the pending marks are dropped *)
  | Stopping (failed : bool)                     (* before [_worker_pool.stop] *)
  | Halting (started failed : bool)              (* joining the threads, if there are any *)
  | Ended (r : result unit).                     (* [close] has returned or raised *)

(** One action of [_enqueue_dirty_write_back_jobs]. *)
Definition enqueue_dirty_step c (z : closer) : MC closer :=
  match z with
  | Collecting [] => mret Joining
  | Collecting (i :: shards) =>
      jobs ← with_lock i (collect_flush_jobs (cfg_write_back_retry_count (c_config c)));
      mret (Queueing i jobs shards)
  | Queueing i [] shards | Releasing i [] shards => mret (Collecting shards)
  | Queueing i (job :: jobs) shards =>
      r ← attempt (enqueue_job (FlushJob job) true);
      match r with
      | Ok _ => mret (Queueing i jobs shards)
      | Raise QueueBackpressureError => mret (Releasing i (job :: jobs) shards)
      | Raise e => raise e
      end
  | Releasing i (job :: jobs) shards =>
      with_lock i (λ sh, (resolve_pending_locked (f_key job) sh, tt)) ;;
      mret (Releasing i jobs shards)
  | _ => mret z
  end.

(** One action of [_flush_dirty_entries_sync]. *)
Definition sync_flush_step c (z : closer) : MC closer :=
  match z with
  | Flushing (i :: shards) failed =>
      jobs ← with_lock i (λ sh, (sh,
        dirty_put_jobs (cfg_write_back_retry_count (c_config c)) sh
          ++ tombstone_jobs (cfg_write_back_retry_count (c_config c)) sh));
      mret (Checking (mkSite i jobs shards failed))
  | Checking (mkSite i [] shards failed) => mret (Flushing shards failed)
  | Checking (mkSite i (job :: jobs) shards failed) =>
      stale ← with_lock i (λ sh,
        if is_stale_write_back (sh_version_marks sh) (sh_tombstones sh) job
        then (clear_pending_flushes_locked (f_key job) sh, true)
        else (sh, false));
      if stale : bool then
        inc_runtime stale_write_back_jobs_skipped ;; mret (Checking (mkSite i jobs shards failed))
      else mret (Writing (Z.to_nat (f_retries_left job + 1)) job (mkSite i jobs shards failed))
  | Writing O job y => inc_runtime flush_failures ;; mret (Clearing false job y)
  | Writing (S attempts) job y =>
      r ← attempt (if String.eqb (f_operation job) "put" then with_source (put_value (f_key job) (f_value job))
                   else with_source (delete_value (f_key job)));
      match r with
      | Ok _ => mret (if String.eqb (f_operation job) "put" then Marking job y else Clearing true job y)
      | Raise _ =>
          (if (0 <? attempts)%nat then
             inc_runtime write_back_retries ;; sleep (cfg_write_back_retry_delay (c_config c))
           else mret tt) ;;
          mret (Writing attempts job y)
      end
  | Marking job y => with_lock (sy_shard y) (λ sh, (mark_clean job sh, tt)) ;; mret (Clearing true job y)
  | Clearing succeeded job y =>
      with_lock (sy_shard y) (λ sh, (clear_pending_flushes_locked (f_key job) sh, tt)) ;;
      mret (Checking (mkSite (sy_shard y) (sy_jobs y) (sy_shards y) (sy_failed y || negb succeeded)))
  | _ => mret z
  end.

(** [WorkerPool.stop] before the joins of the threads, and after them; so many threads survive. *)
Definition pool_stop_begin c (failed : bool) : MC closer :=
  (if wp_started (c_pool c) then
     modify (λ c, set_pool (mkPool (wp_count (c_pool c)) true (wp_threads (c_pool c)) true) c) ;;
     for_each (py_range (wp_threads (c_pool c)))
       (λ _, modify (λ c, set_queue (queue_offer (StopWorker "shutdown") (c_queue c)).1 c))
   else mret tt) ;;
  mret (Halting (wp_started (c_pool c)) failed).
Definition pool_stop_end (survivors : Z) (started : bool) : MC Z :=
  (if started then
     modify (λ c, set_pool (mkPool (wp_count (c_pool c)) false survivors (wp_stop_event (c_pool c))) c)
   else mret tt) ;;
  with_queue queue_drain.

(** The pool has been started and has threads: then [close] waits for its jobs. *)
Definition pool_runs c : bool := wp_started (c_pool c) && (0 <? cfg_worker_count (c_config c)).

(** One action of [close(flush=True)] on a write-back cache, whose [join_until] does not time out. *)
Definition closer_step (survivors : Z) (z : closer) : MC closer :=
  c ← get_state;
  match z with
  | Serving =>
      match c_state c with
      | CLOSED => mret Serving   (* returns at once *)
      | _ =>
          modify (set_state CLOSING) ;;
          modify (λ c, set_scheduler (scheduler_stop (c_scheduler c)) c) ;;
          mret (Collecting (shard_indices c))
      end
  | Collecting _ | Queueing _ _ _ | Releasing _ _ _ => enqueue_dirty_step c z
  | Joining =>
      mret (if pool_runs c && negb (queue_join_until (c_queue c)) then Joining else Flushing (shard_indices c) false)
  | Flushing [] failed =>
      (if failed then inc_runtime shutdown_flush_failures else mret tt) ;; mret (Stopping failed)
  | Flushing _ _ | Checking _ | Writing _ _ _ | Marking _ _ | Clearing _ _ _ => sync_flush_step c z
  | Stopping failed => pool_stop_begin c failed
  | Halting started failed =>
      pool_stop_end survivors started ;;
      modify (set_state CLOSED) ;;
      c3 ← get_state;
      mret (Ended (if failed then Raise (ShutdownFlushError (count_dirty_entries c3)) else Ok tt))
  | Ended r => mret (Ended r)
  end.

(** The thread of the pool: there is one once the pool runs, and it begins with its loop. *)
Definition thread_of c : phase K V := if pool_runs c then Idle else Exited.
Definition thread_after c c' w : phase K V := if pool_runs c then w else thread_of c'.

(** The cache with one worker, the clients that have flush jobs to enqueue, and [close]. *)
Record together : Type := mkTogether {
  t_cache : Cache K V P;
  t_worker : phase K V;
  t_clients : list caller;
  t_closer : closer;
}.

(** Clients call the cache (one of them may start it), and [clear] its next shards, until [close] begins; what their critical sections have left
    to be enqueued they enqueue at any time. *)
Inductive together_step : together → together → Prop :=
  | together_call c c' w ps :
      client_call c c' →
      together_step (mkTogether c w ps Serving) (mkTogether c' (thread_after c c' w) ps Serving)
  | together_commit c c' jobs w ps :
      client_commit c c' jobs →
      together_step (mkTogether c w ps Serving) (mkTogether c' w (Enqueueing jobs :: ps) Serving)
  | together_clear c w ps :
      is_open c →
      together_step (mkTogether c w ps Serving) (mkTogether c w (Emptying [] (shard_indices c) :: ps) Serving)
  | together_empty c c' w ps i jobs x shards new z :
      is_open c → ps !! i = Some (Emptying jobs (x :: shards)) → clear_shards [x] c = (c', Ok new) →
      together_step (mkTogether c w ps z) (mkTogether c' w (<[i := Emptying (jobs ++ new) shards]> ps) z)
  | together_client c c' w ps i p p' z :
      ps !! i = Some p → caller_step p c = (c', Ok p') →
      together_step (mkTogether c w ps z) (mkTogether c' w (<[i := p']> ps) z)
  | together_ambient c c' w ps z :
      ambient c c' → together_step (mkTogether c w ps z) (mkTogether c' w ps z)
  | together_worker c c' w w' ps z :
      worker_run w c = (c', Ok w') → together_step (mkTogether c w ps z) (mkTogether c' w' ps z)
  | together_closer c c' w ps survivors z z' :
      closer_step survivors z c = (c', Ok z') → together_step (mkTogether c w ps z) (mkTogether c' w ps z').
End system.
#[global] Arguments caller : clear implicits.
#[global] Arguments sync_site : clear implicits.
#[global] Arguments closer : clear implicits.
#[global] Arguments together : clear implicits.
Ltac unfold_closer :=
  unfold closer_step, enqueue_dirty_step, sync_flush_step, pool_stop_begin, pool_stop_end in *.

(** ** What the threads rely on *)

Section inv.
Context {K V P : Type} `{EqDecision K} `{KeyHash K} `{PyNone V} `{HP : EvictionPolicy K P} `{!PolicyLaws K P}.
Implicit Types (c : Cache K V P) (sh : CacheShard K V P) (w : phase K V) (z : closer K V) (p : caller K V).
Implicit Types (job : FlushWriteBack K V) (held jobs : list (FlushWriteBack K V)).
Context (cfg : CacheConfig) (Hkeep : str_lower (cfg_policy cfg) ≠ "lfu").

(** Once nobody writes any more: entries only go away or become clean, and whoever writes to the source for a stored key writes the
    value of its entry. *)
Record settling c c' : Prop := {
  st_shards i sh' : c_shards c' !! i = Some sh' → ∃ sh, c_shards c !! i = Some sh ∧ shard_keeps sh sh';
  st_source i k : routed cfg i k →
    dict_get (sd_data (c_source c')) k = dict_get (sd_data (c_source c)) k ∨
    ∀ sh' x', c_shards c' !! i = Some sh' → dict_get (sh_backend sh') k = Some x' →
      dict_get (sd_data (c_source c')) k = Some (e_value x');
}.

Lemma safe_settling c c' : call_safe shard_keeps c c' → settling c c'.
Proof. intros [_ Hd Hs _]. split; [done|]. intros i k _. left. by rewrite Hd. Qed.

Lemma applied_settling j src' c :
  flush_ok cfg WRITE_BACK j → checked true j c →
  sd_data src' = sd_data (c_source c) ∨ sd_data src' = applied j (sd_data (c_source c)) →
  settling c (set_source src' c).
Proof.
  intros (n & Hn & Hj) Hc Hd. split; [intros i sh' Hsh'; by exists sh'|]. intros i k HR. simpl.
  destruct Hd as [-> | ->]; [by left|]. destruct (decide (f_key j = k)) as [<-|Hk]; [|left; by apply applied_other].
  right. intros sh x Hsh Hx. pose proof (jh_key _ _ _ _ Hj) as HRj. unfold checked in Hc.
  rewrite (jh_index _ _ _ _ Hj), Nat2Z.id in Hc.
  assert (n = i) as -> by (unfold routed in *; lia). destruct (Hc sh Hsh x Hx) as [Hop <-].
  unfold applied. rewrite Hop. simpl. apply dict_get_set_eq.
Qed.

Lemma checked_settling j c c' : settling c c' → checked true j c → checked true j c'.
Proof.
  intros [Hs _] Hc sh' Hsh' x' Hx'. destruct (Hs _ _ Hsh') as (sh & Hsh & Hk).
  destruct (Hk _ _ Hx') as (x & Hx & _ & -> & _). by apply (Hc sh).
Qed.
Lemma written_settling j c c' :
  flush_ok cfg WRITE_BACK j → settling c c' → written true j c → written true j c'.
Proof.
  intros (n & Hn & Hj) [Hs Hd] Hw Hop sh' x' Hsh' Hx' Hver. destruct (Hs _ _ Hsh') as (sh & Hsh & Hk).
  destruct (Hk _ _ Hx') as (x & Hx & Hvx & Hva & _).
  assert (routed cfg (Z.to_nat (f_shard_index j)) (f_key j)) as HR.
  { rewrite (jh_index _ _ _ _ Hj), Nat2Z.id. apply (jh_key _ _ _ _ Hj). }
  destruct (Hd _ _ HR) as [-> |Hnew]; [|by apply (Hnew sh')]. rewrite Hva. apply (Hw Hop sh); congruence.
Qed.
Lemma note_settling w c c' : phase_ok cfg WRITE_BACK w → settling c c' → note true w c → note true w c'.
Proof.
  intros Hp Hs Hn. destruct w as [| |j|j [u|e]| | |]; try done; simpl in *;
    [by eapply checked_settling|by eapply written_settling].
Qed.

(** *** The worker *)

(** An action of the worker on a cache that is no longer open is of this kind. *)
Lemma finish_keeps j sh : shard_keeps sh (flush_finish_locked j sh).
Proof.
  unfold flush_finish_locked. destruct (String.eqb _ _); [transitivity (mark_clean j sh); [apply mark_clean_keeps|]|];
    apply walk_backend, resolve_backend.
Qed.
Lemma check_backend j sh : sh_backend (flush_check_locked j sh).1 = sh_backend sh.
Proof. unfold flush_check_locked. destruct (is_stale_write_back _ _ _); [apply resolve_backend|done]. Qed.
Lemma safe_flush_failed c0 j : keeps (call_safe shard_keeps c0) (flush_failed j).
Proof.
  assert (keeps (call_safe shard_keeps c0) (inc_runtime flush_failures ;;
    with_lock (f_shard_index j) (λ sh, (resolve_pending_locked (f_key j) sh, false)))) as Hgive.
  { apply keeps_bind; [by apply safe_inc_runtime|intros _]. apply (safe_resolve _). }
  unfold flush_failed. apply keeps_bind; [apply keeps_get|]. intros c. apply keeps_if; [|done].
  apply keeps_bind; [apply (safe_inc_runtime _)|intros _].
  apply keeps_bind; [apply (safe_sleep _)|intros _].
  apply keeps_bind; [apply keeps_attempt, (safe_enqueue _)|]. intros [ok|[]]; apply keeps_ret || apply keeps_raise || done.
Qed.

Lemma phase_step_settling held w c :
  ¬ is_open c → in_handler w → worker_wb cfg true held w c → settling c (phase_step w c).1.
Proof.
  intros Ho Hin [Hp Hw Hn]. pose proof (ci_mode _ _ _ _ (wbi_inv _ _ _ _ Hw)) as Hm.
  pose proof (call_safe_refl shard_keeps c Hm) as Hrefl. destruct w as [|job|j|j r|b|b|]; try done.
  - apply safe_settling. destruct job as [i|j|i key loader ttl sup|id|reason]; cbn [phase_step].
    + apply keeps_bind; [apply keeps_attempt|intros r|done].
      * apply keeps_bind; [apply (safe_expire_shard _)|intros n; apply (safe_inc_runtime _)].
      * apply keeps_bind; [destruct r; [apply keeps_ret|apply (safe_inc_runtime _)]|intros _; apply keeps_ret].
    + apply keeps_bind; [|intros []; apply keeps_ret|done]. unfold flush_check.
      apply keeps_bind; [apply (safe_backend _); intros sh; apply check_backend|].
      intros []; [|apply keeps_ret]. apply keeps_bind; [apply (safe_inc_runtime _)|intros _; apply keeps_ret].
    + destruct (not_open_raises c Ho) as [e E].
      assert (∀ v t, cache_put key v t c = (c, Raise e)) as Eput.
      { intros v t. unfold cache_put. by rewrite (bind_raise _ _ _ _ _ E). }
      unfold attempt. rewrite run_bind. cbn [handle_job]. rewrite run_bind. destruct loader as [v|e']; cbn [lift];
        [rewrite run_bind, Eput|]; by apply (safe_inc_runtime _).
    + apply keeps_bind; [apply keeps_attempt|intros r|done].
      * apply keeps_bind; [by apply (safe_field _)|intros _; apply (safe_inc_runtime _)].
      * apply keeps_bind; [destruct r; [apply keeps_ret|apply (safe_inc_runtime _)]|intros _; apply keeps_ret].
    + done.
  - destruct Hp as (i & Hi & Hh). cbn [phase_step]. unfold flush_apply, attempt, with_source. rewrite run_bind.
    pose proof (apply_write_back_cases j (c_source c) (jh_operation _ _ _ _ Hh)) as Ha.
    destruct (apply_write_back j (c_source c)) as [src' r]. cbn.
    apply (applied_settling j); [by exists i|done|]. destruct Ha as [(e & _ & ->)|[_ ->]]; auto.
  - apply safe_settling. cbn [phase_step].
    apply keeps_bind; [|intros ?; apply keeps_ret|done]. destruct r as [u|e]; cbn [flush_end].
    + apply (safe_lock _). intros sh. apply finish_keeps.
    + apply safe_flush_failed.
  - apply safe_settling. cbn [phase_step].
    apply keeps_bind; [apply (safe_inc_runtime _)|intros _; apply keeps_ret|done].
Qed.

Lemma settling_after c c1 f :
  (∀ c, c_shards (f c) = c_shards c ∧ c_source (f c) = c_source c) → settling c c1 → settling c (f c1).
Proof. intros Hf [Hs Hd]. destruct (Hf c1) as [E1 E2]. by split; rewrite ?E1, ?E2. Qed.
Lemma settling_refl c : settling c c.
Proof. split; [intros i sh Hsh; by exists sh|]. intros i k _. by left. Qed.

Lemma worker_run_settling held w c :
  ¬ is_open c → worker_wb cfg true held w c → settling c (worker_run w c).1.
Proof.
  intros Ho Hw. unfold worker_run. rewrite run_bind. cbn [get_state]. pose proof (settling_refl c) as Hrefl.
  assert (in_handler w → settling c ((r ← attempt (phase_step w);
    match r with Ok w' => mret w' | Raise _ => record_worker_failure ;; mret (Handled false) end) c).1) as Hh.
  { intros Hin. pose proof (phase_step_settling held w c Ho Hin Hw) as Hs. unfold attempt. rewrite run_bind.
    destruct (phase_step w c) as [c1 [w1|e]]; [done|].
    by apply (settling_after c c1 (λ c, set_runtime (runtime_inc worker_jobs_failed (c_runtime c)) c)). }
  destruct w as [|job|j|j r|b|b|]; try (by apply Hh).
  - destruct (queue_get (c_queue c)) as [[job q]|]; [|by destruct (wp_stop_event _)].
    by apply (settling_after c c (set_queue q)).
  - by destruct job as [| |? ? [] ? ?| |], (c_state c); try (by apply Hh).
  - unfold attempt. rewrite run_bind. unfold with_queue. destruct (queue_task_done (c_queue c)) as [q [u|e]];
      by apply (settling_after c c (set_queue q)).
  - done.
Qed.

(** The lifecycle is not the worker's. *)
Lemma worker_run_state w c : ¬ is_open c → c_state (worker_run w c).1 = c_state c.
Proof.
  intros Ho. assert (closing c) as Hc.
  { unfold closing, is_open in *. destruct (c_state c); tauto. }
  unfold worker_run. rewrite run_bind. cbn [get_state].
  assert (in_handler w → c_state ((r ← attempt (phase_step w);
    match r with Ok w' => mret w' | Raise _ => record_worker_failure ;; mret (Handled false) end) c).1 = c_state c) as Hh.
  { intros Hin. destruct (phase_step_costs w c Hc Hin) as [(Hs & _) _]. unfold attempt. rewrite run_bind.
    by destruct (phase_step w c) as [c1 [w1|e]]. }
  destruct w as [|job|j|j r|b|b|]; try (by apply Hh).
  - destruct (queue_get (c_queue c)) as [[job q]|]; [done|by destruct (wp_stop_event _)].
  - by destruct job as [| |? ? [] ? ?| |], (c_state c) eqn:Est; try (by apply Hh).
  - unfold attempt. rewrite run_bind. unfold with_queue. by destruct (queue_task_done (c_queue c)) as [q [u|e]].
  - done.
Qed.

(** Nor is the pool: what a worker does leaves it as it is. *)
Lemma pool_lock_src {A} pool i (m : M (CacheShard K V P * SlowDictBackend K V) A) :
  keeps (λ c, c_pool c = pool) (with_lock_src i m).
Proof.
  intros c Hc. unfold with_lock_src. destruct (c_shards c !! _) as [sh|]; [|done].
  by destruct (m (sh, c_source c)) as [[sh' src'] r].
Qed.
Lemma pool_enqueue pool (job : Job K V) critical : keeps (λ c : Cache K V P, c_pool c = pool) (enqueue_job job critical).
Proof.
  apply keeps_bind; [|intros ok; repeat apply keeps_if; apply keeps_ret || apply keeps_raise].
  intros c Hc. by destruct (queue_put job critical (c_queue c)).
Qed.
Lemma pool_modify pool (f : Cache K V P → Cache K V P) :
  (∀ c, c_pool (f c) = c_pool c) → keeps (λ c, c_pool c = pool) (modify f).
Proof. intros Hf c <-. apply Hf. Qed.
Lemma pool_put pool key value ttl : keeps (λ c : Cache K V P, c_pool c = pool) (cache_put key value ttl).
Proof.
  unfold cache_put, require_not_closed. apply keeps_bind.
  { apply keeps_bind; [apply keeps_get|]. intros c. destruct (c_state c); apply keeps_ret || apply keeps_raise. }
  intros _. apply keeps_bind; [intros c Hc; by destruct (run_warn c) as [b ->]|]. intros _.
  apply keeps_bind; [intros c Hc; by destruct (run_validate ttl c) as [-> | (t & _ & _ & ->)]|].
  intros _. apply keeps_bind; [apply keeps_get|]. intros c. apply keeps_bind; [by intros c' Hc|].
  intros t. apply keeps_bind; [apply pool_lock_src|]. intros [job|]; [|apply keeps_ret].
  cbn [enqueue_flush_jobs]. apply keeps_bind; [apply keeps_attempt, pool_enqueue|].
  intros [ok|[]]; try apply keeps_raise; [apply keeps_ret|].
  apply keeps_bind; [apply keeps_for_each; intros j _; apply pool_lock_src|intros _; apply keeps_raise].
Qed.
Lemma pool_flush_failed pool j : keeps (λ c : Cache K V P, c_pool c = pool) (flush_failed j).
Proof.
  assert (keeps (λ c : Cache K V P, c_pool c = pool) (inc_runtime flush_failures ;;
    with_lock (f_shard_index j) (λ sh, (resolve_pending_locked (f_key j) sh, false)))) as Hgive.
  { apply keeps_bind; [by apply pool_modify|intros _; apply pool_lock_src]. }
  unfold flush_failed. apply keeps_bind; [apply keeps_get|]. intros c. apply keeps_if; [|done].
  apply keeps_bind; [by apply pool_modify|intros _]. apply keeps_bind; [by apply pool_modify|intros _].
  apply keeps_bind; [apply keeps_attempt, pool_enqueue|]. intros [ok|[]]; apply keeps_ret || apply keeps_raise || done.
Qed.
Lemma pool_handle_job pool (job : Job K V) :
  flush_of job = None → keeps (λ c : Cache K V P, c_pool c = pool) (handle_job job).
Proof.
  assert (∀ f, keeps (λ c : Cache K V P, c_pool c = pool) (inc_runtime f)) as Hinc by (intros f; by apply pool_modify).
  intros Hf. destruct job as [i|j|i key loader ttl sup|id|reason]; cbn [handle_job]; [|done|..|apply Hinc].
  - apply keeps_bind; [|intros _; apply Hinc]. apply keeps_bind; [by intros c Hc|intros t; apply pool_lock_src].
  - apply keeps_bind; [apply keeps_lift|intros v]. apply keeps_bind; [apply pool_put|intros _; apply Hinc].
  - apply keeps_bind; [by apply pool_modify|intros _; apply Hinc].
Qed.
Lemma pool_phase_step pool w : in_handler w → keeps (λ c : Cache K V P, c_pool c = pool) (phase_step w).
Proof.
  assert (∀ f, keeps (λ c : Cache K V P, c_pool c = pool) (inc_runtime f)) as Hinc by (intros f; by apply pool_modify).
  assert (∀ job : Job K V, flush_of job = None → keeps (λ c : Cache K V P, c_pool c = pool) (r ← attempt (handle_job job);
      match r with Ok _ => mret tt | Raise _ => inc_runtime worker_jobs_failed end ;;
      mret (Handled false : phase K V))) as Hjob.
  { intros job Hf. apply keeps_bind; [by apply keeps_attempt, pool_handle_job|]. intros r.
    apply keeps_bind; [destruct r; [apply keeps_ret|apply Hinc]|intros _; apply keeps_ret]. }
  intros Hin. destruct w as [|job|j|j r|b|b|]; try done; cbn [phase_step].
  - destruct job; try (by apply Hjob); [|apply keeps_ret]. apply keeps_bind; [|intros b; apply keeps_ret].
    apply keeps_bind; [apply pool_lock_src|]. intros []; [|apply keeps_ret].
    apply keeps_bind; [apply Hinc|intros _; apply keeps_ret].
  - apply keeps_bind; [|intros r; apply keeps_ret]. apply keeps_attempt. intros c Hc. unfold with_source.
    by destruct (apply_write_back j (c_source c)).
  - apply keeps_bind; [|intros b; apply keeps_ret]. destruct r; [apply pool_lock_src|apply pool_flush_failed].
  - apply keeps_bind; [apply Hinc|intros _; apply keeps_ret].
Qed.
Lemma worker_run_pool w c : c_pool (worker_run w c).1 = c_pool c.
Proof.
  unfold worker_run. rewrite run_bind. cbn [get_state].
  assert (in_handler w → c_pool ((r ← attempt (phase_step w);
    match r with Ok w' => mret w' | Raise _ => record_worker_failure ;; mret (Handled false) end) c).1 = c_pool c) as Hh.
  { intros Hin. pose proof (pool_phase_step (c_pool c) w Hin c eq_refl) as Hp. unfold attempt. rewrite run_bind.
    by destruct (phase_step w c) as [c1 [w1|e]]. }
  destruct w as [|job|j|j r|b|b|]; try (by apply Hh).
  - destruct (queue_get (c_queue c)) as [[job q]|]; [done|by destruct (wp_stop_event _)].
  - by destruct job as [| |? ? [] ? ?| |], (c_state c) eqn:Est; try (by apply Hh).
  - unfold attempt. rewrite run_bind. unfold with_queue. by destruct (queue_task_done (c_queue c)) as [q [u|e]].
  - done.
Qed.

(** *** The clients *)

(** A client that enqueues its jobs, or releases their marks. *)
Lemma caller_step_wb b held p c :
  wbi cfg b (caller_jobs p ++ held) c → Forall (flush_ok cfg WRITE_BACK) (caller_jobs p) →
  ∃ c' p', caller_step p c = (c', Ok p') ∧ wbi cfg b (caller_jobs p' ++ held) c' ∧
    Forall (flush_ok cfg WRITE_BACK) (caller_jobs p') ∧ c_state c' = c_state c ∧
    (∀ R, Walkable R → call_safe R c c').
Proof.
  intros Hw Hj. pose proof (ci_mode _ _ _ _ (wbi_inv _ _ _ _ Hw)) as Hm.
  assert (∀ R, Walkable R → call_safe R c c) as Hrefl by (intros R HR; by apply call_safe_refl).
  destruct p as [jobs [|x shards]|[|job jobs]|[|job jobs]]; cbn [caller_step caller_jobs] in *; try (by eexists _, _).
  - apply Forall_cons in Hj as [Hj Hjs].
    assert (∀ R, Walkable R → call_safe R c (enqueue_job (FlushJob job) true c).1) as Hs
      by (intros R HR; apply (safe_enqueue R); by apply Hrefl).
    destruct (enqueue_job_critical (FlushJob job) c) as [q Hq].
    destruct (wbi_enqueue cfg b (jobs ++ held) job c Hj Hw) as [(c1 & E & Hw1)|(c1 & E & Hw1)];
      rewrite (bind_ok _ _ _ _ _ (attempt_eq _ _ _ _ E)); rewrite E in *.
    + exists c1, (Enqueueing jobs). split_conj; [done..| |done]. by destruct Hq as [[= ->]|[=]].
    + exists c1, (Dropping (job :: jobs)). split_conj; [done|done|by constructor| |done].
      by destruct Hq as [[=]|[= ->]].
  - apply Forall_cons in Hj as [Hj Hjs].
    assert (∀ R, Walkable R → call_safe R c (with_lock (f_shard_index job)
      (λ sh, (resolve_pending_locked (f_key job) sh, tt)) c).1) as Hs
      by (intros R HR; apply (safe_resolve R); by apply Hrefl).
    destruct (wbi_resolve cfg b (jobs ++ held) job c tt Hj Hw) as (c1 & E & Hw1).
    rewrite (bind_ok _ _ _ _ _ E). rewrite E in Hs. exists c1, (Dropping jobs). split_conj; [done..| |done].
    pose proof (same_state_lock (c_state c) (f_shard_index job) (λ sh, (resolve_pending_locked (f_key job) sh, tt)) c eq_refl) as Hst.
    by rewrite E in Hst.
Qed.

(** *** The closer *)

(** The flush jobs [close] holds. *)
Definition closer_jobs z : list (FlushWriteBack K V) :=
  match z with
  | Queueing _ jobs _ | Releasing _ jobs _ => jobs
  | Checking y | Clearing _ _ y => sy_jobs y
  | Writing _ job y | Marking job y => job :: sy_jobs y
  | _ => []
  end.

(** [join_until] has returned. *)
Definition frozen z : bool :=
  match z with Serving | Collecting _ | Queueing _ _ _ | Releasing _ _ _ | Joining => false | _ => true end.

Definition in_range (shards : list Z) : Prop := ∀ i, i ∈ shards → 0 ≤ i < cfg_shard_count cfg.
Definition jobs_of_shard (i : Z) jobs : Prop := Forall (λ j, flush_ok cfg WRITE_BACK j ∧ f_shard_index j = i) jobs.

(** Only these shards may still have dirty entries. *)
Definition clean_but (shards : list Z) c : Prop :=
  ∀ x sh, Z.of_nat x ∉ shards → c_shards c !! x = Some sh → clean_shard sh.

(** [_flush_dirty_entries_sync] is in the middle of a shard: the dirty entries left in it are the subject of the jobs left. *)
Record site_ok jobs (y : sync_site K V) c : Prop := {
  so_shard : 0 ≤ sy_shard y < cfg_shard_count cfg;
  so_shards : in_range (sy_shards y);
  so_nodup : NoDup (sy_shard y :: sy_shards y);
  so_jobs : jobs_of_shard (sy_shard y) (jobs ++ sy_jobs y);
  so_clean : sy_failed y = false → clean_but (sy_shard y :: sy_shards y) c;
  so_covered : sy_failed y = false → dirty_covered (Z.to_nat (sy_shard y)) (jobs ++ sy_jobs y) c;
}.

Definition closer_ok z c : Prop :=
  match z with
  | Serving | Joining => True
  | Collecting shards => in_range shards
  | Queueing i jobs shards | Releasing i jobs shards =>
      0 ≤ i < cfg_shard_count cfg ∧ in_range shards ∧ jobs_of_shard i jobs
  | Flushing shards failed => in_range shards ∧ NoDup shards ∧ (failed = false → clean_but shards c)
  | Checking y => site_ok [] y c
  | Writing _ job y => site_ok [job] y c ∧ checked true job c
  | Marking job y => site_ok [job] y c ∧ f_operation job = "put" ∧ written true job c
  | Clearing succeeded _ y =>
      site_ok [] (mkSite (sy_shard y) (sy_jobs y) (sy_shards y) (sy_failed y || negb succeeded)) c
  | Stopping failed | Halting _ failed => failed = false → clean_but [] c
  | Ended r => r = Ok tt → clean_but [] c
  end.

Lemma clean_but_settling shards c c' : settling c c' → clean_but shards c → clean_but shards c'.
Proof.
  intros [Hs _] Hc x sh' Hx Hsh' k e' He'. destruct (Hs _ _ Hsh') as (sh & Hsh & Hk).
  destruct (Hk k e' He') as (e & He & _ & _ & Hd). pose proof (Hc x sh Hx Hsh k e He) as Hde.
  destruct (e_dirty e'); [|done]. by rewrite Hd in Hde.
Qed.
Lemma covered_settling i jobs c c' : settling c c' → dirty_covered i jobs c → dirty_covered i jobs c'.
Proof.
  intros [Hs _] Hc sh' k x' Hsh' Hx' Hd'. destruct (Hs _ _ Hsh') as (sh & Hsh & Hk).
  destruct (Hk k x' Hx') as (x & Hx & -> & _ & Hd). apply (Hc sh k x); auto.
Qed.
Lemma site_settling jobs y c c' : settling c c' → site_ok jobs y c → site_ok jobs y c'.
Proof.
  intros Hs []. split; try done; intros ?; [eapply clean_but_settling|eapply covered_settling]; first [done|auto].
Qed.

(** What the others do leaves [close] where it is. *)
Lemma closer_ok_settling z c c' : (frozen z = true → settling c c') → closer_ok z c → closer_ok z c'.
Proof.
  intros Hs Hz. destruct z as [|l|i jobs l|i jobs l| |l b|y|n job y|job y|ok job y|b|st b|r]; simpl in *; try done;
    specialize (Hs eq_refl).
  - destruct Hz as (? & ? & ?). split_conj; [done..|]. intros ?. eapply clean_but_settling; [done|auto].
  - by eapply site_settling.
  - destruct Hz as [Hy Hc]. split; [by eapply site_settling|exact (checked_settling _ _ _ Hs Hc)].
  - destruct Hz as (Hy & ? & ?). split_conj; [by eapply site_settling|done|].
    eapply written_settling; [|done..]. pose proof (so_jobs _ _ _ Hy) as Hj. by apply Forall_cons in Hj as [[? _] _].
  - by eapply site_settling.
  - intros ?. eapply clean_but_settling; [done|auto].
  - intros ?. eapply clean_but_settling; [done|auto].
  - intros ?. eapply clean_but_settling; [done|auto].
Qed.

(** What an action of [close] leaves: it never raises, and the worker can rely on what it knew. *)
Definition closes b held c (out : Cache K V P * result (closer K V)) : Prop :=
  ∃ z', out.2 = Ok z' ∧ cwb cfg b (closer_jobs z' ++ held) out.1 ∧ closer_ok z' out.1 ∧
        if frozen z' then settling c out.1 else call_safe shard_dirtier c out.1.

Section steps.
Context (b : Z) (Hb : 0 ≤ b) (held : list (FlushWriteBack K V)).

Lemma cwb_mode hs c : cwb cfg b hs c → c_write_mode c = WRITE_BACK.
Proof. intros [Hw _]. apply (ci_mode _ _ _ _ (wbi_inv _ _ _ _ Hw)). Qed.

Lemma cwb_held hs c : cwb cfg b (hs ++ held) c → cwb cfg b held c.
Proof. intros Hc. eapply cwb_fewer; [|exact Hc]. intros x Hx. apply elem_of_app. by right. Qed.

(** An action that leaves the entries and the source alone. *)
Lemma closes_quiet {A} (m : M (Cache K V P) A) z c c' a :
  cwb cfg b held c → m c = (c', Ok a) → (∀ R, Walkable R → keeps (call_safe R c) m) →
  cwb cfg b (closer_jobs z ++ held) c' → closer_ok z c' →
  closes b held c (c', Ok z).
Proof.
  intros Hc E Hm Hw Hz. exists z. split_conj; [done..|].
  assert (∀ R, Walkable R → call_safe R c c') as Hs.
  { intros R HR. pose proof (Hm R HR c (call_safe_refl R c (cwb_mode _ _ Hc))) as Hs. by rewrite E in Hs. }
  destruct (frozen z); [apply safe_settling|]; apply Hs; apply _.
Qed.

Lemma closer_collect survivors i shards c :
  cwb cfg b held c → in_range (i :: shards) → closes b held c (closer_step survivors (Collecting (i :: shards)) c).
Proof.
  intros Hc Hr. pose proof (Hr i (list_elem_of_here _ _)) as Hi. unfold_closer. rewrite (bind_ok _ _ c c c) by done. cbn beta iota.
  set (n := cfg_write_back_retry_count _).
  destruct (cwb_collect cfg b held n i c Hi Hc) as (c' & jobs & E & Hj & Hc').
  rewrite (bind_ok _ _ _ _ _ E). apply (closes_quiet _ (Queueing i jobs shards) c c' jobs Hc E); [|done|].
  - intros R HR. apply (safe_backend R). intros sh. apply collect_backend.
  - cbn [closer_ok]. split_conj; [lia..| |done]. intros x Hx. by apply Hr, list_elem_of_further.
Qed.

(** The queue takes a job or is full. *)
Lemma cwb_enqueue job hs c :
  flush_ok cfg WRITE_BACK job → cwb cfg b (job :: hs) c →
  ∃ c', (enqueue_job (FlushJob job) true c = (c', Ok true) ∧ cwb cfg b hs c') ∨
        (enqueue_job (FlushJob job) true c = (c', Raise QueueBackpressureError) ∧ cwb cfg b (job :: hs) c').
Proof.
  intros Hj [Hw Ho].
  destruct (enqueue_job_critical (FlushJob job) c) as [q Hq].
  destruct (wbi_enqueue cfg b hs job c Hj Hw) as [(c1 & E & Hw1)|(c1 & E & Hw1)]; exists c1; [left|right];
    (split; [done|]; split; [done|]); rewrite E in Hq; unfold is_open in *; by destruct Hq as [[= ->]|[= ->]].
Qed.

Lemma closer_queue survivors i jobs shards c :
  cwb cfg b (jobs ++ held) c → closer_ok (Queueing i jobs shards) c →
  closes b held c (closer_step survivors (Queueing i jobs shards) c).
Proof.
  intros Hc (Hi & Hr & Hj). unfold_closer. rewrite (bind_ok _ _ c c c) by done. cbn beta iota.
  pose proof (cwb_held _ _ Hc) as Hc0.
  destruct jobs as [|job jobs].
  { apply (closes_quiet (mret tt) (Collecting shards) c c tt); [done|done|intros; apply keeps_ret|done|done]. }
  apply Forall_cons in Hj as [[Hj Hidx] Hjs].
  destruct (cwb_enqueue job (jobs ++ held) c Hj Hc) as (c1 & [(E & Hc1)|(E & Hc1)]);
    pose proof (attempt_eq _ _ _ _ E) as Ea; rewrite (bind_ok _ _ _ _ _ Ea);
    (eapply (closes_quiet _ _ c c1 _ Hc0 Ea); [intros R HR; apply keeps_attempt, (safe_enqueue R)|done|]).
  - cbn [closer_ok]. split_conj; first [lia|done].
  - cbn [closer_ok]. split_conj; [lia..|done|]. by constructor.
Qed.

Lemma closer_release survivors i jobs shards c :
  cwb cfg b (jobs ++ held) c → closer_ok (Releasing i jobs shards) c →
  closes b held c (closer_step survivors (Releasing i jobs shards) c).
Proof.
  intros Hc (Hi & Hr & Hj). unfold_closer. rewrite (bind_ok _ _ c c c) by done. cbn beta iota.
  pose proof (cwb_held _ _ Hc) as Hc0.
  destruct jobs as [|job jobs].
  { apply (closes_quiet (mret tt) (Collecting shards) c c tt); [done|done|intros; apply keeps_ret|done|done]. }
  apply Forall_cons in Hj as [[Hj Hidx] Hjs]. destruct Hc as [Hw Ho].
  destruct (wbi_resolve cfg b (jobs ++ held) job c tt Hj Hw) as (c1 & E & Hw1). rewrite Hidx in E.
  rewrite (bind_ok _ _ _ _ _ E).
  eapply (closes_quiet _ _ c c1 _ Hc0 E); [intros R HR; apply (safe_resolve R)| |cbn [closer_ok]; split_conj; first [lia|done]].
  split; [done|].
  pose proof (same_state_lock (c_state c) i (λ sh, (resolve_pending_locked (f_key job) sh, tt)) c eq_refl) as Hst.
  rewrite E in Hst. unfold is_open, same_state in *. simpl in Hst. by rewrite Hst.
Qed.

Lemma closer_flush survivors shards failed c :
  cwb cfg b held c → closer_ok (Flushing shards failed) c →
  closes b held c (closer_step survivors (Flushing shards failed) c).
Proof.
  intros Hc (Hr & Hnd & Hcl). unfold_closer. rewrite (bind_ok _ _ c c c) by done. cbn beta iota.
  destruct shards as [|i shards].
  - set (m := if failed then _ else _). assert (∃ c', m c = (c', Ok tt) ∧ cwb cfg b held c' ∧ c_shards c' = c_shards c)
      as (c' & E & Hc' & Hs).
    { subst m. destruct failed; [|by exists c]. eexists. split; [done|]. split; [|done].
      by apply (cwb_inc_runtime cfg b held shutdown_flush_failures c). }
    rewrite (bind_ok _ _ _ _ _ E). apply (closes_quiet m (Stopping failed) c c' tt Hc E); [|done|].
    + intros R HR. subst m. destruct failed; [apply (safe_inc_runtime R)|apply keeps_ret].
    + intros Hf x sh. rewrite Hs. by apply Hcl.
  - pose proof (Hr i (list_elem_of_here _ _)) as Hi. set (n := cfg_write_back_retry_count _).
    destruct (run_lock_at cfg WRITE_BACK b i (λ sh, (sh, dirty_put_jobs n sh ++ tombstone_jobs n sh)) c
      (wbi_inv _ _ _ _ (proj1 Hc)) Hi) as (sh & Hsh & _ & E).
    cbn [fst snd] in E. rewrite (with_shard_id _ sh c Hsh) in E.
    destruct (cwb_collected cfg b held (Z.to_nat i) sh n c Hc Hsh) as [Hcj Hjobs]. rewrite Z2Nat.id in Hjobs by lia.
    rewrite (bind_ok _ _ _ _ _ E).
    apply (closes_quiet _ (Checking (mkSite i (dirty_put_jobs n sh ++ tombstone_jobs n sh) shards failed)) c c _ Hc E);
      [|done|].
    + intros R HR. by apply (safe_backend R).
    + split; simpl; try done.
      * intros x Hx. by apply Hr, list_elem_of_further.
      * intros _. apply (collected_covers cfg b _ sh n c (wbi_inv _ _ _ _ (proj1 Hc)) Hsh).
Qed.

(** The jobs of a shard are done: it is clean. *)
Lemma closer_check_done survivors i shards failed c :
  cwb cfg b held c → closer_ok (Checking (mkSite i [] shards failed)) c →
  closes b held c (closer_step survivors (Checking (mkSite i [] shards failed)) c).
Proof.
  intros Hc [Hi Hr Hnd Hj Hcl Hcov]. cbn [sy_shard sy_jobs sy_shards sy_failed app] in *.
  apply (closes_quiet (mret tt) (Flushing shards failed) c c tt); [done|done|intros; apply keeps_ret|done|].
  cbn [closer_ok]. split_conj; [done|by apply NoDup_cons in Hnd as [_ ?]|]. intros Hf x sh Hx Hsh.
  destruct (decide (Z.of_nat x = i)) as [<-|Hne]; [|by apply (Hcl Hf x); [apply not_elem_of_cons|]].
  intros k e He. destruct (e_dirty e) eqn:Hd; [|done]. rewrite Nat2Z.id in Hcov.
  destruct (Hcov Hf sh k e Hsh He Hd) as (j & Hj' & _). by apply not_elem_of_nil in Hj'.
Qed.

(** The stale check of the next job. *)
Lemma closer_check survivors y c :
  cwb cfg b (sy_jobs y ++ held) c → closer_ok (Checking y) c → closes b held c (closer_step survivors (Checking y) c).
Proof.
  intros Hc Hy. destruct y as [i [|job jobs] shards failed]; [by apply closer_check_done|].
  unfold_closer. rewrite (bind_ok _ _ c c c) by done. cbn beta iota.
  pose proof (cwb_held _ _ Hc) as Hc0. destruct Hy as [Hi Hr Hnd Hj Hcl Hcov]. cbn [sy_shard sy_jobs sy_shards sy_failed app] in *.
  apply Forall_cons in Hj as [[Hj Hidx] Hjs]. destruct Hc as [Hw Ho].
  set (f := λ sh : CacheShard K V P, if is_stale_write_back (sh_version_marks sh) (sh_tombstones sh) job
    then (clear_pending_flushes_locked (f_key job) sh, true) else (sh, false)).
  destruct (wbi_closed_lock cfg b (job :: jobs ++ held) (job :: jobs ++ held) i f c Hi Ho Hw)
    as (sh & c1 & Hsh & E & Ec1 & Hw1).
  { intros x data s Hs. unfold f. destruct (is_stale_write_back _ _ _); [by apply clear_pending_inv|done]. }
  { intros s. unfold f. destruct (is_stale_write_back _ _ _); [apply clear_pending_backend|done]. }
  { done. }
  assert (∀ R, Walkable R → keeps (call_safe R c) (with_lock i f)) as Hsafe.
  { intros R HR. apply (safe_backend R). intros s. unfold f.
    destruct (is_stale_write_back _ _ _); [apply clear_pending_backend|done]. }
  pose proof (ci_shards _ _ _ _ (wbi_inv _ _ _ _ Hw) _ _ Hsh) as [Hwf _].
  rewrite run_bind, E. unfold f in *. destruct (is_stale_write_back _ _ job) eqn:Est; cbn [fst snd] in *.
  - (* stale: it covers no dirty entry *)
    set (c2 := (inc_runtime stale_write_back_jobs_skipped c1).1).
    assert (cwb cfg b (jobs ++ held) c2) as Hc2.
    { apply (cwb_inc_runtime cfg b _ stale_write_back_jobs_skipped c1). eapply cwb_fewer; [intros x; apply list_elem_of_further|].
      by split; [|subst c1]. }
    eapply (closes_quiet (with_lock i f ;; inc_runtime stale_write_back_jobs_skipped)
      (Checking (mkSite i jobs shards failed)) c c2 tt Hc0); [rewrite run_bind; unfold f; by rewrite E| |done|].
    { intros R HR. apply keeps_bind; [by apply Hsafe|intros _; apply (safe_inc_runtime R)]. }
    assert (settling c c2) as Hset.
    { subst c2. apply (settling_after c c1 (λ c, set_runtime (runtime_inc stale_write_back_jobs_skipped (c_runtime c)) c)); [done|].
      apply safe_settling. pose proof (Hsafe shard_keeps _ c (call_safe_refl _ c (cwb_mode _ _ Hc0))) as Hs. by rewrite E in Hs. }
    split; try done; intros Hf; [eapply clean_but_settling; [done|by apply Hcl]|]. cbn [sy_shard sy_jobs app].
    eapply (covered_after (Z.to_nat i) job jobs c _ sh); [done| | |by apply Hcov].
    + subst c2 c1. by apply list_lookup_insert_eq, lookup_lt_is_Some.
    + intros k x Hx _. cbn [fst] in Hx. rewrite clear_pending_backend in Hx. split; [done|].
      intros (Hop & <- & Hver). by rewrite (stored_version_not_stale sh job x) in Est.
  - rewrite (with_shard_id _ sh c Hsh) in Ec1. subst c1.
    eapply (closes_quiet (with_lock i f) (Writing (Z.to_nat (f_retries_left job + 1)) job (mkSite i jobs shards failed)) c c _ Hc0 E);
      [done|done|]. split.
    + split; try done. by constructor.
    + eapply (matches_checked true job c sh); [by rewrite Hidx|].
      eapply (fresh_matches cfg b); [done|done|by rewrite Hidx|done].
Qed.

(** An attempt to write a job to the source. *)
Lemma sync_write_is_apply job :
  f_operation job = "put" ∨ f_operation job = "delete" →
  (if String.eqb (f_operation job) "put" then with_source (put_value (f_key job) (f_value job))
   else with_source (delete_value (f_key job))) = (with_source (apply_write_back job) : M (Cache K V P) unit).
Proof. unfold apply_write_back. by intros [-> | ->]. Qed.

Lemma site_fewer job y c ok :
  site_ok [job] y c → (ok = true → f_operation job ≠ "put") →
  site_ok [] (mkSite (sy_shard y) (sy_jobs y) (sy_shards y) (sy_failed y || negb ok)) c.
Proof.
  intros [Hi Hr Hnd Hj Hcl Hcov] Hop. split; try done; cbn [sy_failed sy_shard sy_jobs sy_shards app] in *.
  - by apply Forall_cons in Hj as [_ ?].
  - intros [Hf _]%orb_false_iff. by apply Hcl.
  - intros [Hf Hok]%orb_false_iff. specialize (Hcov Hf). intros sh k x Hsh Hx Hd.
    destruct (Hcov sh k x Hsh Hx Hd) as (j & [-> |Hin]%elem_of_cons & Hj'); [|by exists j].
    destruct Hop; [by destruct ok|apply Hj'].
Qed.

(** The pause before the next attempt. *)
Lemma pause_run (n : nat) delay c :
  ∃ c', (if (0 <? n)%nat then inc_runtime write_back_retries ;; sleep delay else mret tt) c = (c', Ok tt) ∧
    (∀ hs, cwb cfg b hs c → cwb cfg b hs c') ∧ (∀ c0, settling c0 c → settling c0 c').
Proof.
  destruct (0 <? n)%nat; [|by exists c].
  eexists (set_clock (clock_sleep (c_clock c) delay) (set_runtime (runtime_inc write_back_retries (c_runtime c)) c)).
  split_conj; [done| |].
  - intros hs Hc. by apply (cwb_field cfg b hs (λ c1, set_clock (clock_sleep (c_clock c) delay)
      (set_runtime (runtime_inc write_back_retries (c_runtime c)) c1))).
  - intros c0 Hs. by apply (settling_after c0 c (λ c1, set_clock (clock_sleep (c_clock c) delay)
      (set_runtime (runtime_inc write_back_retries (c_runtime c)) c1))).
Qed.

Lemma closer_write survivors n job y c :
  cwb cfg b (job :: sy_jobs y ++ held) c → closer_ok (Writing n job y) c →
  closes b held c (closer_step survivors (Writing n job y) c).
Proof.
  intros Hc [Hy Hch]. unfold_closer. rewrite (bind_ok _ _ c c c) by done. cbn beta iota.
  pose proof (so_jobs _ _ _ Hy) as Hj. apply Forall_cons in Hj as [[Hj Hidx] _].
  assert (cwb cfg b (sy_jobs y ++ held) c) as Hc1 by (eapply cwb_fewer; [|exact Hc]; intros x; apply list_elem_of_further).
  destruct n as [|n].
  { pose proof (cwb_inc_runtime cfg b _ flush_failures c Hc1) as Hc2.
    apply (closes_quiet (inc_runtime flush_failures) (Clearing false job y) c _ tt (cwb_held _ _ Hc1)); [done| |done|].
    - intros R HR. apply (safe_inc_runtime R).
    - apply (site_fewer job); [|done]. eapply site_settling; [|done].
      by apply (settling_after c c (λ c, set_runtime (runtime_inc flush_failures (c_runtime c)) c)), settling_refl. }
  pose proof Hj as (i & Hi & Hh). rewrite sync_write_is_apply by apply (jh_operation _ _ _ _ Hh).
  pose proof (apply_write_back_cases job (c_source c) (jh_operation _ _ _ _ Hh)) as Ha.
  unfold attempt, with_source. rewrite run_bind. destruct (apply_write_back job (c_source c)) as [src' r].
  assert (sd_data src' = sd_data (c_source c) ∨ sd_data src' = applied job (sd_data (c_source c))) as Hd
    by (destruct Ha as [(e & _ & ->)|[_ ->]]; auto).
  pose proof (applied_settling job src' c Hj Hch Hd) as Hset.
  assert (cwb cfg b (job :: sy_jobs y ++ held) (set_source src' c)) as Hc2.
  { destruct Hc as [Hw Ho]. split; [|done]. apply wbi_source; [done..|intros sh Hsh; by eapply checked_agrees|done]. }
  pose proof (site_settling _ _ _ _ Hset Hy) as Hy2. destruct Ha as [(e & -> & _)|[-> Hda]].
  - destruct (pause_run n (cfg_write_back_retry_delay (c_config c)) (set_source src' c)) as (c3 & E3 & Hcwb & Hst).
    rewrite (bind_ok _ _ _ _ _ E3). exists (Writing n job y). split_conj; [done|by apply Hcwb| |by apply Hst].
    split; [by eapply site_settling; [apply Hst|]|by eapply checked_settling; [apply Hst|]].
  - destruct (String.eqb_spec (f_operation job) "put") as [Hop|Hop].
    + exists (Marking job y). split_conj; [done|done| |done]. split; [done|]. split; [done|].
      eapply (put_written cfg _ b); [done|apply Hc2|]. intros _. simpl. rewrite Hda. unfold applied. rewrite Hop. simpl.
      apply dict_get_set_eq.
    + exists (Clearing true job y). split_conj; [done| | |done].
      * eapply cwb_fewer; [|exact Hc2]. intros x. apply list_elem_of_further.
      * by apply (site_fewer job).
Qed.

Lemma closer_mark survivors job y c :
  cwb cfg b (job :: sy_jobs y ++ held) c → closer_ok (Marking job y) c →
  closes b held c (closer_step survivors (Marking job y) c).
Proof.
  intros Hc (Hy & Hop & Hwr). unfold_closer. rewrite (bind_ok _ _ c c c) by done. cbn beta iota.
  pose proof Hy as [Hi Hr Hnd Hjs Hcl Hcov]. apply Forall_cons in Hjs as [[Hj Hidx] Hjs].
  destruct (run_lock_at cfg WRITE_BACK b (sy_shard y) (λ sh, (mark_clean job sh, tt)) c
    (wbi_inv _ _ _ _ (proj1 Hc)) Hi) as (sh & Hsh & _ & E). cbn [fst snd] in E. rewrite (bind_ok _ _ _ _ _ E).
  assert (settling c (with_shard (Z.to_nat (sy_shard y)) (mark_clean job sh) c)) as Hset.
  { apply safe_settling. change (with_shard _ _ _) with (with_shard (Z.to_nat (sy_shard y)) (mark_clean job sh) c, Ok tt).1.
    rewrite <- E. apply (safe_lock shard_keeps); [intros s; apply mark_clean_keeps|]. by apply (call_safe_refl shard_keeps), (cwb_mode _ _ Hc). }
  assert (cwb cfg b (job :: sy_jobs y ++ held) (with_shard (Z.to_nat (sy_shard y)) (mark_clean job sh) c)) as Hc1.
  { apply (wbi_mark_clean cfg b); [done|done|rewrite Hidx; lia|done|done|done]. }
  exists (Clearing true job y). split_conj; [done| | |done].
  - eapply cwb_fewer; [|exact Hc1]. intros x. apply list_elem_of_further.
  - split; try done; cbn [sy_failed sy_shard sy_jobs sy_shards app]; intros [Hf _]%orb_false_iff.
    + eapply clean_but_settling; [done|by apply Hcl].
    + eapply (covered_after _ job (sy_jobs y) c _ sh); [done| | |by apply Hcov].
      * by apply list_lookup_insert_eq, lookup_lt_is_Some.
      * intros k x Hx Hd. destruct (mark_clean_dirty job sh k x Hx Hd) as [Hx' Hne]. split; [done|].
        intros (_ & Hk & Hver). by destruct (Hne Hk).
Qed.

Lemma closer_clear survivors ok job y c :
  cwb cfg b (sy_jobs y ++ held) c → closer_ok (Clearing ok job y) c →
  closes b held c (closer_step survivors (Clearing ok job y) c).
Proof.
  intros Hc Hy. unfold_closer. rewrite (bind_ok _ _ c c c) by done. cbn beta iota.
  pose proof (so_shard _ _ _ Hy) as Hi. simpl in Hi. destruct Hc as [Hw Ho].
  destruct (wbi_closed_lock cfg b (sy_jobs y ++ held) (sy_jobs y ++ held) (sy_shard y)
    (λ sh, (clear_pending_flushes_locked (f_key job) sh, tt)) c Hi Ho Hw) as (sh & c1 & Hsh & E & Ec1 & Hw1);
    [intros x data s; apply clear_pending_inv|intros s; apply clear_pending_backend|done|].
  rewrite (bind_ok _ _ _ _ _ E).
  assert (∀ R, Walkable R → keeps (call_safe R c) (with_lock (sy_shard y)
    (λ sh, (clear_pending_flushes_locked (f_key job) sh, tt)))) as Hsafe
    by (intros R HR; apply (safe_backend R); intros s; apply clear_pending_backend).
  eapply (closes_quiet _ _ c c1 tt); [eapply cwb_held; by split|exact E|done|by split; [|subst c1]|].
  eapply site_settling; [|exact Hy]. apply safe_settling.
  pose proof (Hsafe shard_keeps _ c (call_safe_refl _ c (ci_mode _ _ _ _ (wbi_inv _ _ _ _ Hw)))) as Hs. by rewrite E in Hs.
Qed.

(** [WorkerPool.stop] only touches the pool and the queue. *)
Lemma clean_but_after shards c c' : c_shards c' = c_shards c → clean_but shards c → clean_but shards c'.
Proof. intros E Hc x sh. rewrite E. apply Hc. Qed.

Lemma closer_stop survivors failed c :
  cwb cfg b held c → closer_ok (Stopping failed) c → closes b held c (closer_step survivors (Stopping failed) c).
Proof.
  intros Hc Hz. unfold_closer. rewrite (bind_ok _ _ c c c) by done. cbn beta iota.
  set (m := if wp_started (c_pool c) then _ else _).
  assert (∀ R, Walkable R → keeps (call_safe R c) m) as Hsafe.
  { intros R HR. subst m. apply keeps_if; [|apply keeps_ret]. apply keeps_bind; [by apply (safe_field R)|intros _].
    apply keeps_for_each. intros i _. by apply (safe_field R). }
  assert (keeps (cwb cfg b held) m) as Hk.
  { subst m. apply keeps_if; [|apply keeps_ret]. apply keeps_bind; [by apply cwb_field|intros _].
    apply keeps_for_each. intros i _. by apply cwb_offer. }
  assert (∃ c', m c = (c', Ok tt)) as [c' E].
  { clear Hsafe Hk. subst m. destruct (wp_started _); [|by exists c]. rewrite run_bind. cbn [modify].
    generalize (set_pool (mkPool (wp_count (c_pool c)) true (wp_threads (c_pool c)) true) c) as c1.
    induction (py_range (wp_threads (c_pool c))) as [|i l IH]; intros c1; [by exists c1|]. cbn [for_each]. rewrite run_bind. cbn [modify]. apply IH. }
  specialize (Hk c Hc). rewrite E in Hk. rewrite (bind_ok _ _ _ _ _ E).
  apply (closes_quiet m (Halting (wp_started (c_pool c)) failed) c c' tt Hc E Hsafe Hk). intros Hf. eapply clean_but_settling; [|by apply Hz].
  apply safe_settling. pose proof (Hsafe shard_keeps _ c (call_safe_refl _ c (cwb_mode _ _ Hc))) as Hs. by rewrite E in Hs.
Qed.

Lemma closer_halt survivors started failed c :
  cwb cfg b held c → closer_ok (Halting started failed) c →
  closes b held c (closer_step survivors (Halting started failed) c).
Proof.
  intros Hc Hz. unfold_closer. rewrite (bind_ok _ _ c c c) by done. cbn beta iota.
  set (m := if started then _ else _).
  assert (∃ c1, m c = (c1, Ok tt) ∧ cwb cfg b held c1 ∧ c_shards c1 = c_shards c ∧ c_source c1 = c_source c)
    as (c1 & E1 & Hc1 & Es1 & Ed1).
  { subst m. destruct started; [|by exists c]. eexists. split; [done|]. split; [|done].
    by apply (cwb_field cfg b held (λ c, set_pool (mkPool (wp_count (c_pool c)) false survivors (wp_stop_event (c_pool c))) c)). }
  pose proof (cwb_drain cfg b Hb held c1 Hc1) as Hc2.
  assert (∃ c2 n, with_queue queue_drain c1 = (c2, Ok n) ∧ c_shards c2 = c_shards c1 ∧ c_source c2 = c_source c1)
    as (c2 & n & E2 & Es2 & Ed2).
  { pose proof (ci_queue _ _ _ _ (wbi_inv _ _ _ _ (proj1 Hc1))) as Hq. unfold with_queue, queue_drain. rewrite run_bind. cbn [get_state].
    rewrite drain_loop_spec by (apply Hq || lia). by eexists _, _. }
  rewrite (bind_ok _ _ c c2 n) by by rewrite (bind_ok _ _ _ _ _ E1), E2. rewrite E2 in Hc2.
  pose proof (wbi_set_state cfg b held CLOSED c2 (or_intror eq_refl) (proj1 Hc2)) as Hc3.
  eexists. split; [reflexivity|]. split; [exact Hc3|].
  assert (c_shards (set_state CLOSED c2) = c_shards c ∧ c_source (set_state CLOSED c2) = c_source c) as [Es Ed]
    by (simpl; split; congruence).
  change (_.1) with (set_state CLOSED c2). split.
  - cbn [closer_ok]. destruct failed; [done|]. intros _. eapply clean_but_after; [exact Es|by apply Hz].
  - split; rewrite ?Es, ?Ed; [intros i sh Hsh; by exists sh|]. intros i k _. by left.
Qed.

Lemma closer_step_closes survivors z c :
  z ≠ Serving → cwb cfg b (closer_jobs z ++ held) c → closer_ok z c → closes b held c (closer_step survivors z c).
Proof.
  intros Hne Hc Hz. destruct z as [|l|i jobs l|i jobs l| |l f|y|n job y|job y|ok job y|f|st f|r]; [done|..].
  - destruct l as [|i l]; [|by apply closer_collect].
    apply (closes_quiet (mret tt) Joining c c tt); [done|done|intros; apply keeps_ret|done|done].
  - by apply closer_queue.
  - by apply closer_release.
  - unfold_closer. rewrite (bind_ok _ _ c c c) by done. cbn beta iota.
    apply (closes_quiet (mret tt)
      (if pool_runs c && negb (queue_join_until (c_queue c)) then Joining else Flushing (shard_indices c) false) c c tt);
      [done|done|intros; apply keeps_ret| |]; destruct (_ && _); try done.
    pose proof (wbi_inv _ _ _ _ (proj1 Hc)) as Hi. cbn [closer_ok]. split_conj; [|apply shard_indices_nodup|].
    + intros x Hx. by apply (shard_indices_ok cfg WRITE_BACK b c).
    + intros _ x sh Hx Hsh. destruct Hx. apply elem_of_py_range. apply lookup_lt_Some in Hsh. lia.
  - by apply closer_flush.
  - by apply closer_check.
  - by apply closer_write.
  - by apply closer_mark.
  - by apply closer_clear.
  - by apply closer_stop.
  - by apply closer_halt.
  - apply (closes_quiet (mret tt) (Ended r) c c tt); [done|done|intros; apply keeps_ret|done|done].
Qed.
End steps.

(** [close] goes on to flush by itself only when every task is done or there are no threads. *)
Lemma closer_thaws survivors z c c' z' :
  closer_step survivors z c = (c', Ok z') → frozen z = false → frozen z' = true →
  c' = c ∧ (pool_runs c = true → queue_join_until (c_queue c) = true).
Proof.
  unfold_closer; unfold mbind, M_bind, get_state, modify, mret, M_ret.
  destruct z as [|[|i l]|i [|job jobs] l|i [|job jobs] l| | | | | | | | |]; try done; intros E _ Hz'.
  - destruct (c_state c); by simplify_eq/=.
  - by simplify_eq/=.
  - destruct (with_lock _ _ _) as [c1 [u|e]]; by simplify_eq/=.
  - by simplify_eq/=.
  - unfold attempt in E. destruct (enqueue_job _ _ _) as [c1 [u|[]]]; by simplify_eq/=.
  - by simplify_eq/=.
  - destruct (with_lock _ _ _) as [c1 [u|e]]; by simplify_eq/=.
  - destruct (pool_runs c), (queue_join_until (c_queue c)); by simplify_eq/=.
Qed.

Lemma closer_stays_frozen survivors z c c' z' :
  closer_step survivors z c = (c', Ok z') → frozen z = true → frozen z' = true.
Proof.
  unfold_closer; unfold mbind, M_bind, get_state, modify, mret, M_ret, attempt, inc_runtime, sleep.
  intros E Hz. destruct z as [| | | | |[|i l] f|[i [|job jobs] l f]|[|n] job y|job y|ok job y|f|st f|r]; try done; repeat case_match; by simplify_eq/=.
Qed.

(** *** All together *)

Definition jobs_in (ps : list (caller K V)) : list (FlushWriteBack K V) := ps ≫= caller_jobs.

Definition caller_ok p : Prop := match p with Emptying _ shards => in_range shards | _ => True end.

Record together_inv (s : together K V P) : Prop := {
  ti_worker : worker_wb cfg (frozen (t_closer s)) (closer_jobs (t_closer s) ++ jobs_in (t_clients s)) (t_worker s) (t_cache s);
  ti_clients : Forall (flush_ok cfg WRITE_BACK) (jobs_in (t_clients s));
  ti_callers : Forall caller_ok (t_clients s);
  ti_closer : closer_ok (t_closer s) (t_cache s);
  ti_shut : t_closer s ≠ Serving → ¬ is_open (t_cache s);
  ti_thread : frozen (t_closer s) = false → pool_runs (t_cache s) = false → t_worker s = Exited;
}.

(** A pool that runs goes on running until [close] stops it. *)
Lemma pool_runs_safe R b b' held held' c c' :
  wbi cfg b held c → wbi cfg b' held' c' → call_safe R c c' → pool_runs c' = false → pool_runs c = false.
Proof.
  intros Hw Hw' Hs. unfold pool_runs.
  rewrite (ci_config _ _ _ _ (wbi_inv _ _ _ _ Hw)), (ci_config _ _ _ _ (wbi_inv _ _ _ _ Hw')).
  pose proof (cs_started _ _ _ Hs) as Hst. destruct (wp_started (c_pool c)); [|done]. by rewrite Hst.
Qed.

(** The calls of the clients keep what [WriteBack] demands. *)
Lemma client_call_wb b held c c' : client_call c c' → wbi cfg b held c → wbi cfg b held c'.
Proof.
  intros Hc Hw. destruct Hc.
  - by apply wbi_start.
  - by apply wbi_get.
  - by apply wbi_contains.
  - by apply wbi_inspect_op.
  - by apply wbi_dump.
  - by apply wbi_expire_all.
  - by apply wbi_preload.
  - by apply wbi_request_snapshot.
  - by apply wbi_scheduler_tick.
  - by apply wbi_restore.
  - apply wbi_get_or_compute; [done|apply keeps_lift|apply keeps_ret|done].
Qed.
Lemma client_commit_wb b held c c' jobs :
  client_commit c c' jobs → wbi cfg b held c →
  wbi cfg b (jobs ++ held) c' ∧ Forall (flush_ok cfg WRITE_BACK) jobs.
Proof.
  intros Hc Hw. destruct Hc as [key value ttl c c' r E|key c c' r E].
  - pose proof (wbi_put_commit cfg Hkeep b held key value ttl c Hw) as Hcm. by rewrite E in Hcm.
  - pose proof (wbi_delete_commit cfg b held key c Hw) as Hcm. by rewrite E in Hcm.
Qed.
Lemma ambient_wb b held c c' : ambient c c' → wbi cfg b held c → wbi cfg b held c'.
Proof.
  intros Ha Hw. destruct Ha as [c|seconds clock c _|n c].
  - by apply wbi_tick.
  - by apply (wbi_field cfg b held (set_clock clock)).
  - by apply wbi_fail_next.
Qed.
Lemma ambient_state c c' : ambient c c' → c_state c' = c_state c.
Proof. by destruct 1. Qed.

Lemma jobs_in_at ps i p : ps !! i = Some p → jobs_in ps ≡ₚ caller_jobs p ++ jobs_in (delete i ps).
Proof. intros Hi. unfold jobs_in. by rewrite (delete_Permutation ps i p Hi) at 1. Qed.
Lemma jobs_in_insert ps i p p' :
  ps !! i = Some p → jobs_in (<[i := p']> ps) ≡ₚ caller_jobs p' ++ jobs_in (delete i ps).
Proof.
  intros Hi. assert (<[i := p']> ps !! i = Some p') as Hi' by (apply list_lookup_insert_eq; by eapply lookup_lt_Some).
  rewrite (jobs_in_at _ _ _ Hi'). by rewrite !delete_take_drop, take_insert_ge, drop_insert_lt by lia.
Qed.

(** Whoever acts, what the worker relies on is left as it was. *)
Lemma worker_wb_rebase f f' held held' w c c' :
  worker_wb cfg f held w c → wbi cfg (phase_busy w) (held_of w ++ held') c' →
  note f' w c' → worker_wb cfg f' held' w c'.
Proof. intros [Hp _ _] Hw Hn. by split. Qed.
Lemma note_any f w c c' :
  phase_ok cfg WRITE_BACK w → (∀ R, Walkable R → call_safe R c c') → note f w c → note f w c'.
Proof.
  intros Hp Hs Hn. destruct f; [eapply note_settling; [done| |done]; apply safe_settling|eapply note_safe; [|done]];
    apply Hs; apply _.
Qed.
Lemma wbi_swap b (l1 l2 l3 : list (FlushWriteBack K V)) c : wbi cfg b (l1 ++ l2 ++ l3) c → wbi cfg b (l2 ++ l1 ++ l3) c.
Proof. apply wbi_perm. by rewrite !app_assoc, (Permutation_app_comm l1). Qed.

Lemma caller_step_ok p c c' p' : caller_ok p → caller_step p c = (c', Ok p') → caller_ok p'.
Proof.
  unfold caller_step, mbind, M_bind, mret, M_ret, attempt.
  intros Hp E. destruct p as [jobs [|x l]|[|job jobs]|[|job jobs]]; repeat case_match; by simplify_eq/=.
Qed.

(** A client finishes its call. *)
Lemma caller_inv c w ps i p z c' p' :
  together_inv (mkTogether c w ps z) → ps !! i = Some p → caller_step p c = (c', Ok p') →
  together_inv (mkTogether c' w (<[i := p']> ps) z).
Proof.
  intros [Hw Hp Hq Hz Ho Hth] Hi E. simpl in *.
  assert (Forall (flush_ok cfg WRITE_BACK) (caller_jobs p)) as Hj.
  { rewrite (jobs_in_at _ _ _ Hi) in Hp. by apply Forall_app in Hp as [? _]. }
  assert (wbi cfg (phase_busy w) (caller_jobs p ++ (held_of w ++ closer_jobs z ++ jobs_in (delete i ps))) c) as Hw0.
  { apply wbi_swap. eapply wbi_perm; [|exact (ww_cache _ _ _ _ _ Hw)]. rewrite (jobs_in_at _ _ _ Hi).
    by rewrite (Permutation_app_swap_app (caller_jobs p)). }
  destruct (caller_step_wb (phase_busy w) _ p c Hw0 Hj) as (c1 & p1 & E1 & Hw1 & Hj1 & Hst & Hs).
  rewrite E in E1. simplify_eq. split; simpl.
  - eapply worker_wb_rebase; [exact Hw| |].
    + apply wbi_swap in Hw1. eapply wbi_perm; [|exact Hw1]. rewrite (jobs_in_insert _ _ _ _ Hi).
      by rewrite (Permutation_app_swap_app (caller_jobs p1)).
    + eapply note_any; [apply (ww_phase _ _ _ _ _ Hw)|exact Hs|apply (ww_note _ _ _ _ _ Hw)].
  - rewrite (jobs_in_insert _ _ _ _ Hi). rewrite (jobs_in_at _ _ _ Hi) in Hp. apply Forall_app in Hp as [_ ?].
    by apply Forall_app.
  - apply Forall_insert; [done|]. rewrite Forall_lookup in Hq. specialize (Hq i p Hi). by eapply caller_step_ok.
  - eapply closer_ok_settling; [|exact Hz]. intros _. apply safe_settling, Hs. apply _.
  - intros Hne. unfold is_open in *. rewrite Hst. by apply Ho.
  - intros Hf Hr. apply Hth, (pool_runs_safe shard_dirtier _ _ _ _ c _ Hw0 Hw1 ltac:(apply Hs, _) Hr). done.
Qed.

(** [clear] empties its next shard. *)
Lemma empty_inv c w ps i jobs x shards new z c' :
  together_inv (mkTogether c w ps z) → is_open c → ps !! i = Some (Emptying jobs (x :: shards)) →
  clear_shards [x] c = (c', Ok new) → together_inv (mkTogether c' w (<[i := Emptying (jobs ++ new) shards]> ps) z).
Proof.
  intros [Hw Hp Hq Hz Ho Hth] Hop Hi E. cbn [t_cache t_worker t_clients t_closer] in *.
  assert (z = Serving) as -> by (destruct z; try done; by destruct Ho).
  pose proof (ww_cache _ _ _ _ _ Hw) as Hwc. rewrite Forall_lookup in Hq. pose proof (Hq i _ Hi) as Hr. simpl in Hr, Hwc.
  destruct (wbi_clear_shards cfg (phase_busy w) (held_of w ++ jobs_in ps) [x] c) as (c1 & new1 & E1 & Hj & Hw1 & _);
    [intros y ->%list_elem_of_singleton; apply Hr, list_elem_of_here|done|done|].
  rewrite E in E1. simplify_eq.
  assert (jobs_in (<[i := Emptying (jobs ++ new1) shards]> ps) ≡ₚ new1 ++ jobs_in ps) as Hperm.
  { rewrite (jobs_in_insert _ _ _ _ Hi), (jobs_in_at _ _ _ Hi). cbn [caller_jobs].
    by rewrite (Permutation_app_comm jobs new1), app_assoc. }
  pose proof (safe_clear_shards c [x] c (call_safe_refl _ c (ci_mode _ _ _ _ (wbi_inv _ _ _ _ Hwc)))) as Hs. rewrite E in Hs.
  split; simpl; [| | |done|done|].
  - eapply worker_wb_rebase; [exact Hw|eapply wbi_perm; [|exact Hw1]; by rewrite Hperm, Permutation_app_swap_app|].
    by eapply note_safe; [|apply (ww_note _ _ _ _ _ Hw)].
  - rewrite Hperm. by apply Forall_app.
  - apply Forall_insert; [by apply Forall_lookup|]. intros y Hy. by apply Hr, list_elem_of_further.
  - intros _ Hn. apply Hth; [done|]. exact (pool_runs_safe _ _ _ _ _ _ _ Hwc Hw1 Hs Hn).
Qed.
(** The worker acts. *)
Lemma worker_inv c w ps z c' w' :
  together_inv (mkTogether c w ps z) → worker_run w c = (c', Ok w') → together_inv (mkTogether c' w' ps z).
Proof.
  intros [Hw Hp Hq Hz Ho Hth] E. simpl in *.
  destruct (worker_run_after cfg Hkeep (frozen z) _ w c Hw) as (w1 & E1 & Hw1). rewrite E in E1, Hw1. simpl in *. simplify_eq.
  split; simpl; [done|done|done| | |].
  - eapply closer_ok_settling; [|exact Hz]. intros Hf. rewrite Hf in Hw.
    pose proof (worker_run_settling _ w c (Ho ltac:(by intros ->)) Hw) as Hs. by rewrite E in Hs.
  - intros Hne. pose proof (worker_run_state w c (Ho Hne)) as Hst. rewrite E in Hst. unfold is_open in *. simpl in Hst.
    rewrite Hst. by apply Ho.
  - intros Hf Hn. destruct (pool_runs c) eqn:Er.
    + pose proof (worker_run_pool w c) as Hpl. rewrite E in Hpl. unfold pool_runs in *. simpl in Hpl.
      rewrite (ci_config _ _ _ _ (wbi_inv _ _ _ _ (ww_cache _ _ _ _ _ Hw))) in Er.
      rewrite Hpl, (ci_config _ _ _ _ (wbi_inv _ _ _ _ (ww_cache _ _ _ _ _ Hw1))) in Hn. congruence.
    + rewrite (Hth Hf eq_refl) in E. by injection E.
Qed.

(** [close] is called. *)
Lemma close_called_inv survivors c w ps c' z' :
  together_inv (mkTogether c w ps Serving) → closer_step survivors Serving c = (c', Ok z') →
  together_inv (mkTogether c' w ps z').
Proof.
  intros [Hw Hp Hq Hz Ho Hth] E. pose proof (ww_cache _ _ _ _ _ Hw) as Hc. pose proof (wbi_inv _ _ _ _ Hc) as Hi. simpl in *.
  unfold_closer; unfold mbind, M_bind, get_state, modify, mret, M_ret in E.
  assert (c' = c ∧ z' = Serving ∨
    c' = set_scheduler (scheduler_stop (c_scheduler c)) (set_state CLOSING c) ∧ z' = Collecting (shard_indices c)) as
    [[-> ->]|[-> ->]] by (destruct (c_state c); simplify_eq; auto); [done|].
  pose proof (wbi_set_state cfg _ _ CLOSING c (or_introl eq_refl) Hc) as Hc1.
  pose proof (cwb_field cfg _ _ (λ c, set_scheduler (scheduler_stop (c_scheduler c)) c) ltac:(done) _ Hc1) as Hc2.
  split; simpl; [|done|done| |intros _; apply Hc2|exact Hth].
  - eapply worker_wb_rebase; [exact Hw|apply Hc2|apply (ww_note _ _ _ _ _ Hw)].
  - intros x Hx. by apply (shard_indices_ok cfg WRITE_BACK (phase_busy w) c).
Qed.

(** [close] acts. *)
Lemma closer_inv survivors c w ps z c' z' :
  together_inv (mkTogether c w ps z) → closer_step survivors z c = (c', Ok z') → together_inv (mkTogether c' w ps z').
Proof.
  intros Ht E. assert (z = Serving ∨ z ≠ Serving) as [-> |Hne] by (destruct z; auto); [by eapply close_called_inv|].
  destruct Ht as [Hw Hp Hq Hz Ho Hth]. simpl in *. set (b := phase_busy w).
  assert (cwb cfg b (closer_jobs z ++ (held_of w ++ jobs_in ps)) c) as Hc.
  { split; [|by apply Ho]. apply wbi_swap, (ww_cache _ _ _ _ _ Hw). }
  destruct (closer_step_closes b ltac:(apply phase_busy_range) _ survivors z c Hne Hc Hz) as (z1 & E1 & [Hc1 Ho1] & Hz1 & Hs).
  rewrite E in E1, Hc1, Ho1, Hz1, Hs. simpl in *. simplify_eq. split; simpl; [|done|done|done|done|].
  2: { intros Hf1 Hn. assert (frozen z = false) as Hf.
       { destruct (frozen z) eqn:Hf; [|done]. by rewrite (closer_stays_frozen _ _ _ _ _ E Hf) in Hf1. }
       rewrite Hf1 in Hs. apply Hth; [done|]. exact (pool_runs_safe _ _ _ _ _ _ _ (proj1 Hc) Hc1 Hs Hn). }
  eapply worker_wb_rebase; [exact Hw|by apply wbi_swap|].
  pose proof (ww_note _ _ _ _ _ Hw) as Hn. destruct (frozen z) eqn:Hf.
  { rewrite (closer_stays_frozen _ _ _ _ _ E Hf) in *. by eapply note_settling; [apply (ww_phase _ _ _ _ _ Hw)| |]. }
  destruct (frozen z1) eqn:Hf1; [|by eapply note_safe].
  destruct (closer_thaws _ _ _ _ _ E Hf Hf1) as [-> Hj].
  destruct (pool_runs c) eqn:Er; [specialize (Hj eq_refl)|by rewrite (Hth eq_refl eq_refl)].
  (* every task is done: the worker holds none *)
  pose proof (wbi_inv _ _ _ _ Hc1) as Hi. pose proof (ci_busy _ _ _ _ Hi) as Hbusy. unfold queue_join_until in Hj.
  apply negb_true_iff, Z.ltb_ge in Hj. unfold queue_depth in Hbusy. subst b. by destruct w; simpl in *; try lia.
Qed.

(** A client calls the cache; the call may start the pool. *)
Lemma call_inv c c' w ps :
  client_call c c' → together_inv (mkTogether c w ps Serving) →
  together_inv (mkTogether c' (thread_after c c' w) ps Serving).
Proof.
  intros Hc [Hw Hp Hq Hz Ho Hth]. pose proof (ww_cache _ _ _ _ _ Hw) as Hwc. simpl in *.
  pose proof (client_call_safe c c' (ci_mode _ _ _ _ (wbi_inv _ _ _ _ Hwc)) Hc) as Hs.
  pose proof (client_call_wb _ _ c c' Hc Hwc) as Hwc'. unfold thread_after, thread_of.
  destruct (pool_runs c) eqn:Er.
  - split; simpl; try done; [|intros _ Hn; by rewrite (pool_runs_safe _ _ _ _ _ _ _ Hwc Hwc' Hs Hn) in Er].
    eapply worker_wb_rebase; [exact Hw|done|]. by eapply note_safe; [|apply (ww_note _ _ _ _ _ Hw)].
  - rewrite (Hth eq_refl eq_refl) in *. destruct (pool_runs c') eqn:Er'; split; simpl; try done; congruence.
Qed.
(** A client comes to the end of a critical section that leaves flush jobs. *)
Lemma commit_inv c c' jobs w ps :
  client_commit c c' jobs → together_inv (mkTogether c w ps Serving) →
  together_inv (mkTogether c' w (Enqueueing jobs :: ps) Serving).
Proof.
  intros Hc [Hw Hp Hq Hz Ho Hth]. pose proof (ww_cache _ _ _ _ _ Hw) as Hwc. simpl in *.
  destruct (client_commit_wb _ _ _ _ _ Hc Hwc) as [Hw1 Hj].
  pose proof (client_commit_safe c c' jobs (ci_mode _ _ _ _ (wbi_inv _ _ _ _ Hwc)) Hc) as Hs.
  split; simpl; try done; [|by apply Forall_app|by constructor|].
  - eapply worker_wb_rebase; [exact Hw|by apply wbi_swap|]. by eapply note_safe; [|apply (ww_note _ _ _ _ _ Hw)].
  - intros _ Hn. apply Hth; [done|]. exact (pool_runs_safe _ _ _ _ _ _ _ Hwc Hw1 Hs Hn).
Qed.
(** Time passes, the clock moves or the source is told to fail. *)
Lemma ambient_inv c c' w ps z :
  ambient c c' → together_inv (mkTogether c w ps z) → together_inv (mkTogether c' w ps z).
Proof.
  intros Ha [Hw Hp Hq Hz Ho Hth]. pose proof (ww_cache _ _ _ _ _ Hw) as Hwc. simpl in *.
  assert (∀ R, Walkable R → call_safe R c c') as Hs.
  { intros R HR. apply ambient_safe; [done| |done]. apply (ci_mode _ _ _ _ (wbi_inv _ _ _ _ Hwc)). }
  pose proof (ambient_wb _ _ _ _ Ha Hwc) as Hwc'. split; simpl; [|done|done| | |].
  - eapply worker_wb_rebase; [exact Hw|done|].
    eapply note_any; [apply (ww_phase _ _ _ _ _ Hw)|exact Hs|apply (ww_note _ _ _ _ _ Hw)].
  - eapply closer_ok_settling; [|exact Hz]. intros _. apply safe_settling, Hs. apply _.
  - intros Hne. unfold is_open in *. rewrite (ambient_state _ _ Ha). by apply Ho.
  - intros Hf Hn. apply Hth; [done|]. exact (pool_runs_safe shard_dirtier _ _ _ _ _ _ Hwc Hwc' ltac:(apply Hs, _) Hn).
Qed.

Lemma together_step_inv s s' : together_step s s' → together_inv s → together_inv s'.
Proof.
  intros Hst Ht. destruct Hst as [c c' w ps Hc|c c' jobs w ps Hc|c w ps Hop|c c' w ps i jobs x shards new z Hop Hi E|c c' w ps i p p' z Hi E|c c' w ps z Ha|c c' w w' ps z E
    |c c' w ps survivors z z' E].
  - by apply call_inv.
  - by eapply commit_inv.
  - destruct Ht as [Hw Hp Hq Hz Ho Hth]. pose proof (wbi_inv _ _ _ _ (ww_cache _ _ _ _ _ Hw)) as Hi. simpl in *.
    split; try done. constructor; [|done]. intros y Hy. by apply (shard_indices_ok cfg WRITE_BACK (phase_busy w) c).
  - by eapply empty_inv.
  - by eapply caller_inv.
  - by eapply ambient_inv.
  - by eapply worker_inv.
  - by eapply closer_inv.
Qed.
End inv.
