(* ===== verification/ClosingTheorems.v ===== *)
(** What a shutdown guarantees however it is interleaved: theorems about [Closing].

    The phases of [closer_step], run one after the other, are [Cache.close] as long as [join_until] does not time out
    ([close_runs_its_phases]). *)

From stdpp Require Import base tactics numbers option strings sets list relations.
From S2P Require Import Prelude PyDict PyFloat PyMonad Config Entry Policies PolicyLaws.
From S2P Require Import Storage Jobs Shard ShardInv ShardSpec Cache CacheInv CacheSafety.
From S2P Require Import Reach CacheSpec Demo Lifecycle WriteBackInv WriteBack Race Pool Calls OneWorker Closing.
Local Open Scope string_scope.
Local Open Scope list_scope.
Local Open Scope Z_scope.

(** ** Uninterrupted runs *)

Section runs.
Context {K V P : Type} `{EqDecision K} `{KeyHash K} `{PyNone V} `{HP : EvictionPolicy K P}.
Implicit Types (c : Cache K V P) (z : closer K V) (y : sync_site K V).
Implicit Types (job : FlushWriteBack K V) (jobs : list (FlushWriteBack K V)).

(** The closing thread alone acts until it has come to [z']. *)
Inductive closer_reaches (survivors : Z) : closer K V → Cache K V P → closer K V → Cache K V P → Prop :=
  | reaches_here z c : closer_reaches survivors z c z c
  | reaches_next z c z1 c1 z' c' :
      closer_step survivors z c = (c1, Ok z1) → closer_reaches survivors z1 c1 z' c' →
      closer_reaches survivors z c z' c'.

Context (survivors : Z).
Local Abbreviation reaches := (closer_reaches survivors).

Lemma reaches_trans z1 c1 z2 c2 z3 c3 : reaches z1 c1 z2 c2 → reaches z2 c2 z3 c3 → reaches z1 c1 z3 c3.
Proof. induction 1; [done|]. intros. econstructor; eauto. Qed.
Lemma reaches_step z c z1 c1 z' c' :
  closer_step survivors z c = (c1, Ok z1) → reaches z1 c1 z' c' → reaches z c z' c'.
Proof. apply reaches_next. Qed.

(** What a sequence that returned consists of. *)
Lemma bind_inv {S A B} (m : M S A) (f : A → M S B) s s' b :
  (m ≫= f) s = (s', Ok b) → ∃ s1 a, m s = (s1, Ok a) ∧ f a s1 = (s', Ok b).
Proof. rewrite run_bind. destruct (m s) as [s1 [a|e]]; [eauto|done]. Qed.

Lemma release_reaches i jobs shards c c' :
  for_each jobs (λ pending, with_lock i (λ sh, (resolve_pending_locked (f_key pending) sh, tt))) c = (c', Ok tt) →
  reaches (Releasing i jobs shards) c (Collecting shards) c'.
Proof.
  revert c. induction jobs as [|job jobs IH]; intros c; cbn [for_each].
  - intros [= <-]. eapply reaches_step; [done|constructor].
  - intros (c1 & [] & E & Er)%bind_inv. eapply reaches_step; [|by apply IH].
    unfold_closer. rewrite run_bind. cbn [get_state]. by rewrite run_bind, E.
Qed.
Lemma queue_reaches i jobs shards c c' :
  enqueue_until_full i jobs c = (c', Ok tt) → reaches (Queueing i jobs shards) c (Collecting shards) c'.
Proof.
  revert c. induction jobs as [|job jobs IH]; intros c; cbn [enqueue_until_full].
  - intros [= <-]. eapply reaches_step; [done|constructor].
  - intros (c1 & r & E & Er)%bind_inv.
    assert (closer_step survivors (Queueing i (job :: jobs) shards) c = (match r with
      | Ok _ => mret (Queueing i jobs shards)
      | Raise QueueBackpressureError => mret (Releasing i (job :: jobs) shards)
      | Raise e => raise e end) c1) as Hstep.
    { unfold_closer. rewrite run_bind. cbn [get_state]. by rewrite run_bind, E. }
    destruct r as [u|[]]; try done; (eapply reaches_step; [exact Hstep|]); [by apply IH|by apply release_reaches].
Qed.

(** The configuration does not change. *)
Lemma config_lock {A} cf i (f : CacheShard K V P → CacheShard K V P * A) :
  keeps (λ c, c_config c = cf) (with_lock i f).
Proof. intros c Hc. unfold with_lock, with_lock_src. destruct (c_shards c !! _) as [sh|]; [|done]. by destruct (f sh). Qed.
Lemma config_enqueue cf job critical : keeps (λ c, c_config c = cf) (enqueue_job (FlushJob job) critical).
Proof.
  apply keeps_bind; [|intros ok; repeat apply keeps_if; apply keeps_ret || apply keeps_raise].
  intros c Hc. by destruct (queue_put _ _ _).
Qed.
Lemma config_until_full cf i jobs : keeps (λ c, c_config c = cf) (enqueue_until_full i jobs).
Proof.
  induction jobs as [|job jobs IH]; cbn [enqueue_until_full]; [apply keeps_ret|].
  apply keeps_bind; [apply keeps_attempt, config_enqueue|]. intros [u|[]]; try apply keeps_raise; [done|].
  apply keeps_for_each. intros x _. apply config_lock.
Qed.

Lemma collect_reaches cf shards c c' :
  c_config c = cf →
  for_each shards (λ i, jobs ← with_lock i (collect_flush_jobs (cfg_write_back_retry_count cf)); enqueue_until_full i jobs) c
    = (c', Ok tt) → reaches (Collecting shards) c Joining c'.
Proof.
  revert c. induction shards as [|i shards IH]; intros c Hcf; cbn [for_each].
  - intros [= <-]. eapply reaches_step; [done|constructor].
  - intros (c2 & [] & E & Er)%bind_inv. apply bind_inv in E as (c1 & jobs & E1 & E2).
    eapply reaches_step.
    { unfold_closer. rewrite run_bind. cbn [get_state]. by rewrite run_bind, Hcf, E1. }
    eapply reaches_trans; [by apply queue_reaches|]. apply IH; [|done].
    pose proof (config_lock cf i (collect_flush_jobs (cfg_write_back_retry_count cf)) c Hcf) as H1. rewrite E1 in H1.
    pose proof (config_until_full cf i jobs c1 H1) as H2. by rewrite E2 in H2.
Qed.
Lemma enqueue_reaches c c' :
  enqueue_dirty_write_back_jobs c = (c', Ok tt) → reaches (Collecting (shard_indices c)) c Joining c'.
Proof. by apply collect_reaches. Qed.

(** The synchronous flush.  A shard that has been locked once can be locked again. *)
Definition lockable i c : Prop := is_Some (c_shards c !! shard_slot (length (c_shards c)) i).
Lemma lock_lockable {A} i (f : CacheShard K V P → CacheShard K V P * A) c c' a :
  with_lock i f c = (c', Ok a) → lockable i c'.
Proof.
  unfold with_lock, with_lock_src, lockable. destruct (c_shards c !! _) as [sh|] eqn:E; [|done].
  destruct (f sh) as [sh' a']. intros [= <- <-]. simpl. rewrite length_insert.
  rewrite list_lookup_insert_eq by (by eapply lookup_lt_Some). by eexists.
Qed.
Lemma lockable_run {A} i (f : CacheShard K V P → CacheShard K V P * A) c :
  lockable i c → ∃ c' a, with_lock i f c = (c', Ok a).
Proof.
  intros [sh E]. unfold with_lock, with_lock_src. rewrite E. destruct (f sh) as [sh' a]. by eexists _, _.
Qed.

(** What is left of the attempts when they have ended. *)
Definition attempts_end (succeeded : bool) c : Cache K V P :=
  if succeeded then c else (inc_runtime flush_failures c).1.

(** The write of an attempt, without the mark that follows a put. *)
Definition source_write job : M (Cache K V P) unit :=
  if String.eqb (f_operation job) "put" then with_source (put_value (f_key job) (f_value job))
  else with_source (delete_value (f_key job)).
Lemma source_write_run i job c :
  lockable i c → ∃ c0 r0, source_write job c = (c0, r0) ∧ lockable i c0 ∧ c_config c0 = c_config c.
Proof.
  intros Hl. unfold source_write. destruct (String.eqb _ _); unfold with_source;
    [destruct (put_value _ _ _)|destruct (delete_value _ _)]; eauto.
Qed.
Lemma writing_step n job y c c0 r0 :
  source_write job c = (c0, r0) →
  closer_step survivors (Writing (S n) job y) c = (match r0 with
    | Ok _ => mret (if String.eqb (f_operation job) "put" then Marking job y else Clearing true job y)
    | Raise _ => (if (0 <? n)%nat then inc_runtime write_back_retries ;; sleep (cfg_write_back_retry_delay (c_config c))
                  else mret tt) ;; mret (Writing n job y) end) c0.
Proof.
  intros E. unfold_closer. rewrite run_bind. cbn [get_state]. fold (source_write job).
  by rewrite (bind_ok _ _ _ _ _ (attempt_eq _ _ _ _ E)).
Qed.
(** The whole attempt. *)
Lemma attempt_run i job c c0 r0 :
  lockable i c0 → source_write job c = (c0, r0) →
  (if String.eqb (f_operation job) "put" then with_source (put_value (f_key job) (f_value job)) ;;
     with_lock i (λ sh, (mark_clean job sh, tt)) else with_source (delete_value (f_key job))) c =
  (match r0 with
   | Ok _ => if String.eqb (f_operation job) "put" then (with_lock i (λ sh, (mark_clean job sh, tt)) c0).1 else c0
   | Raise _ => c0 end, r0).
Proof.
  unfold source_write. intros Hl E. destruct (String.eqb _ _).
  - rewrite run_bind, E. destruct r0 as [[]|e]; [|done].
    destruct (lockable_run i (λ sh, (mark_clean job sh, tt)) c0 Hl) as (c2 & [] & E2). by rewrite E2.
  - rewrite E. by destruct r0.
Qed.

Lemma attempts_reach n job y c c' s :
  lockable (sy_shard y) c → sync_attempts n (sy_shard y) job c = (c', Ok s) →
  reaches (Writing n job y) c (Clearing s job y) (attempts_end s c').
Proof.
  revert c. induction n as [|n IH]; intros c Hl; cbn [sync_attempts].
  { intros [= <- <-]. eapply reaches_step; [done|constructor]. }
  destruct (source_write_run (sy_shard y) job c Hl) as (c0 & r0 & E0 & Hl0 & Hcf0).
  rewrite (bind_ok _ _ _ _ _ (attempt_eq _ _ _ _ (attempt_run (sy_shard y) job c c0 r0 Hl0 E0))).
  pose proof (writing_step n job y c c0 r0 E0) as Hstep. destruct r0 as [u|e].
  - intros [= <- <-]. eapply reaches_step; [exact Hstep|]. destruct (String.eqb _ _); [|constructor].
    destruct (lockable_run (sy_shard y) (λ sh, (mark_clean job sh, tt)) c0 Hl0) as (c2 & [] & E2). rewrite E2.
    eapply reaches_step; [|constructor]. unfold_closer. rewrite run_bind. cbn [get_state]. by rewrite run_bind, E2.
  - intros (c2 & [] & Ep & Er)%bind_inv. rewrite <- Hcf0 in Hstep.
    unfold mbind, M_bind, inc_runtime, sleep, modify, get_state in Ep.
    eapply reaches_step; [rewrite Hstep|apply IH; [|exact Er]]; destruct (0 <? n)%nat; injection Ep as <-; done.
Qed.

Lemma job_reaches job jobs i shards failed c c' f :
  sync_flush_job i job c = (c', Ok f) →
  reaches (Checking (mkSite i (job :: jobs) shards failed)) c (Checking (mkSite i jobs shards (failed || f))) c'.
Proof.
  unfold sync_flush_job. intros (c1 & stale & E & Er)%bind_inv. set (y := mkSite i jobs shards failed).
  assert (closer_step survivors (Checking (mkSite i (job :: jobs) shards failed)) c = (if stale
    then inc_runtime stale_write_back_jobs_skipped ;; mret (Checking y)
    else mret (Writing (Z.to_nat (f_retries_left job + 1)) job y)) c1) as Hstep.
  { unfold_closer. rewrite run_bind. cbn [get_state]. by rewrite run_bind, E. }
  destruct stale.
  { apply bind_inv in Er as (c2 & [] & E2 & [= <- <-]). rewrite orb_false_r. eapply reaches_step; [rewrite Hstep|constructor].
    by rewrite run_bind, E2. }
  apply bind_inv in Er as (c2 & s & Ea & (c3 & [] & E3 & (c4 & [] & E4 & [= <- <-])%bind_inv)%bind_inv).
  eapply reaches_step; [exact Hstep|]. eapply reaches_trans; [by eapply attempts_reach; [eapply lock_lockable|]|].
  assert (attempts_end s c2 = c3) as -> by (destruct s; unfold attempts_end; [by injection E3|by rewrite E3]).
  eapply reaches_step; [|constructor]. unfold_closer. rewrite run_bind. cbn [get_state].
  change (sy_shard y) with i. by rewrite run_bind, E4.
Qed.
Lemma jobs_reach jobs i shards failed c c' f :
  for_any jobs (sync_flush_job i) c = (c', Ok f) →
  reaches (Checking (mkSite i jobs shards failed)) c (Flushing shards (failed || f)) c'.
Proof.
  revert c failed f. induction jobs as [|job jobs IH]; intros c failed f; cbn [for_any].
  { intros [= <- <-]. rewrite orb_false_r. eapply reaches_step; [done|constructor]. }
  intros (c1 & f1 & E1 & (c2 & f2 & E2 & [= <- <-])%bind_inv)%bind_inv.
  eapply reaches_trans; [by apply job_reaches|]. rewrite orb_assoc. by apply IH.
Qed.

(** The configuration does not change in the flush either. *)
Lemma config_source {A} cf (m : M (SlowDictBackend K V) A) : keeps (λ c, c_config c = cf) (with_source m).
Proof. intros c Hc. unfold with_source. by destruct (m (c_source c)). Qed.
Lemma config_sync_job cf i job : keeps (λ c, c_config c = cf) (sync_flush_job i job).
Proof.
  assert (∀ f, keeps (λ c : Cache K V P, c_config c = cf) (inc_runtime f)) as Hinc by (by intros f c Hc).
  unfold sync_flush_job. apply keeps_bind; [apply config_lock|]. intros [].
  { apply keeps_bind; [apply Hinc|intros _; apply keeps_ret]. }
  apply keeps_bind; [|intros s; apply keeps_bind; [destruct s; [apply keeps_ret|apply Hinc]|
    intros _; apply keeps_bind; [apply config_lock|intros _; apply keeps_ret]]].
  induction (Z.to_nat (f_retries_left job + 1)) as [|n IH]; cbn [sync_attempts]; [apply keeps_ret|].
  apply keeps_bind.
  { apply keeps_attempt. destruct (String.eqb _ _); [|apply config_source].
    apply keeps_bind; [apply config_source|intros _; apply config_lock]. }
  intros [u|e]; [apply keeps_ret|]. apply keeps_bind; [|intros _; apply IH].
  destruct (0 <? n)%nat; [|apply keeps_ret]. apply keeps_bind; [apply Hinc|intros _].
  apply keeps_bind; [apply keeps_get|]. by intros c1 c Hc.
Qed.
Lemma config_sync_jobs cf i jobs : keeps (λ c, c_config c = cf) (for_any jobs (sync_flush_job i)).
Proof.
  induction jobs as [|job jobs IH]; cbn [for_any]; [apply keeps_ret|].
  apply keeps_bind; [apply config_sync_job|intros f]. apply keeps_bind; [apply IH|intros f'; apply keeps_ret].
Qed.

Lemma shards_reach cf shards failed c c' f :
  c_config c = cf →
  for_any shards (λ i,
    jobs ← with_lock i (λ sh, (sh, dirty_put_jobs (cfg_write_back_retry_count cf) sh
                                   ++ tombstone_jobs (cfg_write_back_retry_count cf) sh));
    for_any jobs (sync_flush_job i)) c = (c', Ok f) →
  reaches (Flushing shards failed) c (Flushing [] (failed || f)) c'.
Proof.
  revert c failed f. induction shards as [|i shards IH]; intros c failed f Hcf; cbn [for_any].
  { intros [= <- <-]. rewrite orb_false_r. constructor. }
  intros (c2 & f1 & (c1 & jobs & E1 & E2)%bind_inv & (c3 & f2 & E3 & [= <- <-])%bind_inv)%bind_inv.
  eapply reaches_step.
  { unfold_closer. rewrite run_bind. cbn [get_state]. by rewrite run_bind, Hcf, E1. }
  eapply reaches_trans; [by apply jobs_reach|]. rewrite orb_assoc. apply IH; [|done].
  pose proof (config_lock cf i (λ sh, (sh, dirty_put_jobs (cfg_write_back_retry_count cf) sh
    ++ tombstone_jobs (cfg_write_back_retry_count cf) sh)) c Hcf) as H1. rewrite E1 in H1.
  pose proof (config_sync_jobs cf i jobs c1 H1) as H2. by rewrite E2 in H2.
Qed.

(** [WorkerPool.stop] before and after the joins. *)
Lemma stop_reaches (failed : bool) c c' :
  ((if wp_started (c_pool c) then
      modify (λ c, set_pool (mkPool (wp_count (c_pool c)) true (wp_threads (c_pool c)) true) c) ;;
      for_each (py_range (wp_threads (c_pool c)))
        (λ _, modify (λ c, set_queue (queue_offer (StopWorker "shutdown") (c_queue c)).1 c))
    else mret tt) c) = (c', Ok tt) →
  reaches (Stopping failed) c (Halting (wp_started (c_pool c)) failed) c'.
Proof.
  intros E. eapply reaches_step; [|constructor]. unfold_closer. rewrite run_bind. cbn [get_state].
  by rewrite (bind_ok _ _ _ _ _ E).
Qed.
Lemma halt_reaches (started failed : bool) c c1 c2 n :
  (if started then modify (λ c, set_pool (mkPool (wp_count (c_pool c)) false survivors (wp_stop_event (c_pool c))) c)
   else mret tt) c = (c1, Ok tt) →
  with_queue queue_drain c1 = (c2, Ok n) →
  reaches (Halting started failed) c
    (Ended (if failed then Raise (ShutdownFlushError (count_dirty_entries (set_state CLOSED c2))) else Ok tt))
    (set_state CLOSED c2).
Proof.
  intros E1 E2. eapply reaches_step; [|constructor]. unfold_closer. rewrite run_bind. cbn [get_state].
  by rewrite (bind_ok _ _ c c2 n) by by rewrite (bind_ok _ _ _ _ _ E1).
Qed.
End runs.

(** ** The phases are [close] *)

Section refine.
Context {K V P : Type} `{EqDecision K} `{KeyHash K} `{PyNone V} `{HP : EvictionPolicy K P} `{!PolicyLaws K P}.
Context (cfg : CacheConfig).
Local Abbreviation inv := (cache_inv (K:=K) (V:=V) (P:=P) cfg WRITE_BACK 0).
Implicit Types (c : Cache K V P).

(** The cache when [close] comes to [join_until]. *)
Definition at_join c : Cache K V P :=
  (enqueue_dirty_write_back_jobs (set_scheduler (scheduler_stop (c_scheduler c)) (set_state CLOSING c))).1.

(** [close] up to [join_until]. *)
Lemma close_begins survivors c :
  inv c → c_state c ≠ CLOSED →
  let c0 := set_scheduler (scheduler_stop (c_scheduler c)) (set_state CLOSING c) in
  ∃ c1, enqueue_dirty_write_back_jobs c0 = (c1, Ok tt) ∧ inv c1 ∧ closer_reaches survivors Serving c Joining c1.
Proof.
  intros Hc Hs c0. assert (inv c0) as Hc0 by by apply (inv_ext cfg WRITE_BACK 0 c).
  destruct (succeeds_enqueue_dirty cfg WRITE_BACK 0 eq_refl c0 Hc0) as (c1 & [] & E1 & Hc1 & _).
  exists c1. split_conj; [done..|]. eapply reaches_step; [|by apply enqueue_reaches].
  unfold_closer; unfold mbind, M_bind, get_state, modify, mret, M_ret. by destruct (c_state c).
Qed.

(** From there to the joins of the threads. *)
Lemma close_flushes survivors c f c' :
  (pool_runs c = true → queue_join_until (c_queue c) = true) → flush_dirty_entries_sync c = (c', Ok f) →
  closer_reaches survivors Joining c (Stopping f) (if f then (inc_runtime shutdown_flush_failures c').1 else c').
Proof.
  intros Hj Hf. eapply (reaches_step _ _ _ (Flushing (shard_indices c) false) c).
  { unfold_closer. rewrite run_bind. cbn [get_state]. destruct (pool_runs c); [by rewrite Hj|done]. }
  eapply reaches_trans; [by eapply (shards_reach survivors (c_config c))|]. cbn [orb].
  eapply reaches_step; [|constructor]. unfold_closer. rewrite run_bind. cbn [get_state]. by destruct f.
Qed.

(** The threads and the end. *)
Lemma close_stops env failed c c' :
  pool_stop env c = (c', Ok tt) →
  ∃ started c3 c4, closer_reaches (ce_survivors env) (Stopping failed) c (Halting started failed) c3 ∧
    (if started then worker_steps (ce_stop_steps env) c3 = (c4, Ok tt) else c4 = c3) ∧
    closer_reaches (ce_survivors env) (Halting started failed) c4
      (Ended (if failed then Raise (ShutdownFlushError (count_dirty_entries (set_state CLOSED c'))) else Ok tt))
      (set_state CLOSED c').
Proof.
  unfold pool_stop. rewrite run_bind. cbn [get_state].
  intros (c5 & [] & E & (c6 & n & Ed & [= <-])%bind_inv)%bind_inv.
  pose proof (λ c3, stop_reaches (ce_survivors env) failed c c3) as Hstop. exists (wp_started (c_pool c)).
  destruct (wp_started (c_pool c)).
  - apply bind_inv in E as (c1 & [] & E1 & (c3 & [] & E3 & (c4 & [] & E4 & E5)%bind_inv)%bind_inv).
    exists c3, c4. split_conj; [apply Hstop; by rewrite (bind_ok _ _ _ _ _ E1)|done|by eapply halt_reaches].
  - exists c, c. split_conj; [by apply Hstop|done|]. eapply halt_reaches; [|done]. exact E.
Qed.

(** What the workers have done when [join_until] returns; without a running pool [close] does not wait. *)
Definition after_join env c1 : Cache K V P :=
  if pool_runs c1 then (worker_steps (ce_join_steps env) c1).1 else c1.

Lemma close_phases env c :
  inv c → c_state c ≠ CLOSED →
  let c1 := at_join c in
  let c2 := after_join env c1 in
  closer_reaches (ce_survivors env) Serving c Joining c1 ∧ (worker_steps (ce_join_steps env) c1).2 = Ok tt ∧
    ((pool_runs c1 = true → queue_join_until (c_queue c2) = true) →
     ∃ started failed c3 c4,
       closer_reaches (ce_survivors env) Joining c2 (Halting started failed) c3 ∧
       (if started then worker_steps (ce_stop_steps env) c3 = (c4, Ok tt) else c4 = c3) ∧
       closer_reaches (ce_survivors env) (Halting started failed) c4
         (Ended (cache_close (Some true) env c).2) (cache_close (Some true) env c).1).
Proof.
  intros Hc Hs. destruct (close_begins (ce_survivors env) c Hc Hs) as (c1 & E1 & Hc1 & Hr1).
  destruct (succeeds_worker_steps cfg WRITE_BACK 0 (ce_join_steps env) ltac:(lia) c1 Hc1) as (c2' & [] & E2 & Hc2' & _).
  unfold at_join. rewrite E1. cbn [fst]. split_conj; [done|by rewrite E2|]. intros Hj.
  assert (inv (after_join env c1)) as Hc2 by (unfold after_join; destruct (pool_runs c1); [by rewrite E2|done]).
  assert ((if pool_runs c1 then
      worker_steps (ce_join_steps env) ;; c2 ← get_state; mret (queue_join_until (c_queue c2)) else mret true) c1
    = (after_join env c1, Ok true)) as Ej.
  { unfold after_join in *. destruct (pool_runs c1); [|done]. specialize (Hj eq_refl). rewrite E2 in *. cbn [fst] in *.
    rewrite (bind_ok _ _ _ _ _ E2), (bind_ok _ _ c2' c2' c2') by done. by rewrite Hj. }
  assert (pool_runs (after_join env c1) = true → queue_join_until (c_queue (after_join env c1)) = true) as Hj'.
  { intros Hr. destruct (pool_runs c1) eqn:Er; [by apply Hj|]. unfold after_join in Hr. rewrite Er in Hr. congruence. }
  clear Hj. set (c2 := after_join env c1) in *.
  destruct (succeeds_sync_flush cfg WRITE_BACK 0 eq_refl c2 Hc2) as (c3 & f & E3 & Hc3 & _).
  set (c3' := if f then (inc_runtime shutdown_flush_failures c3).1 else c3).
  assert (inv c3') as Hc3' by (subst c3'; destruct f; [by apply (keeps_inc_runtime cfg WRITE_BACK 0)|done]).
  destruct (succeeds_pool_stop cfg WRITE_BACK 0 ltac:(lia) env c3' Hc3') as (c5 & [] & E5 & _ & _).
  destruct (close_stops env f c3' c5 E5) as (started & c4 & c4' & Hr4 & Hw4 & Hr5).
  exists started, f, c4, c4'. split_conj; [by eapply reaches_trans; [apply close_flushes|]|done|].
  assert (cache_close (Some true) env c = (set_state CLOSED c5,
    if f then Raise (ShutdownFlushError (count_dirty_entries (set_state CLOSED c5))) else Ok tt)) as ->; [|done].
  assert (close_flush true env c (set_scheduler (scheduler_stop (c_scheduler c)) (set_state CLOSING c)) = (c3', Ok f)) as Ef.
  { unfold close_flush. rewrite (ci_mode _ _ _ _ Hc), bool_decide_eq_true_2 by done. cbn [andb].
    rewrite (bind_ok _ _ _ _ _ E1), (bind_ok _ _ c1 c1 c1) by done. fold (pool_runs c1).
    rewrite (bind_ok _ _ _ _ _ Ej), (bind_ok _ _ _ _ _ E3). cbn [negb]. rewrite orb_false_r. by subst c3'; destruct f. }
  rewrite cache_close_eq by done. rewrite (bind_ok _ _ c (set_state CLOSING c) tt) by done.
  rewrite (bind_ok _ _ _ (set_scheduler (scheduler_stop (c_scheduler c)) (set_state CLOSING c)) tt) by done.
  cbn [default]. rewrite (bind_ok _ _ _ _ _ Ef), (bind_ok _ _ _ _ _ E5). by destruct f.
Qed.
End refine.

(** ** Reachable states *)

Section reach.
Context {K V : Type} `{EqDecision K} `{KeyHash K} `{PyNone V}.
Implicit Types (c : Cache K V (AnyPolicy K)) (s : together K V (AnyPolicy K)).

(** What the threads can come to from a cache that was used as [reachable] says, with a worker that is idle if its pool
    runs, and none yet if it does not. *)
Definition together_from c s : Prop := rtc together_step (mkTogether c (thread_of c) [] Serving) s.

Lemma together_from_inv c s :
  reachable c → c_write_mode c = WRITE_BACK → str_lower (cfg_policy (c_config c)) ≠ "lfu" →
  together_from c s → together_inv (c_config c) s.
Proof.
  intros Hr Hm Hp Hs. pose proof (reachable_wb c Hr Hm Hp) as Hw.
  assert (together_inv (c_config c) (mkTogether c (thread_of c) [] Serving)) as Hinit.
  { unfold thread_of. by destruct (pool_runs c) eqn:Er; split; simpl; try done; congruence. }
  clear -Hs Hinit Hp. unfold together_from in Hs. remember (mkTogether c (thread_of c) [] Serving) as s0. clear Heqs0.
  induction Hs as [|s1 s2 s3 Hst _ IH]; [done|]. by eapply IH, together_step_inv.
Qed.

(** The flush jobs that are queued or that a thread holds. *)
Definition outstanding s : list (FlushWriteBack K V) :=
  (held_of (t_worker s) ++ closer_jobs (t_closer s) ++ jobs_in (t_clients s)) ++ queued (t_cache s).

(** What [together_inv] says of the entry stored for a key. *)
Lemma together_key cfg s key sh :
  together_inv cfg s → c_shards (t_cache s) !! slot (t_cache s) key = Some sh →
  wb_at (is_open (t_cache s)) (outstanding s) (sd_data (c_source (t_cache s))) sh key.
Proof.
  intros [[_ [Hc Hw] _] _ _ _] Hsh.
  apply (Hw _ sh Hsh key). by apply (slot_routed _ _ _ (t_cache s) key key Hc).
Qed.

(** ** Executable schedules *)

Inductive agent : Type := WorkerActs | CloserActs | CallerActs (i : nat).
Definition agent_act s (a : agent) : together K V (AnyPolicy K) :=
  let '(mkTogether c w ps z) := s in
  match a with
  | WorkerActs => match worker_run w c with (c', Ok w') => mkTogether c' w' ps z | _ => s end
  | CloserActs => match closer_step 0 z c with (c', Ok z') => mkTogether c' w ps z' | _ => s end
  | CallerActs i =>
      match ps !! i with
      | Some p => match caller_step p c with (c', Ok p') => mkTogether c' w (<[i := p']> ps) z | _ => s end
      | None => s
      end
  end.
Definition agents_act (schedule : list agent) s : together K V (AnyPolicy K) := foldl agent_act s schedule.

Lemma agents_from c s schedule : together_from c s → together_from c (agents_act schedule s).
Proof.
  revert s. induction schedule as [|a schedule IH]; intros s Hs; [done|]. apply IH. clear IH.
  destruct s as [c1 w ps z], a as [| |i]; simpl.
  - destruct (worker_run w c1) as [c2 [w2|e]] eqn:E; [|done]. eapply rtc_r; [done|]. by constructor.
  - destruct (closer_step 0 z c1) as [c2 [z2|e]] eqn:E; [|done]. eapply rtc_r; [done|]. by econstructor.
  - destruct (ps !! i) as [p|] eqn:Hi; [|done]. destruct (caller_step p c1) as [c2 [p2|e]] eqn:E; [|done].
    eapply rtc_r; [done|]. by econstructor.
Qed.

(** A client comes to the end of the critical section of [put]. *)
Definition put_commits_in key value (ttl : ttl_arg) s : together K V (AnyPolicy K) :=
  let '(c', r) := put_commit key value ttl (t_cache s) in
  mkTogether c' (t_worker s) (Enqueueing (jobs_of r) :: t_clients s) (t_closer s).
Lemma put_commits_from c s key value ttl :
  t_closer s = Serving → together_from c s → together_from c (put_commits_in key value ttl s).
Proof.
  intros Hz Hs. unfold put_commits_in. destruct (put_commit _ _ _ _) as [c' r] eqn:E. eapply rtc_r; [done|].
  destruct s as [c1 w ps z]. simpl in *. subst z. constructor. by econstructor.
Qed.
End reach.

(** ** Concrete runs *)

(** A cache with one worker.  Key 2 has been flushed.  The worker has found the flush job of key 1 not to be stale, and a
    client has put key 1 again but has not enqueued its job. *)
Definition one_cache : Cache Z Z (AnyPolicy Z) := run cache_start (demo_cache "lru" "write-back" 1 0).
Definition one_flushed : together Z Z (AnyPolicy Z) :=
  agents_act (CallerActs 0 :: replicate 6 WorkerActs) (put_commits_in 2 20 TTL_UNSET (mkTogether one_cache (thread_of one_cache) [] Serving)).
Definition one_checked : together Z Z (AnyPolicy Z) :=
  put_commits_in 1 11 TTL_UNSET
    (agents_act [CallerActs 0; WorkerActs; WorkerActs] (put_commits_in 1 10 TTL_UNSET one_flushed)).
(** [close] collects, enqueues and waits while the worker ends its job and the client enqueues its own; the worker works
    off the queue, [close] goes on, and the worker takes its stop sentinel. *)
Definition one_closing : together Z Z (AnyPolicy Z) :=
  agents_act ([CloserActs; CloserActs; WorkerActs; CloserActs; CallerActs 0; WorkerActs] ++ replicate 20 CloserActs) one_checked.
Definition one_closed : together Z Z (AnyPolicy Z) :=
  agents_act (replicate 30 WorkerActs ++ replicate 15 CloserActs ++ replicate 5 WorkerActs ++ replicate 10 CloserActs) one_closing.

Lemma one_cache_reachable : reachable one_cache.
Proof. apply (run_reachable cache_start); [intros c; apply step_quiet, step_start|]. by apply demo_reachable. Qed.
Lemma one_checked_from : together_from one_cache one_checked.
Proof.
  apply put_commits_from; [vm_compute; reflexivity|]. apply agents_from.
  apply put_commits_from; [vm_compute; reflexivity|]. apply agents_from.
  apply put_commits_from; [reflexivity|]. apply rtc_refl.
Qed.
Lemma one_closed_from : together_from one_cache one_closed.
Proof. do 2 apply agents_from. apply one_checked_from. Qed.

(** A [put] that is past its guard, [_require_not_closed]. *)
Definition put_after_guard {K V P} `{EqDecision K} `{KeyHash K} `{PyNone V} `{EvictionPolicy K P}
    (key : K) (value : V) (ttl : ttl_arg) : M (Cache K V P) unit :=
  maybe_warn_cache_not_started ;;
  validate_explicit_ttl ttl ;;
  c ← get_state;
  t ← now;
  flush_job ← with_lock_src (shard_for c key)
    (put_locked (c_write_mode c) (cfg_default_ttl (c_config c))
       (cfg_write_back_retry_count (c_config c)) t key value ttl);
  match flush_job with
  | Some job => enqueue_flush_jobs [job]
  | None => mret tt
  end.
Lemma put_is_guarded {K V P} `{EqDecision K} `{KeyHash K} `{PyNone V} `{EvictionPolicy K P} (key : K) (value : V) ttl :
  (cache_put key value ttl : M (Cache K V P) unit) = (require_not_closed ;; put_after_guard key value ttl).
Proof. reflexivity. Qed.

(** ** Properties *)

(** C3: an entry that is not dirty is safely persisted, however the threads are interleaved.  In a write-back cache with at most one worker
    and a policy other than LFU, whose [join_until] does not time out in [close], the source holds exactly the value of every stored entry that is marked clean, also when the worker is interrupted
    between its stale check, its write to the source and its last critical section, when clients are between the critical section of
    their call and the enqueueing of its flush jobs, and at every point of a [close]. *)
Theorem interleaved_clean_entries_agree {K V} `{EqDecision K} `{KeyHash K} `{PyNone V}
    (c : Cache K V (AnyPolicy K)) (s : together K V (AnyPolicy K)) (key : K) (e : CacheEntry K V) :
  reachable c → c_write_mode c = WRITE_BACK → str_lower (cfg_policy (c_config c)) ≠ "lfu" → together_from c s →
  stored (t_cache s) key = Some e → e_dirty e = false →
  dict_get (source_snapshot (c_source (t_cache s))) key = Some (e_value e).
Proof.
  intros Hr Hm Hp Hs He Hd. destruct (stored_lookup (t_cache s) key e He) as (sh & Hsh & Hx).
  by apply (wk_clean _ _ _ _ _ _ (together_key _ s key sh (together_from_inv c s Hr Hm Hp Hs) Hsh) e).
Qed.

Lemma interleaved_clean_entries_agree_witness :
  (∃ j, t_worker one_checked = Checked j ∧ f_key j = 1) ∧ length (jobs_in (t_clients one_checked)) = 1%nat ∧
  ∃ e, stored (t_cache one_checked) 2 = Some e ∧ e_dirty e = false ∧
       dict_get (source_snapshot (c_source (t_cache one_checked))) 2 = Some (e_value e).
Proof.
  split; [vm_compute; eexists; split; reflexivity|]. split; [vm_compute; reflexivity|].
  assert (match stored (t_cache one_checked) 2 with Some e => e_dirty e | None => true end = false) as Hd
    by (vm_compute; reflexivity).
  assert (c_write_mode one_cache = WRITE_BACK) as Hm by (vm_compute; reflexivity).
  assert (str_lower (cfg_policy (c_config one_cache)) ≠ "lfu") as Hp by (vm_compute; discriminate).
  destruct (stored (t_cache one_checked) 2) as [e|] eqn:E; [|discriminate Hd].
  exists e. split; [reflexivity|]. split; [exact Hd|].
  exact (interleaved_clean_entries_agree one_cache one_checked 2 e one_cache_reachable Hm Hp one_checked_from E Hd).
Defined.

(** C4: the pending counter is exact, however the threads are interleaved.  While a write-back cache with one worker and a policy other than LFU
    is open, the pending-flush count of a key is the number of its flush jobs that are queued or held by the worker or by a client that
    has not enqueued them yet, and the version of none of them is newer than the version mark. *)
Theorem interleaved_pending_counts {K V} `{EqDecision K} `{KeyHash K} `{PyNone V}
    (c : Cache K V (AnyPolicy K)) (s : together K V (AnyPolicy K)) (key : K) (sh : CacheShard K V (AnyPolicy K)) :
  reachable c → c_write_mode c = WRITE_BACK → str_lower (cfg_policy (c_config c)) ≠ "lfu" → together_from c s →
  is_open (t_cache s) → c_shards (t_cache s) !! slot (t_cache s) key = Some sh →
  dict_get_default (sh_pending_flushes sh) key 0 = Z.of_nat (length (jobs_for key (outstanding s))) ∧
  ∀ job, job ∈ jobs_for key (outstanding s) →
    ∃ v, dict_get (sh_version_marks sh) key = Some v ∧ f_version job ≤ v.
Proof.
  intros Hr Hm Hp Hs Ho Hsh.
  destruct (together_key _ s key sh (together_from_inv c s Hr Hm Hp Hs) Hsh) as [Hcnt Hb _ _].
  split; [symmetry; by apply Hcnt|]. intros job. by apply Hb.
Qed.

Lemma interleaved_pending_counts_witness :
  ∃ sh, c_shards (t_cache one_checked) !! slot (t_cache one_checked) 1 = Some sh ∧
        dict_get_default (sh_pending_flushes sh) 1 0 = Z.of_nat (length (jobs_for 1 (outstanding one_checked))) ∧
        length (jobs_for 1 (outstanding one_checked)) = 2%nat ∧ queued (t_cache one_checked) = [].
Proof.
  assert (match c_shards (t_cache one_checked) !! slot (t_cache one_checked) 1 with Some _ => true | None => false end = true)
    as Hs by (vm_compute; reflexivity).
  assert (c_write_mode one_cache = WRITE_BACK) as Hm by (vm_compute; reflexivity).
  assert (str_lower (cfg_policy (c_config one_cache)) ≠ "lfu") as Hp by (vm_compute; discriminate).
  assert (is_open (t_cache one_checked)) as Ho by (right; vm_compute; reflexivity).
  destruct (c_shards (t_cache one_checked) !! slot (t_cache one_checked) 1) as [sh|] eqn:E; [|discriminate Hs].
  exists sh. split; [reflexivity|]. split; [|split; vm_compute; reflexivity].
  exact (proj1 (interleaved_pending_counts one_cache one_checked 1 sh one_cache_reachable Hm Hp one_checked_from Ho E)).
Defined.

(** C2: a shutdown that returns has persisted everything, however it is interleaved.  [close(flush=True)] is called on a
    write-back cache with a policy other than LFU and one worker, or none if its pool was not started, at any point of a flush job of the worker and of calls of clients whose critical section is over,
    and goes on interleaved with them; the source may fail at any time.  (A [close] whose [join_until] times out
    does not return normally.)  When [close] has returned normally, no entry is dirty and
    the source holds the value of every stored entry, also when a client or the worker ends after [close]. *)
Theorem interleaved_close_persists {K V} `{EqDecision K} `{KeyHash K} `{PyNone V}
    (c : Cache K V (AnyPolicy K)) (s : together K V (AnyPolicy K)) :
  reachable c → c_write_mode c = WRITE_BACK → str_lower (cfg_policy (c_config c)) ≠ "lfu" → together_from c s →
  t_closer s = Ended (Ok tt) →
  ∀ key e, stored (t_cache s) key = Some e →
    e_dirty e = false ∧ dict_get (source_snapshot (c_source (t_cache s))) key = Some (e_value e).
Proof.
  intros Hr Hm Hp Hs Hz key e He. pose proof (together_from_inv c s Hr Hm Hp Hs) as Ht.
  destruct (stored_lookup (t_cache s) key e He) as (sh & Hsh & Hx).
  assert (e_dirty e = false) as Hd.
  { pose proof (ti_closer _ _ Ht) as Hcl. rewrite Hz in Hcl. by apply (Hcl eq_refl _ sh (not_elem_of_nil _) Hsh key e). }
  split; [done|]. by apply (wk_clean _ _ _ _ _ _ (together_key _ s key sh Ht Hsh) e).
Qed.

Lemma interleaved_close_persists_witness :
  t_closer one_closing = Joining ∧ dict_get (source_snapshot (c_source (t_cache one_closing))) 1 = Some 10 ∧
  ∃ e, stored (t_cache one_closed) 1 = Some e ∧ e_value e = 11 ∧ e_dirty e = false ∧
       dict_get (source_snapshot (c_source (t_cache one_closed))) 1 = Some (e_value e).
Proof.
  split; [vm_compute; reflexivity|]. split; [vm_compute; reflexivity|].
  assert (match stored (t_cache one_closed) 1 with Some e => e_value e | None => 0 end = 11) as Hv by (vm_compute; reflexivity).
  assert (c_write_mode one_cache = WRITE_BACK) as Hm by (vm_compute; reflexivity).
  assert (str_lower (cfg_policy (c_config one_cache)) ≠ "lfu") as Hp by (vm_compute; discriminate).
  assert (t_closer one_closed = Ended (Ok tt)) as Hz by (vm_compute; reflexivity).
  destruct (stored (t_cache one_closed) 1) as [e|] eqn:E; [|discriminate Hv].
  exists e. split; [reflexivity|]. split; [exact Hv|].
  exact (interleaved_close_persists one_cache one_closed one_cache_reachable Hm Hp one_closed_from Hz 1 e E).
Defined.

(** The phases cut [close] and leave nothing out.  On every reachable open write-back cache [close(flush=True)] is its phases run one after the
    other: alone up to [join_until], then, if the pool runs, the jobs the workers handle while it waits, then, provided every task is done at the end of
    the wait, alone up to the joins of the threads, then the jobs handled until these have ended, and alone to the end, with the same final cache
    and the same result. *)
Theorem close_runs_its_phases {K V} `{EqDecision K} `{KeyHash K} `{PyNone V}
    (c : Cache K V (AnyPolicy K)) (env : CloseEnv) :
  reachable c → c_write_mode c = WRITE_BACK → is_open c →
  let c1 := at_join c in
  let c2 := after_join env c1 in
  closer_reaches (ce_survivors env) Serving c Joining c1 ∧ (worker_steps (ce_join_steps env) c1).2 = Ok tt ∧
    ((pool_runs c1 = true → queue_join_until (c_queue c2) = true) →
     ∃ started failed c3 c4,
       closer_reaches (ce_survivors env) Joining c2 (Halting started failed) c3 ∧
       (if started then worker_steps (ce_stop_steps env) c3 = (c4, Ok tt) else c4 = c3) ∧
       closer_reaches (ce_survivors env) (Halting started failed) c4
         (Ended (cache_close (Some true) env c).2) (cache_close (Some true) env c).1).
Proof.
  intros Hr Hm Ho. pose proof (reachable_inv c Hr) as Hc. rewrite Hm in Hc.
  apply (close_phases (c_config c)); [done|]. by destruct Ho as [-> | ->].
Qed.

Lemma close_runs_its_phases_witness :
  let c := run (cache_put 1 10 TTL_UNSET) one_cache in
  let env := mkCloseEnv 10 10 0 in
  let c2 := after_join env (at_join c) in
  (cache_close (Some true) env c).2 = Ok tt ∧
  queue_depth (c_queue (at_join c)) = 2 ∧ closer_reaches 0 Serving c Joining (at_join c) ∧
  ∃ started failed c3 c4,
    closer_reaches 0 Joining c2 (Halting started failed) c3 ∧
    (if started then worker_steps 10 c3 = (c4, Ok tt) else c4 = c3) ∧
    closer_reaches 0 (Halting started failed) c4 (Ended (Ok tt)) (cache_close (Some true) env c).1.
Proof.
  intros c env c2.
  assert ((cache_close (Some true) env c).2 = Ok tt) as Hok by (vm_compute; reflexivity).
  split; [exact Hok|]. split; [vm_compute; reflexivity|].
  assert (reachable c) as Hr
    by (apply (run_reachable (cache_put 1 10 TTL_UNSET)); [intros x; apply step_quiet, step_put|apply one_cache_reachable]).
  assert (c_write_mode c = WRITE_BACK) as Hm by (vm_compute; reflexivity).
  assert (is_open c) as Ho by (right; vm_compute; reflexivity).
  destruct (close_runs_its_phases c env Hr Hm Ho) as (H1 & _ & H2). split; [exact H1|].
  rewrite <- Hok. apply H2; vm_compute; reflexivity.
Defined.

(** C37: a [put] can be lost to a shutdown.  [put] looks at the state of the cache before it takes the lock of its shard.  A [put] that has passed its guard when
    [close(flush=True)] begins commits after the flush: both calls return normally, the entry is dirty in a closed cache without threads, no further [close] does anything,
    and the source never gets the value. *)
Theorem put_during_close_is_lost :
  let close := cache_close (Some true) (mkCloseEnv 10 10 0) in
  let closed := run close one_cache in
  let c := run (put_after_guard 1 10 TTL_UNSET) closed in
  reachable one_cache ∧ (require_not_closed one_cache).2 = Ok tt ∧ (close one_cache).2 = Ok tt ∧
  (put_after_guard 1 10 TTL_UNSET closed).2 = Ok tt ∧
  (∃ e, stored c 1 = Some e ∧ e_value e = 10 ∧ e_dirty e = true) ∧
  c_state c = CLOSED ∧ wp_started (c_pool c) = false ∧ wp_threads (c_pool c) = 0 ∧
  close c = (c, Ok tt) ∧ dict_get (source_snapshot (c_source c)) 1 = None.
Proof.
  cbn zeta. split; [apply one_cache_reachable|].
  vm_compute. split_conj; try reflexivity. eexists. split_conj; reflexivity.
Qed.
