(* ===== verification/Flights.v ===== *)
(** What the calls of [Cache.get_or_compute] communicate through: the [Flight] objects and the
    registrations of the shards (src/cachelab/core/cache.py and
    src/cachelab/concurrency/singleflight.py).

    [flights_view] is this part of a cache.  Most calls leave it alone ([quiet_view]); [delete]
    and [clear] drop registrations; the critical sections of [get_or_compute] itself register
    and end flights ([run_join], [run_finish]). *)

From stdpp Require Import base tactics numbers option strings sets list relations.
From S2P Require Import Prelude PyDict PyFloat PyMonad Config Entry Policies PolicyLaws.
From S2P Require Import Storage Jobs Shard ShardInv ShardSpec Cache CacheInv CacheSafety.
From S2P Require Import Reach CacheSpec Demo.
Local Open Scope string_scope.
Local Open Scope list_scope.
Local Open Scope Z_scope.

(** ** Blocks of a shard that leave its registrations alone *)

Section shard_frame.
Context {K V P : Type} `{EqDecision K} `{PyNone V} `{HP : EvictionPolicy K P}.
Implicit Types (sh : CacheShard K V P) (key : K).
Local Abbreviation sf := sh_singleflight.

Lemma sf_remove key reason sh : sf (remove_entry_locked key reason sh).1 = sf sh.
Proof.
  pose proof (remove_entry_fields key reason sh) as Hf.
  destruct (remove_entry_locked key reason sh). by destruct Hf as (_ & _ & _ & _ & _ & _ & ? & _).
Qed.

Lemma sf_prune key sh : sf (maybe_prune_marks_locked key sh) = sf sh.
Proof. unfold maybe_prune_marks_locked. by repeat case_match. Qed.

Lemma sf_resolve key sh : sf (resolve_pending_locked key sh) = sf sh.
Proof. unfold resolve_pending_locked. rewrite sf_prune. by case_match. Qed.

Lemma sf_clear_pending key sh : sf (clear_pending_flushes_locked key sh) = sf sh.
Proof. unfold clear_pending_flushes_locked. by rewrite sf_prune. Qed.

Lemma sf_read t key touch_entry count_stats sh :
  sf (read_value_locked t key touch_entry count_stats sh).1 = sf sh.
Proof.
  unfold read_value_locked. destruct (get_entry _ _) as [e|]; [|by destruct count_stats].
  destruct (is_expired e t), touch_entry, count_stats;
    cbn [fst sh_singleflight set_stats set_policy set_backend]; rewrite ?sf_remove; done.
Qed.

Lemma sf_enforce fuel sh : sf (enforce_capacity_loop fuel sh) = sf sh.
Proof.
  revert sh. induction fuel as [|fuel IH]; intros sh; cbn [enforce_capacity_loop]; [done|].
  case_match; [|done]. case_match; [|done]. by rewrite IH, sf_remove.
Qed.

Lemma sf_put_expire t key sh : sf (put_expire t key sh).1 = sf sh.
Proof. unfold put_expire. repeat case_match; cbn [fst]; by rewrite ?sf_remove. Qed.

Lemma sf_put_store mode dttl t key value ttl existing sh :
  sf (put_store mode dttl t key value ttl existing sh).1 = sf sh.
Proof. unfold put_store, enforce_capacity_locked, next_version. cbn [fst]. by rewrite sf_enforce. Qed.

Lemma sf_put mode dttl rc t key value ttl (st : CacheShard K V P * SlowDictBackend K V) :
  sf (put_locked mode dttl rc t key value ttl st).1.1 = sf st.1.
Proof.
  destruct st as [sh src]. unfold put_locked. pose proof (sf_put_expire t key sh) as He.
  destruct (put_expire t key sh) as [sh1 existing].
  pose proof (sf_put_store mode dttl t key value ttl existing sh1) as Hs.
  destruct (match mode with WRITE_THROUGH => _ | _ => _ end) as [src' [u|e]]; [|exact He].
  destruct (put_store mode dttl t key value ttl existing sh1) as [sh2 version].
  cbn [fst] in *. destruct mode; cbn [fst register_pending_locked]; by etransitivity.
Qed.

Lemma sf_inspect t key sh : sf (inspect_locked t key sh).1 = sf sh.
Proof. unfold inspect_locked. repeat case_match; cbn [fst]; by rewrite ?sf_remove. Qed.

Lemma sf_dump t sh : sf (dump_locked t sh).1 = sf sh.
Proof.
  unfold dump_locked. generalize (backend_entries (sh_backend sh)) as es. intros es. revert sh.
  induction es as [|e es IH]; intros sh; cbn [dump_entries]; [done|]. destruct (is_expired e t).
  - by rewrite IH, sf_remove.
  - specialize (IH sh). by destruct (dump_entries t es sh).
Qed.

Lemma sf_expire t sh : sf (expire_shard_locked t sh).1 = sf sh.
Proof.
  unfold expire_shard_locked. generalize (expired_keys (backend_entries (sh_backend sh)) t) as ks, 0.
  intros ks. revert sh. induction ks as [|k ks IH]; intros sh n; cbn [expire_keys]; [done|].
  pose proof (sf_remove k RExpire sh) as Hr. destruct (remove_entry_locked k RExpire sh) as [sh' b].
  by rewrite IH.
Qed.

Lemma sf_flush_check job sh : sf (flush_check_locked job sh).1 = sf sh.
Proof. unfold flush_check_locked. case_match; [apply sf_resolve|done]. Qed.

Lemma sf_mark_clean job sh : sf (mark_clean job sh) = sf sh.
Proof. unfold mark_clean. by repeat case_match. Qed.

Lemma sf_flush_finish job sh : sf (flush_finish_locked job sh) = sf sh.
Proof. unfold flush_finish_locked. rewrite sf_resolve. case_match; [apply sf_mark_clean|done]. Qed.

Lemma sf_collect rc sh : sf (collect_flush_jobs rc sh).1 = sf sh.
Proof.
  unfold collect_flush_jobs. generalize (dirty_put_jobs rc sh ++ tombstone_jobs rc sh) as jobs.
  intros jobs. cbn [fst]. revert sh. induction jobs as [|j jobs IH]; intros sh; simpl; [done|]. by rewrite IH.
Qed.

(** [delete] drops the registration of its key, [clear] all of them. *)
Lemma sf_delete_key mode rc key (st : CacheShard K V P * SlowDictBackend K V) : sf (delete_key_locked mode rc key st).1.1 = sf st.1.
Proof.
  destruct st as [sh src]. unfold delete_key_locked.
  destruct (match mode with WRITE_THROUGH => _ | _ => _ end) as [src' [u|e]]; [|done].
  assert (∀ sh1 (job : option (FlushWriteBack K V)), sf sh1 = sf sh →
    sf (let '(sh, existed) := remove_entry_locked key RDelete sh1 in
        let sh := if existed : bool then set_stats inc_deletes sh else sh in
        ((sh, src'), Ok (existed, job))).1.1 = sf sh) as Hr.
  { intros sh1 job <-. pose proof (sf_remove key RDelete sh1) as Hr.
    destruct (remove_entry_locked key RDelete sh1) as [x []]; exact Hr. }
  destruct mode; [by apply Hr|by apply Hr|].
  unfold mark_deleted, next_version, register_pending_locked. cbn beta iota zeta. by apply Hr.
Qed.

Lemma sf_delete mode rc key (st : CacheShard K V P * SlowDictBackend K V) :
  sf (delete_locked mode rc key st).1.1 = sf st.1 ∨
  sf (delete_locked mode rc key st).1.1 = dict_pop (sf st.1) key.
Proof.
  pose proof (sf_delete_key mode rc key st) as Hd. unfold delete_locked, mbind, M_bind.
  destruct (delete_key_locked mode rc key st) as [[sh src] [r|e]]; simpl in *; [right|left]; congruence.
Qed.

Lemma sf_clear mode rc (st : CacheShard K V P * SlowDictBackend K V) :
  sf (clear_locked mode rc st).1.1 = sf st.1 ∨ sf (clear_locked mode rc st).1.1 = [].
Proof.
  assert (∀ keys (st' : CacheShard K V P * SlowDictBackend K V), sf (clear_keys_locked mode rc keys st').1.1 = sf st'.1) as Hk.
  { induction keys as [|k keys IH]; intros st'; simpl; [done|]. unfold mbind, M_bind.
    pose proof (sf_delete_key mode rc k st') as Hd.
    destruct (delete_key_locked mode rc k st') as [st1 [[b j]|e]]; [|done].
    specialize (IH st1). destruct (clear_keys_locked mode rc keys st1) as [st2 [r|e]]; simpl in *; congruence. }
  destruct st as [sh src]. unfold clear_locked, mbind, M_bind, get_state. cbn beta iota.
  specialize (Hk (backend_keys (sh_backend sh)) (sh, src)).
  destruct (clear_keys_locked _ _ _ _) as [[sh1 src1] [r|e]]; [by right|by left].
Qed.
End shard_frame.

(** ** Calls that leave the flights alone *)

Section cache_frame.
Context {K V P : Type} `{EqDecision K} `{KeyHash K} `{PyNone V} `{HP : EvictionPolicy K P}.
Implicit Types (c : Cache K V P) (key : K) (value : V).
Local Abbreviation MC := (M (Cache K V P)).

(** What the calls of [get_or_compute] share: the flights and the registrations. *)
Definition flights_view c : list (Flight V) * list (dict K nat) :=
  (c_flights c, sh_singleflight <$> c_shards c).

Section at_view.
Context (s : list (Flight V) * list (dict K nat)).
Local Abbreviation still := (λ c, flights_view c = s).

Lemma still_lock_src {A} i (m : M (CacheShard K V P * SlowDictBackend K V) A) :
  (∀ st, sh_singleflight (m st).1.1 = sh_singleflight st.1) → keeps still (with_lock_src i m).
Proof.
  intros Hm c Hc. unfold with_lock_src. destruct (c_shards c !! _) as [sh|] eqn:E; [|done].
  specialize (Hm (sh, c_source c)). destruct (m (sh, c_source c)) as [[sh' src'] r]. simpl in *.
  rewrite <- Hc. unfold flights_view. simpl. f_equal. rewrite list_fmap_insert.
  apply list_insert_id. by rewrite list_lookup_fmap, E, Hm.
Qed.

Lemma still_lock {A} i (f : CacheShard K V P → CacheShard K V P * A) :
  (∀ sh, sh_singleflight (f sh).1 = sh_singleflight sh) → keeps still (with_lock i f).
Proof.
  intros Hf. apply still_lock_src. intros [sh src]. specialize (Hf sh). by destruct (f sh).
Qed.

Lemma still_source {A} (m : M (SlowDictBackend K V) A) : keeps still (with_source m).
Proof. intros c Hc. unfold with_source. by destruct (m (c_source c)). Qed.

Lemma still_queue {A} (m : M (CacheJobQueue K V) A) : keeps still (with_queue m).
Proof. intros c Hc. unfold with_queue. by destruct (m (c_queue c)). Qed.

Lemma still_modify (f : Cache K V P → Cache K V P) :
  (∀ c, c_flights (f c) = c_flights c ∧ c_shards (f c) = c_shards c) → keeps still (modify f).
Proof.
  intros Hf c Hc. destruct (Hf c) as [E1 E2]. rewrite <- Hc. unfold modify, flights_view. simpl.
  by rewrite E1, E2.
Qed.

Lemma still_enqueue job critical : keeps still (enqueue_job job critical).
Proof.
  apply keeps_bind.
  - intros c Hc. by destruct (queue_put job critical (c_queue c)).
  - intros []; [apply keeps_ret|]. destruct critical; [apply keeps_raise|apply keeps_ret].
Qed.

Lemma still_now : keeps still now.
Proof. by intros c Hc. Qed.

Create HintDb stilldb.
#[local] Hint Resolve still_source still_queue still_enqueue still_now
  keeps_ret keeps_raise keeps_get keeps_attempt keeps_lift : stilldb.
#[local] Hint Extern 2 (keeps _ (with_lock _ _)) =>
  apply still_lock; intros ?; cbn [fst];
  first [done | apply sf_read | apply sf_resolve | apply sf_inspect | apply sf_dump | apply sf_expire
        | apply sf_flush_check | apply sf_flush_finish | apply sf_collect | apply sf_mark_clean
        | apply sf_clear_pending | case_match; [apply sf_clear_pending|done]] : stilldb.
#[local] Hint Extern 2 (keeps _ (with_lock_src _ (put_locked _ _ _ _ _ _ _))) =>
  apply still_lock_src; intros ?; apply sf_put : stilldb.
#[local] Hint Extern 2 (keeps _ (modify _)) => by apply still_modify : stilldb.
Ltac still_tac :=
  repeat first
    [ progress (eauto 3 with stilldb; try done)
    | apply keeps_bind; [|intros ?]
    | apply keeps_if
    | apply keeps_attempt
    | apply keeps_for_each; intros ? _
    | match goal with |- keeps _ (match ?x with _ => _ end) => destruct x end ].

Lemma still_inc f : keeps still (inc_runtime f).
Proof. by apply still_modify. Qed.
Lemma still_not_closed : keeps still require_not_closed.
Proof. unfold require_not_closed. still_tac. Qed.
Lemma still_require_workers : keeps still require_workers.
Proof. unfold require_workers. still_tac. Qed.
Lemma still_warn : keeps still maybe_warn_cache_not_started.
Proof. unfold maybe_warn_cache_not_started. still_tac. Qed.
Lemma still_validate ttl : keeps still (validate_explicit_ttl ttl).
Proof. unfold validate_explicit_ttl. still_tac. Qed.
Lemma still_sleep t : keeps still (sleep t).
Proof. by apply still_modify. Qed.
#[local] Hint Resolve still_inc still_not_closed still_require_workers still_warn still_validate
  still_sleep : stilldb.

Lemma still_enqueue_flush jobs : keeps still (enqueue_flush_jobs jobs).
Proof. induction jobs as [|job jobs IH]; cbn [enqueue_flush_jobs]; unfold release_pending; still_tac. Qed.
#[local] Hint Resolve still_enqueue_flush : stilldb.

Lemma still_get key dflt : keeps still (cache_get key dflt).
Proof. unfold cache_get. still_tac. Qed.
Lemma still_contains key : keeps still (cache_contains key).
Proof. unfold cache_contains. still_tac. Qed.
Lemma still_put key value ttl : keeps still (cache_put key value ttl).
Proof. unfold cache_put. still_tac. Qed.
#[local] Hint Resolve still_put : stilldb.

Lemma still_inspect key : keeps still (cache_inspect key).
Proof. unfold cache_inspect. still_tac. Qed.
Lemma still_dump_shards indices : keeps still (dump_shards indices).
Proof. induction indices as [|i indices IH]; cbn [dump_shards]; still_tac. Qed.
#[local] Hint Resolve still_dump_shards : stilldb.
Lemma still_dump limit : keeps still (cache_dump limit).
Proof. unfold cache_dump. still_tac. Qed.
Lemma still_expire_shard i : keeps still (expire_shard i).
Proof. unfold expire_shard. still_tac. Qed.
#[local] Hint Resolve still_expire_shard : stilldb.
Lemma still_expire_shards indices : keeps still (expire_shards indices).
Proof. induction indices as [|i indices IH]; cbn [expire_shards]; still_tac. Qed.
#[local] Hint Resolve still_expire_shards : stilldb.
Lemma still_expire_all : keeps still expire_all.
Proof. unfold expire_all. still_tac. Qed.
Lemma still_preload key loader ttl : keeps still (cache_preload key loader ttl).
Proof. unfold cache_preload. still_tac. Qed.
Lemma still_request_snapshot id : keeps still (request_snapshot id).
Proof. unfold request_snapshot. still_tac. Qed.
Lemma still_tick : keeps still scheduler_tick.
Proof. unfold scheduler_tick. still_tac. Qed.
Lemma still_restore key n : keeps still (restore_entry_metadata key n).
Proof. unfold restore_entry_metadata. still_tac. Qed.

Lemma still_flush_failed job : keeps still (flush_failed job).
Proof. unfold flush_failed. still_tac. Qed.
#[local] Hint Resolve still_flush_failed : stilldb.
Lemma still_flush_job job : keeps still (flush_write_back_job job).
Proof. unfold flush_write_back_job. still_tac. Qed.
#[local] Hint Resolve still_flush_job : stilldb.
Lemma still_handle_job job : keeps still (handle_job job).
Proof. unfold handle_job. still_tac. Qed.
#[local] Hint Resolve still_handle_job : stilldb.
Lemma still_worker : keeps still worker_step.
Proof. unfold worker_step. still_tac. Qed.
#[local] Hint Resolve still_worker : stilldb.
Lemma still_workers n : keeps still (worker_steps n).
Proof. induction n as [|n IH]; cbn [worker_steps]; still_tac. Qed.
#[local] Hint Resolve still_workers : stilldb.

Lemma still_start : keeps still cache_start.
Proof. unfold cache_start. still_tac. Qed.
Lemma still_pool_stop env : keeps still (pool_stop env).
Proof. unfold pool_stop. still_tac. Qed.
#[local] Hint Resolve still_pool_stop : stilldb.
Lemma still_until_full i jobs : keeps still (enqueue_until_full i jobs).
Proof. induction jobs as [|job jobs IH]; cbn [enqueue_until_full]; still_tac. Qed.
#[local] Hint Resolve still_until_full : stilldb.
Lemma still_enqueue_dirty : keeps still enqueue_dirty_write_back_jobs.
Proof. unfold enqueue_dirty_write_back_jobs. still_tac. Qed.
#[local] Hint Resolve still_enqueue_dirty : stilldb.
Lemma still_sync_attempts n i job : keeps still (sync_attempts n i job).
Proof. induction n as [|n IH]; cbn [sync_attempts]; still_tac. Qed.
#[local] Hint Resolve still_sync_attempts : stilldb.
Lemma still_sync_job i job : keeps still (sync_flush_job i job).
Proof. unfold sync_flush_job. still_tac. Qed.
#[local] Hint Resolve still_sync_job : stilldb.
Lemma still_for_any {A} (xs : list A) f : (∀ x, keeps still (f x)) → keeps still (for_any xs f).
Proof. intros Hf. induction xs as [|x xs IH]; cbn [for_any]; still_tac. Qed.
Lemma still_sync_flush : keeps still flush_dirty_entries_sync.
Proof.
  unfold flush_dirty_entries_sync. apply keeps_bind; [apply keeps_get|]. intros c.
  apply still_for_any. intros i. apply keeps_bind; [eauto with stilldb|]. intros jobs.
  apply still_for_any. eauto with stilldb.
Qed.
#[local] Hint Resolve still_sync_flush : stilldb.
Lemma still_close flush env : keeps still (cache_close flush env).
Proof. unfold cache_close. still_tac. Qed.
End at_view.

Lemma quiet_view c c' : quiet_step c c' → flights_view c' = flights_view c.
Proof.
  intros Hq. destruct Hq; try reflexivity.
  - by apply still_start.
  - by apply still_close.
  - by apply still_get.
  - by apply still_put.
  - by apply still_contains.
  - by apply still_inspect.
  - by apply still_dump.
  - by apply still_expire_all.
  - by apply still_preload.
  - by apply still_request_snapshot.
  - by apply still_tick.
  - by apply still_restore.
  - by apply still_worker.
Qed.
End cache_frame.

(** ** Calls that change the flights *)

(** Shard [i] has flight [fid] registered for [k]. *)
Definition registered {K} `{EqDecision K} (T : list (dict K nat)) (i : nat) (k : K) (fid : nat) : Prop :=
  ∃ d, T !! i = Some d ∧ dict_get d k = Some fid.

(** What anything but the calls of [get_or_compute] under way does to the view: it may add
    flights of its own and drop registrations. *)
Record view_frame {K V} `{EqDecision K} (s s' : list (Flight V) * list (dict K nat)) : Prop := {
  vf_flights : s.1 `prefix_of` s'.1;
  vf_length : length s'.2 = length s.2;
  vf_table i k fid : registered s'.2 i k fid → registered s.2 i k fid;
}.

Section frames.
Context {K V P : Type} `{EqDecision K} `{KeyHash K} `{PyNone V}
  `{HP : EvictionPolicy K P} `{!PolicyLaws K P}.
Implicit Types (c : Cache K V P) (key : K) (value : V).
Local Abbreviation MC := (M (Cache K V P)).

#[global] Instance view_frame_preorder : PreOrder (view_frame (K:=K) (V:=V)).
Proof.
  split; [by intros s; split|]. intros s1 s2 s3 [P1 L1 T1] [P2 L2 T2].
  split; [by etransitivity|congruence|auto].
Qed.

Section from.
Context (s : list (Flight V) * list (dict K nat)).
Local Abbreviation framed := (λ c, view_frame s (flights_view c)).

Lemma framed_still {A} (m : MC A) :
  (∀ s', keeps (λ c, flights_view c = s') m) → keeps framed m.
Proof. intros Hm c Hc. by rewrite (Hm (flights_view c) c eq_refl). Qed.

Lemma framed_lock_src {A} i (m : M (CacheShard K V P * SlowDictBackend K V) A) :
  (∀ st k fid, dict_get (sh_singleflight (m st).1.1) k = Some fid →
               dict_get (sh_singleflight st.1) k = Some fid) →
  keeps framed (with_lock_src i m).
Proof.
  intros Hm c Hc. etransitivity; [exact Hc|]. clear Hc. unfold with_lock_src.
  destruct (c_shards c !! _) as [sh|] eqn:E; [|done].
  specialize (Hm (sh, c_source c)). destruct (m (sh, c_source c)) as [[sh' src'] r]. cbn [fst snd] in *.
  split; simpl; [done|by rewrite !length_fmap, length_insert|].
  intros j k fid (d & Hd & Hk). rewrite list_fmap_insert in Hd.
  apply list_lookup_insert_Some in Hd as [(<- & <- & _)|[_ Hd]]; [|by exists d].
  exists (sh_singleflight sh). rewrite list_lookup_fmap, E. auto.
Qed.

Lemma framed_delete key : keeps framed (cache_delete key).
Proof.
  unfold cache_delete. apply keeps_bind; [apply framed_still; intros; apply still_not_closed|]. intros _.
  apply keeps_bind; [apply keeps_get|]. intros c. apply keeps_bind.
  - apply framed_lock_src. intros st k fid.
    destruct (sf_delete (c_write_mode c) (cfg_write_back_retry_count (c_config c)) key st) as [-> | ->];
      [done|]. by rewrite dict_get_pop; case_decide.
  - intros [existed [job|]]; (apply keeps_bind; [|intros _; apply keeps_ret]);
      [apply framed_still; intros; apply still_enqueue_flush|apply keeps_ret].
Qed.

Lemma framed_clear : keeps framed cache_clear.
Proof.
  unfold cache_clear. apply keeps_bind; [apply framed_still; intros; apply still_not_closed|]. intros _.
  apply keeps_bind; [apply keeps_get|]. intros c. apply keeps_bind.
  - generalize (shard_indices c) as l. induction l as [|i l IH]; cbn [clear_shards]; [apply keeps_ret|].
    apply keeps_bind; [apply keeps_get|]. intros c'. apply keeps_bind.
    + apply framed_lock_src. intros st k fid.
      by destruct (sf_clear (c_write_mode c') (cfg_write_back_retry_count (c_config c')) st) as [-> | ->].
    + intros jobs. apply keeps_bind; [done|]. intros jobs'. apply keeps_ret.
  - intros jobs. apply framed_still. intros. apply still_enqueue_flush.
Qed.
End from.

(** *** The two critical sections of [get_or_compute] *)

Section blocks.
Context (cfg : CacheConfig) (mode : WriteMode) (busy : Z).
Local Abbreviation inv := (cache_inv cfg mode busy).
Local Abbreviation table c := (sh_singleflight <$> c_shards c).

Lemma with_shard_view i sh c :
  flights_view (with_shard i sh c) = (c_flights c, <[i := sh_singleflight sh]> (table c)).
Proof. unfold flights_view. simpl. by rewrite list_fmap_insert. Qed.

(** The block that ends a flight. *)
Lemma run_finish c key fid outcome :
  inv c → ∃ c' d, finish_flight (shard_for c key) key fid outcome c = (c', Ok tt) ∧
    table c !! slot c key = Some d ∧
    flights_view c' = (alter outcome fid (c_flights c), <[slot c key := dict_pop d key]> (table c)).
Proof.
  intros Hc. unfold finish_flight. set (c1 := set_flights (alter outcome fid (c_flights c)) c).
  assert (inv c1) as Hc1 by (by apply (inv_ext _ _ _ c)).
  destruct (slot_lookup _ _ _ c1 key Hc1) as [sh Hsh].
  erewrite bind_ok; [|reflexivity]. change (shard_for c key) with (shard_for c1 key).
  rewrite (run_lock _ _ _ c1 key sh) by done. eexists _, (sh_singleflight sh).
  split; [reflexivity|]. split; [|by rewrite with_shard_view].
  assert (c_shards c !! slot c key = Some sh) as Hsh' by exact Hsh.
  by rewrite list_lookup_fmap, Hsh'.
Qed.

(** The block that decides the role of a call. *)
Definition joined c key (role : flight_role V) (c' : Cache K V P) : Prop :=
  match role with
  | RHit _ => flights_view c' = flights_view c
  | RWaiter fid => flights_view c' = flights_view c ∧ registered (table c) (slot c key) key fid
  | RLeader fid =>
      fid = length (c_flights c) ∧
      ∃ d, table c !! slot c key = Some d ∧ dict_get d key = None ∧
        flights_view c' = (c_flights c ++ [mkFlight false py_none None],
                           <[slot c key := dict_set d key fid]> (table c))
  end.

Lemma run_join c key :
  inv c → ∃ c' role, join_flight key c = (c', Ok role) ∧ inv c' ∧ joined c key role c'.
Proof.
  intros Hc. destruct (slot_lookup _ _ _ c key Hc) as [sh Hsh].
  set (t := clock_now (c_clock c)). set (rd := read_value_locked (P:=P) (V:=V) t key true true).
  set (c1 := with_shard (slot c key) (rd sh).1 c).
  assert (with_lock (shard_for c key) rd c = (c1, Ok (rd sh).2)) as Hrd by by apply (run_lock cfg mode busy).
  assert (flights_view c1 = flights_view c) as Hv.
  { change c1 with (c1, Ok (rd sh).2).1. rewrite <- Hrd. apply still_lock; [apply sf_read|done]. }
  assert (inv c1) as Hc1.
  { change c1 with (c1, Ok (rd sh).2).1. rewrite <- Hrd. apply keeps_lock; [|done].
    intros j data sh'. apply read_value_inv. }
  pose proof (keeps_join_flight cfg mode busy key c Hc) as Hkeep.
  assert (table c1 = table c) as Ht by apply (f_equal snd Hv).
  assert (slot c1 key = slot c key) as Hslot by apply slot_with_shard.
  assert (∃ c' role, join_flight key c = (c', Ok role) ∧ joined c key role c') as (c' & role & Hj & Hr);
    [|exists c', role; rewrite Hj in Hkeep; done].
  unfold join_flight. erewrite bind_ok; [|reflexivity]. erewrite bind_ok; [|reflexivity].
  erewrite bind_ok; [|exact Hrd]. destruct (rd sh).2 as [[] value]; [by exists c1, (RHit value)|].
  assert (shard_for c key = shard_for c1 key) as Hfor
    by (unfold shard_for; simpl; by rewrite length_insert).
  destruct (slot_lookup _ _ _ c1 key Hc1) as [sh1 Hsh1]. rewrite Hfor.
  assert (table c !! slot c key = Some (sh_singleflight sh1)) as Hd
    by (by rewrite <- Ht, <- Hslot, list_lookup_fmap, Hsh1).
  erewrite bind_ok; [|by apply (run_lock cfg mode busy c1 key sh1)]. cbn [fst snd].
  rewrite with_shard_id by done. destruct (dict_get (sh_singleflight sh1) key) as [fid|] eqn:E.
  { exists c1, (RWaiter fid). split; [done|]. split; [done|]. by exists (sh_singleflight sh1). }
  set (c2 := set_flights (c_flights c1 ++ [mkFlight false py_none None]) c1).
  assert (inv c2) as Hc2 by (by apply (inv_ext _ _ _ c1)).
  unfold new_flight. erewrite bind_ok; [|erewrite bind_ok; [|reflexivity]; erewrite bind_ok; [|reflexivity];
    change (shard_for c1 key) with (shard_for c2 key); erewrite bind_ok;
      [|by apply (run_lock cfg mode busy c2 key sh1)]; reflexivity].
  eexists _, (RLeader (length (c_flights c1))). split; [reflexivity|]. split; [done|].
  exists (sh_singleflight sh1). split; [done|]. split; [done|].
  rewrite with_shard_view. change (slot c2 key) with (slot c1 key). by rewrite Hslot, <- Ht.
Qed.

(** A leader's part in one go ends its flight, whatever happens. *)
Lemma run_lead c key loader ttl fid :
  inv c → ∃ outcome d, table c !! slot c key = Some d ∧
    flights_view (lead_flight key (lift loader) ttl fid c).1
    = (alter outcome fid (c_flights c), <[slot c key := dict_pop d key]> (table c)).
Proof.
  intros Hc. unfold lead_flight. erewrite bind_ok; [|reflexivity]. erewrite bind_ok; [|reflexivity].
  destruct loader as [v|e].
  - pose proof (keeps_put cfg mode busy key v ttl c Hc) as Hp.
    pose proof (still_put (flights_view c) key v ttl c eq_refl) as Hv.
    destruct (cache_put key v ttl c) as [c1 w] eqn:E. cbn [fst] in *.
    assert (table c1 = table c) as Ht by apply (f_equal snd Hv).
    assert (length (c_shards c1) = length (c_shards c)) as Hl
      by (rewrite (ci_length _ _ _ _ Hp), (ci_length _ _ _ _ Hc); done).
    assert (shard_for c key = shard_for c1 key) as Hf by (unfold shard_for; by rewrite Hl).
    assert (∀ outcome, ∃ c' d, finish_flight (shard_for c key) key fid outcome c1 = (c', Ok tt) ∧
      table c !! slot c key = Some d ∧
      flights_view c' = (alter outcome fid (c_flights c), <[slot c key := dict_pop d key]> (table c))) as Hfin.
    { intros outcome. destruct (run_finish c1 key fid outcome Hp) as (c' & d & Hrun & Hd & Hview).
      unfold slot in *. rewrite <- Hf, Ht in *. rewrite (f_equal fst Hv : c_flights c1 = c_flights c) in Hview.
      by exists c', d. }
    erewrite bind_ok; [|by apply attempt_eq].
    assert (∀ outcome {A} (m : MC A), (∀ c', (m c').1 = c') → ∃ d, table c !! slot c key = Some d ∧
      flights_view ((finish_flight (shard_for c key) key fid outcome ;; m) c1).1
      = (alter outcome fid (c_flights c), <[slot c key := dict_pop d key]> (table c))) as Hend.
    { intros outcome A m Hm. destruct (Hfin outcome) as (c' & d & Hrun & Hd & Hview).
      exists d. split; [done|]. erewrite bind_ok by done. by rewrite Hm. }
    destruct w as [u|[]]; unfold fail_flight_locked; eexists; by apply Hend.
  - destruct (run_finish c key fid (λ f, mkFlight true (fl_result f) (Some e)) Hc) as (c' & d & Hrun & Hd & Hview).
    eexists _, d. split; [done|]. unfold fail_flight_locked. erewrite bind_ok by done. exact Hview.
Qed.

Lemma registered_insert_pop (T : list (dict K nat)) i d key fid j k f :
  T !! i = Some d → dict_get d key = None →
  registered (<[i := dict_pop (dict_set d key fid) key]> T) j k f → registered T j k f.
Proof.
  intros Hd Hk (d' & Hd' & Hf). apply list_lookup_insert_Some in Hd' as [(<- & <- & _)|[_ Hd']];
    [|by exists d']. exists d. split; [done|].
  rewrite dict_get_pop, dict_get_set in Hf. by repeat case_decide.
Qed.

Lemma await_state fid c : (await_flight fid c).1 = c.
Proof. unfold await_flight, mbind, M_bind, get_state. by repeat case_match. Qed.

Lemma framed_get_or_compute c key loader ttl :
  inv c → view_frame (flights_view c)
                     (flights_view (get_or_compute key (lift loader) ttl (mret tt) c).1).
Proof.
  intros Hc. unfold get_or_compute, mbind, M_bind.
  pose proof (keeps_require_not_closed cfg mode busy c Hc) as Hc1.
  pose proof (still_not_closed (flights_view c) c eq_refl) as <-.
  destruct (require_not_closed c) as [c1 [u|e]]; [|done]. cbn [fst] in *.
  pose proof (keeps_validate_ttl cfg mode busy ttl c1 Hc1) as Hc2.
  pose proof (still_validate (flights_view c1) ttl c1 eq_refl) as <-.
  destruct (validate_explicit_ttl ttl c1) as [c2 [u'|e]]; [|done]. cbn [fst] in *.
  destruct (run_join c2 key Hc2) as (c3 & role & -> & Hc3 & Hj).
  destruct role as [value|fid|fid]; simpl in Hj.
  - cbn [fst mret M_ret]. by rewrite Hj.
  - destruct Hj as (-> & d & Hd & Hnone & Hv).
    destruct (run_lead c3 key loader ttl (length (c_flights c2)) Hc3) as (outcome & d' & Hd' & Hlead).
    match goal with |- view_frame _ (flights_view ?x) =>
      assert (x = (lead_flight key (lift loader) ttl (length (c_flights c2)) c3).1) as -> end.
    { by destruct (lead_flight _ _ _ _ c3) as [? []]. }
    rewrite Hlead.
    assert (table c3 = <[slot c2 key := dict_set d key (length (c_flights c2))]> (table c2)) as Ht
      by apply (f_equal snd Hv).
    assert (slot c3 key = slot c2 key) as Hs.
    { unfold slot, shard_for. by rewrite (ci_length _ _ _ _ Hc3), (ci_length _ _ _ _ Hc2). }
    rewrite Hs, Ht in *. rewrite (f_equal fst Hv : c_flights c3 = _).
    rewrite list_lookup_insert_eq in Hd' by (by eapply lookup_lt_Some). simplify_eq.
    split; simpl.
    + rewrite alter_app_r_alt by lia. by apply prefix_app_r.
    + by rewrite !length_insert.
    + intros j k f. rewrite list_insert_insert_eq. by apply registered_insert_pop.
  - destruct Hj as [Hv _]. cbn [mret M_ret]. rewrite await_state. by rewrite Hv.
Qed.

Lemma framed_step c c' : inv c → cache_step c c' → view_frame (flights_view c) (flights_view c').
Proof.
  intros Hc Hs. destruct Hs as [c c' Hq|key c|c|key loader ttl c].
  - by rewrite (quiet_view c c' Hq).
  - by apply framed_delete.
  - by apply framed_clear.
  - by apply framed_get_or_compute.
Qed.
End blocks.
End frames.
