(* ===== verification/SingleFlight.v ===== *)
(** [Cache.get_or_compute] under concurrency (src/cachelab/core/cache.py).

    A call is cut at its critical sections into the phases of a thread, and [sf_step]
    interleaves any number of calls with each other and with everything else that can happen
    to the cache.  A call that nobody interferes with is specified by [compute_outcome], and
    its phases run one after the other are the call ([call_phases]). *)

From stdpp Require Import base tactics numbers option strings sets list relations.
From S2P Require Import Prelude PyDict PyFloat PyMonad Config Entry Policies PolicyLaws.
From S2P Require Import Storage Jobs Shard ShardInv ShardSpec Cache CacheInv CacheSafety.
From S2P Require Import Reach CacheSpec Demo Flights.
Local Open Scope string_scope.
Local Open Scope list_scope.
Local Open Scope Z_scope.

(** ** Concurrent calls *)

(** Where a call of [get_or_compute] stands. *)
Inductive thread (K V : Type) : Type :=
  | Calling (key : K) (ttl : ttl_arg)                          (* before the guards *)
  | Joining (key : K) (ttl : ttl_arg)                          (* before the first block *)
  | Loading (key : K) (ttl : ttl_arg) (fid : nat)              (* leader, in [loader()] *)
  | Storing (key : K) (ttl : ttl_arg) (fid : nat) (loaded : V) (* leader, before [put] *)
  | Failing (key : K) (fid : nat) (e : exn)                    (* leader, before [_fail_flight_locked] *)
  | Publishing (key : K) (fid : nat) (loaded : V)              (* leader, before the last block *)
  | Waiting (fid : nat)                                        (* in [flight.event.wait()] *)
  | Returned (r : result V)                                    (* a hit, or a guard that raised *)
  | Led (fid : nat) (r : result V)                             (* a leader's outcome *)
  | Followed (fid : nat) (r : result V).                       (* a waiter's outcome *)
Arguments Calling {_ _} _ _.
Arguments Joining {_ _} _ _.
Arguments Loading {_ _} _ _ _.
Arguments Storing {_ _} _ _ _ _.
Arguments Failing {_ _} _ _ _.
Arguments Publishing {_ _} _ _ _.
Arguments Waiting {_ _} _.
Arguments Returned {_ _} _.
Arguments Led {_ _} _ _.
Arguments Followed {_ _} _ _.

Section threads.
Context {K V P : Type} `{EqDecision K} `{KeyHash K} `{PyNone V}
  `{HP : EvictionPolicy K P} `{!PolicyLaws K P}.
Implicit Types (c : Cache K V P) (key : K) (value : V) (t : thread K V) (ts : list (thread K V)).
Local Abbreviation MC := (M (Cache K V P)).

(** The next part of a call; [loader] is what the caller's function returns or raises, for
    the step that ends it. *)
Definition thread_step (loader : result V) t : MC (thread K V) :=
  match t with
  | Calling key ttl =>
      r ← attempt (require_not_closed ;; validate_explicit_ttl ttl);
      mret (match r with Ok _ => Joining key ttl | Raise e => Returned (Raise e) end)
  | Joining key ttl =>
      role ← join_flight key;
      mret (match role with
            | RHit value => Returned (Ok value)
            | RLeader fid => Loading key ttl fid
            | RWaiter fid => Waiting fid
            end)
  | Loading key ttl fid =>
      mret (match loader with Ok loaded => Storing key ttl fid loaded | Raise e => Failing key fid e end)
  | Storing key ttl fid loaded =>
      w ← attempt (cache_put key loaded ttl);
      mret (match w with
            | Ok _ | Raise QueueBackpressureError => Publishing key fid loaded
            | Raise e => Failing key fid e
            end)
  | Failing key fid e =>
      c ← get_state;
      fail_flight_locked (shard_for c key) key fid e ;;
      mret (Led fid (Raise e))
  | Publishing key fid loaded =>
      c ← get_state;
      finish_flight (shard_for c key) key fid (λ f, mkFlight true loaded (fl_exception f)) ;;
      mret (Led fid (Ok loaded))
  | Waiting fid =>
      r ← attempt (await_flight fid);
      mret (match r with
            | Ok None => Waiting fid
            | Ok (Some value) => Followed fid (Ok value)
            | Raise e => Followed fid (Raise e)
            end)
  | Returned _ | Led _ _ | Followed _ _ => mret t
  end.

(** The flight a call leads, with its key. *)
Definition leads t : option (K * nat) :=
  match t with
  | Loading key _ fid | Storing key _ fid _ | Failing key fid _ | Publishing key fid _ => Some (key, fid)
  | _ => None
  end.
Definition led ts key fid : Prop := ∃ j t, ts !! j = Some t ∧ leads t = Some (key, fid).

(** The cache with the calls made on it: the environment moves the cache, a new call is made,
    or a call goes on. *)
Inductive sf_step (env : Cache K V P → Cache K V P → Prop) :
    Cache K V P * list (thread K V) → Cache K V P * list (thread K V) → Prop :=
  | sf_env c c' ts : env c c' → sf_step env (c, ts) (c', ts)
  | sf_call c ts key ttl : sf_step env (c, ts) (c, ts ++ [Calling key ttl])
  | sf_thread loader c c' ts i t t' :
      ts !! i = Some t → thread_step loader t c = (c', Ok t') →
      sf_step env (c, ts) (c', <[i := t']> ts).

(** *** The invariant of the calls *)

Definition outcome (f : Flight V) : result V :=
  match fl_exception f with Some e => Raise e | None => Ok (fl_result f) end.
Definition finished (F : list (Flight V)) (fid : nat) (r : result V) : Prop :=
  ∃ f, F !! fid = Some f ∧ fl_event f = true ∧ outcome f = r.

Definition slot_of (n : nat) key : nat := Z.to_nat (key_hash key mod Z.of_nat n).

Record calls_ok (s : list (Flight V) * list (dict K nat)) ts : Prop := {
  (* a flight that is led is not finished *)
  co_lead j t key fid : ts !! j = Some t → leads t = Some (key, fid) →
    ∃ f, s.1 !! fid = Some f ∧ fl_event f = false ∧ fl_exception f = None;
  (* a flight has one leader *)
  co_unique i j t t' key key' fid : ts !! i = Some t → ts !! j = Some t' →
    leads t = Some (key, fid) → leads t' = Some (key', fid) → i = j;
  (* a registered flight is led *)
  co_table i key fid : registered s.2 i key fid → i = slot_of (length s.2) key ∧ led ts key fid;
  (* a leader's outcome is its flight's *)
  co_led j fid r : ts !! j = Some (Led fid r) → finished s.1 fid r;
  (* whoever waits has a leader, at work or done *)
  co_wait j fid : ts !! j = Some (Waiting fid) →
    (∃ key, led ts key fid) ∨ ∃ i r, ts !! i = Some (Led fid r);
  co_followed j fid r : ts !! j = Some (Followed fid r) → ∃ i, ts !! i = Some (Led fid r);
}.
Lemma lookup_upd ts i t' j x :
  <[i := t']> ts !! j = Some x → (j = i ∧ x = t') ∨ (j ≠ i ∧ ts !! j = Some x).
Proof. intros [(<- & <- & _)|[? ?]]%list_lookup_insert_Some; auto. Qed.

Lemma lookup_upd_ne ts i t t' j x :
  ts !! i = Some t → ts !! j = Some x → x ≠ t → <[i := t']> ts !! j = Some x.
Proof. intros Hi Hj Hne. rewrite list_lookup_insert_ne; [done|]. intros ->. congruence. Qed.

Lemma led_upd ts i t t' key fid :
  ts !! i = Some t → (leads t = Some (key, fid) → leads t' = Some (key, fid)) →
  led ts key fid → led (<[i := t']> ts) key fid.
Proof.
  intros Hi Ht (j & x & Hj & Hx). destruct (decide (j = i)) as [->|Hne].
  - exists i, t'. rewrite list_lookup_insert_eq by (by eapply lookup_lt_Some). simplify_eq. auto.
  - exists j, x. by rewrite list_lookup_insert_ne.
Qed.

(** The environment moves. *)
Lemma calls_frame s s' ts : view_frame s s' → calls_ok s ts → calls_ok s' ts.
Proof.
  intros [Hp Hl Ht] [Hlead Huniq Htab Hled Hwait Hfol]. split; try done.
  - intros j t key fid Hj Hk. destruct (Hlead j t key fid Hj Hk) as (f & Hf & ?).
    exists f. split; [by eapply prefix_lookup_Some|done].
  - intros i key fid Hr. rewrite Hl. by apply Htab, Ht.
  - intros j fid r Hj. destruct (Hled j fid r Hj) as (f & Hf & ?).
    exists f. split; [by eapply prefix_lookup_Some|done].
Qed.

(** A new call. *)
Lemma calls_call s ts key ttl : calls_ok s ts → calls_ok s (ts ++ [Calling key ttl]).
Proof.
  intros [Hlead Huniq Htab Hled Hwait Hfol].
  assert (∀ j t, (ts ++ [Calling key ttl]) !! j = Some t → ts !! j = Some t ∨ t = Calling key ttl) as Hin.
  { intros j t [?|[_ Hj]]%lookup_app_Some; [by left|].
    apply list_elem_of_lookup_2, list_elem_of_singleton in Hj. by right. }
  assert (∀ j t, ts !! j = Some t → (ts ++ [Calling key ttl]) !! j = Some t) as Hmono
    by (intros j t Hj; by apply lookup_app_l_Some).
  assert (∀ k fid, led ts k fid → led (ts ++ [Calling key ttl]) k fid) as Hl
    by (intros k fid (j & t & Hj & Ht); exists j, t; auto).
  split.
  - intros j t k fid Hj Ht. destruct (Hin j t Hj) as [?| ->]; [by eapply Hlead|done].
  - intros i j t t' k k' fid Hi Hj Ht Ht'. destruct (Hin i t Hi) as [?| ->]; [|done].
    destruct (Hin j t' Hj) as [?| ->]; [by eapply Huniq|done].
  - intros i k fid Hr. destruct (Htab i k fid Hr). auto.
  - intros j fid r Hj. destruct (Hin j _ Hj) as [?|?]; [by eapply Hled|done].
  - intros j fid Hj. destruct (Hin j _ Hj) as [Hj'|?]; [|done].
    destruct (Hwait j fid Hj') as [[k Hk]|(i & r & Hi)]; [left; eauto|right; eauto].
  - intros j fid r Hj. destruct (Hin j _ Hj) as [Hj'|?]; [|done].
    destruct (Hfol j fid r Hj') as [i Hi]. eauto.
Qed.

(** A call goes on without touching the view. *)
Definition plain t : Prop :=
  match t with Waiting _ | Led _ _ | Followed _ _ => False | _ => True end.

Lemma calls_move s ts i t t' :
  ts !! i = Some t → plain t → plain t' → leads t' = leads t →
  calls_ok s ts → calls_ok s (<[i := t']> ts).
Proof.
  intros Hi Hp Hp' Hl [Hlead Huniq Htab Hled Hwait Hfol].
  assert (∀ k fid, led ts k fid → led (<[i := t']> ts) k fid) as Hmono
    by (intros k fid; apply (led_upd ts i t); [done|]; by rewrite Hl).
  assert (∀ j fid r, ts !! j = Some (Led fid r) → <[i := t']> ts !! j = Some (Led fid r)) as Hdone
    by (intros j fid r Hj; eapply lookup_upd_ne; [done..|]; by intros <-).
  assert (∀ j x, <[i := t']> ts !! j = Some x → ∃ x', ts !! j = Some x' ∧ leads x = leads x') as Hback.
  { intros j x [[-> ->]|[_ Hj]]%lookup_upd; eauto. }
  split.
  - intros j x k fid Hj Hx. destruct (Hback j x Hj) as (x' & Hj' & E). apply (Hlead j x' k fid Hj'); congruence.
  - intros a b x y k k' fid Ha Hb Hx Hy. destruct (Hback a x Ha) as (x' & Ha' & Ex).
    destruct (Hback b y Hb) as (y' & Hb' & Ey). apply (Huniq a b x' y' k k' fid Ha' Hb'); congruence.
  - intros a k fid Hr. destruct (Htab a k fid Hr). auto.
  - intros j fid r [[_ Hx]|[_ Hj]]%lookup_upd; [by subst|by eapply Hled].
  - intros j fid [[_ Hx]|[_ Hj]]%lookup_upd; [by subst|].
    destruct (Hwait j fid Hj) as [[k Hk]|(a & r & Ha)]; [left; eauto|right; eauto].
  - intros j fid r [[_ Hx]|[_ Hj]]%lookup_upd; [by subst|]. destruct (Hfol j fid r Hj) as [a Ha]. eauto.
Qed.
(** A call finds a registered flight and waits for it. *)
Lemma calls_wait s ts i t key fid :
  ts !! i = Some t → plain t → leads t = None → led ts key fid →
  calls_ok s ts → calls_ok s (<[i := Waiting fid]> ts).
Proof.
  intros Hi Hp Hl Hk [Hlead Huniq Htab Hled Hwait Hfol].
  assert (∀ k f, led ts k f → led (<[i := Waiting fid]> ts) k f) as Hmono
    by (intros k f; apply (led_upd ts i t); [done|]; by rewrite Hl).
  assert (∀ j f r, ts !! j = Some (Led f r) → <[i := Waiting fid]> ts !! j = Some (Led f r)) as Hdone
    by (intros j f r Hj; eapply lookup_upd_ne; [done..|]; by intros <-).
  split.
  - intros j x k f [[_ ->]|[_ Hj]]%lookup_upd; [done|by eapply Hlead].
  - intros a b x y k k' f [[_ ->]|[_ Ha]]%lookup_upd [[_ ->]|[_ Hb]]%lookup_upd; [done..|by eapply Huniq].
  - intros a k f Hr. destruct (Htab a k f Hr). auto.
  - intros j f r [[_ ?]|[_ Hj]]%lookup_upd; [done|by eapply Hled].
  - intros j f [[_ Hx]|[_ Hj]]%lookup_upd; [left; exists key; simplify_eq; auto|].
    destruct (Hwait j f Hj) as [[k ?]|(a & r & Ha)]; [left; eauto|right; eauto].
  - intros j f r [[_ ?]|[_ Hj]]%lookup_upd; [done|]. destruct (Hfol j f r Hj) as [a Ha]. eauto.
Qed.

(** A call registers a flight of its own. *)
Lemma calls_lead F T ts i t t' key fl d :
  ts !! i = Some t → plain t → plain t' → leads t = None → leads t' = Some (key, length F) →
  fl_event fl = false → fl_exception fl = None →
  T !! slot_of (length T) key = Some d →
  calls_ok (F, T) ts →
  calls_ok (F ++ [fl], <[slot_of (length T) key := dict_set d key (length F)]> T) (<[i := t']> ts).
Proof.
  intros Hi Hp Hp' Hl Hl' He Hx Hd [Hlead Huniq Htab Hled Hwait Hfol]. cbn [fst snd] in *.
  assert (∀ k f, led ts k f → led (<[i := t']> ts) k f) as Hmono
    by (intros k f; apply (led_upd ts i t); [done|]; by rewrite Hl).
  assert (∀ j f r, ts !! j = Some (Led f r) → <[i := t']> ts !! j = Some (Led f r)) as Hdone
    by (intros j f r Hj; eapply lookup_upd_ne; [done..|]; by intros <-).
  assert (∀ j x k, ts !! j = Some x → leads x = Some (k, length F) → False) as Hfresh.
  { intros j x k Hj Hk. destruct (Hlead j x k _ Hj Hk) as (f & Hf & _). apply lookup_lt_Some in Hf. lia. }
  assert (led (<[i := t']> ts) key (length F)) as Hnew.
  { exists i, t'. split; [|done]. apply list_lookup_insert_eq. by eapply lookup_lt_Some. }
  split; cbn [fst snd].
  - intros j x k f [[_ ->]|[_ Hj]]%lookup_upd Hk.
    + assert (f = length F) as -> by congruence. exists fl. by rewrite list_lookup_middle.
    + destruct (Hlead j x k f Hj Hk) as (f' & Hf & ?). exists f'. by rewrite (lookup_app_l_Some _ _ _ _ Hf).
  - intros a b x y k k' f [[-> ->]|[_ Ha]]%lookup_upd [[-> ->]|[_ Hb]]%lookup_upd Hka Hkb; [done| | |by eapply Huniq].
    + exfalso. apply (Hfresh b y k' Hb). congruence.
    + exfalso. apply (Hfresh a x k Ha). congruence.
  - intros a k f (d' & Hd' & Hf). rewrite length_insert.
    apply list_lookup_insert_Some in Hd' as [(<- & <- & _)|[_ Hd']].
    + rewrite dict_get_set in Hf. case_decide; simplify_eq; [done|].
      destruct (Htab _ k f (ex_intro _ d (conj Hd Hf))). auto.
    + destruct (Htab a k f (ex_intro _ d' (conj Hd' Hf))). auto.
  - intros j f r [[_ Hq]|[_ Hj]]%lookup_upd; [by subst|]. destruct (Hled j f r Hj) as (f' & Hf & ?).
    exists f'. by rewrite (lookup_app_l_Some _ _ _ _ Hf).
  - intros j f [[_ Hq]|[_ Hj]]%lookup_upd; [by subst|].
    destruct (Hwait j f Hj) as [[k ?]|(a & r & Ha)]; [left; eauto|right; eauto].
  - intros j f r [[_ Hq]|[_ Hj]]%lookup_upd; [by subst|]. destruct (Hfol j f r Hj) as [a Ha]. eauto.
Qed.
(** A leader ends its flight. *)
Lemma calls_finish F T ts i t key fid d end_flight r :
  ts !! i = Some t → leads t = Some (key, fid) →
  T !! slot_of (length T) key = Some d →
  (∀ f, fl_exception f = None → fl_event (end_flight f) = true ∧ outcome (end_flight f) = r) →
  calls_ok (F, T) ts →
  calls_ok (alter end_flight fid F, <[slot_of (length T) key := dict_pop d key]> T)
           (<[i := Led fid r]> ts).
Proof.
  intros Hi Hl Hd He [Hlead Huniq Htab Hled Hwait Hfol]. cbn [fst snd] in *.
  assert (∀ j f r', ts !! j = Some (Led f r') → <[i := Led fid r]> ts !! j = Some (Led f r')) as Hdone
    by (intros j f r' Hj; eapply lookup_upd_ne; [done..|]; by intros <-).
  assert (∀ k f, led ts k f → led (<[i := Led fid r]> ts) k f ∨ (k = key ∧ f = fid)) as Hmono.
  { intros k f (j & x & Hj & Hx). destruct (decide (j = i)) as [->|Hne].
    - right. split; congruence.
    - left. exists j, x. by rewrite list_lookup_insert_ne. }
  assert (<[i := Led fid r]> ts !! i = Some (Led fid r)) as Hself
    by (apply list_lookup_insert_eq; by eapply lookup_lt_Some).
  split; cbn [fst snd].
  - intros j x k f [[_ ->]|[Hne Hj]]%lookup_upd Hk; [done|].
    destruct (Hlead j x k f Hj Hk) as (f' & Hf & ?). exists f'.
    rewrite list_lookup_alter_ne; [done|]. intros ->. apply Hne. by eapply (Huniq j i x t).
  - intros a b x y k k' f [[_ ->]|[_ Ha]]%lookup_upd [[_ ->]|[_ Hb]]%lookup_upd; [done..|by eapply Huniq].
  - intros a k f (d' & Hd' & Hf). rewrite length_insert.
    apply list_lookup_insert_Some in Hd' as [(<- & <- & _)|[Hne Hd']].
    + rewrite dict_get_pop in Hf. case_decide as Hk; [done|].
      destruct (Htab _ k f (ex_intro _ d (conj Hd Hf))) as [? [?|[? _]]%Hmono]; [done|congruence].
    + destruct (Htab a k f (ex_intro _ d' (conj Hd' Hf))) as [? [?|[-> _]]%Hmono]; [done|congruence].
  - destruct (Hlead i t key fid Hi Hl) as (f0 & Hf0 & Hev & Hex).
    intros j f r' [[_ Hq]|[_ Hj]]%lookup_upd.
    + simplify_eq. exists (end_flight f0). rewrite list_lookup_alter_eq, Hf0. split; [done|]. by apply He.
    + destruct (Hled j f r' Hj) as (f' & Hf & Ht & ?). exists f'.
      rewrite list_lookup_alter_ne; [done|]. intros ->. congruence.
  - intros j f [[_ ?]|[_ Hj]]%lookup_upd; [done|].
    destruct (Hwait j f Hj) as [[k [?|[_ ->]]%Hmono]|(a & r' & Ha)]; [left; eauto|right; eauto..].
  - intros j f r' [[_ ?]|[_ Hj]]%lookup_upd; [done|]. destruct (Hfol j f r' Hj) as [a Ha]. eauto.
Qed.

(** A waiter is woken. *)
Lemma calls_follow s ts i fid r :
  ts !! i = Some (Waiting fid) → finished s.1 fid r →
  calls_ok s ts → calls_ok s (<[i := Followed fid r]> ts).
Proof.
  intros Hi (f & Hf & Hev & Hr) [Hlead Huniq Htab Hled Hwait Hfol].
  assert (∀ k f', led ts k f' → led (<[i := Followed fid r]> ts) k f') as Hmono
    by (intros k f'; by apply (led_upd ts i (Waiting fid))).
  assert (∀ j f' r', ts !! j = Some (Led f' r') → <[i := Followed fid r]> ts !! j = Some (Led f' r')) as Hdone
    by (intros j f' r' Hj; by eapply lookup_upd_ne).
  assert (∃ j, ts !! j = Some (Led fid r)) as [j0 Hj0].
  { destruct (Hwait i fid Hi) as [(k & j & x & Hj & Hx)|(j & r' & Hj)].
    - destruct (Hlead j x k fid Hj Hx) as (f' & ? & ? & _). congruence.
    - destruct (Hled j fid r' Hj) as (f' & ? & _ & <-). exists j. congruence. }
  split.
  - intros j x k f' [[_ ->]|[_ Hj]]%lookup_upd; [done|by eapply Hlead].
  - intros a b x y k k' f' [[_ ->]|[_ Ha]]%lookup_upd [[_ ->]|[_ Hb]]%lookup_upd; [done..|by eapply Huniq].
  - intros a k f' Hreg. destruct (Htab a k f' Hreg). auto.
  - intros j f' r' [[_ ?]|[_ Hj]]%lookup_upd; [done|by eapply Hled].
  - intros j f' [[_ ?]|[_ Hj]]%lookup_upd; [done|].
    destruct (Hwait j f' Hj) as [[k ?]|(a & r' & Ha)]; [left; eauto|right; eauto].
  - intros j f' r' [[_ Hq]|[_ Hj]]%lookup_upd; [simplify_eq; eauto|].
    destruct (Hfol j f' r' Hj) as [a Ha]. eauto.
Qed.
(** What a step of a call does to the view. *)
Inductive effect (s : list (Flight V) * list (dict K nat)) t :
    list (Flight V) * list (dict K nat) → thread K V → Prop :=
  | eff_same : effect s t s t
  | eff_move t' : plain t → plain t' → leads t' = leads t → effect s t s t'
  | eff_wait key fid : plain t → leads t = None →
      registered s.2 (slot_of (length s.2) key) key fid → effect s t s (Waiting fid)
  | eff_lead t' key fl d : plain t → plain t' → leads t = None → leads t' = Some (key, length s.1) →
      fl_event fl = false → fl_exception fl = None →
      s.2 !! slot_of (length s.2) key = Some d → dict_get d key = None →
      effect s t (s.1 ++ [fl], <[slot_of (length s.2) key := dict_set d key (length s.1)]> s.2) t'
  | eff_finish key fid d end_flight r : leads t = Some (key, fid) →
      s.2 !! slot_of (length s.2) key = Some d →
      (∀ f, fl_exception f = None → fl_event (end_flight f) = true ∧ outcome (end_flight f) = r) →
      effect s t (alter end_flight fid s.1, <[slot_of (length s.2) key := dict_pop d key]> s.2) (Led fid r)
  | eff_follow fid r : t = Waiting fid → finished s.1 fid r → effect s t s (Followed fid r).

Lemma effect_calls s s' ts i t t' :
  ts !! i = Some t → effect s t s' t' → calls_ok s ts → calls_ok s' (<[i := t']> ts).
Proof.
  intros Hi He Hok. destruct s as [F T]. destruct He; cbn [fst snd] in *.
  - by rewrite list_insert_id.
  - by eapply calls_move.
  - eapply (calls_wait _ _ _ t); [done..| |done]. by eapply (co_table _ _ Hok).
  - by eapply calls_lead.
  - by eapply calls_finish.
  - subst t. by apply calls_follow.
Qed.

Section steps.
Context (cfg : CacheConfig) (mode : WriteMode) (busy : Z).
Local Abbreviation inv := (cache_inv cfg mode busy).

Lemma slot_slot_of c key : slot c key = slot_of (length (flights_view c).2) key.
Proof. unfold slot, slot_of, shard_for. simpl. by rewrite length_fmap. Qed.

Lemma thread_step_inv loader t c c' t' :
  inv c → thread_step loader t c = (c', Ok t') → inv c'.
Proof.
  intros Hc Hs. assert (keeps inv (thread_step loader t)) as Hk; [|by specialize (Hk c Hc); rewrite Hs in Hk].
  assert (∀ {A} (m : MC A) (f : A → thread K V), keeps inv m → keeps inv (a ← m; mret (f a))) as Hm.
  { intros A m f Hm. apply keeps_bind; [done|]. intros a. apply keeps_ret. }
  destruct t; cbn [thread_step]; try apply keeps_ret.
  - apply Hm, keeps_attempt, keeps_bind; [apply keeps_require_not_closed|].
    intros _. apply keeps_validate_ttl.
  - apply Hm, keeps_join_flight.
  - apply Hm, keeps_attempt, keeps_put.
  - apply keeps_bind; [apply keeps_get|]. intros c0. apply keeps_bind; [apply keeps_finish_flight|].
    intros _. apply keeps_ret.
  - apply keeps_bind; [apply keeps_get|]. intros c0. apply keeps_bind; [apply keeps_finish_flight|].
    intros _. apply keeps_ret.
  - apply Hm, keeps_attempt. intros x Hx. by rewrite await_state.
Qed.

(** A part of a call that leaves the view alone. *)
Lemma effect_still {A} (m : MC A) (f : result A → thread K V) t c c' t' :
  (∀ s, keeps (λ c, flights_view c = s) m) →
  plain t → (∀ r, plain (f r) ∧ leads (f r) = leads t) →
  (r ← attempt m; mret (f r)) c = (c', Ok t') → effect (flights_view c) t (flights_view c') t'.
Proof.
  intros Hm Hp Hf. specialize (Hm _ c eq_refl). unfold mbind, M_bind, mret, M_ret, attempt.
  destruct (m c) as [c1 r]. simpl in *. intros [= <- <-]. rewrite Hm. destruct (Hf r). by apply eff_move.
Qed.

(** The end of a flight. *)
Lemma effect_finish t key fid end_flight r c c' t' :
  inv c → leads t = Some (key, fid) →
  (∀ f, fl_exception f = None → fl_event (end_flight f) = true ∧ outcome (end_flight f) = r) →
  (c ← get_state; finish_flight (shard_for c key) key fid end_flight ;; mret (Led fid r)) c = (c', Ok t') →
  effect (flights_view c) t (flights_view c') t'.
Proof.
  intros Hc Hl He. destruct (run_finish cfg mode busy c key fid end_flight Hc) as (c1 & d & Hrun & Hd & Hv).
  erewrite bind_ok; [|reflexivity]. erewrite bind_ok by done. intros [= <- <-].
  rewrite Hv, slot_slot_of in *. by apply (eff_finish (flights_view c)).
Qed.

Lemma effect_join key ttl c c' t' :
  inv c → thread_step (Ok py_none) (Joining key ttl) c = (c', Ok t') →
  effect (flights_view c) (Joining key ttl) (flights_view c') t'.
Proof.
  intros Hc. cbn [thread_step]. destruct (run_join cfg mode busy c key Hc) as (c1 & role & Hj & _ & Hr).
  erewrite bind_ok by done. intros [= <- <-]. destruct role as [value|fid|fid]; simpl in Hr.
  - rewrite Hr. by apply eff_move.
  - destruct Hr as (-> & d & Hd & Hnone & ->). rewrite slot_slot_of in *.
    by apply (eff_lead (flights_view c)).
  - destruct Hr as [-> Hreg]. rewrite slot_slot_of in *. by apply (eff_wait _ _ key).
Qed.

Lemma effect_await fid c c' t' loader :
  thread_step loader (Waiting fid) c = (c', Ok t') →
  effect (flights_view c) (Waiting fid) (flights_view c') t'.
Proof.
  cbn [thread_step]. unfold await_flight, mbind, M_bind, mret, M_ret, attempt, get_state, raise.
  destruct (c_flights c !! fid) as [f|] eqn:E; [|intros [= <- <-]; apply eff_same].
  destruct (fl_event f) eqn:Ev; [|intros [= <- <-]; apply eff_same].
  destruct (fl_exception f) as [e|] eqn:Ex; intros [= <- <-]; apply eff_follow; try done;
    exists f; (split; [done|]); (split; [done|]); unfold outcome; by rewrite Ex.
Qed.

Lemma thread_step_effect loader t c c' t' :
  inv c → thread_step loader t c = (c', Ok t') → effect (flights_view c) t (flights_view c') t'.
Proof.
  intros Hc Hs. destruct t as [key ttl|key ttl|key ttl fid|key ttl fid value|key fid e|key fid value|fid|r|fid r|fid r].
  - eapply effect_still, Hs; [|done|by intros []]. intros s.
    apply keeps_bind; [apply still_not_closed|]. intros _. apply still_validate.
  - by eapply effect_join.
  - unfold thread_step, mret, M_ret in Hs. destruct loader; simplify_eq; by apply eff_move.
  - eapply effect_still, Hs; [intros s; apply still_put|done|by intros [|[]]].
  - by eapply effect_finish, Hs.
  - eapply effect_finish, Hs; [done..|]. intros f Hf. split; [done|]. unfold outcome. simpl. by rewrite Hf.
  - by eapply effect_await.
  - unfold thread_step, mret, M_ret in Hs. simplify_eq. apply eff_same.
  - unfold thread_step, mret, M_ret in Hs. simplify_eq. apply eff_same.
  - unfold thread_step, mret, M_ret in Hs. simplify_eq. apply eff_same.
Qed.
End steps.

(** Along the interleavings. *)
Lemma sf_step_inv cfg mode (env : Cache K V P → Cache K V P → Prop) s s' :
  (∀ c c', env c c' → cache_step c c') → sf_step env s s' →
  cache_inv cfg mode 0 s.1 ∧ calls_ok (flights_view s.1) s.2 →
  cache_inv cfg mode 0 s'.1 ∧ calls_ok (flights_view s'.1) s'.2.
Proof.
  intros Henv Hs [Hc Hok]. destruct Hs as [c c' ts He|c ts key ttl|loader c c' ts i t t' Hi Hst]; simpl in *.
  - split; [by apply (cache_step_inv _ _ 0 c c'); auto|]. eapply calls_frame, Hok.
    eapply framed_step; [exact Hc|]. by apply Henv.
  - split; [done|by apply calls_call].
  - split; [by eapply thread_step_inv|]. eapply effect_calls; [done| |done].
    by eapply thread_step_effect.
Qed.

Lemma sf_steps_inv cfg mode (env : Cache K V P → Cache K V P → Prop) s s' :
  (∀ c c', env c c' → cache_step c c') → rtc (sf_step env) s s' →
  cache_inv cfg mode 0 s.1 ∧ calls_ok (flights_view s.1) s.2 →
  cache_inv cfg mode 0 s'.1 ∧ calls_ok (flights_view s'.1) s'.2.
Proof. intros Henv Hs. induction Hs as [|s1 s2 s3 Hst _ IH]; [done|]. intros H1. by eapply IH, sf_step_inv. Qed.
(** *** One leader per key

    While nothing drops a registration, a call that leads a flight has it registered. *)

Definition all_registered (s : list (Flight V) * list (dict K nat)) ts : Prop :=
  ∀ key fid, led ts key fid → registered s.2 (slot_of (length s.2) key) key fid.

Lemma led_upd_inv ts i t' key fid :
  led (<[i := t']> ts) key fid → leads t' = Some (key, fid) ∨
  ∃ j x, j ≠ i ∧ ts !! j = Some x ∧ leads x = Some (key, fid).
Proof. intros (j & x & [[-> ->]|[Hne Hj]]%lookup_upd & Hx); [by left|]. right. eauto. Qed.

Lemma effect_registered s s' ts i t t' :
  ts !! i = Some t → effect s t s' t' → calls_ok s ts → all_registered s ts →
  all_registered s' (<[i := t']> ts).
Proof.
  intros Hi He Hok Hall key fid Hk.
  assert (∀ j x, ts !! j = Some x → leads x = Some (key, fid) →
    registered s.2 (slot_of (length s.2) key) key fid) as Hled
    by (intros j x Hj Hx; apply Hall; by exists j, x).
  apply led_upd_inv in Hk.
  destruct He as [|t' Hp Hp' Hl|k f Hp Hl _|t' k fl d Hp Hp' Hl Hl' _ _ Hd Hnone|k f d end_flight r Hl Hd _|f r _ _];
    cbn [fst snd]; rewrite ?length_insert; try (destruct Hk as [?|(j & x & _ & Hj & Hx)]; by eauto).
  - destruct Hk as [Ht|(j & x & _ & Hj & Hx)]; [|eauto]. apply (Hled i t); congruence.
  - destruct Hk as [Ht|(j & x & Hne & Hj & Hx)].
    + assert (k = key ∧ fid = length s.1) as [-> ->] by (split; congruence).
      exists (dict_set d key (length s.1)). rewrite list_lookup_insert_eq by (by eapply lookup_lt_Some).
      split; [done|]. by rewrite dict_get_set_eq.
    + destruct (Hled j x Hj Hx) as (d' & Hd' & Hf).
      destruct (decide (slot_of (length s.2) k = slot_of (length s.2) key)) as [Hs|Hs].
      * exists (dict_set d k (length s.1)). rewrite Hs, list_lookup_insert_eq by (by eapply lookup_lt_Some).
        split; [done|]. rewrite Hs in Hd. rewrite dict_get_set_ne; congruence.
      * exists d'. by rewrite list_lookup_insert_ne.
  - destruct Hk as [?|(j & x & Hne & Hj & Hx)]; [done|].
    destruct (Hled j x Hj Hx) as (d' & Hd' & Hf).
    assert (k ≠ key) as Hkk.
    { intros ->. apply Hne. eapply (co_unique _ _ Hok j i x t key key); [done..| |exact Hl].
      destruct (Hall key f) as (d1 & Hd1 & Hf1); [by exists i, t|]. congruence. }
    destruct (decide (slot_of (length s.2) k = slot_of (length s.2) key)) as [Hs|Hs].
    + exists (dict_pop d k). rewrite Hs, list_lookup_insert_eq by (by eapply lookup_lt_Some).
      split; [done|]. rewrite Hs in Hd. rewrite dict_get_pop_ne; congruence.
    + exists d'. by rewrite list_lookup_insert_ne.
Qed.

Lemma call_registered s ts key ttl : all_registered s ts → all_registered s (ts ++ [Calling key ttl]).
Proof.
  intros Hall k fid (j & t & [?|[_ Hj]]%lookup_app_Some & Ht); [apply Hall; by exists j, t|].
  apply list_elem_of_lookup_2, list_elem_of_singleton in Hj. by subst.
Qed.

Lemma quiet_steps_registered cfg mode (s s' : Cache K V P * list (thread K V)) :
  rtc (sf_step quiet_step) s s' →
  cache_inv cfg mode 0 s.1 ∧ calls_ok (flights_view s.1) s.2 → all_registered (flights_view s.1) s.2 →
  all_registered (flights_view s'.1) s'.2.
Proof.
  induction 1 as [|s1 s2 s3 Hst _ IH]; [done|]. intros Hok Hall.
  apply IH; [by eapply (sf_step_inv _ _ quiet_step); [by apply step_quiet|..]|].
  destruct Hok as [Hc Hok]. destruct Hst as [c c' ts Hq|c ts key ttl|loader c c' ts i t t' Hi Hst]; simpl in *.
  - by rewrite (quiet_view c c' Hq).
  - by apply call_registered.
  - eapply effect_registered; [done| |done..]. by eapply thread_step_effect.
Qed.
End threads.

(** ** One call on its own *)

Section alone.
Context {K V P : Type} `{EqDecision K} `{KeyHash K} `{PyNone V}
  `{HP : EvictionPolicy K P} `{!PolicyLaws K P}.
Implicit Types (c : Cache K V P) (key : K) (value : V).
Local Abbreviation MC := (M (Cache K V P)).

(** What the caller can tell two caches apart by. *)
Record same_cache c0 c : Prop := {
  sm_view k : view c k = view c0 k;
  sm_clock : c_clock c = c_clock c0;
  sm_config : c_config c = c_config c0;
  sm_mode : c_write_mode c = c_write_mode c0;
  sm_source : c_source c = c_source c0;
  sm_state : c_state c = c_state c0;
}.

#[global] Instance same_cache_preorder : PreOrder same_cache.
Proof.
  split; [by intros c; split|]. intros c1 c2 c3 [] []. split; [intros k|..]; etransitivity; eauto.
Qed.

Section same.
Context (c0 : Cache K V P).

Lemma same_lock {A} i (f : CacheShard K V P → CacheShard K V P * A) :
  (∀ sh x, visible (clock_now (c_clock c0)) (f sh).1 x = visible (clock_now (c_clock c0)) sh x) →
  keeps (same_cache c0) (with_lock i f).
Proof.
  intros Hf c Hc. unfold with_lock, with_lock_src. set (j := shard_slot _ _).
  destruct (c_shards c !! j) as [sh|] eqn:E; [|done]. specialize (Hf sh).
  destruct (f sh) as [sh' a]. cbn [fst snd] in *.
  change (same_cache c0 (set_source (c_source c) (with_shard j sh' c))).
  destruct Hc as [Hv Hclk]. split; try done. intros k. rewrite <- Hv.
  change (view (with_shard j sh' c) k = view c k).
  rewrite view_with_shard by (by eapply lookup_lt_Some). case_decide as Hd; [|done].
  rewrite Hclk, Hf, <- Hclk. symmetry. apply view_slot. by rewrite Hd.
Qed.

Lemma same_finish i key fid end_flight : keeps (same_cache c0) (finish_flight i key fid end_flight).
Proof.
  unfold finish_flight. apply keeps_bind; [|intros _; by apply same_lock].
  intros c []. by split.
Qed.
End same.

Section run.
Context (cfg : CacheConfig) (mode : WriteMode) (busy : Z).
Local Abbreviation inv := (cache_inv cfg mode busy).

Lemma same_join c key :
  inv c → let '(c', r) := join_flight key c in
  same_cache c c' ∧
  match r with
  | Ok (RHit value) => view c key = Some value
  | Ok _ => view c key = None
  | Raise _ => False
  end.
Proof.
  intros Hc. destruct (run_join cfg mode busy c key Hc) as (c1 & role & Hj & _). rewrite Hj. revert Hj.
  destruct (slot_lookup _ _ _ c key Hc) as [sh Hsh]. unfold join_flight.
  erewrite bind_ok; [|reflexivity]. erewrite bind_ok; [|reflexivity].
  erewrite bind_ok; [|by apply (run_lock cfg mode busy)]. rewrite (view_slot c key sh Hsh).
  pose proof (read_value_visible (clock_now (c_clock c)) key true true sh) as Hr.
  destruct (read_value_locked _ key true true sh) as [sh' [found v]]. destruct Hr as [Hv Hk].
  cbn [fst snd]. set (c2 := with_shard _ _ c).
  assert (same_cache c c2) as Hsame by (split; try done; intros k; by apply (view_same_shard c key sh)).
  destruct found.
  { intros [= <- <-]. split; [done|]. destruct (visible _ sh key); destruct Hv; congruence. }
  assert (visible (clock_now (c_clock c)) sh key = None) as -> by (destruct (visible _ sh key); naive_solver).
  assert (returns (same_cache c) (flight ← with_lock (shard_for c key) (λ sh, (sh, dict_get (sh_singleflight sh) key));
    match flight with
    | Some fid => mret (RWaiter fid)
    | None => fid ← new_flight (shard_for c key) key; mret (RLeader fid)
    end) (λ role : flight_role V, match role with RHit _ => False | _ => True end)) as Hrest.
  { eapply returns_bind; [apply keeps_returns; by apply same_lock|]. intros [fid|] _; [by apply returns_ret|].
    eapply returns_bind; [|intros fid _; by apply returns_ret]. apply keeps_returns. unfold new_flight.
    apply keeps_bind; [apply keeps_get|]. intros c3. apply keeps_bind; [intros c4 []; by split|]. intros _.
    apply keeps_bind; [by apply same_lock|]. intros _. apply keeps_ret. }
  intros Hj. destruct (Hrest c2 Hsame) as [Hs Hq]. rewrite Hj in Hs, Hq. split; [done|]. by destruct role.
Qed.
(** What a call of [get_or_compute] that nobody interferes with does. *)
Definition compute_outcome c key (loader : result V) ttl (c' : Cache K V P) (r : result (option V)) : Prop :=
  match view c key with
  | Some value => r = Ok (Some value) ∧ same_cache c c'
  | None =>
      match loader with
      | Raise e => r = Raise e ∧ same_cache c c'
      | Ok value =>
          (r = Ok (Some value) ∧ ∃ c1, same_cache c c1 ∧ put_stored c1 c' key value ttl) ∨
          (∃ e, r = Raise (OSError e) ∧ c_write_mode c = WRITE_THROUGH ∧ ∀ k, view c' k = view c k)
      end
  end.

Lemma put_stored_same c c1 c2 key value ttl :
  put_stored c c1 key value ttl → same_cache c1 c2 → put_stored c c2 key value ttl.
Proof.
  intros (sh & entry & ev & Hsh & Hv & Hev & Hval & Hl & Hd) Hs. exists sh, entry, ev.
  split_conj; try done; [|by rewrite (sm_source _ _ Hs)]. intros k. by rewrite (sm_view _ _ Hs).
Qed.

(** The end of a flight, as it continues a call. *)
Lemma run_finish_then {A} c key fid end_flight (m : MC A) :
  inv c → ∃ c', same_cache c c' ∧ (finish_flight (shard_for c key) key fid end_flight ;; m) c = m c'.
Proof.
  intros Hc. destruct (run_finish cfg mode busy c key fid end_flight Hc) as (c' & _ & Hrun & _).
  exists c'. split; [|by erewrite bind_ok by done].
  pose proof (same_finish c (shard_for c key) key fid end_flight c) as Hs. rewrite Hrun in Hs.
  by apply Hs.
Qed.

Lemma run_lead_outcome c key loader ttl fid :
  inv c → is_open c → (∀ t, ttl = TTL_SECONDS t → fle t fzero = false) → view c key = None →
  let '(c', r) := (value ← lead_flight key (lift loader) ttl fid; mret (Some value)) c in
  compute_outcome c key loader ttl c' r.
Proof.
  intros Hc Ho Httl Hv. unfold compute_outcome, lead_flight. rewrite Hv.
  unfold mbind at 1, M_bind at 1. erewrite bind_ok; [|reflexivity]. erewrite bind_ok; [|reflexivity].
  destruct loader as [value|e].
  - pose proof (run_put _ _ _ c key value ttl Hc Ho) as Hp.
    pose proof (keeps_put _ _ _ key value ttl c Hc) as Hc1.
    destruct (cache_put key value ttl c) as [c1 w] eqn:E. cbn [fst] in Hc1.
    erewrite bind_ok; [|by apply attempt_eq].
    assert (shard_for c key = shard_for c1 key) as ->
      by (unfold shard_for; by rewrite (ci_length _ _ _ _ Hc), (ci_length _ _ _ _ Hc1)).
    assert (w = Ok tt ∨ w = Raise QueueBackpressureError ∨ ∃ msg, w = Raise (OSError msg)) as Hw.
    { destruct w as [[]|[]]; try done; eauto. destruct Hp as ((t & -> & Ht) & _).
      by rewrite (Httl t eq_refl) in Ht. }
    destruct Hw as [-> |[-> |[msg ->]]]; unfold fail_flight_locked.
    + destruct (run_finish_then (A:=V) c1 key fid (λ f, mkFlight true value (fl_exception f)) (mret value) Hc1)
        as (c2 & Hs & ->). left. split; [done|]. exists c. split; [done|]. by eapply put_stored_same.
    + destruct (run_finish_then (A:=V) c1 key fid (λ f, mkFlight true value (fl_exception f)) (mret value) Hc1)
        as (c2 & Hs & ->). left. split; [done|]. exists c. split; [done|].
      eapply put_stored_same; [|done]. by destruct Hp.
    + destruct (run_finish_then (A:=V) c1 key fid (λ f, mkFlight true (fl_result f) (Some (OSError msg)))
        (raise (OSError msg)) Hc1) as (c2 & Hs & ->). right. exists msg. destruct Hp as (Hm & Hview & _).
      split; [done|]. split; [done|]. intros k. by rewrite (sm_view _ _ Hs).
  - unfold fail_flight_locked.
    destruct (run_finish_then (A:=V) c key fid (λ f, mkFlight true (fl_result f) (Some e)) (raise e) Hc)
      as (c1 & Hs & ->). by split.
Qed.

Lemma run_get_or_compute c key loader ttl others :
  inv c → is_open c → (∀ t, ttl = TTL_SECONDS t → fle t fzero = false) →
  (∀ i fid, ¬ registered (sh_singleflight <$> c_shards c) i key fid) →
  let '(c', r) := get_or_compute key (lift loader) ttl others c in
  compute_outcome c key loader ttl c' r.
Proof.
  intros Hc Ho Httl Hreg. unfold get_or_compute. erewrite bind_ok by by apply run_open.
  destruct (run_validate ttl c) as [Ev|(t & Et & Ht & _)]; [|by rewrite (Httl t Et) in Ht].
  rewrite (bind_ok _ _ _ _ _ Ev).
  destruct (run_join cfg mode busy c key Hc) as (c1 & role & Hj & Hc1 & Hr).
  pose proof (same_join c key Hc) as Hs. rewrite Hj in Hs. destruct Hs as [Hs Hv].
  rewrite (bind_ok _ _ _ _ _ Hj). destruct role as [value|fid|fid].
  - unfold compute_outcome. rewrite Hv. by split.
  - assert (is_open c1) as Ho1 by (unfold is_open; by rewrite (sm_state _ _ Hs)).
    pose proof (run_lead_outcome c1 key loader ttl fid Hc1 Ho1 Httl) as Hlead.
    rewrite (sm_view _ _ Hs) in Hlead. specialize (Hlead Hv).
    destruct ((_ : MC _) c1) as [c' r]. unfold compute_outcome in *. rewrite (sm_view _ _ Hs), Hv in Hlead.
    rewrite Hv. destruct loader as [value|e].
    + destruct Hlead as [[-> (c2 & Hs2 & Hput)]|(e & -> & Hm & Hview)].
      * left. split; [done|]. exists c2. split; [by etransitivity|done].
      * right. exists e. split; [done|]. split; [by rewrite <- (sm_mode _ _ Hs)|].
        intros k. by rewrite Hview, (sm_view _ _ Hs).
    + destruct Hlead as [-> Hlead]. split; [done|by etransitivity].
  - destruct Hr as [_ Hr]. by apply Hreg in Hr.
Qed.
(** *** The phases of a thread are the call *)

Definition thread_result (t : thread K V) : option (result V) :=
  match t with Returned r | Led _ r | Followed _ r => Some r | _ => None end.

(** The next state of a thread and the cache. *)
Definition thread_next (loader : result V) (s : Cache K V P * thread K V) : Cache K V P * thread K V :=
  match thread_step loader s.2 s.1 with (c', Ok t') => (c', t') | (c', Raise _) => (c', s.2) end.

(** The outcome of a call as its thread ends it. *)
Definition call_result (r : result (option V)) : option (result V) :=
  match r with Ok (Some value) => Some (Ok value) | Ok None => None | Raise e => Some (Raise e) end.

Lemma thread_next_done loader n c t r :
  thread_result t = Some r → Nat.iter n (thread_next loader) (c, t) = (c, t).
Proof. intros Ht. induction n as [|n IH]; [done|]. simpl. rewrite IH. by destruct t. Qed.

Lemma iter_next {A} n (f : A → A) x : Nat.iter (S n) f x = Nat.iter n f (f x).
Proof. apply Nat.iter_succ_r. Qed.

(** A leader's phases, run without interruption. *)
Lemma lead_phases c key loader ttl fid n :
  inv c → let '(c', r) := (value ← lead_flight key (lift loader) ttl fid; mret (Some value)) c in
  ∃ t, Nat.iter (3 + n) (thread_next loader) (c, Loading key ttl fid) = (c', t) ∧
       thread_result t = call_result r.
Proof.
  intros Hc. unfold lead_flight. unfold mbind at 1, M_bind at 1.
  erewrite bind_ok; [|reflexivity]. erewrite bind_ok; [|reflexivity].
  change (3 + n)%nat with (S (S (S n))). rewrite iter_next.
  assert (∀ c1 end_flight (r : result V) n' t,
    inv c1 → thread_step loader t c1
      = (finish_flight (shard_for c1 key) key fid end_flight ;; mret (Led fid r)) c1 →
    ∃ c2, finish_flight (shard_for c1 key) key fid end_flight c1 = (c2, Ok tt) ∧
      Nat.iter (S n') (thread_next loader) (c1, t) = (c2, Led fid r)) as Hend.
  { intros c1 end_flight r n' t Hc1 Ht.
    destruct (run_finish cfg mode busy c1 key fid end_flight Hc1) as (c2 & _ & Hrun & _).
    exists c2. split; [done|]. rewrite iter_next. unfold thread_next at 2. cbn [fst snd].
    rewrite Ht. erewrite bind_ok by done. by eapply thread_next_done. }
  destruct loader as [value|e]; unfold thread_next at 2; cbn [fst snd thread_step mret M_ret].
  - pose proof (keeps_put _ _ _ key value ttl c Hc) as Hc1. rewrite iter_next.
    unfold thread_next at 2. cbn [fst snd thread_step].
    destruct (cache_put key value ttl c) as [c1 w] eqn:E. cbn [fst] in Hc1.
    erewrite !bind_ok by by apply attempt_eq. cbn [mret M_ret].
    assert (shard_for c key = shard_for c1 key) as ->
      by (unfold shard_for; by rewrite (ci_length _ _ _ _ Hc), (ci_length _ _ _ _ Hc1)).
    destruct w as [u|[]]; unfold fail_flight_locked;
      (edestruct (Hend c1) as (c2 & Hrun & ->); [done|reflexivity|]);
      erewrite bind_ok by done; by eexists.
  - edestruct (Hend c) as (c2 & Hrun & ->); [done|reflexivity|]. unfold fail_flight_locked.
    erewrite bind_ok by done. by eexists.
Qed.
Lemma wait_phases loader fid c n :
  let '(c', r) := await_flight fid c in
  ∃ t, Nat.iter (S n) (thread_next loader) (c, Waiting fid) = (c', t) ∧ thread_result t = call_result r.
Proof.
  pose proof (await_state fid c) as Hst. destruct (await_flight fid c) as [c' r] eqn:E. cbn [fst] in Hst. subst c'.
  assert (∀ t', thread_next loader (c, Waiting fid) = (c, t') →
    ∃ t, Nat.iter (S n) (thread_next loader) (c, Waiting fid) = (c, t) ∧
      (t = t' ∨ t' = Waiting fid ∧ thread_result t = None)) as Hn.
  { intros t' Ht. destruct (thread_result t') as [r'|] eqn:Er.
    - exists t'. split; [|by left]. rewrite iter_next, Ht. by eapply thread_next_done.
    - assert (t' = Waiting fid) as ->.
      { unfold thread_next in Ht. cbn [fst snd thread_step] in Ht.
        erewrite bind_ok in Ht by by apply attempt_eq. simplify_eq/=. by destruct r as [[]|]. }
      exists (Waiting fid). split; [|by left]. clear E Er. induction n as [|n IH]; [done|].
      by rewrite iter_next, Ht. }
  unfold thread_next in Hn at 1. cbn [fst snd thread_step] in Hn.
  erewrite bind_ok in Hn by by apply attempt_eq. cbn [mret M_ret] in Hn.
  edestruct Hn as (t & -> & Ht); [reflexivity|]. exists t. split; [done|].
  destruct r as [[v|]|e], Ht as [-> |[? Hnone]]; done.
Qed.

Lemma call_phases c key loader ttl :
  inv c → let '(c', r) := get_or_compute key (lift loader) ttl (mret tt) c in
  ∃ t, Nat.iter 5 (thread_next loader) (c, Calling key ttl) = (c', t) ∧ thread_result t = call_result r.
Proof.
  intros Hc. unfold get_or_compute. rewrite iter_next. unfold thread_next at 2. cbn [fst snd thread_step].
  pose proof (keeps_require_not_closed cfg mode busy c Hc) as Hc1.
  destruct (require_not_closed c) as [c1 [[]|e]] eqn:E1; cbn [fst] in Hc1; last first.
  { rewrite (bind_raise _ _ _ _ _ E1). erewrite (bind_ok (attempt _)) by (by apply attempt_eq, bind_raise).
    eexists. split; [by eapply (thread_next_done _ 4)|done]. }
  rewrite (bind_ok _ _ _ _ _ E1). pose proof (keeps_validate_ttl cfg mode busy ttl c1 Hc1) as Hc2.
  destruct (validate_explicit_ttl ttl c1) as [c2 [[]|e]] eqn:E2; cbn [fst] in Hc2; last first.
  { rewrite (bind_raise _ _ _ _ _ E2). erewrite (bind_ok (attempt _)) by (apply attempt_eq; by erewrite bind_ok).
    eexists. split; [by eapply (thread_next_done _ 4)|done]. }
  rewrite (bind_ok _ _ _ _ _ E2). erewrite (bind_ok (attempt _)) by (apply attempt_eq; by erewrite bind_ok).
  cbn [mret M_ret]. destruct (run_join cfg mode busy c2 key Hc2) as (c3 & role & Hj & Hc3 & _).
  rewrite (bind_ok _ _ _ _ _ Hj), iter_next. unfold thread_next at 2. cbn [fst snd thread_step].
  rewrite (bind_ok _ _ _ _ _ Hj). cbn [mret M_ret]. destruct role as [value|fid|fid].
  - eexists. split; [by eapply (thread_next_done _ 3)|done].
  - by apply (lead_phases c3 key loader ttl fid 0).
  - erewrite bind_ok by done. by apply (wait_phases loader fid c3 2).
Qed.
End run.
End alone.

(** ** Interleavings of a program *)

Section reach.
Context {K V : Type} `{EqDecision K} `{KeyHash K} `{PyNone V}.
Implicit Types (c : Cache K V (AnyPolicy K)) (ts : list (thread K V)).

(** What calls of [get_or_compute] and other steps in [env] can lead to. *)
Definition sf_reachable (env : Cache K V (AnyPolicy K) → Cache K V (AnyPolicy K) → Prop) c ts : Prop :=
  ∃ c0, reachable c0 ∧ rtc (sf_step env) (c0, []) (c, ts).

(** Between the calls of a program no flight is registered. *)
Lemma reachable_unregistered c i k fid :
  reachable c → ¬ registered (flights_view c).2 i k fid.
Proof.
  intros (config & args & source & clock & c0 & Hv & Hi & Hs).
  pose proof (cache_init_inv _ _ _ _ _ Hv Hi) as Hc0.
  assert (view_frame (flights_view c0) (flights_view c)) as [_ _ Hf].
  { clear Hi. revert Hc0. generalize (c_config c0) as cfg, (c_write_mode c0) as mode. intros cfg mode.
    induction Hs as [|c1 c2 c3 Hst _ IH]; intros Hc; [done|].
    etransitivity; [by eapply framed_step|]. apply IH. by apply (cache_step_inv _ _ 0 c1). }
  intros Hr. apply Hf in Hr as (d & Hd & Hk). simpl in Hd.
  apply cache_init_eq in Hi as (_ & _ & Hsh & _). apply init_shards_spec in Hsh as [_ Hsh].
  apply list_lookup_fmap_Some in Hd as (sh & -> & Hx).
  destruct (Hsh i sh Hx) as (cap & policy & _ & _ & ->). done.
Qed.

Lemma reachable_calls c :
  reachable c → calls_ok (flights_view c) [] ∧ all_registered (flights_view c) [].
Proof.
  intros Hr. split; [split|]; try (intros; by rewrite lookup_nil in * ).
  - intros i k fid Hreg. by apply reachable_unregistered in Hreg.
  - intros key fid (j & t & Hj & _). by rewrite lookup_nil in Hj.
Qed.

Lemma sf_reachable_inv env c ts :
  (∀ c c', env c c' → cache_step c c') → sf_reachable env c ts →
  cache_inv (c_config c) (c_write_mode c) 0 c ∧ calls_ok (flights_view c) ts.
Proof.
  intros Henv (c0 & Hr & Hs). pose proof (reachable_inv c0 Hr) as Hc0.
  destruct (sf_steps_inv _ _ env _ _ Henv Hs (conj Hc0 (proj1 (reachable_calls c0 Hr)))) as [Hc Hok].
  simpl in *. by rewrite (ci_config _ _ _ _ Hc), (ci_mode _ _ _ _ Hc).
Qed.

(** A call always goes on. *)
Lemma thread_step_total loader t c cfg mode :
  cache_inv cfg mode 0 c → ∃ c' t', thread_step loader t c = (c', Ok t').
Proof.
  intros Hc.
  assert (∀ {A} (m : M (Cache K V (AnyPolicy K)) A) (f : result A → thread K V),
    ∃ c' t', (r ← attempt m; mret (f r)) c = (c', Ok t')) as Hatt.
  { intros A m f. destruct (m c) as [c' r] eqn:E. eexists _, _. by erewrite bind_ok by by apply attempt_eq. }
  destruct t as [key ttl|key ttl|key ttl fid|key ttl fid value|key fid e|key fid value|fid|r|fid r|fid r];
    cbn [thread_step]; try apply Hatt; try by eexists _, _.
  - destruct (run_join _ _ _ c key Hc) as (c' & role & Hj & _). eexists _, _. by erewrite bind_ok.
  - destruct (run_finish cfg mode 0 c key fid (λ f, mkFlight true (fl_result f) (Some e)) Hc)
      as (c' & _ & Hrun & _). eexists _, _. erewrite bind_ok by done. unfold fail_flight_locked. by erewrite bind_ok.
  - destruct (run_finish cfg mode 0 c key fid (λ f, mkFlight true value (fl_exception f)) Hc)
      as (c' & _ & Hrun & _). eexists _, _. erewrite bind_ok by done. by erewrite bind_ok.
Qed.

(** Executable versions of the steps. *)
Definition sf_new key ttl (s : Cache K V (AnyPolicy K) * list (thread K V)) := (s.1, s.2 ++ [Calling key ttl]).
Definition sf_act (loader : result V) (i : nat) (s : Cache K V (AnyPolicy K) * list (thread K V)) :=
  match s.2 !! i with
  | Some t => match thread_step loader t s.1 with (c', Ok t') => (c', <[i := t']> s.2) | _ => s end
  | None => s
  end.

Lemma sf_new_steps env key ttl s s' :
  rtc (sf_step env) s s' → rtc (sf_step env) s (sf_new key ttl s').
Proof. intros Hs. destruct s'. eapply rtc_r; [done|]. apply sf_call. Qed.

Lemma sf_act_steps env loader i s s' :
  rtc (sf_step env) s s' → rtc (sf_step env) s (sf_act loader i s').
Proof.
  intros Hs. destruct s' as [c ts]. unfold sf_act. cbn [fst snd].
  destruct (ts !! i) as [t|] eqn:Ht; [|done].
  destruct (thread_step loader t c) as [c' [t'|e]] eqn:Hp; [|done].
  eapply rtc_r; [done|]. by econstructor.
Qed.
End reach.

(** ** Concrete interleavings *)

(** Two calls for a missing key: the first leads, the second waits. *)
Definition sf_start : Cache Z Z (AnyPolicy Z) * list (thread Z Z) := (demo_three "lru" "cache-only", []).
Definition sf_two : Cache Z Z (AnyPolicy Z) * list (thread Z Z) :=
  Nat.iter 2 (sf_act (Ok 90) 1) (Nat.iter 2 (sf_act (Ok 90) 0)
    (sf_new 9 TTL_NONE (sf_new 9 TTL_NONE sf_start))).

Lemma sf_two_steps env : rtc (sf_step env) sf_start sf_two.
Proof.
  unfold sf_two. cbn [Nat.iter nat_rect]. do 4 apply sf_act_steps. do 2 apply sf_new_steps. apply rtc_refl.
Qed.

Lemma sf_start_runs env s : rtc (sf_step env) sf_start s → sf_reachable env s.1 s.2.
Proof.
  intros Hs. exists (demo_three "lru" "cache-only"). split; [by apply demo_three_reachable|].
  destruct s as [c ts]. exact Hs.
Qed.

(** A call for a key leads, the key is deleted, a second call leads, and the first one fails;
    then a third call is made. *)
Definition sf_deleted : Cache Z Z (AnyPolicy Z) * list (thread Z Z) :=
  let s := Nat.iter 2 (sf_act (Ok 90) 0) (sf_new 9 TTL_NONE sf_start) in
  ((cache_delete 9 s.1).1, s.2).
Definition sf_overlap : Cache Z Z (AnyPolicy Z) * list (thread Z Z) :=
  Nat.iter 2 (sf_act (Ok 92) 2) (sf_new 9 TTL_NONE
    (Nat.iter 2 (sf_act (Raise (RuntimeError "loader")) 0)
      (Nat.iter 2 (sf_act (Ok 91) 1) (sf_new 9 TTL_NONE sf_deleted)))).

Lemma sf_overlap_steps : rtc (sf_step cache_step) sf_start sf_overlap.
Proof.
  unfold sf_overlap, sf_deleted. cbn [Nat.iter nat_rect].
  do 2 apply sf_act_steps. apply sf_new_steps. do 4 apply sf_act_steps. apply sf_new_steps.
  eapply rtc_r; [|apply sf_env, step_delete]. rewrite <- surjective_pairing.
  do 2 apply sf_act_steps. apply sf_new_steps. apply rtc_refl.
Qed.

(** ** Properties *)

(** C31: [get_or_compute] without interference: on an open reachable cache, with a valid
    lifetime (none, or a positive number of seconds), a visible value is returned without regard to the loader and nothing the caller
    can see changes; otherwise a failure of the loader is raised and nothing changes, and a
    loaded value is returned and stored as [put] stores it (also when only its flush could not
    be queued), unless writing it through to the source failed in write-through mode, when that [OSError] is raised and nothing
    is stored.  Afterwards no flight is left registered. *)
Theorem get_or_compute_outcomes {K V} `{EqDecision K} `{KeyHash K} `{PyNone V}
    (c : Cache K V (AnyPolicy K)) (key : K) (loader : result V) (ttl : ttl_arg) :
  reachable c → is_open c → (∀ t, ttl = TTL_SECONDS t → fle t fzero = false) →
  let '(c', r) := get_or_compute key (lift loader) ttl (mret tt) c in
  compute_outcome c key loader ttl c' r ∧ ∀ i k fid, ¬ registered (flights_view c').2 i k fid.
Proof.
  intros Hr Ho Ht. pose proof (reachable_inv c Hr) as Hc.
  pose proof (run_get_or_compute _ _ _ c key loader ttl (mret tt) Hc Ho Ht
    (λ i fid, reachable_unregistered c i key fid Hr)) as Hout.
  assert (reachable (get_or_compute key (lift loader) ttl (mret tt) c).1) as Hr'
    by (eapply reachable_step; [exact Hr|apply step_get_or_compute]).
  destruct (get_or_compute key (lift loader) ttl (mret tt) c) as [c' r]. split; [done|].
  intros i k fid. by apply reachable_unregistered.
Qed.

Lemma get_or_compute_outcomes_witness :
  view (demo_three "lru" "cache-only") 9 = None ∧
  let '(c', r) := get_or_compute 9 (lift (Ok 90)) TTL_NONE (mret tt) (demo_three "lru" "cache-only") in
  compute_outcome (demo_three "lru" "cache-only") 9 (Ok 90) TTL_NONE c' r ∧
  ∀ i k fid, ¬ registered (flights_view c').2 i k fid.
Proof.
  split; [vm_compute; reflexivity|].
  assert (reachable (demo_three "lru" "cache-only")) as Hr by (apply demo_three_reachable; reflexivity).
  assert (is_open (demo_three "lru" "cache-only")) as Ho by (left; vm_compute; reflexivity).
  apply (get_or_compute_outcomes (demo_three "lru" "cache-only") 9 (Ok 90) TTL_NONE Hr Ho).
  intros t Ht. discriminate Ht.
Defined.

(** The phases are the call: on a reachable cache a thread that runs its five phases
    without interruption leaves the cache [get_or_compute] leaves and ends with its result. *)
Theorem get_or_compute_is_its_phases {K V} `{EqDecision K} `{KeyHash K} `{PyNone V}
    (c : Cache K V (AnyPolicy K)) (key : K) (loader : result V) (ttl : ttl_arg) :
  reachable c →
  let '(c', r) := get_or_compute key (lift loader) ttl (mret tt) c in
  ∃ t, Nat.iter 5 (thread_next loader) (c, Calling key ttl) = (c', t) ∧ thread_result t = call_result r.
Proof. intros Hr. by eapply call_phases, reachable_inv. Qed.

Lemma get_or_compute_is_its_phases_witness :
  let '(c', r) := get_or_compute 9 (lift (Ok 90)) TTL_NONE (mret tt) (demo_three "lru" "cache-only") in
  ∃ t, Nat.iter 5 (thread_next (Ok 90)) (demo_three "lru" "cache-only", Calling 9 TTL_NONE) = (c', t) ∧
       thread_result t = call_result r.
Proof.
  assert (reachable (demo_three "lru" "cache-only")) as Hr by (apply demo_three_reachable; reflexivity).
  exact (get_or_compute_is_its_phases (demo_three "lru" "cache-only") 9 (Ok 90) TTL_NONE Hr).
Defined.

(** C7: waiters share their leader's outcome and none is lost: however calls of
    [get_or_compute] are interleaved with each other and with any other calls, deletions and
    a shutdown included, every call can take its next step, a call that waited returns
    exactly what the leader of its flight returned or raised, and a call that waits either
    has a leader still at work or is woken by its next step with the leader's outcome. *)
Theorem waiters_share_the_leaders_outcome {K V} `{EqDecision K} `{KeyHash K} `{PyNone V}
    (c : Cache K V (AnyPolicy K)) (ts : list (thread K V)) :
  sf_reachable cache_step c ts →
  (∀ t loader, t ∈ ts → ∃ c' t', thread_step loader t c = (c', Ok t')) ∧
  (∀ j fid r, ts !! j = Some (Followed fid r) → ∃ i, ts !! i = Some (Led fid r)) ∧
  (∀ i j fid r r', ts !! i = Some (Led fid r) → ts !! j = Some (Led fid r') → r = r') ∧
  (∀ j fid loader, ts !! j = Some (Waiting fid) →
     (∃ key, led ts key fid) ∨
     (∃ i r, ts !! i = Some (Led fid r) ∧
             thread_step loader (Waiting fid) c = (c, Ok (Followed fid r)))).
Proof.
  intros Hr. destruct (sf_reachable_inv cache_step c ts (λ _ _ Hs, Hs) Hr) as [Hc Hok]. split_conj.
  - intros t loader _. by eapply thread_step_total.
  - apply (co_followed _ _ Hok).
  - intros i j fid r r' Hi Hj. destruct (co_led _ _ Hok i fid r Hi) as (f & Hf & _ & <-).
    destruct (co_led _ _ Hok j fid r' Hj) as (f' & Hf' & _ & <-). congruence.
  - intros j fid loader Hj. destruct (co_wait _ _ Hok j fid Hj) as [?|(i & r & Hi)]; [by left|right].
    exists i, r. split; [done|]. destruct (co_led _ _ Hok i fid r Hi) as (f & Hf & Hev & Ho).
    cbn [thread_step]. unfold await_flight, mbind, M_bind, mret, M_ret, attempt, get_state, raise.
    simpl in Hf. rewrite Hf, Hev. unfold outcome in Ho. by destruct (fl_exception f); subst r.
Qed.

Lemma waiters_share_the_leaders_outcome_witness :
  sf_two.2 = [Loading 9 TTL_NONE 0; Waiting 0] ∧
  ((∃ key, led sf_two.2 key 0) ∨
   (∃ i r, sf_two.2 !! i = Some (Led 0 r) ∧
           thread_step (Ok 90) (Waiting 0) sf_two.1 = (sf_two.1, Ok (Followed 0 r)))).
Proof.
  pose proof (sf_start_runs cache_step sf_two (sf_two_steps cache_step)) as Hr.
  assert (sf_two.2 !! 1%nat = Some (Waiting 0)) as Hj by (vm_compute; reflexivity).
  split; [vm_compute; reflexivity|].
  exact (proj2 (proj2 (proj2 (waiters_share_the_leaders_outcome sf_two.1 sf_two.2 Hr))) 1%nat 0%nat (Ok 90) Hj).
Defined.

(** C6: concurrent misses share one load: as long as no [delete] or [clear] interferes, in
    every interleaving of calls of [get_or_compute] with each other and with any other calls,
    at most one call at a time is the leader for a key. *)
Theorem one_leader_per_key {K V} `{EqDecision K} `{KeyHash K} `{PyNone V}
    (c : Cache K V (AnyPolicy K)) (ts : list (thread K V)) (i j : nat) (t t' : thread K V)
    (key : K) (fid fid' : nat) :
  sf_reachable quiet_step c ts →
  ts !! i = Some t → ts !! j = Some t' →
  leads t = Some (key, fid) → leads t' = Some (key, fid') → i = j.
Proof.
  intros Hr Hi Hj Ht Ht'.
  destruct (sf_reachable_inv quiet_step c ts (λ c c' Hq, step_quiet c c' Hq) Hr) as [_ Hok].
  destruct Hr as (c0 & Hr & Hs). destruct (reachable_calls c0 Hr) as [Hok0 Hall0].
  pose proof (quiet_steps_registered _ _ _ _ Hs (conj (reachable_inv c0 Hr) Hok0) Hall0) as Hall.
  simpl in Hall. destruct (Hall key fid) as (d & Hd & Hf); [by exists i, t|].
  destruct (Hall key fid') as (d' & Hd' & Hf'); [by exists j, t'|].
  assert (fid' = fid) as -> by congruence. by eapply (co_unique _ _ Hok i j t t').
Qed.

Lemma one_leader_per_key_witness :
  sf_two.2 !! 0%nat = Some (Loading 9 TTL_NONE 0) ∧
  ∀ j t', sf_two.2 !! j = Some t' → leads t' = Some (9, 0%nat) → 0%nat = j.
Proof.
  pose proof (sf_start_runs quiet_step sf_two (sf_two_steps quiet_step)) as Hr.
  assert (sf_two.2 !! 0%nat = Some (Loading 9 TTL_NONE 0)) as Hi by (vm_compute; reflexivity).
  split; [exact Hi|]. intros j t' Hj Ht'.
  exact (one_leader_per_key sf_two.1 sf_two.2 0 j (Loading 9 TTL_NONE 0) t' 9 0 0 Hr Hi Hj eq_refl Ht').
Defined.

(** C39: a [delete] during a load breaks the sharing for good: it drops the registration, so
    a second call starts a load of its own; and when the first load then ends, its leader
    drops whatever registration it finds, the second call's, so that a third call starts yet
    another load while the second one is still under way. *)
Theorem delete_lets_leaders_overlap :
  sf_reachable cache_step sf_overlap.1 sf_overlap.2 ∧
  sf_overlap.2 = [Led 0 (Raise (RuntimeError "loader")); Loading 9 TTL_NONE 1; Loading 9 TTL_NONE 2].
Proof.
  split; [exact (sf_start_runs cache_step sf_overlap sf_overlap_steps)|]. vm_compute. reflexivity.
Qed.
