(* ===== verification/LoadOnce.v ===== *)
(** Single flight from end to end: threads that call [get_or_compute] for one key under any
    schedule load it once, and every call ends.  The threads are those of [SingleFlight], moved by the schedules of
    [Teaching], with a counter of the calls of the loader. *)

From stdpp Require Import base tactics numbers option strings sets list relations.
From S2P Require Import Prelude PyDict PyFloat PyMonad Teaching Config Entry Policies PolicyLaws.
From S2P Require Import Storage Jobs Shard ShardInv ShardSpec Cache CacheInv CacheSafety Reach.
From S2P Require Import CacheSpec CacheOnly Demo CacheTheorems Flights SingleFlight.
Local Open Scope string_scope.
Local Open Scope list_scope.
Local Open Scope Z_scope.

Section once.
Context {K V : Type} `{EqDecision K} `{KeyHash K} `{PyNone V}.
Local Abbreviation cache := (Cache K V (AnyPolicy K)).
Implicit Types (c : cache) (t : thread K V) (ts : list (thread K V)).

(** One step of a thread, counting the calls of the loader. *)
Definition counted_step (loader : result V) t (s : cache * Z) : (cache * Z) * thread K V :=
  let '(c, calls) := s in
  let calls := match t with Loading _ _ _ => calls + 1 | _ => calls end in
  match thread_step loader t c with
  | (c', Ok t') => ((c', calls), t')
  | (c', Raise e) => ((c', calls), Returned (Raise e))
  end.

(** ** Every call ends *)

(** How far a call is from its end or from waiting. *)
Definition rank t : nat :=
  match t with
  | Calling _ _ => 5
  | Joining _ _ => 4
  | Loading _ _ _ => 3
  | Storing _ _ _ _ => 2
  | Publishing _ _ _ | Failing _ _ _ => 1
  | Waiting _ | Returned _ | Led _ _ | Followed _ _ => 0
  end%nat.

Lemma step_rank loader t c c' t' : thread_step loader t c = (c', Ok t') → (rank t' ≤ pred (rank t))%nat.
Proof.
  destruct t as [k l|k l|k l fid|k l fid v|k fid e|k fid v|fid|r|fid r|fid r]; cbn [thread_step];
    rewrite ?run_bind; unfold attempt, get_state, mret, M_ret; intros Hs.
  - destruct ((require_not_closed ;; validate_explicit_ttl l) c) as [? []]; simplify_eq; simpl; lia.
  - destruct (join_flight k c) as [? [[]|]]; simplify_eq; simpl; lia.
  - destruct loader; simplify_eq; simpl; lia.
  - destruct (cache_put k v l c) as [? [|[]]]; simplify_eq; simpl; lia.
  - unfold fail_flight_locked in Hs. rewrite run_bind in Hs. destruct (finish_flight _ _ _ _ c) as [? []]; by simplify_eq.
  - rewrite run_bind in Hs. destruct (finish_flight _ _ _ _ c) as [? []]; by simplify_eq.
  - destruct (await_flight fid c) as [? [[]|]]; by simplify_eq.
  - by simplify_eq.
  - by simplify_eq.
  - by simplify_eq.
Qed.

Definition calls_inv cfg mode (s : (cache * Z) * list (thread K V)) : Prop :=
  cache_inv cfg mode 0 s.1.1 ∧ calls_ok (flights_view s.1.1) s.2.

(** A step of the [i]-th call. *)
Lemma advance_call cfg mode loader s i :
  calls_inv cfg mode s →
  let s' := advance_thread (counted_step loader) s i in
  calls_inv cfg mode s' ∧ length s'.2 = length s.2 ∧
  ∀ j t, s.2 !! j = Some t →
    ∃ t', s'.2 !! j = Some t' ∧ (j ≠ i → t' = t) ∧ (j = i → ∃ c', thread_step loader t s.1.1 = (c', Ok t')).
Proof.
  destruct s as [[c calls] ts]. intros [Hc Hok]. unfold advance_thread. cbn [fst snd] in *.
  destruct (ts !! i) as [t|] eqn:Hi; cbn [fst snd].
  - destruct (thread_step_total loader t c _ _ Hc) as (c' & t' & Hs). cbn [counted_step]. rewrite Hs.
    cbn [fst snd]. split_conj; [|by rewrite length_insert|].
    + split; [by eapply thread_step_inv|]. eapply effect_calls; [done| |done]. by eapply thread_step_effect.
    + intros j x Hj. destruct (decide (j = i)) as [->|Hne].
      * exists t'. rewrite list_lookup_insert_eq by by eapply lookup_lt_Some. split; [done|].
        split; [done|]. intros _. exists c'. congruence.
      * exists x. by rewrite list_lookup_insert_ne.
  - split_conj; [done|done|]. intros j x Hj. exists x. split_conj; [done|done|]. intros ->. congruence.
Qed.

(** A schedule brings every call it contains nearer to its end. *)
Lemma run_rank cfg mode loader schedule s :
  calls_inv cfg mode s →
  let s' := run_schedule (counted_step loader) schedule s in
  calls_inv cfg mode s' ∧ length s'.2 = length s.2 ∧
  ∀ j t, s.2 !! j = Some t →
    ∃ t', s'.2 !! j = Some t' ∧ (rank t' ≤ rank t)%nat ∧ (j ∈ schedule → (rank t' ≤ pred (rank t))%nat).
Proof.
  revert s. induction schedule as [|i l IH]; intros s Hs; cbn [run_schedule foldl].
  - split_conj; [done..|]. intros j t Hj. exists t. split_conj; [done..|]. by intros ?%not_elem_of_nil.
  - destruct (advance_call cfg mode loader s i Hs) as (H1 & Hl1 & Hstep). set (s1 := advance_thread _ s i) in *.
    destruct (IH s1 H1) as (H2 & Hl2 & Hrun). split_conj; [done|exact (eq_trans Hl2 Hl1)|].
    intros j t Hj. destruct (Hstep j t Hj) as (t1 & Hj1 & Hne & Heq). destruct (Hrun j t1 Hj1) as (t2 & Hj2 & Hr & Hrl).
    exists t2. destruct (decide (j = i)) as [E|E].
    + destruct (Heq E) as [c' Hst%step_rank]. split_conj; [done|lia|]. intros _. lia.
    + rewrite (Hne E) in *. split_conj; [done|done|]. intros [?|?]%elem_of_cons; [done|auto].
Qed.

(** Once nobody loads, a step ends a call that waits. *)
Lemma woken cfg mode loader s j t c' t' :
  calls_inv cfg mode s → (∀ x, x ∈ s.2 → rank x = 0%nat) → s.2 !! j = Some t →
  thread_step loader t s.1.1 = (c', Ok t') → thread_result t' ≠ None.
Proof.
  intros [Hc Hok] Hz Hj Hs. pose proof (Hz t (list_elem_of_lookup_2 _ _ _ Hj)) as Ht.
  destruct t as [| | | | | |fid|r|fid r|fid r]; try done; cbn [thread_step] in Hs; [|by injection Hs as <- <-..].
  destruct (co_wait _ _ Hok j fid Hj) as [(k & i & x & Hi & Hx)|(i & r & Hi)].
  - specialize (Hz x (list_elem_of_lookup_2 _ _ _ Hi)). by destruct x.
  - destruct (co_led _ _ Hok i fid r Hi) as (f & Hf & Hev & _).
    unfold await_flight, mbind, M_bind, mret, M_ret, attempt, get_state, raise in Hs.
    simpl in Hf. rewrite Hf, Hev in Hs. by destruct (fl_exception f); simplify_eq.
Qed.

Lemma done_stays loader t c c' t' :
  thread_step loader t c = (c', Ok t') → thread_result t ≠ None → thread_result t' ≠ None.
Proof. intros Hs Ht. destruct t; try done; cbn [thread_step] in Hs; by injection Hs as <- <-. Qed.

Lemma run_woken cfg mode loader schedule s :
  calls_inv cfg mode s → (∀ x, x ∈ s.2 → rank x = 0%nat) →
  ∀ j t, s.2 !! j = Some t → j ∈ schedule ∨ thread_result t ≠ None →
    ∃ t', (run_schedule (counted_step loader) schedule s).2 !! j = Some t' ∧ thread_result t' ≠ None.
Proof.
  revert s. induction schedule as [|i l IH]; intros s Hs Hz j t Hj Hor; cbn [run_schedule foldl].
  - destruct Hor as [?%not_elem_of_nil|?]; [done|eauto].
  - destruct (advance_call cfg mode loader s i Hs) as (H1 & Hl1 & Hstep). set (s1 := advance_thread _ s i) in *.
    destruct (Hstep j t Hj) as (t1 & Hj1 & Hne & Heq). apply (IH s1 H1) with t1; [|done|].
    + intros x [b Hb]%list_elem_of_lookup_1. destruct (lookup_lt_is_Some_2 s.2 b) as [y Hy].
      { rewrite <- Hl1. by eapply lookup_lt_Some. }
      pose proof (Hz y (list_elem_of_lookup_2 _ _ _ Hy)) as Hy0.
      destruct (Hstep b y Hy) as (y' & Hy' & Hne' & Heq'). assert (y' = x) as -> by congruence.
      destruct (decide (b = i)) as [E|E]; [|by rewrite (Hne' E)].
      destruct (Heq' E) as [c' Hst%step_rank]. lia.
    + destruct (decide (j = i)) as [E|E].
      * right. destruct (Heq E) as [c' Hst]. exact (woken cfg mode loader s j t c' t1 Hs Hz Hj Hst).
      * rewrite (Hne E) in *. destruct Hor as [[?|?]%elem_of_cons|?]; [done|auto..].
Qed.

(** A round lets every call move. *)
Definition full_round (n : nat) (round : list nat) : Prop := ∀ j, (j < n)%nat → j ∈ round.

Lemma rounds_rank cfg mode loader rounds s k :
  calls_inv cfg mode s → Forall (full_round (length s.2)) rounds → (∀ t, t ∈ s.2 → (rank t ≤ k)%nat) →
  let s' := run_schedule (counted_step loader) (mjoin rounds) s in
  calls_inv cfg mode s' ∧ length s'.2 = length s.2 ∧ ∀ t, t ∈ s'.2 → (rank t ≤ k - length rounds)%nat.
Proof.
  revert s k. induction rounds as [|l rounds IH]; intros s k Hs Hf Hk; cbn [mjoin list_join].
  - split_conj; [done..|]. intros t Ht. specialize (Hk t Ht). simpl. lia.
  - apply Forall_cons in Hf as [Hl Hf]. rewrite run_schedule_app.
    destruct (run_rank cfg mode loader l s Hs) as (H1 & Hl1 & Hrun). set (s1 := run_schedule _ l s) in *.
    destruct (IH s1 (pred k) H1) as (H2 & Hl2 & Hr); [by rewrite Hl1| |].
    + intros x [b Hb]%list_elem_of_lookup_1. pose proof (lookup_lt_Some _ _ _ Hb) as Hlt. rewrite Hl1 in Hlt.
      destruct (lookup_lt_is_Some_2 s.2 b Hlt) as [y Hy]. destruct (Hrun b y Hy) as (y' & Hy' & _ & Hd).
      assert (y' = x) as -> by congruence. specialize (Hd (Hl b Hlt)).
      specialize (Hk y (list_elem_of_lookup_2 _ _ _ Hy)). lia.
    + split_conj; [done|exact (eq_trans Hl2 Hl1)|]. intros t Ht. specialize (Hr t Ht). simpl. lia.
Qed.

Lemma rounds_end cfg mode loader rounds last s :
  calls_inv cfg mode s → length rounds = 5%nat → Forall (full_round (length s.2)) (rounds ++ [last]) →
  ∀ t, t ∈ (run_schedule (counted_step loader) (mjoin (rounds ++ [last])) s).2 → thread_result t ≠ None.
Proof.
  intros Hs Hn [Hf [Hlast _]%Forall_cons]%Forall_app t. rewrite join_app, run_schedule_app. simpl. rewrite app_nil_r.
  destruct (rounds_rank cfg mode loader rounds s 5 Hs Hf) as (H1 & Hl1 & Hz); [by intros []; simpl; lia|].
  set (s1 := run_schedule _ (mjoin rounds) s) in *. rewrite Hn in Hz.
  destruct (run_rank cfg mode loader last s1 H1) as (_ & Hl2 & _).
  intros [j Hj]%list_elem_of_lookup_1. pose proof (lookup_lt_Some _ _ _ Hj) as Hlt. rewrite Hl2 in Hlt.
  destruct (lookup_lt_is_Some_2 s1.2 j Hlt) as [x Hx].
  destruct (run_woken cfg mode loader last s1 H1) with j x as (t' & Ht' & Hd); [|done| |congruence].
  - intros y Hy. specialize (Hz y Hy). lia.
  - left. apply Hlast. by rewrite <- Hl1.
Qed.

(** ** Invariant *)

Section inv.
Context (c0 : cache) (key : K) (value : V) (ttl : ttl_arg).

(** Where a thread for [key] can be when loading and storing work. *)
Definition on_way t : Prop :=
  match t with
  | Calling k l | Joining k l => k = key ∧ l = ttl
  | Loading k l _ => k = key ∧ l = ttl
  | Storing k l _ v => k = key ∧ l = ttl ∧ v = value
  | Publishing k _ v => k = key ∧ v = value
  | Waiting _ => True
  | Returned r | Led _ r | Followed _ r => r = Ok value
  | Failing _ _ _ => False
  end.

Definition is_loading t : bool := match t with Loading _ _ _ => true | _ => false end.
Definition is_storing t : bool := match t with Storing _ _ _ _ => true | _ => false end.
(** Before any load has ended. *)
Definition is_early t : bool :=
  match t with Calling _ _ | Joining _ _ | Loading _ _ _ | Waiting _ => true | _ => false end.

(** Nothing loaded; loaded and not stored; stored. *)
Inductive stage c (calls : Z) ts : Prop :=
  | stage_empty : calls = 0 → view c key = None → (∀ t, t ∈ ts → is_early t = true) → stage c calls ts
  | stage_loaded i t : calls = 1 → view c key = None → ts !! i = Some t → is_storing t = true →
      stage c calls ts
  | stage_stored : calls = 1 → view c key = Some value →
      (∀ t, t ∈ ts → is_loading t = false ∧ is_storing t = false) → stage c calls ts.

Record once_ok (s : (cache * Z) * list (thread K V)) : Prop := {
  oo_inv : cache_inv (c_config c0) CACHE_ONLY 0 s.1.1;
  oo_calls : calls_ok (flights_view s.1.1) s.2;
  oo_registered : all_registered (flights_view s.1.1) s.2;
  oo_clock : c_clock s.1.1 = c_clock c0;
  oo_open : is_open s.1.1;
  oo_threads t : t ∈ s.2 → on_way t;
  oo_stage : stage s.1.1 s.1.2 s.2;
}.

(** At most one thread leads. *)
Lemma one_leader c ts i j t t' fid fid' :
  calls_ok (flights_view c) ts → all_registered (flights_view c) ts →
  ts !! i = Some t → ts !! j = Some t' →
  leads t = Some (key, fid) → leads t' = Some (key, fid') → i = j.
Proof.
  intros Hok Hall Hi Hj Ht Ht'. destruct (Hall key fid) as (d & Hd & Hf); [by exists i, t|].
  destruct (Hall key fid') as (d' & Hd' & Hf'); [by exists j, t'|].
  assert (fid' = fid) as -> by congruence. by eapply (co_unique _ _ Hok i j t t').
Qed.

Lemma leads_of t : on_way t → is_loading t = true ∨ is_storing t = true → ∃ fid, leads t = Some (key, fid).
Proof. destruct t; simpl; intros Ht [?|?]; try done; destruct Ht as [-> _]; eauto. Qed.

Lemma elem_insert ts i t' x : x ∈ <[i:=t']> ts → x = t' ∨ ∃ j, j ≠ i ∧ ts !! j = Some x.
Proof.
  intros [j Hj]%list_elem_of_lookup_1. apply list_lookup_insert_Some in Hj as [(_ & <- & _)|[Hne Hj]]; eauto.
Qed.

Context (Hpolicy : str_lower (cfg_policy (c_config c0)) ≠ "lfu").
Context (Httl : ttl_ok ttl).
Context (Hlive : ttl_live (cfg_default_ttl (c_config c0)) ttl (clock_now (c_clock c0)) = true).

(** A [put] of the value succeeds and makes it visible. *)
Lemma put_value_visible c :
  cache_inv (c_config c0) CACHE_ONLY 0 c → c_clock c = c_clock c0 → is_open c →
  ∃ c', cache_put key value ttl c = (c', Ok tt) ∧ view c' key = Some value ∧
    c_clock c' = c_clock c ∧ c_state c' = c_state c.
Proof.
  intros Hc Hclk Ho. destruct (slot_lookup _ _ _ c key Hc) as [sh Hsh].
  destruct (run_put_plain _ _ _ c key value ttl sh eq_refl Hc Ho Httl Hsh) as [b E].
  pose proof (run_put _ _ _ c key value ttl Hc Ho) as Hp. rewrite E in *. eexists.
  split_conj; [done| |done..]. destruct Hp as (sh' & entry & ev & Hsh' & Hv & Hev & _ & Hl & _).
  rewrite Hv. unfold put_visible. rewrite decide_False, decide_True; [|done|].
  - apply Hl. by rewrite (ci_config _ _ _ _ Hc), Hclk.
  - apply (pe_keeps _ _ _ Hev). destruct (ci_shards _ _ _ _ Hc _ sh' Hsh') as [_ Hs].
    by apply (ss_keeps _ _ _ _ _ _ _ Hs).
Qed.

(** What a step of a thread does to the key. *)
Definition moved t c t' c' : Prop :=
  match t with
  | Calling _ _ => t' = Joining key ttl ∧ view c' key = view c key
  | Joining _ _ =>
      view c' key = view c key ∧
      match t' with
      | Returned r => ∃ v, r = Ok v ∧ view c key = Some v
      | Loading k l _ => k = key ∧ l = ttl ∧ view c key = None
      | Waiting _ => view c key = None
      | _ => False
      end
  | Loading _ _ fid => t' = Storing key ttl fid value ∧ view c' key = view c key
  | Storing _ _ fid _ => t' = Publishing key fid value ∧ view c' key = Some value
  | Publishing _ fid _ => t' = Led fid (Ok value) ∧ view c' key = view c key
  | Waiting fid => view c' key = view c key ∧ (t' = t ∨ ∃ r, t' = Followed fid r)
  | _ => t' = t ∧ view c' key = view c key
  end.

Lemma await_cases fid c :
  ∃ r, await_flight fid c = (c, r).
Proof.
  unfold await_flight. rewrite run_bind. simpl. destruct (c_flights c !! fid) as [f|]; [|by eexists].
  destruct (fl_event f); [|by eexists]. destruct (fl_exception f); by eexists.
Qed.

Lemma step_moved t c c' t' :
  cache_inv (c_config c0) CACHE_ONLY 0 c → c_clock c = c_clock c0 → is_open c → on_way t →
  thread_step (Ok value) t c = (c', Ok t') →
  moved t c t' c' ∧ c_clock c' = c_clock c ∧ c_state c' = c_state c.
Proof.
  intros Hc Hclk Ho Ht. destruct t as [k l|k l|k l fid|k l fid v|k fid e|k fid v|fid|r|fid r|fid r];
    cbn [thread_step moved]; simpl in Ht.
  - destruct Ht as [-> ->]. rewrite run_bind. unfold attempt. rewrite run_bind, (run_open c Ho).
    destruct (run_validate ttl c) as [->|(x & -> & Hx & _)]; [by intros [= <- <-]|].
    simpl in Httl. by rewrite Httl in Hx.
  - destruct Ht as [-> ->]. pose proof (same_join _ _ _ c key Hc) as Hj. rewrite run_bind.
    destruct (join_flight key c) as [c1 [role|e]]; [|by destruct Hj]. destruct Hj as [Hs Hr].
    intros [= <- <-]. split; [split; [apply (sm_view _ _ Hs)|]|by destruct Hs].
    destruct role as [v|fid|fid]; [by exists v|done..].
  - destruct Ht as [-> ->]. by intros [= <- <-].
  - destruct Ht as (-> & -> & ->). destruct (put_value_visible c Hc Hclk Ho) as (c1 & E & Hv & Hcl & Hst).
    rewrite run_bind. unfold attempt. rewrite E. by intros [= <- <-].
  - done.
  - destruct Ht as [-> ->]. rewrite run_bind. unfold get_state at 1.
    destruct (run_finish_then _ _ _ c key fid (λ f, mkFlight true value (fl_exception f))
      (mret (Led fid (Ok value) : thread K V)) Hc) as (c1 & Hs & ->).
    intros [= <- <-]. split; [split; [done|apply (sm_view _ _ Hs)]|by destruct Hs].
  - rewrite run_bind. unfold attempt. destruct (await_cases fid c) as [r ->].
    intros [= <- <-]. split; [split; [done|]|done]. destruct r as [[v|]|e]; eauto.
  - by intros [= <- <-].
  - by intros [= <- <-].
  - by intros [= <- <-].
Qed.

(** *** The stage after a step *)

Record move c c' ts (i : nat) t t' : Prop := {
  mv_ok : calls_ok (flights_view c) ts;
  mv_all : all_registered (flights_view c) ts;
  mv_ok' : calls_ok (flights_view c') (<[i:=t']> ts);
  mv_all' : all_registered (flights_view c') (<[i:=t']> ts);
  mv_way j x : ts !! j = Some x → on_way x;
  mv_at : ts !! i = Some t;
  mv_moved : moved t c t' c';
}.

Lemma new_at c c' ts i t t' : move c c' ts i t t' → <[i:=t']> ts !! i = Some t'.
Proof. intros Hm. apply list_lookup_insert_eq. eapply lookup_lt_Some, Hm. Qed.

(** A call that was woken finds the outcome of a leader that is done. *)
Lemma followed_led c c' ts i t fid r :
  move c c' ts i t (Followed fid r) → ∃ j, ts !! j = Some (Led fid r).
Proof.
  intros Hm. destruct (co_followed _ _ (mv_ok' _ _ _ _ _ _ Hm) i fid r (new_at _ _ _ _ _ _ Hm)) as [j Hj].
  apply list_lookup_insert_Some in Hj as [(_ & ? & _)|[_ Hj]]; [done|]. eauto.
Qed.

Lemma moved_on_way c c' calls ts i t t' : move c c' ts i t t' → stage c calls ts → on_way t'.
Proof.
  intros Hmv Hst. pose proof (mv_way _ _ _ _ _ _ Hmv i t (mv_at _ _ _ _ _ _ Hmv)) as Ht.
  pose proof (mv_moved _ _ _ _ _ _ Hmv) as Hm.
  destruct t as [k l|k l|k l fid|k l fid v|k fid e|k fid v|fid|r|fid r|fid r]; simpl in Hm, Ht;
    try (by destruct Hm as [-> _]).
  - destruct Hm as [_ Hj]. destruct t' as [| |k' l' f| | | | |r| |]; try done; [by destruct Hj as (-> & -> & _)|].
    destruct Hj as (v & -> & Hv). simpl. destruct Hst; congruence.
  - destruct Hm as [_ [->|[r ->]]]; [done|]. destruct (followed_led _ _ _ _ _ _ _ Hmv) as [j Hj].
    exact (mv_way _ _ _ _ _ _ Hmv j _ Hj).
Qed.

(** Two leaders cannot be, before or after. *)
Lemma no_second_leader c c' ts i t t' j u :
  move c c' ts i t t' → j ≠ i → ts !! j = Some u → is_loading u = true ∨ is_storing u = true →
  (∀ fid, leads t ≠ Some (key, fid)) ∧ (∀ fid, leads t' ≠ Some (key, fid)).
Proof.
  intros Hm Hne Hj Hu. destruct (leads_of u (mv_way _ _ _ _ _ _ Hm j u Hj) Hu) as [fid Hl].
  split; intros fid' Hl'; apply Hne.
  - exact (one_leader c ts j i u t fid fid' (mv_ok _ _ _ _ _ _ Hm) (mv_all _ _ _ _ _ _ Hm)
      Hj (mv_at _ _ _ _ _ _ Hm) Hl Hl').
  - apply (one_leader c' (<[i:=t']> ts) j i u t' fid fid' (mv_ok' _ _ _ _ _ _ Hm) (mv_all' _ _ _ _ _ _ Hm));
      [by rewrite list_lookup_insert_ne|by eapply new_at|done..].
Qed.

(** The stages, one by one. *)
Lemma stage_from_empty c c' calls ts i t t' :
  move c c' ts i t t' → calls = 0 → view c key = None → (∀ t, t ∈ ts → is_early t = true) →
  stage c' (match t with Loading _ _ _ => calls + 1 | _ => calls end) (<[i:=t']> ts).
Proof.
  intros Hmv -> Hv He. pose proof (mv_moved _ _ _ _ _ _ Hmv) as Hm.
  pose proof (He t (list_elem_of_lookup_2 _ _ _ (mv_at _ _ _ _ _ _ Hmv))) as Ht.
  assert (view c' key = None → is_early t' = true → stage c' 0 (<[i:=t']> ts)) as Hempty.
  { intros Hv' Ht'. apply stage_empty; [done..|]. intros x [->|(j & _ & Hj)]%elem_insert; [done|].
    by eapply He, list_elem_of_lookup_2. }
  destruct t as [k l|k l|k l fid|k l fid v|k fid e|k fid v|fid|r|fid r|fid r]; try done; simpl in Hm.
  - destruct Hm as [-> Hv']. apply Hempty; [congruence|done].
  - destruct Hm as [Hv' Hj]. apply Hempty; [congruence|]. destruct t'; try done. destruct Hj as (? & _ & ?). congruence.
  - destruct Hm as [-> Hv']. apply (stage_loaded _ _ _ i (Storing key ttl fid value)); [done|congruence| |done].
    by eapply new_at.
  - destruct Hm as [Hv' [->|[r ->]]]; [apply Hempty; [congruence|done]|].
    destruct (followed_led _ _ _ _ _ _ _ Hmv) as [j Hj]. by specialize (He _ (list_elem_of_lookup_2 _ _ _ Hj)).
Qed.

Lemma stage_from_stored c c' calls ts i t t' :
  move c c' ts i t t' → calls = 1 → view c key = Some value →
  (∀ t, t ∈ ts → is_loading t = false ∧ is_storing t = false) →
  stage c' (match t with Loading _ _ _ => calls + 1 | _ => calls end) (<[i:=t']> ts).
Proof.
  intros Hmv -> Hv He. pose proof (mv_moved _ _ _ _ _ _ Hmv) as Hm.
  pose proof (He t (list_elem_of_lookup_2 _ _ _ (mv_at _ _ _ _ _ _ Hmv))) as [Ht1 Ht2].
  assert (view c' key = view c key → is_loading t' = false → is_storing t' = false →
    stage c' 1 (<[i:=t']> ts)) as Hstored.
  { intros Hv' Ht' Ht''. apply stage_stored; [done|congruence|].
    intros x [->|(j & _ & Hj)]%elem_insert; [done|]. by eapply He, list_elem_of_lookup_2. }
  destruct t as [k l|k l|k l fid|k l fid v|k fid e|k fid v|fid|r|fid r|fid r]; try done; simpl in Hm;
    try (destruct Hm as [-> Hv']; by apply Hstored).
  - destruct Hm as [Hv' Hj]. destruct t'; try done; [|by apply Hstored..]. destruct Hj as (_ & _ & ?). congruence.
  - destruct Hm as [Hv' [->|[r ->]]]; by apply Hstored.
Qed.

Lemma stage_from_loaded c c' calls ts i t t' j u :
  move c c' ts i t t' → calls = 1 → view c key = None → ts !! j = Some u → is_storing u = true →
  stage c' (match t with Loading _ _ _ => calls + 1 | _ => calls end) (<[i:=t']> ts).
Proof.
  intros Hmv -> Hv Hj Hu. pose proof (mv_moved _ _ _ _ _ _ Hmv) as Hm.
  pose proof (mv_at _ _ _ _ _ _ Hmv) as Hi. pose proof (mv_way _ _ _ _ _ _ Hmv i t Hi) as Ht.
  destruct (decide (j = i)) as [->|Hne].
  - assert (u = t) as -> by congruence. destruct t as [| | |k l fid v| | | | | |]; try done.
    destruct Hm as [-> Hv']. apply stage_stored; [done..|].
    intros x [->|(j & Hne & Hx)]%elem_insert; [done|]. destruct Ht as (-> & _).
    assert (∀ b, is_loading x = true ∨ is_storing x = true → b = false) as Hno.
    { intros b Hb. destruct (no_second_leader _ _ _ _ _ _ j x Hmv Hne Hx Hb) as [Hn _].
      by destruct (Hn fid). }
    destruct (is_loading x) eqn:E1, (is_storing x) eqn:E2; try done;
      (split; (done || (apply Hno; auto))).
  - destruct (no_second_leader _ _ _ _ _ _ j u Hmv Hne Hj (or_intror Hu)) as [Hn Hn'].
    assert (view c' key = None → stage c' 1 (<[i:=t']> ts)) as Hloaded.
    { intros Hv'. apply (stage_loaded _ _ _ j u); [done..| |done]. by rewrite list_lookup_insert_ne. }
    destruct t as [k l|k l|k l fid|k l fid v|k fid e|k fid v|fid|r|fid r|fid r]; simpl in Hm, Ht.
    + apply Hloaded. destruct Hm. congruence.
    + apply Hloaded. destruct Hm. congruence.
    + destruct Ht as [-> _]. by destruct (Hn fid).
    + destruct Ht as [-> _]. by destruct (Hn fid).
    + done.
    + destruct Ht as [-> _]. by destruct (Hn fid).
    + apply Hloaded. destruct Hm. congruence.
    + apply Hloaded. destruct Hm. congruence.
    + apply Hloaded. destruct Hm. congruence.
    + apply Hloaded. destruct Hm. congruence.
Qed.

Lemma stage_step c c' calls ts i t t' :
  move c c' ts i t t' → stage c calls ts →
  stage c' (match t with Loading _ _ _ => calls + 1 | _ => calls end) (<[i:=t']> ts).
Proof.
  intros Hm [Hc Hv He|j u Hc Hv Hj Hu|Hc Hv He];
    [by eapply stage_from_empty|by eapply stage_from_loaded|by eapply stage_from_stored].
Qed.

Lemma once_step s i : once_ok s → once_ok (advance_thread (counted_step (Ok value)) s i).
Proof.
  destruct s as [[c calls] ts]. intros [Hc Hok Hall Hclk Ho Hway Hst]. cbn [fst snd] in *.
  unfold advance_thread. cbn [fst snd]. destruct (ts !! i) as [t|] eqn:Hi; [|by split].
  destruct (thread_step_total (Ok value) t c _ _ Hc) as (c' & t' & Hs). cbn [counted_step]. rewrite Hs.
  pose proof (Hway t (list_elem_of_lookup_2 _ _ _ Hi)) as Ht.
  destruct (step_moved t c c' t' Hc Hclk Ho Ht Hs) as (Hmv & Hclk' & Hst').
  pose proof (thread_step_effect _ _ _ _ _ _ _ _ Hc Hs) as He.
  assert (move c c' ts i t t') as Hm.
  { split; [done|done|by eapply effect_calls|by eapply effect_registered| |done|done].
    intros j x Hj. by eapply Hway, list_elem_of_lookup_2. }
  split; cbn [fst snd].
  - by eapply thread_step_inv.
  - apply Hm.
  - apply Hm.
  - congruence.
  - unfold is_open in *. by rewrite Hst'.
  - intros x [->|(j & _ & Hj)]%elem_insert; [by eapply moved_on_way|by eapply Hway, list_elem_of_lookup_2].
  - by apply stage_step with (c := c).
Qed.

Lemma once_run schedule s : once_ok s → once_ok (run_schedule (counted_step (Ok value)) schedule s).
Proof. revert s. induction schedule as [|i l IH]; intros s Hs; [done|]. by apply IH, once_step. Qed.

(** Calls that have not begun. *)
Lemma calling_calls n :
  reachable c0 → calls_ok (flights_view c0) (replicate n (Calling key ttl)) ∧
                 all_registered (flights_view c0) (replicate n (Calling key ttl)).
Proof.
  intros Hr. destruct (reachable_calls c0 Hr) as [Hok Hall]. induction n as [|n [IH1 IH2]]; [done|].
  rewrite replicate_S_end. split; [by apply calls_call|by apply call_registered].
Qed.

Lemma once_start n :
  reachable c0 → c_write_mode c0 = CACHE_ONLY → is_open c0 → view c0 key = None →
  once_ok ((c0, 0), replicate n (Calling key ttl)).
Proof.
  intros Hr Hm Ho Hv. destruct (calling_calls n Hr). split; try done; cbn [fst snd].
  - rewrite <- Hm. by apply reachable_inv.
  - by intros t [-> _]%elem_of_replicate.
  - apply stage_empty; [done..|]. by intros t [-> _]%elem_of_replicate.
Qed.

Lemma once_calls s : once_ok s → s.1.2 = 0 ∨ s.1.2 = 1.
Proof. intros [_ _ _ _ _ _ [-> _ _|i t -> _ _ _| -> _ _]]; auto. Qed.

(** When every call is done. *)
Lemma once_done s :
  once_ok s → s.2 ≠ [] → (∀ t, t ∈ s.2 → thread_result t ≠ None) →
  s.1.2 = 1 ∧ view s.1.1 key = Some value ∧ ∀ t, t ∈ s.2 → thread_result t = Some (Ok value).
Proof.
  intros [_ _ _ _ _ Hway Hst] Hne Hdone.
  assert (∀ t, t ∈ s.2 → thread_result t = Some (Ok value)) as Hall.
  { intros t Ht. specialize (Hway t Ht). specialize (Hdone t Ht).
    destruct t as [| | | | | | |r|f r|f r]; simpl in *; congruence. }
  destruct Hst as [_ _ He|i t _ _ Hi Ht|Hc Hv _]; [|exfalso|done].
  - destruct s.2 as [|t ts]; [done|]. specialize (He t (list_elem_of_here _ _)).
    specialize (Hdone t (list_elem_of_here _ _)). by destruct t.
  - apply list_elem_of_lookup_2 in Hi. specialize (Hdone t Hi). by destruct t.
Qed.

(** Six rounds are enough. *)
Lemma once_six_rounds rounds s :
  once_ok s → s.2 ≠ [] → length rounds = 6%nat → Forall (full_round (length s.2)) rounds →
  let s' := run_schedule (counted_step (Ok value)) (mjoin rounds) s in
  s'.1.2 = 1 ∧ view s'.1.1 key = Some value ∧ ∀ t, t ∈ s'.2 → thread_result t = Some (Ok value).
Proof.
  intros Hs Hne Hn Hf. assert (calls_inv (c_config c0) CACHE_ONLY s) as Hinv by (split; apply Hs).
  destruct (run_rank _ _ (Ok value) (mjoin rounds) s Hinv) as (_ & Hl & _).
  apply once_done; [by apply once_run| |].
  - intros E. rewrite E in Hl. by destruct s.2.
  - destruct rounds as [|last rounds _] using rev_ind; [done|]. rewrite length_app in Hn. simpl in Hn.
    eapply rounds_end; [done|lia|done].
Qed.
End inv.
End once.

(** ** Properties *)

(** C8: concurrent misses load once.  The conditions: the cache is reachable, open, in cache-only mode and of a policy other than LFU (which may
    evict the new key at once, so that it is loaded again); the key has no visible value; any number of threads call [get_or_compute] for it with one lifetime, which is
    valid and not over at once; the loader returns a value; and there are no other calls and no passage of time meanwhile.  Then under every schedule of the steps of these threads the
    loader is called at most once, and when every call is done it was called exactly once, every call returned
    the loaded value, and the value is in the cache. *)
Theorem concurrent_misses_load_once {K V} `{EqDecision K} `{KeyHash K} `{PyNone V}
    (c : Cache K V (AnyPolicy K)) (key : K) (value : V) (ttl : ttl_arg) (threads : nat) (schedule : list nat) :
  reachable c → c_write_mode c = CACHE_ONLY → is_open c → view c key = None →
  str_lower (cfg_policy (c_config c)) ≠ "lfu" → ttl_ok ttl →
  ttl_live (cfg_default_ttl (c_config c)) ttl (clock_now (c_clock c)) = true →
  let '((c', calls), ts) := run_schedule (counted_step (Ok value)) schedule
                              ((c, 0), replicate threads (Calling key ttl)) in
  calls ≤ 1 ∧
  (ts ≠ [] → (∀ t, t ∈ ts → thread_result t ≠ None) →
   calls = 1 ∧ view c' key = Some value ∧ ∀ t, t ∈ ts → thread_result t = Some (Ok value)).
Proof.
  intros Hr Hm Ho Hv Hp Httl Hlive.
  pose proof (once_run c key value ttl Hp Httl Hlive schedule _
    (once_start c key value ttl threads Hr Hm Ho Hv)) as Hok.
  pose proof (once_calls _ _ _ _ _ Hok) as Hc. pose proof (once_done _ _ _ _ _ Hok) as Hd.
  destruct (run_schedule _ schedule _) as [[c' calls] ts]. cbn [fst snd] in *.
  split; [destruct Hc; lia|done].
Qed.

(** C9: every call ends: from any state that calls of [get_or_compute] can reach with each other and
    with any other calls, deletions and a shutdown included, once each call moves in each of
    six rounds, whatever the order of the steps within them and whatever the loader returns or raises,
    every call has returned or raised. *)
Theorem every_call_ends {K V} `{EqDecision K} `{KeyHash K} `{PyNone V}
    (c : Cache K V (AnyPolicy K)) (ts : list (thread K V)) (loader : result V) (calls : Z)
    (rounds : list (list nat)) :
  sf_reachable cache_step c ts → length rounds = 6%nat →
  (∀ round j, round ∈ rounds → (j < length ts)%nat → j ∈ round) →
  ∀ t, t ∈ (run_schedule (counted_step loader) (mjoin rounds) ((c, calls), ts)).2 → thread_result t ≠ None.
Proof.
  intros Hr Hn Hf. destruct (sf_reachable_inv cache_step c ts (λ _ _ Hs, Hs) Hr) as [Hc Hok].
  destruct rounds as [|last rounds _] using rev_ind; [done|]. rewrite length_app in Hn. simpl in Hn.
  eapply (rounds_end _ _ loader rounds last ((c, calls), ts)); [by split|lia|].
  apply Forall_forall. intros round Hin j Hj. by apply Hf.
Qed.

(** Three calls for a missing key, in an order that lets the second one lead. *)
Definition once_rounds : list (list nat) := replicate 6 [1%nat; 0%nat; 2%nat].
Definition once_end : (Cache Z Z (AnyPolicy Z) * Z) * list (thread Z Z) :=
  run_schedule (counted_step (Ok 90)) (mjoin once_rounds)
    ((demo_three "lru" "cache-only", 0), replicate 3 (Calling 9 TTL_NONE)).

Lemma concurrent_misses_load_once_witness :
  once_end.2 = [Followed 0 (Ok 90); Led 0 (Ok 90); Followed 0 (Ok 90)] ∧
  let '((c', calls), ts) := run_schedule (counted_step (Ok 90)) (mjoin once_rounds)
                              ((demo_three "lru" "cache-only", 0), replicate 3 (Calling 9 TTL_NONE)) in
  calls ≤ 1 ∧
  (ts ≠ [] → (∀ t, t ∈ ts → thread_result t ≠ None) →
   calls = 1 ∧ view c' 9 = Some 90 ∧ ∀ t, t ∈ ts → thread_result t = Some (Ok 90)).
Proof.
  split; [vm_compute; reflexivity|].
  assert (reachable (demo_three "lru" "cache-only")) as Hr by (apply demo_three_reachable; reflexivity).
  assert (is_open (demo_three "lru" "cache-only")) as Ho by (left; vm_compute; reflexivity).
  assert (str_lower (cfg_policy (c_config (demo_three "lru" "cache-only"))) ≠ "lfu") as Hp
    by (vm_compute; discriminate).
  assert (view (demo_three "lru" "cache-only") 9 = None) as Hv by (vm_compute; reflexivity).
  assert (c_write_mode (demo_three "lru" "cache-only") = CACHE_ONLY) as Hm by (vm_compute; reflexivity).
  assert (ttl_live (cfg_default_ttl (c_config (demo_three "lru" "cache-only"))) TTL_NONE
    (clock_now (c_clock (demo_three "lru" "cache-only"))) = true) as Hl by (vm_compute; reflexivity).
  pose proof (concurrent_misses_load_once (demo_three "lru" "cache-only") 9 90 TTL_NONE 3 (mjoin once_rounds)
    Hr Hm Ho Hv Hp I Hl) as Hall. exact Hall.
Defined.

Lemma every_call_ends_witness :
  sf_two.2 = [Loading 9 TTL_NONE 0; Waiting 0] ∧
  ∀ t, t ∈ (run_schedule (counted_step (Raise (RuntimeError "loader"))) (mjoin (replicate 6 [1%nat; 0%nat]))
              ((sf_two.1, 0), sf_two.2)).2 → thread_result t ≠ None.
Proof.
  split; [vm_compute; reflexivity|].
  apply (every_call_ends sf_two.1 sf_two.2 (Raise (RuntimeError "loader")) 0 (replicate 6 [1%nat; 0%nat])).
  - apply sf_start_runs, sf_two_steps.
  - reflexivity.
  - intros round j [-> _]%elem_of_replicate Hj. change (length sf_two.2) with 2%nat in Hj.
    destruct j as [|[|j]]; [set_solver|set_solver|lia].
Defined.
