(* ===== verification/Demos.v ===== *)
(** The scripts of the command [demo]: src/cachelab/cli/commands/demo.py.

    A script prints lines.  What the threads a script starts, and the clock, do before each of
    its calls is an argument ([DemoEnv]), and so is the schedule of the threads a script runs
    itself: each step of such a thread is one call of the cache, or one part of a call of
    [get_or_compute].  Elapsed times are arguments. *)

From Stdlib Require Import ZArith SpecFloat.
From stdpp Require Import base tactics numbers option strings pretty sets list relations.
From S2P Require Import Prelude PyDict PyFloat PyMonad Teaching Config Json Tables Entry.
From S2P Require Import Policies PolicyLaws Storage Jobs Shard Cache CliBasic Workloads.
From S2P Require Import ShardInv ShardSpec CacheInv CacheSafety Reach CacheSpec CacheOnly Flights SingleFlight LoadOnce.
Local Open Scope string_scope.
Local Open Scope list_scope.
Local Open Scope Z_scope.

Record DemoEnv : Type := mkDemoEnv {
  de_others : nat → M CliCache unit;   (* before the n-th call of a script *)
  de_close : CloseEnv;
  de_elapsed : list float;
  de_schedule : list nat;
}.

Section demos.
Context `{KeyHash typed_key}.
Context (float_repr : float → string) (str_repr : string → string).
Local Abbreviation MD := (M CliCache).
Local Abbreviation str := (py_str float_repr str_repr).
Local Abbreviation repr := (py_repr float_repr str_repr).

(** ** Scripts *)

(** A script on a cache made by [Cache(...)]: what it returns, and the cache it leaves. *)
Definition on_cache {A} (args : InitArgs) (source : SlowDictBackend typed_key pyval) (m : MD A)
    : result (CliCache * A) :=
  match cache_init None args source (mkFakeClock fzero) with
  | Raise e => Raise e
  | Ok c => match m c with (c', Ok a) => Ok (c', a) | (_, Raise e) => Raise e end
  end.
Definition default_source : SlowDictBackend typed_key pyval := slow_dict_init fzero (mkFakeClock fzero).

(** [clock.advance(seconds)] on the clock the cache was given *)
Definition demo_advance (seconds : float) : MD unit :=
  c ← get_state;
  clock ← lift (clock_advance (c_clock c) seconds);
  modify (set_clock clock).
(** [stats_table(cache)] *)
Definition show_stats : MD string := c ← get_state; lift (stats_table float_repr c).
Definition lines_of (r : result (CliCache * list string)) : result (list string) :=
  match r with Ok (_, lines) => Ok lines | Raise e => Raise e end.

(** [_demo_ttl_lazy] *)
Definition demo_ttl_lazy : result (list string) := lines_of (
  on_cache (mkInitArgs (Some 2) (Some (Some (float_of_Z 5))) None None None None None None None)
    default_source (
    cache_put (TStr "token") (VStr "abc") TTL_UNSET ;;
    demo_advance (float_of_Z 6) ;;
    value ← cache_get (TStr "token") VNone;
    table ← show_stats;
    mret ["lazy get after ttl: " +:+ repr value; table])).

(** [_demo_ttl_active] *)
Definition demo_ttl_active (env : DemoEnv) : result (list string) := lines_of (
  on_cache (mkInitArgs (Some 4) None None None (Some 1) (Some (int_div 2 100)) None None None)
    default_source (
    cache_start ;;
    de_others env 0 ;;
    cache_put (TStr "short") (VStr "lived") (TTL_SECONDS (int_div 1 100)) ;;
    de_others env 1 ;;
    size_after ← cache_size;
    de_others env 2 ;;
    cache_close None (de_close env) ;;
    table ← show_stats;
    mret ["active expiration size: " +:+ pretty size_after; table])).

(** [_demo_worker_queue] *)
Definition demo_worker_queue (env : DemoEnv) : result (list string) := lines_of (
  on_cache (mkInitArgs (Some 8) None None None (Some 2) (Some (float_of_Z 10)) (Some 64) None None)
    default_source (
    cache_start ;;
    for_each (py_range 8) (λ index,
      de_others env (Z.to_nat index) ;;
      cache_put (TStr ("k" +:+ pretty index)) (VInt index) (TTL_SECONDS (float_of_Z 1))) ;;
    demo_advance (float_of_Z 2) ;;
    de_others env 8 ;;
    scheduler_tick ;;
    de_others env 9 ;;   (* [join_until(1)], whose answer the script does not use *)
    size_after ← cache_size;
    de_others env 10 ;;
    cache_close (Some false) (de_close env) ;;
    table ← show_stats;
    mret ["worker-queue: 8 entries expired by background workers; size now " +:+ pretty size_after;
          table])).

(** [_demo_backpressure] *)
Fixpoint offer_jobs (offered : nat) (accepted : Z) : MD Z :=
  match offered with
  | O => mret accepted
  | S offered' =>
      ok ← (λ c, let '(q, ok) := queue_put (ExpireShard 0) false (c_queue c) in (set_queue q c, Ok ok));
      offer_jobs offered' (if ok : bool then accepted + 1 else accepted)
  end.
Definition demo_backpressure : result (list string) := lines_of (
  on_cache (mkInitArgs (Some 8) None None None (Some 0) None (Some 1) None None) default_source (
    accepted ← offer_jobs 20 0;
    c ← get_state;
    table ← show_stats;
    mret ["backpressure: queue_size=1, offered=20, accepted=" +:+ pretty accepted +:+ ", dropped="
            +:+ pretty (cst_queue_dropped (cache_stats c));
          "critical jobs raise QueueBackpressureError rather than dropping silently";
          table])).

(** [_demo_single_flight]: the threads, with the number of calls of the loader. *)
Definition single_flight_step : thread typed_key pyval → CliCache * Z → (CliCache * Z) * thread typed_key pyval :=
  counted_step (Ok (VStr "loaded-once")).
Definition single_flight_args : InitArgs :=
  mkInitArgs (Some 4) None None (Some 2) None None None None None.
Definition single_flight_threads : list (thread typed_key pyval) :=
  replicate 40 (Calling (TStr "same") TTL_UNSET).
Definition demo_single_flight (env : DemoEnv) : result (list string) := lines_of (
  on_cache single_flight_args default_source (λ c,
    let '((c', calls), _) :=
      run_schedule single_flight_step (de_schedule env) ((c, 0), single_flight_threads) in
    (c', Ok ["loader calls under contention: " +:+ pretty calls]))).

(** [_traffic], call by call, and [_demo_sharding] *)
Inductive traffic_call : Type :=
  | TrafficPut (key : typed_key) (value : Z)
  | TrafficContains (key : typed_key)
  | TrafficGet (key : typed_key).
Definition traffic (worker : nat) : list traffic_call :=
  mjoin ((λ index,
    let key := TStr (pretty worker +:+ ":" +:+ pretty (index mod 80)) in
    [TrafficPut key index; TrafficContains key; TrafficGet key]) <$> py_range 500).
Definition traffic_step (calls : list traffic_call) (c : CliCache) : CliCache * list traffic_call :=
  match calls with
  | [] => (c, [])
  | TrafficPut key value :: rest => ((cache_put key (VInt value) TTL_UNSET c).1, rest)
  | TrafficContains key :: rest => ((cache_contains key c).1, rest)
  | TrafficGet key :: rest => ((cache_get key VNone c).1, rest)
  end.
Definition demo_sharding (env : DemoEnv) : result (list string) := lines_of (
  on_cache (mkInitArgs (Some 200) None None (Some 8) None None None None None) default_source (
    modify (λ c, (run_schedule traffic_step (de_schedule env) (c, traffic <$> seq 0 8)).1) ;;
    table ← show_stats;
    mret [table])).

(** [_time_puts], without the time, and [_demo_write_modes] *)
Definition time_puts (others : nat → MD unit) (count : Z) : MD unit :=
  for_each (py_range count) (λ index,
    others (Z.to_nat index) ;;
    cache_put (TStr ("k" +:+ pretty index)) (VStr ("v" +:+ pretty index)) TTL_UNSET).
Definition demo_write_modes (env : DemoEnv) : result (list string) :=
  let source := slow_dict_init (int_div 2 1000) (mkFakeClock fzero) in
  let args mode workers := mkInitArgs (Some 100) None None None workers None None (Some mode) None in
  let seconds n := float_repr (py_round 5 (default fzero (de_elapsed env !! n))) in
  match on_cache (args (write_mode_value WRITE_THROUGH) None) source (time_puts (λ _, mret tt) 50) with
  | Raise e => Raise e
  | Ok (through, _) =>
      match on_cache (args (write_mode_value WRITE_BACK) (Some 1)) source (
              cache_start ;; time_puts (de_others env) 50 ;;
              de_others env 50 ;; cache_close None (de_close env)) with
      | Raise e => Raise e
      | Ok (back, _) =>
          match format_table ["mode"; "seconds"; "persisted"] [
                  ["write-through"; seconds 0%nat; pretty (dict_len (source_snapshot (c_source through)))];
                  ["write-back"; seconds 1%nat; pretty (dict_len (source_snapshot (c_source back)))]] with
          | Ok table => Ok [table]
          | Raise e => Raise e
          end
      end
  end.

(** [_demo_write_back_retry] *)
Definition demo_write_back_retry (env : DemoEnv) : result (list string) := lines_of (
  on_cache (mkInitArgs (Some 4) None None None (Some 1) None None
              (Some (write_mode_value WRITE_BACK)) None)
    (fail_next 1 default_source).1 (
    cache_start ;;
    de_others env 0 ;;
    cache_put (TStr "retry") (VStr "eventually") TTL_UNSET ;;
    de_others env 1 ;;
    cache_close None (de_close env) ;;
    table ← show_stats;
    value ← with_source (get_value (TStr "retry"));
    mret [table; "backend value: " +:+ str value])).

(** The unsafe examples print the dict their function returns. *)
Definition demo_unsafe_race (env : DemoEnv) : result (list string) := Ok [str (VDict [
  ("capacity", VInt 1);
  ("final_size", VInt (final_size (unsafe_race_demo 25 1 (de_schedule env))));
  ("threads", VInt 25)])].
Definition demo_unsafe_single_flight (env : DemoEnv) : result (list string) := Ok [str (VDict [
  ("threads", VInt 50);
  ("loader_calls", VInt (loader_calls (unsafe_singleflight_demo 50 (de_schedule env))))])].
Definition demo_unsafe_write_back_resurrection : result (list string) :=
  let '(source, resurrected) := unsafe_write_back_resurrection_demo in
  Ok [str (VDict [
    ("source", VDict (prod_map id (λ v, match v with Some s => VStr s | None => VNone end) <$> source));
    ("resurrected", VBool resurrected)])].
Definition demo_wall_clock_ttl_bug : result (list string) :=
  let '(expired, alive, now) := unsafe_wall_clock_ttl_demo in
  Ok [str (VDict [
    ("expired_after_forward", VBool expired);
    ("incorrectly_alive_after_backward_jump", VBool alive);
    ("wall_clock_now", VFloat now)])].

(** ** [run_demo] *)

(** [_DEMOS] *)
Definition DEMOS (env : DemoEnv) : dict string (result (list string)) := [
  ("ttl-lazy", demo_ttl_lazy);
  ("ttl-active", demo_ttl_active env);
  ("worker-queue", demo_worker_queue env);
  ("backpressure", demo_backpressure);
  ("single-flight", demo_single_flight env);
  ("sharding", demo_sharding env);
  ("write-through-vs-write-back", demo_write_modes env);
  ("write-back-retry", demo_write_back_retry env);
  ("unsafe-race", demo_unsafe_race env);
  ("unsafe-single-flight", demo_unsafe_single_flight env);
  ("unsafe-write-back-resurrection", demo_unsafe_write_back_resurrection);
  ("wall-clock-ttl-bug", demo_wall_clock_ttl_bug)].
(** [_ALL_DEMOS] *)
Definition ALL_DEMOS : list string := [
  "worker-queue"; "backpressure"; "ttl-lazy"; "ttl-active"; "single-flight"; "sharding";
  "write-through-vs-write-back"; "write-back-retry"; "unsafe-race"; "unsafe-single-flight";
  "unsafe-write-back-resurrection"; "wall-clock-ttl-bug"].

(** What is printed, and whether it ends with an exception.  A script prints at its end. *)
Definition printed : Type := list string * result unit.
Definition print_lines (r : result (list string)) : printed :=
  match r with Ok lines => (lines, Ok tt) | Raise e => ([], Raise e) end.
Definition then_print (p q : printed) : printed :=
  match p with (lines, Ok _) => (lines ++ q.1, q.2) | (lines, Raise e) => (lines, Raise e) end.

Definition run_one_demo (env : DemoEnv) (name : string) : printed :=
  match dict_get (DEMOS env) name with
  | Some lines => print_lines lines
  | None => ([], Raise (ValueError ("unknown demo: " +:+ name)))
  end.
Definition demo_header (name : string) : printed :=
  ([String newline ("== " +:+ name +:+ " ==")], Ok tt).
(** The loop of [all], each demo in an environment of its own. *)
Fixpoint run_all_demos (envs : string → DemoEnv) (names : list string) : printed :=
  match names with
  | [] => ([], Ok tt)
  | name :: names' =>
      then_print (demo_header name)
        (then_print (run_one_demo (envs name) name) (run_all_demos envs names'))
  end.

Section run.
Context {G : Type} `{Random G} `{KeyHash string} (get_time put_time : Z → float).

Definition policy_benchmark (envs : string → DemoEnv) : result (list string) :=
  match benchmark_policies get_time put_time ["fifo"; "lru"; "lfu"]
          (de_elapsed (envs "policy benchmark")) "hotspot" 50 5000 1 1 with
  | Raise e => Raise e
  | Ok rows =>
      match print_simulation float_repr rows with Ok table => Ok [table] | Raise e => Raise e end
  end.
Definition run_demo (envs : string → DemoEnv) (name : string) : printed :=
  if String.eqb name "all" then
    then_print (run_all_demos envs ALL_DEMOS)
      (then_print (demo_header "policy benchmark") (print_lines (policy_benchmark envs)))
  else run_one_demo (envs name) name.
End run.
End demos.

(** ** What the scripts show *)

Section shown.
Context `{KeyHash typed_key} (float_repr : float → string) (str_repr : string → string).

Lemma single_flight_cache :
  ∃ c : CliCache, cache_init None single_flight_args default_source (mkFakeClock fzero) = Ok c ∧
    c_write_mode c = CACHE_ONLY ∧ is_open c ∧ str_lower (cfg_policy (c_config c)) ≠ "lfu" ∧
    ttl_live (cfg_default_ttl (c_config c)) TTL_UNSET (clock_now (c_clock c)) = true ∧
    Forall (λ sh, sh_backend sh = []) (c_shards c).
Proof.
  eexists. split; [vm_compute; reflexivity|].
  split_conj; [done|by left|done|done|]. repeat constructor.
Qed.

Lemma fresh_view (c : CliCache) k : Forall (λ sh, sh_backend sh = []) (c_shards c) → view c k = None.
Proof.
  intros Hf. unfold view. destruct (c_shards c !! slot c k) as [sh|] eqn:E; [|done].
  rewrite Forall_lookup in Hf. unfold visible. by rewrite (Hf _ _ E).
Qed.

(** The script of the demo single-flight prints one call of the loader, however its forty
    threads are scheduled within six rounds in which each of them moves. *)
Theorem single_flight_demo_loads_once (env : DemoEnv) (rounds : list (list nat)) :
  de_schedule env = mjoin rounds → length rounds = 6%nat →
  (∀ round j, round ∈ rounds → (j < 40)%nat → j ∈ round) →
  demo_single_flight env = Ok ["loader calls under contention: 1"].
Proof.
  intros Hs Hn Hf. destruct single_flight_cache as (c & Hi & Hm & Ho & Hp & Hl & Hb).
  assert (reachable c) as Hr by (eexists None, _, _, _, c; split_conj; [done|exact Hi|apply rtc_refl]).
  pose proof (fresh_view c (TStr "same") Hb) as Hv.
  pose proof (once_start c (TStr "same") (VStr "loaded-once") TTL_UNSET 40 Hr Hm Ho Hv) as Hst.
  destruct (once_six_rounds c _ (VStr "loaded-once") TTL_UNSET Hp I Hl rounds _ Hst) as (Hc & _);
    [done|done|apply Forall_forall; intros round Hin j Hj; by apply Hf|].
  unfold demo_single_flight, on_cache. rewrite Hi, Hs. unfold single_flight_step, single_flight_threads.
  destruct (run_schedule _ _ _) as [[c' calls] ts]. cbn [fst snd] in Hc. by rewrite Hc.
Qed.
End shown.

(** Every demo that [all] runs is known. *)
Lemma all_demos_known `{KeyHash typed_key} (float_repr : float → string) (str_repr : string → string) env name :
  name ∈ ALL_DEMOS ↔ ∃ lines, dict_get (DEMOS float_repr str_repr env) name = Some lines.
Proof.
  split.
  - intros Hn. unfold ALL_DEMOS in Hn. repeat (apply elem_of_cons in Hn as [->|Hn]; [by eexists|]).
    by apply not_elem_of_nil in Hn.
  - intros [lines Hl%dict_get_elem]. apply (list_elem_of_fmap_2 fst) in Hl.
    cbn [DEMOS fmap list_fmap fst] in Hl.
    repeat (apply elem_of_cons in Hl as [->|Hl]; [by apply (bool_decide_unpack _)|]).
    by apply not_elem_of_nil in Hl.
Qed.

#[local] Instance tag_hash : KeyHash typed_key := λ k,
  match k with TStr s => Z.of_nat (String.length s) | _ => 0 end.
Definition fair_env : DemoEnv :=
  mkDemoEnv (λ _, mret tt) (mkCloseEnv 0 0 0) [] (mjoin (replicate 6 (seq 0 40))).
Lemma single_flight_demo_loads_once_witness :
  demo_single_flight fair_env = Ok ["loader calls under contention: 1"].
Proof.
  apply (single_flight_demo_loads_once fair_env (replicate 6 (seq 0 40))); [reflexivity..|].
  intros round j [-> _]%elem_of_replicate Hj. apply elem_of_seq. lia.
Defined.
