(* ===== verification/Examples.v ===== *)
(** Using the cache as a context manager, and the programs of src/examples/: basic_usage.py,
    concurrent_load.py and write_back_demo.py.

    A program is the list of what it prints; an object is shown as it is, before [str]. *)

From stdpp Require Import base tactics numbers option strings sets list relations.
From S2P Require Import Prelude PyDict PyFloat PyMonad Teaching Config Json Entry Policies Files.
From S2P Require Import Storage Jobs Shard Cache CacheSafety Reach CacheSpec CliBasic Lifecycle WriteBackInv WriteBack SingleFlight.
From S2P Require Import ShardSpec Demo LoadOnce Demos.
Local Open Scope string_scope.
Local Open Scope list_scope.
Local Open Scope Z_scope.

(** ** [with Cache(...) as cache:] *)

Section context_manager.
Context {K V P : Type} `{EqDecision K} `{KeyHash K} `{PyNone V} `{HP : EvictionPolicy K P}.
Local Abbreviation MC := (M (Cache K V P)).

(** [Cache.__enter__] and [Cache.__exit__] *)
Definition cache_enter : MC unit := cache_start.
Definition cache_exit (env : CloseEnv) : MC unit := cache_close None env.

(** [try: m finally: last]: an exception of [last] replaces that of [m]. *)
Definition finally_do {A} (m : MC A) (last : MC unit) : MC A := r ← attempt m; last ;; lift r.
(** [__exit__] returns [None], so an exception of the block goes on. *)
Definition with_block {A} (env : CloseEnv) (body : MC A) : MC A :=
  cache_enter ;; finally_do body (cache_exit env).
End context_manager.

(** ** The programs *)

Section examples.
Context `{KeyHash typed_key}.
Local Abbreviation MD := (M CliCache).

Inductive shown : Type :=
  | Shown (label : string) (v : pyval)
  | ShownSet (label : string) (s : list string)
  | ShownStats (label : string) (s : CacheStatsSnapshot).

(** [main] of basic_usage.py *)
Definition basic_usage_args : InitArgs :=
  mkInitArgs (Some 100) (Some (Some (float_of_Z 60))) (Some "lru") (Some 4) None None None None None.
Definition profile_value : pyval := VDict [("name", VStr "Ada"); ("role", VStr "engineer")].
Definition basic_usage_body : MD (list shown) :=
  cache_put (TStr "session:1") (VDict [("user", VStr "Ada")]) TTL_UNSET ;;
  profile ← get_or_compute (TStr "profile:1") (lift (Ok profile_value)) TTL_UNSET (mret tt);
  c ← get_state;
  mret [Shown "profile:" (default VNone profile); ShownStats "" (cache_stats c)].
Definition basic_usage (env : CloseEnv) : result (CliCache * list shown) :=
  on_cache basic_usage_args default_source (with_block env basic_usage_body).

(** [main] of concurrent_load.py: fifty threads pass the barrier and then call [get_or_compute]. *)
Definition concurrent_load_args : InitArgs := mkInitArgs (Some 8) None None (Some 2) None None None None None.
Definition thread_values (ts : list (thread typed_key pyval)) : list string :=
  omap (λ t, match thread_result t with Some (Ok (VStr v)) => Some v | _ => None end) ts.
Definition concurrent_load (schedule : list nat) : result (CliCache * list shown) :=
  on_cache concurrent_load_args default_source (λ c,
    let '((c', calls), ts) := run_schedule (counted_step (Ok (VStr "loaded"))) schedule
                                ((c, 0), replicate 50 (Calling (TStr "same-key") TTL_UNSET)) in
    (c', Ok [Shown "loader calls:" (VInt calls);
             ShownSet "unique results:" (remove_dups (thread_values ts));
             ShownStats "stats:" (cache_stats c')])).

(** [main] of write_back_demo.py; [de_others] is what the worker does in between. *)
Definition write_back_args : InitArgs :=
  mkInitArgs (Some 8) None None None (Some 1) None None (Some (write_mode_value WRITE_BACK)) None.
Definition write_back_body (env : DemoEnv) : MD (list shown) :=
  cache_put (TStr "user:1") (VStr "Ada") TTL_UNSET ;;
  de_others env 0 ;;
  snapshot ← cache_inspect (TStr "user:1");
  mret [Shown "in cache:" (match snapshot with Some s => s_value s | None => VNone end);
        Shown "dirty before close:" (match snapshot with Some s => VBool (s_dirty s) | None => VNone end)].
Definition write_back_demo (env : DemoEnv) : result (CliCache * list shown) :=
  on_cache write_back_args (slow_dict_init (int_div 1 100) (mkFakeClock fzero)) (
    cache_start ;;
    lines ← finally_do (write_back_body env) (cache_close (Some true) (de_close env));
    value ← with_source (get_value (TStr "user:1"));
    c ← get_state;
    mret (lines ++ [Shown "on backend after close:" value; ShownStats "stats:" (cache_stats c)])).
End examples.

(** ** Properties *)

(** C25: a [with] block always closes its cache: whatever the body does with the cache (any sequence of calls, which may
    end in an exception) and whatever the workers do during shutdown, the cache is closed
    afterwards, and what the block ends with is the outcome of the body, unless the shutdown raised
    [ShutdownFlushError]. *)
Theorem with_block_closes {K V A} `{EqDecision K} `{KeyHash K} `{PyNone V}
    (c : Cache K V (AnyPolicy K)) (env : CloseEnv) (body : M (Cache K V (AnyPolicy K)) A) :
  reachable c → is_open c → (∀ c, reachable c → reachable (body c).1) →
  let entered := (cache_enter c).1 in
  let '(c', r) := with_block env body c in
  c_state entered = STARTED ∧ c_state c' = CLOSED ∧
  (r = (body entered).2 ∨ ∃ n, r = Raise (ShutdownFlushError n) ∧ n = count_dirty_entries c').
Proof.
  intros Hr Ho Hb.
  assert (∃ c1, cache_start c = (c1, Ok tt) ∧ c_state c1 = STARTED) as (c1 & Hs & Hst).
  { unfold cache_start. rewrite run_bind. cbn [get_state].
    destruct Ho as [E|E]; rewrite E; [|by exists c].
    unfold mbind, M_bind. cbn [modify]. by destruct (_ && _ && _), (bool_decide _ && _); eexists. }
  assert (reachable c1) as Hr1.
  { replace c1 with (cache_start c).1 by (by rewrite Hs). eapply reachable_step; [exact Hr|apply step_quiet, step_start]. }
  cbv zeta. unfold with_block, cache_enter. rewrite run_bind, Hs. unfold finally_do. rewrite run_bind. unfold attempt.
  specialize (Hb c1 Hr1). cbn [fst]. destruct (body c1) as [c2 r]. cbn [fst snd] in *. rewrite run_bind. unfold cache_exit.
  destruct (run_close (c_config c2) (c_write_mode c2) 0 ltac:(lia) None env c2 (reachable_inv c2 Hb)) as [Hcl Hres].
  destruct (cache_close None env c2) as [c3 r3]. cbn [fst snd] in *.
  destruct Hres as [->|(n & -> & ->)]; cbn.
  - split; [done|split; [done|by left]].
  - split; [done|split; [done|right; eauto]].
Qed.

(** A set of equal results has one element. *)
Lemma remove_dups_same {A} `{EqDecision A} (a : A) l : l ≠ [] → Forall (a =.) l → remove_dups l = [a].
Proof.
  intros Hne Hl. destruct l as [|x l]; [done|]. apply Forall_cons in Hl as [<- Hl]. clear Hne.
  induction Hl as [|y l <- Hl IH]; [done|]. 
  assert (∀ m, a ∈ m → remove_dups (a :: m) = remove_dups m) as Hd
    by (intros m Hm; simpl; by destruct (decide_rel (∈) a m)).
  rewrite Hd; [exact IH|apply list_elem_of_here].
Qed.
Lemma run_schedule_length {S Ph} (next : Ph → S → S * Ph) schedule s :
  length (run_schedule next schedule s).2 = length s.2.
Proof.
  revert s. induction schedule as [|i l IH]; intros [x ts]; [done|]. cbn [run_schedule foldl]. etrans; [apply IH|].
  unfold advance_thread. destruct (_ !! i); [|done]. destruct (next _ _). simpl. by rewrite length_insert.
Qed.

(** concurrent_load.py shows what it says: under every schedule in which its fifty threads move in each of six rounds, it
    prints that the loader was called once and that every thread got the value it loaded. *)
Theorem concurrent_load_prints_one_call `{KeyHash typed_key} (rounds : list (list nat)) :
  length rounds = 6%nat → (∀ round j, round ∈ rounds → (j < 50)%nat → j ∈ round) →
  ∃ c, concurrent_load (mjoin rounds)
       = Ok (c, [Shown "loader calls:" (VInt 1); ShownSet "unique results:" ["loaded"]; ShownStats "stats:" (cache_stats c)]).
Proof.
  intros Hn Hf.
  assert (∃ c : CliCache, cache_init None concurrent_load_args default_source (mkFakeClock fzero) = Ok c ∧
    c_write_mode c = CACHE_ONLY ∧ is_open c ∧ str_lower (cfg_policy (c_config c)) ≠ "lfu" ∧
    ttl_live (cfg_default_ttl (c_config c)) TTL_UNSET (clock_now (c_clock c)) = true ∧
    Forall (λ sh, sh_backend sh = []) (c_shards c)) as (c & Hi & Hm & Ho & Hp & Hl & Hb).
  { eexists. split; [vm_compute; reflexivity|]. split_conj; [done|by left|done|done|]. repeat constructor. }
  assert (reachable c) as Hr by (eexists None, _, _, _, c; split_conj; [done|exact Hi|apply rtc_refl]).
  pose proof (once_start c (TStr "same-key") (VStr "loaded") TTL_UNSET 50 Hr Hm Ho (fresh_view c _ Hb)) as Hst.
  destruct (once_six_rounds c _ (VStr "loaded") TTL_UNSET Hp I Hl rounds _ Hst) as (Hc & _ & Ht);
    [done|done|apply Forall_forall; intros round Hin j Hj; by apply Hf|].
  unfold concurrent_load, on_cache. rewrite Hi.
  match goal with |- context [run_schedule ?f ?l ?x] => pose proof (run_schedule_length f l x) as Hlen end.
  destruct (run_schedule _ _ _) as [[c' calls] ts]. cbn [fst snd] in *. subst calls. exists c'.
  rewrite (remove_dups_same "loaded"); [done| |].
  - destruct ts as [|t ts]; [done|]. specialize (Ht t (list_elem_of_here _ _)). unfold thread_values. cbn. by rewrite Ht.
  - apply Forall_forall. intros v (t & Hin & Hv)%list_elem_of_omap. rewrite (Ht t Hin) in Hv. by injection Hv as <-.
Qed.

(** ** Concrete runs *)

#[local] Instance example_hash : KeyHash typed_key := λ k,
  match k with TStr s => Z.of_nat (String.length s) | _ => 0 end.

Lemma with_block_closes_witness :
  let c := demo_cache "lru" "write-back" 0 0 in
  let '(c', r) := with_block (mkCloseEnv 0 0 0) (cache_put 1 10 TTL_UNSET) c in
  c_state c' = CLOSED ∧ r = Ok tt ∧ sd_data (c_source c') = [(1, 10)].
Proof.
  intros c.
  assert (reachable c) as Hr by (apply demo_reachable; reflexivity).
  pose proof (with_block_closes c (mkCloseEnv 0 0 0) (cache_put 1 10 TTL_UNSET) Hr (or_introl eq_refl)) as Hw.
  specialize (Hw (λ c Hc, reachable_step c _ Hc (step_quiet _ _ (step_put 1 10 TTL_UNSET c)))).
  destruct (with_block _ _ _) as [c' r] eqn:E. destruct Hw as (_ & Hcl & _).
  split; [exact Hcl|]. vm_compute in E. injection E as <- <-. split; reflexivity.
Defined.
Lemma concurrent_load_prints_one_call_witness :
  ∃ c, concurrent_load (mjoin (replicate 6 (seq 0 50)))
       = Ok (c, [Shown "loader calls:" (VInt 1); ShownSet "unique results:" ["loaded"]; ShownStats "stats:" (cache_stats c)]).
Proof.
  apply (concurrent_load_prints_one_call (replicate 6 (seq 0 50))); [reflexivity|].
  intros round j [-> _]%elem_of_replicate Hj. apply elem_of_seq. lia.
Defined.

(** What the other two programs print. *)
Lemma basic_usage_shows_profile :
  match basic_usage (mkCloseEnv 0 0 0) with
  | Ok (c, [Shown _ v; ShownStats _ s]) =>
      v = profile_value ∧ cst_size s = 2 ∧ cst_puts s = 2 ∧ cst_misses s = 1 ∧ cst_hits s = 0 ∧ c_state c = CLOSED
  | _ => False
  end.
Proof. vm_compute. done. Qed.
Lemma write_back_demo_persists :
  match write_back_demo (mkDemoEnv (λ _, mret tt) (mkCloseEnv 2 1 0) [] []) with
  | Ok (c, [Shown _ v; Shown _ dirty; Shown _ stored; ShownStats _ s]) =>
      v = VStr "Ada" ∧ dirty = VBool true ∧ stored = VStr "Ada" ∧ cst_size s = 1 ∧ c_state c = CLOSED
  | _ => False
  end.
Proof. vm_compute. done. Qed.
