(* ===== verification/CliMain.v ===== *)
(** The command line as a whole: src/cachelab/cli/parser.py and src/cachelab/cli/main.py.

    [build_parser] is data for [Argparse].  [main] parses the arguments, dispatches to the handlers of
    [CliBasic], [Workloads] and [Demos], prints what they raise and returns the exit code.  The
    namespace holds Python values; its typed reading is [None] only when a value was given as
    the separator [--], which [argparse] turns into an empty list. *)

From Stdlib Require Import ZArith SpecFloat Ascii.
From stdpp Require Import base tactics numbers option strings pretty sets list.
From S2P Require Import Prelude PyDict PyFloat PyMonad Config Json Tables Entry Files.
From S2P Require Import Storage Jobs Shard Cache CliBasic Workloads Argparse ArgparseSpec Demos.
Local Open Scope string_scope.
Local Open Scope list_scope.
Local Open Scope Z_scope.

(** ** [build_parser] *)

Definition help_options : list (string * action) := [("-h", HelpAction); ("--help", HelpAction)].
Definition policy_choices : list string := ["lru"; "lfu"; "fifo"].

(** The options of the command itself. *)
Definition main_parser : parser := mkParser
  (help_options ++ [
    ("--version", VersionAction);
    ("--capacity", Store "capacity" IntType None (VInt 128));
    ("--policy", Store "policy" StrType (Some policy_choices) (VStr "lru"));
    ("--shards", Store "shards" IntType None (VInt 1));
    ("--default-ttl", Store "default_ttl" FloatType None VNone);
    ("--state", Store "state" StrType None (VStr ".cachelab_state.json"));
    ("--config", Store "config" StrType None VNone)])
  [Subparsers "command"].

(** [_add_key_flags] *)
Definition key_flags : list (string * action) := [("--key-json", StoreTrue "key_json")].

Definition put_parser : parser := mkParser
  (help_options ++ [
    ("--ttl", Store "ttl" FloatType None VNone);
    ("--no-ttl", StoreTrue "no_ttl");
    ("--value-json", StoreTrue "value_json")] ++ key_flags)
  [Argument "key" None; Argument "value" None].
(** [get], [delete], [contains] and [inspect] *)
Definition key_parser : parser := mkParser (help_options ++ key_flags) [Argument "key" None].
Definition dump_parser : parser := mkParser
  (help_options ++ [("--limit", Store "limit" IntType None VNone)]) [].
(** [clear] and [stats] *)
Definition bare_parser : parser := mkParser help_options [].

Definition patterns : list string := ["uniform"; "zipfian"; "hotspot"; "sequential"; "looping"; "mixed"].
Definition simulate_parser : parser := mkParser
  (help_options ++ [
    ("--policy", Store "policy" StrType (Some policy_choices) (VStr "lru"));
    ("--pattern", Store "pattern" StrType (Some patterns) (VStr "hotspot"));
    ("--capacity", Store "capacity" IntType None (VInt 100));
    ("--requests", Store "requests" IntType None (VInt 10000));
    ("--seed", Store "seed" IntType None (VInt 1));
    ("--shards", Store "shards" IntType None (VInt 1))]) [].
Definition benchmark_parser : parser := mkParser
  (help_options ++ [
    ("--policies", Store "policies" StrType None (VStr "lru,lfu,fifo"));
    ("--pattern", Store "pattern" StrType (Some patterns) (VStr "looping"));
    ("--capacity", Store "capacity" IntType None (VInt 100));
    ("--requests", Store "requests" IntType None (VInt 50000));
    ("--seed", Store "seed" IntType None (VInt 1));
    ("--shards", Store "shards" IntType None (VInt 1))]) [].
Definition demo_choices : list string := [
  "ttl-lazy"; "ttl-active"; "single-flight"; "sharding"; "worker-queue"; "backpressure";
  "write-through-vs-write-back"; "write-back-retry"; "unsafe-race"; "unsafe-single-flight";
  "unsafe-write-back-resurrection"; "wall-clock-ttl-bug"; "all"].
Definition demo_parser : parser := mkParser help_options [Argument "name" (Some demo_choices)].

Definition subcommands : list (string * parser) := [
  ("put", put_parser); ("get", key_parser); ("delete", key_parser); ("contains", key_parser);
  ("inspect", key_parser); ("dump", dump_parser); ("clear", bare_parser); ("stats", bare_parser);
  ("simulate", simulate_parser); ("benchmark", benchmark_parser); ("demo", demo_parser)].

(** [build_parser().parse_args(argv)] *)
Definition cli_parse (float_of_str : string → option float) (argv : list string) : parsed namespace :=
  parse_args float_of_str main_parser subcommands argv.

(** ** Reading the namespace *)

Definition BASIC_COMMANDS : list string :=
  ["put"; "get"; "delete"; "contains"; "inspect"; "dump"; "clear"; "stats"].

Section reading.
Context (path_of : string → path).
Implicit Types ns : namespace.

Definition ns_str ns (dest : string) : option string :=
  match dict_get ns dest with Some (VStr s) => Some s | _ => None end.
Definition ns_int ns (dest : string) : option Z :=
  match dict_get ns dest with Some (VInt z) => Some z | _ => None end.
Definition ns_flag ns (dest : string) : option bool :=
  match dict_get ns dest with Some (VBool b) => Some b | _ => None end.
(** Arguments whose default is [None]. *)
Definition ns_opt_str ns (dest : string) : option (option string) :=
  match dict_get ns dest with Some VNone => Some None | _ => Some <$> ns_str ns dest end.
Definition ns_opt_int ns (dest : string) : option (option Z) :=
  match dict_get ns dest with Some VNone => Some None | _ => Some <$> ns_int ns dest end.
Definition ns_opt_float ns (dest : string) : option (option float) :=
  match dict_get ns dest with
  | Some VNone => Some None
  | Some (VFloat f) => Some (Some f)
  | _ => None
  end.

Definition read_command ns (command : string) : option Command :=
  if String.eqb command "put" then
    key ← ns_str ns "key"; value ← ns_str ns "value"; ttl ← ns_opt_float ns "ttl";
    no_ttl ← ns_flag ns "no_ttl"; key_json ← ns_flag ns "key_json"; value_json ← ns_flag ns "value_json";
    Some (CmdPut key value ttl no_ttl key_json value_json)
  else if String.eqb command "get" then
    key ← ns_str ns "key"; key_json ← ns_flag ns "key_json"; Some (CmdGet key key_json)
  else if String.eqb command "delete" then
    key ← ns_str ns "key"; key_json ← ns_flag ns "key_json"; Some (CmdDelete key key_json)
  else if String.eqb command "contains" then
    key ← ns_str ns "key"; key_json ← ns_flag ns "key_json"; Some (CmdContains key key_json)
  else if String.eqb command "inspect" then
    key ← ns_str ns "key"; key_json ← ns_flag ns "key_json"; Some (CmdInspect key key_json)
  else if String.eqb command "dump" then limit ← ns_opt_int ns "limit"; Some (CmdDump limit)
  else if String.eqb command "clear" then Some CmdClear
  else if String.eqb command "stats" then Some CmdStats
  else None.

Definition read_args ns (command : string) : option Args :=
  capacity ← ns_int ns "capacity";
  policy ← ns_str ns "policy";
  shards ← ns_int ns "shards";
  default_ttl ← ns_opt_float ns "default_ttl";
  state ← ns_str ns "state";
  config ← ns_opt_str ns "config";
  cmd ← read_command ns command;
  Some (mkArgs capacity policy shards default_ttl (path_of state) config cmd).

(** What [_dispatch] calls. *)
Inductive invocation : Type :=
  | Basic (a : Args)
  | Simulate (policy pattern : string) (capacity requests seed shards : Z)
  | Benchmark (policies pattern : string) (capacity requests seed shards : Z)
  | Demo (name : string)
  | Unknown (command : string).

Definition read_invocation ns : option invocation :=
  command ← ns_str ns "command";
  if str_in command BASIC_COMMANDS then Basic <$> read_args ns command
  else if String.eqb command "simulate" then
    policy ← ns_str ns "policy"; pattern ← ns_str ns "pattern"; capacity ← ns_int ns "capacity";
    requests ← ns_int ns "requests"; seed ← ns_int ns "seed"; shards ← ns_int ns "shards";
    Some (Simulate policy pattern capacity requests seed shards)
  else if String.eqb command "benchmark" then
    policies ← ns_str ns "policies"; pattern ← ns_str ns "pattern"; capacity ← ns_int ns "capacity";
    requests ← ns_int ns "requests"; seed ← ns_int ns "seed"; shards ← ns_int ns "shards";
    Some (Benchmark policies pattern capacity requests seed shards)
  else if String.eqb command "demo" then Demo <$> ns_str ns "name"
  else Some (Unknown command).
End reading.

(** ** [main] *)

Section main.
Context `{KeyHash typed_key} {G : Type} `{Random G} `{KeyHash string}.
Context (float_repr : float → string) (str_repr : string → string).
Context (float_of_str : string → option float) (json_loads : string → option pyval).
Context (from_file : string → result CacheConfig) (path_of : string → path).
Context (get_time put_time : Z → float) (elapsed : list float) (demo_envs : string → DemoEnv).
(** [str(exc)] *)
Context (exn_str : exn → string).
Local Abbreviation MW := (M World).

Fixpoint print_all (lines : list string) : MW unit :=
  match lines with [] => mret tt | line :: lines' => print_out line ;; print_all lines' end.

(** [_dispatch]; [pauses] is what other processes do while this one waits for the state lock, and
    [None] the result of a process that still waits. *)
Definition dispatch (inv : invocation) (pauses : list (World → World)) : MW (option Z) :=
  match inv with
  | Basic a => run_basic float_repr str_repr float_of_str json_loads from_file a pauses
  | Simulate policy pattern capacity requests seed shards =>
      table ← lift (run_simulate get_time put_time float_repr policy pattern capacity requests seed shards);
      print_out table ;; mret (Some 0)
  | Benchmark policies pattern capacity requests seed shards =>
      table ← lift (run_benchmark get_time put_time float_repr policies elapsed pattern capacity requests
                      seed shards);
      print_out table ;; mret (Some 0)
  | Demo name =>
      let '(lines, r) := run_demo float_repr str_repr get_time put_time demo_envs name in
      print_all lines ;; lift r ;; mret (Some 0)
  | Unknown command => raise (ValueError ("unknown command: " +:+ command))
  end.

(** [main(argv)]: the exit code.  [SystemExit] of the parser is its code. *)
Definition main (argv : list string) (pauses : list (World → World)) : option (MW (option Z)) :=
  match cli_parse float_of_str argv with
  | Exits code => Some (mret (Some code))
  | Parsed ns =>
      inv ← read_invocation path_of ns;
      Some (try_except (dispatch inv pauses)
              (λ exc, print_err ("cachelab: error: " +:+ exn_str exc) ;; mret (Some 1)))
  end.
End main.

(** ** Lemmas *)

Section typed.
Context (float_of_str : string → option float) (path_of : string → path).
Implicit Types ns : namespace.
Local Abbreviation typed := (action_typed float_of_str).

Lemma read_int ns d ch z : typed ns (Store d IntType ch (VInt z)) → ∃ z, ns_int ns d = Some z.
Proof.
  intros (v & Hv & [->|(s & Hs & _)]); unfold ns_int; rewrite Hv; [by eexists|].
  simpl in Hs. apply fmap_Some in Hs as (x & _ & ->). by eexists.
Qed.
Lemma read_opt_int ns d ch : typed ns (Store d IntType ch VNone) → ∃ o, ns_opt_int ns d = Some o.
Proof.
  intros (v & Hv & [->|(s & Hs & _)]); unfold ns_opt_int, ns_int; rewrite Hv; [by eexists|].
  simpl in Hs. apply fmap_Some in Hs as (x & _ & ->). by eexists.
Qed.
Lemma read_str ns d ch s0 :
  allowed_choice ch (VStr s0) = true → typed ns (Store d StrType ch (VStr s0)) →
  ∃ s, ns_str ns d = Some s ∧ allowed_choice ch (VStr s) = true.
Proof.
  intros H0 (v & Hv & [->|(s & [= <-] & Hc)]); unfold ns_str; rewrite Hv; by eexists.
Qed.
Lemma read_opt_str ns d ch : typed ns (Store d StrType ch VNone) → ∃ o, ns_opt_str ns d = Some o.
Proof.
  intros (v & Hv & [->|(s & [= <-] & _)]); unfold ns_opt_str, ns_str; rewrite Hv; by eexists.
Qed.
Lemma read_opt_float ns d ch : typed ns (Store d FloatType ch VNone) → ∃ o, ns_opt_float ns d = Some o.
Proof.
  intros (v & Hv & [->|(s & Hs & _)]); unfold ns_opt_float; rewrite Hv; [by eexists|].
  simpl in Hs. apply fmap_Some in Hs as (x & _ & ->). by eexists.
Qed.
Lemma read_flag ns d : typed ns (StoreTrue d) → ∃ b, ns_flag ns d = Some b.
Proof. intros (b & Hb). unfold ns_flag. rewrite Hb. by eexists. Qed.
Lemma read_argument ns d ch :
  positional_typed ns (Argument d ch) → ∃ s, ns_str ns d = Some s ∧ allowed_choice ch (VStr s) = true.
Proof. intros (s & Hs & Hc). unfold ns_str. rewrite Hs. by eexists. Qed.

(** What an invocation may ask for. *)
Definition invocation_known (inv : invocation) : Prop :=
  match inv with
  | Basic a => a_policy a ∈ policy_choices
  | Simulate policy pattern _ _ _ _ => policy ∈ policy_choices ∧ pattern ∈ patterns
  | Benchmark _ pattern _ _ _ _ => pattern ∈ patterns
  | Demo name => name ∈ demo_choices
  | Unknown _ => False
  end.

Lemma subcommands_distinct name q :
  (name, q) ∈ subcommands → distinct_dests q ∧ "command" ∉ dict_keys (defaults q).
Proof.
  intros Hin. repeat (apply elem_of_cons in Hin as [[= -> ->]|Hin];
    [split; apply (bool_decide_unpack _); vm_compute; exact I|]). by apply not_elem_of_nil in Hin.
Qed.

(** Membership in the options of a parser. *)
Local Ltac in_options :=
  cbn [p_options p_positionals main_parser put_parser key_parser dump_parser simulate_parser benchmark_parser
       demo_parser help_options key_flags app];
  repeat first [apply list_elem_of_here | apply list_elem_of_further].

(** The arguments of the command itself, for a subcommand that has none of their names. *)
Lemma read_main ns q :
  (∀ o a k, (o, a) ∈ p_options main_parser → action_dest a = Some k → k ∉ dict_keys (defaults q) → typed ns a) →
  Forall (λ k, k ∉ dict_keys (defaults q)) ["capacity"; "policy"; "shards"; "default_ttl"; "state"; "config"] →
  ∀ command cmd, read_command ns command = Some cmd →
  ∃ a, read_args path_of ns command = Some a ∧ a_policy a ∈ policy_choices.
Proof.
  intros Hm Hk command cmd Hc. rewrite !Forall_cons in Hk. destruct Hk as (H1 & H2 & H3 & H4 & H5 & H6 & _).
  destruct (read_int ns "capacity" None 128) as [z Ez]; [eapply (Hm "--capacity"); [in_options|done..]|].
  destruct (read_str ns "policy" (Some policy_choices) "lru" eq_refl) as (pol & Ep & Hp);
    [eapply (Hm "--policy"); [in_options|done..]|].
  destruct (read_int ns "shards" None 1) as [n En]; [eapply (Hm "--shards"); [in_options|done..]|].
  destruct (read_opt_float ns "default_ttl" None) as [t Et]; [eapply (Hm "--default-ttl"); [in_options|done..]|].
  destruct (read_str ns "state" None ".cachelab_state.json" eq_refl) as (st & Est & _);
    [eapply (Hm "--state"); [in_options|done..]|].
  destruct (read_opt_str ns "config" None) as [c Ec]; [eapply (Hm "--config"); [in_options|done..]|].
  unfold read_args. rewrite Ez, Ep, En, Et, Est, Ec, Hc. eexists. split; [done|]. simpl.
  by apply str_in_spec.
Qed.

(** A key argument with its flag. *)
Lemma read_key ns q :
  (∀ o a, (o, a) ∈ p_options q → typed ns a) → (∀ x, x ∈ p_positionals q → positional_typed ns x) →
  ("--key-json", StoreTrue "key_json") ∈ p_options q → Argument "key" None ∈ p_positionals q →
  ∃ key b, ns_str ns "key" = Some key ∧ ns_flag ns "key_json" = Some b.
Proof.
  intros Ho Hx H1 H2. destruct (read_argument ns "key" None (Hx _ H2)) as (key & Ek & _).
  destruct (read_flag ns "key_json" (Ho _ _ H1)) as [b Eb]. eauto.
Qed.

(** The arguments of a workload command. *)
Lemma read_workload ns q pattern n0 :
  (∀ o a, (o, a) ∈ p_options q → typed ns a) → pattern ∈ patterns →
  ("--pattern", Store "pattern" StrType (Some patterns) (VStr pattern)) ∈ p_options q →
  ("--capacity", Store "capacity" IntType None (VInt 100)) ∈ p_options q →
  ("--requests", Store "requests" IntType None (VInt n0)) ∈ p_options q →
  ("--seed", Store "seed" IntType None (VInt 1)) ∈ p_options q →
  ("--shards", Store "shards" IntType None (VInt 1)) ∈ p_options q →
  ∃ pat c r s n, ns_str ns "pattern" = Some pat ∧ pat ∈ patterns ∧ ns_int ns "capacity" = Some c ∧
    ns_int ns "requests" = Some r ∧ ns_int ns "seed" = Some s ∧ ns_int ns "shards" = Some n.
Proof.
  intros Ho Hp H1 H2 H3 H4 H5.
  destruct (read_str ns "pattern" (Some patterns) pattern) as (pat & E1 & Hpat); [by apply str_in_spec|by eapply Ho|].
  destruct (read_int ns "capacity" None 100) as [c E2]; [by eapply Ho|].
  destruct (read_int ns "requests" None n0) as [r E3]; [by eapply Ho|].
  destruct (read_int ns "seed" None 1) as [s E4]; [by eapply Ho|].
  destruct (read_int ns "shards" None 1) as [n E5]; [by eapply Ho|].
  exists pat, c, r, s, n. split_conj; try done. by apply str_in_spec.
Qed.

Local Ltac basic_key :=
  match goal with
  | Ho : ∀ o a, (o, a) ∈ p_options key_parser → _, Hx : ∀ x, x ∈ p_positionals key_parser → _,
    Hbasic : ∀ cmd, read_command ?ns _ = _ → _ |- _ =>
      let E1 := fresh in let E2 := fresh in
      destruct (read_key ns key_parser Ho Hx) as (key & b & E1 & E2); [in_options..|];
      eapply Hbasic; [unfold read_command; cbn; by rewrite E1, E2|by apply (bool_decide_unpack _)]
  end.

Lemma read_parsed argv ns :
  Forall plain_arg argv → cli_parse float_of_str argv = Parsed ns →
  ∃ inv, read_invocation path_of ns = Some inv ∧ invocation_known inv.
Proof.
  intros Ha H. apply (parse_args_inv float_of_str main_parser subcommands "command") in H
    as (name & q & Hin & Hn & Ho & Hx & Hm); [|apply (bool_decide_unpack _); vm_compute; exact I|done
    |apply subcommands_distinct|done].
  unfold read_invocation. assert (ns_str ns "command" = Some name) as -> by (unfold ns_str; by rewrite Hn).
  cbn [mbind option_bind].
  assert (∀ cmd, read_command ns name = Some cmd →
    Forall (λ k, k ∉ dict_keys (defaults q)) ["capacity"; "policy"; "shards"; "default_ttl"; "state"; "config"] →
    ∃ inv, Basic <$> read_args path_of ns name = Some inv ∧ invocation_known inv) as Hbasic.
  { intros cmd Hc Hk. destruct (read_main ns q Hm Hk name cmd Hc) as (a & -> & Hp). by exists (Basic a). }
  unfold subcommands in Hin.
  repeat (apply elem_of_cons in Hin as [[= -> ->]|Hin]); [..|by apply not_elem_of_nil in Hin].
  - destruct (read_key ns put_parser Ho Hx) as (key & b & E1 & E2); [in_options..|].
    destruct (read_argument ns "value" None) as (value & E3 & _); [apply Hx; in_options|].
    destruct (read_opt_float ns "ttl" None) as [t E4]; [apply (Ho "--ttl"); in_options|].
    destruct (read_flag ns "no_ttl") as [b1 E5]; [apply (Ho "--no-ttl"); in_options|].
    destruct (read_flag ns "value_json") as [b2 E6]; [apply (Ho "--value-json"); in_options|].
    eapply Hbasic; [|by apply (bool_decide_unpack _)]. unfold read_command. cbn.
    by rewrite E1, E3, E4, E5, E2, E6.
  - basic_key.
  - basic_key.
  - basic_key.
  - basic_key.
  - destruct (read_opt_int ns "limit" None) as [l E]; [apply (Ho "--limit"); in_options|].
    eapply Hbasic; [|by apply (bool_decide_unpack _)]. unfold read_command. cbn. by rewrite E.
  - by eapply Hbasic; [|by apply (bool_decide_unpack _)].
  - by eapply Hbasic; [|by apply (bool_decide_unpack _)].
  - destruct (read_workload ns simulate_parser "hotspot" 10000 Ho) as (pat & c & r & sd & n & E1 & Hp & E2 & E3 & E4 & E5);
      [by apply (bool_decide_unpack _)|in_options..|].
    destruct (read_str ns "policy" (Some policy_choices) "lru" eq_refl) as (pol & E & Hpol); [apply (Ho "--policy"); in_options|].
    exists (Simulate pol pat c r sd n). cbn. rewrite E, E1, E2, E3, E4, E5. split_conj; [done| |done].
    by apply str_in_spec.
  - destruct (read_workload ns benchmark_parser "looping" 50000 Ho) as (pat & c & r & sd & n & E1 & Hp & E2 & E3 & E4 & E5);
      [by apply (bool_decide_unpack _)|in_options..|].
    destruct (read_str ns "policies" None "lru,lfu,fifo" eq_refl) as (pol & E & _); [apply (Ho "--policies"); in_options|].
    exists (Benchmark pol pat c r sd n). cbn. by rewrite E, E1, E2, E3, E4, E5.
  - destruct (read_argument ns "name" (Some demo_choices)) as (dn & E & Hdn); [apply Hx; in_options|].
    exists (Demo dn). cbn. rewrite E. split; [done|]. by apply str_in_spec.
Qed.
End typed.

(** A sequence that returns, seen from its last part. *)
Lemma bind_ok_inv {S A B} (m : M S A) (f : A → M S B) s s' b :
  (m ≫= f) s = (s', Ok b) → ∃ a s1, f a s1 = (s', Ok b).
Proof. rewrite run_bind. destruct (m s) as [s1 [a|e]]; [eauto|done]. Qed.

(** A basic command that ends without an exception returns 0. *)
Lemma run_basic_code `{KeyHash typed_key} float_repr str_repr float_of_str json_loads from_file a pauses w w' z :
  run_basic float_repr str_repr float_of_str json_loads from_file a pauses w = (w', Ok z) → z = Some 0 ∨ z = None.
Proof.
  unfold run_basic, with_state_lock. rewrite run_bind.
  destruct (lock_enter _ _ w) as [w1 [[[]|]|e]]; [|intros [= _ <-]; by right|done].
  rewrite run_bind. unfold attempt.
  destruct (run_locked float_repr str_repr float_of_str json_loads from_file a w1) as [w2 r2] eqn:Er.
  rewrite run_bind. destruct (lock_exit _ w2) as [w3 []]; [|done]. rewrite run_bind. unfold lift.
  destruct r2 as [z'|]; [|done]. intros [= _ <-]. left. unfold run_locked in Er.
  apply bind_ok_inv in Er as (c & w4 & Er). apply bind_ok_inv in Er as (k & w5 & Er).
  apply bind_ok_inv in Er as (u & w6 & Er). by injection Er as _ <-.
Qed.

Lemma print_err_run line w :
  print_err line w = (if w_alive w then set_output (w_stdout w) (w_stderr w ++ [line]) w else w, Ok tt).
Proof. done. Qed.

Lemma patterns_known {G} `{Random G} pattern capacity :
  pattern ∈ patterns → is_Some (pattern_key (G:=G) pattern capacity).
Proof.
  intros Hp. unfold patterns in Hp. repeat (apply elem_of_cons in Hp as [->|Hp]; [by eexists|]).
  by apply not_elem_of_nil in Hp.
Qed.

Lemma demo_choices_known name : name ∈ demo_choices → name = "all" ∨ name ∈ ALL_DEMOS.
Proof.
  intros Hn. assert (Forall (λ n, n = "all" ∨ n ∈ ALL_DEMOS) demo_choices) as Hf by by apply (bool_decide_unpack _).
  by rewrite Forall_forall in Hf; apply Hf.
Qed.

(** An argument that asks for help or the version: up to an equals sign it begins with [-h], or it abbreviates [--help] or [--version]. *)
Definition before_equals (s : string) : string := match split_equals s with Some (o, _) => o | None => s end.
Definition info_prefix (o : string) : bool :=
  String.prefix "-h" o || String.prefix "--" o && (String.prefix o "--help" || String.prefix o "--version").
Definition asks_info (s : string) : bool := info_prefix (before_equals s).

(** The plain requests for them. *)
Definition info_lines : list (list string) :=
  [["-h"]; ["--help"]; ["--version"]]
  ++ ((λ sub : string * parser, [sub.1; "-h"]) <$> subcommands) ++ ((λ sub : string * parser, [sub.1; "--help"]) <$> subcommands).

Lemma info_lines_exit float_of_str argv : argv ∈ info_lines → cli_parse float_of_str argv = Exits 0.
Proof.
  intros Hin. assert (Forall (λ l, cli_parse float_of_str l = Exits 0) info_lines) as Hf
    by (repeat constructor; vm_compute; reflexivity).
  rewrite Forall_forall in Hf. by apply Hf.
Qed.

(** The options that show something, or are flags of one letter, are these. *)
Definition info_names : list string := ["-h"; "--help"; "--version"].
Definition shows_names (q : parser) : bool :=
  forallb (λ oa : string * action,
    negb (shows oa.2 || negb (takes_one oa.2) && single_dash oa.1) || bool_decide (oa.1 ∈ info_names)) (p_options q).
Lemma parsers_show q : q = main_parser ∨ (∃ name, (name, q) ∈ subcommands) → shows_names q = true.
Proof.
  intros [->|[name Hin]]; [by vm_compute|].
  assert (Forall (λ sub : string * parser, shows_names sub.2 = true) subcommands) as Hf by (repeat constructor; by vm_compute).
  rewrite Forall_forall in Hf. exact (Hf (name, q) Hin).
Qed.
Lemma shows_names_in q a o : shows_names q = true → (o, a) ∈ p_options q → shows_by a o → o ∈ info_names.
Proof.
  intros Hq Hin Hs. unfold shows_names in Hq. rewrite forallb_forall in Hq.
  specialize (Hq (o, a) ltac:(by apply list_elem_of_In)). simpl in Hq. apply orb_true_iff in Hq as [Hn|Hd]; [|by apply bool_decide_eq_true in Hd].
  exfalso. destruct Hs as [Hs|[Ht Hs]]; [by rewrite Hs in Hn|]. rewrite Ht, Hs in Hn. by destruct (shows a).
Qed.

Lemma before_equals_two c1 c2 s :
  Ascii.eqb c1 "=" = false → Ascii.eqb c2 "=" = false → ∃ t, before_equals (String c1 (String c2 s)) = String c1 (String c2 t).
Proof.
  intros H1 H2. unfold before_equals. simpl. rewrite H1, H2.
  destruct (split_equals s) as [[]|]; by eexists.
Qed.

(** An option that stands for one of them was written so. *)
Lemma info_name_prefix o : o ∈ info_names → info_prefix o = true.
Proof. intros Hin. repeat (apply elem_of_cons in Hin as [->|Hin]; [done|]). by apply not_elem_of_nil in Hin. Qed.
Lemma prefix_cons a b s t : String.prefix (String a s) (String b t) = Ascii.eqb a b && String.prefix s t.
Proof. cbn [String.prefix]. destruct (ascii_dec a b), (Ascii.eqb_spec a b); congruence || done. Qed.
Lemma prefix_empty s : String.prefix "" s = true.
Proof. by destruct s. Qed.
Lemma prefix_end a s : String.prefix (String a s) "" = false.
Proof. done. Qed.
Lemma tuples_ask options s a o e :
  (a, o, e) ∈ option_tuples options s → String.prefix "-" s = true → o ∈ info_names → asks_info s = true.
Proof.
  unfold option_tuples, asks_info. intros Hin Hd Ho.
  destruct s as [|c1 [|c2 s]]; [done|rewrite prefix_cons, prefix_end, andb_false_r in Hin; by apply not_elem_of_nil in Hin|].
  rewrite prefix_cons, prefix_empty, andb_true_r in Hd. apply Ascii.eqb_eq in Hd as <-.
  rewrite !prefix_cons, prefix_empty, Ascii.eqb_refl, andb_true_r, andb_true_l in Hin.
  destruct (Ascii.eqb_spec "-" c2) as [<-|Hc2].
  - destruct (before_equals_two "-" "-" s eq_refl eq_refl) as [t Ht].
    assert (String.prefix (String "-" (String "-" t)) o = true) as Hx.
    { rewrite <- Ht. unfold before_equals. destruct (split_equals _) as [[o' e']|];
        apply list_elem_of_omap in Hin as ([o1 a1] & _ & Hin); cbn [fst snd] in Hin;
        case_match; by simplify_eq. }
    rewrite Ht. unfold info_prefix.
    assert (String.prefix "--" (String "-" (String "-" t)) = true) as -> by by rewrite !prefix_cons, prefix_empty.
    apply elem_of_cons in Ho as [->|Ho]; [by rewrite !prefix_cons in Hx|].
    apply elem_of_cons in Ho as [->|Ho]; [by rewrite Hx, orb_true_r|].
    apply list_elem_of_singleton in Ho as ->. by rewrite Hx, !orb_true_r.
  - apply list_elem_of_omap in Hin as ([o1 a1] & _ & Hin). cbn [fst snd] in Hin.
    assert (c2 = "h"%char) as ->.
    { destruct (String.eqb_spec o1 (String "-" (String c2 ""))) as [->|Hne].
      - injection Hin as -> <- <-. apply elem_of_cons in Ho as [[= ->]|Ho]; [done|]. set_solver.
      - destruct (String.prefix _ o1) eqn:Ex; [|done]. injection Hin as -> <- <-.
        assert (∀ t, String.prefix (String "-" (String c2 s)) (String "-" (String "-" t)) ≠ true) as Hno.
        { intros t. rewrite !prefix_cons. destruct (Ascii.eqb_spec c2 "-"); [by subst|done]. }
        apply elem_of_cons in Ho as [->|Ho]; [|exfalso; apply elem_of_cons in Ho as [->|Ho]; [by eapply Hno|];
          apply list_elem_of_singleton in Ho as ->; by eapply Hno].
        rewrite !prefix_cons in Ex. destruct (Ascii.eqb_spec c2 "h"); done. }
    destruct (before_equals_two "-" "h" s eq_refl eq_refl) as [t ->]. unfold info_prefix.
    by rewrite !prefix_cons, prefix_empty.
Qed.
Lemma option_tuples_in options s a o e : (a, o, e) ∈ option_tuples options s → (o, a) ∈ options.
Proof.
  unfold option_tuples. destruct (String.prefix "--" s).
  - destruct (split_equals s) as [[]|]; intros ([o' a'] & Hin & Ho)%list_elem_of_omap; case_match; by simplify_eq/=.
  - destruct s as [|c1 [|c2 rest]]; [by intros ?%not_elem_of_nil..|].
    intros ([o' a'] & Hin & Ho)%list_elem_of_omap. repeat case_match; by simplify_eq/=.
Qed.
Lemma option_asks q s a o e :
  (∀ a o, (o, a) ∈ p_options q → shows_by a o → o ∈ info_names) →
  parse_optional (p_options q) s = Parsed (KOpt (Some (a, o)) e) → shows_by a o → asks_info s = true.
Proof.
  intros Hq. unfold parse_optional. destruct (String.prefix "-" s) eqn:Hdash; [|done]. cbn [negb].
  destruct (dict_get (p_options q) s) as [a'|] eqn:Es.
  { intros [= -> <- <-] Hs. apply dict_get_elem in Es. specialize (Hq a s Es Hs).
    repeat (apply elem_of_cons in Hq as [->|Hq]; [done|]). by apply not_elem_of_nil in Hq. }
  destruct (String.eqb s "-"); [done|].
  destruct (split_equals s) as [[o' e']|] eqn:Esp.
  1: destruct (dict_get (p_options q) o') as [a'|] eqn:Eo.
  { intros [= -> <- <-] Hs. apply dict_get_elem in Eo. unfold asks_info, before_equals. rewrite Esp.
    by eapply info_name_prefix, Hq. }
  all: destruct (option_tuples (p_options q) s) as [|[[a1 o1] e1] [|]] eqn:Et; [by destruct (_ || _)| |done].
  all: intros [= -> -> <-] Hs; assert ((a, o, e1) ∈ option_tuples (p_options q) s) as Hin by (rewrite Et; set_solver).
  all: eapply tuples_ask; [exact Hin|done|]; apply (Hq a); [|done].
  all: by eapply option_tuples_in.
Qed.

Lemma cli_parse_exits float_of_str argv code :
  cli_parse float_of_str argv = Exits code → code = 2 ∨ code = 0 ∧ ∃ s, s ∈ argv ∧ asks_info s = true.
Proof.
  intros E. refine (parse_args_exits (∃ s, s ∈ argv ∧ asks_info s = true) (λ s, s ∈ argv)
    float_of_str main_parser subcommands argv _ _ code E); [|by apply Forall_forall].
  intros q s a o e Hq Hs Hp Hsh. exists s. split; [done|]. eapply (option_asks q); [|done|done].
  intros a' o'. apply shows_names_in, parsers_show, Hq.
Qed.

(** ** Properties *)

Section properties.
Context `{KeyHash typed_key} {G : Type} `{Random G} `{KeyHash string}.
Context (float_repr : float → string) (str_repr : string → string).
Context (float_of_str : string → option float) (json_loads : string → option pyval).
Context (from_file : string → result CacheConfig) (path_of : string → path).
Context (get_time put_time : Z → float) (elapsed : list float) (demo_envs : string → DemoEnv).
Context (exn_str : exn → string).
Local Abbreviation run_dispatch :=
  (dispatch float_repr str_repr float_of_str json_loads from_file get_time put_time elapsed demo_envs).
Local Abbreviation run_main :=
  (main float_repr str_repr float_of_str json_loads from_file path_of get_time put_time elapsed demo_envs exn_str).

Lemma dispatch_code inv pauses w w' z :
  run_dispatch inv pauses w = (w', Ok z) → z = Some 0 ∨ z = None.
Proof.
  destruct inv as [a|policy pattern capacity requests seed shards|policies pattern capacity requests seed shards|name|command];
    simpl; [apply run_basic_code| | | |done].
  - intros E. apply bind_ok_inv in E as (t & w1 & E). apply bind_ok_inv in E as (u & w2 & E).
    injection E as _ <-. by left.
  - intros E. apply bind_ok_inv in E as (t & w1 & E). apply bind_ok_inv in E as (u & w2 & E).
    injection E as _ <-. by left.
  - destruct (run_demo _ _ _ _ _ _) as [lines r]. intros E. apply bind_ok_inv in E as (u & w1 & E).
    apply bind_ok_inv in E as (v & w2 & E). injection E as _ <-. by left.
Qed.

(** C19: the parser and the handlers agree.  Whatever the arguments (none of them ending in [--]), a
    command line the parser accepts names a command that [_dispatch] knows, with all the
    arguments its handler reads and of the types it expects; a policy is one of the supported ones, a
    pattern one the workloads know, and a demo one that [run_demo] knows. *)
Theorem parsed_command_lines_are_handled (argv : list string) (ns : namespace) :
  Forall plain_arg argv → cli_parse float_of_str argv = Parsed ns →
  ∃ inv, read_invocation path_of ns = Some inv ∧
    match inv with
    | Basic a => a_policy a ∈ SUPPORTED_POLICIES
    | Simulate policy pattern capacity _ _ _ =>
        policy ∈ SUPPORTED_POLICIES ∧ is_Some (pattern_key (G:=G) pattern capacity)
    | Benchmark _ pattern capacity _ _ _ => is_Some (pattern_key (G:=G) pattern capacity)
    | Demo name => name = "all" ∨ ∃ lines, dict_get (DEMOS float_repr str_repr (demo_envs name)) name = Some lines
    | Unknown _ => False
    end.
Proof.
  intros Ha Hp. destruct (read_parsed float_of_str path_of argv ns Ha Hp) as (inv & Hr & Hk).
  exists inv. split; [done|].
  destruct inv as [a|policy pattern capacity requests seed shards|policies pattern capacity requests seed shards|name|command];
    simpl in Hk; [done|destruct Hk; split; [done|by apply patterns_known]|by apply patterns_known| |done].
  destruct (demo_choices_known name Hk) as [->|Hn]; [by left|right]. by apply all_demos_known.
Qed.

(** C20: exit codes.  For arguments none of which ends in [--], [main] always ends with a code, never with
    an exception (or the process still waits for the state lock, or was killed).  A command line the parser does not accept ends with 2 and touches no file, unless
    one of its arguments asks for help or the version ([asks_info]), when it may end with 0; and the plain requests for them, alone or after a command, do end with 0.
    When the parser accepts the command line, the code is 0 when the handler returned, and 1 when it raised, whatever it raised, and
    then the last line of the error output is the error and the handler's effects are all there are. *)
Theorem main_exit_codes (argv : list string) (pauses : list (World → World)) (w : World) :
  Forall plain_arg argv →
  ∃ m, run_main argv pauses = Some m ∧
    (argv ∈ info_lines → m w = (w, Ok (Some 0))) ∧
    match cli_parse float_of_str argv with
    | Exits code =>
        m w = (w, Ok (Some code)) ∧ (code = 2 ∨ code = 0 ∧ ∃ s, s ∈ argv ∧ asks_info s = true)
    | Parsed ns =>
        ∃ inv, read_invocation path_of ns = Some inv ∧
          match run_dispatch inv pauses w with
          | (w1, Ok z) => (z = Some 0 ∨ z = None) ∧ m w = (w1, Ok z)
          | (w1, Raise e) =>
              ∃ w', m w = (w', Ok (Some 1)) ∧ w_files w' = w_files w1 ∧ w_stdout w' = w_stdout w1 ∧
                (w_alive w1 = true → w_stderr w' = w_stderr w1 ++ ["cachelab: error: " +:+ exn_str e])
          end
    end.
Proof.
  intros Ha. unfold main. pose proof (info_lines_exit float_of_str argv) as Hinfo.
  destruct (cli_parse float_of_str argv) as [ns|code] eqn:Ep.
  - destruct (read_parsed float_of_str path_of argv ns Ha Ep) as (inv & Hr & _). rewrite Hr. cbn [mbind option_bind].
    eexists. split; [done|]. split; [intros Hi; by specialize (Hinfo Hi)|]. exists inv. split; [done|]. unfold try_except.
    destruct (run_dispatch inv pauses w) as [w1 [z|e]] eqn:E; [split; [by eapply dispatch_code|done]|].
    rewrite run_bind, print_err_run. eexists. split; [reflexivity|]. by destruct (w_alive w1).
  - eexists. split; [done|]. split; [intros Hi; by injection (Hinfo Hi) as ->|]. split; [done|].
    by eapply cli_parse_exits.
Qed.
End properties.

(** ** Concrete command lines *)

#[local] Instance text_hash : KeyHash typed_key := λ k,
  match k with TStr s => Z.of_nat (String.length s) | _ => 0 end.
#[local] Instance word_hash : KeyHash string := λ s, Z.of_nat (String.length s).
(** A generator that always draws the least number. *)
#[local] Instance least : Random Z := {| rng_seed seed := seed; randbelow _ g := (g, 0); rng_random g := (g, fzero) |}.

(** [float] of whole numbers. *)
Definition whole_float (s : string) : option float := float_of_Z <$> int_of_str s.
Definition here (s : string) : path := ("", s).
Definition quiet_main : list string → list (World → World) → option (M World (option Z)) :=
  main (G:=Z) (λ _, "0.0") (λ s, s) whole_float (λ _, None) (λ _, Raise (OSError "open")) here (λ _, fzero) (λ _, fzero)
    [fzero; fzero; fzero] (λ _, fair_env) (λ _, "failed").
Definition fresh_world : World :=
  mkWorld [] (float_of_Z 1000) fzero (repeat (float_of_Z 1) 30) [] true "x" [] [] false.

Lemma parsed_command_lines_are_handled_witness :
  ∃ ns inv,
    cli_parse whole_float ["--cap=2"; "put"; "-1"; "v"; "--ttl"; "5"] = Parsed ns ∧
    read_invocation here ns = Some inv ∧
    inv = Basic (mkArgs 2 "lru" 1 None ("", ".cachelab_state.json") None
                   (CmdPut "-1" "v" (Some (float_of_Z 5)) false false false)) ∧
    match inv with Basic a => a_policy a ∈ SUPPORTED_POLICIES | _ => False end.
Proof.
  eexists. destruct (parsed_command_lines_are_handled (G:=Z) (λ _, "0.0") (λ s, s) whole_float here (λ _, fair_env)
    ["--cap=2"; "put"; "-1"; "v"; "--ttl"; "5"] _ ltac:(repeat constructor) ltac:(vm_compute; reflexivity))
    as (inv & Hinv & Hk).
  exists inv. split; [vm_compute; reflexivity|]. split; [exact Hinv|].
  vm_compute in Hinv. injection Hinv as <-. split; [reflexivity|exact Hk].
Defined.

Lemma main_exit_codes_witness :
  (∃ m, quiet_main ["get"] [] = Some m ∧ m fresh_world = (fresh_world, Ok (Some 2))) ∧
  (∃ m w, quiet_main ["simulate"; "--shards"; "0"] [] = Some m ∧ m fresh_world = (w, Ok (Some 1)) ∧
     w_files w = [] ∧ w_stdout w = [] ∧ w_stderr w = ["cachelab: error: failed"]).
Proof.
  split.
  - destruct (main_exit_codes (G:=Z) (λ _, "0.0") (λ s, s) whole_float (λ _, None) (λ _, Raise (OSError "open")) here
      (λ _, fzero) (λ _, fzero) [fzero; fzero; fzero] (λ _, fair_env) (λ _, "failed") ["get"] [] fresh_world
      ltac:(repeat constructor)) as (m & Hm & Hc).
    exists m. split; [exact Hm|].
    replace (cli_parse whole_float ["get"]) with (Exits (A:=namespace) 2) in Hc by (vm_compute; reflexivity). apply Hc.
  - eexists. eexists. split; [reflexivity|]. vm_compute. done.
Defined.

(** The command's own [--capacity], [--policy] and [--shards] have no effect on a workload: the defaults of the
    subparser overwrite them. *)
Lemma workload_ignores_global_options :
  (cli_parse whole_float ["--capacity"; "7"; "--policy"; "fifo"; "--shards"; "3"; "simulate"]
   = cli_parse whole_float ["simulate"]) ∧
  (cli_parse whole_float ["--capacity"; "7"; "--shards"; "3"; "benchmark"] = cli_parse whole_float ["benchmark"]).
Proof. vm_compute. done. Qed.
