(* ===== verification/CliRoundtrip.v ===== *)
(** Every basic command can be written as a command line that [main] reads back: options with their
    values after an equals sign, the positional arguments after the separator [--]. *)

From Stdlib Require Import ZArith SpecFloat Ascii.
From stdpp Require Import base tactics numbers option strings pretty sets list.
From S2P Require Import Prelude PyDict PyFloat PyMonad Config Json ConfigFile Tables Entry Files.
From S2P Require Import Storage Jobs Shard Cache CliBasic Workloads Argparse ArgparseSpec Demos CliMain.
Local Open Scope string_scope.
Local Open Scope list_scope.
Local Open Scope Z_scope.

(** ** Writing a command line *)

Definition opt_arg (option_string : string) (text : option string) : list string :=
  match text with Some t => [option_string +:+ "=" +:+ t] | None => [] end.
Definition flag_arg (option_string : string) (b : bool) : list string := if b then [option_string] else [].

(** The texts of the numbers, which only have to read back as the numbers. *)
Record texts : Type := mkTexts {
  tx_capacity : string;
  tx_shards : string;
  tx_default_ttl : option string;
  tx_ttl : option string;
  tx_limit : option string;
}.

Definition render_command (t : texts) (cmd : Command) : list string :=
  match cmd with
  | CmdPut key value _ no_ttl key_json value_json =>
      "put" :: opt_arg "--ttl" (tx_ttl t) ++ flag_arg "--no-ttl" no_ttl ++ flag_arg "--value-json" value_json
        ++ flag_arg "--key-json" key_json ++ ["--"; key; value]
  | CmdGet key key_json => "get" :: flag_arg "--key-json" key_json ++ ["--"; key]
  | CmdDelete key key_json => "delete" :: flag_arg "--key-json" key_json ++ ["--"; key]
  | CmdContains key key_json => "contains" :: flag_arg "--key-json" key_json ++ ["--"; key]
  | CmdInspect key key_json => "inspect" :: flag_arg "--key-json" key_json ++ ["--"; key]
  | CmdDump _ => "dump" :: opt_arg "--limit" (tx_limit t)
  | CmdClear => ["clear"]
  | CmdStats => ["stats"]
  end.
Definition render_options (t : texts) (policy state : string) (config : option string) : list string :=
  ["--capacity" +:+ "=" +:+ tx_capacity t; "--policy" +:+ "=" +:+ policy; "--shards" +:+ "=" +:+ tx_shards t]
  ++ opt_arg "--default-ttl" (tx_default_ttl t) ++ ["--state" +:+ "=" +:+ state] ++ opt_arg "--config" config.

(** ** Lemmas *)

Fixpoint has_equals (s : string) : bool :=
  match s with EmptyString => false | String c s' => Ascii.eqb c "=" || has_equals s' end.

Lemma has_equals_app s e : has_equals (s +:+ "=" +:+ e) = true.
Proof. induction s as [|c s IH]; simpl; [done|]. rewrite IH. apply orb_true_r. Qed.
Lemma split_equals_app s e : has_equals s = false → split_equals (s +:+ "=" +:+ e) = Some (s, e).
Proof.
  induction s as [|c s IH]; simpl; [done|]. intros [-> Hs]%orb_false_iff. by rewrite (IH Hs).
Qed.

Section options.
Context (options : list (string * action)).
Context (Hkeys : forallb (λ o, negb (has_equals o.1)) options = true).

Lemma no_equals_key s : has_equals s = true → dict_get options s = None.
Proof.
  intros Hs. destruct (dict_get options s) as [a|] eqn:E; [|done]. apply dict_get_elem in E.
  rewrite forallb_forall in Hkeys. apply list_elem_of_In, Hkeys in E. simpl in E. by rewrite Hs in E.
Qed.

(** An option with its value after an equals sign. *)
Lemma parse_explicit o a e :
  dict_get options o = Some a → has_equals o = false → String.prefix "-" (o +:+ "=" +:+ e) = true →
  parse_optional options (o +:+ "=" +:+ e) = Parsed (KOpt (Some (a, o)) (Some e)).
Proof.
  intros Ho He Hp. unfold parse_optional. rewrite Hp, (no_equals_key _ (has_equals_app o e)). cbn [negb].
  destruct (String.eqb_spec (o +:+ "=" +:+ e) "-") as [E|_].
  - pose proof (has_equals_app o e) as H1. by rewrite E in H1.
  - by rewrite (split_equals_app o e He), Ho.
Qed.
End options.

Section loop.
Context (float_of_str : string → option float) (options : list (string * action)).
Context (subparsers : dict string (list string → parsed (namespace * list string))).
Local Abbreviation loop := (parse_loop float_of_str options subparsers).

(** One option of each kind at the head of the arguments. *)
Lemma loop_store fuel s dest type choices dflt o e rest st v :
  get_values float_of_str type choices [e] = Parsed v →
  loop (S fuel) ((s, KOpt (Some (Store dest type choices dflt, o)) (Some e)) :: rest) st
  = loop fuel rest (mkState (st_positionals st) (dict_set (st_ns st) dest v) (st_extras st) (st_unrecognized st)).
Proof.
  intros Hv. cbn [parse_loop]. cbn [existsb is_option snd orb]. cbn [mbind parsed_bind].
  rewrite Nat.ltb_irrefl. cbn [before_option is_option snd]. unfold consume_optional. cbn [resolve takes_one mbind parsed_bind].
  cbn [take_flags take_action mbind parsed_bind st_ns st_positionals st_extras st_unrecognized].
  rewrite Hv. cbn [mbind parsed_bind]. by rewrite app_nil_r.
Qed.
Lemma loop_flag fuel s dest o rest st :
  loop (S fuel) ((s, KOpt (Some (StoreTrue dest, o)) None) :: rest) st
  = loop fuel rest (mkState (st_positionals st) (dict_set (st_ns st) dest (VBool true)) (st_extras st) (st_unrecognized st)).
Proof.
  cbn [parse_loop]. cbn [existsb is_option snd orb]. cbn [mbind parsed_bind].
  rewrite Nat.ltb_irrefl. cbn [before_option is_option snd]. unfold consume_optional. cbn [resolve takes_one mbind parsed_bind].
  cbn [take_flags take_action mbind parsed_bind st_ns st_positionals st_extras st_unrecognized]. by rewrite app_nil_r.
Qed.
(** A subcommand takes all that follows. *)
Lemma consume_sub name rest st d sub nsub :
  dict_get subparsers name = Some sub → sub (fst <$> rest) = Parsed (nsub, []) →
  consume_positionals float_of_str subparsers [Subparsers d] ((name, KArg) :: rest) st
  = Parsed ([], mkState [] (foldl (λ m kv, dict_set m kv.1 kv.2) (dict_set (st_ns st) d (VStr name)) nsub)
              (st_extras st) (st_unrecognized st)).
Proof.
  intros Hs Hsub. cbn [consume_positionals]. unfold match_positional. cbn [dashes drop length].
  cbn [take fmap list_fmap drop fst take_positional]. rewrite take_ge, drop_ge by lia. rewrite Hs, Hsub.
  cbn [mbind parsed_bind st_ns st_extras st_unrecognized]. by rewrite app_nil_r.
Qed.
Lemma loop_sub fuel name rest st d sub nsub :
  st_positionals st = [Subparsers d] → dict_get subparsers name = Some sub →
  sub (fst <$> rest) = Parsed (nsub, []) →
  loop (S (S fuel)) ((name, KArg) :: rest) st
  = Parsed (mkState [] (foldl (λ m kv, dict_set m kv.1 kv.2) (dict_set (st_ns st) d (VStr name)) nsub)
              (st_extras st) (st_unrecognized st)).
Proof.
  intros Hp Hs Hsub. cbn [parse_loop]. rewrite Hp, (consume_sub name rest st d sub nsub Hs Hsub).
  destruct (existsb is_option _); cbn; by rewrite app_nil_r.
Qed.
(** The positional arguments after the separator. *)
Lemma loop_end fuel args st st' :
  existsb is_option args = false →
  consume_positionals float_of_str subparsers (st_positionals st) args st = Parsed ([], st') →
  loop (S fuel) args st = Parsed st'.
Proof.
  intros Ho Hc. cbn [parse_loop]. rewrite Ho, Hc. cbn. rewrite app_nil_r. by destruct st'.
Qed.
End loop.

(** Classifying two lists of arguments, when the separator is not in the first. *)
Lemma classify_app options args1 tokens1 args2 tokens2 :
  Forall (λ s, String.eqb s "--" = false) args1 → classify options args1 = Parsed tokens1 →
  classify options args2 = Parsed tokens2 → classify options (args1 ++ args2) = Parsed (tokens1 ++ tokens2).
Proof.
  intros Hd H1 H2. revert tokens1 H1. induction Hd as [|s args1 Hs _ IH]; intros tokens1.
  - by intros [= <-].
  - cbn [classify app]. rewrite Hs. destruct (parse_optional options s) as [k|]; [|done]. cbn [mbind parsed_bind].
    destruct (classify options args1) as [l|] eqn:E; [|done]. intros [= <-]. by rewrite (IH l eq_refl).
Qed.
Lemma parse_args_intro float_of_str p subs args tokens st :
  classify (p_options p) args = Parsed tokens →
  parse_loop float_of_str (p_options p) ((λ s, (s.1, parse_known_args float_of_str s.2 [])) <$> subs)
    (S (length tokens)) tokens (mkState (p_positionals p) (defaults p) [] []) = Parsed st →
  st_positionals st = [] → st_extras st ++ st_unrecognized st = [] →
  parse_args float_of_str p subs args = Parsed (st_ns st).
Proof.
  intros Hc Hl Hp He. unfold parse_args. unfold parse_known_args at 1. rewrite Hc. cbn [mbind parsed_bind].
  rewrite Hl. cbn [mbind parsed_bind]. by rewrite Hp, He.
Qed.

Section main.
Context (float_of_str : string → option float) (path_of : string → path).
Local Abbreviation opts := (p_options main_parser).
Local Abbreviation subs := ((λ s : string * parser, (s.1, parse_known_args float_of_str s.2 [])) <$> subcommands).

(** Arguments of a subcommand, as the main parser sees them. *)
Definition harmless (s : string) : Prop := String.eqb s "--" = false ∧ ∃ k, parse_optional opts s = Parsed k.
Lemma classify_harmless args1 args2 :
  Forall harmless args1 → (∃ tokens, classify opts args2 = Parsed tokens ∧ fst <$> tokens = args2) →
  ∃ tokens, classify opts (args1 ++ args2) = Parsed tokens ∧ fst <$> tokens = args1 ++ args2.
Proof.
  induction 1 as [|s args1 [Hs [k Hk]] _ IH]; [done|]. intros H2. destruct (IH H2) as (tokens & E & Et).
  exists ((s, k) :: tokens). cbn [classify app]. rewrite Hs, Hk. cbn [mbind parsed_bind]. rewrite E. cbn [mbind parsed_bind]. by rewrite fmap_cons, Et.
Qed.
Lemma classify_dashes args : ∃ tokens, classify opts ("--" :: args) = Parsed tokens ∧ fst <$> tokens = "--" :: args.
Proof.
  eexists. split; [reflexivity|]. rewrite fmap_cons. f_equal.
  rewrite <- list_fmap_compose. apply list_fmap_id.
Qed.
Lemma harmless_explicit o e :
  has_equals o = false → String.prefix "--" (o +:+ "=" +:+ e) = true → String.prefix "-" (o +:+ "=" +:+ e) = true →
  omap (λ oa : string * action, if String.prefix o oa.1 then Some oa.1 else None) opts = [] →
  harmless (o +:+ "=" +:+ e).
Proof.
  intros He Hp2 Hp1 Ho. pose proof (has_equals_app o e) as Heq. split.
  { destruct (String.eqb_spec (o +:+ "=" +:+ e) "--") as [E|]; [|done]. by rewrite E in Heq. }
  unfold parse_optional. rewrite Hp1, (no_equals_key opts eq_refl _ Heq). cbn [negb].
  destruct (String.eqb_spec (o +:+ "=" +:+ e) "-") as [E|_]; [by rewrite E in Heq|].
  rewrite (split_equals_app o e He).
  destruct (dict_get opts o) as [a|] eqn:Ea; [eauto|].
  assert (option_tuples opts (o +:+ "=" +:+ e) = []) as ->.
  { unfold option_tuples. rewrite Hp2, (split_equals_app o e He). revert Ho. clear.
    induction opts as [|[k a] l IH]; [done|]. simpl. destruct (String.prefix o k); [done|]. exact IH. }
  destruct (_ || _); eauto.
Qed.
End main.

(** ** Reading it back *)

Section roundtrip.
Context (float_of_str : string → option float) (path_of : string → path).
Local Abbreviation subs := ((λ s : string * parser, (s.1, parse_known_args float_of_str s.2 [])) <$> subcommands).

(** An optional text reads back as an optional value. *)
Definition reads_as {A} (read : string → option A) (text : option string) (x : option A) : Prop :=
  match text, x with
  | Some s, Some v => s ≠ "--" ∧ read s = Some v
  | None, None => True
  | _, _ => False
  end.
Definition command_ok (t : texts) (cmd : Command) : Prop :=
  match cmd with
  | CmdPut _ value ttl _ _ _ => reads_as float_of_str (tx_ttl t) ttl ∧ value ≠ "--"
  | CmdDump limit => reads_as int_of_str (tx_limit t) limit
  | _ => True
  end.
Definition opt_val {A} (f : A → pyval) (x : option A) : pyval := match x with Some v => f v | None => VNone end.

Lemma get_values_one type choices e v :
  e ≠ "--" → arg_value float_of_str type e = Some v → allowed_choice choices v = true →
  get_values float_of_str type choices [e] = Parsed v.
Proof.
  intros He Hv Hc. unfold get_values. cbn [remove_first_dash].
  destruct (String.eqb_spec e "--") as [|_]; [done|]. by rewrite Hv, Hc.
Qed.

(** Positional arguments after the separator. *)
Lemma loop_key options fuel d key st :
  st_positionals st = [Argument d None] →
  parse_loop float_of_str options [] (S fuel) [("--", KDash); (key, KArg)] st
  = Parsed (mkState [] (dict_set (st_ns st) d (VStr key)) (st_extras st) (st_unrecognized st)).
Proof. intros Hp. erewrite loop_end; [reflexivity|done|]. by rewrite Hp. Qed.
Lemma loop_key_value options fuel d1 d2 key value st :
  st_positionals st = [Argument d1 None; Argument d2 None] → value ≠ "--" →
  parse_loop float_of_str options [] (S fuel) [("--", KDash); (key, KArg); (value, KArg)] st
  = Parsed (mkState [] (dict_set (dict_set (st_ns st) d1 (VStr key)) d2 (VStr value)) (st_extras st)
              (st_unrecognized st)).
Proof.
  intros Hp Hv. erewrite loop_end; [reflexivity|done|]. rewrite Hp. cbn.
  by rewrite (get_values_one StrType None value (VStr value) Hv eq_refl eq_refl).
Qed.

(** The classes of the arguments, by evaluation. *)
Local Ltac classified :=
  match goal with
  | |- context [classify ?o ?args] =>
      let c := eval vm_compute in (classify o args) in
      replace (classify o args) with c by (vm_compute; reflexivity)
  end; cbn [mbind parsed_bind length app].
(** The options, one after the other. *)
Local Ltac option_value :=
  apply get_values_one; [assumption|cbn [arg_value]; match goal with H : _ = Some _ |- _ => by rewrite H end|done].
Local Ltac run_options :=
  repeat first [rewrite loop_flag | erewrite loop_store by option_value];
  cbn [st_positionals st_ns st_extras st_unrecognized].

Lemma put_parses t key value ttl no_ttl key_json value_json :
  command_ok t (CmdPut key value ttl no_ttl key_json value_json) →
  parse_known_args float_of_str put_parser [] (tail (render_command t (CmdPut key value ttl no_ttl key_json value_json)))
  = Parsed ([("ttl", opt_val VFloat ttl); ("no_ttl", VBool no_ttl); ("value_json", VBool value_json);
             ("key_json", VBool key_json); ("key", VStr key); ("value", VStr value)], []).
Proof.
  intros [Ht Hv]. unfold parse_known_args, reads_as in *. cbn [render_command tail].
  destruct (tx_ttl t) as [e|], ttl as [x|]; try done; [destruct Ht as [He Hx]|];
    destruct no_ttl, key_json, value_json; classified; run_options; by rewrite (loop_key_value _ _ "key" "value").
Qed.
Lemma key_parses key key_json :
  parse_known_args float_of_str key_parser [] (flag_arg "--key-json" key_json ++ ["--"; key])
  = Parsed ([("key_json", VBool key_json); ("key", VStr key)], []).
Proof. unfold parse_known_args. destruct key_json; classified; run_options; by rewrite (loop_key _ _ "key"). Qed.
Lemma dump_parses t limit :
  reads_as int_of_str (tx_limit t) limit →
  parse_known_args float_of_str dump_parser [] (opt_arg "--limit" (tx_limit t))
  = Parsed ([("limit", opt_val VInt limit)], []).
Proof.
  unfold parse_known_args, reads_as. intros Ht.
  destruct (tx_limit t) as [e|], limit as [x|]; try done; destruct Ht as [He Hx]; classified; by run_options.
Qed.

(** The names of the subparsers, and the namespace of each command. *)
Definition command_name (cmd : Command) : string :=
  match cmd with
  | CmdPut _ _ _ _ _ _ => "put" | CmdGet _ _ => "get" | CmdDelete _ _ => "delete" | CmdContains _ _ => "contains"
  | CmdInspect _ _ => "inspect" | CmdDump _ => "dump" | CmdClear => "clear" | CmdStats => "stats"
  end.
Definition command_ns (cmd : Command) : namespace :=
  match cmd with
  | CmdPut key value ttl no_ttl key_json value_json =>
      [("ttl", opt_val VFloat ttl); ("no_ttl", VBool no_ttl); ("value_json", VBool value_json);
       ("key_json", VBool key_json); ("key", VStr key); ("value", VStr value)]
  | CmdGet key key_json | CmdDelete key key_json | CmdContains key key_json | CmdInspect key key_json =>
      [("key_json", VBool key_json); ("key", VStr key)]
  | CmdDump limit => [("limit", opt_val VInt limit)]
  | CmdClear | CmdStats => []
  end.
Lemma command_parses t cmd :
  command_ok t cmd →
  ∃ rest sub, render_command t cmd = command_name cmd :: rest ∧ dict_get subs (command_name cmd) = Some sub ∧
    sub rest = Parsed (command_ns cmd, []).
Proof.
  intros Hc. destruct cmd as [key value ttl no_ttl key_json value_json| | | | | | |];
    (eexists; eexists; split_conj; [reflexivity|reflexivity|]); simpl in Hc.
  - apply put_parses. exact Hc.
  - apply key_parses.
  - apply key_parses.
  - apply key_parses.
  - apply key_parses.
  - by apply dump_parses.
  - reflexivity.
  - reflexivity.
Qed.

(** As the main parser sees the arguments of the command. *)
Lemma harmless_opt o text :
  has_equals o = false → (∀ e, String.prefix "--" (o +:+ "=" +:+ e) = true) →
  (∀ e, String.prefix "-" (o +:+ "=" +:+ e) = true) →
  omap (λ oa : string * action, if String.prefix o oa.1 then Some oa.1 else None) (p_options main_parser) = [] →
  Forall harmless (opt_arg o text).
Proof.
  intros He Hp Hp1 Ho. destruct text as [e|]; [|apply Forall_nil_2]. by apply Forall_singleton, harmless_explicit.
Qed.
Lemma harmless_flag o b :
  String.eqb o "--" = false → parse_optional (p_options main_parser) o = Parsed (KOpt None None) →
  Forall harmless (flag_arg o b).
Proof. intros Hd Ho. destruct b; [|apply Forall_nil_2]. apply Forall_singleton. split; [done|eauto]. Qed.
Lemma command_classified t cmd rest :
  render_command t cmd = command_name cmd :: rest →
  ∃ tokens, classify (p_options main_parser) (render_command t cmd) = Parsed ((command_name cmd, KArg) :: tokens) ∧
    fst <$> tokens = rest.
Proof.
  intros Hr. assert (∃ tokens, classify (p_options main_parser) rest = Parsed tokens ∧ fst <$> tokens = rest)
    as (tokens & Ht & Hf).
  { destruct cmd; injection Hr as <-; rewrite ?app_assoc; try rewrite <- (app_nil_r (opt_arg _ _));
      repeat first [apply classify_dashes | by exists [] | apply classify_harmless | apply Forall_app; split
                   | apply harmless_opt; [done|done|done|reflexivity] | apply harmless_flag; [done|reflexivity]
                   | apply Forall_nil_2]. }
  exists tokens. split; [|done]. rewrite Hr. cbn [classify].
  replace (String.eqb (command_name cmd) "--") with false by (by destruct cmd).
  replace (parse_optional (p_options main_parser) (command_name cmd)) with (Parsed KArg) by (by destruct cmd).
  cbn [mbind parsed_bind]. by rewrite Ht.
Qed.

Local Ltac main_value :=
  apply get_values_one; [assumption|cbn [arg_value]; first [done | match goal with H : _ = Some _ |- _ => by rewrite H end]|assumption || done].

(** The options of the command itself. *)
Definition args_ok (t : texts) (state : string) (a : Args) : Prop :=
  int_of_str (tx_capacity t) = Some (a_capacity a) ∧ int_of_str (tx_shards t) = Some (a_shards a) ∧
  a_policy a ∈ policy_choices ∧ reads_as float_of_str (tx_default_ttl t) (a_default_ttl a) ∧
  state ≠ "--" ∧ a_config a ≠ Some "--".
Definition args_ns (a : Args) (state : string) (command : pyval) : namespace :=
  [("capacity", VInt (a_capacity a)); ("policy", VStr (a_policy a)); ("shards", VInt (a_shards a));
   ("default_ttl", opt_val VFloat (a_default_ttl a)); ("state", VStr state);
   ("config", opt_val VStr (a_config a)); ("command", command)].
Lemma options_parse t state a :
  args_ok t state a →
  ∃ tokens, classify (p_options main_parser) (render_options t (a_policy a) state (a_config a)) = Parsed tokens ∧
    Forall (λ s, String.eqb s "--" = false) (render_options t (a_policy a) state (a_config a)) ∧
    ∀ fuel rest,
      parse_loop float_of_str (p_options main_parser) subs (length tokens + fuel)%nat (tokens ++ rest)
        (mkState (p_positionals main_parser) (defaults main_parser) [] [])
      = parse_loop float_of_str (p_options main_parser) subs fuel rest
          (mkState (p_positionals main_parser) (args_ns a state VNone) [] []).
Proof.
  intros (Hcap & Hsh & Hpol & Httl & Hst & Hcfg).
  assert (tx_capacity t ≠ "--" ∧ tx_shards t ≠ "--") as [Hd1 Hd2] by (split; intros E; by rewrite E in *).
  assert (a_policy a ≠ "--") as Hd3 by (by intros E; rewrite E in Hpol; apply (bool_decide_eq_true_2 _) in Hpol).
  assert (allowed_choice (Some policy_choices) (VStr (a_policy a)) = true) as Hp by by apply str_in_spec.
  unfold render_options, args_ns, reads_as in *.
  generalize dependent (tx_capacity t). generalize dependent (tx_shards t). generalize dependent (tx_default_ttl t).
  generalize dependent (a_policy a). generalize dependent (a_config a). generalize dependent (a_default_ttl a).
  intros [x|] [c|] Hcfg pol Hpol Hd3 Hp [e|] Httl tsh Hsh Hd2 tcap Hcap Hd1; try done;
    match goal with
    | |- ∃ _, classify ?o ?args = _ ∧ _ =>
       let r := eval vm_compute in (classify o args) in
       lazymatch r with Parsed ?l => exists l end
    end; (split; [vm_compute; reflexivity|split; [repeat constructor|]]).
  all: repeat match goal with H : _ ∧ _ |- _ => destruct H end; try (assert (c ≠ "--") by congruence); clear Hcfg.
  all: intros fuel rest; cbn [length app Nat.add].
  all: repeat erewrite loop_store by main_value; reflexivity.
Qed.

Lemma cli_parses t state a name rest nsub sub tokens :
  args_ok t state a →
  classify (p_options main_parser) (name :: rest) = Parsed ((name, KArg) :: tokens) → fst <$> tokens = rest →
  dict_get subs name = Some sub → sub rest = Parsed (nsub, []) →
  cli_parse float_of_str (render_options t (a_policy a) state (a_config a) ++ name :: rest)
  = Parsed (foldl (λ m kv, dict_set m kv.1 kv.2) (args_ns a state (VStr name)) nsub).
Proof.
  intros Ha Hcl Hf Hsub Hns. destruct (options_parse t state a Ha) as (tokens1 & H1 & Hd & Hrun).
  apply (parse_args_intro float_of_str main_parser subcommands _ (tokens1 ++ (name, KArg) :: tokens)
    (mkState [] (foldl (λ m kv, dict_set m kv.1 kv.2) (args_ns a state (VStr name)) nsub) [] []));
    [by apply classify_app| |reflexivity|reflexivity].
  rewrite length_app, <- Nat.add_succ_r, Hrun. cbn [length].
  rewrite (loop_sub _ _ _ _ name tokens _ "command" sub nsub); [reflexivity|reflexivity|exact Hsub|by rewrite Hf].
Qed.

(** The command line of a command. *)
Definition render (t : texts) (state : string) (a : Args) : list string :=
  render_options t (a_policy a) state (a_config a) ++ render_command t (a_command a).

(** The namespace of a command is read as the command. *)
Lemma read_back a state :
  path_of state = a_state a →
  read_invocation path_of
    (foldl (λ m kv, dict_set m kv.1 kv.2) (args_ns a state (VStr (command_name (a_command a)))) (command_ns (a_command a)))
  = Some (Basic a).
Proof.
  intros Hst. destruct a as [cap pol sh ttl st cfg cmd]. simpl in Hst. subst st.
  destruct ttl, cfg; destruct cmd as [? ? [] ? ? ?| | | | |[]| |]; reflexivity.
Qed.

(** C21: every basic command can be asked for.  Given texts that [int] and [float] read as its numbers,
    the command line that writes the options with an equals sign and the positional arguments after
    the separator is parsed back to exactly the command: any key (even one that starts with a dash), any value
    but the separator itself, any of the policies.  No option is taken for another, and neither the options nor
    the arguments of a subcommand are confused with those of the command itself. *)
Theorem command_line_roundtrip (t : texts) (state : string) (a : Args) :
  args_ok t state a → command_ok t (a_command a) → path_of state = a_state a →
  ∃ ns, cli_parse float_of_str (render t state a) = Parsed ns ∧ read_invocation path_of ns = Some (Basic a).
Proof.
  intros Ha Hc Hs. destruct (command_parses t (a_command a) Hc) as (rest & sub & Hr & Hsub & Hns).
  destruct (command_classified t (a_command a) rest Hr) as (tokens & Hcl & Hf). unfold render. rewrite Hr in *.
  eexists. split; [by eapply cli_parses|by apply read_back].
Qed.
End roundtrip.

(** [cachelab --capacity=2 --policy=lfu --shards=1 --state=s.json put --ttl=5 --key-json -- --k v] *)
Lemma command_line_roundtrip_witness :
  let a := mkArgs 2 "lfu" 1 None ("", "s.json") None (CmdPut "--k" "v" (Some (float_of_Z 5)) false true false) in
  let t := mkTexts "2" "1" None (Some "5") None in
  ∃ ns, cli_parse whole_float (render t "s.json" a) = Parsed ns ∧ read_invocation here ns = Some (Basic a).
Proof.
  intros a t. apply (command_line_roundtrip whole_float here t "s.json" a); [|by vm_compute|reflexivity].
  split_conj; try reflexivity. by apply (bool_decide_unpack _).
Defined.
